(* ===== verification/_CoqProject ===== *)
-Q . S2P
Prelude.v
RustStd.v
Utf8.v
Bytes.v
Json.v
F64Facts.v
TrustGate.v
Canonical.v
Precedence.v
Quota.v
QuotaFacts.v
ReverseQuorum.v
Consensus.v
TwoPath.v
Matcher.v
Consent.v
Query.v
QuerySql.v
QueryText.v
ConsentRead.v
Cache.v
CacheRuns.v
CallerScope.v
AdmissionCache.v
AuditChain.v
AuditBytes.v
Locks.v
TrustRoot.v
Pressure.v
PressureFacts.v
Sweep.v
SweepFacts.v
Fountain.v
FountainFacts.v
Outbound.v
OutboundFacts.v
TrustBounded.v
TrustGrants.v
TrustVerdict.v
TrustAnswers.v
Charter.v
Roster.v
RosterFold.v
RosterAuthority.v
RosterPrepare.v
RosterDoors.v
Membership.v
MembershipGates.v
Reach.v
ReachFacts.v
