(* ===== verification/Prelude.v ===== *)
(** * CIRISPersist: the decision core of the federation substrate

    CIRISPersist is a storage substrate: signed rows (attestations) are admitted at
    write doors, replicated between nodes, and read back through folds that decide whom a
    key trusts, who is in a group, who retracted what, whether an action stands, whether a
    change is admitted, whether a proposal lands, what a dimension means, and whether a
    subject consents. Around the folds sit the bounded query every read goes through, the
    gate that decides which rows a caller may see, the caches of aggregates and of resolved
    callers, and the audit chain; under them, what a node spends on its peers: the budgets of
    their writes, the tiers of a filling disk and what each gives up, the symbols that content
    decays into, and the messages that wait to be sent. This library models those parts, as written under
    [src/src/], and proves what a node may rely on when it acts on their answers. File
    names below are relative to [src/src/federation/] unless a folder is given.

    ** Files, and the sources they model

    Shared:
    - [Prelude]: notation, tactics, the rewrite database [reflect_bool], counts, and
      generic list, option and result lemmas.
    - [RustStd]: the parts of Rust's standard library the code uses: [str] searching and
      splitting, [FromStr] and [Display] of unsigned integers, the byte order of strings,
      stable slice sorts, maps collected in order.
    - [Utf8], [Bytes]: UTF-8 validity; little-endian integers and length-prefixed framing.
    - [Json]: [serde_json::Value], binary64 floats (the executable specification of the
      Standard Library), instants as nanosecond counts, and the row struct [Attestation]
      of [types.rs] with every field. Class [Chrono] holds what is used of the [chrono]
      crate, with documented laws; [chrono_bounds] is an instance.
    - [F64Facts]: rounding of binary64 sums, products and quotients, and of integers read as
      floats, for the components that compute with them.
    - [Canonical]: [verify/canonical.rs], the pinned canonical serialiser and the signing
      form. The JCS writer of RFC 8785 belongs to another crate and is a parameter.

    Trust:
    - [TrustRoot]: [trust_root.rs] and what it asks of [envelope.rs],
      [canonical_community.rs], [reverse_quorum.rs] and [admission.rs]: the verdict of a
      root, the subscriptions, the capability walk on its three planes, transit, the serve
      tier, the relay of accord rows. [Directory] is the storage it reads, [TrustBuild] what
      the build fixes. The [*_reference] functions are the source's own unbounded walks.
    - [TrustBounded]: the walks read bounded slices; they answer as the reference walks do.
      [Holds] states what a directory over a store answers.
    - [TrustGrants], [TrustVerdict], [TrustAnswers]: rows as standing edges, charters and
      conferrals, and what each answer rests on.
    - [Charter]: the charter doors of [trust_root.rs] and the pinned commitment over keys.
      Class [CommitmentCrypto] holds JCS (equal bytes are equal values), the digest and hex.

    Rosters:
    - [Roster]: the authorized roster of [mod.rs]: events, standing, the replay and its
      spans, founder authority and bearing [node] as intervals, and the preparation of stored
      rows. [GroupReads] holds the moderation and objection reads of a group.
    - [RosterFold], [RosterAuthority], [RosterPrepare]: the replay, the intervals, and the
      preparation, each against what it stands for.
    - [RosterDoors]: the directory-level reads of a family's and a room's roster, and the
      standing check of the roster doors. [GroupDirectory] is the storage they read.
    - [Membership], [MembershipGates]: [membership_acceptance.rs] whole but for its emit
      inputs: proposals, replies and the door they come in by, the growth gate, the founding
      and supersede rules, the live invitees; and what a growth rests on.

    Delegations:
    - [Reach], [ReachFacts]: the scoped walk over [delegates_to] edges of [admission.rs], the
      lens it is read through, the signed term of an edge, and the questions asked of it:
      reachability with its reasons, the proxy of a consent, named moderators, the moderation
      reach of a root at an instant. Class [Rfc3339] parses an instant; [ModerationReads] is
      what is read of other modules.

    Governance and consent:
    - [Precedence]: [precedence.rs] whole (dedup, precedence, entitlement,
      [retired_ids]), with the classifiers it asks of [row_type.rs], [custody_ack.rs] and
      [namespace/registry.rs].
    - [ReverseQuorum]: [reverse_quorum.rs], the policy grammar and printer, thresholds,
      objections, dismissals, ballots, escalation to the steward tier, and the read-time
      fold. Class [StrictMajority] states what the fold uses of the pinned consensus
      crate's majority.
    - [Consensus]: [consensus.rs] whole, the protocol evaluator with its weighted and
      expression forms, and the vocabulary gate of [types.rs].
    - [TwoPath]: [two_path.rs] whole but for its text tokens.
    - [Matcher]: [namespace/matcher.rs] whole. Class [Grammar] holds the [regex]
      crate's compilation (a compiled pattern is the predicate it answers) and Unicode
      lowercasing, with its law on ASCII.
    - [Consent]: [consent_scope.rs] and the folds of [consent.rs]. Class [ConsentReads]
      states what the directory's paged reads promise; the fold is proved against it, and
      [memory_reads] discharges it for rows held in memory.

    Replication and storage:
    - [TrustGate]: [replication/trust_scoring.rs] and [AdmissionGate] of
      [replication/admission.rs]: the aggregated score and the gate on it.
    - [Quota], [QuotaFacts]: [PeerWriteQuota] of [replication/admission.rs]: the token
      buckets of two dimensions on two horizons, the classes of a write, charging, refusals
      and pruning. Class [QuotaBuild] holds the ids of the baked
      genesis rows and the JSON writer.
    - [Pressure], [PressureFacts]: [replication/disk_pressure.rs], [cache_mode.rs] and the
      configuration: tiers with their floors, the monitor's step, the watermark.
    - [Sweep], [SweepFacts]: one cycle of the capacity sweep ([engine.rs],
      [replication/eviction.rs]) with the installed budgets and the statements of the sqlite
      backend. Class [Powf] holds [f64::powf], record [Claims] a holder's claims.
    - [Fountain], [FountainFacts]: [src/src/fountain/] and the fountain tables of the sqlite
      backend: admission of a manifest with its symbols, eviction to a tier, hard delete, the
      degraded read, the consent clock and its sweep. Classes [FountainCrypto] (the digest and
      the hybrid signature check) and [RetentionCore] (the verify core's verdict).
    - [Outbound], [OutboundFacts]: [src/src/outbound/] with its operations in the sqlite
      backend, over the rows of [edge_outbound_queue].

    Reads, caches, audit:
    - [Query]: [attestation_query.rs], the query, [validate], [admits], the page cut, the
      cursor and the walk over pages. Class [Serves] states what an executor of one
      statement promises; [memory_exec] discharges it.
    - [QuerySql]: [render_sql] as a plan of clauses and binds, its text, and a reading of
      the clauses over rows; the prefix bounds of [ceg/list/federation.rs]. Class
      [SqlText] holds how SQL reads a JSON member as text.
    - [QueryText]: the fragment of SQL the text of [render_sql] is written in ([Sql]: its
      spelling, what each dialect accepts, what it returns), and the text read in it.
    - [ConsentRead]: the consent fold over the pages of [Query]; an executor that serves a
      store discharges [ConsentReads].
    - [Cache], [CacheRuns]: [src/src/cache/]; runs of reads and writes through the cache,
      and the interleaving of its critical sections with writes as a step relation.
    - [CallerScope]: [src/src/scope/], with the scope classifier of [types.rs]: the gate,
      its SQL twin, the resolution of a caller.
    - [AdmissionCache]: [cache/admission.rs], the resolved callers with their reverse index.
    - [AuditChain], [AuditBytes]: the hash chain of [src/src/audit/] ([record_entry],
      [try_claim_event], [next_chain_position], [verify_chain] of the sqlite backend) and
      the bytes its hashes cover. Class [AuditCrypto] holds the canonical bytes, the hash
      and the signature check.
    - [Locks]: the maintenance locks of [src/src/maintenance_locks/].

    How they meet: [Precedence] is called by [Consent]; [ReverseQuorum]'s majority by
    [Consensus] and [TwoPath]; [Consensus] judges every roster event ([Roster]) and
    [ReverseQuorum]'s fold reverses it; [TrustRoot] reads rosters and rows through
    [Directory], and so does [Reach], whose moderation walk [Roster] asks for a root's
    appointments; [Charter] admits the rows it walks, [RosterDoors] the rosters' rows once
    [Membership] finds a new member's consent; [ConsentRead] joins [Consent] to [Query];
    [AdmissionCache] holds what [CallerScope] resolves; [Pressure]'s tiers drive
    [Fountain]'s eviction and its watermark [Sweep]; [Consent]'s stances drive [Fountain]'s
    revocation; [Quota] classes a write by [Precedence]'s dimension of the envelope; all folds
    read [Json]'s rows.

    ** What the theorems show

    - Trust (C1-C3, C14): what a valid verdict and a trusted grant rest on, exactly; the
      bounded walks answer as the unbounded; what transit rests on. Also: retracting the edges
      to a root ends all it gave; only a signer ends their conferral; the instant a verdict
      holds until; two charter quorums share a holder; serve tiers, the relay of accord rows.
    - Charters (C8, C15): what the door admitted the walk can use and recover; only the
      committed keys recover a root. Also: a commitment names one set of keys, and recovery
      keys are apart; door and walk count one quorum.
    - Rosters (C4-C6, C22, C23): nodes that hold the same rows agree whatever their order; the
      door and the fold are one judge but for removals by moderators; every member is accounted for; founder authority and
      bearing [node] are exactly what their intervals say. Also: spans, and when a founder is
      lost.
    - Delegations (C11-C13): a key is a named moderator exactly when the enumeration holds it;
      without attenuation the walk finds exactly the keys within the cap; the walk ends, and
      rests on live chains. Also: the verdict with reasons agrees with the plain one; the run
      in which one appointment more hides a chain.
    - Membership (C7): a growth passes exactly on the member's own live consent, or as a node
      the founders of an infrastructure room seat; the roster door seats nobody new without. Also: no member both accepts and declines.
    - Retraction and governance (C9, C25-C27): the fold reverses exactly on a threshold
      of objections that count; [retired_ids] retires exactly what an entitled retraction
      names; what a landing rests on; open vocabulary bypasses no fence. Also: the two-path
      decision is total inside the calendar, one precedence winner, order independence,
      escalation, no self-admission, majorities meet, printing and parsing of policies.
    - Consent (C28, C29): what a granted answer rests on; the fold over bounded pages answers
      as the fold over every row.
    - Query (C30-C32): the pages hold every matching row once and end; a store that changes
      under the walk; the text of the statement, read as SQL, answers as the predicate.
    - Cache and callers (C33, C34): a run through the cache answers as the database, for callers that do
      not interleave and writes that keep to their windows; the SQL gate
      is the Rust gate. Also: the cache's bounds and exact byte count; staleness is bounded by the
      ttl under any interleaving; the reverse index loses no admission; locks are exclusive
      and end.
    - Write budgets (C16-C18): a charge is admitted exactly when every budget it pays has the
      tokens for its cost, on every dimension and horizon; the reserve and the rest do not touch each other; other keys cannot drain a peer.
      Also: what one instant admits; the gate on trust fails closed; scores stay in the unit
      interval. The clock of a bucket can be set back ([late_arrival_credits_twice]).
    - Disk (C10): the sweep frees what it must, reports it, and keeps the reserve, where no held
      blob is a manifest's child. Also: what children of a root do to it; the
      order of shedding; budgets never roll back; tiers and their floors are monotone.
    - Fountain (C19-C21): sweeps of the consent clock converge; tiers degrade reads step by step;
      revocation deletes every symbol of the content id, under every corpus kind. Also: what is admitted reads back; which
      re-admissions and corpus kinds break this.
    - Outbound queue (C24, C35, C36): the sweep of the TTL ends rows; no statement breaks a
      check of the table; attempts are the claims since the last replay, bounded by the policy
      and the crashes. Also: the queue
      refines the machine of its statuses, claims are exact and disjoint, counts are the
      listing's, and the runs in which a TTL stops the sweep, a crash loop exceeds
      [max_attempts], or a late report ends another's claim.
    - Audit and canonical bytes (C37-C40): the write path keeps every chain; verified chains
      with one head hold the same entries, or two of their entries are a collision of the hash;
      what never verifies again;
      canonical bytes are equal exactly for equal values.

    ** Conventions, bounds and fuel

    A panic is [None] of the functions that can reach it; a [Result] is a sum (or an option
    where its error is not read). [usize] counts are unbounded [N] (a slice's length is far
    below 2^64) except where the code saturates or wraps them (the cache's byte count and
    counters), parsed integers keep their width, [i64] windows and sequence numbers are [Z],
    strings are bytes. Floats are binary64 values of the Standard Library's specification with
    its rounding; byte and row counts of the sweep saturate or stay below their width as the
    code has them. The clock is an argument: a function that reads it more than once gets one
    instant. SQL statements are functions of the rows they name, in one transaction; where
    [ORDER BY] leaves ties open the model takes the order of the keys. [HashSet] and [BTreeMap] are [gset] and [gmap] (read in key order), or
    lists where order matters. Recursion is structural (a declared expression also carries
    the source's depth bound) but for: [trim_matches], with the length of its string, each
    round removing a byte; the eviction loop of the cache, with the size of the map, each
    round removing an entry, so it ends before its fuel (part of [lru_insert]'s
    specification); a walk over pages, one statement per turn, where [pages_complete] gives
    the turns that are enough; the walk over delegations, one node per turn, where [enough]
    (two more than the rows of the store, each node but the first being a new recipient) is
    proved to be enough; the rotations of a grant, with the source's own bound
    [MAX_GRANT_ROTATIONS].

    ** Not modelled

    SQL execution, migrations, the engine, HTTP and Python bindings (I/O and glue);
    cryptography and signature checks, JCS, the Merkle tree (third-party); diagnostic texts.
    Of the modelled files: the write doors of [reverse_quorum.rs], [consent_role_of], the
    audit listings. The write-scope gate, a room's dissolution and the
    trust-root checks of [canonical_community.rs] are operations of the directory records
    that use them. Of replication, the audience predicates of [hold.rs], the WILL doors and
    the polling loops; of the fountain store, aggregated tiers and the listing of holdings; of
    the outbound queue, the decoding of a row. The postgres twins of the sqlite statements
    (text run by a server), the remaining admission gates, licence chains, amendments of a
    group's record and the consent doors are outside the library; they reuse the rows, the
    rosters, the walks and the folds modelled here. *)

From Stdlib Require Import ZArith NArith Lia.
From stdpp Require Import base list strings sorting.

Declare Scope persist_scope.
Delimit Scope persist_scope with persist.

(** ** Notation shared by every component *)

(** Byte-exact string equality, the [==] of [str]. *)
Notation "a =s b" := (String.eqb a b) (at level 70, no associativity) : persist_scope.
Notation "a <>s b" := (negb (String.eqb a b)) (at level 70, no associativity) : persist_scope.

(** [str]'s [Ord]: lexicographic on bytes. *)
Notation "a <s b" := (String.ltb a b) (at level 70, no associativity) : persist_scope.

Open Scope persist_scope.

(** ** Automation *)

Create HintDb persist.

(** Turn the boolean tests that the code makes into propositions. *)
#[export] Hint Rewrite
  andb_true_iff andb_false_iff orb_true_iff orb_false_iff negb_true_iff negb_false_iff
  String.eqb_eq String.eqb_neq
  N.eqb_eq N.eqb_neq N.leb_le N.leb_gt N.ltb_lt N.ltb_ge
  Z.eqb_eq Z.eqb_neq Z.leb_le Z.leb_gt Z.ltb_lt Z.ltb_ge
  existsb_exists forallb_forall : reflect_bool.

Ltac breflect := autorewrite with reflect_bool in *.

(** Split the innermost conditional or match of the goal or of a hypothesis. *)
Ltac case_if :=
  match goal with
  | |- context [if ?b then _ else _] => destruct b eqn:?
  | H : context [if ?b then _ else _] |- _ => destruct b eqn:?
  end.

Ltac case_opt :=
  match goal with
  | |- context [match ?o with Some _ => _ | None => _ end] => destruct o eqn:?
  | H : context [match ?o with Some _ => _ | None => _ end] |- _ => destruct o eqn:?
  end.

Ltac inv H := inversion H; subst; clear H.

(** ** Lengths as machine counts

    [usize] counts are [N]; a slice's length is far below the width. *)
Definition len {A} (l : list A) : N := N.of_nat (length l).

Section Len.
Context {A : Type}.
Implicit Types l : list A.

Lemma len_nil : len ([] : list A) = 0%N.
Proof. reflexivity. Qed.

Lemma len_cons (x : A) l : len (x :: l) = (1 + len l)%N.
Proof. unfold len; simpl length; lia. Qed.

Lemma len_app l1 l2 : len (l1 ++ l2) = (len l1 + len l2)%N.
Proof. unfold len; rewrite length_app; lia. Qed.

Lemma len_zero l : len l = 0%N <-> l = [].
Proof. unfold len; destruct l; simpl; split; intros; try done; lia. Qed.

Lemma len_perm l1 l2 : Permutation l1 l2 -> len l1 = len l2.
Proof. intros H; unfold len; by rewrite (Permutation_length H). Qed.

Lemma len_filter_le (f : A -> bool) l : (len (List.filter f l) <= len l)%N.
Proof.
  induction l as [|x l IH]; simpl; [done|].
  destruct (f x); rewrite ?len_cons; lia.
Qed.

Lemma len_filter_all (f : A -> bool) l :
  len (List.filter f l) = len l <-> forall x, In x l -> f x = true.
Proof.
  induction l as [|x l IH]; simpl; [naive_solver|].
  pose proof (len_filter_le f l).
  destruct (f x) eqn:E; rewrite ?len_cons.
  - split.
    + intros Hl y [->|Hy]; [done|]. apply IH; [lia|done].
    + intros Ha. assert (len (List.filter f l) = len l) by (apply IH; auto). lia.
  - split; [lia|]. intros Ha. specialize (Ha x). intuition congruence.
Qed.

Lemma len_filter_split (f : A -> bool) l :
  (len (List.filter f l) + len (List.filter (fun x => negb (f x)) l) = len l)%N.
Proof.
  induction l as [|x l IH]; simpl; [done|].
  destruct (f x); simpl; rewrite ?len_cons; lia.
Qed.

Lemma len_filter_mono (f g : A -> bool) l :
  (forall x, In x l -> f x = true -> g x = true) ->
  (len (List.filter f l) <= len (List.filter g l))%N.
Proof.
  induction l as [|x l IH]; simpl; intros H; [done|].
  assert (len (List.filter f l) <= len (List.filter g l))%N by (apply IH; auto).
  destruct (f x) eqn:Ef; [rewrite (H x); auto; rewrite !len_cons; lia|].
  destruct (g x); rewrite ?len_cons; lia.
Qed.

(** Distinct elements of one list that all occur in another. *)
Lemma len_incl l l' : NoDup l -> incl l l' -> (len l <= len l')%N.
Proof.
  intros Hnd Hi. apply NoDup_ListNoDup in Hnd.
  pose proof (NoDup_incl_length Hnd Hi). unfold len. lia.
Qed.
End Len.

#[export] Hint Resolve len_filter_le : persist.

(** ** A left fold that keeps the better of two candidates

    The code's [let mut best = xs[0]; for x in &xs[1..] { if wins(x, best) .. }]. *)
Section FoldBest.
Context {A : Type} (better : A -> A -> bool).

Definition fold_best (x : A) (l : list A) : A :=
  fold_left (fun best c => if better c best then c else best) l x.

Lemma fold_best_in x l : In (fold_best x l) (x :: l).
Proof.
  unfold fold_best; revert x; induction l as [|y l IH]; intros x; simpl; [auto|].
  destruct (IH (if better y x then y else x)) as [E|E]; [|auto].
  destruct (better y x); auto.
Qed.

Hypothesis better_trans : forall a b c, better a b = true -> better b c = true -> better a c = true.
Hypothesis better_irrefl : forall a, better a a = false.
Hypothesis better_cotrans :
  forall a b c, better a c = true -> better a b = true \/ better b c = true.

(** Nothing in the list beats the element the fold keeps. *)
Lemma fold_best_max x l : forall y, In y (x :: l) -> better y (fold_best x l) = false.
Proof.
  unfold fold_best; revert x; induction l as [|z l IH]; intros x y Hy; simpl.
  { destruct Hy as [->|[]]; apply better_irrefl. }
  destruct Hy as [->|[->|Hy]]; [|..|apply IH; by right].
  - destruct (better z y) eqn:E; [|apply IH; by left].
    apply not_true_iff_false; intros Hb.
    assert (Hz := IH z z (or_introl eq_refl)).
    rewrite (better_trans z y _ E Hb) in Hz; done.
  - destruct (better y x) eqn:E; [apply IH; by left|].
    apply not_true_iff_false; intros Hb.
    destruct (better_cotrans y x _ Hb) as [Hyx|Hx]; [congruence|].
    rewrite (IH x x (or_introl eq_refl)) in Hx; done.
Qed.
End FoldBest.

(** ** Options *)

Lemma some_bind {A B} (f : A -> option B) (x : A) : (Some x ≫= f) = f x.
Proof. reflexivity. Qed.

(** Peel one [Some] of a bind chain off a hypothesis. *)
Ltac bind_inv H :=
  let x := fresh "x" in let E := fresh "E" in
  apply bind_Some in H as (x & E & H).

(** ** Results

    A [Result] is a sum with the error on the left; [x ← e; k] is the [?] operator. *)
#[export] Instance result_ret {E} : MRet (sum E) := fun A x => inr x.
#[export] Instance result_bind {E} : MBind (sum E) := fun A B f m =>
  match m with inl e => inl e | inr x => f x end.

Lemma ok_bind {E A B} (f : A -> E + B) (x : A) : ((inr x : E + A) ≫= f) = f x.
Proof. reflexivity. Qed.

Lemma bind_ok {E A B} (f : A -> E + B) (m : E + A) (y : B) :
  (m ≫= f) = inr y <-> exists x, m = inr x /\ f x = inr y.
Proof. destruct m as [e|x]; cbv [mbind result_bind]; naive_solver. Qed.

Lemma bind_ext {E A B} (f g : A -> E + B) (m : E + A) :
  (forall x, f x = g x) -> (m ≫= f) = (m ≫= g).
Proof. intros H. destruct m; cbv [mbind result_bind]; auto. Qed.

Lemma bind_assoc_ok {E A B C} (m : E + A) (f : A -> E + B) (g : B -> E + C) :
  (m ≫= fun x => f x ≫= g) = ((m ≫= f) ≫= g).
Proof. by destruct m. Qed.

(** Peel one [Ok] of a bind chain off a hypothesis. *)
Ltac ok_inv H :=
  let x := fresh "x" in let E := fresh "E" in
  apply bind_ok in H as (x & E & H).

(** ** Small list facts *)

Lemma existsb_false {A} (f : A -> bool) l :
  existsb f l = false <-> forall x, In x l -> f x = false.
Proof.
  split.
  - intros H x Hx. apply not_true_iff_false; intros Hf.
    apply not_true_iff_false in H; apply H, existsb_exists; eauto.
  - intros H. apply not_true_iff_false; intros Hc.
    apply existsb_exists in Hc as (x & Hx & Hf). rewrite H in Hf; done.
Qed.

Lemma existsb_perm {A} (f : A -> bool) l1 l2 :
  (forall x, In x l1 <-> In x l2) -> existsb f l1 = existsb f l2.
Proof.
  intros H. apply eq_true_iff_eq. rewrite !existsb_exists.
  split; intros (x & Hx & Hf); exists x; split; try done; by apply H.
Qed.

Lemma find_some_iff {A} (f : A -> bool) l :
  is_Some (List.find f l) <-> exists x, In x l /\ f x = true.
Proof.
  split.
  - intros [x Hx]. apply List.find_some in Hx. eauto.
  - intros (x & Hx & Hf). destruct (List.find f l) eqn:E; [eauto|].
    rewrite (List.find_none _ _ E x Hx) in Hf; done.
Qed.

Lemma filter_filter_andb {A} (f g : A -> bool) l :
  List.filter g (List.filter f l) = List.filter (fun x => f x && g x) l.
Proof.
  induction l as [|x l IH]; simpl; [done|]. destruct (f x); simpl; [destruct (g x)|]; by rewrite ?IH.
Qed.

Lemma perm_filter {A} (f : A -> bool) l1 l2 :
  Permutation l1 l2 -> Permutation (List.filter f l1) (List.filter f l2).
Proof.
  induction 1; simpl; repeat case_match; eauto using Permutation.
Qed.

(** ** Iterators whose test may panic *)

(** [iter.any(f)] for a test that may panic, left to right, stopping at the first hit. *)
Fixpoint anyM {A} (f : A -> option bool) (l : list A) : option bool :=
  match l with
  | [] => Some false
  | x :: l' => b ← f x; if (b : bool) then Some true else anyM f l'
  end.

(** [iter.filter(f).collect()] for such a test. *)
Fixpoint filterM {A} (f : A -> option bool) (l : list A) : option (list A) :=
  match l with
  | [] => Some []
  | x :: l' => b ← f x; l'' ← filterM f l'; Some (if (b : bool) then x :: l'' else l'')
  end.

(** At most one element can decide the search, so its place does not matter. *)
Lemma anyM_hit {A} (f : A -> option bool) l x :
  In x l -> f x <> Some false -> (forall y, In y l -> f y <> Some false -> y = x) -> anyM f l = f x.
Proof.
  induction l as [|z l IH]; intros Hx Hf Hu; [done|]. simpl.
  destruct (decide (f z = Some false)) as [E|E].
  - rewrite E. simpl. destruct Hx as [->|Hx]; [done|]. apply IH; auto. intros. apply Hu; [by right|done].
  - rewrite (Hu z (or_introl eq_refl) E) in E |- *. destruct (f x) as [[]|]; done.
Qed.

Lemma anyM_miss {A} (f : A -> option bool) l :
  (forall y, In y l -> f y = Some false) -> anyM f l = Some false.
Proof.
  induction l as [|z l IH]; intros Hu; [done|]. simpl. rewrite (Hu z (or_introl eq_refl)). simpl.
  apply IH. intros. apply Hu. by right.
Qed.

Lemma anyM_ext {A} (f : A -> option bool) l l' :
  (forall x, f x <> Some false -> In x l <-> In x l') ->
  (forall x y, In x l -> In y l -> f x <> Some false -> f y <> Some false -> x = y) ->
  anyM f l = anyM f l'.
Proof.
  intros Hext Hu. destruct (existsb (fun x => negb (bool_decide (f x = Some false))) l) eqn:Ee.
  - apply existsb_exists in Ee as (x & Hx & Hfx). apply negb_true_iff, bool_decide_eq_false in Hfx.
    rewrite (anyM_hit f l x), (anyM_hit f l' x); auto; [by apply Hext|].
    intros y Hy Hfy. apply Hext in Hy; auto.
  - rewrite existsb_false in Ee.
    assert (Hl : forall y, In y l -> f y = Some false).
    { intros y Hy. specialize (Ee y Hy). by apply negb_false_iff, bool_decide_eq_true in Ee. }
    rewrite !anyM_miss; [done| |done]. intros y Hy.
    destruct (decide (f y = Some false)) as [|Hne]; [done|]. apply Hl. by apply Hext.
Qed.

Lemma filterM_some {A} (f : A -> option bool) l l' :
  filterM f l = Some l' -> l' = List.filter (fun x => bool_decide (f x = Some true)) l /\
    forall x, In x l -> f x <> None.
Proof.
  revert l'. induction l as [|x l IH]; intros l' Hf; simpl in Hf.
  { injection Hf as <-. by split. }
  bind_inv Hf. bind_inv Hf. injection Hf as <-. destruct (IH _ E0) as [-> Hn]. split.
  - simpl. rewrite E. by destruct x0.
  - intros y [<-|Hy]; [congruence|auto].
Qed.

Lemma filterM_none {A} (f : A -> option bool) l :
  filterM f l = None -> exists x, In x l /\ f x = None.
Proof.
  induction l as [|x l IH]; simpl; [done|]. destruct (f x) as [b|] eqn:E; simpl; [|eauto].
  destruct (filterM f l); simpl; [done|]. intros _. destruct IH as (y & ? & ?); eauto.
Qed.

(** Elements with distinct keys are told apart by their keys. *)
(** An invariant of a loop over a slice. *)
Lemma fold_left_inv {A B} (P : A -> Prop) (f : A -> B -> A) (l : list B) (a : A) :
  P a -> (forall a b, In b l -> P a -> P (f a b)) -> P (fold_left f l a).
Proof.
  revert a. induction l as [|b l IH]; simpl; intros a Ha Hf; [done|].
  apply IH; [apply Hf; auto|]. intros; apply Hf; auto.
Qed.

Lemma map_key_inj {A B} (key : A -> B) (l : list A) a b :
  NoDup (map key l) -> In a l -> In b l -> key a = key b -> a = b.
Proof.
  intros Hnd Ha Hb E. apply list_elem_of_In, list_elem_of_lookup in Ha as [i Hi].
  apply list_elem_of_In, list_elem_of_lookup in Hb as [j Hj].
  assert (i = j) as ->; [|congruence].
  eapply NoDup_lookup; [exact Hnd|..]; rewrite list_lookup_fmap; [by rewrite Hi|].
  rewrite Hj. simpl. by rewrite E.
Qed.

Lemma mapM_In {A B} (f : A -> option B) l k :
  mapM f l = Some k ->
  (forall x, In x l -> exists y, In y k /\ f x = Some y) /\ (forall y, In y k -> exists x, In x l /\ f x = Some y).
Proof.
  intros Hm. apply mapM_Some in Hm. induction Hm as [|x y l k Hxy Hm [IH1 IH2]]; [by split; intros ? []|]. split.
  - intros z [<-|Hz]; [by exists y; split; [left|]|]. destruct (IH1 z Hz) as (w & ? & ?). exists w. by split; [right|].
  - intros z [<-|Hz]; [by exists x; split; [left|]|]. destruct (IH2 z Hz) as (w & ? & ?). exists w. by split; [right|].
Qed.

Lemma mapM_total {A B} (f : A -> option B) l :
  (forall x, In x l -> f x <> None) -> is_Some (mapM f l).
Proof.
  intros Hf. destruct (mapM f l) eqn:E; [eauto|]. apply mapM_None, List.Exists_exists in E.
  destruct E as (x & Hx & E). by apply Hf in Hx.
Qed.

(** What a map that may fail over a list answers for. *)
Lemma mapM_result {E A B} (f : A -> E + B) l k :
  mapM f l = inr k ->
  (forall x, In x l -> exists y, In y k /\ f x = inr y) /\ (forall y, In y k -> exists x, In x l /\ f x = inr y).
Proof.
  revert k. induction l as [|x l IH]; intros k Hm; [by injection Hm as <-; split; intros ? []|].
  cbn [mapM] in Hm. apply bind_ok in Hm as (y & Hy & Hm). apply bind_ok in Hm as (k' & Hk & Hm). injection Hm as <-.
  destruct (IH _ Hk) as [IH1 IH2]. split.
  - intros z [<-|Hz]; [exists y; by split; [left|]|]. destruct (IH1 z Hz) as (w & ? & ?). exists w. by split; [right|].
  - intros z [<-|Hz]; [exists x; by split; [left|]|]. destruct (IH2 z Hz) as (w & ? & ?). exists w. by split; [right|].
Qed.

Lemma mapM_answers {E A B} (f : A -> E + B) l :
  (exists k, mapM f l = inr k) <-> forall x, In x l -> exists y, f x = inr y.
Proof.
  split; [intros (k & Hm) x Hx; destruct (proj1 (mapM_result _ _ _ Hm) x Hx) as (y & _ & Hy); by exists y|].
  induction l as [|x l IH]; intros Hl; [by exists []|].
  destruct (Hl x) as [y Hy]; [by left|]. destruct IH as [k Hk]; [intros; apply Hl; by right|].
  exists (y :: k). cbn [mapM]. by rewrite Hy, ok_bind, Hk, ok_bind.
Qed.

Lemma anyM_total {A} (f : A -> option bool) l : (forall x, In x l -> f x <> None) -> anyM f l <> None.
Proof.
  induction l as [|x l IH]; intros Hf; [done|]. simpl. specialize (Hf x (or_introl eq_refl)) as Hx.
  destruct (f x) as [[]|]; [done| |done]. simpl. apply IH. intros. apply Hf. by right.
Qed.
