(* ===== verification/RustStd.v ===== *)
(** * The parts of Rust's standard library the modelled code uses

    [str] searching and splitting, [FromStr] of the unsigned integers and their
    [Display], stable sorts and maxima, and the in-order insertion idioms of [BTreeSet]
    and [BTreeMap]. *)

From Stdlib Require Import ZArith NArith Lia Ascii DecimalString DecimalPos DecimalN.
From stdpp Require Import base list strings gmap sorting.
From S2P Require Import Prelude.

Open Scope string_scope.
Open Scope persist_scope.

(** ** [str] *)

(** [s.strip_prefix(p)]. *)
Fixpoint strip_prefix (p s : string) : option string :=
  match p, s with
  | EmptyString, _ => Some s
  | String a p', String b s' => if Ascii.eqb a b then strip_prefix p' s' else None
  | String _ _, EmptyString => None
  end.

(** [s.starts_with(p)]. *)
Definition starts_with (p s : string) : bool :=
  match strip_prefix p s with Some _ => true | None => false end.

(** [s.split_once(p)] for a string pattern: the first match. *)
Fixpoint split_once (p s : string) : option (string * string) :=
  match strip_prefix p s with
  | Some rest => Some (EmptyString, rest)
  | None =>
      match s with
      | EmptyString => None
      | String c s' =>
          match split_once p s' with
          | Some (a, b) => Some (String c a, b)
          | None => None
          end
      end
  end.

(** [s.split(c).collect()] for a one-byte separator: never empty. *)
Fixpoint split_on (c : Ascii.ascii) (s : string) : list string :=
  match s with
  | EmptyString => [EmptyString]
  | String a s' =>
      if Ascii.eqb a c then EmptyString :: split_on c s'
      else match split_on c s' with
           | w :: ws => String a w :: ws
           | [] => [String a EmptyString]
           end
  end.

(** [parts.join(sep)]. *)
Fixpoint join (sep : string) (parts : list string) : string :=
  match parts with
  | [] => EmptyString
  | [w] => w
  | w :: ws => w +:+ sep +:+ join sep ws
  end.

(** Does the string contain this byte? *)
Fixpoint has_byte (c : Ascii.ascii) (s : string) : bool :=
  match s with
  | EmptyString => false
  | String a s' => Ascii.eqb a c || has_byte c s'
  end.

(** ** Unsigned integers *)

Definition u8_max : N := 255%N.
Definition u32_max : N := 4294967295%N.
Definition u64_max : N := 18446744073709551615%N.
(** [usize] on the 64-bit targets the crate ships for. *)
Definition usize_max : N := u64_max.
Definition i64_max : Z := 9223372036854775807%Z.

(** [format!("{n}")] of an unsigned integer. *)
Definition fmt_N (n : N) : string := NilEmpty.string_of_uint (N.to_uint n).

(** Digits only, at least one: what is left after an optional sign. *)
Definition parse_digits (s : string) : option N :=
  match s with
  | EmptyString => None
  | _ => match NilEmpty.uint_of_string s with
         | Some u => Some (N.of_uint u)
         | None => None
         end
  end.

(** [s.parse::<uN>()]: one optional leading [+], then decimal digits, with the
    value at most the type's maximum. *)
Definition parse_uint (max : N) (s : string) : option N :=
  let body := match strip_prefix "+" s with Some r => r | None => s end in
  match parse_digits body with
  | Some n => if N.leb n max then Some n else None
  | None => None
  end.

Definition parse_u32 := parse_uint u32_max.
Definition parse_u64 := parse_uint u64_max.
Definition parse_usize := parse_uint usize_max.

(** ** Lemmas on [str] *)

Lemma app_cons c a b : String c a +:+ b = String c (a +:+ b).
Proof. reflexivity. Qed.

Lemma app_nil_l' b : "" +:+ b = b.
Proof. reflexivity. Qed.

Lemma strip_prefix_app p s : strip_prefix p (p +:+ s) = Some s.
Proof. induction p as [|a p IH]; simpl; [done|]. by rewrite Ascii.eqb_refl. Qed.

Lemma strip_prefix_Some p s r : strip_prefix p s = Some r <-> s = p +:+ r.
Proof.
  split; [|intros ->; apply strip_prefix_app].
  revert s; induction p as [|a p IH]; intros s; simpl; [naive_solver|].
  destruct s as [|b s]; [done|]. destruct (Ascii.eqb_spec a b); [|done].
  subst b; intros H. rewrite (IH s H). done.
Qed.

Lemma starts_with_iff p s : starts_with p s = true <-> exists r, s = p +:+ r.
Proof.
  unfold starts_with. destruct (strip_prefix p s) as [r|] eqn:E.
  - apply strip_prefix_Some in E. split; eauto.
  - split; [done|]. intros [r ->]. by rewrite strip_prefix_app in E.
Qed.

Lemma starts_with_false p s : starts_with p s = false <-> strip_prefix p s = None.
Proof. unfold starts_with. by destruct (strip_prefix p s). Qed.

Lemma split_once_Some p s a b : split_once p s = Some (a, b) -> s = a +:+ p +:+ b.
Proof.
  revert a; induction s as [|c s IH]; intros a; simpl.
  - destruct (strip_prefix p "") eqn:E; [|done]. intros [= <- <-].
    by apply strip_prefix_Some in E.
  - destruct (strip_prefix p (String c s)) eqn:E.
    + intros [= <- <-]. by apply strip_prefix_Some in E.
    + destruct (split_once p s) as [[a' b']|] eqn:E'; [|done].
      intros [= <- <-]. rewrite app_cons. f_equal. by apply IH.
Qed.

Lemma string_app_assoc (a b c : string) : (a +:+ b) +:+ c = a +:+ (b +:+ c).
Proof. induction a; rewrite ?app_cons; [done|congruence]. Qed.

Lemma string_app_nil_r (a : string) : a +:+ "" = a.
Proof. induction a; rewrite ?app_cons; [done|congruence]. Qed.

Lemma has_byte_app c s t : has_byte c (s +:+ t) = has_byte c s || has_byte c t.
Proof. induction s; rewrite ?app_cons; simpl; [done|]. by rewrite IHs, orb_assoc. Qed.

(** A separator whose first byte does not occur in [a] splits [a ++ p ++ b] at [a]. *)
Lemma split_once_app c p a b :
  has_byte c a = false ->
  split_once (String c p) (a +:+ String c p +:+ b) = Some (a, b).
Proof.
  induction a as [|x a IH]; intros Ha.
  - change ("" +:+ String c p +:+ b) with (String c p +:+ b).
    pose proof (strip_prefix_app (String c p) b) as E.
    destruct (String c p +:+ b) as [|y t] eqn:Et; [done|].
    unfold split_once; fold split_once. by rewrite E.
  - simpl in Ha. apply orb_false_iff in Ha as [Hx Ha].
    change (String x a +:+ ?t) with (String x (a +:+ t)).
    cbn [split_once strip_prefix].
    destruct (Ascii.eqb_spec c x) as [->|Hne]; [by rewrite Ascii.eqb_refl in Hx|].
    by rewrite (IH Ha).
Qed.

(** No occurrence of the separator's first byte: no split. *)
Lemma split_once_none c p s : has_byte c s = false -> split_once (String c p) s = None.
Proof.
  induction s as [|x s IH]; intros Hs; [done|].
  simpl in Hs. apply orb_false_iff in Hs as [Hx Hs].
  cbn [split_once strip_prefix].
  destruct (Ascii.eqb_spec c x) as [->|Hne]; [by rewrite Ascii.eqb_refl in Hx|].
  by rewrite (IH Hs).
Qed.

(** The last separator is found again. *)
Lemma last_separator_inj c a a' b b' :
  a +:+ String c b = a' +:+ String c b' -> has_byte c b = false -> has_byte c b' = false -> a = a' /\ b = b'.
Proof.
  revert a'. induction a as [|x a IH]; intros [|x' a'] E Hb Hb'.
  - by injection E.
  - exfalso. change (String c b = String x' (a' +:+ String c b')) in E. injection E as _ ->.
    rewrite has_byte_app in Hb. cbn [has_byte] in Hb. rewrite Ascii.eqb_refl in Hb. by destruct (has_byte c a').
  - exfalso. change (String x (a +:+ String c b) = String c b') in E. injection E as _ <-.
    rewrite has_byte_app in Hb'. cbn [has_byte] in Hb'. rewrite Ascii.eqb_refl in Hb'. by destruct (has_byte c a).
  - change (String x (a +:+ String c b) = String x' (a' +:+ String c b')) in E. injection E as -> E.
    destruct (IH a' E Hb Hb') as [-> ->]. done.
Qed.

Lemma split_on_nonempty c s : split_on c s <> [].
Proof. destruct s; simpl; [done|]. by repeat case_match. Qed.

(** [split] then [join] with the same separator is the identity. *)
Lemma join_split_on c s : join (String c "") (split_on c s) = s.
Proof.
  induction s as [|a s IH]; [done|]. cbn [split_on].
  pose proof (split_on_nonempty c s) as Hne.
  destruct (split_on c s) as [|w ws] eqn:E; [done|].
  destruct (Ascii.eqb_spec a c) as [->|Hac].
  - cbn [join]. rewrite app_nil_l', app_cons, app_nil_l'. f_equal. exact IH.
  - rewrite <- IH. by destruct ws.
Qed.

#[global] Arguments strip_prefix : simpl never.
#[global] Arguments split_once : simpl never.

(** ** Decimal round trip *)

Lemma uint_of_string_of_uint u :
  NilEmpty.uint_of_string (NilEmpty.string_of_uint u) = Some u.
Proof. apply NilEmpty.usu. Qed.

Lemma string_of_uint_byte c u :
  (Ascii.N_of_ascii c < 48 \/ 57 < Ascii.N_of_ascii c)%N ->
  has_byte c (NilEmpty.string_of_uint u) = false.
Proof.
  intros Hc. induction u; cbn [NilEmpty.string_of_uint has_byte]; [done|..];
    rewrite IHu, orb_false_r; apply Ascii.eqb_neq; intros <-;
    revert Hc; vm_compute; intros [?|?]; discriminate.
Qed.

Lemma fmt_N_byte c n :
  (Ascii.N_of_ascii c < 48 \/ 57 < Ascii.N_of_ascii c)%N ->
  has_byte c (fmt_N n) = false.
Proof. apply string_of_uint_byte. Qed.

Lemma to_uint_nonnil n : N.to_uint n <> Decimal.Nil.
Proof. destruct n; [done|]. apply DecimalPos.Unsigned.to_uint_nonnil. Qed.

Lemma fmt_N_nonempty n : fmt_N n <> "".
Proof.
  unfold fmt_N. pose proof (to_uint_nonnil n) as H. by destruct (N.to_uint n).
Qed.

Lemma parse_digits_fmt n : parse_digits (fmt_N n) = Some n.
Proof.
  unfold parse_digits. pose proof (fmt_N_nonempty n) as Hn.
  destruct (fmt_N n) as [|a s] eqn:E; [done|]. rewrite <- E. unfold fmt_N.
  rewrite uint_of_string_of_uint. by rewrite DecimalN.Unsigned.of_to.
Qed.

Lemma has_byte_head a s : has_byte a (String a s) = true.
Proof. simpl. by rewrite Ascii.eqb_refl. Qed.

(** Printing an in-range value and parsing it back gives the value. *)
Lemma parse_uint_fmt max n : (n <= max)%N -> parse_uint max (fmt_N n) = Some n.
Proof.
  intros Hn. unfold parse_uint.
  destruct (strip_prefix "+" (fmt_N n)) as [r|] eqn:E.
  - apply strip_prefix_Some in E.
    assert (Hb : has_byte "+"%char (fmt_N n) = false) by (apply fmt_N_byte; left; done).
    rewrite E in Hb. done.
  - rewrite parse_digits_fmt. by rewrite (proj2 (N.leb_le _ _) Hn).
Qed.

Lemma parse_uint_le max s n : parse_uint max s = Some n -> (n <= max)%N.
Proof.
  unfold parse_uint. destruct (parse_digits _) as [m|]; [|done].
  destruct (N.leb_spec m max); naive_solver.
Qed.

(** ** [str]'s order *)

Lemma ascii_compare_refl a : Ascii.compare a a = Eq.
Proof. unfold Ascii.compare. apply N.compare_refl. Qed.

Lemma string_compare_refl s : String.compare s s = Eq.
Proof. induction s as [|a s IH]; simpl; [done|]. by rewrite ascii_compare_refl. Qed.

Lemma string_ltb_irrefl s : (s <s s) = false.
Proof. unfold String.ltb. by rewrite string_compare_refl. Qed.

Lemma ascii_compare_eq a b : Ascii.compare a b = Eq -> a = b.
Proof. apply Ascii.compare_eq_iff. Qed.

Lemma string_compare_lt_trans a b c :
  String.compare a b = Lt -> String.compare b c = Lt -> String.compare a c = Lt.
Proof.
  revert b c; induction a as [|x a IH]; intros [|y b] [|z c]; simpl; try done.
  destruct (Ascii.compare x y) eqn:Exy; try done;
    destruct (Ascii.compare y z) eqn:Eyz; try done; intros Hab Hbc.
  - apply ascii_compare_eq in Exy, Eyz; subst. rewrite ascii_compare_refl. eauto.
  - apply ascii_compare_eq in Exy; subst. by rewrite Eyz.
  - apply ascii_compare_eq in Eyz; subst. by rewrite Exy.
  - unfold Ascii.compare in *. rewrite N.compare_lt_iff in Exy, Eyz.
    assert (N_of_ascii x < N_of_ascii z)%N as H by lia.
    apply N.compare_lt_iff in H. by rewrite H.
Qed.

Lemma string_ltb_trans a b c : (a <s b) = true -> (b <s c) = true -> (a <s c) = true.
Proof.
  unfold String.ltb. destruct (String.compare a b) eqn:E1; try done.
  destruct (String.compare b c) eqn:E2; try done. intros _ _.
  by rewrite (string_compare_lt_trans a b c).
Qed.

Lemma string_ltb_total a b : (a <s b) = false -> (b <s a) = false -> a = b.
Proof.
  unfold String.ltb. rewrite (String.compare_antisym b a).
  destruct (String.compare a b) eqn:E; simpl; try done.
  intros _ _. by apply String.compare_eq_iff.
Qed.

Lemma string_ltb_asym a b : (a <s b) = true -> (b <s a) = false.
Proof.
  intros H. apply not_true_iff_false; intros H'.
  pose proof (string_ltb_trans a b a H H') as Hc. by rewrite string_ltb_irrefl in Hc.
Qed.

(** The order is cotransitive: below the ends, any middle sits on one side. *)
Lemma string_ltb_cotrans a b c : (a <s c) = true -> (a <s b) = true \/ (b <s c) = true.
Proof.
  intros Hac. destruct (a <s b) eqn:Hab; [by left|]. right.
  destruct (b <s c) eqn:Hbc; [done|].
  destruct (c <s b) eqn:Hcb.
  - by rewrite (string_ltb_trans a c b) in Hab.
  - rewrite (string_ltb_total b c) in Hab by done. congruence.
Qed.

(** ** Sorting

    The slice sorts are stable; the model inserts each element after the
    elements it does not precede. [lt x y] is the comparator's [Less]. *)
Section SortBy.
Context {A : Type} (lt : A -> A -> bool).

Fixpoint insert_sorted (x : A) (l : list A) : list A :=
  match l with
  | [] => [x]
  | y :: l' => if lt x y then x :: l else y :: insert_sorted x l'
  end.

(** [v.sort_by(..)]. *)
Definition sort_by (l : list A) : list A := fold_left (fun acc x => insert_sorted x acc) l [].

Lemma insert_sorted_perm x l : Permutation (insert_sorted x l) (x :: l).
Proof.
  induction l as [|y l IH]; simpl; [done|]. destruct (lt x y); [done|].
  rewrite IH. apply perm_swap.
Qed.

Lemma sort_by_acc_perm l acc :
  Permutation (fold_left (fun acc x => insert_sorted x acc) l acc) (l ++ acc)%list.
Proof.
  revert acc; induction l as [|x l IH]; intros acc; simpl; [done|].
  rewrite IH, insert_sorted_perm. by rewrite Permutation_middle.
Qed.

Lemma sort_by_perm l : Permutation (sort_by l) l.
Proof. unfold sort_by. rewrite sort_by_acc_perm. by rewrite app_nil_r. Qed.

Lemma sort_by_In x l : In x (sort_by l) <-> In x l.
Proof.
  split; apply Permutation_in; [apply sort_by_perm|symmetry; apply sort_by_perm].
Qed.
End SortBy.

(** [Vec<String>::sort()]. *)
Definition sort_strings : list string -> list string := sort_by (fun a b => a <s b).

(** [Vec<String>::dedup()]: of equal neighbours one stays. *)
Fixpoint dedup_sorted (l : list string) : list string :=
  match l with
  | [] => []
  | x :: l' => match dedup_sorted l' with
               | y :: r => if x =s y then y :: r else x :: y :: r
               | [] => [x]
               end
  end.

Lemma dedup_sorted_In x l : In x (dedup_sorted l) <-> In x l.
Proof.
  induction l as [|y l IH]; simpl; [done|]. rewrite <- IH. destruct (dedup_sorted l) as [|z r]; simpl; [done|].
  destruct (String.eqb_spec y z) as [->|Hne]; simpl; tauto.
Qed.

(** The first element of each key: [.filter(|x| seen.insert(key(x)))]. *)
Fixpoint distinct_on {A} (key : A -> string) (seen : list string) (l : list A) : list A :=
  match l with
  | [] => []
  | x :: l' =>
      if existsb (fun k => k =s key x) seen then distinct_on key seen l'
      else x :: distinct_on key (key x :: seen) l'
  end.

Lemma distinct_on_In {A} (key : A -> string) seen l x : In x (distinct_on key seen l) -> In x l.
Proof.
  revert seen. induction l as [|y l IH]; intros seen; simpl; [done|].
  destruct (existsb _ seen); [eauto|]. intros [->|H]; eauto.
Qed.

(** Every key that occurs keeps an element, unless it was seen before. *)
Lemma distinct_on_key {A} (key : A -> string) seen l x :
  In x l -> In (key x) seen \/ exists y, In y (distinct_on key seen l) /\ key y = key x.
Proof.
  revert seen. induction l as [|z l IH]; intros seen; simpl; [done|].
  destruct (existsb (fun k => k =s key z) seen) eqn:E; intros [->|H].
  - apply existsb_exists in E as (k & Hk & Eq). apply String.eqb_eq in Eq as ->. by left.
  - by apply IH.
  - right. exists x. by split; [left|].
  - destruct (IH (key z :: seen) H) as [[Eq|Hs]|(y & Hy & Eq)].
    + right. exists z. by split; [left|].
    + by left.
    + right. exists y. by split; [right|].
Qed.

Lemma distinct_on_NoDup {A} (key : A -> string) seen l :
  NoDup (map key (distinct_on key seen l)) /\
  (forall x, In x (distinct_on key seen l) -> ~ In (key x) seen).
Proof.
  revert seen. induction l as [|z l IH]; intros seen; simpl; [split; [constructor|done]|].
  destruct (existsb (fun k => k =s key z) seen) eqn:E; [apply IH|].
  destruct (IH (key z :: seen)) as [Hnd Hns]. simpl. split.
  - constructor; [|done]. intros Hin. apply list_elem_of_In, in_map_iff in Hin as (y & Eq & Hy).
    apply (Hns y Hy). left. done.
  - intros x [->|Hx] Hin.
    + eapply existsb_false in E; [|exact Hin]. by rewrite String.eqb_refl in E.
    + apply (Hns x Hx). by right.
Qed.

(** ** [is_empty], and the predicates of [Option] *)

Definition is_nil {A} (l : list A) : bool := match l with [] => true | _ => false end.
Definition is_some {A} (o : option A) : bool := match o with Some _ => true | None => false end.
Definition is_none_or {A} (o : option A) (f : A -> bool) : bool :=
  match o with Some x => f x | None => true end.
Definition is_some_and {A} (o : option A) (f : A -> bool) : bool :=
  match o with Some x => f x | None => false end.

(** ** [HashMap]/[BTreeMap] built by inserting in order: the last value of a key stays *)
Section InsertLast.
Context {A : Type} (key : A -> string).

Definition insert_all (l : list A) (m : gmap string A) : gmap string A :=
  fold_left (fun m x => <[key x := x]> m) l m.

Definition insert_last (l : list A) : gmap string A := insert_all l ∅.

Lemma insert_last_lookup_acc l m k x :
  insert_all l m !! k = Some x ->
  (In x l /\ key x = k) \/ m !! k = Some x.
Proof.
  revert m; induction l as [|y l IH]; intros m; simpl; [by right|].
  intros H. destruct (IH _ H) as [[? ?]|H']; [by left; split; [right|]|].
  destruct (decide (key y = k)) as [<-|Hne].
  - rewrite lookup_insert_eq in H'. left. split; [left|]; congruence.
  - rewrite lookup_insert_ne in H' by done. by right.
Qed.

Lemma insert_last_lookup l k x : insert_last l !! k = Some x -> In x l /\ key x = k.
Proof.
  intros H. apply insert_last_lookup_acc in H as [H|H]; [done|]. by rewrite lookup_empty in H.
Qed.

Lemma insert_last_dom_acc l m k :
  is_Some (insert_all l m !! k) <->
  (exists x, In x l /\ key x = k) \/ is_Some (m !! k).
Proof.
  revert m; induction l as [|y l IH]; intros m; simpl; [naive_solver|].
  rewrite IH. destruct (decide (key y = k)) as [<-|Hne].
  - rewrite lookup_insert_eq. split; intros _; [left; eauto|right; eauto].
  - rewrite lookup_insert_ne by done. naive_solver.
Qed.

Lemma insert_last_dom l k : is_Some (insert_last l !! k) <-> exists x, In x l /\ key x = k.
Proof.
  unfold insert_last. rewrite insert_last_dom_acc, lookup_empty.
  split; [intros [?|[? ?]]; done|by left].
Qed.
End InsertLast.

Section InsertLastValues.
Context {A : Type} (key : A -> string).

Lemma insert_last_keys (l : list A) :
  map key (map_to_list (insert_last key l)).*2 = (map_to_list (insert_last key l)).*1.
Proof.
  assert (H : Forall (fun kv => key kv.2 = kv.1) (map_to_list (insert_last key l))).
  { apply Forall_forall. intros [k x] Hin. apply elem_of_map_to_list in Hin.
    apply insert_last_lookup in Hin. tauto. }
  revert H. generalize (map_to_list (insert_last key l)). intros l' H.
  induction H as [|[k x] l' Hx _ IH]; [done|]. simpl in Hx. subst k.
  change (key x :: map key l'.*2 = key x :: l'.*1). by f_equal.
Qed.

Lemma insert_last_keys_NoDup (l : list A) : NoDup (map key (map_to_list (insert_last key l)).*2).
Proof. rewrite insert_last_keys. apply NoDup_fst_map_to_list. Qed.

Lemma insert_last_values_In (l : list A) x : In x (map_to_list (insert_last key l)).*2 -> In x l.
Proof.
  intros Hin. apply list_elem_of_In, list_elem_of_fmap in Hin as ([k y] & -> & Hin).
  apply elem_of_map_to_list, insert_last_lookup in Hin. tauto.
Qed.
End InsertLastValues.

(** ** The sort's output is sorted, so permutations sort alike *)
Section SortByOrder.
Context {A : Type} (lt : A -> A -> bool).
Hypothesis lt_asym : forall a b, lt a b = true -> lt b a = false.
Hypothesis lt_cotrans : forall a b c, lt a c = true -> lt a b = true \/ lt b c = true.

(** No later element precedes an earlier one. *)
Definition not_after (x y : A) : Prop := lt y x = false.

Lemma not_after_trans x y z : not_after x y -> not_after y z -> not_after x z.
Proof.
  unfold not_after. intros Hxy Hyz. apply not_true_iff_false. intros Hzx.
  destruct (lt_cotrans z y x Hzx); congruence.
Qed.

Lemma insert_sorted_sorted x l :
  StronglySorted not_after l -> StronglySorted not_after (insert_sorted lt x l).
Proof.
  induction 1 as [|y l Hs IH Hall]; simpl; [by repeat constructor|].
  destruct (lt x y) eqn:E.
  - constructor; [by constructor|]. constructor; [by apply lt_asym|].
    eapply Forall_impl; [exact Hall|]. intros z Hz.
    eapply not_after_trans; [|exact Hz]. by apply lt_asym.
  - constructor; [done|]. rewrite insert_sorted_perm. constructor; [done|]. exact Hall.
Qed.

Lemma sort_by_sorted l : StronglySorted not_after (sort_by lt l).
Proof.
  unfold sort_by. assert (H : StronglySorted not_after ([] : list A)) by constructor.
  revert H. generalize ([] : list A). induction l as [|x l IH]; intros acc H; simpl; [done|].
  apply IH. by apply insert_sorted_sorted.
Qed.

(** Two lists with the same elements sort to the same list, when elements the
    order does not separate are equal. *)
Lemma sort_by_perm_eq l l' :
  (forall a b, In a l -> In b l -> lt a b = false -> lt b a = false -> a = b) ->
  Permutation l l' -> sort_by lt l = sort_by lt l'.
Proof.
  intros Hconn Hp. apply (StronglySorted_unique_strong not_after).
  - intros a b Ha Hb Hab Hba. rewrite list_elem_of_In, sort_by_In in Ha.
    rewrite list_elem_of_In, sort_by_In in Hb. apply Hconn; try done.
    eapply Permutation_in; [by symmetry|done].
  - apply sort_by_sorted.
  - apply sort_by_sorted.
  - by rewrite !sort_by_perm.
Qed.

(** The sort is stable: it commutes with filtering, and leaves a sorted list as it is. *)
Lemma filter_insert_sorted (f : A -> bool) x l :
  StronglySorted not_after l ->
  List.filter f (insert_sorted lt x l) = if f x then insert_sorted lt x (List.filter f l) else List.filter f l.
Proof.
  assert (Hhead : forall y l', Forall (fun z => lt y z = true) l' -> insert_sorted lt y l' = y :: l').
  { intros y [|z l'] Hf; simpl; [done|]. inversion Hf; subst. by rewrite H1. }
  induction 1 as [|y l Hs IH Hall]; simpl; [by destruct (f x)|].
  destruct (lt x y) eqn:E; simpl.
  - destruct (f x); [|done]. symmetry. change (if f y then _ else _) with (List.filter f (y :: l)).
    apply Hhead. apply Forall_forall. intros z Hz. apply list_elem_of_In, filter_In in Hz as [[->|Hz] _]; [done|].
    rewrite Forall_forall in Hall. specialize (Hall z). rewrite list_elem_of_In in Hall. specialize (Hall Hz).
    destruct (lt_cotrans x z y E) as [?|?]; [done|]. unfold not_after in Hall. congruence.
  - rewrite IH. destruct (f y), (f x); simpl; rewrite ?E; done.
Qed.

Lemma filter_sort_by (f : A -> bool) l : List.filter f (sort_by lt l) = sort_by lt (List.filter f l).
Proof.
  unfold sort_by. assert (H : StronglySorted not_after ([] : list A)) by constructor.
  change (@nil A) with (List.filter f (@nil A)) at 2. revert H. generalize ([] : list A).
  induction l as [|x l IH]; intros acc H; simpl; [done|].
  rewrite IH by (by apply insert_sorted_sorted). rewrite filter_insert_sorted by done. by destruct (f x).
Qed.

Lemma insert_sorted_last x l : Forall (fun y => not_after y x) l -> insert_sorted lt x l = (l ++ [x])%list.
Proof. induction 1 as [|y l Hy Hl IH]; simpl; [done|]. unfold not_after in Hy. by rewrite Hy, IH. Qed.

Lemma sort_by_id l : StronglySorted not_after l -> sort_by lt l = l.
Proof.
  unfold sort_by. intros Hs. change l with ([] ++ l)%list at 2. change l with ([] ++ l)%list in Hs. revert Hs.
  generalize ([] : list A). induction l as [|x l IH]; intros acc Hs; simpl; [by rewrite app_nil_r|].
  rewrite insert_sorted_last.
  - rewrite IH by (by rewrite <- app_assoc). by rewrite <- app_assoc.
  - apply Forall_forall. intros y Hy. eapply (StronglySorted_app_1_elem_of not_after); [exact Hs|done|by left].
Qed.
End SortByOrder.

Lemma sort_strings_perm l l' : Permutation l l' -> sort_strings l = sort_strings l'.
Proof.
  intros Hp. apply sort_by_perm_eq;
    eauto using string_ltb_trans, string_ltb_asym, string_ltb_cotrans.
  intros a b _ _. apply string_ltb_total.
Qed.

(** ** Maxima *)

(** [iter.max_by_key(..)] with the key's [Less]: of equal keys the last. *)
Definition max_by {A} (lt : A -> A -> bool) (l : list A) : option A :=
  match l with
  | [] => None
  | x :: l' => Some (fold_left (fun best c => if lt c best then best else c) l' x)
  end.

Section MaxBy.
Context {A : Type} (lt : A -> A -> bool).
Hypothesis lt_asym : forall a b, lt a b = true -> lt b a = false.
Hypothesis lt_cotrans : forall a b c, lt a c = true -> lt a b = true \/ lt b c = true.

Lemma fold_max_spec l x :
  let w := fold_left (fun best c => if lt c best then best else c) l x in
  In w (x :: l) /\ forall c, In c (x :: l) -> lt w c = false.
Proof.
  cbn zeta. revert x. induction l as [|y l IH]; intros x; simpl.
  { split; [auto|]. intros c [<-|[]]. destruct (lt x x) eqn:E; [|done].
    by rewrite (lt_asym _ _ E) in E. }
  destruct (IH (if lt y x then x else y)) as [Hin Hmax]. split.
  - destruct Hin as [<-|Hin]; [destruct (lt y x); auto|auto].
  - assert (Hy : forall c, c = x \/ c = y -> lt (if lt y x then x else y) c = false).
    { intros c [->| ->]; destruct (lt y x) eqn:E; auto using lt_asym.
      - destruct (lt x x) eqn:E'; [|done]. by rewrite (lt_asym _ _ E') in E'.
      - destruct (lt y y) eqn:E'; [|done]. by rewrite (lt_asym _ _ E') in E'. }
    set (w := fold_left _ l _) in *. specialize (Hmax (if lt y x then x else y) (or_introl eq_refl)) as Hw.
    intros c [Hc|[Hc|Hc]]; [..|by apply Hmax; right].
    all: apply not_true_iff_false; intros Hlt;
      destruct (lt_cotrans w (if lt y x then x else y) c Hlt); [congruence|].
    all: rewrite Hy in H; [done|auto].
Qed.

Lemma max_by_spec l w : max_by lt l = Some w -> In w l /\ forall c, In c l -> lt w c = false.
Proof. destruct l as [|x l]; [done|]. intros [= <-]. apply fold_max_spec. Qed.

Lemma max_by_none l : max_by lt l = None -> l = [].
Proof. by destruct l. Qed.

(** With elements told apart by the order, the maximum depends only on the members. *)
Lemma max_by_ext l l' :
  (forall x, In x l <-> In x l') ->
  (forall x y, In x l -> In y l -> lt x y = false -> lt y x = false -> x = y) ->
  max_by lt l = max_by lt l'.
Proof.
  intros Hext Hconn. destruct (max_by lt l) as [w|] eqn:E, (max_by lt l') as [w'|] eqn:E'.
  - apply max_by_spec in E as [Hw Hm], E' as [Hw' Hm']. f_equal.
    apply Hext in Hw'. apply Hconn; auto. apply Hm'. by apply Hext.
  - apply max_by_none in E'. subst. apply max_by_spec in E as [Hw _]. by apply Hext in Hw.
  - apply max_by_none in E. subst. apply max_by_spec in E' as [Hw _]. by apply Hext in Hw.
  - done.
Qed.
End MaxBy.
