(* ===== verification/Utf8.v ===== *)
(** * UTF-8

    [String::from_utf8]'s check (the well-formed byte sequences of Unicode),
    [chars().count()], and the character functions of SQL text. *)

From Stdlib Require Import ZArith NArith Lia Ascii String.
From stdpp Require Import base list strings.
From S2P Require Import Prelude RustStd.

Open Scope string_scope.
Open Scope list_scope.
Open Scope persist_scope.

Definition byte_in (lo hi : N) (a : ascii) : bool := ((lo <=? N_of_ascii a) && (N_of_ascii a <=? hi))%N.
Definition cont (a : ascii) : bool := byte_in 128 191 a.

(** The second byte after a three-byte lead, and after a four-byte lead. *)
Definition second3 (lead b : ascii) : bool :=
  if (N_of_ascii lead =? 224)%N then byte_in 160 191 b
  else if (N_of_ascii lead =? 237)%N then byte_in 128 159 b
  else cont b.
Definition second4 (lead b : ascii) : bool :=
  if (N_of_ascii lead =? 240)%N then byte_in 144 191 b
  else if (N_of_ascii lead =? 244)%N then byte_in 128 143 b
  else cont b.

Fixpoint utf8_valid (s : string) : bool :=
  match s with
  | EmptyString => true
  | String a s1 =>
      if byte_in 0 127 a then utf8_valid s1
      else match s1 with
           | EmptyString => false
           | String b s2 =>
               if byte_in 194 223 a then cont b && utf8_valid s2
               else match s2 with
                    | EmptyString => false
                    | String c s3 =>
                        if byte_in 224 239 a then second3 a b && cont c && utf8_valid s3
                        else match s3 with
                             | EmptyString => false
                             | String d s4 =>
                                 byte_in 240 244 a && second4 a b && cont c && cont d && utf8_valid s4
                             end
                    end
           end
  end.

(** [chars()]: the code points of well-formed bytes. *)
Fixpoint chars (s : string) : list N :=
  match s with
  | EmptyString => []
  | String a s1 =>
      if byte_in 0 127 a then N_of_ascii a :: chars s1
      else match s1 with
           | EmptyString => []
           | String b s2 =>
               if byte_in 194 223 a
               then ((N_of_ascii a - 192) * 64 + (N_of_ascii b - 128))%N :: chars s2
               else match s2 with
                    | EmptyString => []
                    | String c s3 =>
                        if byte_in 224 239 a
                        then ((N_of_ascii a - 224) * 4096 + (N_of_ascii b - 128) * 64
                              + (N_of_ascii c - 128))%N :: chars s3
                        else match s3 with
                             | EmptyString => []
                             | String d s4 =>
                                 ((N_of_ascii a - 240) * 262144 + (N_of_ascii b - 128) * 4096
                                  + (N_of_ascii c - 128) * 64 + (N_of_ascii d - 128))%N :: chars s4
                             end
                    end
           end
  end.

Fixpoint char_count (s : string) : nat :=
  match s with
  | EmptyString => 0
  | String a s' => if cont a then char_count s' else S (char_count s')
  end.

(** [substr(s, 1, n)]: the first [n] characters. *)
Fixpoint take_chars (n : nat) (s : string) : string :=
  match s with
  | EmptyString => ""
  | String a s' =>
      if cont a then String a (take_chars n s')
      else match n with O => "" | S m => String a (take_chars m s') end
  end.

(** ** Prefixes by characters *)

Lemma valid_head s a : utf8_valid (String a s) = true -> cont a = false.
Proof.
  unfold cont, byte_in. cbn [utf8_valid].
  unfold byte_in.
  destruct (N.leb_spec 128 (N_of_ascii a)), (N.leb_spec (N_of_ascii a) 191); try done.
  destruct (N.leb_spec (N_of_ascii a) 127); [lia|]. rewrite andb_false_r.
  destruct s as [|b s]; [done|]. destruct (N.leb_spec 194 (N_of_ascii a)); [lia|].
  destruct s as [|c s]; [done|]. destruct (N.leb_spec 224 (N_of_ascii a)); [lia|].
  destruct s as [|d s]; [done|]. destruct (N.leb_spec 240 (N_of_ascii a)); [lia|]. done.
Qed.

(** What follows a whole number of characters is whole characters. *)
Lemma valid_app n : forall p r, String.length p <= n ->
  utf8_valid p = true -> utf8_valid (p +:+ r) = true -> utf8_valid r = true.
Proof.
  induction n as [|n IH]; intros p r Hn Hp Hpr.
  { destruct p; [done|simpl in Hn; lia]. }
  destruct p as [|a p]; [done|]. rewrite app_cons in Hpr. cbn [utf8_valid] in Hp, Hpr.
  cbn [String.length] in Hn.
  destruct (byte_in 0 127 a); [apply (IH p); [lia|done..]|].
  destruct p as [|b p]; [done|]. rewrite app_cons in Hpr. cbn [String.length] in Hn.
  destruct (byte_in 194 223 a); breflect; [apply (IH p); [lia|tauto..]|].
  destruct p as [|c p]; [done|]. rewrite app_cons in Hpr. cbn [String.length] in Hn.
  destruct (byte_in 224 239 a); breflect; [apply (IH p); [lia|tauto..]|].
  destruct p as [|d p]; [done|]. rewrite app_cons in Hpr. cbn [String.length] in Hn.
  breflect. apply (IH p); [lia|tauto..].
Qed.

Lemma take_chars_app p r :
  (forall a s, r = String a s -> cont a = false) -> take_chars (char_count p) (p +:+ r) = p.
Proof.
  intros Hr. induction p as [|a p IH].
  - rewrite app_nil_l'. destruct r as [|a s]; [done|]. simpl. by rewrite (Hr a s).
  - rewrite app_cons. simpl. destruct (cont a) eqn:E; by rewrite IH.
Qed.

Lemma take_chars_prefix n s : exists r, s = take_chars n s +:+ r.
Proof.
  revert n. induction s as [|a s IH]; intros n; [by exists ""|]. simpl.
  destruct (cont a); [|destruct n as [|n]].
  - destruct (IH n) as [r Hr]. exists r. rewrite app_cons. by f_equal.
  - by exists (String a s).
  - destruct (IH n) as [r Hr]. exists r. rewrite app_cons. by f_equal.
Qed.

Lemma substr_prefix p d :
  utf8_valid p = true -> utf8_valid d = true ->
  (take_chars (char_count p) d =s p) = starts_with p d.
Proof.
  intros Hp Hd. apply eq_true_iff_eq. rewrite String.eqb_eq, starts_with_iff. split.
  - intros E. destruct (take_chars_prefix (char_count p) d) as [r Hr]. rewrite E in Hr. eauto.
  - intros [r ->]. apply take_chars_app. intros a s ->.
    apply (valid_head s). by apply (valid_app (String.length p) p).
Qed.

(** ** Decoding *)

Definition scalar (c : N) : Prop := (c < 55296 \/ 57344 <= c < 1114112)%N.

Lemma byte_in_iff lo hi a : byte_in lo hi a = true <-> (lo <= N_of_ascii a <= hi)%N.
Proof. unfold byte_in. rewrite andb_true_iff, !N.leb_le. lia. Qed.

Lemma byte_in_false lo hi a : byte_in lo hi a = false -> ~ (lo <= N_of_ascii a <= hi)%N.
Proof. intros E H. apply byte_in_iff in H. congruence. Qed.

(** One character: its code point, its bytes' length and what follows, as the decoder
    splits a well-formed string. *)
Inductive one_char : string -> N -> string -> Prop :=
| one1 a s : (N_of_ascii a <= 127)%N -> one_char (String a s) (N_of_ascii a) s
| one2 a b s x : (194 <= N_of_ascii a <= 223)%N -> (128 <= N_of_ascii b <= 191)%N ->
    (x + 12416 = N_of_ascii a * 64 + N_of_ascii b)%N -> one_char (String a (String b s)) x s
| one3 a b c s x : (224 <= N_of_ascii a <= 239)%N -> (128 <= N_of_ascii b <= 191)%N ->
    (N_of_ascii a = 224 -> 160 <= N_of_ascii b)%N -> (N_of_ascii a = 237 -> N_of_ascii b <= 159)%N ->
    (128 <= N_of_ascii c <= 191)%N ->
    (x + 925824 = N_of_ascii a * 4096 + N_of_ascii b * 64 + N_of_ascii c)%N ->
    one_char (String a (String b (String c s))) x s
| one4 a b c d s x : (240 <= N_of_ascii a <= 244)%N -> (128 <= N_of_ascii b <= 191)%N ->
    (N_of_ascii a = 240 -> 144 <= N_of_ascii b)%N -> (N_of_ascii a = 244 -> N_of_ascii b <= 143)%N ->
    (128 <= N_of_ascii c <= 191)%N -> (128 <= N_of_ascii d <= 191)%N ->
    (x + 63447168 = N_of_ascii a * 262144 + N_of_ascii b * 4096 + N_of_ascii c * 64 + N_of_ascii d)%N ->
    one_char (String a (String b (String c (String d s)))) x s.

Lemma second3_iff a b : second3 a b = true ->
  (128 <= N_of_ascii b <= 191)%N /\ (N_of_ascii a = 224 -> 160 <= N_of_ascii b)%N /\
  (N_of_ascii a = 237 -> N_of_ascii b <= 159)%N.
Proof.
  unfold second3, cont. destruct (N.eqb_spec (N_of_ascii a) 224); [rewrite byte_in_iff; lia|].
  destruct (N.eqb_spec (N_of_ascii a) 237); rewrite byte_in_iff; lia.
Qed.

Lemma second4_iff a b : second4 a b = true ->
  (128 <= N_of_ascii b <= 191)%N /\ (N_of_ascii a = 240 -> 144 <= N_of_ascii b)%N /\
  (N_of_ascii a = 244 -> N_of_ascii b <= 143)%N.
Proof.
  unfold second4, cont. destruct (N.eqb_spec (N_of_ascii a) 240); [rewrite byte_in_iff; lia|].
  destruct (N.eqb_spec (N_of_ascii a) 244); rewrite byte_in_iff; lia.
Qed.

Lemma chars_step s : utf8_valid s = true -> s <> "" ->
  exists c r, one_char s c r /\ utf8_valid r = true /\ chars s = c :: chars r.
Proof.
  destruct s as [|a s1]; [done|]. intros Hv _. cbn [utf8_valid chars] in *.
  destruct (byte_in 0 127 a) eqn:E1.
  { apply byte_in_iff in E1. eexists _, _. split_and!; [|eassumption|reflexivity]. apply one1; lia. }
  destruct s1 as [|b s2]; [done|]. destruct (byte_in 194 223 a) eqn:E2.
  { apply byte_in_iff in E2. apply andb_prop in Hv as [Hb Hv]. unfold cont in Hb. apply byte_in_iff in Hb.
    eexists _, _. split_and!; [|eassumption|reflexivity]. apply one2; lia. }
  destruct s2 as [|c s3]; [done|]. destruct (byte_in 224 239 a) eqn:E3.
  { apply byte_in_iff in E3. apply andb_prop in Hv as [Hv Hs]. apply andb_prop in Hv as [Hb Hc].
    unfold cont in Hc. apply byte_in_iff in Hc. apply second3_iff in Hb as (? & ? & ?).
    eexists _, _. split_and!; [|eassumption|reflexivity]. apply one3; lia. }
  destruct s3 as [|d s4]; [done|].
  apply andb_prop in Hv as [Hv Hs]. apply andb_prop in Hv as [Hv Hd]. apply andb_prop in Hv as [Hv Hc].
  apply andb_prop in Hv as [Ha Hb]. unfold cont in Hc, Hd. apply byte_in_iff in Ha, Hc, Hd.
  apply second4_iff in Hb as (? & ? & ?). eexists _, _. split_and!; [|eassumption|reflexivity]. apply one4; lia.
Qed.

Lemma one_char_scalar s c r : one_char s c r -> scalar c.
Proof. unfold scalar. inversion 1; subst; lia. Qed.

Lemma N_of_ascii_inj a b : N_of_ascii a = N_of_ascii b -> a = b.
Proof. intros E. rewrite <- (ascii_N_embedding a), <- (ascii_N_embedding b). congruence. Qed.

(** A code point determines its bytes. *)
Lemma one_char_inj s t c r : one_char s c r -> one_char t c r -> s = t.
Proof.
  intros Hs Ht. inversion Hs; subst; inversion Ht; subst; try lia;
    repeat f_equal; apply N_of_ascii_inj; lia.
Qed.

Lemma chars_nonempty s : utf8_valid s = true -> s <> "" -> chars s <> [].
Proof. intros Hv Hn. destruct (chars_step s Hv Hn) as (c & r & _ & _ & ->). done. Qed.

Lemma one_char_shorter s c r : one_char s c r -> String.length r < String.length s.
Proof. destruct 1; simpl; lia. Qed.

Lemma chars_scalar s : utf8_valid s = true -> Forall scalar (chars s).
Proof.
  remember (String.length s) as n eqn:Hn. revert s Hn.
  induction n as [n IH] using lt_wf_ind. intros s Hn Hv.
  destruct (decide (s = "")) as [->|Hne]; [constructor|].
  destruct (chars_step s Hv Hne) as (c & r & Ho & Hr & ->).
  constructor; [by eapply one_char_scalar|]. apply (IH (String.length r)); [|done..].
  apply one_char_shorter in Ho. lia.
Qed.

Lemma chars_inj s t : utf8_valid s = true -> utf8_valid t = true -> chars s = chars t -> s = t.
Proof.
  remember (String.length s) as n eqn:Hn. revert s t Hn.
  induction n as [n IH] using lt_wf_ind. intros s t Hn Hs Ht E.
  destruct (decide (s = "")) as [->|Hns].
  { destruct (decide (t = "")) as [->|Hnt]; [done|]. by apply chars_nonempty in Hnt. }
  destruct (chars_step s Hs Hns) as (c & r & Ho & Hr & Ec). rewrite Ec in E.
  destruct (decide (t = "")) as [->|Hnt]; [done|].
  destruct (chars_step t Ht Hnt) as (c' & r' & Ho' & Hr' & Ec'). rewrite Ec' in E.
  injection E as <- E. assert (r = r') as <-.
  { apply (IH (String.length r)); [|done..]. apply one_char_shorter in Ho. lia. }
  by apply (one_char_inj s t c r).
Qed.
