(* ===== verification/Bytes.v ===== *)
(** * Byte encodings

    [to_le_bytes], and the length-prefixed framing the digests of the code hash: a string
    is its length in eight little-endian bytes and its bytes, a list is its count and its
    framed strings. *)

From Stdlib Require Import ZArith NArith Lia Ascii String.
From stdpp Require Import base list strings.
From S2P Require Import Prelude RustStd.

Open Scope string_scope.
Open Scope list_scope.
Open Scope persist_scope.

(** [n] little-endian bytes of a two's-complement integer. *)
Fixpoint le_bytes (n : nat) (z : Z) : string :=
  match n with
  | O => ""
  | S n' => String (ascii_of_N (Z.to_N (z mod 256))) (le_bytes n' (z / 256))
  end.

(** [x.to_le_bytes()] of a [u64] or an [i64]. *)
Definition le64 (z : Z) : string := le_bytes 8 z.

(** [(s.len() as u64).to_le_bytes()] and the bytes. *)
Definition framed (s : string) : string := le64 (Z.of_nat (String.length s)) +:+ s.

(** The count of a list and its framed strings. *)
Definition framed_list (l : list string) : string :=
  le64 (Z.of_nat (length l)) +:+ fold_right (fun s acc => framed s +:+ acc) "" l.

Definition two64 : Z := 18446744073709551616.

(** ** Lemmas *)

Lemma le_bytes_length n z : String.length (le_bytes n z) = n.
Proof. revert z. induction n as [|n IH]; intros z; simpl; [done|]. by rewrite IH. Qed.

Lemma le64_length z : String.length (le64 z) = 8.
Proof. apply le_bytes_length. Qed.

Lemma byte_inj x y :
  ascii_of_N (Z.to_N (x mod 256)) = ascii_of_N (Z.to_N (y mod 256)) -> (x mod 256 = y mod 256)%Z.
Proof.
  intros E. apply (f_equal N_of_ascii) in E.
  pose proof (Z.mod_pos_bound x 256 ltac:(lia)). pose proof (Z.mod_pos_bound y 256 ltac:(lia)).
  rewrite !N_ascii_embedding in E by lia. lia.
Qed.

Lemma le_bytes_inj n : forall x y, le_bytes n x = le_bytes n y ->
  (x mod 256 ^ Z.of_nat n = y mod 256 ^ Z.of_nat n)%Z.
Proof.
  induction n as [|n IH]; intros x y E; [by rewrite !Z.mod_1_r|].
  cbn [le_bytes] in E. injection E as Ea Er. apply byte_inj in Ea. apply IH in Er.
  rewrite Nat2Z.inj_succ, Z.pow_succ_r by lia.
  rewrite !Z.rem_mul_r by lia. congruence.
Qed.

Lemma le64_inj x y : (0 <= x < two64)%Z -> (0 <= y < two64)%Z -> le64 x = le64 y -> x = y.
Proof.
  intros Hx Hy E. apply le_bytes_inj in E. change (256 ^ Z.of_nat 8)%Z with two64 in E.
  rewrite !Z.mod_small in E by done. done.
Qed.

(** Signed integers: two's complement separates them. *)
Lemma le64_inj_signed x y :
  (- 2 ^ 63 <= x < 2 ^ 63)%Z -> (- 2 ^ 63 <= y < 2 ^ 63)%Z -> le64 x = le64 y -> x = y.
Proof.
  intros Hx Hy E. apply le_bytes_inj in E. change (256 ^ Z.of_nat 8)%Z with two64 in E.
  pose proof (Z.div_mod x two64 ltac:(done)). pose proof (Z.div_mod y two64 ltac:(done)).
  pose proof (Z.mod_pos_bound x two64 ltac:(done)). unfold two64 in *. lia.
Qed.

Lemma string_length_app (a b : string) : String.length (a +:+ b) = String.length a + String.length b.
Proof. induction a; rewrite ?app_cons; simpl; [done|]. by rewrite IHa. Qed.

(** Equal concatenations with equally long heads. *)
Lemma app_inj_length (a b c d : string) :
  String.length a = String.length b -> a +:+ c = b +:+ d -> a = b /\ c = d.
Proof.
  revert b. induction a as [|x a IH]; intros [|y b] Hl E; simpl in Hl; try lia; [done|].
  rewrite !app_cons in E. injection E as -> E. apply IH in E as [-> ->]; [done|lia].
Qed.

(** A Rust string's length fits a [u64]. *)
Definition fits (s : string) : Prop := (Z.of_nat (String.length s) < two64)%Z.

Lemma framed_inj s t r u : fits s -> fits t -> framed s +:+ r = framed t +:+ u -> s = t /\ r = u.
Proof.
  intros Hs Ht E. unfold framed in E. rewrite !string_app_assoc in E.
  apply app_inj_length in E as [El E]; [|by rewrite !le64_length].
  apply le64_inj in El; [|unfold fits in *; lia..].
  apply app_inj_length in E; [done|lia].
Qed.

Lemma framed_elems_inj l : forall m r u, Forall fits l -> Forall fits m -> length l = length m ->
  fold_right (fun s acc => framed s +:+ acc) "" l +:+ r
  = fold_right (fun s acc => framed s +:+ acc) "" m +:+ u -> l = m /\ r = u.
Proof.
  induction l as [|s l IH]; intros [|t m] r u Hl Hm Hlen E; try done.
  apply Forall_cons in Hl as [Hs Hl]. apply Forall_cons in Hm as [Ht Hm].
  cbn [fold_right] in E. rewrite (string_app_assoc (framed s)), (string_app_assoc (framed t)) in E.
  destruct (framed_inj s t _ _ Hs Ht E) as [-> E']. apply IH in E' as [-> ->]; auto.
Qed.

Lemma framed_list_inj l m r u :
  Forall fits l -> Forall fits m -> (Z.of_nat (length l) < two64)%Z -> (Z.of_nat (length m) < two64)%Z ->
  framed_list l +:+ r = framed_list m +:+ u -> l = m /\ r = u.
Proof.
  intros Hl Hm Hnl Hnm E. unfold framed_list in E. rewrite !string_app_assoc in E.
  apply app_inj_length in E as [El E]; [|by rewrite !le64_length].
  apply le64_inj in El; [|lia..]. apply framed_elems_inj in E; [done..|lia].
Qed.
