(* ===== verification/Json.v ===== *)
(** * JSON values, instants, and the row type every fold reads

    [serde_json::Value] and [chrono::DateTime<Utc>] are the data the modelled
    functions pass around; [Attestation] is
    [src/src/federation/types.rs]'s row struct. *)

From Stdlib Require Import ZArith NArith Lia.
From Stdlib Require SpecFloat.
From stdpp Require Import base list strings.
From S2P Require Import Prelude RustStd.

Open Scope string_scope.
Open Scope list_scope.
Open Scope persist_scope.

(** ** IEEE binary64

    [f64] is the Standard Library's executable specification of binary floats
    at precision 53 and maximal exponent 1024. *)
Module F64.
Definition t := SpecFloat.spec_float.
Definition prec : Z := 53.
Definition emax : Z := 1024.

Definition zero : t := SpecFloat.S754_zero false.
(** An integer, rounded to nearest even. *)
Definition of_N (n : N) : t :=
  match n with
  | N0 => zero
  | Npos p => SpecFloat.binary_normalize prec emax (Zpos p) 0 false
  end.
Definition one : t := of_N 1.
Definition add : t -> t -> t := SpecFloat.SFadd prec emax.
Definition mul : t -> t -> t := SpecFloat.SFmul prec emax.
Definition div : t -> t -> t := SpecFloat.SFdiv prec emax.
Definition leb : t -> t -> bool := SpecFloat.SFleb.
Definition is_finite (x : t) : bool :=
  match x with
  | SpecFloat.S754_zero _ | SpecFloat.S754_finite _ _ _ => true
  | SpecFloat.S754_infinity _ | SpecFloat.S754_nan => false
  end.
Definition is_nan (x : t) : bool :=
  match x with SpecFloat.S754_nan => true | _ => false end.
(** [f64::MIN_POSITIVE], the smallest normal: 2^-1022. *)
Definition MIN_POSITIVE : t := SpecFloat.S754_finite false 4503599627370496 (-1074).
(** [f64::max]: the other operand when one is NaN. *)
Definition max (x y : t) : t :=
  if is_nan x then y else if is_nan y then x else if leb x y then y else x.
(** [iter.sum::<f64>()]: left to right, from the iterator's start value. *)
Definition sum (l : list t) : t := fold_left add l (SpecFloat.S754_zero true).
Definition opp (x : t) : t := SpecFloat.SFopp x.
Definition sub : t -> t -> t := SpecFloat.SFsub prec emax.
Definition ltb : t -> t -> bool := SpecFloat.SFltb.
(** [f64::min]: the other operand when one is NaN. *)
Definition min (x y : t) : t :=
  if is_nan x then y else if is_nan y then x else if ltb y x then y else x.
(** [f64::clamp] with [lo <= hi]: NaN stays NaN. *)
Definition clamp (x lo hi : t) : t :=
  let x := if ltb x lo then lo else x in if ltb hi x then hi else x.
Definition of_Z (z : Z) : t :=
  match z with Z0 => zero | Zpos p => of_N (Npos p) | Zneg p => opp (of_N (Npos p)) end.
(** [x as u64]: truncation that saturates; NaN is 0. *)
Definition to_u64 (x : t) : N :=
  match x with
  | SpecFloat.S754_finite false m e =>
      N.min (2 ^ 64 - 1)
        (if (0 <=? e)%Z then Z.to_N (Zpos m * 2 ^ e) else Z.to_N (Zpos m / 2 ^ (- e)))
  | SpecFloat.S754_infinity false => (2 ^ 64 - 1)%N
  | _ => 0%N
  end.
(** [f64::ceil]: a value with a non-negative exponent is an integer already. *)
Definition ceil (x : t) : t :=
  match x with
  | SpecFloat.S754_finite false m e =>
      if (0 <=? e)%Z then x
      else of_N (Z.to_N ((Zpos m + 2 ^ (- e) - 1) / 2 ^ (- e)))
  | SpecFloat.S754_finite true m e =>
      if (0 <=? e)%Z then x else opp (of_N (Z.to_N (Zpos m / 2 ^ (- e))))
  | _ => x
  end.
End F64.

(** ** [serde_json::Value]

    A number is the token it was parsed from ([arbitrary_precision]), with what [as_u64]
    and [as_f64] read from it. An object is its list of members. *)
Record number := mk_number { num_u64 : option N; num_f64 : option F64.t; num_token : string }.

Inductive Value :=
| Null
| Bool (b : bool)
| Number (n : number)
| Str (s : string)
| Array (l : list Value)
| Object (m : list (string * Value)).

Fixpoint assoc {A} (k : string) (m : list (string * A)) : option A :=
  match m with
  | [] => None
  | (k', v) :: m' => if k =s k' then Some v else assoc k m'
  end.

(** [v.get(k)] with a string index. *)
Definition get (v : Value) (k : string) : option Value :=
  match v with Object m => assoc k m | _ => None end.

Definition as_str (v : Value) : option string :=
  match v with Str s => Some s | _ => None end.
Definition as_bool (v : Value) : option bool :=
  match v with Bool b => Some b | _ => None end.
Definition as_u64 (v : Value) : option N :=
  match v with Number n => num_u64 n | _ => None end.
Definition as_f64 (v : Value) : option F64.t :=
  match v with Number n => num_f64 n | _ => None end.
Definition as_array (v : Value) : option (list Value) :=
  match v with Array l => Some l | _ => None end.
Definition as_object (v : Value) : option (list (string * Value)) :=
  match v with Object m => Some m | _ => None end.

(** [v.get(k).and_then(Value::as_str)]. *)
Definition get_str (v : Value) (k : string) : option string :=
  match get v k with Some x => as_str x | None => None end.

(** A JSON integer, as a reader of the number sees it. *)
Definition JInt (n : N) : Value := Number (mk_number (Some n) (Some (F64.of_N n)) (fmt_N n)).

(** ** Instants

    [DateTime<Utc>] is its nanosecond count. The calendar's bound and the
    checked arithmetic are the [chrono] crate's; the laws are its documented
    behaviour. *)
Definition instant := Z.

Definition NANOS : Z := 1000000000.

Class Chrono := {
  MAX_UTC : instant;
  DURATION_MAX : Z;
  (** [Duration::try_seconds]. *)
  try_seconds : Z -> option Z;
  (** [DateTime::checked_add_signed]. *)
  checked_add_signed : instant -> Z -> option instant;
  try_seconds_some : forall s d, try_seconds s = Some d -> d = (s * NANOS)%Z;
  try_seconds_small : forall s, (0 <= s)%Z -> (s * NANOS <= DURATION_MAX)%Z ->
    try_seconds s = Some (s * NANOS)%Z;
  checked_add_some : forall t d u, checked_add_signed t d = Some u ->
    u = (t + d)%Z /\ (u <= MAX_UTC)%Z;
  checked_add_total : forall t d, (0 <= d)%Z -> (t + d <= MAX_UTC)%Z ->
    checked_add_signed t d = Some (t + d)%Z;
  duration_max_past_calendar : (0 <= DURATION_MAX)%Z;
  (** [Duration::try_days] and [Duration::try_hours]. *)
  try_days : Z -> option Z;
  try_hours : Z -> option Z;
  try_days_some : forall n d, try_days n = Some d -> d = (n * 86400 * NANOS)%Z;
  try_hours_some : forall n d, try_hours n = Some d -> d = (n * 3600 * NANOS)%Z;
}.

(** Concrete bounds for evaluating the model: the year 262142 and [i64::MAX]
    milliseconds. *)
#[export] Program Instance chrono_bounds : Chrono := {|
  MAX_UTC := 8210266876799999999999%Z;
  DURATION_MAX := 9223372036854775807000000%Z;
  try_seconds s := if (Z.abs s * NANOS <=? 9223372036854775807000000)%Z
                   then Some (s * NANOS)%Z else None;
  checked_add_signed t d := if (t + d <=? 8210266876799999999999)%Z
                            then Some (t + d)%Z else None;
  try_days n := if (Z.abs n * 86400 * NANOS <=? 9223372036854775807000000)%Z
                then Some (n * 86400 * NANOS)%Z else None;
  try_hours n := if (Z.abs n * 3600 * NANOS <=? 9223372036854775807000000)%Z
                 then Some (n * 3600 * NANOS)%Z else None;
|}.
Next Obligation. simpl; intros s d H. case_if; congruence. Qed.
Next Obligation. simpl; intros s H0 H. rewrite Z.abs_eq by done. case_if; [done|lia]. Qed.
Next Obligation. simpl; intros t d u H. case_if; [|done]. inv H. lia. Qed.
Next Obligation. simpl; intros t d H0 H. case_if; [done|lia]. Qed.
Next Obligation. done. Qed.
Next Obligation. simpl; intros n d H. case_if; congruence. Qed.
Next Obligation. simpl; intros n d H. case_if; congruence. Qed.

(** ** The attestation row *)

(** [types.rs], [mod attestation_type]. *)
Module attestation_type.
Definition SCORES := "scores".
Definition DELEGATES_TO := "delegates_to".
Definition SUPERSEDES := "supersedes".
Definition WITHDRAWS := "withdraws".
Definition RECANTS := "recants".
End attestation_type.

(** [types.rs], [struct ScrubSig]. *)
Record ScrubSig := mk_ScrubSig {
  ss_scrub_key_id : string;
  ss_scrub_signature_classical : string;
  ss_scrub_signature_pqc : option string;
  ss_cosigned_at : option string;
}.

(** [types.rs], [struct Attestation]. *)
Record Attestation := mk_Attestation {
  attestation_id : string;
  attesting_key_id : string;
  attested_key_id : string;
  attestation_type : string;
  weight : option F64.t;
  asserted_at : instant;
  expires_at : option instant;
  attestation_envelope : Value;
  original_content_hash : string;
  scrub_signature_classical : string;
  scrub_signature_pqc : option string;
  scrub_key_id : string;
  scrub_timestamp : instant;
  pqc_completed_at : option instant;
  persist_row_hash : string;
  subject_key_ids : list string;
  withdraws_admission_rule : option N;
  cohort_scope : string;
  tier : string;
  promoted_at : option instant;
  additional_scrubs : list ScrubSig;
}.

(** A row with the fields the folds read; the rest at neutral values. Used to
    build concrete inputs. *)
Definition row (id by_ ty : string) (at_ : instant) (env : Value) (subjects : list string)
    : Attestation :=
  mk_Attestation id by_ by_ ty None at_ None env "" "" None by_ at_ None "" subjects None
    "federation" "federation" None [].

(** [row.attestation_envelope.get(key)?.as_str()]. *)
Definition envelope_str (r : Attestation) (key : string) : option string :=
  get_str (attestation_envelope r) key.

(** ** Rows with distinct ids *)

(** Rows of a list with distinct ids are equal when their ids are. *)
Lemma ids_inj (l : list Attestation) a b :
  NoDup (map attestation_id l) -> In a l -> In b l -> attestation_id a = attestation_id b -> a = b.
Proof. apply map_key_inj. Qed.

Lemma NoDup_filter_ids (f : Attestation -> bool) l :
  NoDup (map attestation_id l) -> NoDup (map attestation_id (List.filter f l)).
Proof.
  induction l as [|b l IH]; simpl; [done|]. intros Hnd.
  apply NoDup_cons in Hnd as [Hb Hnd]. destruct (f b); simpl; [|by apply IH].
  apply NoDup_cons. split; [|by apply IH]. intros Hin. apply Hb.
  apply list_elem_of_fmap in Hin as (x & -> & Hx). apply list_elem_of_fmap. exists x.
  split; [done|]. apply list_elem_of_In in Hx. apply filter_In in Hx as [Hx _].
  by apply list_elem_of_In.
Qed.
