(* ===== verification/F64Facts.v ===== *)
(** * Rounding in binary64

    The arithmetic of [F64] rounds to the nearest value, so it is monotone: a result is on the
    same side of every representable value as the exact result is. That is stated as [rounds],
    proved for each operation on non-negative operands, and is what the folds over weights,
    rates and fractions rely on. *)

From Stdlib Require Import ZArith NArith Lia Reals Lra.
From Stdlib Require Import SpecFloat.
From stdpp Require Import base list.
From S2P Require Import Prelude RustStd Json.

#[local] Open Scope Z_scope.

(** ** Digits *)

Lemma digits2_pos_bounds p :
  2 ^ (Zpos (digits2_pos p) - 1) <= Zpos p < 2 ^ Zpos (digits2_pos p).
Proof.
  induction p as [p IH|p IH|]; [| |split; done].
  all: cbn [digits2_pos]; rewrite Pos2Z.inj_succ;
    set (d := Zpos (digits2_pos p)) in *; assert (0 < d) by done;
    replace (Z.succ d - 1) with (Z.succ (d - 1)) by lia; rewrite !Z.pow_succ_r by lia;
    first [change (Zpos p~1) with (2 * Zpos p + 1)|change (Zpos p~0) with (2 * Zpos p)]; lia.
Qed.

Lemma digits2_unique p d : 0 < d -> 2 ^ (d - 1) <= Zpos p < 2 ^ d -> Zpos (digits2_pos p) = d.
Proof.
  intros Hd H. pose proof (digits2_pos_bounds p) as B.
  destruct (Z.lt_trichotomy (Zpos (digits2_pos p)) d) as [L|[?|L]]; [|done|].
  - assert (2 ^ Zpos (digits2_pos p) <= 2 ^ (d - 1)) by (apply Z.pow_le_mono_r; lia). lia.
  - assert (2 ^ d <= 2 ^ (Zpos (digits2_pos p) - 1)) by (apply Z.pow_le_mono_r; lia). lia.
Qed.

Definition emin : Z := -1074.
Definition fexp64 (e : Z) : Z := Z.max (e - 53) emin.

Lemma fexp_64 e : fexp 53 1024 e = fexp64 e.
Proof. reflexivity. Qed.

(** ** Values *)

Definition bpow (e : Z) : R := powerRZ 2 e.

Lemma bpow_pos e : (0 < bpow e)%R.
Proof. apply powerRZ_lt. lra. Qed.
Lemma bpow_add a b : bpow (a + b) = (bpow a * bpow b)%R.
Proof. apply powerRZ_add. lra. Qed.
Lemma bpow_Z n : 0 <= n -> bpow n = IZR (2 ^ n).
Proof. intros H. unfold bpow. rewrite <- (Z2Nat.id n) by done. rewrite <- pow_IZR. by rewrite pow_powerRZ. Qed.
Lemma bpow_1 : bpow 1 = 2%R.
Proof. unfold bpow. simpl. lra. Qed.
Lemma bpow_le a b : a <= b -> (bpow a <= bpow b)%R.
Proof.
  intros H. replace b with (a + (b - a)) by lia. rewrite bpow_add, (bpow_Z (b - a)) by lia.
  pose proof (bpow_pos a). assert (1 <= 2 ^ (b - a)) by (apply (Z.pow_le_mono_r 2 0); lia).
  apply IZR_le in H1. nra.
Qed.

(** The value of a finite float. *)
Definition val (x : F64.t) : R :=
  match x with
  | S754_finite s m e => ((if s then -1 else 1) * IZR (Zpos m) * bpow e)%R
  | _ => 0%R
  end.
Definition valid64 (x : F64.t) : Prop := valid_binary 53 1024 x = true.

(** A finite value that is zero or positive, in canonical form. *)
Definition nonneg (x : F64.t) : bool :=
  match x with
  | S754_zero _ | S754_finite false _ _ => true
  | _ => false
  end.
Definition amount (x : F64.t) : Prop := valid64 x /\ nonneg x = true.

Lemma val_nonneg x : nonneg x = true -> (0 <= val x)%R.
Proof.
  destruct x as [| | |[] m e]; simpl; intros; try lra; try discriminate.
  pose proof (bpow_pos e). assert (0 < IZR (Zpos m))%R by (by apply IZR_lt). nra.
Qed.

Lemma valid_finite s m e :
  valid64 (S754_finite s m e) <-> fexp64 (Zpos (digits2_pos m) + e) = e /\ e <= 971.
Proof.
  unfold valid64. cbn [valid_binary]. unfold bounded, canonical_mantissa.
  rewrite andb_true_iff, Z.eqb_eq, Z.leb_le, fexp_64. done.
Qed.

(** Canonical values with a smaller exponent are smaller. *)
Lemma canonical_lt m1 e1 m2 e2 :
  fexp64 (Zpos (digits2_pos m1) + e1) = e1 -> fexp64 (Zpos (digits2_pos m2) + e2) = e2 ->
  e1 < e2 -> (IZR (Zpos m1) * bpow e1 < IZR (Zpos m2) * bpow e2)%R.
Proof.
  unfold fexp64, emin. intros H1 H2 He.
  pose proof (digits2_pos_bounds m1) as [_ B1]. pose proof (digits2_pos_bounds m2) as [B2 _].
  assert (D1 : Zpos (digits2_pos m1) <= 53) by lia. assert (D2 : Zpos (digits2_pos m2) = 53) by lia.
  rewrite D2 in B2. change (53 - 1) with 52 in B2.
  assert (M1 : Zpos m1 < 2 ^ 53) by (eapply Z.lt_le_trans; [exact B1|apply Z.pow_le_mono_r; lia]).
  replace e2 with (e1 + 1 + (e2 - e1 - 1)) by lia. rewrite !bpow_add, bpow_1.
  apply IZR_lt in M1. apply IZR_le in B2.
  assert (1 <= bpow (e2 - e1 - 1))%R.
  { rewrite bpow_Z by lia. apply IZR_le. apply (Z.pow_le_mono_r 2 0); lia. }
  replace (2 ^ 53) with (2 * 2 ^ 52) in M1 by reflexivity. rewrite mult_IZR in M1.
  pose proof (bpow_pos e1). assert (0 < IZR (Zpos m1))%R by (by apply IZR_lt).
  apply Rlt_le_trans with (IZR (2 ^ 52) * 2 * bpow e1)%R; [nra|].
  assert (0 <= IZR (2 ^ 52))%R by (apply IZR_le; lia).
  assert (0 <= bpow e1 * 2)%R by nra.
  apply Rle_trans with (IZR (Zpos m2) * (bpow e1 * 2))%R; [nra|].
  assert (0 <= IZR (Zpos m2) * (bpow e1 * 2))%R by nra. nra.
Qed.

(** The comparison of the operations is the comparison of the values. *)
Lemma leb_val x y : amount x -> amount y -> F64.leb x y = true <-> (val x <= val y)%R.
Proof.
  intros [Vx Nx] [Vy Ny].
  destruct x as [sx| | |[] mx ex]; try discriminate Nx; destruct y as [sy| | |[] my ey]; try discriminate Ny;
    unfold F64.leb, SFleb; cbn [SFcompare val].
  - split; [intros; lra|done].
  - pose proof (val_nonneg (S754_finite false my ey) eq_refl) as H. simpl in H. split; [intros; lra|done].
  - pose proof (bpow_pos ex). assert (0 < IZR (Zpos mx))%R by (by apply IZR_lt).
    split; [discriminate|]. intros. assert (0 < IZR (Z.pos mx) * bpow ex)%R by nra. lra.
  - apply valid_finite in Vx as [Cx _], Vy as [Cy _]. rewrite !Rmult_1_l.
    destruct (Z.compare_spec ex ey) as [->|L|L].
    + change (Pos.compare_cont Eq mx my) with (Pos.compare mx my).
      pose proof (bpow_pos ey) as Hp. destruct (Pos.compare_spec mx my) as [->|L|L].
      * split; [intros; lra|done].
      * split; [intros _|done]. apply Rmult_le_compat_r; [lra|]. apply IZR_le. lia.
      * split; [discriminate|]. intros Hc. exfalso. apply Rmult_le_reg_r in Hc; [|done].
        apply le_IZR in Hc. lia.
    + split; [intros _|done]. pose proof (canonical_lt _ _ _ _ Cx Cy L). lra.
    + split; [discriminate|]. pose proof (canonical_lt _ _ _ _ Cy Cx L). lra.
Qed.

(** ** Shifting with sticky bits *)

(** Where the exact mantissa [v] lies from the truncated one. *)
Definition located (mrs : shr_record) (v : R) : Prop :=
  let m := IZR (shr_m mrs) in
  match shr_r mrs, shr_s mrs with
  | false, false => v = m
  | false, true => (m < v < m + / 2)%R
  | true, false => v = (m + / 2)%R
  | true, true => (m + / 2 < v < m + 1)%R
  end.

Lemma located_between mrs v : located mrs v -> (IZR (shr_m mrs) <= v < IZR (shr_m mrs) + 1)%R.
Proof. unfold located. destruct (shr_r mrs), (shr_s mrs); lra. Qed.

Lemma shr_1_located mrs v :
  0 <= shr_m mrs -> located mrs v ->
  located (shr_1 mrs) (v / 2) /\ shr_m (shr_1 mrs) = shr_m mrs / 2.
Proof.
  destruct mrs as [m r s]. unfold located. simpl. intros Hm H.
  destruct m as [|[p|p|]|]; [| | | |lia]; simpl.
  - split; [|done]. destruct r, s; simpl in *; lra.
  - rewrite Pos2Z.inj_xI, plus_IZR, mult_IZR in H. split.
    + destruct r, s; simpl in *; lra.
    + change (Z.pos p~1 / 2) with ((Zpos p~1) / 2). rewrite Pos2Z.inj_xI.
      rewrite (Z.mul_comm 2), Z.div_add_l by lia. change (1 / 2) with 0. lia.
  - rewrite Pos2Z.inj_xO, mult_IZR in H. split.
    + destruct r, s; simpl in *; lra.
    + rewrite Pos2Z.inj_xO, (Z.mul_comm 2), Z.div_mul by lia. done.
  - split; [|done]. destruct r, s; simpl in *; lra.
Qed.

Lemma iter_located p : forall mrs v,
  0 <= shr_m mrs -> located mrs v ->
  located (SpecFloat.iter_pos shr_1 p mrs) (v * bpow (- Zpos p)) /\
  shr_m (SpecFloat.iter_pos shr_1 p mrs) = shr_m mrs / 2 ^ Zpos p.
Proof.
  assert (Hdiv : forall m, 0 <= m -> forall p, 0 <= m / 2 ^ Zpos p) by (intros; apply Z.div_pos; [done|lia]).
  induction p as [p IH|p IH|]; intros mrs v Hm H; simpl SpecFloat.iter_pos.
  - destruct (shr_1_located mrs v Hm H) as [H1 E1].
    destruct (IH (shr_1 mrs) (v / 2)%R) as [H2 E2]; [rewrite E1; by apply Z.div_pos|done|].
    destruct (IH _ _ ltac:(rewrite E2, E1; apply Hdiv; by apply Z.div_pos) H2) as [H3 E3]. split.
    + replace (v * bpow (- Zpos p~1))%R with (v / 2 * bpow (- Zpos p) * bpow (- Zpos p))%R; [done|].
      replace (- Zpos p~1) with (-1 + - Zpos p + - Zpos p) by lia. rewrite !bpow_add.
      change (bpow (-1)) with (/ (2 * 1))%R. lra.
    + rewrite E3, E2, E1, !Z.div_div by lia. f_equal.
      replace (Zpos p~1) with (1 + Zpos p + Zpos p) by lia. rewrite !Z.pow_add_r by lia. ring.
  - destruct (IH mrs v Hm H) as [H2 E2].
    destruct (IH _ _ ltac:(rewrite E2; by apply Hdiv) H2) as [H3 E3]. split.
    + replace (v * bpow (- Zpos p~0))%R with (v * bpow (- Zpos p) * bpow (- Zpos p))%R; [done|].
      replace (- Zpos p~0) with (- Zpos p + - Zpos p) by lia. rewrite bpow_add. lra.
    + rewrite E3, E2, Z.div_div by lia. f_equal.
      replace (Zpos p~0) with (Zpos p + Zpos p) by lia. by rewrite Z.pow_add_r by lia.
  - destruct (shr_1_located mrs v Hm H) as [H1 E1]. split; [|done].
    replace (v * bpow (- Zpos 1))%R with (v / 2)%R; [exact H1|].
    change (bpow (- Zpos 1)) with (/ (2 * 1))%R. lra.
Qed.

(** Rounding a located mantissa: up only past the truncation. *)
Lemma rne_located mrs v :
  0 <= shr_m mrs -> located mrs v ->
  let z := round_nearest_even (shr_m mrs) (loc_of_shr_record mrs) in
  (z = shr_m mrs \/ z = shr_m mrs + 1 /\ (IZR (shr_m mrs) < v)%R).
Proof.
  destruct mrs as [m r s]. unfold located. simpl. intros Hm H.
  destruct r, s; simpl; try (by left); try (right; split; [done|lra]).
  destruct (Z.even m); [by left|right; split; [done|lra]].
Qed.

(** ** Rounding *)

(** [r] is [V] rounded: the nearest value, or infinity past the largest. *)
Definition rounds (V : R) (r : F64.t) : Prop :=
  valid64 r /\ (nonneg r = true \/ r = S754_infinity false) /\
  forall c, amount c ->
    ((val c <= V)%R -> F64.leb c r = true) /\ ((V <= val c)%R -> F64.leb r c = true /\ nonneg r = true).

Definition canon (m : positive) (e : Z) : Prop := fexp64 (Zpos (digits2_pos m) + e) = e.

Lemma canon_emin m e : canon m e -> emin <= e.
Proof. unfold canon, fexp64. lia. Qed.

Lemma canon_full m e : 2 ^ 52 <= Zpos m < 2 ^ 53 -> emin <= e -> canon m e.
Proof.
  intros H He. unfold canon. rewrite (digits2_unique m 53) by (change (53 - 1) with 52; lia).
  unfold fexp64. lia.
Qed.

Lemma canon_small m : Zpos m < 2 ^ 53 -> canon m emin.
Proof.
  intros H. unfold canon, fexp64. pose proof (digits2_pos_bounds m) as [B _].
  assert (Zpos (digits2_pos m) <= 53); [|lia].
  destruct (Z.le_gt_cases (Zpos (digits2_pos m)) 53) as [|L]; [done|].
  assert (2 ^ 53 <= 2 ^ (Zpos (digits2_pos m) - 1)) by (apply Z.pow_le_mono_r; lia). lia.
Qed.

(** The truncated mantissa has at most 53 digits, and exactly 53 above the least exponent. *)
Lemma truncated_digits mx ex :
  0 <= mx -> ex <= fexp64 (Zdigits2 mx + ex) ->
  let e1 := fexp64 (Zdigits2 mx + ex) in
  let m1 := mx / 2 ^ (e1 - ex) in
  0 <= m1 < 2 ^ 53 /\ (emin < e1 -> 2 ^ 52 <= m1).
Proof.
  intros Hm He e1 m1. subst m1.
  assert (H0 : 0 <= mx / 2 ^ (e1 - ex)) by (apply Z.div_pos; [done|apply Z.pow_pos_nonneg; lia]).
  destruct mx as [|p|]; [| |lia].
  - rewrite Z.div_0_l in * by (apply Z.pow_nonzero; lia). split; [lia|].
    subst e1. simpl Zdigits2 in *. unfold fexp64 in *. lia.
  - simpl Zdigits2 in *. pose proof (digits2_pos_bounds p) as [B1 B2].
    set (d := Zpos (digits2_pos p)) in *. assert (Hd : 0 < d) by done.
    assert (E : e1 = fexp64 (d + ex)) by done. unfold fexp64 in E. split; [split; [done|]|].
    + apply Z.div_lt_upper_bound; [apply Z.pow_pos_nonneg; lia|].
      rewrite <- Z.pow_add_r by lia. eapply Z.lt_le_trans; [exact B2|]. apply Z.pow_le_mono_r; lia.
    + intros Hlt. apply Z.div_le_lower_bound; [apply Z.pow_pos_nonneg; lia|].
      rewrite <- Z.pow_add_r by lia. etrans; [|exact B1]. apply Z.pow_le_mono_r; lia.
Qed.

Lemma shr_fexp_located mx ex lx v :
  0 <= mx -> located (shr_record_of_loc mx lx) v -> ex <= fexp64 (Zdigits2 mx + ex) ->
  let e1 := fexp64 (Zdigits2 mx + ex) in
  exists mrs, shr_fexp 53 1024 mx ex lx = (mrs, e1)
    /\ located mrs (v * bpow (ex - e1)) /\ shr_m mrs = mx / 2 ^ (e1 - ex).
Proof.
  intros Hm Hl He e1. unfold shr_fexp. rewrite fexp_64. fold e1.
  assert (Hsm : shr_m (shr_record_of_loc mx lx) = mx) by by destruct lx as [|[]].
  destruct (e1 - ex) as [|p|p] eqn:E; [| |unfold e1 in E; lia].
  - exists (shr_record_of_loc mx lx). replace e1 with ex by lia. split; [done|].
    rewrite Z.sub_diag. change (bpow 0) with 1%R. rewrite Rmult_1_r, Z.div_1_r. done.
  - destruct (iter_located p _ v ltac:(by rewrite Hsm) Hl) as [H1 H2].
    exists (SpecFloat.iter_pos shr_1 p (shr_record_of_loc mx lx)). split_and!.
    + unfold shr. f_equal. lia.
    + by replace (ex - e1) with (- Zpos p) by lia.
    + by rewrite H2, Hsm.
Qed.

(** The last step: a mantissa of at most [2^53] in its exponent is put in canonical form. *)
Definition pack (m : Z) (e : Z) : F64.t :=
  match m with
  | Z0 => S754_zero false
  | Zpos p => if e <=? 971 then S754_finite false p e else S754_infinity false
  | Zneg _ => S754_nan
  end.

Lemma repack z e1 :
  0 <= z <= 2 ^ 53 -> emin <= e1 -> (emin < e1 -> 2 ^ 52 <= z) ->
  exists m e, (let '(mrs, e2) := shr_fexp 53 1024 z e1 loc_Exact in pack (shr_m mrs) e2) = pack m e
    /\ (IZR m * bpow e = IZR z * bpow e1)%R /\ 0 <= m
    /\ (forall p, m = Zpos p -> canon p e).
Proof.
  intros [H0 H1] He Hb. unfold shr_fexp. rewrite fexp_64.
  destruct (Z.eq_dec z 0) as [->|Hz].
  { assert (e1 = emin) as -> by lia. exists 0, emin. split_and!; [done|done|done|discriminate]. }
  destruct z as [|p|]; [done| |lia].
  destruct (Z.eq_dec (Zpos p) (2 ^ 53)) as [E|Hne].
  - rewrite E. assert (E1 : fexp64 (Zdigits2 (2 ^ 53) + e1) - e1 = 1).
    { change (Zdigits2 (2 ^ 53)) with 54. unfold fexp64. lia. }
    rewrite E1. exists (2 ^ 52), (e1 + 1). split_and!; [done| |done|].
    + rewrite bpow_add, bpow_1. change (2 ^ 53) with (2 ^ 52 * 2). rewrite mult_IZR. lra.
    + intros q [= <-]. apply canon_full; [done|lia].
  - assert (Hc : canon p e1).
    { destruct (Z.eq_dec e1 emin) as [->|]; [apply canon_small; lia|apply canon_full; lia]. }
    simpl Zdigits2. assert (E : fexp64 (Zpos (digits2_pos p) + e1) - e1 = 0) by (rewrite Hc; lia).
    rewrite E. exists (Zpos p), e1. split_and!; [done|done|done|]. by intros q [= <-].
Qed.

(** A canonical value against a mantissa [m1] truncated in exponent [e1]. *)
Lemma grid_cases mc ec e1 m1 :
  canon mc ec -> emin <= e1 -> (emin < e1 -> 2 ^ 52 <= m1) -> m1 < 2 ^ 53 ->
  (exists K, (IZR (Zpos mc) * bpow ec = IZR K * bpow e1)%R)
  \/ (IZR (Zpos mc) * bpow ec < IZR m1 * bpow e1)%R.
Proof.
  intros Hc He Hb Hu. pose proof (canon_emin _ _ Hc).
  destruct (Z.le_gt_cases e1 ec) as [L|L].
  - left. exists (Zpos mc * 2 ^ (ec - e1)). rewrite mult_IZR, <- bpow_Z by lia.
    replace ec with (ec - e1 + e1) at 1 by lia. rewrite bpow_add. lra.
  - right. assert (Hm : 2 ^ 52 <= m1) by (apply Hb; lia).
    destruct m1 as [|p|]; [lia| |lia]. apply canonical_lt; [done| |done].
    apply canon_full; [lia|done].
Qed.

Lemma pack_leb m e c :
  0 <= m -> (forall p, m = Zpos p -> canon p e) -> amount c ->
  ((val c <= IZR m * bpow e)%R -> F64.leb c (pack m e) = true) /\
  ((IZR m * bpow e <= val c)%R -> F64.leb (pack m e) c = true /\ nonneg (pack m e) = true).
Proof.
  intros Hm Hcan Hc. destruct m as [|p|]; [| |lia]; simpl pack.
  - assert (Hz : amount (S754_zero false)) by done. rewrite Rmult_0_l. split.
    + intros H. apply leb_val; [done..|]. simpl. done.
    + intros H. split; [|done]. apply leb_val; [done..|]. simpl. done.
  - specialize (Hcan p eq_refl). destruct (Z.leb_spec e 971) as [L|L].
    + assert (Hr : amount (S754_finite false p e)) by (split; [by apply valid_finite|done]).
      split; intros H; [|split; [|done]]; apply leb_val; try done; simpl val; by rewrite Rmult_1_l.
    + split; [intros _|intros H; exfalso].
      * destruct Hc as [_ Hn]. by destruct c as [| | |[] ? ?].
      * destruct Hc as [Hv Hn]. destruct c as [| | |[] mc ec]; try discriminate Hn; simpl val in H.
        -- pose proof (bpow_pos e). assert (0 < IZR (Zpos p))%R by (by apply IZR_lt). nra.
        -- apply valid_finite in Hv as [Hcc Hec]. rewrite Rmult_1_l in H.
           pose proof (canonical_lt mc ec p e Hcc Hcan ltac:(lia)). lra.
Qed.

Lemma pack_valid m e : 0 <= m -> (forall p, m = Zpos p -> canon p e) ->
  valid64 (pack m e) /\ (nonneg (pack m e) = true \/ pack m e = S754_infinity false).
Proof.
  intros Hm Hcan. destruct m as [|p|]; simpl; [by split; [|left]| |lia].
  destruct (Z.leb_spec e 971); [|by split; [|right]]. split; [|by left].
  apply valid_finite. split; [by apply Hcan|done].
Qed.

(** The rounding of the specification is monotone. *)
Lemma round_aux_rounds mx ex lx v :
  0 <= mx -> located (shr_record_of_loc mx lx) v -> ex <= fexp64 (Zdigits2 mx + ex) ->
  rounds (v * bpow ex) (binary_round_aux 53 1024 false mx ex lx).
Proof.
  intros Hm Hl He.
  destruct (shr_fexp_located mx ex lx v Hm Hl He) as (mrs & E1 & L1 & M1).
  destruct (truncated_digits mx ex Hm He) as [[B0 B1] B2].
  set (e1 := fexp64 (Zdigits2 mx + ex)) in *. set (m1 := mx / 2 ^ (e1 - ex)) in *.
  assert (He1 : emin <= e1) by (unfold e1, fexp64; lia).
  set (w := (v * bpow (ex - e1))%R) in *.
  assert (Hw : (v * bpow ex = w * bpow e1)%R).
  { unfold w. rewrite Rmult_assoc, <- bpow_add. by replace (ex - e1 + e1) with ex by lia. }
  pose proof (located_between _ _ L1) as Hbt. rewrite M1 in Hbt.
  pose proof (rne_located mrs w ltac:(by rewrite M1) L1) as Hz. cbv zeta in Hz. rewrite M1 in Hz.
  set (z := round_nearest_even _ _) in Hz.
  destruct (repack z e1) as (m & e & Ep & Ev & Hm0 & Hcan); [lia|done|intros; destruct Hz as [->|[-> _]]; specialize (B2 H); lia|].
  assert (Er : binary_round_aux 53 1024 false mx ex lx = pack m e).
  { unfold binary_round_aux. rewrite E1. rewrite M1 in *. exact Ep. }
  rewrite Er, Hw. destruct (pack_valid m e Hm0 Hcan) as [V1 V2]. split; [done|split; [done|]].
  intros c Hc. destruct (pack_leb m e c Hm0 Hcan Hc) as [P1 P2]. rewrite Ev in P1, P2.
  pose proof (bpow_pos e1) as Hp.
  assert (Hzw : (IZR m1 <= IZR z)%R) by (apply IZR_le; destruct Hz as [->|[-> _]]; lia).
  assert (Hgrid : (exists K, (val c = IZR K * bpow e1)%R) \/ (val c < IZR m1 * bpow e1)%R).
  { destruct Hc as [Hv Hn]. destruct c as [| | |[] mc ec]; try discriminate Hn.
    - left. exists 0. simpl. lra.
    - apply valid_finite in Hv as [Hcc _]. simpl val. rewrite Rmult_1_l. by apply grid_cases. }
  split; intros HV.
  - apply P1. destruct Hgrid as [[K EK]|L]; [|nra].
    rewrite EK in *. apply Rmult_le_reg_r in HV; [|done]. apply Rmult_le_compat_r; [lra|].
    etrans; [|exact Hzw]. apply IZR_le.
    assert (K < m1 + 1); [|lia]. apply lt_IZR. rewrite plus_IZR. lra.
  - apply P2. destruct Hgrid as [[K EK]|L]; [|nra].
    rewrite EK in *. apply Rmult_le_reg_r in HV; [|done]. apply Rmult_le_compat_r; [lra|].
    apply IZR_le. destruct Hz as [->|[-> Hlt]].
    + apply le_IZR. lra.
    + assert (m1 < K); [|lia]. apply lt_IZR. lra.
Qed.

(** ** The operations round *)

Lemma rounds_exact x : amount x -> rounds (val x) x.
Proof.
  intros Hx. pose proof Hx as [Hv Hn]. split; [done|split; [by left|]]. intros c Hc.
  split; intros H; [|split; [|done]]; by apply leb_val.
Qed.

Lemma shifted m d : Zpos (Pos.iter xO m d) = Zpos m * 2 ^ Zpos d
  /\ Zpos (digits2_pos (Pos.iter xO m d)) = Zpos (digits2_pos m) + Zpos d.
Proof.
  induction d as [|d [IH1 IH2]] using Pos.peano_ind; [split; simpl Pos.iter; [change (2 ^ 1) with 2|cbn [digits2_pos]]; lia|].
  rewrite Pos.iter_succ. split.
  - rewrite Pos2Z.inj_xO, IH1, Pos2Z.inj_succ, Z.pow_succ_r by lia. lia.
  - cbn [digits2_pos]. rewrite !Pos2Z.inj_succ, IH2. lia.
Qed.

Lemma round_rounds p e : rounds (IZR (Zpos p) * bpow e) (binary_round 53 1024 false p e).
Proof.
  unfold binary_round, shl_align. rewrite fexp_64.
  set (f := fexp64 (Zpos (digits2_pos p) + e)).
  destruct (f - e) as [|d|d] eqn:E.
  - apply round_aux_rounds; [done|done|]. simpl Zdigits2. fold f. lia.
  - apply round_aux_rounds; [done|done|]. simpl Zdigits2. fold f. lia.
  - destruct (shifted p d) as [H1 H2]. replace e with (Zpos d + f) at 1 by lia.
    rewrite bpow_add, <- Rmult_assoc, bpow_Z, <- mult_IZR, <- H1 by lia.
    apply round_aux_rounds; [done|done|]. simpl Zdigits2. rewrite H2.
    replace (Zpos (digits2_pos p) + Zpos d + f) with (Zpos (digits2_pos p) + e) by lia. fold f. lia.
Qed.

Lemma of_N_rounds n : rounds (IZR (Z.of_N n)) (F64.of_N n).
Proof.
  destruct n as [|p]; [by apply (rounds_exact (S754_zero false))|].
  simpl. replace (IZR (Zpos p)) with (IZR (Zpos p) * bpow 0)%R by (change (bpow 0) with 1%R; lra).
  apply round_rounds.
Qed.

Lemma aligned m e k : k <= e -> (IZR (Zpos (fst (shl_align m e k))) * bpow k = IZR (Zpos m) * bpow e)%R.
Proof.
  intros H. unfold shl_align. destruct (k - e) as [|d|d] eqn:E; [|lia|]; simpl.
  - by replace k with e by lia.
  - rewrite (proj1 (shifted m d)), mult_IZR, <- bpow_Z by lia.
    replace e with (Zpos d + k) by lia. rewrite bpow_add. lra.
Qed.

Lemma add_rounds x y : amount x -> amount y -> rounds (val x + val y) (F64.add x y).
Proof.
  intros Hx Hy. pose proof Hx as [_ Nx]. pose proof Hy as [_ Ny].
  destruct x as [sx| | |[] mx ex]; try discriminate Nx; destruct y as [sy| | |[] my ey]; try discriminate Ny;
    unfold F64.add, SFadd.
  - simpl val. rewrite Rplus_0_l. by destruct sx, sy; apply (rounds_exact (S754_zero _)).
  - change (val (S754_zero sx)) with 0%R. rewrite Rplus_0_l. by apply rounds_exact.
  - change (val (S754_zero sy)) with 0%R. rewrite Rplus_0_r. by apply rounds_exact.
  - cbv zeta. set (k := Z.min ex ey). simpl val. rewrite !Rmult_1_l.
    rewrite <- (aligned mx ex k), <- (aligned my ey k) by lia.
    rewrite <- Rmult_plus_distr_r, <- plus_IZR. unfold cond_Zopp.
    rewrite <- Pos2Z.inj_add. apply round_rounds.
Qed.

Lemma sub_rounds x y : amount x -> amount y -> F64.leb y x = true -> rounds (val x - val y) (F64.sub x y).
Proof.
  intros Hx Hy Hle. apply leb_val in Hle; [|done..]. pose proof Hx as [_ Nx]. pose proof Hy as [_ Ny].
  destruct x as [sx| | |[] mx ex]; try discriminate Nx; destruct y as [sy| | |[] my ey]; try discriminate Ny;
    unfold F64.sub, SFsub.
  - simpl val. rewrite Rminus_0_r. by destruct sx, sy; apply (rounds_exact (S754_zero _)).
  - exfalso. simpl in Hle. pose proof (bpow_pos ey). assert (0 < IZR (Zpos my))%R by (by apply IZR_lt). nra.
  - change (val (S754_zero sy)) with 0%R. rewrite Rminus_0_r. by apply rounds_exact.
  - cbv zeta. set (k := Z.min ex ey) in *. simpl val in *. rewrite !Rmult_1_l in *.
    rewrite <- (aligned mx ex k), <- (aligned my ey k) in * by lia.
    apply Rmult_le_reg_r in Hle; [|apply bpow_pos]. apply le_IZR in Hle.
    rewrite <- Rmult_minus_distr_r, <- minus_IZR. unfold cond_Zopp.
    destruct (Zpos (fst (shl_align mx ex k)) - Zpos (fst (shl_align my ey k))) as [|p|p] eqn:E; [| |lia].
    + rewrite Rmult_0_l. by apply (rounds_exact (S754_zero false)).
    + apply round_rounds.
Qed.

Lemma canon_digits m e : canon m e -> Zpos (digits2_pos m) <= 53 /\ (Zpos (digits2_pos m) < 53 -> e = emin).
Proof. unfold canon, fexp64. lia. Qed.

Lemma digits_lower p d : 0 <= d -> 2 ^ d <= Zpos p -> d < Zpos (digits2_pos p).
Proof.
  intros Hd H. pose proof (digits2_pos_bounds p) as [_ B].
  destruct (Z.le_gt_cases (Zpos (digits2_pos p)) d) as [L|]; [|done].
  assert (2 ^ Zpos (digits2_pos p) <= 2 ^ d) by (apply Z.pow_le_mono_r; lia). lia.
Qed.

Lemma mul_rounds x y : amount x -> amount y -> rounds (val x * val y) (F64.mul x y).
Proof.
  intros [Vx Nx] [Vy Ny].
  destruct x as [sx| | |[] mx ex]; try discriminate Nx; destruct y as [sy| | |[] my ey]; try discriminate Ny;
    unfold F64.mul, SFmul.
  - simpl val. rewrite ?Rmult_0_l, ?Rmult_0_r. by apply (rounds_exact (S754_zero _)).
  - simpl val. rewrite ?Rmult_0_l, ?Rmult_0_r. by apply (rounds_exact (S754_zero _)).
  - simpl val. rewrite ?Rmult_0_l, ?Rmult_0_r. by apply (rounds_exact (S754_zero _)).
  - apply valid_finite in Vx as [Cx _], Vy as [Cy _]. simpl val. rewrite !Rmult_1_l.
    replace (IZR (Z.pos mx) * bpow ex * (IZR (Z.pos my) * bpow ey))%R
      with (IZR (Zpos (mx * my)) * bpow (ex + ey))%R by (rewrite Pos2Z.inj_mul, mult_IZR, bpow_add; lra).
    apply round_aux_rounds; [done|done|]. simpl Zdigits2.
    destruct (canon_digits _ _ Cx) as [D1 E1], (canon_digits _ _ Cy) as [D2 E2].
    pose proof (digits2_pos_bounds mx) as [B1 _]. pose proof (digits2_pos_bounds my) as [B2 _].
    set (d1 := Zpos (digits2_pos mx)) in *. set (d2 := Zpos (digits2_pos my)) in *.
    assert (0 < d1 /\ 0 < d2) as [P1 P2] by done.
    assert (d1 + d2 - 2 < Zpos (digits2_pos (mx * my))).
    { apply digits_lower; [lia|]. rewrite Pos2Z.inj_mul.
      replace (d1 + d2 - 2) with ((d1 - 1) + (d2 - 1)) by lia. rewrite Z.pow_add_r by lia.
      apply Z.mul_le_mono_nonneg; try done; apply Z.pow_nonneg; lia. }
    unfold fexp64, emin in *. lia.
Qed.

Lemma new_location_located q r m : 0 < m -> 0 <= r < m ->
  located (shr_record_of_loc q (new_location m r)) (IZR q + IZR r / IZR m).
Proof.
  intros Hm [Hr0 Hr1]. assert (0 < IZR m)%R by (by apply IZR_lt).
  assert (HZ : forall a b, (IZR a = IZR b \/ IZR a < IZR b)%R -> a <= b).
  { intros a b [E|L]; apply le_IZR; lra. }
  set (v := (IZR r / IZR m)%R). assert (Hv : (v * IZR m = IZR r)%R) by (unfold v; field; lra).
  assert (Hcmp : match Z.compare (2 * r) m with
    | Lt => (v < / 2)%R | Eq => v = (/ 2)%R | Gt => (/ 2 < v)%R end).
  { destruct (Z.compare_spec (2 * r) m) as [E|L|L].
    - apply (f_equal IZR) in E. rewrite mult_IZR in E. nra.
    - apply IZR_lt in L. rewrite mult_IZR in L. nra.
    - apply IZR_lt in L. rewrite mult_IZR in L. nra. }
  assert (Hv1 : (v < 1)%R) by (apply IZR_lt in Hr1; nra).
  unfold new_location, new_location_even, new_location_odd.
  destruct (Z.eq_dec r 0) as [->|Hr].
  { assert (v = 0)%R by nra. destruct (Z.even m); cbv beta; rewrite Z.eqb_refl; unfold located; simpl; lra. }
  assert (Hv0 : (0 < v)%R) by (assert (0 < IZR r)%R by (apply IZR_lt; lia); nra).
  destruct (Z.even m) eqn:Ee; cbv beta; rewrite (proj2 (Z.eqb_neq r 0) Hr).
  - destruct (Z.compare (2 * r) m); unfold located; simpl; lra.
  - assert (Hodd : Z.odd m = true) by (by rewrite <- Z.negb_even, Ee).
    apply Z.odd_spec in Hodd as [k Hk].
    destruct (Z.compare_spec (2 * r + 1) m) as [E|L|L];
      destruct (Z.compare_spec (2 * r) m) as [E'|L'|L']; try lia; unfold located; simpl; lra.
Qed.

(** The mantissas need not be canonical. *)
Lemma div_ratio mx ex my ey :
  rounds (val (S754_finite false mx ex) / val (S754_finite false my ey))
         (F64.div (S754_finite false mx ex) (S754_finite false my ey)).
Proof.
  unfold F64.div, SFdiv.
  unfold SFdiv_core_binary. rewrite fexp_64. simpl Zdigits2.
  set (d1 := Zpos (digits2_pos mx)). set (d2 := Zpos (digits2_pos my)).
  set (f := fexp64 (d1 + ex - (d2 + ey))). set (e' := Z.min f (ex - ey)).
  set (s := ex - ey - e'). assert (Hs : 0 <= s) by (unfold s, e'; lia).
  assert (Em : match s with Z0 => Zpos mx | Zpos _ => Z.shiftl (Zpos mx) s | Zneg _ => 0 end
               = Zpos mx * 2 ^ s).
  { destruct s eqn:Es; [rewrite Z.mul_1_r; done|by rewrite Z.shiftl_mul_pow2|lia]. }
  rewrite Em. clear Em. pose proof (Z_div_mod (Zpos mx * 2 ^ s) (Zpos my) ltac:(done)) as Hqr.
  destruct (Z.div_eucl (Zpos mx * 2 ^ s) (Zpos my)) as [q r]. destruct Hqr as [Eq Hr].
  assert (Hp : 0 < 2 ^ s) by (apply Z.pow_pos_nonneg; lia).
  assert (Hq : 0 <= q) by nia.
  pose proof (bpow_pos ey). assert (0 < IZR (Zpos my))%R by (by apply IZR_lt).
  replace (val (S754_finite false mx ex) / val (S754_finite false my ey))%R
    with ((IZR q + IZR r / IZR (Zpos my)) * bpow e')%R.
  2: { simpl val. rewrite !Rmult_1_l. apply (f_equal IZR) in Eq.
       rewrite mult_IZR, <- bpow_Z, plus_IZR, mult_IZR in Eq by done.
       replace ex with (s + e' + ey) by (unfold s; lia). rewrite !bpow_add.
       replace (IZR (Z.pos mx) * (bpow s * bpow e' * bpow ey))%R
         with ((IZR (Z.pos mx) * bpow s) * bpow e' * bpow ey)%R by lra.
       rewrite Eq. field. lra. }
  simpl xorb. apply round_aux_rounds; [done|by apply new_location_located|].
  pose proof (digits2_pos_bounds mx) as [B1 _]. pose proof (digits2_pos_bounds my) as [_ B2].
  fold d1 in B1. fold d2 in B2. assert (0 < d1 /\ 0 < d2) as [P1 P2] by done.
  assert (Hd : d1 + s - d2 <= Zdigits2 q).
  { destruct (Z.le_gt_cases (d1 + s - d2) 0) as [L|L].
    { destruct q as [|p|]; simpl Zdigits2; lia. }
    assert (Hqb : 2 ^ (d1 + s - d2 - 1) <= q).
    { assert (E : 2 ^ (d1 - 1) * 2 ^ s = 2 ^ (d1 + s - d2 - 1) * 2 ^ d2)
        by (rewrite <- !Z.pow_add_r by lia; f_equal; lia).
      assert (0 < 2 ^ (d1 + s - d2 - 1)) by (apply Z.pow_pos_nonneg; lia). nia. }
    destruct q as [|p|]; [| |lia].
    - assert (0 < 2 ^ (d1 + s - d2 - 1)) by (apply Z.pow_pos_nonneg; lia). lia.
    - simpl Zdigits2. pose proof (digits_lower p (d1 + s - d2 - 1) ltac:(lia) Hqb). lia. }
  unfold e', f, fexp64, s in *. lia.
Qed.

Lemma div_rounds x y : amount x -> amount y -> (0 < val y)%R -> rounds (val x / val y) (F64.div x y).
Proof.
  intros [Vx Nx] [Vy Ny] Hy.
  destruct y as [sy| | |[] my ey]; try discriminate Ny; [simpl in Hy; lra|].
  destruct x as [sx| | |[] mx ex]; try discriminate Nx; [|apply div_ratio].
  unfold F64.div, SFdiv. simpl (val (S754_zero _)). unfold Rdiv. rewrite Rmult_0_l.
  by apply (rounds_exact (S754_zero _)).
Qed.

(** ** Consequences *)

Lemma rounds_finite V r c : rounds V r -> amount c -> (V <= val c)%R -> amount r /\ F64.leb r c = true.
Proof. intros (Hv & _ & H) Hc HV. destruct (proj2 (H c Hc) HV) as [? ?]. done. Qed.

Lemma amount_zero s : amount (S754_zero s).
Proof. done. Qed.

(** Whole numbers up to [2^53] are representable. *)
Lemma whole_amount n : 0 <= n <= 2 ^ 53 -> exists c, amount c /\ val c = IZR n.
Proof.
  intros [H0 H1]. destruct n as [|p|]; [by exists (S754_zero false)| |lia].
  assert (Hmk : forall m e, canon m e -> e <= 971 -> (IZR (Zpos m) * bpow e = IZR (Zpos p))%R ->
    exists c, amount c /\ val c = IZR (Zpos p)).
  { intros m e Hc He Hv. exists (S754_finite false m e). split; [by split; [apply valid_finite|]|].
    simpl val. by rewrite Rmult_1_l. }
  destruct (Z.eq_dec (Zpos p) (2 ^ 53)) as [E|Hne].
  - rewrite E in *. apply (Hmk (2 ^ 52)%positive 1); [by apply canon_full|done|].
    rewrite bpow_1, <- mult_IZR. done.
  - pose proof (digits2_pos_bounds p) as [B1 _]. set (d := Zpos (digits2_pos p)) in *.
    assert (Hd : d <= 53).
    { destruct (Z.le_gt_cases d 53) as [|L]; [done|].
      assert (2 ^ 53 <= 2 ^ (d - 1)) by (apply Z.pow_le_mono_r; lia). lia. }
    destruct (53 - d) as [|k|k] eqn:Ek; [| |lia].
    + apply (Hmk p 0); [|done|change (bpow 0) with 1%R; lra]. unfold canon. fold d. unfold fexp64, emin. lia.
    + destruct (shifted p k) as [S1 S2]. apply (Hmk (Pos.iter xO p k) (- Zpos k)); [|lia|].
      * unfold canon. rewrite S2. fold d. unfold fexp64, emin. assert (0 < d) by done. lia.
      * rewrite S1, mult_IZR, <- bpow_Z, Rmult_assoc, <- bpow_add by lia.
        rewrite Z.add_opp_diag_r. change (bpow 0) with 1%R. lra.
Qed.

(** A result that is representable is exact. *)
Lemma rounds_to V r c : rounds V r -> amount c -> V = val c -> amount r /\ val r = V.
Proof.
  intros Hr Hc ->. destruct (rounds_finite _ _ _ Hr Hc ltac:(lra)) as [Ha Hle].
  split; [done|]. destruct Hr as (_ & _ & H). destruct (H c Hc) as [H1 _].
  apply leb_val in Hle; [|done..]. specialize (H1 ltac:(lra)). apply leb_val in H1; [lra|done..].
Qed.

Lemma rounds_whole n r : rounds (IZR n) r -> 0 <= n <= 2 ^ 53 -> amount r /\ val r = IZR n.
Proof. intros Hr Hn. destruct (whole_amount n Hn) as (c & Hc & Hv). by eapply rounds_to. Qed.

Lemma of_N_whole n : Z.of_N n <= 2 ^ 53 -> amount (F64.of_N n) /\ val (F64.of_N n) = IZR (Z.of_N n).
Proof. intros H. apply rounds_whole; [apply of_N_rounds|lia]. Qed.

(** Casts to an integer take the floor. *)
Lemma to_u64_floor x : amount x -> (IZR (Z.of_N (F64.to_u64 x)) <= val x)%R.
Proof.
  intros [Hv Hn]. destruct x as [| | |[] m e]; try discriminate Hn; simpl val; [simpl; lra|].
  rewrite Rmult_1_l. unfold F64.to_u64. destruct (Z.leb_spec 0 e) as [L|L].
  - rewrite bpow_Z, <- mult_IZR by done. apply IZR_le.
    assert (0 <= Zpos m * 2 ^ e) by (apply Z.mul_nonneg_nonneg; [done|by apply Z.pow_nonneg]).
    etrans; [apply N2Z.inj_le, N.le_min_r|]. by rewrite Z2N.id.
  - assert (Hp : 0 < 2 ^ (- e)) by (apply Z.pow_pos_nonneg; lia).
    apply Rle_trans with (IZR (Zpos m / 2 ^ (- e))).
    + apply IZR_le. etrans; [apply N2Z.inj_le, N.le_min_r|]. rewrite Z2N.id; [done|].
      apply Z.div_pos; lia.
    + pose proof (Z.mul_div_le (Zpos m) (2 ^ (- e)) Hp) as H. apply IZR_le in H.
      rewrite mult_IZR, <- bpow_Z in H by lia.
      assert (E : (bpow (- e) * bpow e = 1)%R).
      { rewrite <- bpow_add. replace (- e + e) with 0 by lia. done. }
      pose proof (bpow_pos e) as Hpe. apply (Rmult_le_compat_r (bpow e)) in H; [|lra].
      replace (bpow (- e) * IZR (Z.pos m / 2 ^ (- e)) * bpow e)%R
        with (IZR (Z.pos m / 2 ^ (- e)) * (bpow (- e) * bpow e))%R in H by lra.
      rewrite E in H. lra.
Qed.

Lemma to_u64_whole x n : amount x -> val x = IZR (Z.of_N n) -> (n < 2 ^ 64)%N -> F64.to_u64 x = n.
Proof.
  intros [Hv Hn] E Hlt. destruct x as [| | |[] m e]; try discriminate Hn; simpl val in E.
  - apply eq_IZR in E. simpl. lia.
  - rewrite Rmult_1_l in E. unfold F64.to_u64. destruct (Z.leb_spec 0 e) as [L|L].
    + rewrite bpow_Z, <- mult_IZR in E by done. apply eq_IZR in E. rewrite E. lia.
    + assert (Hp : 0 < 2 ^ (- e)) by (apply Z.pow_pos_nonneg; lia).
      assert (Em : Zpos m = Z.of_N n * 2 ^ (- e)).
      { apply eq_IZR. rewrite mult_IZR, <- bpow_Z, <- E, Rmult_assoc, <- bpow_add by lia.
        replace (e + - e) with 0 by lia. change (bpow 0) with 1%R. lra. }
      rewrite Em, Z.div_mul by lia. lia.
Qed.

(** Strict and weak comparison are each other's negation on amounts. *)
Lemma ltb_leb x y : amount x -> amount y -> F64.ltb x y = negb (F64.leb y x).
Proof.
  intros Hx Hy. pose proof (leb_val y x Hy Hx) as L. pose proof (leb_val x y Hx Hy) as L'.
  assert (H : F64.ltb x y = true <-> F64.leb x y = true /\ F64.leb y x = false).
  { destruct Hx as [_ Nx], Hy as [_ Ny].
    destruct x as [sx| | |[] mx ex]; try discriminate Nx; destruct y as [sy| | |[] my ey]; try discriminate Ny;
      unfold F64.ltb, F64.leb, SFltb, SFleb; cbn [SFcompare]; try (split; [done|intros [? ?]; done]); try done.
    change (Pos.compare_cont Eq mx my) with (Pos.compare mx my).
    change (Pos.compare_cont Eq my mx) with (Pos.compare my mx).
    rewrite (Z.compare_antisym ex ey), (Pos.compare_antisym mx my).
    destruct (ex ?= ey), (mx ?= my)%positive; simpl; split; intros; try done; by destruct H. }
  destruct (F64.leb y x) eqn:E; simpl.
  - destruct (F64.ltb x y) eqn:E'; [|done]. by destruct (proj1 H eq_refl).
  - apply H. split; [|done]. apply L'. destruct (Rle_dec (val x) (val y)) as [|C]; [done|].
    assert (Hc : (val y <= val x)%R) by lra. apply L in Hc. discriminate.
Qed.

(** A positive integer as a float: exact up to [2^53], and past it no less than that. *)
Lemma seconds s : (0 < s <= 2 ^ 64)%Z ->
  amount (F64.of_Z s) /\ ((s <= 2 ^ 53)%Z -> val (F64.of_Z s) = IZR s) /\
  ((2 ^ 53 < s)%Z -> (IZR (2 ^ 53) <= val (F64.of_Z s))%R).
Proof.
  intros Hs. destruct s as [|p|]; try lia. unfold F64.of_Z.
  pose proof (of_N_rounds (Npos p)) as Hr. simpl Z.of_N in Hr.
  assert (Hbig : amount (S754_finite false (2 ^ 52) 12)) by done.
  destruct (rounds_finite _ _ _ Hr Hbig) as [Ha _].
  { unfold val. rewrite Rmult_1_l, bpow_Z, <- mult_IZR by done. apply IZR_le. lia. }
  split; [done|]. split; intros H.
  - by destruct (of_N_whole (Npos p) H).
  - destruct (whole_amount (2 ^ 53)) as (c & Hc & Ec); [lia|]. rewrite <- Ec.
    apply leb_val; [done..|]. apply Hr; [done|]. rewrite Ec. apply IZR_le. lia.
Qed.
