(* ===== verification/TrustGate.v ===== *)
(** * The trust gate of the write doors

    [federation/replication/trust_scoring.rs] (the aggregate score of a key) and the
    [AdmissionGate] of [replication/admission.rs], which the blob, attestation, revocation
    and contribution doors ask first. A resolver of scores is a parameter. *)

From Stdlib Require Import ZArith NArith Lia ZifyBool Lra Reals Floats.SpecFloat.
From stdpp Require Import base list strings gmap.
From S2P Require Import Prelude RustStd Json F64Facts.

Open Scope string_scope.
Open Scope list_scope.
Open Scope persist_scope.

Inductive TrustScoringError := KeyNotFound (key_id : string) | ScoringBackend.

(** [HashSet::len] of the keys inserted. *)
Definition distinct_keys (l : list Attestation) : N :=
  N.of_nat (size (list_to_set (map attesting_key_id l) : gset string)).

(** [aggregate_trust_score]. *)
Definition aggregate_trust_score (scores : list Attestation) : F64.t :=
  match scores with
  | [] => F64.zero
  | _ =>
      let weight_sum :=
        fold_left (fun sum s => F64.add sum (default F64.one (weight s))) scores F64.zero in
      let scorer_count := F64.of_N (N.max (distinct_keys scores) 1) in
      let raw := F64.div weight_sum scorer_count in
      if F64.is_nan raw then F64.zero else F64.clamp raw F64.zero F64.one
  end.

(** [MemoryTrustScoring]. *)
Definition MemoryTrustScoring := gmap string F64.t.
Definition set_score (key_id : string) (score : F64.t) (m : MemoryTrustScoring) : MemoryTrustScoring :=
  <[key_id := F64.clamp score F64.zero F64.one]> m.
Definition memory_trust_score (m : MemoryTrustScoring) (key_id : string) : TrustScoringError + F64.t :=
  match m !! key_id with Some s => inr s | None => inl (KeyNotFound key_id) end.

Record AdmissionGate := mk_gate {
  scoring : string -> TrustScoringError + F64.t;
  threshold : F64.t;
}.
Record TrustGateRejection := mk_rejection {
  rej_key_id : string;
  rej_score : F64.t;
  rej_threshold : F64.t;
}.

(** [AdmissionGate::new]. *)
Definition new_gate (scoring : string -> TrustScoringError + F64.t) (threshold : F64.t) : AdmissionGate :=
  mk_gate scoring (F64.clamp threshold F64.zero F64.one).

(** [AdmissionGate::check]. *)
Definition check (g : AdmissionGate) (key_id : string) : TrustScoringError + (TrustGateRejection + F64.t) :=
  if F64.leb (threshold g) F64.zero then inr (inr F64.zero)
  else
  let judge score :=
    if F64.leb (threshold g) score then inr (inr score)
    else inr (inl (mk_rejection key_id score (threshold g))) in
  match scoring g key_id with
  | inr s => judge s
  | inl (KeyNotFound _) => judge F64.zero
  | inl other => inl other
  end.

Inductive DoorRefusal := DoorBackend | TrustBelowThreshold (r : TrustGateRejection).

(** [check_blob] and [check_federation], which differ in their error types. *)
Definition check_door (g : AdmissionGate) (key_id : string) : DoorRefusal + unit :=
  match check g key_id with
  | inl _ => inl DoorBackend
  | inr (inr _) => inr tt
  | inr (inl rej) => inl (TrustBelowThreshold rej)
  end.

(** ** Properties *)

Lemma clamp_unit x : F64.is_nan x = false ->
  F64.leb F64.zero (F64.clamp x F64.zero F64.one) = true /\ F64.leb (F64.clamp x F64.zero F64.one) F64.one = true.
Proof.
  intros Hn. unfold F64.clamp. destruct (F64.ltb x F64.zero) eqn:E0.
  - vm_compute. done.
  - destruct (F64.ltb F64.one x) eqn:E1; [by vm_compute|].
    destruct x as [s|[]| |[] m e]; try discriminate; [by destruct s|].
    split; [done|]. revert E1. change F64.one with (S754_finite false 4503599627370496 (-52)).
    generalize 4503599627370496%positive. intros b.
    unfold F64.ltb, F64.leb, SFltb, SFleb. cbn [SFcompare]. rewrite (Z.compare_antisym e).
    destruct (e ?= -52)%Z; simpl; try done.
    change (Pos.compare_cont Eq m b) with (Pos.compare m b). change (Pos.compare_cont Eq b m) with (Pos.compare b m).
    rewrite (Pos.compare_antisym m). by destruct (m ?= b)%positive.
Qed.

(** A score is a fraction: whatever weights the rows carry, infinities and not-a-number
    included, the aggregate lies in the unit interval, and no rows score nothing. *)
Theorem aggregate_in_unit (scores : list Attestation) :
  F64.leb F64.zero (aggregate_trust_score scores) = true /\
  F64.leb (aggregate_trust_score scores) F64.one = true.
Proof.
  unfold aggregate_trust_score. destruct scores as [|s l]; [by vm_compute|].
  destruct (F64.is_nan _) eqn:E; [by vm_compute|]. by apply clamp_unit.
Qed.

(** The gate fails closed. A door opens to a key exactly when the configured threshold is
    zero or less, or the resolver answers a score that reaches the clamped threshold, the
    score of a key it does not know being zero. A resolver that fails opens no door, and a
    threshold that is not a number admits nobody. *)
Theorem gate_fails_closed (scoring : string -> TrustScoringError + F64.t) (t : F64.t) (key_id : string) :
  let g := new_gate scoring t in
  (check_door g key_id = inr tt <->
     F64.leb (threshold g) F64.zero = true \/
     exists score, scoring key_id = inr score /\ F64.leb (threshold g) score = true) /\
  (F64.is_nan t = true -> check_door g key_id <> inr tt).
Proof.
  cbv zeta. unfold check_door, check, new_gate. cbn [TrustGate.scoring threshold].
  set (th := F64.clamp t F64.zero F64.one). destruct (F64.leb th F64.zero) eqn:E0.
  - split; [by split; [left|]|]. intros Hn. destruct t; try discriminate Hn. discriminate E0.
  - split; [|destruct (F64.is_nan t) eqn:En; [intros _|done]; destruct t; try discriminate En;
      destruct (scoring key_id) as [[]|s]; try done; by destruct s as [| | |[]]].
    destruct (scoring key_id) as [[k|]|s].
    + split; [done|]. intros [|(x & ? & _)]; done.
    + split; [done|]. intros [|(x & ? & _)]; done.
    + destruct (F64.leb th s) eqn:Es; split; try done; [intros _; right; eauto|].
      intros [|(x & [= <-] & Hx)]; congruence.
Qed.

(** Rows of one attester count each time, against one attester: ten rows of a tenth from one
    key score near full trust, where ten keys with a row each score near a tenth. *)
Definition tenth (by_ : string) : Attestation :=
  mk_Attestation "r" by_ "target" "scores" (Some (F64.div F64.one (F64.of_N 10))) 0%Z None Null
    "" "" None by_ 0%Z None "" [] None "federation" "federation" None [].
Definition ten_keys : list string := ["a"; "b"; "c"; "d"; "e"; "f"; "g"; "h"; "i"; "j"].

Example repeated_rows_add_up :
  F64.leb (F64.div (F64.of_N 9) (F64.of_N 10)) (aggregate_trust_score (map tenth (repeat "a" 10))) = true /\
  F64.leb (aggregate_trust_score (map tenth ten_keys)) (F64.div (F64.of_N 11) (F64.of_N 100)) = true.
Proof. vm_compute. done. Qed.

Example unknown_key_refused :
  check_door (new_gate (memory_trust_score (set_score "k" F64.one ∅)) (F64.div F64.one (F64.of_N 2))) "stranger"
  <> inr tt /\
  check_door (new_gate (memory_trust_score (set_score "k" F64.one ∅)) (F64.div F64.one (F64.of_N 2))) "k" = inr tt.
Proof. vm_compute. done. Qed.
