(* ===== verification/Canonical.v ===== *)
(** * Canonical bytes

    [src/src/verify/canonical.rs]: the Python-compatible writer ([write_value] and the
    functions it calls), the signing form that leaves out the signature members, and the
    version gate. The JCS writer is a third-party crate and a parameter of the gate. *)

From Stdlib Require Import ZArith NArith Lia Ascii String.
From stdpp Require Import base list strings sorting.
From S2P Require Import Prelude RustStd Utf8 Json.

Open Scope string_scope.
Open Scope list_scope.
Open Scope persist_scope.

(** ** Strings *)

Definition QUOTE : ascii := "034"%char.
Definition BACKSLASH : ascii := "\"%char.

(** [{:04x}] of a number below 2^16. *)
Definition hex_digit (n : N) : ascii := ascii_of_N (if (n <? 10)%N then 48 + n else 87 + n).
Definition hex4 (n : N) : string :=
  String (hex_digit (n / 4096 mod 16)) (String (hex_digit (n / 256 mod 16))
    (String (hex_digit (n / 16 mod 16)) (String (hex_digit (n mod 16)) ""))).
Definition u_escape (n : N) : string := String BACKSLASH (String "u" (hex4 n)).
Definition escape (c : ascii) : string := String BACKSLASH (String c "").

(** One character of [write_string]. *)
Definition write_char (c : N) : string :=
  if (c =? 34)%N then escape QUOTE
  else if (c =? 92)%N then escape BACKSLASH
  else if (c =? 8)%N then escape "b"
  else if (c =? 12)%N then escape "f"
  else if (c =? 10)%N then escape "n"
  else if (c =? 13)%N then escape "r"
  else if (c =? 9)%N then escape "t"
  else if (c <? 32)%N then u_escape c
  else if (c <? 127)%N then String (ascii_of_N c) ""
  else if (c <=? 65535)%N then u_escape c
  else
    let cp := (c - 65536)%N in
    u_escape (55296 + N.shiftr cp 10) +:+ u_escape (56320 + N.land cp 1023).

Definition write_chars (cs : list N) : string :=
  fold_right (fun c acc => write_char c +:+ acc) (String QUOTE "") cs.

Definition write_string (s : string) : string := String QUOTE (write_chars (chars s)).

(** ** Values *)

(** With [arbitrary_precision] a number displays as its token. *)
Definition write_number (n : number) : string := num_token n.

(** [write_object] over members already written: the keys kept, sorted by their bytes. *)
Definition write_members (skip : list string) (m : list (string * string)) : string :=
  let keys := sort_strings (List.filter (fun k => negb (existsb (fun s => s =s k) skip)) (map fst m)) in
  "{" +:+ join "," (map (fun k => write_string k +:+ ":" +:+ default "" (assoc k m)) keys) +:+ "}".

Fixpoint write_value (v : Value) : string :=
  match v with
  | Null => "null"
  | Bool true => "true"
  | Bool false => "false"
  | Number n => write_number n
  | Str s => write_string s
  | Array items => "[" +:+ join "," (map write_value items) +:+ "]"
  | Object m => write_members [] (map (fun kv => match kv with (k, x) => (k, write_value x) end) m)
  end.

Definition write_object (m : list (string * Value)) (skip : list string) : string :=
  write_members skip (map (fun kv => match kv with (k, x) => (k, write_value x) end) m).

(** ** The signing form *)

Definition SIGNATURE_MEMBERS : list string := ["signature"; "signature_pqc"].

Definition canonicalize_envelope_for_signing_v1_pinned (envelope : Value) : string :=
  match as_object envelope with
  | Some m => write_object m SIGNATURE_MEMBERS
  | None => write_value envelope
  end.

Inductive CanonVersion := V1Python | V2Jcs.

Definition produce_canon_version : CanonVersion := V2Jcs.

Section Gate.
(** The JCS crate, over a value and over the borrowed view of an object's members. *)
Context {E : Type} (jcs : Value -> E + string).

Definition canonicalizer_for (v : CanonVersion) (x : Value) : E + string :=
  match v with V1Python => inr (write_value x) | V2Jcs => jcs x end.

Definition ceg_produce_canonicalize (x : Value) : E + string := canonicalizer_for produce_canon_version x.

Definition signing_view (m : list (string * Value)) : list (string * Value) :=
  List.filter (fun kv => negb (existsb (fun s => s =s fst kv) SIGNATURE_MEMBERS)) m.

Definition canonicalize_envelope_for_signing (envelope : Value) : E + string :=
  match as_object envelope with
  | None => ceg_produce_canonicalize envelope
  | Some m =>
      match produce_canon_version with
      | V2Jcs => jcs (Object (signing_view m))
      | V1Python => inr (write_object m SIGNATURE_MEMBERS)
      end
  end.
End Gate.

(** ** Reading strings back *)

Lemma hex_digit_inj m n : (m < 16)%N -> (n < 16)%N -> hex_digit m = hex_digit n -> m = n.
Proof.
  unfold hex_digit. intros Hm Hn E. apply (f_equal N_of_ascii) in E.
  rewrite !N_ascii_embedding in E;
    destruct (N.ltb_spec m 10), (N.ltb_spec n 10); lia.
Qed.

Lemma hex4_length n : String.length (hex4 n) = 4.
Proof. done. Qed.

Lemma hex4_inj m n : (m < 65536)%N -> (n < 65536)%N -> hex4 m = hex4 n -> m = n.
Proof.
  intros Hm Hn E. injection E as E1 E2 E3 E4.
  apply hex_digit_inj in E1, E2, E3, E4; try (apply N.mod_lt; done).
  assert (Hsplit : forall x, (x < 65536)%N ->
    x = ((x / 4096 mod 16) * 4096 + (x / 256 mod 16) * 256 + (x / 16 mod 16) * 16 + x mod 16)%N).
  { clear. intros x Hx. rewrite (N.mod_small (x / 4096)) by (apply N.Div0.div_lt_upper_bound; lia).
    pose proof (N.div_mod x 16 ltac:(done)). pose proof (N.div_mod (x / 16) 16 ltac:(done)).
    pose proof (N.div_mod (x / 256) 16 ltac:(done)).
    rewrite N.Div0.div_div in *. change (16 * 16)%N with 256%N in *. change (256 * 16)%N with 4096%N in *. lia. }
  pose proof (Hsplit m Hm) as Em. pose proof (Hsplit n Hn) as En. rewrite E1, E2, E3, E4 in Em. lia.
Qed.

(** The characters with a letter escape. *)
Definition short_escapes : list (N * ascii) :=
  [(34%N, QUOTE); (92%N, BACKSLASH); (8%N, "b"%char); (12%N, "f"%char);
   (10%N, "n"%char); (13%N, "r"%char); (9%N, "t"%char)].

(** What a character's text starts with, by the class of the character. *)
Inductive char_text : N -> string -> Prop :=
| ct_plain c : (32 <= c < 127)%N -> c <> 34%N -> c <> 92%N -> char_text c (String (ascii_of_N c) "")
| ct_short c e : In (c, e) short_escapes ->
    char_text c (escape e)
| ct_bmp c : (c < 65536)%N -> (c < 55296 \/ 57344 <= c)%N -> char_text c (u_escape c)
| ct_pair c q m : (q < 1024)%N -> (m < 1024)%N -> c = (65536 + q * 1024 + m)%N ->
    char_text c (u_escape (55296 + q) +:+ u_escape (56320 + m)).

Lemma write_char_text c : scalar c -> char_text c (write_char c).
Proof.
  intros Hs. unfold write_char, scalar in *.
  destruct (N.eqb_spec c 34) as [->|]; [apply ct_short; unfold short_escapes; simpl; tauto|].
  destruct (N.eqb_spec c 92) as [->|]; [apply ct_short; unfold short_escapes; simpl; tauto|].
  destruct (N.eqb_spec c 8) as [->|]; [apply ct_short; unfold short_escapes; simpl; tauto|].
  destruct (N.eqb_spec c 12) as [->|]; [apply ct_short; unfold short_escapes; simpl; tauto|].
  destruct (N.eqb_spec c 10) as [->|]; [apply ct_short; unfold short_escapes; simpl; tauto|].
  destruct (N.eqb_spec c 13) as [->|]; [apply ct_short; unfold short_escapes; simpl; tauto|].
  destruct (N.eqb_spec c 9) as [->|]; [apply ct_short; unfold short_escapes; simpl; tauto|].
  destruct (N.ltb_spec c 32); [apply ct_bmp; lia|].
  destruct (N.ltb_spec c 127); [apply ct_plain; lia|].
  destruct (N.leb_spec c 65535); [apply ct_bmp; lia|].
  cbn zeta. rewrite N.shiftr_div_pow2. change (2 ^ 10)%N with 1024%N.
  change 1023%N with (N.ones 10). rewrite N.land_ones. change (2 ^ 10)%N with 1024%N.
  apply ct_pair; [apply N.Div0.div_lt_upper_bound; lia|by apply N.mod_lt|].
  pose proof (N.div_mod (c - 65536) 1024 ltac:(done)) as Hdm.
  revert Hdm. generalize ((c - 65536) / 1024)%N ((c - 65536) mod 1024)%N. lia.
Qed.

(** A short escape's letter is no [u]. *)
Lemma short_letter c e : In (c, e) short_escapes -> e <> "u"%char.
Proof.
  intros Hin Hu. assert (Hno : existsb (fun x => Ascii.eqb (snd x) "u") short_escapes = true).
  { apply existsb_exists. exists (c, e). split; [done|]. by rewrite Hu. }
  discriminate Hno.
Qed.

Lemma short_inj c c' e :
  In (c, e) short_escapes ->
  In (c', e) short_escapes -> c = c'.
Proof.
  assert (Hnd : NoDup (map snd short_escapes)) by (apply (bool_decide_unpack _); vm_compute; exact I).
  intros H H'. apply list_elem_of_In, list_elem_of_lookup in H as [i Hi].
  apply list_elem_of_In, list_elem_of_lookup in H' as [j Hj].
  assert (i = j) as ->; [|congruence].
  eapply NoDup_lookup; [exact Hnd|..]; rewrite list_lookup_fmap; [by rewrite Hi|by rewrite Hj].
Qed.

Lemma plain_byte c : (32 <= c < 127)%N -> c <> 34%N -> c <> 92%N ->
  ascii_of_N c <> BACKSLASH /\ ascii_of_N c <> QUOTE.
Proof.
  intros Hc H1 H2. split; intros E; apply (f_equal N_of_ascii) in E;
    rewrite N_ascii_embedding in E by lia; vm_compute in E; lia.
Qed.

(** The text of a character never starts with the closing quote. *)
Lemma char_text_head c t : char_text c t -> exists a s, t = String a s /\ a <> QUOTE.
Proof.
  destruct 1 as [c H1 H2 H3|c e He|c H1 H2|c q m H1 H2 H3].
  - eexists _, _. split; [done|]. by apply plain_byte.
  - by eexists _, _.
  - by eexists _, _.
  - eexists _, _. unfold u_escape. rewrite app_cons. by split.
Qed.

Lemma u_escape_app n r n' r' : (n < 65536)%N -> (n' < 65536)%N ->
  u_escape n +:+ r = u_escape n' +:+ r' -> n = n' /\ r = r'.
Proof.
  intros Hn Hn' E. unfold u_escape, hex4 in E. rewrite !app_cons, !app_nil_l' in E.
  injection E as E1 E2 E3 E4 Er. split; [|done]. apply hex4_inj; [done..|]. unfold hex4. congruence.
Qed.

(** A character is read back from its text, whatever follows. *)
Lemma char_text_inj c c' t t' r r' :
  char_text c t -> char_text c' t' -> t +:+ r = t' +:+ r' -> c = c' /\ r = r'.
Proof.
  intros H H' E.
  destruct H as [c H1 H2 H3|c e He|c H1 H2|c q m H1 H2 H3], H' as [c' H1' H2' H3'|c' e' He'|c' H1' H2'|c' q' m' H1' H2' H3'];
    rewrite ?string_app_assoc in E; unfold escape in E; rewrite ?app_cons, ?app_nil_l' in E.
  - injection E as E ->. split; [|done]. apply (f_equal N_of_ascii) in E.
    rewrite !N_ascii_embedding in E by lia. done.
  - injection E as E _. by apply plain_byte in E.
  - unfold u_escape in E. rewrite app_cons in E. injection E as E _. by apply plain_byte in E.
  - unfold u_escape in E. rewrite app_cons in E. injection E as E _. by apply plain_byte in E.
  - injection E as E _. symmetry in E. by apply plain_byte in E.
  - injection E as -> ->. split; [|done]. by eapply short_inj.
  - unfold u_escape in E. rewrite !app_cons in E. injection E as E _. by apply short_letter in He.
  - unfold u_escape in E. rewrite !app_cons in E. injection E as E _. by apply short_letter in He.
  - unfold u_escape in E. rewrite app_cons in E. injection E as E _. symmetry in E. by apply plain_byte in E.
  - unfold u_escape in E. rewrite !app_cons in E. injection E as E _. by apply short_letter in He'.
  - by apply u_escape_app in E.
  - apply u_escape_app in E as [E _]; [exfalso|..]; lia.
  - unfold u_escape in E. rewrite app_cons in E. injection E as E _. symmetry in E. by apply plain_byte in E.
  - unfold u_escape in E. rewrite !app_cons in E. injection E as E _. by apply short_letter in He'.
  - apply u_escape_app in E as [E _]; [exfalso|..]; lia.
  - apply u_escape_app in E as [E1 E]; [|lia..]. apply u_escape_app in E as [E2 E]; [|lia..].
    split; [lia|done].
Qed.

Lemma write_chars_inj cs : forall cs' r r', Forall scalar cs -> Forall scalar cs' ->
  write_chars cs +:+ r = write_chars cs' +:+ r' -> cs = cs' /\ r = r'.
Proof.
  induction cs as [|c cs IH]; intros [|c' cs'] r r' Hs Hs' E; cbn [write_chars fold_right] in E.
  - rewrite !app_cons in E. by injection E.
  - apply Forall_cons in Hs' as [Hc' _]. destruct (char_text_head _ _ (write_char_text c' Hc')) as (a & s & Ea & Hq).
    rewrite Ea, !app_cons in E. injection E as E _. congruence.
  - apply Forall_cons in Hs as [Hc _]. destruct (char_text_head _ _ (write_char_text c Hc)) as (a & s & Ea & Hq).
    rewrite Ea, !app_cons in E. injection E as E _. congruence.
  - apply Forall_cons in Hs as [Hc Hs]. apply Forall_cons in Hs' as [Hc' Hs'].
    rewrite !string_app_assoc in E.
    destruct (char_text_inj c c' _ _ _ _ (write_char_text c Hc) (write_char_text c' Hc') E) as [-> E'].
    apply IH in E' as [-> ->]; auto.
Qed.

Lemma write_string_inj s s' r r' : utf8_valid s = true -> utf8_valid s' = true ->
  write_string s +:+ r = write_string s' +:+ r' -> s = s' /\ r = r'.
Proof.
  intros Hs Hs' E. unfold write_string in E. rewrite !app_cons in E. injection E as E.
  apply write_chars_inj in E as [Ec ->]; [|by apply chars_scalar..]. split; [|done]. by apply chars_inj.
Qed.

(** ** Values up to the order of members *)

(** The value the bytes are of: members sorted by key, numbers as their tokens. *)
Fixpoint canon (v : Value) : Value :=
  match v with
  | Number n => Number (mk_number None None (num_token n))
  | Array l => Array (map canon l)
  | Object m =>
      Object (sort_by (fun a b => fst a <s fst b) (map (fun kv => match kv with (k, x) => (k, canon x) end) m))
  | v => v
  end.

Definition number_char (a : ascii) : bool :=
  byte_in 48 57 a || existsb (Ascii.eqb a) ["+"%char; "-"%char; "."%char; "e"%char; "E"%char].

Fixpoint all_chars (f : ascii -> bool) (s : string) : bool :=
  match s with EmptyString => true | String a s' => f a && all_chars f s' end.

(** A number token: a digit or a minus, then characters of numbers. *)
Definition token_ok (t : string) : bool :=
  match t with
  | String a t' => (byte_in 48 57 a || Ascii.eqb a "-") && all_chars number_char t'
  | EmptyString => false
  end.

(** What a [serde_json::Value] always satisfies: its strings are UTF-8, its maps have
    distinct keys, its numbers were parsed or printed as JSON numbers. *)
Fixpoint wfb (v : Value) : bool :=
  match v with
  | Number n => token_ok (num_token n)
  | Str s => utf8_valid s
  | Array l => forallb wfb l
  | Object m =>
      bool_decide (NoDup (map fst m))
      && forallb (fun kv => match kv with (k, x) => utf8_valid k && wfb x end) m
  | _ => true
  end.

Definition wf (v : Value) : Prop := wfb v = true.

Section ValueInd.
Context (P : Value -> Prop) (HNull : P Null) (HBool : forall b, P (Bool b)) (HNumber : forall n, P (Number n))
  (HStr : forall s, P (Str s)) (HArray : forall l, Forall P l -> P (Array l))
  (HObject : forall m, Forall (fun kv => P (snd kv)) m -> P (Object m)).

Fixpoint Value_rec' (v : Value) : P v :=
  match v with
  | Null => HNull
  | Bool b => HBool b
  | Number n => HNumber n
  | Str s => HStr s
  | Array l =>
      HArray l ((fix go (l : list Value) : Forall P l :=
                   match l with [] => List.Forall_nil _ | x :: l' => List.Forall_cons _ x l' (Value_rec' x) (go l') end) l)
  | Object m =>
      HObject m ((fix go (m : list (string * Value)) : Forall (fun kv => P (snd kv)) m :=
                    match m with
                    | [] => List.Forall_nil _
                    | kv :: m' => List.Forall_cons _ kv m' (Value_rec' (snd kv)) (go m')
                    end) m)
  end.
End ValueInd.

Lemma wf_array l : wf (Array l) <-> Forall wf l.
Proof. unfold wf. cbn [wfb]. rewrite forallb_forall, Forall_forall. by setoid_rewrite list_elem_of_In. Qed.

Lemma wf_object m : wf (Object m) <-> NoDup (map fst m) /\ Forall (fun kv => utf8_valid (fst kv) = true /\ wf (snd kv)) m.
Proof.
  unfold wf. cbn [wfb]. rewrite andb_true_iff, bool_decide_eq_true, forallb_forall, Forall_forall. f_equiv.
  setoid_rewrite list_elem_of_In. split; intros H [k x] Hin; specialize (H (k, x) Hin); simpl in *.
  - by apply andb_prop in H.
  - by apply andb_true_intro.
Qed.

(** ** Sorted members *)

Lemma insert_sorted_map {A B} (f : A -> B) (ltA : A -> A -> bool) (ltB : B -> B -> bool) x l :
  (forall a b, ltB (f a) (f b) = ltA a b) ->
  map f (insert_sorted ltA x l) = insert_sorted ltB (f x) (map f l).
Proof. intros H. induction l as [|y l IH]; simpl; [done|]. rewrite H. destruct (ltA x y); simpl; [done|]. by rewrite IH. Qed.

Lemma sort_by_map {A B} (f : A -> B) (ltA : A -> A -> bool) (ltB : B -> B -> bool) l :
  (forall a b, ltB (f a) (f b) = ltA a b) -> map f (sort_by ltA l) = sort_by ltB (map f l).
Proof.
  intros H. unfold sort_by. change (@nil B) with (map f (@nil A)). generalize (@nil A).
  induction l as [|x l IH]; intros acc; simpl; [done|]. by rewrite IH, (insert_sorted_map f ltA ltB).
Qed.

Definition by_member {A} (a b : string * A) : bool := fst a <s fst b.

Lemma assoc_In {A} (k : string) (x : A) m : NoDup (map fst m) -> In (k, x) m -> assoc k m = Some x.
Proof.
  induction m as [|[k' x'] m IH]; simpl; [done|]. intros Hnd Hin. apply NoDup_cons in Hnd as [Hk Hnd].
  destruct Hin as [[= -> ->]|Hin]; [by rewrite String.eqb_refl|].
  destruct (String.eqb_spec k k') as [->|]; [|by apply IH].
  exfalso. apply Hk, list_elem_of_In, in_map_iff. by exists (k', x).
Qed.

Definition member_text (kv : string * Value) : string :=
  write_string (fst kv) +:+ ":" +:+ write_value (snd kv).

(** The writer looks every sorted key up; over distinct keys that is the members sorted. *)
Lemma write_members_sorted (m : list (string * string)) :
  NoDup (map fst m) ->
  write_members [] m =
  "{" +:+ join "," (map (fun kv => write_string (fst kv) +:+ ":" +:+ snd kv) (sort_by by_member m)) +:+ "}".
Proof.
  intros Hnd. unfold write_members. do 3 f_equal.
  assert (Hk : List.filter (fun k => negb (existsb (fun s => s =s k) [])) (map fst m) = map fst m).
  { clear. induction (map fst m) as [|x l IH]; simpl; [done|]. simpl in IH. by rewrite IH. }
  rewrite Hk. unfold sort_strings.
  rewrite <- (sort_by_map fst by_member (fun a b => a <s b) m) by done.
  rewrite map_map. apply map_ext_in. intros [k x] Hin. rewrite sort_by_In in Hin. simpl.
  by rewrite (assoc_In k x).
Qed.

Lemma write_object_text m : NoDup (map fst m) ->
  write_value (Object m) = "{" +:+ join "," (map member_text (sort_by by_member m)) +:+ "}".
Proof.
  intros Hnd. cbn [write_value]. rewrite write_members_sorted.
  - do 3 f_equal. rewrite <- (sort_by_map (fun kv => match kv with (k, x) => (k, write_value x) end) by_member by_member m)
      by (by intros [? ?] [? ?]).
    rewrite map_map. apply map_ext. by intros [k x].
  - replace (map fst _) with (map fst m); [done|]. rewrite map_map. apply map_ext. by intros [k x].
Qed.

Lemma canon_object m : canon (Object m) = Object (map (fun kv => (fst kv, canon (snd kv))) (sort_by by_member m)).
Proof.
  cbn [canon]. f_equal. change (fun a b : string * Value => fst a <s fst b) with (@by_member Value).
  rewrite (sort_by_map (fun kv => (fst kv, canon (snd kv))) by_member by_member m) by done.
  f_equal. apply map_ext. by intros [k x].
Qed.

(** ** Reading values back *)

(** What may follow a value: nothing, or the end of an item or of its container. *)
Definition delim (r : string) : bool :=
  match r with EmptyString => true | String a _ => existsb (Ascii.eqb a) [","%char; "]"%char; "}"%char] end.

Definition kind (v : Value) : N :=
  match v with Null => 0 | Bool true => 1 | Bool false => 2 | Number _ => 3 | Str _ => 4 | Array _ => 5 | Object _ => 6 end%N.

Definition kind_of_char (a : ascii) : N :=
  if Ascii.eqb a "n" then 0 else if Ascii.eqb a "t" then 1 else if Ascii.eqb a "f" then 2
  else if Ascii.eqb a QUOTE then 4 else if Ascii.eqb a "[" then 5 else if Ascii.eqb a "{" then 6
  else if byte_in 48 57 a || Ascii.eqb a "-" then 3 else 7%N.

Lemma number_head a : (byte_in 48 57 a || Ascii.eqb a "-") = true -> kind_of_char a = 3%N /\ number_char a = true.
Proof. destruct a as [[] [] [] [] [] [] [] []]; vm_compute; intuition congruence. Qed.

Lemma number_not_delim a s : number_char a = true -> delim (String a s) = false.
Proof. destruct a as [[] [] [] [] [] [] [] []]; vm_compute; intuition congruence. Qed.

(** A value's first byte names its kind. *)
Lemma write_head v : wf v -> exists a s, write_value v = String a s /\ kind_of_char a = kind v.
Proof.
  destruct v as [|[]|n|s|l|m]; intros Hwf; try (by eexists _, _).
  unfold wf in Hwf. cbn [wfb write_value] in *. unfold write_number, token_ok in *. destruct (num_token n) as [|a t]; [done|].
  apply andb_prop in Hwf as [Ha _]. eexists _, _. split; [done|]. by apply number_head in Ha as [-> _].
Qed.

Lemma token_chars t : token_ok t = true -> all_chars number_char t = true.
Proof.
  destruct t as [|a t]; [done|]. simpl. intros H. apply andb_prop in H as [Ha Ht].
  apply number_head in Ha as [_ ->]. done.
Qed.

Lemma token_inj t : forall t' r r',
  all_chars number_char t = true -> all_chars number_char t' = true -> delim r = true -> delim r' = true ->
  t +:+ r = t' +:+ r' -> t = t' /\ r = r'.
Proof.
  induction t as [|a t IH]; intros [|a' t'] r r' Ht Ht' Hr Hr' E; rewrite ?app_cons, ?app_nil_l' in E; [done|..].
  - subst r. apply andb_prop in Ht' as [Ha _]. by rewrite number_not_delim in Hr.
  - subst r'. apply andb_prop in Ht as [Ha _]. by rewrite number_not_delim in Hr'.
  - injection E as <- E. apply andb_prop in Ht as [_ Ht], Ht' as [_ Ht'].
    destruct (IH t' r r' Ht Ht' Hr Hr' E) as [-> ->]. done.
Qed.

(** Items between separators, closed by [e]. *)
Section Items.
Context {X Y : Type} (text : X -> string) (f : X -> Y) (ok : X -> Prop) (e : ascii).
Hypothesis e_delim : existsb (Ascii.eqb e) ["]"%char; "}"%char] = true.
Hypothesis head : forall x, ok x -> exists a s, text x = String a s /\ a <> e.

Definition reads (x : X) : Prop := forall x' r r', ok x' -> delim r = true -> delim r' = true ->
  text x +:+ r = text x' +:+ r' -> f x = f x' /\ r = r'.

Lemma close_delim r : delim (String e r) = true.
Proof.
  unfold delim. apply existsb_exists in e_delim as (a & Ha & Ee). apply existsb_exists. exists a.
  split; [simpl in *; tauto|done].
Qed.

Lemma comma_not_close r r' : String "," r <> String e r'.
Proof. intros [= <- _]. discriminate. Qed.

Lemma items_inj l : forall l' r r', Forall reads l -> Forall ok l -> Forall ok l' ->
  join "," (map text l) +:+ String e r = join "," (map text l') +:+ String e r' ->
  map f l = map f l' /\ r = r'.
Proof.
  assert (Hempty : forall x l r r', ok x ->
            join "," (map text (x :: l)) +:+ String e r <> String e r').
  { intros x l0 r r' Hx. destruct (head x Hx) as (a & s & Ea & Hne).
    destruct l0; cbn [map join]; rewrite Ea, !app_cons; by intros [= ? _]. }
  induction l as [|x l IH]; intros [|x' l'] r r' Hr Hok Hok' E.
  - rewrite !app_nil_l' in E. by injection E.
  - exfalso. symmetry in E. apply Forall_cons in Hok' as [Hx' _]. by apply Hempty in E.
  - exfalso. apply Forall_cons in Hok as [Hx _]. by apply Hempty in E.
  - apply Forall_cons in Hr as [Hx Hr], Hok as [_ Hok], Hok' as [Hx' Hok'].
    destruct l as [|y l], l' as [|y' l']; cbn [map join] in *.
    + apply Hx in E as [-> E]; [|done|apply close_delim..]. by injection E as ->.
    + rewrite !string_app_assoc in E. apply Hx in E as [_ E]; [|done|apply close_delim|done].
      symmetry in E. by apply comma_not_close in E.
    + rewrite !string_app_assoc in E. apply Hx in E as [_ E]; [|done|done|apply close_delim].
      by apply comma_not_close in E.
    + rewrite !string_app_assoc in E. apply Hx in E as [-> E]; [|done..].
      rewrite !app_cons, !app_nil_l' in E. injection E as E.
      destruct (IH (y' :: l') r r' Hr Hok Hok' E) as [Hm ->]. split; [|done]. cbn [map] in Hm. by rewrite Hm.
Qed.
End Items.

Lemma value_head_not e v : wf v -> kind_of_char e = 7%N -> exists a s, write_value v = String a s /\ a <> e.
Proof.
  intros Hwf He. destruct (write_head v Hwf) as (a & s & Ea & Hk). exists a, s. split; [done|].
  intros ->. rewrite He in Hk. by destruct v as [|[]| | | |].
Qed.

Definition value_reads : Value -> Prop := reads write_value canon wf.

Lemma member_reads kv : utf8_valid (fst kv) = true -> value_reads (snd kv) ->
  reads member_text (fun kv => (fst kv, canon (snd kv)))
    (fun kv => utf8_valid (fst kv) = true /\ wf (snd kv)) kv.
Proof.
  intros Hk Hv kv' r r' [Hk' Hwf'] Hr Hr' E. unfold member_text in E. rewrite !string_app_assoc in E.
  apply write_string_inj in E as [Ek E]; [|done..]. rewrite !app_cons, !app_nil_l' in E.
  injection E as E. destruct (Hv _ r r' Hwf' Hr Hr' E) as [-> ->]. by rewrite Ek.
Qed.

Lemma sorted_members m : wf (Object m) ->
  Forall (fun kv => utf8_valid (fst kv) = true /\ wf (snd kv)) (sort_by by_member m).
Proof.
  intros Hwf. apply wf_object in Hwf as [_ Hm]. rewrite Forall_forall in Hm |- *.
  intros kv Hin. apply Hm. rewrite list_elem_of_In, sort_by_In in Hin. by apply list_elem_of_In.
Qed.

Lemma same_kind v v' r r' : wf v -> wf v' -> write_value v +:+ r = write_value v' +:+ r' -> kind v = kind v'.
Proof.
  intros Hwf Hwf' E. destruct (write_head v Hwf) as (a & s & Ea & Hk).
  destruct (write_head v' Hwf') as (a' & s' & Ea' & Hk'). rewrite Ea, Ea', !app_cons in E.
  injection E as E _. congruence.
Qed.

(** Every value is read back from its bytes, up to the order of members. *)
Lemma write_value_reads v : wf v -> value_reads v.
Proof.
  induction v as [|b|n|s|l IH|m IH] using Value_rec'; intros Hwf v' r r' Hwf' Hr Hr' E.
  2: destruct b.
  all: pose proof (same_kind _ _ _ _ Hwf Hwf' E) as Hk; destruct v' as [|[]|n'|s'|l'|m']; try discriminate Hk.
  1-3: cbn [write_value] in E; rewrite !app_cons, !app_nil_l' in E; injection E as E; by subst.
  - unfold wf in *. cbn [wfb write_value] in *. unfold write_number in E.
    apply token_inj in E as [Et ->]; [|by apply token_chars..|done|done]. cbn [canon]. by rewrite Et.
  - unfold wf in *. cbn [wfb write_value] in *. apply write_string_inj in E as [-> ->]; done.
  - apply wf_array in Hwf, Hwf'. cbn [write_value] in E. rewrite !app_cons, !app_nil_l', !string_app_assoc in E.
    injection E as E. change ("]" +:+ r) with (String "]" r) in E. change ("]" +:+ r') with (String "]" r') in E.
    apply (items_inj write_value canon wf "]") in E as [Hm ->]; try done.
    + cbn [canon]. by rewrite Hm.
    + intros x Hx. by apply value_head_not.
    + rewrite Forall_forall in IH, Hwf |- *. intros x Hx. by apply IH; [|apply Hwf].
  - pose proof (sorted_members m Hwf) as Hs. pose proof (sorted_members m' Hwf') as Hs'.
    apply wf_object in Hwf as [Hnd Hm], Hwf' as [Hnd' _].
    rewrite (write_object_text m Hnd), (write_object_text m' Hnd'), !app_cons, !app_nil_l', !string_app_assoc in E.
    injection E as E. change ("}" +:+ r) with (String "}" r) in E. change ("}" +:+ r') with (String "}" r') in E.
    apply (items_inj member_text (fun kv => (fst kv, canon (snd kv)))
             (fun kv => utf8_valid (fst kv) = true /\ wf (snd kv)) "}") in E as [Hc ->]; try done.
    + by rewrite !canon_object, Hc.
    + intros [k x] _. eexists _, _. unfold member_text, write_string. rewrite app_cons. by split.
    + rewrite Forall_forall in IH, Hm |- *. intros kv Hin. rewrite list_elem_of_In, sort_by_In, <- list_elem_of_In in Hin.
      apply member_reads; [by apply Hm|]. apply IH; [done|]. by apply Hm.
Qed.

(** ** The bytes depend on the value only *)

Lemma members_inj (m : list (string * Value)) a b : NoDup (map fst m) -> In a m -> In b m -> fst a = fst b -> a = b.
Proof.
  destruct a as [k x], b as [k' y]. simpl. intros Hnd Ha Hb <-.
  apply (assoc_In k x m Hnd) in Ha. apply (assoc_In k y m Hnd) in Hb. congruence.
Qed.

Lemma sort_members_perm (m m' : list (string * Value)) :
  NoDup (map fst m) -> Permutation m m' -> sort_by by_member m = sort_by by_member m'.
Proof.
  intros Hnd Hp. apply sort_by_perm_eq; [..|done]; unfold by_member.
  - intros a b. apply string_ltb_asym.
  - intros a b c. apply string_ltb_cotrans.
  - intros a b Ha Hb Hab Hba. eapply members_inj; [done..|]. by apply string_ltb_total.
Qed.

Lemma sorted_keys m : NoDup (map fst m) ->
  NoDup (map fst (map (fun kv => (fst kv, canon (snd kv))) (sort_by by_member m))).
Proof.
  intros Hnd. rewrite map_map. simpl. eapply (NoDup_Permutation_proper (map fst m)); [|done].
  symmetry. apply Permutation_map, sort_by_perm.
Qed.

Lemma write_canon v : wf v -> write_value (canon v) = write_value v.
Proof.
  induction v as [|b|n|s|l IH|m IH] using Value_rec'; intros Hwf; try done.
  - apply wf_array in Hwf. cbn [canon write_value]. do 3 f_equal. rewrite map_map. apply map_ext_in.
    rewrite Forall_forall in IH, Hwf. intros x Hx. apply list_elem_of_In in Hx. by apply IH; [|apply Hwf].
  - apply wf_object in Hwf as [Hnd Hm]. rewrite canon_object.
    rewrite write_object_text, (write_object_text m) by (done || by apply sorted_keys). do 3 f_equal.
    rewrite <- (sort_by_map (fun kv => (fst kv, canon (snd kv))) by_member by_member) by done.
    rewrite (sort_members_perm (sort_by by_member m) m), map_map.
    + apply map_ext_in. intros [k x] Hin. rewrite sort_by_In in Hin. unfold member_text. simpl. do 2 f_equal.
      apply list_elem_of_In in Hin. rewrite Forall_forall in IH, Hm.
      apply (IH (k, x) Hin). by apply (Hm (k, x)).
    + eapply (NoDup_Permutation_proper (map fst m)); [|done]. symmetry. apply Permutation_map, sort_by_perm.
    + apply sort_by_perm.
Qed.

Lemma write_value_iff v v' : wf v -> wf v' -> write_value v = write_value v' <-> canon v = canon v'.
Proof.
  intros Hwf Hwf'. split; intros E.
  - apply (write_value_reads v Hwf v' "" "" Hwf'); [done..|]. by rewrite !string_app_nil_r.
  - by rewrite <- (write_canon v Hwf), <- (write_canon v' Hwf'), E.
Qed.

(** ** The signing form *)

Definition keep (skip : list string) (k : string) : bool := negb (existsb (fun s => s =s k) skip).

Lemma assoc_filter {A} skip k (m : list (string * A)) :
  keep skip k = true -> assoc k (List.filter (fun kv => keep skip (fst kv)) m) = assoc k m.
Proof.
  intros Hk. induction m as [|[k' x] m IH]; simpl; [done|].
  destruct (keep skip k') eqn:E; simpl; destruct (String.eqb_spec k k') as [->|]; [done..| |done]. congruence.
Qed.

Lemma write_members_skip skip m :
  write_members skip m = write_members [] (List.filter (fun kv => keep skip (fst kv)) m).
Proof.
  unfold write_members. do 3 f_equal.
  assert (Hk : List.filter (fun k => negb (existsb (fun s => s =s k) [])) (map fst (List.filter (fun kv => keep skip (fst kv)) m))
               = List.filter (keep skip) (map fst m)).
  { induction m as [|[k x] m IH]; simpl; [done|]. simpl in IH. destruct (keep skip k); simpl; by rewrite IH. }
  rewrite Hk. fold (keep skip). apply map_ext_in. intros k Hin. unfold sort_strings in Hin.
  rewrite sort_by_In in Hin. apply filter_In in Hin as [_ Hkeep]. by rewrite assoc_filter.
Qed.

Lemma pinned_object m :
  canonicalize_envelope_for_signing_v1_pinned (Object m) = write_value (Object (signing_view m)).
Proof.
  cbn [canonicalize_envelope_for_signing_v1_pinned as_object write_value]. unfold write_object.
  rewrite write_members_skip. f_equal.
  change (signing_view m) with (List.filter (fun kv => keep SIGNATURE_MEMBERS (fst kv)) m).
  induction m as [|[k x] m IH]; [done|]. cbn [List.filter map fst].
  destruct (keep SIGNATURE_MEMBERS k); cbn [map]; by rewrite IH.
Qed.

(** Stripped of its signature members, where it is an object. *)
Definition stripped (v : Value) : Value := match v with Object m => Object (signing_view m) | v => v end.

Lemma pinned_stripped v : canonicalize_envelope_for_signing_v1_pinned v = write_value (stripped v).
Proof. destruct v; try done. apply pinned_object. Qed.

Lemma stripped_wf v : wf v -> wf (stripped v).
Proof.
  destruct v as [| | | | |m]; try done. intros Hwf. apply wf_object in Hwf as [Hnd Hm]. apply wf_object.
  unfold signing_view. split.
  - clear Hm. induction m as [|[k x] m IH]; [constructor|]. simpl in Hnd. apply NoDup_cons in Hnd as [Hk Hnd].
    cbn [List.filter]. destruct (negb _); [|by apply IH]. simpl. apply NoDup_cons. split; [|by apply IH].
    intros Hin. apply Hk. apply list_elem_of_In, in_map_iff in Hin as (kv & E & Hin).
    apply filter_In in Hin as [Hin _]. apply list_elem_of_In, in_map_iff. by exists kv.
  - rewrite Forall_forall in Hm |- *. intros kv Hin. apply Hm. apply list_elem_of_In in Hin.
    apply filter_In in Hin as [Hin _]. by apply list_elem_of_In.
Qed.

(** ** Pure ASCII *)

Definition printable : ascii -> bool := byte_in 32 126.

Lemma all_chars_app f a b : all_chars f (a +:+ b) = all_chars f a && all_chars f b.
Proof. induction a as [|x a IH]; rewrite ?app_cons, ?app_nil_l'; simpl; [done|]. by rewrite IH, andb_assoc. Qed.

Lemma all_chars_join f sep l :
  all_chars f sep = true -> Forall (fun s => all_chars f s = true) l -> all_chars f (join sep l) = true.
Proof.
  intros Hs. induction 1 as [|x l Hx Hl IH]; [done|]. destruct l as [|y l]; [done|].
  change (join sep (x :: y :: l)) with (x +:+ sep +:+ join sep (y :: l)). by rewrite !all_chars_app, Hx, Hs, IH.
Qed.

Lemma hex_digit_printable n : (n < 16)%N -> printable (hex_digit n) = true.
Proof.
  intros Hn. unfold printable. apply byte_in_iff. unfold hex_digit.
  rewrite N_ascii_embedding; destruct (N.ltb_spec n 10); lia.
Qed.

Lemma u_escape_printable n : all_chars printable (u_escape n) = true.
Proof.
  unfold u_escape, hex4. cbn [all_chars]. by rewrite !hex_digit_printable by (by apply N.mod_lt).
Qed.

Lemma char_text_printable c t : char_text c t -> all_chars printable t = true.
Proof.
  destruct 1 as [c Hc _ _|c e He|c _ _|c q m _ _ _].
  - cbn [all_chars]. rewrite andb_true_r. unfold printable. apply byte_in_iff.
    rewrite N_ascii_embedding; lia.
  - assert (Hall : forallb (fun x => printable (snd x)) short_escapes = true) by (vm_compute; reflexivity).
    rewrite forallb_forall in Hall. apply Hall in He. simpl in He. cbn [escape all_chars]. by rewrite He.
  - apply u_escape_printable.
  - by rewrite all_chars_app, !u_escape_printable.
Qed.

Lemma write_string_printable s : utf8_valid s = true -> all_chars printable (write_string s) = true.
Proof.
  intros Hv. unfold write_string. cbn [all_chars]. replace (printable QUOTE) with true by done. simpl.
  pose proof (chars_scalar s Hv) as Hs. induction Hs as [|c cs Hc Hs IH]; [done|].
  cbn [write_chars fold_right]. rewrite all_chars_app.
  rewrite (char_text_printable c) by (by apply write_char_text). exact IH.
Qed.

Lemma token_printable t : all_chars number_char t = true -> all_chars printable t = true.
Proof.
  induction t as [|a t IH]; [done|]. simpl. intros H. apply andb_prop in H as [Ha Ht]. rewrite (IH Ht), andb_true_r.
  revert Ha. destruct a as [[] [] [] [] [] [] [] []]; vm_compute; done.
Qed.

Lemma write_value_printable v : wf v -> all_chars printable (write_value v) = true.
Proof.
  induction v as [|b|n|s|l IH|m IH] using Value_rec'; intros Hwf; [done|by destruct b|..].
  - apply token_printable, token_chars, Hwf.
  - by apply write_string_printable.
  - apply wf_array in Hwf. cbn [write_value]. rewrite !all_chars_app, all_chars_join; [done|done|].
    apply Forall_forall. intros t Ht. apply list_elem_of_In, in_map_iff in Ht as (x & <- & Hx).
    apply list_elem_of_In in Hx. rewrite Forall_forall in IH, Hwf. by apply IH; [|apply Hwf].
  - apply wf_object in Hwf as [Hnd Hm]. rewrite write_object_text by done.
    rewrite !all_chars_app, all_chars_join; [done|done|].
    apply Forall_forall. intros t Ht. apply list_elem_of_In, in_map_iff in Ht as ([k x] & <- & Hx).
    rewrite sort_by_In in Hx. apply list_elem_of_In in Hx. rewrite Forall_forall in IH, Hm.
    unfold member_text. cbn [fst snd]. rewrite !all_chars_app, write_string_printable by (by apply (Hm (k, x))).
    pose proof (IH (k, x) Hx) as Hv. cbn [snd] in Hv. rewrite Hv; [done|]. by apply (Hm (k, x)).
Qed.

(** ** Properties *)

(** C40. The Python-compatible writer is canonical: two JSON values have the same bytes
    exactly when they are the same value, members compared without their order and numbers
    by their tokens. *)
Theorem canonical_bytes_exact (v v' : Value) :
  wf v -> wf v' -> write_value v = write_value v' <-> canon v = canon v'.
Proof. apply write_value_iff. Qed.

Lemma canonical_bytes_exact_witness :
  write_value (Object [("b", JInt 2); ("a", Array [Str "x"; Null])])
  = write_value (Object [("a", Array [Str "x"; Null]); ("b", JInt 2)]).
Proof.
  apply (canonical_bytes_exact (Object [("b", JInt 2); ("a", Array [Str "x"; Null])])
           (Object [("a", Array [Str "x"; Null]); ("b", JInt 2)])); vm_compute; reflexivity.
Defined.

(** The signing form covers everything but the signature members: an envelope's bytes
    are the bytes of the envelope without its top-level [signature] and [signature_pqc], and
    two envelopes sign alike exactly when they are the same value outside those two. *)
Theorem signing_form_exact (v v' : Value) :
  wf v -> wf v' ->
  canonicalize_envelope_for_signing_v1_pinned v = write_value (stripped v) /\
  (canonicalize_envelope_for_signing_v1_pinned v = canonicalize_envelope_for_signing_v1_pinned v'
   <-> canon (stripped v) = canon (stripped v')).
Proof.
  intros Hwf Hwf'. rewrite !pinned_stripped. split; [done|]. apply write_value_iff; by apply stripped_wf.
Qed.

Lemma signing_form_exact_witness :
  canonicalize_envelope_for_signing_v1_pinned (Object [("signature", Str "s"); ("x", JInt 1)])
  = canonicalize_envelope_for_signing_v1_pinned (Object [("x", JInt 1); ("signature_pqc", Null)]).
Proof.
  apply (signing_form_exact (Object [("signature", Str "s"); ("x", JInt 1)])
           (Object [("x", JInt 1); ("signature_pqc", Null)])); vm_compute; reflexivity.
Defined.

(** The writer's output is printable ASCII, whatever the language of the strings. *)
Theorem canonical_ascii (v : Value) : wf v -> all_chars printable (write_value v) = true.
Proof. apply write_value_printable. Qed.

(** U+00E9, U+1F600 and a line feed. *)
Definition sample_text : string :=
  String "195" (String "169" (String "240" (String "159" (String "152" (String "128" (String "010" "")))))).

Lemma canonical_ascii_witness :
  all_chars printable (write_value (Object [("k", Str sample_text)])) = true.
Proof. apply (canonical_ascii (Object [("k", Str sample_text)])). vm_compute. reflexivity. Defined.

Example sample_bytes : write_value (Str sample_text)
  = String QUOTE ("\u00e9\ud83d\ude00\n" +:+ String QUOTE "").
Proof. vm_compute. reflexivity. Qed.
