(* ===== verification/Precedence.v ===== *)
(** * Structural-composer dedup, precedence and the retraction fold

    [src/src/federation/precedence.rs], with the two classifiers it asks:
    [row_type::classify] and [custody_ack::is_custody_row]. *)

From Stdlib Require Import ZArith NArith Lia.
From stdpp Require Import base list strings gmap.
From S2P Require Import Prelude RustStd Json.

Open Scope string_scope.
Open Scope list_scope.
Open Scope persist_scope.

(** ** The row-type registry

    [_meta.row_types] of the vendored registry. A carrier's compiled pattern is
    the predicate it matches with. *)
Record CarrierRowType := mk_CarrierRowType {
  carrier_kind : string;
  carrier_pattern : string;
  carrier_sample : string;
  carrier_token : string;
}.

Record RowTypes := mk_RowTypes {
  structural : list string;
  carriers : list ((string -> bool) * CarrierRowType);
}.

Inductive RowTypeClass :=
| Structural
| Carrier (c : CarrierRowType)
| Unregistered.

Definition carrier_row_type (rt : RowTypes) (ty : string) : option CarrierRowType :=
  match List.find (fun p => fst p ty) (carriers rt) with
  | Some p => Some (snd p)
  | None => None
  end.

Definition classify (rt : RowTypes) (ty : string) : RowTypeClass :=
  if existsb (fun s => s =s ty) (structural rt) then Structural
  else match carrier_row_type rt ty with
       | Some c => Carrier c
       | None => Unregistered
       end.

Definition CUSTODY_FAMILY_STEM := "custody:".

(** [admission::envelope_dimension]. *)
Definition envelope_dimension (env : Value) : option string := get_str env "dimension".

Definition is_custody_row (r : Attestation) : bool :=
  match envelope_dimension (attestation_envelope r) with
  | Some d => starts_with CUSTODY_FAMILY_STEM d
  | None => false
  end.

(** ** Composers *)

Definition references_attestation_id_from_envelope (env : Value) : option string :=
  get_str env "references_attestation_id".

Definition is_structural_composer (ty : string) : bool :=
  (ty =s attestation_type.SUPERSEDES) || (ty =s attestation_type.WITHDRAWS)
  || (ty =s attestation_type.RECANTS).

Definition composer_rank (ty : string) : N :=
  if ty =s attestation_type.RECANTS then 3
  else if ty =s attestation_type.WITHDRAWS then 2
  else if ty =s attestation_type.SUPERSEDES then 1
  else 0.

Definition is_dedup_match (existing candidate : Attestation) : bool :=
  if negb (is_structural_composer (attestation_type candidate)) then false
  else if attestation_type existing <>s attestation_type candidate then false
  else if attesting_key_id existing <>s attesting_key_id candidate then false
  else match references_attestation_id_from_envelope (attestation_envelope existing),
             references_attestation_id_from_envelope (attestation_envelope candidate) with
       | Some a, Some b => a =s b
       | _, _ => false
       end.

(** ** Precedence *)

Definition wins (a b : Attestation) : bool :=
  let ra := composer_rank (attestation_type a) in
  let rb := composer_rank (attestation_type b) in
  if negb (N.eqb ra rb) then N.ltb rb ra
  else if negb (Z.eqb (asserted_at a) (asserted_at b))
       then Z.ltb (asserted_at b) (asserted_at a)
  else attestation_id a <s attestation_id b.

Definition precedence_winner (group : list Attestation) : option Attestation :=
  match group with
  | [] => None
  | best :: rest => Some (fold_best wins best rest)
  end.

(** ** Entitlement and the retraction fold *)

Section WithRowTypes.
Context (rt : RowTypes).

Definition retraction_entitled (g target : Attestation) : bool :=
  if attesting_key_id g =s attesting_key_id target then true
  else match classify rt (attestation_type target) with
       | Carrier _ => false
       | _ =>
           if is_custody_row target then false
           else (attestation_type g =s attestation_type.WITHDRAWS)
                && (existsb (fun k => k =s attesting_key_id g) (subject_key_ids target)
                    || match withdraws_admission_rule g with Some _ => true | None => false end)
       end.

Definition is_retraction (r : Attestation) : bool :=
  (attestation_type r =s attestation_type.WITHDRAWS)
  || (attestation_type r =s attestation_type.RECANTS).

(** [by_id]: a [HashMap] collected in row order, so the last row of an id stays. *)
Definition by_id (rows : list Attestation) (id : string) : option Attestation :=
  List.find (fun r => attestation_id r =s id) (rev rows).

(** The target whose group this row enters, if it enters one. *)
Definition enters (rows : list Attestation) (r : Attestation) : option string :=
  if negb (is_structural_composer (attestation_type r)) then None
  else match references_attestation_id_from_envelope (attestation_envelope r) with
       | None => None
       | Some target =>
           if is_retraction r then
             match by_id rows target with
             | Some target_row => if retraction_entitled r target_row then Some target else None
             | None => None
             end
           else Some target
       end.

(** [by_target.entry(target).or_default().push(row)]. *)
Definition push_row (rows : list Attestation) (m : gmap string (list Attestation))
    (r : Attestation) : gmap string (list Attestation) :=
  match enters rows r with
  | Some t => <[t := default [] (m !! t) ++ [r]]> m
  | None => m
  end.

Definition by_target (rows : list Attestation) : gmap string (list Attestation) :=
  fold_left (push_row rows) rows ∅.

(** The second loop's test on one group. *)
Definition group_dead (composers : list Attestation) : bool :=
  match precedence_winner composers with
  | Some w => is_retraction w
  | None => false
  end.

Definition retired_ids (rows : list Attestation) : gset string :=
  dom (filter (fun kv => group_dead (snd kv) = true) (by_target rows)).
End WithRowTypes.

(** ** The order [wins] *)

Lemma wins_irrefl a : wins a a = false.
Proof. unfold wins. rewrite N.eqb_refl, Z.eqb_refl. apply string_ltb_irrefl. Qed.

(** The lexicographic order on (rank, instant, reversed id), as a proposition. *)
Lemma wins_spec a b :
  wins a b = true <->
  let ra := composer_rank (attestation_type a) in
  let rb := composer_rank (attestation_type b) in
  (rb < ra)%N \/
  (ra = rb /\ (asserted_at b < asserted_at a)%Z) \/
  (ra = rb /\ asserted_at a = asserted_at b /\ (attestation_id a <s attestation_id b) = true).
Proof.
  unfold wins. cbn zeta.
  destruct (N.eqb_spec (composer_rank (attestation_type a)) (composer_rank (attestation_type b)));
    destruct (Z.eqb_spec (asserted_at a) (asserted_at b)); simpl;
    rewrite ?N.ltb_lt, ?Z.ltb_lt; intuition lia.
Qed.

Lemma wins_trans a b c : wins a b = true -> wins b c = true -> wins a c = true.
Proof.
  rewrite !wins_spec; cbn zeta.
  intros [?|[[??]|(?&?&Hab)]] [?|[[??]|(?&?&Hbc)]]; try (left; lia); right; try (left; lia).
  right. split_and!; [congruence..|]. by eapply string_ltb_trans.
Qed.

Lemma wins_cotrans a b c : wins a c = true -> wins a b = true \/ wins b c = true.
Proof.
  rewrite !wins_spec; cbn zeta.
  destruct (N.lt_trichotomy (composer_rank (attestation_type a))
              (composer_rank (attestation_type b))) as [?|[Er|?]]; [intros; right; lia| |intros; lia].
  destruct (Z.lt_trichotomy (asserted_at a) (asserted_at b)) as [?|[Et|?]];
    [intros; right; lia| |intros; lia].
  intros [?|[[??]|(?&?&H)]]; [right; lia..|].
  destruct (string_ltb_cotrans _ (attestation_id b) _ H); [left|right]; right; right; auto with lia.
Qed.

(** Two rows neither of which wins share their id. *)
Lemma wins_connected a b : wins a b = false -> wins b a = false -> attestation_id a = attestation_id b.
Proof.
  intros Hab Hba. unfold wins in *.
  rewrite (N.eqb_sym (composer_rank (attestation_type b))), (Z.eqb_sym (asserted_at b)) in Hba.
  destruct (N.eqb_spec (composer_rank (attestation_type a)) (composer_rank (attestation_type b)));
    simpl in *; [|breflect; lia].
  destruct (Z.eqb_spec (asserted_at a) (asserted_at b)); simpl in *; [|breflect; lia].
  by apply string_ltb_total.
Qed.

Lemma precedence_winner_spec group w :
  precedence_winner group = Some w ->
  In w group /\ forall c, In c group -> wins c w = false.
Proof.
  destruct group as [|x l]; [done|]. intros [= <-]. split; [apply fold_best_in|].
  intros c Hc. by apply fold_best_max; eauto using wins_trans, wins_irrefl, wins_cotrans.
Qed.

Lemma precedence_winner_unique group w w' :
  (forall r s, In r group -> In s group -> attestation_id r = attestation_id s -> r = s) ->
  In w group -> (forall c, In c group -> wins c w = false) ->
  In w' group -> (forall c, In c group -> wins c w' = false) -> w = w'.
Proof. intros Hid Hw Hmax Hw' Hmax'. apply Hid; auto. apply wins_connected; auto. Qed.

(** ** Groups *)

Section Groups.
Context (rt : RowTypes).
Implicit Types (rows l : list Attestation) (t : string).

Definition enters_b rows t (r : Attestation) : bool :=
  match enters rt rows r with Some t' => t' =s t | None => false end.

Lemma enters_b_true rows t r : enters_b rows t r = true <-> enters rt rows r = Some t.
Proof.
  unfold enters_b. destruct (enters rt rows r); [|done].
  rewrite String.eqb_eq. naive_solver.
Qed.

Lemma fold_push_lookup rows l m t :
  default [] (fold_left (push_row rt rows) l m !! t)
  = default [] (m !! t) ++ List.filter (enters_b rows t) l.
Proof.
  revert m; induction l as [|r l IH]; intros m; simpl; [by rewrite app_nil_r|].
  rewrite IH. unfold push_row, enters_b at 2. destruct (enters rt rows r) as [t'|]; [|done].
  destruct (String.eqb_spec t' t) as [->|Hne].
  - rewrite lookup_insert_eq. simpl. by rewrite <- app_assoc.
  - by rewrite lookup_insert_ne.
Qed.

Lemma by_target_lookup rows t :
  default [] (by_target rt rows !! t) = List.filter (enters_b rows t) rows.
Proof. unfold by_target. rewrite fold_push_lookup. by rewrite lookup_empty. Qed.

Lemma elem_of_retired rows t :
  t ∈ retired_ids rt rows <-> group_dead (List.filter (enters_b rows t) rows) = true.
Proof.
  unfold retired_ids. rewrite <- by_target_lookup, elem_of_dom.
  destruct (by_target rt rows !! t) as [g|] eqn:E; simpl.
  - split.
    + intros [g' Hg]. apply map_lookup_filter_Some in Hg as [Hg Hd]. simpl in Hd. congruence.
    + intros Hd. exists g. apply map_lookup_filter_Some. done.
  - split; [|done]. intros [g' Hg]. apply map_lookup_filter_Some in Hg as [Hg _]. congruence.
Qed.

Lemma is_retraction_rank r : is_retraction r = true <-> (2 <= composer_rank (attestation_type r))%N.
Proof.
  unfold is_retraction, composer_rank.
  repeat case_if; breflect; simpl; intuition (congruence || lia).
Qed.

(** Either retraction form outranks every [supersedes], so a group is dead
    exactly when it holds a retraction. *)
Lemma group_dead_iff l : group_dead l = true <-> exists r, In r l /\ is_retraction r = true.
Proof.
  unfold group_dead. split.
  - destruct (precedence_winner l) as [w|] eqn:E; [|done].
    apply precedence_winner_spec in E as [? _]. eauto.
  - intros (r & Hr & Hret). destruct l as [|x l']; [done|].
    destruct (precedence_winner (x :: l')) as [w|] eqn:E; [|done].
    apply precedence_winner_spec in E as [Hw Hmax].
    specialize (Hmax r Hr). apply is_retraction_rank in Hret. apply is_retraction_rank.
    apply not_true_iff_false in Hmax. rewrite wins_spec in Hmax. cbn zeta in Hmax. lia.
Qed.

Lemma retraction_is_composer r : is_retraction r = true -> is_structural_composer (attestation_type r) = true.
Proof. unfold is_retraction, is_structural_composer. breflect. tauto. Qed.

Lemma enters_retraction rows r t :
  is_retraction r = true ->
  enters rt rows r = Some t <->
  references_attestation_id_from_envelope (attestation_envelope r) = Some t /\
  exists target, by_id rows t = Some target /\ retraction_entitled rt r target = true.
Proof.
  intros Hr. unfold enters. rewrite (retraction_is_composer r Hr), Hr. simpl.
  destruct (references_attestation_id_from_envelope _) as [t'|]; [|naive_solver].
  destruct (by_id rows t') as [tr|] eqn:Eb.
  - destruct (retraction_entitled rt r tr) eqn:Ee; naive_solver congruence.
  - split; [done|]. intros ([= ->] & tr & Hb & _). congruence.
Qed.

(** The row a target id resolves to, for rows with distinct ids. *)
Lemma by_id_In rows t r : by_id rows t = Some r -> In r rows /\ attestation_id r = t.
Proof.
  intros H. apply List.find_some in H as [Hin Ht]. split; [by apply in_rev|].
  by apply String.eqb_eq in Ht.
Qed.

Lemma by_id_NoDup rows r :
  NoDup (map attestation_id rows) -> In r rows -> by_id rows (attestation_id r) = Some r.
Proof.
  intros Hnd Hin. unfold by_id.
  destruct (List.find _ (rev rows)) as [r'|] eqn:E.
  - apply by_id_In in E as [Hin' Heq]. f_equal. by apply (ids_inj rows).
  - eapply List.find_none in E; [|by apply in_rev in Hin]. by rewrite String.eqb_refl in E.
Qed.
End Groups.

(** ** What the fold decides *)

(** The specification of "retired": some row of the slice is a [withdraws] or a
    [recants] naming the target, and its attester is entitled against the row the
    slice resolves the target to. *)
Definition Retired (rt : RowTypes) (rows : list Attestation) (t : string) : Prop :=
  exists r target,
    In r rows /\ is_retraction r = true /\
    references_attestation_id_from_envelope (attestation_envelope r) = Some t /\
    by_id rows t = Some target /\ retraction_entitled rt r target = true.

Lemma retired_spec rt rows t : t ∈ retired_ids rt rows <-> Retired rt rows t.
Proof.
  rewrite elem_of_retired, group_dead_iff. unfold Retired. split.
  - intros (r & Hin & Hret). apply filter_In in Hin as [Hin He].
    apply enters_b_true, enters_retraction in He as (Href & target & Hb & He); [|done].
    by exists r, target.
  - intros (r & target & Hin & Hret & Href & Hb & He). exists r. split; [|done].
    apply filter_In. split; [done|]. apply enters_b_true, enters_retraction; eauto.
Qed.

Lemma by_id_perm rows rows' t :
  NoDup (map attestation_id rows) -> Permutation rows rows' -> by_id rows t = by_id rows' t.
Proof.
  intros Hnd Hp.
  assert (Hnd' : NoDup (map attestation_id rows')) by (by rewrite <- Hp).
  destruct (by_id rows t) as [r|] eqn:E.
  - apply by_id_In in E as [Hin <-]. symmetry. apply by_id_NoDup; [done|].
    by eapply Permutation_in.
  - destruct (by_id rows' t) as [r'|] eqn:E'; [|done].
    apply by_id_In in E' as [Hin <-]. rewrite by_id_NoDup in E; [done..|].
    eapply Permutation_in; [symmetry|]; done.
Qed.

(** An entitlement that is not the target's own attester's is a [withdraws]
    against a row that is neither a carrier nor a custody report. *)
Lemma entitled_foreign rt g target :
  retraction_entitled rt g target = true ->
  attesting_key_id g <> attesting_key_id target ->
  attestation_type g = attestation_type.WITHDRAWS /\ is_custody_row target = false /\
  (forall c, classify rt (attestation_type target) <> Carrier c) /\
  (attesting_key_id g ∈ subject_key_ids target \/ is_Some (withdraws_admission_rule g)).
Proof.
  unfold retraction_entitled. intros H Hne.
  destruct (String.eqb_spec (attesting_key_id g) (attesting_key_id target)); [done|].
  destruct (classify rt (attestation_type target)) eqn:Ec; try done;
    destruct (is_custody_row target); try done;
    apply andb_true_iff in H as [Hty H]; apply String.eqb_eq in Hty;
    (split_and!; [done..|]); apply orb_true_iff in H as [H|H].
  all: try (right; by destruct (withdraws_admission_rule g)).
  all: left; apply existsb_exists in H as (k & Hk & E); apply String.eqb_eq in E; subst;
    by apply list_elem_of_In.
Qed.

(** Sample rows used by the witnesses: a target, its subject's [withdraws], and a
    stranger's [recants]. *)
Module PrecedenceSamples.
Definition rt0 : RowTypes :=
  mk_RowTypes ["scores"; "delegates_to"; "supersedes"; "withdraws"; "recants"]
    [(fun s => starts_with "key_grant:" s, mk_CarrierRowType "key_grant" "" "" "key_grant:{axis}")].
Definition refers (t : string) : Value := Object [("references_attestation_id", Str t)].
Definition target := row "t" "alice" "scores" 10%Z (Object [("dimension", Str "quality:v1")]) ["bob"].
Definition by_subject := row "w" "bob" "withdraws" 20%Z (refers "t") [].
Definition by_stranger := row "r" "mallory" "recants" 30%Z (refers "t") [].
Definition replaced := row "s" "alice" "supersedes" 40%Z (refers "t") [].
Definition rows := [target; by_subject; by_stranger; replaced].
End PrecedenceSamples.

(** ** Properties *)

(** C25. The consolidated retraction fold retires exactly the ids that some
    entitled [withdraws] or [recants] of the slice names: precedence never
    rescues a target that an entitled retraction names, and neither a
    [supersedes] nor an unentitled or unresolvable retraction retires one. *)
Theorem retired_ids_spec (rt : RowTypes) (rows : list Attestation) (t : string) :
  t ∈ retired_ids rt rows <-> Retired rt rows t.
Proof. apply retired_spec. Qed.

(** The fold does not depend on the order the rows arrived in: two slices
    holding the same rows, with distinct ids, retire the same set, so nodes that
    received them in different orders agree. *)
Theorem retired_ids_order_independent (rt : RowTypes) (rows rows' : list Attestation) :
  NoDup (map attestation_id rows) -> Permutation rows rows' ->
  retired_ids rt rows = retired_ids rt rows'.
Proof.
  intros Hnd Hp. apply set_eq. intros t. rewrite !retired_spec. unfold Retired.
  setoid_rewrite (by_id_perm rows rows' t Hnd Hp).
  split; intros (r & tg & Hin & Hrest); exists r, tg; (split; [|exact Hrest]);
    eapply Permutation_in; try exact Hin; [done|by symmetry].
Qed.

Lemma retired_ids_order_independent_witness :
  retired_ids PrecedenceSamples.rt0 PrecedenceSamples.rows
  = retired_ids PrecedenceSamples.rt0 (rev PrecedenceSamples.rows).
Proof.
  apply (retired_ids_order_independent PrecedenceSamples.rt0 PrecedenceSamples.rows).
  - vm_compute. repeat constructor; set_solver.
  - apply Permutation_rev.
Defined.

(** The precedence winner of a group is a member no other member beats, it is
    the only such member when ids are distinct, and a retraction in the group
    always beats every [supersedes] of it. *)
Theorem precedence_winner_correct (group : list Attestation) (w : Attestation) :
  NoDup (map attestation_id group) ->
  precedence_winner group = Some w <->
  In w group /\ forall c, In c group -> c <> w -> wins w c = true.
Proof.
  intros Hnd.
  assert (Hid : forall r s, In r group -> In s group ->
            attestation_id r = attestation_id s -> r = s) by (intros; by apply (ids_inj group)).
  split.
  - intros E. apply precedence_winner_spec in E as [Hw Hmax]. split; [done|].
    intros c Hc Hne. destruct (wins w c) eqn:E; [done|].
    destruct Hne. apply Hid, wins_connected; auto.
  - intros [Hw Hbeats]. destruct (precedence_winner group) as [w'|] eqn:E; [|by destruct group].
    f_equal. apply precedence_winner_spec in E as [Hw' Hmax].
    apply Hid; [done..|]. destruct (decide (attestation_id w' = attestation_id w)) as [|Hne]; [done|].
    specialize (Hmax w Hw). rewrite Hbeats in Hmax; naive_solver.
Qed.

Lemma precedence_winner_correct_witness :
  precedence_winner [PrecedenceSamples.replaced; PrecedenceSamples.by_subject]
  = Some PrecedenceSamples.by_subject.
Proof.
  apply (precedence_winner_correct
           [PrecedenceSamples.replaced; PrecedenceSamples.by_subject] PrecedenceSamples.by_subject).
  - vm_compute. repeat constructor; set_solver.
  - split; [by right; left|]. intros c [<-|[<-|[]]] Hne; [vm_compute; reflexivity|done].
Defined.

(** A holder's carrier row and a custody report are retracted by their signer
    alone, and a [recants] is the attester's act alone: whatever else the slice
    holds, an id that is retired through another key's row was retired by a
    [withdraws], by a subject of the target or by a key the write door had already
    resolved authority for. *)
Theorem foreign_retraction_limits (rt : RowTypes) (g target : Attestation) :
  retraction_entitled rt g target = true ->
  attesting_key_id g = attesting_key_id target \/
  (attestation_type g = attestation_type.WITHDRAWS /\ is_custody_row target = false /\
   (forall c, classify rt (attestation_type target) <> Carrier c) /\
   (attesting_key_id g ∈ subject_key_ids target \/ is_Some (withdraws_admission_rule g))).
Proof.
  intros H. destruct (decide (attesting_key_id g = attesting_key_id target)); [by left|right].
  by apply entitled_foreign.
Qed.

Lemma foreign_retraction_limits_witness :
  retraction_entitled PrecedenceSamples.rt0 PrecedenceSamples.by_subject PrecedenceSamples.target
  = true /\
  attesting_key_id PrecedenceSamples.by_subject ∈ subject_key_ids PrecedenceSamples.target.
Proof.
  split; [reflexivity|].
  destruct (foreign_retraction_limits PrecedenceSamples.rt0 PrecedenceSamples.by_subject
              PrecedenceSamples.target eq_refl) as [H|(_&_&_&[H|H])].
  - discriminate H.
  - exact H.
  - destruct H as [x Hx]. discriminate Hx.
Defined.

(** Retraction only grows: appending rows whose ids are new to the slice
    never revives a target that was already retired. *)
Theorem retired_ids_monotone (rt : RowTypes) (rows new : list Attestation) :
  (forall r s, In r new -> In s rows -> attestation_id r <> attestation_id s) ->
  retired_ids rt rows ⊆ retired_ids rt (rows ++ new).
Proof.
  intros Hfresh t. rewrite !retired_spec. intros (r & tg & Hin & Hr & Href & Hb & He).
  exists r, tg. split_and!; try done; [apply in_app_iff; by left|].
  unfold by_id in *. rewrite rev_app_distr.
  apply List.find_some in Hb as Hb'. destruct Hb' as [Hint Ht]. apply String.eqb_eq in Ht.
  apply in_rev in Hint. revert Hfresh. induction (rev new) as [|n l IH] eqn:E in new |- *.
  - done.
  - intros Hfresh. simpl. destruct (String.eqb_spec (attestation_id n) t) as [Hn|Hn].
    + exfalso. apply (Hfresh n tg); [|done|congruence]. apply in_rev. rewrite E. by left.
    + apply (IH (rev l)); [by rewrite rev_involutive|].
      intros r' s Hr' Hs. apply Hfresh; [|done]. apply in_rev. rewrite E. right. by apply in_rev.
Qed.

Lemma retired_ids_monotone_witness :
  retired_ids PrecedenceSamples.rt0 [PrecedenceSamples.target; PrecedenceSamples.by_subject]
  ⊆ retired_ids PrecedenceSamples.rt0
      ([PrecedenceSamples.target; PrecedenceSamples.by_subject] ++ [PrecedenceSamples.replaced]).
Proof.
  apply (retired_ids_monotone PrecedenceSamples.rt0).
  intros r s [<-|[]] [<-|[<-|[]]]; vm_compute; discriminate.
Defined.

(** Dropping a composer that the write door recognises as a replay of a stored
    one loses nothing: appending it would leave the retired set as it is, provided
    the door resolved the same authority for both. *)
Theorem dedup_preserves_retired (rt : RowTypes) (rows : list Attestation)
    (existing candidate : Attestation) :
  In existing rows -> is_dedup_match existing candidate = true ->
  withdraws_admission_rule existing = withdraws_admission_rule candidate ->
  (forall r, In r rows -> attestation_id candidate <> attestation_id r) ->
  (forall r, In r rows -> references_attestation_id_from_envelope (attestation_envelope r)
                           <> Some (attestation_id candidate)) ->
  retired_ids rt (rows ++ [candidate]) = retired_ids rt rows.
Proof.
  intros Hin Hd Hrule Hfresh Hnoref. unfold is_dedup_match in Hd.
  destruct (is_structural_composer (attestation_type candidate)); [|done]. simpl in Hd.
  destruct (String.eqb_spec (attestation_type existing) (attestation_type candidate)) as [Hty|]; [|done].
  destruct (String.eqb_spec (attesting_key_id existing) (attesting_key_id candidate)) as [Hk|]; [|done].
  simpl in Hd.
  destruct (references_attestation_id_from_envelope (attestation_envelope existing)) as [a|] eqn:Ea;
    [|done].
  destruct (references_attestation_id_from_envelope (attestation_envelope candidate)) as [b|] eqn:Eb;
    [|done].
  apply String.eqb_eq in Hd as ->.
  assert (Hent : forall tg, retraction_entitled rt candidate tg = retraction_entitled rt existing tg).
  { intros tg. unfold retraction_entitled. by rewrite Hk, Hty, Hrule. }
  assert (Hby : forall t, t <> attestation_id candidate ->
            by_id (rows ++ [candidate]) t = by_id rows t).
  { intros t Ht. unfold by_id. rewrite rev_app_distr. simpl.
    destruct (String.eqb_spec (attestation_id candidate) t); congruence. }
  apply set_eq. intros t. rewrite !retired_spec. split.
  - intros (r & tg & Hr & Hret & Href & Hb & He).
    apply in_app_iff in Hr as [Hr|[<-|[]]].
    + rewrite Hby in Hb by (intros ->; by apply (Hnoref r Hr)). by exists r, tg.
    + rewrite Hby in Hb by (intros ->; apply (Hnoref existing Hin); congruence).
      exists existing, tg. split_and!; try done; [|congruence|by rewrite <- Hent].
      unfold is_retraction in *. by rewrite Hty.
  - intros (r & tg & Hr & Hret & Href & Hb & He). exists r, tg.
    split_and!; try done; [apply in_app_iff; by left|].
    rewrite Hby; [done|]. intros ->. by apply (Hnoref r Hr).
Qed.

Lemma dedup_preserves_retired_witness :
  let replay := row "w2" "bob" "withdraws" 25%Z (PrecedenceSamples.refers "t") [] in
  retired_ids PrecedenceSamples.rt0 (PrecedenceSamples.rows ++ [replay])
  = retired_ids PrecedenceSamples.rt0 PrecedenceSamples.rows.
Proof.
  intros replay.
  apply (dedup_preserves_retired PrecedenceSamples.rt0 PrecedenceSamples.rows
           PrecedenceSamples.by_subject replay).
  - right; left; reflexivity.
  - reflexivity.
  - reflexivity.
  - intros r Hr. repeat (destruct Hr as [<-|Hr]; [vm_compute; discriminate|]). destruct Hr.
  - intros r Hr. repeat (destruct Hr as [<-|Hr]; [vm_compute; discriminate|]). destruct Hr.
Defined.
