(* ===== verification/Quota.v ===== *)
(** * The per-peer write quota

    [src/src/federation/replication/admission.rs], [PeerWriteQuota]: every attestation write
    is charged, before any other gate, against token buckets that refill with time. A bucket
    holds a fractional count for each metered dimension (rows, bytes) on each horizon (a
    burst minute, a sustained day). The clock is an argument. *)

From Stdlib Require Import ZArith NArith Lia.
From stdpp Require Import base list strings gmap.
From S2P Require Import Prelude RustStd Json Precedence.

Open Scope string_scope.
Open Scope list_scope.
Open Scope persist_scope.

(** ** Constants *)

Definition PER_PEER_ATTESTATION_WRITES_PER_WINDOW : N := 600.
(** [Instant]s and [Duration]s are nanosecond counts. *)
Definition PER_PEER_ATTESTATION_WRITE_WINDOW : Z := 60 * NANOS.
Definition PER_PEER_SUSTAINED_WRITES_PER_WINDOW : N := 14400.
Definition PER_PEER_SUSTAINED_WRITE_WINDOW : Z := 86400 * NANOS.
Definition TYPICAL_ATTESTATION_ENVELOPE_BYTES : N := 1536.
Definition PER_PEER_ATTESTATION_BYTES_PER_WINDOW : N := 9216000.
Definition PER_PEER_SUSTAINED_BYTES_PER_WINDOW : N := 221184000.
Definition PER_PEER_QUOTA_TRACKED_PEERS_CAP : N := 8192.
Definition UNTRACKED_TAIL_BUDGET_MULTIPLE : N := 1.
Definition NODE_INGEST_BUDGET_MULTIPLE : N := 10.
Definition SYNC_BUDGET_MULTIPLE : N := NODE_INGEST_BUDGET_MULTIPLE / 2.
Definition RESERVED_CLASS_BUDGET_MULTIPLE : N := 1.
Definition RESERVED_CLASS_DIMENSION_PREFIXES : list string := ["accord:"; "objection:"].
Definition COHORT_AFFINITY_TTL : Z := 60 * NANOS.
Definition REFUSED_KEYS_WINDOW_CAP : N := PER_PEER_QUOTA_TRACKED_PEERS_CAP * 2.

(** ** What is metered *)

Inductive QuotaDimension := Rows | Bytes.
Inductive QuotaBudget := Peer | UntrackedTail | Node | Reserved | CohortSync.
Inductive QuotaHorizon := Burst | Sustained.

#[export] Instance QuotaDimension_eq_dec : EqDecision QuotaDimension.
Proof. solve_decision. Defined.
#[export] Instance QuotaBudget_eq_dec : EqDecision QuotaBudget.
Proof. solve_decision. Defined.
#[export] Instance QuotaHorizon_eq_dec : EqDecision QuotaHorizon.
Proof. solve_decision. Defined.

(** [PeerQuotaRefusal]: one refusal for each budget, dimension and horizon. *)
Inductive PeerQuotaRefusal :=
| PeerBurst | PeerSustained | UntrackedTailBurst | UntrackedTailSustained
| NodeBurst | NodeSustained | ReservedBurst | ReservedSustained
| CohortSyncBurst | CohortSyncSustained
| PeerBytesBurst | PeerBytesSustained | UntrackedTailBytesBurst | UntrackedTailBytesSustained
| NodeBytesBurst | NodeBytesSustained | ReservedBytesBurst | ReservedBytesSustained
| CohortSyncBytesBurst | CohortSyncBytesSustained.

(** [PeerQuotaRefusal::of]. *)
Definition refusal_of (b : QuotaBudget) (d : QuotaDimension) (h : QuotaHorizon)
    : PeerQuotaRefusal :=
  match b, d, h with
  | Peer, Rows, Burst => PeerBurst
  | Peer, Rows, Sustained => PeerSustained
  | Peer, Bytes, Burst => PeerBytesBurst
  | Peer, Bytes, Sustained => PeerBytesSustained
  | UntrackedTail, Rows, Burst => UntrackedTailBurst
  | UntrackedTail, Rows, Sustained => UntrackedTailSustained
  | UntrackedTail, Bytes, Burst => UntrackedTailBytesBurst
  | UntrackedTail, Bytes, Sustained => UntrackedTailBytesSustained
  | Node, Rows, Burst => NodeBurst
  | Node, Rows, Sustained => NodeSustained
  | Node, Bytes, Burst => NodeBytesBurst
  | Node, Bytes, Sustained => NodeBytesSustained
  | Reserved, Rows, Burst => ReservedBurst
  | Reserved, Rows, Sustained => ReservedSustained
  | Reserved, Bytes, Burst => ReservedBytesBurst
  | Reserved, Bytes, Sustained => ReservedBytesSustained
  | CohortSync, Rows, Burst => CohortSyncBurst
  | CohortSync, Rows, Sustained => CohortSyncSustained
  | CohortSync, Bytes, Burst => CohortSyncBytesBurst
  | CohortSync, Bytes, Sustained => CohortSyncBytesSustained
  end.

(** [PeerQuotaRefusal::dimension], [budget] and [horizon]. *)
Definition refusal_dimension (r : PeerQuotaRefusal) : QuotaDimension :=
  match r with
  | PeerBurst | PeerSustained | UntrackedTailBurst | UntrackedTailSustained
  | NodeBurst | NodeSustained | ReservedBurst | ReservedSustained
  | CohortSyncBurst | CohortSyncSustained => Rows
  | _ => Bytes
  end.
Definition refusal_budget (r : PeerQuotaRefusal) : QuotaBudget :=
  match r with
  | PeerBurst | PeerSustained | PeerBytesBurst | PeerBytesSustained => Peer
  | UntrackedTailBurst | UntrackedTailSustained
  | UntrackedTailBytesBurst | UntrackedTailBytesSustained => UntrackedTail
  | NodeBurst | NodeSustained | NodeBytesBurst | NodeBytesSustained => Node
  | ReservedBurst | ReservedSustained | ReservedBytesBurst | ReservedBytesSustained => Reserved
  | CohortSyncBurst | CohortSyncSustained
  | CohortSyncBytesBurst | CohortSyncBytesSustained => CohortSync
  end.
Definition refusal_horizon (r : PeerQuotaRefusal) : QuotaHorizon :=
  match r with
  | PeerBurst | UntrackedTailBurst | NodeBurst | ReservedBurst
  | PeerBytesBurst | UntrackedTailBytesBurst | NodeBytesBurst | ReservedBytesBurst
  | CohortSyncBurst | CohortSyncBytesBurst => Burst
  | _ => Sustained
  end.

Record PeerQuotaRefused := mk_refused { reason : PeerQuotaRefusal; retry_after_seconds : N }.

Inductive WriteAdmissionClass :=
| Ordinary | ReservedClass | GenesisClaim | LocalAuthorship | CohortSyncClass.

#[export] Instance WriteAdmissionClass_eq_dec : EqDecision WriteAdmissionClass.
Proof. solve_decision. Defined.

(** ** Budgets and costs *)

(** [[T; QuotaDimension::COUNT]], indexed by the dimension. *)
Record PerDim (T : Type) := per_dim { on_rows : T; on_bytes : T }.
Arguments per_dim {T}. Arguments on_rows {T}. Arguments on_bytes {T}.
Definition at_dim {T} (p : PerDim T) (d : QuotaDimension) : T :=
  match d with Rows => on_rows p | Bytes => on_bytes p end.
(** A value on both horizons ([DimensionSpec] and [DimensionTokens]). *)
Record PerHorizon (T : Type) := per_horizon { burst : T; sustained : T }.
Arguments per_horizon {T}. Arguments burst {T}. Arguments sustained {T}.
Definition at_horizon {T} (p : PerHorizon T) (h : QuotaHorizon) : T :=
  match h with Burst => burst p | Sustained => sustained p end.

Record HorizonSpec := mk_horizon { capacity : F64.t; per_second : F64.t }.

(** [Duration::as_secs_f64]. *)
Definition as_secs_f64 (d : Z) : F64.t :=
  F64.add (F64.of_Z (d / NANOS)) (F64.div (F64.of_Z (d mod NANOS)) (F64.of_Z NANOS)).

(** [HorizonSpec::new]. *)
Definition new_horizon (capacity : F64.t) (window : Z) : HorizonSpec :=
  mk_horizon capacity (F64.div capacity (as_secs_f64 window)).

Definition BudgetSpec := PerDim (PerHorizon HorizonSpec).
Definition for_multiple (multiple : N) : BudgetSpec :=
  let m := F64.of_N multiple in
  per_dim
    (per_horizon
       (new_horizon (F64.mul (F64.of_N PER_PEER_ATTESTATION_WRITES_PER_WINDOW) m)
                    PER_PEER_ATTESTATION_WRITE_WINDOW)
       (new_horizon (F64.mul (F64.of_N PER_PEER_SUSTAINED_WRITES_PER_WINDOW) m)
                    PER_PEER_SUSTAINED_WRITE_WINDOW))
    (per_horizon
       (new_horizon (F64.mul (F64.of_N PER_PEER_ATTESTATION_BYTES_PER_WINDOW) m)
                    PER_PEER_ATTESTATION_WRITE_WINDOW)
       (new_horizon (F64.mul (F64.of_N PER_PEER_SUSTAINED_BYTES_PER_WINDOW) m)
                    PER_PEER_SUSTAINED_WRITE_WINDOW)).
Definition hspec (spec : BudgetSpec) (d : QuotaDimension) (h : QuotaHorizon) : HorizonSpec :=
  at_horizon (at_dim spec d) h.

Definition WriteCost := PerDim F64.t.
(** [WriteCost::for_envelope_bytes] and [WriteCost::floor]. *)
Definition for_envelope_bytes (envelope_bytes : N) : WriteCost :=
  per_dim F64.one (F64.of_N (N.max envelope_bytes TYPICAL_ATTESTATION_ENVELOPE_BYTES)).
Definition floor_cost : WriteCost := for_envelope_bytes 0.

(** ** One bucket *)

Record PeerBucket := mk_bucket { tokens : PerDim (PerHorizon F64.t); last_seen : Z }.
Definition cell (b : PeerBucket) (d : QuotaDimension) (h : QuotaHorizon) : F64.t :=
  at_horizon (at_dim (tokens b) d) h.

Definition cells (f : QuotaDimension -> QuotaHorizon -> F64.t) : PerDim (PerHorizon F64.t) :=
  per_dim (per_horizon (f Rows Burst) (f Rows Sustained))
          (per_horizon (f Bytes Burst) (f Bytes Sustained)).

(** [PeerBucket::full]. *)
Definition full (spec : BudgetSpec) (now : Z) : PeerBucket :=
  mk_bucket (cells (fun d h => capacity (hspec spec d h))) now.

(** [PeerBucket::refill]; [saturating_duration_since] is zero for an earlier instant. *)
Definition refill (spec : BudgetSpec) (now : Z) (b : PeerBucket) : PeerBucket :=
  let elapsed := as_secs_f64 (Z.max 0 (now - last_seen b)) in
  mk_bucket (cells (fun d h =>
    F64.min (F64.add (cell b d h) (F64.mul elapsed (per_second (hspec spec d h))))
            (capacity (hspec spec d h)))) now.

(** [retry_after]. *)
Definition retry_after (deficit rate : F64.t) : N :=
  F64.to_u64 (F64.max (F64.ceil (F64.div deficit rate)) F64.one).

(** The order the cells are asked in: burst before sustained, rows before bytes. *)
Definition cell_order : list (QuotaHorizon * QuotaDimension) :=
  [(Burst, Rows); (Burst, Bytes); (Sustained, Rows); (Sustained, Bytes)].

(** [PeerBucket::refusal]. *)
Definition refusal (spec : BudgetSpec) (budget : QuotaBudget) (cost : WriteCost) (b : PeerBucket)
    : option PeerQuotaRefused :=
  hd_error (omap (fun '(h, d) =>
    if F64.ltb (cell b d h) (at_dim cost d)
    then Some (mk_refused (refusal_of budget d h)
                 (retry_after (F64.sub (at_dim cost d) (cell b d h)) (per_second (hspec spec d h))))
    else None) cell_order).

(** [PeerBucket::spend]. *)
Definition spend (cost : WriteCost) (b : PeerBucket) : PeerBucket :=
  mk_bucket (cells (fun d h => F64.sub (cell b d h) (at_dim cost d))) (last_seen b).

(** [PeerBucket::is_full]. *)
Definition is_full (spec : BudgetSpec) (b : PeerBucket) : bool :=
  forallb (fun '(h, d) => F64.leb (capacity (hspec spec d h)) (cell b d h)) cell_order.

(** ** The quota *)

Record QuotaState := mk_quota {
  buckets : gmap string PeerBucket;
  node : PeerBucket;
  tail : PeerBucket;
  reserved : PeerBucket;
  sync : PeerBucket;
  cohort_affinities : gmap string (bool * Z);
  slot_denials : N;
  refusals_by_budget : QuotaBudget -> N;
  refused_keys : gmap string Z;
}.

Definition peer_spec := for_multiple 1.
Definition node_spec := for_multiple NODE_INGEST_BUDGET_MULTIPLE.
Definition tail_spec := for_multiple UNTRACKED_TAIL_BUDGET_MULTIPLE.
Definition reserved_spec := for_multiple RESERVED_CLASS_BUDGET_MULTIPLE.
Definition sync_spec := for_multiple SYNC_BUDGET_MULTIPLE.

(** [PeerWriteQuota::new]. *)
Definition new_quota (now : Z) : QuotaState :=
  mk_quota ∅ (full node_spec now) (full tail_spec now) (full reserved_spec now)
    (full sync_spec now) ∅ 0 (fun _ => 0%N) ∅.

Definition with_node (x : PeerBucket) (st : QuotaState) : QuotaState :=
  mk_quota (buckets st) x (tail st) (reserved st) (sync st) (cohort_affinities st)
    (slot_denials st) (refusals_by_budget st) (refused_keys st).
Definition with_tail (x : PeerBucket) (st : QuotaState) : QuotaState :=
  mk_quota (buckets st) (node st) x (reserved st) (sync st) (cohort_affinities st)
    (slot_denials st) (refusals_by_budget st) (refused_keys st).
Definition with_reserved (x : PeerBucket) (st : QuotaState) : QuotaState :=
  mk_quota (buckets st) (node st) (tail st) x (sync st) (cohort_affinities st)
    (slot_denials st) (refusals_by_budget st) (refused_keys st).
Definition with_sync (x : PeerBucket) (st : QuotaState) : QuotaState :=
  mk_quota (buckets st) (node st) (tail st) (reserved st) x (cohort_affinities st)
    (slot_denials st) (refusals_by_budget st) (refused_keys st).
Definition with_buckets (x : gmap string PeerBucket) (st : QuotaState) : QuotaState :=
  mk_quota x (node st) (tail st) (reserved st) (sync st) (cohort_affinities st)
    (slot_denials st) (refusals_by_budget st) (refused_keys st).
Definition with_affinities (x : gmap string (bool * Z)) (st : QuotaState) : QuotaState :=
  mk_quota (buckets st) (node st) (tail st) (reserved st) (sync st) x
    (slot_denials st) (refusals_by_budget st) (refused_keys st).
Definition with_denials (x : N) (st : QuotaState) : QuotaState :=
  mk_quota (buckets st) (node st) (tail st) (reserved st) (sync st) (cohort_affinities st)
    x (refusals_by_budget st) (refused_keys st).

(** [HashMap::len]. *)
Definition count_of {V} (m : gmap string V) : N := N.of_nat (size m).

(** [QuotaState::record_refusal]. *)
Definition record_refusal (key_id : string) (budget : QuotaBudget) (now : Z) (st : QuotaState)
    : QuotaState :=
  let kept := filter (fun kv : string * Z =>
                (Z.max 0 (now - snd kv) <= PER_PEER_ATTESTATION_WRITE_WINDOW)%Z)
                (refused_keys st) in
  mk_quota (buckets st) (node st) (tail st) (reserved st) (sync st) (cohort_affinities st)
    (slot_denials st)
    (fun b => (refusals_by_budget st b + if decide (b = budget) then 1 else 0)%N)
    (if bool_decide (is_Some (kept !! key_id)) || (count_of kept <? REFUSED_KEYS_WINDOW_CAP)%N
     then <[key_id := now]> kept else kept).

(** The table as the prune leaves it: the buckets that are not full at [now]. *)
Definition prune (now : Z) (m : gmap string PeerBucket) : gmap string PeerBucket :=
  filter (fun kv : string * PeerBucket =>
            is_full peer_spec (refill peer_spec now (snd kv)) = false) m.

Definition give_bucket (key_id : string) (cost : WriteCost) (now : Z) (st : QuotaState)
    : QuotaState :=
  let table := if (PER_PEER_QUOTA_TRACKED_PEERS_CAP <=? count_of (buckets st))%N
               then prune now (buckets st) else buckets st in
  if (count_of table <? PER_PEER_QUOTA_TRACKED_PEERS_CAP)%N
  then with_buckets (<[key_id := spend cost (full peer_spec now)]> table) st
  else with_denials (slot_denials st + 1) (with_buckets table st).

(** [PeerWriteQuota::charge_locked]. *)
Definition charge_locked (st : QuotaState) (key_id : string) (class : WriteAdmissionClass)
    (cost : WriteCost) (now : Z) : QuotaState * (PeerQuotaRefused + unit) :=
  if decide (class = ReservedClass) then
    let st := with_reserved (refill reserved_spec now (reserved st)) st in
    match refusal reserved_spec Reserved cost (reserved st) with
    | Some refused => (st, inl refused)
    | None => (with_reserved (spend cost (reserved st)) st, inr tt)
    end
  else
  let st := with_node (refill node_spec now (node st)) st in
  match refusal node_spec Node cost (node st) with
  | Some refused => (st, inl refused)
  | None =>
    if decide (class = CohortSyncClass) then
      let st := with_sync (refill sync_spec now (sync st)) st in
      match refusal sync_spec CohortSync cost (sync st) with
      | Some refused => (st, inl refused)
      | None => (with_node (spend cost (node st)) (with_sync (spend cost (sync st)) st), inr tt)
      end
    else if decide (class = LocalAuthorship) then (with_node (spend cost (node st)) st, inr tt)
    else if decide (class = GenesisClaim) then
      let st := with_tail (refill tail_spec now (tail st)) st in
      match refusal tail_spec UntrackedTail cost (tail st) with
      | Some refused => (st, inl refused)
      | None => (with_node (spend cost (node st)) (with_tail (spend cost (tail st)) st), inr tt)
      end
    else match buckets st !! key_id with
    | Some bucket =>
        let bucket := refill peer_spec now bucket in
        let st := with_buckets (<[key_id := bucket]> (buckets st)) st in
        match refusal peer_spec Peer cost bucket with
        | Some refused => (st, inl refused)
        | None =>
            (with_node (spend cost (node st))
               (with_buckets (<[key_id := spend cost bucket]> (buckets st)) st), inr tt)
        end
    | None =>
        let st := with_tail (refill tail_spec now (tail st)) st in
        match refusal tail_spec UntrackedTail cost (tail st) with
        | Some refused => (st, inl refused)
        | None =>
            (give_bucket key_id cost now
               (with_node (spend cost (node st)) (with_tail (spend cost (tail st)) st)), inr tt)
        end
    end
  end.

(** [PeerWriteQuota::charge]. *)
Definition charge (st : QuotaState) (key_id : string) (class : WriteAdmissionClass)
    (cost : WriteCost) (now : Z) : QuotaState * (PeerQuotaRefused + unit) :=
  let '(st', verdict) := charge_locked st key_id class cost now in
  (match verdict with
   | inl refused => record_refusal key_id (refusal_budget (reason refused)) now st'
   | inr _ => st'
   end, verdict).

(** ** The doors *)

(** What the build fixes: the ids of the baked genesis rows, and the compact JSON text that
    [serde_json::to_writer] writes. *)
Class QuotaBuild := {
  genesis_delegation_ids : list string;
  to_writer : Value -> string;
}.

Section Doors.
Context `{QuotaBuild}.

(** [PeerWriteQuota::classify]. *)
Definition classify (row : Attestation) : WriteAdmissionClass :=
  if bool_decide (attestation_id row ∈ genesis_delegation_ids) then GenesisClaim
  else match envelope_dimension (attestation_envelope row) with
  | Some dim => if existsb (fun p => starts_with p dim) RESERVED_CLASS_DIMENSION_PREFIXES
                then ReservedClass else Ordinary
  | None => Ordinary
  end.

(** [envelope_charged_bytes]: the sink counts what is written to it. *)
Definition envelope_charged_bytes (envelope : Value) : N :=
  N.of_nat (String.length (to_writer envelope)).
Definition row_cost (row : Attestation) : WriteCost :=
  for_envelope_bytes (envelope_charged_bytes (attestation_envelope row)).

(** [check_write_typed], [check_write_authored] and [check_write_synced]. *)
Definition check_write (st : QuotaState) (row : Attestation) (now : Z) :=
  charge st (attesting_key_id row) (classify row) (row_cost row) now.
Definition check_write_authored (st : QuotaState) (row : Attestation) (now : Z) :=
  charge st (attesting_key_id row) LocalAuthorship (row_cost row) now.
Definition check_write_synced (st : QuotaState) (row : Attestation) (peer_key_id : string) (now : Z) :=
  charge st peer_key_id CohortSyncClass (row_cost row) now.
End Doors.

(** [PeerWriteQuota::check]. *)
Definition check_key (st : QuotaState) (key_id : string) (now : Z) :=
  charge st key_id Ordinary floor_cost now.

(** [PeerWriteQuota::cohort_affinity] and [remember_cohort_affinity]. *)
Definition cohort_affinity (st : QuotaState) (peer_key_id : string) (now : Z) : option bool :=
  '(shares, at_) ← cohort_affinities st !! peer_key_id;
  if (Z.max 0 (now - at_) <? COHORT_AFFINITY_TTL)%Z then Some shares else None.
Definition remember_cohort_affinity (st : QuotaState) (peer_key_id : string) (shares : bool) (now : Z)
    : QuotaState :=
  let table := if (PER_PEER_QUOTA_TRACKED_PEERS_CAP <=? count_of (cohort_affinities st))%N
               then filter (fun kv : string * (bool * Z) =>
                      (Z.max 0 (now - snd (snd kv)) < COHORT_AFFINITY_TTL)%Z)
                      (cohort_affinities st)
               else cohort_affinities st in
  with_affinities
    (if (count_of table <? PER_PEER_QUOTA_TRACKED_PEERS_CAP)%N
     then <[peer_key_id := (shares, now)]> table else table) st.

(** [PeerWriteQuota::tracked_peers] and [tracks]. *)
Definition tracked_peers (st : QuotaState) : N := count_of (buckets st).
Definition tracks (st : QuotaState) (key_id : string) : bool :=
  bool_decide (is_Some (buckets st !! key_id)).
(** [observe], its count of refused keys. *)
Definition refused_keys_in_window (st : QuotaState) (now : Z) : N :=
  count_of (filter (fun kv : string * Z =>
    (Z.max 0 (now - snd kv) <= PER_PEER_ATTESTATION_WRITE_WINDOW)%Z) (refused_keys st)).

(** ** Concrete runs *)

Fixpoint charge_n (n : nat) (st : QuotaState) (now : Z) : QuotaState * N :=
  match n with
  | O => (st, 0%N)
  | S n => let '(st', v) := check_key st "peer-a" now in
           let '(st'', k) := charge_n n st' now in
           (st'', match v with inr _ => k + 1 | inl _ => k end)%N
  end.

Example six_hundred_and_one : snd (charge_n 610 (new_quota 0) 0) = 600%N.
Proof. vm_compute. reflexivity. Qed.
Example ten_more_a_second_later :
  snd (charge_n 20 (fst (charge_n 610 (new_quota 0) 0)) NANOS) = 10%N.
Proof. vm_compute. reflexivity. Qed.
