(* ===== verification/QuotaFacts.v ===== *)
(** * What the write quota promises

    Theorems on [Quota]: which budgets a write pays from and what a refusal costs, the
    isolation of the reserve and of every peer's own bucket, the bounds of the tables, and
    what one instant can cost a node. *)

From Stdlib Require Import ZArith NArith Lia.
From stdpp Require Import base list strings gmap.
From S2P Require Import Prelude RustStd Json Precedence Quota.

Open Scope string_scope.
Open Scope list_scope.
Open Scope persist_scope.

(** ** The abstract specification of a charge *)

Definition spec_of (b : QuotaBudget) : BudgetSpec :=
  match b with
  | Peer => peer_spec | UntrackedTail => tail_spec | Node => node_spec
  | Reserved => reserved_spec | CohortSync => sync_spec
  end.

Definition bucket_of (st : QuotaState) (key : string) (b : QuotaBudget) : option PeerBucket :=
  match b with
  | Peer => buckets st !! key
  | UntrackedTail => Some (tail st) | Node => Some (node st)
  | Reserved => Some (reserved st) | CohortSync => Some (sync st)
  end.

(** The budgets a write is charged against, in the order they are asked. *)
Definition payers (st : QuotaState) (key : string) (class : WriteAdmissionClass) : list QuotaBudget :=
  match class with
  | ReservedClass => [Reserved]
  | CohortSyncClass => [Node; CohortSync]
  | LocalAuthorship => [Node]
  | GenesisClaim => [Node; UntrackedTail]
  | Ordinary => [Node; if tracks st key then Peer else UntrackedTail]
  end.

Definition ready (st : QuotaState) (key : string) (now : Z) (b : QuotaBudget) : option PeerBucket :=
  refill (spec_of b) now <$> bucket_of st key b.

Definition first_refusal (st : QuotaState) (key : string) (cost : WriteCost) (now : Z)
    (bs : list QuotaBudget) : option PeerQuotaRefused :=
  head (omap (fun b => ready st key now b ≫= refusal (spec_of b) b cost) bs).

Lemma tracks_lookup st key : tracks st key = match buckets st !! key with Some _ => true | None => false end.
Proof. unfold tracks. destruct (buckets st !! key); [by apply bool_decide_eq_true_2|]. by apply bool_decide_eq_false_2; intros [??]. Qed.

Ltac step_charge :=
  unfold charge_locked; repeat (rewrite decide_True by done || rewrite decide_False by done); simpl.

(** Split every refusal and lookup a charge asks for. *)
Ltac charge_cases :=
  repeat match goal with
  | |- context [match refusal ?s ?b ?c ?x with _ => _ end] => destruct (refusal s b c x) eqn:?
  | |- context [match ?m !! ?k with _ => _ end] => destruct (m !! k) eqn:?
  end.

Lemma charge_locked_verdict st key class cost now :
  snd (charge_locked st key class cost now) =
  match first_refusal st key cost now (payers st key class) with
  | Some r => inl r | None => inr tt
  end.
Proof.
  unfold first_refusal; destruct class; step_charge; rewrite ?tracks_lookup;
    charge_cases; unfold ready; simpl; simplify_option_eq; try done;
    rewrite ?Heqo, ?Heqo0, ?Heqo1 in *; simpl; simplify_option_eq; done.
Qed.

Lemma charge_locked_refused st key class cost now r b :
  snd (charge_locked st key class cost now) = inl r ->
  let st' := fst (charge_locked st key class cost now) in
  (bucket_of st' key b = bucket_of st key b \/ bucket_of st' key b = ready st key now b)
  /\ (forall k, k <> key -> buckets st' !! k = buckets st !! k) /\ slot_denials st' = slot_denials st.
Proof.
  destruct class; step_charge; charge_cases; simpl; intros Hr; try discriminate Hr;
    (split; [destruct b; unfold ready; simpl; auto; simplify_map_eq; auto
            | split; [intros; by simplify_map_eq | done]]).
Qed.

(** What an admitted write leaves: each budget it pays from one write poorer, every other
    budget as it was, and at first contact a bucket of its own. *)
Definition paid (st st' : QuotaState) (key : string) (class : WriteAdmissionClass)
    (cost : WriteCost) (now : Z) : Prop :=
  (forall b, b ∈ payers st key class -> bucket_of st' key b = spend cost <$> ready st key now b) /\
  (forall b, b ∉ payers st key class -> b <> Peer -> bucket_of st' key b = bucket_of st key b) /\
  (class <> Ordinary -> buckets st' = buckets st /\ slot_denials st' = slot_denials st) /\
  (class = Ordinary ->
    (forall k, k <> key -> buckets st' !! k = buckets st !! k
       \/ exists x, buckets st !! k = Some x /\ buckets st' !! k = None
          /\ is_full peer_spec (refill peer_spec now x) = true) /\
    (tracks st key = false ->
       (buckets st' !! key = Some (spend cost (full peer_spec now)) /\ slot_denials st' = slot_denials st)
       \/ (buckets st' !! key = None /\ slot_denials st' = slot_denials st + 1)%N)) /\
  (class = Ordinary -> tracks st key = true -> slot_denials st' = slot_denials st).

Lemma prune_lookup now m k :
  prune now m !! k = m !! k \/ exists x, m !! k = Some x /\ prune now m !! k = None
    /\ is_full peer_spec (refill peer_spec now x) = true.
Proof.
  unfold prune. destruct (m !! k) as [x|] eqn:E.
  - destruct (is_full peer_spec (refill peer_spec now x)) eqn:F.
    + right. exists x. split_and!; [done| |done]. apply map_lookup_filter_None. right.
      intros y Hy. simpl. rewrite E in Hy. injection Hy as <-. by rewrite F.
    + left. by apply map_lookup_filter_Some.
  - left. apply map_lookup_filter_None. by left.
Qed.

Lemma give_bucket_frame key cost now st :
  let st' := give_bucket key cost now st in
  node st' = node st /\ tail st' = tail st /\ reserved st' = reserved st /\ sync st' = sync st
  /\ cohort_affinities st' = cohort_affinities st /\ refused_keys st' = refused_keys st
  /\ refusals_by_budget st' = refusals_by_budget st.
Proof. unfold give_bucket. simpl. by case_if. Qed.

Lemma give_bucket_lookup key cost now st k :
  k <> key ->
  buckets (give_bucket key cost now st) !! k = buckets st !! k
  \/ exists x, buckets st !! k = Some x /\ buckets (give_bucket key cost now st) !! k = None
     /\ is_full peer_spec (refill peer_spec now x) = true.
Proof.
  intros Hk. unfold give_bucket. destruct (_ <=? _)%N; case_if; simpl; rewrite ?lookup_insert_ne by done;
    auto using prune_lookup.
Qed.

Lemma give_bucket_own key cost now st :
  buckets st !! key = None ->
  let st' := give_bucket key cost now st in
  (buckets st' !! key = Some (spend cost (full peer_spec now)) /\ slot_denials st' = slot_denials st)
  \/ (buckets st' !! key = None /\ slot_denials st' = slot_denials st + 1)%N.
Proof.
  intros Hk. unfold give_bucket; simpl.
  assert (Hp : prune now (buckets st) !! key = None).
  { destruct (prune_lookup now (buckets st) key) as [->|(x & Hx & _)]; [done|congruence]. }
  destruct (_ <=? _)%N; destruct (count_of _ <? _)%N; simpl;
    try (left; by rewrite lookup_insert_eq); by right.
Qed.

Lemma charge_locked_paid st key class cost now :
  snd (charge_locked st key class cost now) = inr tt ->
  paid st (fst (charge_locked st key class cost now)) key class cost now.
Proof.
  unfold paid. destruct class; step_charge; rewrite ?tracks_lookup; charge_cases; simpl;
    intros Hr; try discriminate Hr;
    try match goal with
    | |- context [give_bucket ?k ?c ?n ?s] =>
        pose proof (give_bucket_frame k c n s) as (Hn & Ht & Hrs & Hsy & _);
        pose proof (give_bucket_lookup k c n s) as Hother;
        pose proof (give_bucket_own k c n s) as Hown; simpl in *
    end;
    split_and!; intros;
    repeat match goal with
    | H : ?b ∈ _ |- _ => revert H; rewrite ?elem_of_cons, ?elem_of_nil; intros H
    | H : _ ∉ _ |- _ => revert H; rewrite ?elem_of_cons, ?elem_of_nil; intros H
    end;
    try (destruct b); unfold ready in *; simpl in *;
    repeat match goal with
    | H : _ \/ _ |- _ => destruct H
    | H : ~ (_ \/ _) |- _ => apply Decidable.not_or in H as [??]
    end; try congruence; try done; simplify_map_eq; try congruence; auto.
  all: try (left; by simplify_map_eq).
  all: split; [intros k Hk; left; by simplify_map_eq | done].
Qed.

(** ** A charge, against its specification *)

Lemma charge_verdict st key class cost now :
  snd (charge st key class cost now) = snd (charge_locked st key class cost now).
Proof. unfold charge. by destruct (charge_locked _ _ _ _ _) as [? [?|[]]]. Qed.

Lemma charge_state st key class cost now :
  fst (charge st key class cost now) =
  match snd (charge_locked st key class cost now) with
  | inl r => record_refusal key (refusal_budget (reason r)) now (fst (charge_locked st key class cost now))
  | inr _ => fst (charge_locked st key class cost now)
  end.
Proof. unfold charge. by destruct (charge_locked _ _ _ _ _) as [? [?|[]]]. Qed.

Lemma charge_spec (st : QuotaState) (key : string) (class : WriteAdmissionClass)
    (cost : WriteCost) (now : Z) :
  let st' := fst (charge st key class cost now) in
  match first_refusal st key cost now (payers st key class) with
  | None => snd (charge st key class cost now) = inr tt /\ paid st st' key class cost now
  | Some r =>
      snd (charge st key class cost now) = inl r
      /\ (forall b, bucket_of st' key b = bucket_of st key b \/ bucket_of st' key b = ready st key now b)
      /\ (forall k, k <> key -> buckets st' !! k = buckets st !! k)
      /\ slot_denials st' = slot_denials st
  end.
Proof.
  pose proof (charge_locked_verdict st key class cost now) as Hv.
  rewrite charge_verdict, charge_state. destruct (first_refusal _ _ _ _ _) as [r|]; rewrite Hv.
  - split; [done|].
    pose proof (fun b => charge_locked_refused st key class cost now r b Hv) as Hr. simpl in Hr |- *.
    split; [|split; [by apply (Hr Node)|by apply (Hr Node)]].
    intros b. destruct (Hr b) as [Hb _]. by destruct b.
  - split; [done|]. by apply charge_locked_paid.
Qed.

Lemma payer_has_bucket st key class b : b ∈ payers st key class -> is_Some (bucket_of st key b).
Proof.
  unfold payers. rewrite tracks_lookup. destruct class, b; simpl; rewrite ?elem_of_cons, ?elem_of_nil; eauto; try naive_solver.
  destruct (buckets st !! key); [eauto|naive_solver].
Qed.

(** ** The same, in tokens *)

(** The tokens a budget has at an instant: what it had, and its rate since, up to its capacity. *)
Definition level (st : QuotaState) (key : string) (now : Z) (b : QuotaBudget) (d : QuotaDimension) (h : QuotaHorizon)
    : option F64.t :=
  x ← bucket_of st key b;
  let s := hspec (spec_of b) d h in
  Some (F64.min (F64.add (cell x d h) (F64.mul (as_secs_f64 (Z.max 0 (now - last_seen x))) (per_second s))) (capacity s)).
(** The cost is more than they are. *)
Definition short (st : QuotaState) (key : string) (cost : WriteCost) (now : Z) (b : QuotaBudget) (d : QuotaDimension)
    (h : QuotaHorizon) : bool :=
  match level st key now b d h with Some x => F64.ltb x (at_dim cost d) | None => false end.
(** What is asked of the budgets, in order. *)
Definition asked (bs : list QuotaBudget) : list (QuotaBudget * QuotaDimension * QuotaHorizon) :=
  flat_map (fun b => [(b, Rows, Burst); (b, Bytes, Burst); (b, Rows, Sustained); (b, Bytes, Sustained)]) bs.

Lemma asked_In bs b d h : (b, d, h) ∈ asked bs <-> b ∈ bs.
Proof.
  rewrite !list_elem_of_In. unfold asked. rewrite in_flat_map. split.
  - intros (x & Hx & Hin). cbn [In] in Hin. naive_solver.
  - intros Hb. exists b. split; [done|]. cbn [In]. destruct d, h; auto.
Qed.

Lemma cell_refill spec now x d h :
  cell (refill spec now x) d h =
  F64.min (F64.add (cell x d h) (F64.mul (as_secs_f64 (Z.max 0 (now - last_seen x))) (per_second (hspec spec d h))))
    (capacity (hspec spec d h)).
Proof. by destruct d, h. Qed.
Lemma cell_spend cost x d h : cell (spend cost x) d h = F64.sub (cell x d h) (at_dim cost d).
Proof. by destruct d, h. Qed.
Lemma cell_full spec now d h : cell (full spec now) d h = capacity (hspec spec d h).
Proof. by destruct d, h. Qed.
Lemma is_full_cells spec x :
  is_full spec x = true -> forall d h, F64.leb (capacity (hspec spec d h)) (cell x d h) = true.
Proof.
  unfold is_full. rewrite forallb_forall. intros Hf d h. apply (Hf (h, d)). unfold cell_order. cbn [In]. destruct d, h; auto.
Qed.

Lemma ready_level st key now b d h : level st key now b d h = (fun x => cell x d h) <$> ready st key now b.
Proof. unfold level, ready. destruct (bucket_of st key b); simpl; [by rewrite cell_refill|done]. Qed.

(** How one question is refused. *)
Definition shortage (st : QuotaState) (key : string) (cost : WriteCost) (now : Z)
    (q : QuotaBudget * QuotaDimension * QuotaHorizon) : option PeerQuotaRefused :=
  let '(b, d, h) := q in
  x ← level st key now b d h;
  if F64.ltb x (at_dim cost d)
  then Some (mk_refused (refusal_of b d h)
         (F64.to_u64 (F64.max (F64.ceil (F64.div (F64.sub (at_dim cost d) x) (per_second (hspec (spec_of b) d h)))) F64.one)))
  else None.

Lemma head_omap_app {A B} (f : A -> option B) l k :
  head (omap f (l ++ k)) = match head (omap f l) with Some y => Some y | None => head (omap f k) end.
Proof. rewrite omap_app. by destruct (omap f l). Qed.

Lemma head_omap_first {A B} (f : A -> option B) l y :
  head (omap f l) = Some y -> exists l1 x l2, l = l1 ++ x :: l2 /\ (forall z, z ∈ l1 -> f z = None) /\ f x = Some y.
Proof.
  induction l as [|a l IH]; [done|]. csimpl. destruct (f a) as [b|] eqn:Ea; simpl.
  - intros [= ->]. exists [], a, l. split_and!; [done| |done]. intros z Hz. by apply elem_of_nil in Hz.
  - intros (l1 & x & l2 & -> & H1 & H2)%IH. exists (a :: l1), x, l2. split_and!; [done| |done].
    intros z [->|Hz]%elem_of_cons; auto.
Qed.

Lemma head_omap_none {A B} (f : A -> option B) l : head (omap f l) = None <-> forall x, x ∈ l -> f x = None.
Proof.
  induction l as [|a l IH]; [split; [intros _ x Hx; by apply elem_of_nil in Hx|done]|].
  csimpl. destruct (f a) as [b|] eqn:Ea; simpl.
  - split; [done|]. intros H. rewrite (H a) in Ea; [done|]. apply elem_of_cons. by left.
  - rewrite IH. split; [intros H x [->|Hx]%elem_of_cons; auto|]. intros H x Hx. apply H, elem_of_cons. by right.
Qed.

Lemma first_refusal_asked st key cost now bs :
  first_refusal st key cost now bs = head (omap (shortage st key cost now) (asked bs)).
Proof.
  unfold first_refusal. induction bs as [|b bs IH]; [done|].
  cbn [asked flat_map]. fold (asked bs). rewrite head_omap_app, <- IH. csimpl.
  unfold level, ready, refusal, shortage, retry_after. destruct (bucket_of st key b) as [x|]; simpl; [|done].
  unfold level. repeat (case_match; simpl; try done).
Qed.

(** C16. A charge, in tokens. At its instant each budget of a write has what it had and its
    rate since, up to its capacity, in each dimension on each horizon. A write is admitted
    exactly when no budget its class pays from is short of the cost in any of them; the refusal
    of another names the first shortage (budget by budget, burst before sustained, rows
    before bytes) and the seconds until it is made up, at least one. An admitted write leaves
    every budget it pays from at that instant with the cost taken once from each count, every
    other shared budget as it was, and of the peers' buckets only its own changed, or others
    dropped that were full; at first contact an ordinary writer gets a full bucket less the
    cost, or is denied a slot and counted. A refused write takes nothing from anyone: each
    budget is as it was or as it is at that instant. *)
Theorem charge_exact (st : QuotaState) (key : string) (class : WriteAdmissionClass) (cost : WriteCost) (now : Z) :
  let st' := fst (charge st key class cost now) in
  let verdict := snd (charge st key class cost now) in
  let have := level st key now in
  let pays := payers st key class in
  (verdict = inr tt <-> forall b d h, b ∈ pays -> short st key cost now b d h = false) /\
  (forall r, verdict = inl r -> exists first b d h later x,
     asked pays = first ++ (b, d, h) :: later /\ (forall b' d' h', (b', d', h') ∈ first -> short st key cost now b' d' h' = false) /\
     have b d h = Some x /\ F64.ltb x (at_dim cost d) = true /\ reason r = refusal_of b d h /\
     retry_after_seconds r
     = F64.to_u64 (F64.max (F64.ceil (F64.div (F64.sub (at_dim cost d) x) (per_second (hspec (spec_of b) d h)))) F64.one)) /\
  (verdict = inr tt ->
     (forall b, b ∈ pays -> exists y, bucket_of st' key b = Some y /\ last_seen y = now /\
        forall d h, exists x, have b d h = Some x /\ cell y d h = F64.sub x (at_dim cost d)) /\
     (forall b, b ∉ pays -> b <> Peer -> bucket_of st' key b = bucket_of st key b) /\
     (class <> Ordinary -> buckets st' = buckets st /\ slot_denials st' = slot_denials st) /\
     (forall k, k <> key -> buckets st' !! k = buckets st !! k \/
        (buckets st' !! k = None /\ forall d h, exists x, level st k now Peer d h = Some x /\
           F64.leb (capacity (hspec peer_spec d h)) x = true)) /\
     (class = Ordinary -> buckets st !! key = None ->
        (exists y, buckets st' !! key = Some y /\ last_seen y = now /\ slot_denials st' = slot_denials st /\
           forall d h, cell y d h = F64.sub (capacity (hspec peer_spec d h)) (at_dim cost d)) \/
        (buckets st' !! key = None /\ slot_denials st' = slot_denials st + 1)%N)) /\
  (forall r, verdict = inl r ->
     (forall b, bucket_of st' key b = bucket_of st key b \/
        exists y, bucket_of st' key b = Some y /\ last_seen y = now /\ forall d h, have b d h = Some (cell y d h)) /\
     (forall k, k <> key -> buckets st' !! k = buckets st !! k) /\ slot_denials st' = slot_denials st).
Proof.
  intros st' verdict have pays. pose proof (charge_spec st key class cost now) as Hspec.
  fold st' pays in Hspec. fold verdict in Hspec. rewrite first_refusal_asked in Hspec.
  assert (Hshort : forall b d h, shortage st key cost now (b, d, h) = None <-> short st key cost now b d h = false).
  { intros b d h. unfold shortage, short. destruct (level st key now b d h) as [x|]; simpl; [|done].
    by destruct (F64.ltb x _). }
  destruct (head (omap _ (asked pays))) as [r|] eqn:Eh.
  - destruct Hspec as (Hv & Hb & Hk & Hd).
    destruct (head_omap_first _ _ _ Eh) as (l1 & [[b d] h] & l2 & El & H1 & H2).
    split_and!.
    + rewrite Hv. split; [done|]. intros Hall. exfalso.
      rewrite (proj2 (Hshort b d h)) in H2; [done|]. apply Hall, (asked_In pays b d h). rewrite El.
      apply elem_of_app. right. apply elem_of_cons. by left.
    + rewrite Hv. intros r' [= <-]. unfold shortage in H2. destruct (level st key now b d h) as [x|] eqn:Ex; simpl in H2; [|done].
      destruct (F64.ltb x (at_dim cost d)) eqn:El'; [|done]. injection H2 as <-. exists l1, b, d, h, l2, x.
      split_and!; try done. intros b' d' h' Hin. by apply Hshort, H1.
    + by rewrite Hv.
    + intros _ _. split_and!; [|done|done]. intros b'. destruct (Hb b') as [|Hr]; [by left|].
      destruct (bucket_of st' key b') as [y|] eqn:Ey; [|left].
      * right. exists y. split; [done|].
        split; [unfold ready in Hr; destruct (bucket_of st key b'); simpl in Hr; [by injection Hr as ->|done]|].
        intros d' h'. unfold have. by rewrite ready_level, <- Hr.
      * unfold ready in Hr. by destruct (bucket_of st key b').
  - destruct Hspec as (Hv & Hp & Ho & Hc & Hord & _). split_and!; [..|by rewrite Hv].
    + split; [intros _ b d h Hb|done]. apply Hshort. apply (proj1 (head_omap_none _ _) Eh). by apply asked_In.
    + by rewrite Hv.
    + intros _. split_and!; [|done|done| |].
      * intros b Hb. rewrite (Hp b Hb). unfold have. unfold ready.
        assert (Hbk : is_Some (bucket_of st key b)) by (by apply (payer_has_bucket st key class)).
        destruct Hbk as [x Hx]. rewrite Hx. simpl. eexists. split; [done|]. split; [done|]. intros d h.
        eexists. split; [unfold level; rewrite Hx; simpl; done|]. by rewrite cell_spend, cell_refill.
      * intros k Hk. destruct (decide (class = Ordinary)) as [Ec|Ec].
        -- destruct (Hord Ec) as [Hother _]. destruct (Hother k Hk) as [|(x & Hx & Hn & Hf)]; [by left|right].
           split; [done|]. intros d h. pose proof (is_full_cells _ _ Hf d h) as Hfull. rewrite cell_refill in Hfull.
           unfold level, bucket_of. rewrite Hx. simpl. eauto.
        -- left. by destruct (Hc Ec) as [-> _].
      * intros Ec Hn. destruct (Hord Ec) as [_ Hown]. rewrite tracks_lookup, Hn in Hown.
        destruct (Hown eq_refl) as [[Hy Hs]|]; [left|by right]. eexists. split_and!; [exact Hy|done|done|].
        intros d h. by rewrite cell_spend, cell_full.
Qed.

(** ** Runs *)

Record Write := mk_write { w_key : string; w_class : WriteAdmissionClass; w_cost : WriteCost; w_now : Z }.
Notation verdict := (PeerQuotaRefused + unit)%type.
Definition charge_write (st : QuotaState) (w : Write) : QuotaState * verdict :=
  charge st (w_key w) (w_class w) (w_cost w) (w_now w).
Fixpoint run (st : QuotaState) (ws : list Write) : list (Write * verdict) :=
  match ws with
  | [] => []
  | w :: ws => (w, snd (charge_write st w)) :: run (fst (charge_write st w)) ws
  end.
Definition after (st : QuotaState) (ws : list Write) : QuotaState :=
  fold_left (fun st w => fst (charge_write st w)) ws st.
Definition is_reserved (w : Write) : bool := bool_decide (w_class w = ReservedClass).

(** The part of the state that ordinary traffic reads. *)
Definition commons (st : QuotaState) :=
  (buckets st, node st, tail st, sync st).

Lemma reserved_reads st1 st2 w :
  is_reserved w = true -> reserved st1 = reserved st2 ->
  snd (charge_write st1 w) = snd (charge_write st2 w)
  /\ reserved (fst (charge_write st1 w)) = reserved (fst (charge_write st2 w))
  /\ commons (fst (charge_write st1 w)) = commons st1.
Proof.
  intros Hw Hr. apply bool_decide_eq_true in Hw. unfold charge_write, charge, charge_locked.
  rewrite Hw, !decide_True by done. simpl. rewrite Hr.
  by destruct (refusal reserved_spec Reserved (w_cost w) _).
Qed.

Lemma give_bucket_commons key cost now st1 st2 :
  commons st1 = commons st2 ->
  commons (give_bucket key cost now st1) = commons (give_bucket key cost now st2).
Proof.
  unfold commons. intros [= Hb Hn Ht Hs]. unfold give_bucket. rewrite Hb.
  case_if; simpl; congruence.
Qed.

Lemma commons_reads st1 st2 w :
  is_reserved w = false -> commons st1 = commons st2 ->
  snd (charge_write st1 w) = snd (charge_write st2 w)
  /\ commons (fst (charge_write st1 w)) = commons (fst (charge_write st2 w))
  /\ reserved (fst (charge_write st1 w)) = reserved st1.
Proof.
  intros Hw Hc. apply bool_decide_eq_false in Hw. pose proof Hc as [= Hb Hn Ht Hs].
  unfold charge_write. rewrite !charge_verdict, !charge_state. destruct (w_class w) eqn:E; [|done| | |]; step_charge;
    rewrite <- ?Hb, <- ?Hn, <- ?Ht, <- ?Hs; charge_cases; simpl;
    try (unfold commons; simpl; split_and!; congruence).
  split_and!; [done| |by rewrite (proj1 (proj2 (proj2 (give_bucket_frame _ _ _ _))))].
  apply give_bucket_commons. unfold commons; simpl; congruence.
Qed.

(** C17. The reserve and the commons do not see each other: in any run of writes, the verdicts on
    the reserved writes are those of the reserved writes alone, and the verdicts on all
    others are those of the others alone. No flood of ordinary traffic refuses an accord or
    objection row, and no flood of reserved rows refuses anything else. *)
Theorem reserve_isolated (st : QuotaState) (ws : list Write) :
  List.filter (fun p => is_reserved (fst p)) (run st ws) = run st (List.filter is_reserved ws) /\
  List.filter (fun p => negb (is_reserved (fst p))) (run st ws)
  = run st (List.filter (fun w => negb (is_reserved w)) ws).
Proof.
  split.
  - assert (H : forall st1 st2, reserved st1 = reserved st2 ->
      List.filter (fun p => is_reserved (fst p)) (run st1 ws) = run st2 (List.filter is_reserved ws)).
    { induction ws as [|w ws IH]; intros st1 st2 Hr; [done|]. simpl.
      destruct (is_reserved w) eqn:E; simpl.
      - destruct (reserved_reads st1 st2 w E Hr) as (-> & Hr' & _). f_equal. by apply IH.
      - destruct (commons_reads st1 st1 w E eq_refl) as (_ & _ & Hr'). apply IH. congruence. }
    by apply H.
  - assert (H : forall st1 st2, commons st1 = commons st2 ->
      List.filter (fun p => negb (is_reserved (fst p))) (run st1 ws)
      = run st2 (List.filter (fun w => negb (is_reserved w)) ws)).
    { induction ws as [|w ws IH]; intros st1 st2 Hc; [done|]. simpl.
      destruct (is_reserved w) eqn:E; simpl.
      - destruct (reserved_reads st1 st1 w E eq_refl) as (_ & _ & Hc'). apply IH. congruence.
      - destruct (commons_reads st1 st2 w E Hc) as (-> & Hc' & _). f_equal. by apply IH. }
    by apply H.
Qed.

(** ** Nobody else's writes drain a peer's bucket *)

Lemma bucket_kept st w k :
  w_key w <> k ->
  let st' := fst (charge_write st w) in
  buckets st' !! k = buckets st !! k
  \/ exists x, buckets st !! k = Some x /\ buckets st' !! k = None
     /\ is_full peer_spec (refill peer_spec (w_now w) x) = true.
Proof.
  intros Hk. unfold charge_write. pose proof (charge_spec st (w_key w) (w_class w) (w_cost w) (w_now w)) as H.
  simpl in *. destruct (first_refusal _ _ _ _ _) as [r|].
  - destruct H as (_ & _ & H & _). left. by apply H.
  - destruct H as (_ & _ & _ & Hno & Hyes & _).
    destruct (decide (w_class w = Ordinary)) as [Ho|Ho].
    + destruct (Hyes Ho) as [H _]. by apply H.
    + left. exact (f_equal (fun m => m !! k) (proj1 (Hno Ho))).
Qed.

(** C18. Whatever others write, in whatever class and at whatever times, a peer's bucket is either
    untouched or was dropped at an instant when it stood at full allowance, which is what a
    fresh bucket holds. *)
Theorem others_cannot_drain (st : QuotaState) (ws : list Write) (k : string)
    (Hothers : forall w, In w ws -> w_key w <> k) (x : PeerBucket)
    (Hx : buckets st !! k = Some x) :
  buckets (after st ws) !! k = Some x
  \/ buckets (after st ws) !! k = None
     /\ exists w, In w ws /\ is_full peer_spec (refill peer_spec (w_now w) x) = true.
Proof.
  assert (Hnone : forall ws st, (forall w, In w ws -> w_key w <> k) -> buckets st !! k = None ->
    buckets (after st ws) !! k = None).
  { clear. induction ws as [|w ws IH]; intros st Ho Hn; [done|]. apply IH; [auto using in_cons|].
    destruct (bucket_kept st w k (Ho w (in_eq _ _))) as [->|(x & Hx & _)]; [done|congruence]. }
  revert st Hx. induction ws as [|w ws IH]; intros st Hx; [by left|]. simpl.
  destruct (bucket_kept st w k (Hothers w (in_eq _ _))) as [E|(y & Hy & Hn & Hf)].
  - destruct (IH ltac:(auto using in_cons) (fst (charge_write st w)) ltac:(congruence)) as [?|(? & v & ? & ?)];
      [by left|right; split; [done|]; exists v; auto using in_cons].
  - right. split; [apply Hnone; auto using in_cons|]. exists w. split; [by left|].
    by replace x with y by congruence.
Qed.

(** ** The tables are bounded *)

Lemma count_insert {V} (m : gmap string V) k v (n : N) :
  (count_of m < n)%N -> (count_of (<[k := v]> m) <= n)%N.
Proof.
  unfold count_of. intros H. destruct (m !! k) eqn:E.
  - rewrite map_size_insert_Some by (by eexists). lia.
  - rewrite map_size_insert_None by done. lia.
Qed.

Lemma count_overwrite {V} (m : gmap string V) k v :
  is_Some (m !! k) -> count_of (<[k := v]> m) = count_of m.
Proof. intros H. unfold count_of. by rewrite map_size_insert_Some. Qed.

Lemma count_filter {V} (P : string * V -> Prop) `{!forall x, Decision (P x)} (m : gmap string V) :
  (count_of (filter P m) <= count_of m)%N.
Proof. unfold count_of. pose proof (map_size_filter P m). lia. Qed.

Record bounded (st : QuotaState) : Prop := {
  bounded_peers : (tracked_peers st <= PER_PEER_QUOTA_TRACKED_PEERS_CAP)%N;
  bounded_refused : (count_of (refused_keys st) <= REFUSED_KEYS_WINDOW_CAP)%N;
  bounded_affinity : (count_of (cohort_affinities st) <= PER_PEER_QUOTA_TRACKED_PEERS_CAP)%N;
}.

Lemma give_bucket_bounded key cost now st :
  (tracked_peers st <= PER_PEER_QUOTA_TRACKED_PEERS_CAP)%N ->
  (tracked_peers (give_bucket key cost now st) <= PER_PEER_QUOTA_TRACKED_PEERS_CAP)%N.
Proof.
  unfold tracked_peers, give_bucket, prune. intros H.
  set (table := if (_ <=? _)%N then _ else _).
  assert (Ht : (count_of table <= PER_PEER_QUOTA_TRACKED_PEERS_CAP)%N).
  { subst table. case_if; [|done]. etrans; [apply count_filter|done]. }
  case_if; simpl; [|done]. apply count_insert. by apply N.ltb_lt.
Qed.

Lemma charge_locked_bounded st key class cost now :
  bounded st -> bounded (fst (charge_locked st key class cost now)).
Proof.
  intros [Hp Hr Ha]. destruct class; step_charge; charge_cases; simpl; try (by constructor);
    try (constructor; simpl; [|done..]; unfold tracked_peers in *; simpl;
         repeat (rewrite count_overwrite by (rewrite ?lookup_insert_eq; eauto)); done).
  pose proof (give_bucket_frame key cost now (with_node (spend cost (refill node_spec now (node st)))
    (with_tail (spend cost (refill tail_spec now (tail st))) (with_tail (refill tail_spec now (tail st))
    (with_node (refill node_spec now (node st)) st))))) as (_ & _ & _ & _ & Hca & Hrk & _).
  simpl in Hca, Hrk. constructor; rewrite ?Hca, ?Hrk; [by apply give_bucket_bounded|done..].
Qed.

Lemma record_refusal_bounded key b now st : bounded st -> bounded (record_refusal key b now st).
Proof.
  intros [Hp Hr Ha]. constructor; simpl; [done| |done].
  set (kept := filter _ _).
  assert (Hk : (count_of kept <= REFUSED_KEYS_WINDOW_CAP)%N) by (etrans; [apply count_filter|done]).
  destruct (kept !! key) eqn:E.
  - rewrite bool_decide_eq_true_2 by done. simpl. rewrite count_overwrite by done. done.
  - rewrite bool_decide_eq_false_2 by (intros [??]; congruence). simpl.
    case_if; [|done]. apply count_insert. by apply N.ltb_lt.
Qed.

(** The operations that change the quota. *)
Inductive QuotaOp :=
| OpCharge (w : Write)
| OpRemember (peer_key_id : string) (shares : bool) (now : Z).
Definition quota_step (st : QuotaState) (op : QuotaOp) : QuotaState :=
  match op with
  | OpCharge w => fst (charge_write st w)
  | OpRemember k s now => remember_cohort_affinity st k s now
  end.

(** Whatever the wire sends, and in whatever order, the three tables keyed by unauthenticated
    identities stay within their caps. *)
Theorem quota_bounded (t0 : Z) (ops : list QuotaOp) :
  bounded (fold_left quota_step ops (new_quota t0)).
Proof.
  apply (fold_left_inv bounded); [by constructor|].
  intros st [w|k s now] _ Hb; simpl.
  - unfold charge_write. rewrite charge_state. destruct (snd _) as [r|[]];
      [apply record_refusal_bounded|]; by apply charge_locked_bounded.
  - destruct Hb as [Hp Hr Ha]. unfold remember_cohort_affinity. constructor; simpl; [done..|].
    set (table := if (_ <=? _)%N then _ else _).
    assert (Ht : (count_of table <= PER_PEER_QUOTA_TRACKED_PEERS_CAP)%N).
    { subst table. destruct (_ <=? _)%N; [|done]. etrans; [apply count_filter|done]. }
    destruct (count_of table <? _)%N eqn:E; [|done]. apply count_insert. by apply N.ltb_lt.
Qed.

(** ** Refusals are counted *)

Definition refused_by (b : QuotaBudget) (v : verdict) : bool :=
  match v with inl r => bool_decide (b = refusal_budget (reason r)) | inr _ => false end.

Lemma charge_locked_counters st key class cost now :
  refusals_by_budget (fst (charge_locked st key class cost now)) = refusals_by_budget st.
Proof.
  destruct class; step_charge; charge_cases; simpl; try done.
  pose proof (give_bucket_frame key cost now (with_node (spend cost (refill node_spec now (node st)))
    (with_tail (spend cost (refill tail_spec now (tail st))) (with_tail (refill tail_spec now (tail st))
    (with_node (refill node_spec now (node st)) st))))) as (_ & _ & _ & _ & _ & _ & H).
  exact H.
Qed.

(** Each counter holds the number of refused writes of its budget, no more and no fewer. *)
Theorem refusals_counted (t0 : Z) (ws : list Write) (b : QuotaBudget) :
  refusals_by_budget (after (new_quota t0) ws) b
  = len (List.filter (fun p => refused_by b (snd p)) (run (new_quota t0) ws)).
Proof.
  assert (H : forall st, refusals_by_budget (after st ws) b =
    (refusals_by_budget st b + len (List.filter (fun p => refused_by b (snd p)) (run st ws)))%N).
  { induction ws as [|w ws IH]; intros st; simpl; [rewrite len_nil; lia|].
    rewrite IH. unfold charge_write. rewrite charge_verdict, charge_state.
    pose proof (charge_locked_counters st (w_key w) (w_class w) (w_cost w) (w_now w)) as Hc.
    destruct (charge_locked st (w_key w) (w_class w) (w_cost w) (w_now w)) as [st1 [r|u]]; simpl in *.
    - rewrite Hc. destruct (decide (b = refusal_budget (reason r)));
        [rewrite bool_decide_eq_true_2 by done|rewrite bool_decide_eq_false_2 by done];
        rewrite ?len_cons; lia.
    - by rewrite Hc. }
  rewrite H. simpl. lia.
Qed.

(** The refusals are the product of budgets, dimensions and horizons: each names its three,
    and every three has its refusal. *)
Theorem refusal_taxonomy (r : PeerQuotaRefusal) (b : QuotaBudget) (d : QuotaDimension)
    (h : QuotaHorizon) :
  refusal_of b d h = r <-> (b = refusal_budget r /\ d = refusal_dimension r /\ h = refusal_horizon r).
Proof. split; [intros <-; by destruct b, d, h|]. intros (-> & -> & ->). by destruct r. Qed.

(** ** What one instant can cost

    Within one instant nothing refills, and the row counts are whole numbers, which binary64
    holds exactly: the two facts are evaluated for every count a budget can hold. *)

#[local] Instance spec_float_eq_dec : EqDecision F64.t.
Proof. unfold F64.t. solve_decision. Defined.

Definition rows_exact (spec : BudgetSpec) (n : nat) : bool :=
  let x := F64.of_N (N.of_nat n) in
  bool_decide (F64.min (F64.add x (F64.mul (as_secs_f64 0) (per_second (hspec spec Rows Burst))))
            (capacity (hspec spec Rows Burst)) = x)
  && Bool.eqb (F64.ltb x F64.one) (Nat.eqb n 0)
  && (Nat.eqb n 0 || bool_decide (F64.sub x F64.one = F64.of_N (N.of_nat (Nat.pred n)))).

Lemma node_rows_exact n : (N.of_nat n <= 6000)%N -> rows_exact node_spec n = true.
Proof.
  intros Hn. assert (H : forallb (rows_exact node_spec) (seq 0 (N.to_nat 6001)) = true) by (vm_compute; reflexivity).
  rewrite forallb_forall in H. apply H. apply in_seq. lia.
Qed.

Lemma reserved_rows_exact n : (N.of_nat n <= 600)%N -> rows_exact reserved_spec n = true.
Proof.
  intros Hn. assert (H : forallb (rows_exact reserved_spec) (seq 0 (N.to_nat 601)) = true) by (vm_compute; reflexivity).
  rewrite forallb_forall in H. apply H. apply in_seq. lia.
Qed.

(** A bucket last touched at [t0] that holds [n] rows of burst. *)
Definition holds_rows (t0 : Z) (n : nat) (x : PeerBucket) : Prop :=
  last_seen x = t0 /\ cell x Rows Burst = F64.of_N (N.of_nat n).

Section Meter.
Context (t0 : Z) (spec : BudgetSpec) (budget : QuotaBudget) (n : nat) (x : PeerBucket).
Hypothesis Hexact : rows_exact spec n = true.
Hypothesis Hx : holds_rows t0 n x.

Lemma holds_refill : holds_rows t0 n (refill spec t0 x).
Proof.
  destruct Hx as [Ht Hc]. split; [done|].
  rewrite cell_refill, Ht, Z.sub_diag, Hc. change (Z.max 0 0) with 0%Z. unfold rows_exact in Hexact.
  apply andb_true_iff in Hexact as [H _]. apply andb_true_iff in H as [H _].
  apply bool_decide_eq_true in H. exact H.
Qed.

Lemma holds_affords cost :
  at_dim cost Rows = F64.one -> refusal spec budget cost (refill spec t0 x) = None -> n <> 0.
Proof.
  intros Hcost Hr Hn. destruct holds_refill as [_ Hc].
  unfold refusal in Hr. cbn [omap cell_order list_omap] in Hr. rewrite Hcost, Hc in Hr.
  unfold rows_exact in Hexact. apply andb_true_iff in Hexact as [H _].
  apply andb_true_iff in H as [_ H]. apply Bool.eqb_prop in H.
  rewrite H, Hn in Hr. discriminate Hr.
Qed.

Lemma holds_spend cost :
  at_dim cost Rows = F64.one -> n <> 0 ->
  holds_rows t0 (Nat.pred n) (spend cost (refill spec t0 x)).
Proof.
  intros Hcost Hn. destruct holds_refill as [Ht Hc]. split; [done|].
  rewrite cell_spend, Hcost, Hc.
  unfold rows_exact in Hexact. apply andb_true_iff in Hexact as [_ H].
  destruct (Nat.eqb_spec n 0); [done|]. simpl in H. by apply bool_decide_eq_true in H.
Qed.
End Meter.

Definition admitted (v : verdict) : bool := match v with inr _ => true | inl _ => false end.

(** The state of a quota [n] commons writes and [m] reserved writes short of its instant. *)
Record at_instant (t0 : Z) (n m : nat) (st : QuotaState) : Prop := {
  ai_node : holds_rows t0 n (node st);
  ai_reserved : holds_rows t0 m (reserved st);
  ai_tracked : (count_of (buckets st) + N.of_nat n <= 6000)%N;
  ai_reserve : (N.of_nat m <= 600)%N;
  ai_denials : slot_denials st = 0%N;
}.

Lemma at_instant_new t0 : at_instant t0 (N.to_nat 6000) (N.to_nat 600) (new_quota t0).
Proof. constructor; try done; (split; [done|vm_compute; reflexivity]). Qed.

Lemma charge_locked_tracked st key class cost now :
  (count_of (buckets st) < PER_PEER_QUOTA_TRACKED_PEERS_CAP)%N ->
  let st' := fst (charge_locked st key class cost now) in
  slot_denials st' = slot_denials st
  /\ (count_of (buckets st') <= count_of (buckets st)
      + (if admitted (snd (charge_locked st key class cost now)) then 1 else 0))%N
  /\ (class = ReservedClass -> buckets st' = buckets st).
Proof.
  intros Hcap. unfold count_of in *. destruct class; step_charge; charge_cases; simpl; try (split_and!; done || lia).
  all: try (split_and!; [done| |done]; rewrite ?map_size_insert_Some by (rewrite ?lookup_insert_eq; eauto); lia).
  unfold give_bucket, count_of. simpl.
  assert (Hc : (PER_PEER_QUOTA_TRACKED_PEERS_CAP <=? N.of_nat (size (buckets st)))%N = false) by (by apply N.leb_gt).
  rewrite Hc. apply N.ltb_lt in Hcap. rewrite Hcap. simpl. split_and!; [done| |done].
  rewrite map_size_insert_None by done. lia.
Qed.

(** How one write moves the two counts. *)
Definition commons_left (w : Write) (v : verdict) (n : nat) : nat :=
  if admitted v && negb (is_reserved w) then Nat.pred n else n.
Definition reserve_left (w : Write) (v : verdict) (n : nat) : nat :=
  if admitted v && is_reserved w then Nat.pred n else n.

Lemma charge_frame st w :
  let st1 := fst (charge_locked st (w_key w) (w_class w) (w_cost w) (w_now w)) in
  let st2 := fst (charge_write st w) in
  node st2 = node st1 /\ reserved st2 = reserved st1 /\ buckets st2 = buckets st1
  /\ slot_denials st2 = slot_denials st1.
Proof. unfold charge_write. rewrite charge_state. by destruct (snd _). Qed.

Lemma meter_step st w b x n t0 :
  w_now w = t0 -> at_dim (w_cost w) Rows = F64.one ->
  (b = Node \/ b = Reserved) -> bucket_of st (w_key w) b = Some x ->
  rows_exact (spec_of b) n = true -> holds_rows t0 n x ->
  let v := snd (charge_write st w) in
  let pays := admitted v && Bool.eqb (is_reserved w) (bool_decide (b = Reserved)) in
  (pays = true -> n <> 0) /\
  exists x', bucket_of (fst (charge_write st w)) (w_key w) b = Some x'
  /\ holds_rows t0 (if pays then Nat.pred n else n) x'.
Proof.
  intros Ht Hcost Hb Hx Hex Hh. unfold charge_write.
  pose proof (charge_spec st (w_key w) (w_class w) (w_cost w) (w_now w)) as H. simpl in H |- *.
  subst t0. destruct (first_refusal _ _ _ _ _) as [r|] eqn:Ef.
  - destruct H as (-> & H & _). simpl. split; [done|].
    destruct (H b) as [->| ->]; [by exists x|].
    exists (refill (spec_of b) (w_now w) x). split; [by unfold ready; rewrite Hx|]. by apply holds_refill.
  - destruct H as (-> & Hpay & Hkeep & _). simpl.
    assert (Hmem : Bool.eqb (is_reserved w) (bool_decide (b = Reserved)) = true
                   <-> b ∈ payers st (w_key w) (w_class w)).
    { unfold is_reserved, payers. rewrite Bool.eqb_true_iff.
      destruct Hb as [-> | ->], (w_class w), (tracks st (w_key w));
        rewrite ?elem_of_cons, ?elem_of_nil;
        (split; intros Hc; [try discriminate Hc; tauto | first [reflexivity | naive_solver]]). }
    destruct (Bool.eqb _ _) eqn:Ep.
    + assert (Hin : b ∈ payers st (w_key w) (w_class w)) by by apply Hmem.
      assert (Hn : n <> 0).
      { apply (holds_affords (w_now w) (spec_of b) b n x Hex Hh (w_cost w) Hcost).
        unfold first_refusal, ready in Ef.
        destruct (refusal (spec_of b) b (w_cost w) (refill (spec_of b) (w_now w) x)) as [r|] eqn:Er; [|done].
        exfalso. assert (Hr : r ∈ omap (fun b => (refill (spec_of b) (w_now w) <$> bucket_of st (w_key w) b)
                    ≫= refusal (spec_of b) b (w_cost w)) (payers st (w_key w) (w_class w))).
        { apply list_elem_of_omap. exists b. split; [done|]. by rewrite Hx. }
        destruct (omap _ _); [by apply elem_of_nil in Hr|done]. }
      split; [done|]. rewrite (Hpay b Hin). unfold ready. rewrite Hx.
      exists (spend (w_cost w) (refill (spec_of b) (w_now w) x)). split; [done|].
      exact (holds_spend (w_now w) (spec_of b) n x Hex Hh (w_cost w) Hcost Hn).
    + split; [done|]. exists x. split; [|done]. rewrite (Hkeep b); [done| |by destruct Hb as [->| ->]].
      intros Hin. discriminate (proj2 Hmem Hin).
Qed.

Lemma at_instant_step t0 n m st w :
  at_instant t0 n m st -> w_now w = t0 -> at_dim (w_cost w) Rows = F64.one ->
  let v := snd (charge_write st w) in
  at_instant t0 (commons_left w v n) (reserve_left w v m) (fst (charge_write st w))
  /\ (admitted v && negb (is_reserved w) = true -> n <> 0)
  /\ (admitted v && is_reserved w = true -> m <> 0).
Proof.
  intros [Hn Hm Ht Hr Hd] Hw Hc v.
  destruct (meter_step st w Node (node st) n t0 Hw Hc (or_introl eq_refl) eq_refl
              (node_rows_exact n ltac:(lia)) Hn) as (Hn0 & x & Hx & Hn').
  destruct (meter_step st w Reserved (reserved st) m t0 Hw Hc (or_intror eq_refl) eq_refl
              (reserved_rows_exact m Hr) Hm) as (Hm0 & y & Hy & Hm').
  simpl in *. injection Hx as <-. injection Hy as <-. fold v in Hn0, Hn', Hm0, Hm'.
  change (bool_decide (Node = Reserved)) with false in Hn0, Hn'.
  change (bool_decide (Reserved = Reserved)) with true in Hm0, Hm'.
  replace (Bool.eqb (is_reserved w) false) with (negb (is_reserved w)) in Hn0, Hn'
    by by destruct (is_reserved w).
  replace (Bool.eqb (is_reserved w) true) with (is_reserved w) in Hm0, Hm' by by destruct (is_reserved w).
  split; [|done].
  destruct (charge_frame st w) as (_ & _ & Hb & Hs).
  pose proof (charge_locked_tracked st (w_key w) (w_class w) (w_cost w) (w_now w)) as Htr.
  unfold commons_left, reserve_left.
  assert (Hcap : (count_of (buckets st) < PER_PEER_QUOTA_TRACKED_PEERS_CAP)%N)
    by (unfold PER_PEER_QUOTA_TRACKED_PEERS_CAP; lia).
  destruct (Htr Hcap) as (Hd' & Ht' & Hres). constructor; [done|done| | |congruence].
  - rewrite Hb. destruct (admitted v && negb (is_reserved w)) eqn:E.
    + specialize (Hn0 eq_refl). apply andb_true_iff in E as [Ev _].
      subst v. unfold charge_write in Ev. rewrite charge_verdict in Ev. rewrite Ev in Ht'. lia.
    + apply andb_false_iff in E as [E|E].
      * subst v. unfold charge_write in E. rewrite charge_verdict in E. rewrite E in Ht'. lia.
      * apply negb_false_iff, bool_decide_eq_true in E. rewrite (Hres E). lia.
  - clear - Hr. by destruct (admitted v && is_reserved w); [etrans; [|exact Hr]; lia|].
Qed.

(** The writes of a run that were admitted, of the commons or of the reserve. *)
Definition admitted_of (reserve : bool) (l : list (Write * verdict)) : N :=
  len (List.filter (fun p => admitted (snd p) && Bool.eqb (is_reserved (fst p)) reserve) l).

(** A restart, or any one instant, is worth one node burst: of any writes made within it, by
    any number of identities in any classes and of any sizes, at most 6000 outside the
    reserve and 600 of the reserve are admitted, and no newcomer is denied a bucket. *)
Theorem one_instant_bound (t0 : Z) (ws : list Write)
    (Hnow : forall w, In w ws -> w_now w = t0)
    (Hcost : forall w, In w ws -> exists bytes, w_cost w = for_envelope_bytes bytes) :
  (admitted_of false (run (new_quota t0) ws) <= 6000)%N
  /\ (admitted_of true (run (new_quota t0) ws) <= 600)%N
  /\ slot_denials (after (new_quota t0) ws) = 0%N.
Proof.
  assert (H : forall st n m, at_instant t0 n m st ->
    (admitted_of false (run st ws) <= N.of_nat n)%N /\ (admitted_of true (run st ws) <= N.of_nat m)%N
    /\ slot_denials (after st ws) = 0%N).
  { unfold admitted_of. induction ws as [|w ws IH]; intros st n m Hi; simpl.
    - rewrite len_nil. split_and!; [lia|lia|apply Hi].
    - destruct (Hcost w (in_eq _ _)) as [bytes Hb].
      destruct (at_instant_step t0 n m st w Hi (Hnow w (in_eq _ _)) ltac:(by rewrite Hb)) as (Hi' & Hn & Hm).
      specialize (IH ltac:(auto using in_cons) ltac:(auto using in_cons) _ _ _ Hi').
      revert IH Hn Hm. unfold commons_left, reserve_left.
      destruct (admitted _), (is_reserved w); simpl; rewrite ?len_cons;
        intros (H1 & H2 & H3) Hn Hm; split_and!; try done; try lia.
      all: first [specialize (Hn eq_refl) | specialize (Hm eq_refl)]; lia. }
  destruct (H _ _ _ (at_instant_new t0)) as (H1 & H2 & H3). split_and!; [lia|lia|done].
Qed.

(** ** An instant read before the lock

    Every door reads the clock before it takes the lock, so two writes can be charged in the
    opposite order of their instants. The later one then finds [last_seen] set back. *)

Definition empty_bucket (now : Z) : PeerBucket := mk_bucket (cells (fun _ _ => F64.zero)) now.

(** One second is credited twice when an earlier instant is charged between two later ones:
    twenty rows of burst where one second holds ten. *)
Theorem late_arrival_credits_twice :
  cell (refill peer_spec NANOS (empty_bucket 0)) Rows Burst = F64.of_N 10 /\
  cell (refill peer_spec NANOS (refill peer_spec 0 (refill peer_spec NANOS (empty_bucket 0))))
    Rows Burst = F64.of_N 20.
Proof. split; vm_compute; reflexivity. Qed.

(** ** Concrete inputs *)

Definition write_by (k : string) (class : WriteAdmissionClass) : Write := mk_write k class floor_cost 0.

Definition one_peer : QuotaState := after (new_quota 0) [write_by "peer-a" Ordinary].

Lemma others_cannot_drain_witness :
  exists x, buckets one_peer !! "peer-a" = Some x /\
    (buckets (after one_peer [write_by "peer-b" Ordinary; write_by "peer-b" GenesisClaim]) !! "peer-a" = Some x
     \/ buckets (after one_peer [write_by "peer-b" Ordinary; write_by "peer-b" GenesisClaim]) !! "peer-a" = None
        /\ exists w, In w [write_by "peer-b" Ordinary; write_by "peer-b" GenesisClaim]
           /\ is_full peer_spec (refill peer_spec (w_now w) x) = true).
Proof.
  eexists. split; [vm_compute; reflexivity|]. apply others_cannot_drain.
  - intros w [<-|[<-|[]]]; discriminate.
  - vm_compute. reflexivity.
Defined.

Definition rotating : list Write :=
  [write_by "a" Ordinary; write_by "b" Ordinary; write_by "c" ReservedClass; write_by "d" LocalAuthorship].

Lemma one_instant_bound_witness :
  admitted_of false (run (new_quota 0) rotating) = 3%N /\
  (admitted_of false (run (new_quota 0) rotating) <= 6000)%N
  /\ (admitted_of true (run (new_quota 0) rotating) <= 600)%N
  /\ slot_denials (after (new_quota 0) rotating) = 0%N.
Proof.
  split; [vm_compute; reflexivity|]. apply (one_instant_bound 0).
  - intros w [<-|[<-|[<-|[<-|[]]]]]; reflexivity.
  - intros w [<-|[<-|[<-|[<-|[]]]]]; by exists 0%N.
Defined.

(** The bound is met: the owner's own writes take the whole node burst at one instant. *)
Example node_burst_is_reached :
  admitted_of false (run (new_quota 0) (repeat (write_by "owner" LocalAuthorship) (N.to_nat 6100))) = 6000%N.
Proof. vm_compute. reflexivity. Qed.
