(* ===== verification/ReverseQuorum.v ===== *)
(** * Reverse quorum: objections, dismissals, the steward tier

    [src/src/federation/reverse_quorum.rs]: the policy string, its thresholds,
    the ballots and the read-time fold. *)

From Stdlib Require Import ZArith NArith Lia Ascii.
From stdpp Require Import base list strings gmap.
From S2P Require Import Prelude RustStd Json.

Open Scope string_scope.
Open Scope list_scope.
Open Scope persist_scope.

(** ** The quorum primitive

    [ciris_verify_core::accord_genesis::strict_majority], with the definition the
    source states for the pinned version. *)
Class StrictMajority := {
  strict_majority : N -> N;
  strict_majority_eq : forall n, strict_majority n = (n / 2 + 1)%N;
}.

#[export] Program Instance strict_majority_pinned : StrictMajority := {|
  strict_majority n := (n / 2 + 1)%N;
|}.
Next Obligation. done. Qed.

(** ** Vocabulary *)

Definition REVERSE_QUORUM_PREFIX := "reverse_quorum:".
Definition DIMENSION_OBJECTION := "objection:raised:v1".
Definition DIMENSION_DISMISSAL := "objection:dismissed:v1".
Definition DIMENSION_UPHELD := "objection:upheld:v1".
Definition DIMENSION_OVERRULED := "objection:overruled:v1".
Definition ESCALATION_RESPONDENT_FLOOR : N := 3.
Definition ESCALATE_INFIX := "+escalate:".
Definition OBJECTION_THRESHOLD : N := 1.

Module field.
Definition OBJECTS_TO := "objects_to_attestation_id".
Definition DISMISSES := "dismisses_objection_id".
Definition COHORT := "cohort".
Definition COHORT_KEY_ID := "cohort_key_id".
Definition GROUNDS := "grounds".
Definition BALLOT_ON := "ballot_on_objection_id".
End field.

(** ** The policy *)

Record StewardTier := mk_StewardTier {
  st_window_secs : N;
  respondent_floor : N;
}.

Record ReverseQuorumPolicy := mk_ReverseQuorumPolicy {
  rq_m : N;
  rq_n : N;
  rq_window_secs : N;
  steward : option StewardTier;
}.

(** The steward half, [{steward_secs}:{floor}]. *)
Definition parse_steward (rest : string) : option StewardTier :=
  '(secs, floor) ← split_once ":" rest;
  steward_window ← parse_u64 secs;
  respondent_floor ← parse_usize floor;
  if N.ltb respondent_floor ESCALATION_RESPONDENT_FLOOR then None
  else Some (mk_StewardTier steward_window respondent_floor).

Definition parse (s : string) : option ReverseQuorumPolicy :=
  tail ← strip_prefix REVERSE_QUORUM_PREFIX s;
  let '(base, escalate) :=
    match split_once ESCALATE_INFIX tail with
    | Some (base, rest) => (base, Some rest)
    | None => (tail, None)
    end in
  '(quorum, window) ← split_once ":" base;
  '(m_s, n_s) ← split_once "/" quorum;
  m ← parse_u32 m_s;
  n ← parse_u32 n_s;
  window_secs ← parse_u64 window;
  if N.eqb m 0 || N.eqb n 0 || N.ltb n m then None
  else match escalate with
       | None => Some (mk_ReverseQuorumPolicy m n window_secs None)
       | Some rest =>
           tier ← parse_steward rest;
           Some (mk_ReverseQuorumPolicy m n window_secs (Some tier))
       end.

Definition to_protocol_string (p : ReverseQuorumPolicy) : string :=
  let base := REVERSE_QUORUM_PREFIX +:+ fmt_N (rq_m p) +:+ "/" +:+ fmt_N (rq_n p)
              +:+ ":" +:+ fmt_N (rq_window_secs p) in
  match steward p with
  | None => base
  | Some tier => base +:+ ESCALATE_INFIX +:+ fmt_N (st_window_secs tier)
                 +:+ ":" +:+ fmt_N (respondent_floor tier)
  end.

Section Policy.
Context `{Chrono} `{StrictMajority}.

(** [i64::try_from(secs).unwrap_or(i64::MAX)], then the saturating addition. *)
Definition saturating_add_secs (t : instant) (secs : N) : instant :=
  let s := if Z.leb (Z.of_N secs) i64_max then Z.of_N secs else i64_max in
  let d := match try_seconds s with Some d => d | None => DURATION_MAX end in
  match checked_add_signed t d with Some u => u | None => MAX_UTC end.

Definition window (p : ReverseQuorumPolicy) (asserted_at : instant) : instant * instant :=
  (asserted_at, saturating_add_secs asserted_at (rq_window_secs p)).

Definition reversal_threshold (p : ReverseQuorumPolicy) (roster_size : N) : N :=
  N.min (rq_m p) (N.max roster_size 1).

Definition dismissal_threshold (p : ReverseQuorumPolicy) (roster_size : N) : N :=
  let floor := strict_majority roster_size in
  N.max (N.max (rq_m p) floor) 1.

Definition steward_deadline (p : ReverseQuorumPolicy) (asserted_at : instant) : option instant :=
  tier ← steward p;
  let '(_, window_closes) := window p asserted_at in
  Some (saturating_add_secs window_closes (st_window_secs tier)).

Definition steward_ruling_threshold (p : ReverseQuorumPolicy) (duty_holders : N) : N :=
  N.max (strict_majority duty_holders) 1.

Definition escalated_dismissal_required (p : ReverseQuorumPolicy) (respondents : N) : N :=
  let declared_floor :=
    match steward p with Some t => respondent_floor t | None => ESCALATION_RESPONDENT_FLOOR end in
  N.max (N.max (dismissal_threshold p respondents) declared_floor) ESCALATION_RESPONDENT_FLOOR.

Definition dismissal_required (p : ReverseQuorumPolicy) (roster_size : N) (self_dismissal : bool) : N :=
  if self_dismissal then OBJECTION_THRESHOLD else dismissal_threshold p roster_size.

(** ** The fold's data *)

Inductive ReverseQuorumStanding := NotGoverned | WindowOpen | Stood | Reversed.

Inductive StewardTierStanding :=
| NotAdopted | NoDutyHolders | Awaiting | StewardUpheld | Overruled | Silent.

Definition escalates (s : StewardTierStanding) : bool :=
  match s with Silent | Overruled | NoDutyHolders => true | _ => false end.

Inductive EscalationOutcome := NotEscalated | Unresolved | Upheld | Dismissed.

Record ObjectionEscalation := mk_ObjectionEscalation {
  objection_id : string;
  oe_steward : StewardTierStanding;
  oe_outcome : EscalationOutcome;
  oe_duty_holders : N;
  steward_ruling_required : N;
  respondents : N;
  oe_required : N;
  uphold_ballots : N;
  overrule_ballots : N;
  counted_ballot_ids : list string;
}.

Record ReverseQuorumFold := mk_ReverseQuorumFold {
  standing : ReverseQuorumStanding;
  rf_policy : option string;
  distinct_objectors : N;
  rf_required : N;
  roster_size : N;
  window_opens_at : instant;
  window_closes_at : instant;
  window_open : bool;
  counted_objection_ids : list string;
  dismissed_objection_ids : list string;
  rf_steward_deadline : option instant;
  escalation : list ObjectionEscalation;
  escalated_dismissed_objection_ids : list string;
}.

Record ActionRef := mk_ActionRef {
  actor_key_id : string;
  action_id : string;
  action_asserted_at : instant;
}.

Definition action_of (a : Attestation) : ActionRef :=
  mk_ActionRef (attesting_key_id a) (attestation_id a) (asserted_at a).

Record ReverseQuorumInputs := mk_ReverseQuorumInputs {
  action : ActionRef;
  objections : list Attestation;
  dismissals : list Attestation;
  ballots : list Attestation;
  roster : list string;
  duty_holders : list string;
  in_policy : option ReverseQuorumPolicy;
  now : instant;
}.

(** ** Ballots *)

(** [envelope_str(row, key) == Some(v)]. *)
Definition field_is (r : Attestation) (key v : string) : bool :=
  match envelope_str r key with Some x => x =s v | None => false end.

Definition mem (k : string) (l : list string) : bool := existsb (fun x => x =s k) l.

Definition is_ballot_on (r : Attestation) (act : ActionRef) (objection : Attestation)
    (now : instant) : bool :=
  (field_is r "dimension" DIMENSION_UPHELD || field_is r "dimension" DIMENSION_OVERRULED)
  && field_is r field.BALLOT_ON (attestation_id objection)
  && field_is r field.OBJECTS_TO (action_id act)
  && Z.leb (action_asserted_at act) (asserted_at r)
  && Z.leb (asserted_at r) now.

Definition uphold_rank (b : Attestation) : N :=
  if field_is b "dimension" DIMENSION_UPHELD then 1 else 0.

(** The comparator's [Less]: instant, then the upholding side last, then the id. *)
Definition ballot_lt (a b : Attestation) : bool :=
  if negb (Z.eqb (asserted_at a) (asserted_at b)) then Z.ltb (asserted_at a) (asserted_at b)
  else if negb (N.eqb (uphold_rank a) (uphold_rank b)) then N.ltb (uphold_rank a) (uphold_rank b)
  else attestation_id a <s attestation_id b.

Definition governing_ballots (candidates : list Attestation) (eligible : list string)
    (not_after : option instant) : gmap string Attestation :=
  let rows :=
    List.filter (fun b => match not_after with Some t => Z.leb (asserted_at b) t | None => true end)
      (List.filter (fun b => mem (attesting_key_id b) eligible) candidates) in
  insert_last attesting_key_id (sort_by ballot_lt rows).

(** The values of the map; every reader of them counts or sorts. *)
Definition map_values (m : gmap string Attestation) : list Attestation := (map_to_list m).*2.

Definition tally (governing : gmap string Attestation) : N * N :=
  fold_left (fun acc b =>
      let '(uphold, overrule) := acc in
      if field_is b "dimension" DIMENSION_UPHELD then (uphold + 1, overrule)%N
      else if field_is b "dimension" DIMENSION_OVERRULED then (uphold, overrule + 1)%N
      else acc)
    (map_values governing) (0, 0)%N.

(** ** Escalation of one objection *)

Definition escalate_objection (act : ActionRef) (objection : Attestation)
    (ballots : list Attestation) (roster duty_holders : list string)
    (policy : ReverseQuorumPolicy) (now : instant) : ObjectionEscalation :=
  let deadline := steward_deadline policy (action_asserted_at act) in
  let actor := actor_key_id act in
  let objector := attesting_key_id objection in
  let seated_duty :=
    List.filter (fun k => (k <>s actor) && (k <>s objector)) duty_holders in
  let seated_roster := List.filter (fun k => k <>s actor) roster in
  let relevant := List.filter (fun b => is_ballot_on b act objection now) ballots in
  let ruling_required := steward_ruling_threshold policy (len seated_duty) in
  let ruling := governing_ballots relevant seated_duty deadline in
  let '(ruled_uphold, ruled_overrule) := tally ruling in
  let deadline_passed := match deadline with Some d => Z.leb d now | None => false end in
  let steward :=
    if N.leb ruling_required ruled_uphold then StewardUpheld
    else if N.leb ruling_required ruled_overrule then Overruled
    else if negb deadline_passed then Awaiting
    else if N.eqb (len seated_duty) 0 then NoDutyHolders
    else Silent in
  let pool := governing_ballots relevant seated_roster None in
  let '(uphold_ballots, overrule_ballots) := tally pool in
  let respondents := len (map_values pool) in
  let required := escalated_dismissal_required policy respondents in
  let counted_ballot_ids := sort_strings (map attestation_id (map_values pool)) in
  let outcome :=
    if negb (escalates steward) then NotEscalated
    else if N.leb required uphold_ballots then Upheld
    else if N.leb required overrule_ballots then Dismissed
    else Unresolved in
  mk_ObjectionEscalation (attestation_id objection) steward outcome (len seated_duty)
    ruling_required respondents required uphold_ballots overrule_ballots counted_ballot_ids.

(** ** The fold *)

(** The loop's mutable locals. *)
Record FoldState := mk_FoldState {
  fs_counted : list string;
  fs_objectors : list string;
  fs_dismissed : list string;
  fs_escalated : list string;
  fs_escalation : list ObjectionEscalation;
}.

(** The ids the (already verified) dismissals name. *)
Definition dismissed_set (ds : list Attestation) : list string :=
  flat_map (fun d =>
      if field_is d "dimension" DIMENSION_DISMISSAL then
        match envelope_str d field.DISMISSES with Some id => [id] | None => [] end
      else [])
    ds.

(** The filters an objection passes before it is counted or suppressed. *)
Definition objection_in_scope (act : ActionRef) (roster : list string) (opens closes : instant)
    (o : Attestation) : bool :=
  field_is o "dimension" DIMENSION_OBJECTION
  && field_is o field.OBJECTS_TO (action_id act)
  && mem (attesting_key_id o) roster
  && negb (Z.ltb (asserted_at o) opens || Z.ltb closes (asserted_at o)).

(** The last statement of the loop body. *)
Definition count_objection (st : FoldState) (o : Attestation) : FoldState :=
  if mem (attesting_key_id o) (fs_objectors st) then st
  else mk_FoldState (fs_counted st ++ [attestation_id o])
         (fs_objectors st ++ [attesting_key_id o])
         (fs_dismissed st) (fs_escalated st) (fs_escalation st).

Definition fold_body (inp : ReverseQuorumInputs) (policy : ReverseQuorumPolicy)
    (st : FoldState) (o : Attestation) : FoldState :=
  let act := action inp in
  let '(opens, closes) := window policy (action_asserted_at act) in
  if negb (objection_in_scope act (roster inp) opens closes o) then st
  else if mem (attestation_id o) (dismissed_set (dismissals inp)) then
    mk_FoldState (fs_counted st) (fs_objectors st) (fs_dismissed st ++ [attestation_id o])
      (fs_escalated st) (fs_escalation st)
  else match steward policy with
       | None => count_objection st o
       | Some _ =>
           let record := escalate_objection act o (ballots inp) (roster inp) (duty_holders inp)
                           policy (now inp) in
           match oe_outcome record with
           | Dismissed =>
               mk_FoldState (fs_counted st) (fs_objectors st) (fs_dismissed st)
                 (fs_escalated st ++ [attestation_id o]) (fs_escalation st ++ [record])
           | _ =>
               count_objection
                 (mk_FoldState (fs_counted st) (fs_objectors st) (fs_dismissed st)
                    (fs_escalated st) (fs_escalation st ++ [record])) o
           end
       end.

Definition fold_loop (inp : ReverseQuorumInputs) (policy : ReverseQuorumPolicy) : FoldState :=
  fold_left (fold_body inp policy) (objections inp) (mk_FoldState [] [] [] [] []).

Definition fold_reverse_quorum_over (inp : ReverseQuorumInputs) : ReverseQuorumFold :=
  let act := action inp in
  match in_policy inp with
  | None =>
      mk_ReverseQuorumFold NotGoverned None 0 0 (len (roster inp)) (action_asserted_at act)
        (action_asserted_at act) false [] [] None [] []
  | Some policy =>
      let '(opens, closes) := window policy (action_asserted_at act) in
      let required := reversal_threshold policy (len (roster inp)) in
      let deadline := steward_deadline policy (action_asserted_at act) in
      let st := fold_loop inp policy in
      let window_open := Z.leb opens (now inp) && Z.leb (now inp) closes in
      let standing :=
        if N.leb required (len (fs_objectors st)) then Reversed
        else if window_open then WindowOpen
        else Stood in
      mk_ReverseQuorumFold standing (Some (to_protocol_string policy)) (len (fs_objectors st))
        required (len (roster inp)) opens closes window_open
        (sort_strings (fs_counted st)) (sort_strings (fs_dismissed st)) deadline
        (sort_by (fun a b => objection_id a <s objection_id b) (fs_escalation st))
        (sort_strings (fs_escalated st))
  end.

Definition fold_reverse_quorum (act : Attestation) (objections dismissals : list Attestation)
    (roster : list string) (policy : option ReverseQuorumPolicy) (now : instant)
    : ReverseQuorumFold :=
  fold_reverse_quorum_over
    (mk_ReverseQuorumInputs (action_of act) objections dismissals [] roster [] policy now).
End Policy.

(** ** Policy strings *)

(** The invariant of a parsed policy. *)
Definition policy_wf (p : ReverseQuorumPolicy) : Prop :=
  (1 <= rq_m p <= rq_n p)%N /\ (rq_n p <= u32_max)%N /\ (rq_window_secs p <= u64_max)%N /\
  match steward p with
  | None => True
  | Some t => (st_window_secs t <= u64_max)%N /\
              (ESCALATION_RESPONDENT_FLOOR <= respondent_floor t <= usize_max)%N
  end.

Lemma parse_steward_wf rest t :
  parse_steward rest = Some t ->
  (st_window_secs t <= u64_max)%N /\ (ESCALATION_RESPONDENT_FLOOR <= respondent_floor t <= usize_max)%N.
Proof.
  unfold parse_steward. intros H. bind_inv H. destruct x as [secs floor].
  bind_inv H. bind_inv H. apply parse_uint_le in E0, E1.
  destruct (N.ltb_spec x0 ESCALATION_RESPONDENT_FLOOR); [done|]. inv H. simpl. lia.
Qed.

Lemma parse_wf s p : parse s = Some p -> policy_wf p.
Proof.
  unfold parse. intros H. bind_inv H.
  destruct (match split_once ESCALATE_INFIX x with
            | Some (base, rest) => (base, Some rest) | None => (x, None) end) as [base esc].
  bind_inv H. destruct x0 as [quorum w]. bind_inv H. destruct x0 as [ms ns].
  bind_inv H. bind_inv H. bind_inv H. apply parse_uint_le in E2, E3, E4.
  destruct (N.eqb x0 0 || N.eqb x1 0 || N.ltb x1 x0) eqn:Eg; [done|]. breflect.
  destruct esc as [rest|]; [bind_inv H; apply parse_steward_wf in E5|]; inv H;
    unfold policy_wf; simpl; (split_and!; (done || lia)).
Qed.

Lemma digits_no_colon n : has_byte ":"%char (fmt_N n) = false.
Proof. apply fmt_N_byte. right. done. Qed.
Lemma digits_no_slash n : has_byte "/"%char (fmt_N n) = false.
Proof. apply fmt_N_byte. left. done. Qed.
Lemma digits_no_plus n : has_byte "+"%char (fmt_N n) = false.
Proof. apply fmt_N_byte. left. done. Qed.
#[export] Hint Rewrite has_byte_app digits_no_colon digits_no_slash digits_no_plus : digits.

Lemma parse_steward_print t :
  (st_window_secs t <= u64_max)%N ->
  (ESCALATION_RESPONDENT_FLOOR <= respondent_floor t <= usize_max)%N ->
  parse_steward (fmt_N (st_window_secs t) +:+ ":" +:+ fmt_N (respondent_floor t)) = Some t.
Proof.
  intros Hw Hf. unfold parse_steward.
  rewrite (split_once_app ":" ""), some_bind by apply digits_no_colon.
  unfold parse_u64, parse_usize. rewrite !parse_uint_fmt by lia. rewrite !some_bind.
  destruct (N.ltb_spec (respondent_floor t) ESCALATION_RESPONDENT_FLOOR); [lia|]. by destruct t.
Qed.

(** The quorum half of a printed policy splits back into its three numbers. *)
Lemma split_base m n w :
  split_once ":" (fmt_N m +:+ "/" +:+ fmt_N n +:+ ":" +:+ fmt_N w)
  = Some (fmt_N m +:+ "/" +:+ fmt_N n, fmt_N w).
Proof.
  pose proof (split_once_app ":" "" (fmt_N m +:+ "/" +:+ fmt_N n) (fmt_N w)) as E.
  rewrite !string_app_assoc in E. apply E. autorewrite with digits. done.
Qed.

Lemma parse_print p : policy_wf p -> parse (to_protocol_string p) = Some p.
Proof.
  intros (Hm & Hn & Hw & Hs). destruct p as [m n w st]; simpl in *.
  unfold parse, to_protocol_string. cbn [rq_m rq_n rq_window_secs steward].
  assert (Hguard : (N.eqb m 0 || N.eqb n 0 || N.ltb n m) = false) by (breflect; lia).
  assert (Hplus : has_byte "+"%char (fmt_N m +:+ "/" +:+ fmt_N n +:+ ":" +:+ fmt_N w) = false)
    by (autorewrite with digits; done).
  destruct st as [t|].
  - rewrite string_app_assoc, strip_prefix_app, some_bind.
    unfold ESCALATE_INFIX. rewrite (split_once_app "+" "escalate:") by exact Hplus.
    rewrite split_base, some_bind.
    rewrite (split_once_app "/" "") by apply digits_no_slash. rewrite some_bind.
    unfold parse_u32, parse_u64. rewrite !parse_uint_fmt, !some_bind by lia.
    rewrite Hguard, (parse_steward_print t) by tauto. done.
  - rewrite strip_prefix_app, some_bind.
    unfold ESCALATE_INFIX. rewrite (split_once_none "+" "escalate:") by exact Hplus.
    rewrite split_base, some_bind.
    rewrite (split_once_app "/" "") by apply digits_no_slash. rewrite some_bind.
    unfold parse_u32, parse_u64. rewrite !parse_uint_fmt, !some_bind by lia.
    by rewrite Hguard.
Qed.

(** ** Thresholds *)

Section Thresholds.
Context `{Chrono} `{StrictMajority}.

Lemma strict_majority_gt n : (n < 2 * strict_majority n)%N.
Proof. rewrite strict_majority_eq. pose proof (N.div_mod' n 2). pose proof (N.mod_lt n 2). lia. Qed.

Lemma dismissal_majority p n : (n < 2 * dismissal_threshold p n)%N.
Proof. unfold dismissal_threshold. pose proof (strict_majority_gt n). lia. Qed.

Lemma escalated_majority p n : (n < 2 * escalated_dismissal_required p n)%N.
Proof. unfold escalated_dismissal_required. pose proof (dismissal_majority p n). lia. Qed.

Lemma escalated_floor p n :
  (ESCALATION_RESPONDENT_FLOOR <= escalated_dismissal_required p n)%N.
Proof. unfold escalated_dismissal_required. lia. Qed.

Lemma saturating_add_ge t secs : (t <= MAX_UTC)%Z -> (t <= saturating_add_secs t secs)%Z.
Proof.
  intros Ht. unfold saturating_add_secs.
  set (s := if (Z.of_N secs <=? i64_max)%Z then Z.of_N secs else i64_max).
  assert (Hs : (0 <= s)%Z) by (subst s; case_if; [lia|done]).
  assert (Hd : (0 <= match try_seconds s with Some d => d | None => DURATION_MAX end)%Z).
  { destruct (try_seconds s) as [d|] eqn:E; [|apply duration_max_past_calendar].
    apply try_seconds_some in E as ->. unfold NANOS. lia. }
  destruct (checked_add_signed _ _) as [u|] eqn:E; [|done].
  apply checked_add_some in E as [-> _]. lia.
Qed.

Lemma saturating_add_exact t secs :
  (Z.of_N secs <= i64_max)%Z -> (Z.of_N secs * NANOS <= DURATION_MAX)%Z ->
  (t + Z.of_N secs * NANOS <= MAX_UTC)%Z ->
  saturating_add_secs t secs = (t + Z.of_N secs * NANOS)%Z.
Proof.
  intros H1 H2 H3. unfold saturating_add_secs. rewrite (proj2 (Z.leb_le _ _) H1).
  rewrite try_seconds_small by (done || lia).
  rewrite checked_add_total; [done|unfold NANOS; lia|done].
Qed.
End Thresholds.

(** ** Ballots *)

Lemma field_is_true r k v : field_is r k v = true <-> envelope_str r k = Some v.
Proof.
  unfold field_is. destruct (envelope_str r k); [|done]. rewrite String.eqb_eq. naive_solver.
Qed.

Lemma mem_true k l : mem k l = true <-> In k l.
Proof.
  unfold mem. rewrite existsb_exists. split.
  - intros (x & Hx & E). apply String.eqb_eq in E. by subst.
  - intros Hk. exists k. by rewrite String.eqb_refl.
Qed.

Definition is_overrule (b : Attestation) : bool :=
  negb (field_is b "dimension" DIMENSION_UPHELD) && field_is b "dimension" DIMENSION_OVERRULED.

Lemma tally_spec g :
  tally g = (len (List.filter (fun b => field_is b "dimension" DIMENSION_UPHELD) (map_values g)),
             len (List.filter is_overrule (map_values g))).
Proof.
  unfold tally. generalize (map_values g) as l. intros l.
  assert (Hacc : forall u v, fold_left (fun acc b =>
      let '(uphold, overrule) := acc in
      if field_is b "dimension" DIMENSION_UPHELD then (uphold + 1, overrule)%N
      else if field_is b "dimension" DIMENSION_OVERRULED then (uphold, overrule + 1)%N
      else acc) l (u, v) =
    (u + len (List.filter (fun b => field_is b "dimension" DIMENSION_UPHELD) l),
     v + len (List.filter is_overrule l))%N).
  { induction l as [|b l IH]; intros u v; simpl; [by rewrite !N.add_0_r|].
    unfold is_overrule at 1. destruct (field_is b "dimension" DIMENSION_UPHELD); simpl;
      [|destruct (field_is b "dimension" DIMENSION_OVERRULED)];
      rewrite IH, ?len_cons; f_equal; lia. }
  apply Hacc.
Qed.

(** The two sides of a tally are disjoint. *)
Lemma tally_le g u o : tally g = (u, o) -> (u + o <= len (map_values g))%N.
Proof.
  rewrite tally_spec. intros [= <- <-].
  rewrite <- (len_filter_split (fun b => field_is b "dimension" DIMENSION_UPHELD) (map_values g)).
  apply N.add_le_mono_l, len_filter_mono. intros x _ Hx.
  unfold is_overrule in Hx. by apply andb_true_iff in Hx as [? _].
Qed.

Lemma governing_values_In cands elig na b :
  In b (map_values (governing_ballots cands elig na)) ->
  In b cands /\ In (attesting_key_id b) elig /\
  match na with Some t => (asserted_at b <= t)%Z | None => True end.
Proof.
  unfold governing_ballots, map_values. intros Hb. apply insert_last_values_In in Hb.
  apply sort_by_In, filter_In in Hb as [Hb Hna]. apply filter_In in Hb as [Hb He].
  split_and!; [done|by apply mem_true|]. destruct na; [by apply Z.leb_le|done].
Qed.

Lemma governing_authors_NoDup cands elig na :
  NoDup (map attesting_key_id (map_values (governing_ballots cands elig na))).
Proof. unfold governing_ballots, map_values. apply insert_last_keys_NoDup. Qed.

(** A ballot of [side] on the objection, cast by [k] about the action, dated
    between the action and [now]. *)
Definition Balloted (bs : list Attestation) (act : ActionRef) (o : Attestation) (now : instant)
    (side k : string) : Prop :=
  exists b, In b bs /\ attesting_key_id b = k /\ is_ballot_on b act o now = true /\
            envelope_str b "dimension" = Some side.

(** Counting a side of the governing ballots counts distinct eligible authors. *)
Lemma side_voters (side : string) (f : Attestation -> bool) cands elig na :
  (forall b, f b = true -> envelope_str b "dimension" = Some side) ->
  exists voters, NoDup voters /\
    len voters = len (List.filter f (map_values (governing_ballots cands elig na))) /\
    forall k, In k voters -> In k elig /\
      exists b, In b cands /\ attesting_key_id b = k /\ envelope_str b "dimension" = Some side.
Proof.
  intros Hf. set (vals := map_values (governing_ballots cands elig na)).
  exists (map attesting_key_id (List.filter f vals)). split_and!.
  - pose proof (governing_authors_NoDup cands elig na) as Hnd. fold vals in Hnd.
    clear -Hnd. induction vals as [|b l IH]; simpl in *; [constructor|].
    apply NoDup_cons in Hnd as [Hb Hnd]. destruct (f b); simpl; [|by apply IH].
    apply NoDup_cons. split; [|by apply IH]. intros Hin. apply Hb.
    apply list_elem_of_fmap in Hin as (x & -> & Hx). apply list_elem_of_fmap. exists x.
    split; [done|]. apply list_elem_of_In in Hx. apply filter_In in Hx as [Hx _].
    by apply list_elem_of_In.
  - unfold len. by rewrite length_map.
  - intros k Hk. apply in_map_iff in Hk as (b & <- & Hb). apply filter_In in Hb as [Hb Hfb].
    apply governing_values_In in Hb as (Hc & He & _). eauto 6.
Qed.

(** ** The escalation record *)

Section Escalation.
Context `{Chrono} `{StrictMajority}.
Implicit Types (act : ActionRef) (o : Attestation) (bs : list Attestation).

(** Escalation opens only after the deadline or on the duty-holders' own
    overruling, and only for a policy that declares a steward tier. *)
Lemma escalates_inv act o bs ros duty p t :
  escalates (oe_steward (escalate_objection act o bs ros duty p t)) = true ->
  (exists d, steward_deadline p (action_asserted_at act) = Some d /\ (d <= t)%Z) \/
  oe_steward (escalate_objection act o bs ros duty p t) = Overruled.
Proof.
  unfold escalate_objection.
  destruct (tally (governing_ballots _ _ (steward_deadline _ _))) as [ru ro].
  destruct (tally (governing_ballots _ _ None)) as [u v]. cbn [oe_steward].
  repeat case_if; simpl; try done; intros _; [by right|..];
    left; destruct (steward_deadline p (action_asserted_at act)) as [d|]; try done;
    exists d; breflect; auto.
Qed.

(** The suppressing outcome, spelled out. *)
Lemma dismissed_inv act o bs ros duty p t :
  let r := escalate_objection act o bs ros duty p t in
  oe_outcome r = Dismissed ->
  escalates (oe_steward r) = true /\
  oe_required r = escalated_dismissal_required p (respondents r) /\
  (oe_required r <= overrule_ballots r)%N /\ (uphold_ballots r < oe_required r)%N /\
  (uphold_ballots r + overrule_ballots r <= respondents r)%N /\
  exists voters, NoDup voters /\ len voters = overrule_ballots r /\
    forall k, In k voters ->
      In k ros /\ k <> actor_key_id act /\ Balloted bs act o t DIMENSION_OVERRULED k.
Proof.
  unfold escalate_objection. cbn zeta.
  destruct (tally (governing_ballots _ _ (steward_deadline _ _))) as [ru ro].
  set (rel := List.filter (fun b => is_ballot_on b act o t) bs).
  set (elig := List.filter (fun k => k <>s actor_key_id act) ros).
  destruct (tally (governing_ballots rel elig None)) as [u v] eqn:Et.
  cbn [oe_steward oe_outcome oe_required respondents uphold_ballots overrule_ballots].
  destruct (escalates _); simpl; [|done].
  destruct (N.leb_spec (escalated_dismissal_required p (len (map_values (governing_ballots rel elig None)))) u);
    [done|].
  destruct (N.leb_spec (escalated_dismissal_required p (len (map_values (governing_ballots rel elig None)))) v);
    [|done].
  intros _. split_and!; try done; [by apply (tally_le (governing_ballots rel elig None))|].
  assert (Hover : forall b, is_overrule b = true -> envelope_str b "dimension" = Some DIMENSION_OVERRULED).
  { intros b Hb. apply andb_true_iff in Hb as [_ Hb]. by apply field_is_true. }
  destruct (side_voters DIMENSION_OVERRULED is_overrule rel elig None Hover) as (vs & Hnd & Hlen & Hvs).
  exists vs. rewrite tally_spec in Et. injection Et as Eu Ev.
  split_and!; [done|congruence|]. intros k Hk. apply Hvs in Hk as [Hel (b & Hb & Hbk & Hdim)].
  apply filter_In in Hel as [Hros Hact]. apply filter_In in Hb as [Hb Hon].
  apply negb_true_iff, String.eqb_neq in Hact. split_and!; try done. by exists b.
Qed.

(** ** Permuted rows give the same record *)

Lemma ballot_lt_spec a b :
  ballot_lt a b = true <->
  (asserted_at a < asserted_at b)%Z \/
  (asserted_at a = asserted_at b /\ (uphold_rank a < uphold_rank b)%N) \/
  (asserted_at a = asserted_at b /\ uphold_rank a = uphold_rank b /\
   (attestation_id a <s attestation_id b) = true).
Proof.
  unfold ballot_lt. destruct (Z.eqb_spec (asserted_at a) (asserted_at b));
    destruct (N.eqb_spec (uphold_rank a) (uphold_rank b)); simpl;
    rewrite ?Z.ltb_lt, ?N.ltb_lt; intuition lia.
Qed.

Lemma ballot_lt_trans a b c : ballot_lt a b = true -> ballot_lt b c = true -> ballot_lt a c = true.
Proof.
  rewrite !ballot_lt_spec. intros [?|[[??]|(?&?&Hab)]] [?|[[??]|(?&?&Hbc)]];
    try (left; lia); right; try (left; lia).
  right. split_and!; [congruence..|]. by eapply string_ltb_trans.
Qed.

Lemma ballot_lt_asym a b : ballot_lt a b = true -> ballot_lt b a = false.
Proof.
  intros Hab. apply not_true_iff_false. intros Hba. revert Hab Hba.
  rewrite !ballot_lt_spec. intros [?|[[??]|(?&?&Hab)]] [?|[[??]|(?&?&Hba)]]; try lia.
  apply string_ltb_asym in Hab. congruence.
Qed.

Lemma ballot_lt_cotrans a b c :
  ballot_lt a c = true -> ballot_lt a b = true \/ ballot_lt b c = true.
Proof.
  rewrite !ballot_lt_spec.
  destruct (Z.lt_trichotomy (asserted_at a) (asserted_at b)) as [?|[Et|?]]; [auto|..|intros; right; lia].
  destruct (N.lt_trichotomy (uphold_rank a) (uphold_rank b)) as [?|[Er|?]]; [auto|..|intros; right; lia].
  intros [?|[[??]|(?&?&Hac)]]; [right; lia..|].
  destruct (string_ltb_cotrans _ (attestation_id b) _ Hac); [left|right]; right; right; auto with lia.
Qed.

Lemma ballot_lt_connected a b :
  ballot_lt a b = false -> ballot_lt b a = false -> attestation_id a = attestation_id b.
Proof.
  unfold ballot_lt. rewrite (Z.eqb_sym (asserted_at b)), (N.eqb_sym (uphold_rank b)).
  destruct (Z.eqb_spec (asserted_at a) (asserted_at b)); simpl; [|breflect; lia].
  destruct (N.eqb_spec (uphold_rank a) (uphold_rank b)); simpl; [|breflect; lia].
  apply string_ltb_total.
Qed.

Lemma mem_perm k l l' : Permutation l l' -> mem k l = mem k l'.
Proof.
  intros Hp. unfold mem. apply existsb_perm. intros x.
  split; apply Permutation_in; [done|by symmetry].
Qed.

Lemma filter_perm_ext {A} (f g : A -> bool) l l' :
  (forall x, f x = g x) -> Permutation l l' ->
  Permutation (List.filter f l) (List.filter g l').
Proof.
  intros Hfg Hp. rewrite (List.filter_ext _ _ Hfg). by apply perm_filter.
Qed.

Lemma governing_perm cands cands' elig elig' na :
  NoDup (map attestation_id cands) -> Permutation cands cands' -> Permutation elig elig' ->
  governing_ballots cands elig na = governing_ballots cands' elig' na.
Proof.
  intros Hnd Hp He. unfold governing_ballots. f_equal.
  apply sort_by_perm_eq; [eauto using ballot_lt_trans, ballot_lt_asym, ballot_lt_cotrans..| |].
  - intros a b Ha Hb Hab Hba. apply filter_In in Ha as [Ha _], Hb as [Hb _].
    apply filter_In in Ha as [Ha _], Hb as [Hb _].
    eapply ids_inj; eauto. by apply ballot_lt_connected.
  - apply perm_filter, filter_perm_ext; [|done]. intros x. by apply mem_perm.
Qed.

Lemma escalate_perm act o bs bs' ros ros' duty duty' p t :
  NoDup (map attestation_id bs) -> Permutation bs bs' ->
  Permutation ros ros' -> Permutation duty duty' ->
  escalate_objection act o bs ros duty p t = escalate_objection act o bs' ros' duty' p t.
Proof.
  intros Hnd Hb Hr Hd. unfold escalate_objection.
  set (rel := List.filter (fun b => is_ballot_on b act o t) bs).
  set (rel' := List.filter (fun b => is_ballot_on b act o t) bs').
  assert (Hrel : Permutation rel rel') by (by apply perm_filter).
  assert (Hndr : NoDup (map attestation_id rel)) by (by apply NoDup_filter_ids).
  rewrite (governing_perm rel rel' _
             (List.filter (fun k => (k <>s actor_key_id act) && (k <>s attesting_key_id o)) duty'))
    by (done || by apply perm_filter).
  rewrite (governing_perm rel rel' _ (List.filter (fun k => k <>s actor_key_id act) ros') None)
    by (done || by apply perm_filter).
  rewrite (len_perm _ _ (perm_filter (fun k => (k <>s actor_key_id act) && (k <>s attesting_key_id o))
             duty duty' Hd)).
  done.
Qed.
End Escalation.

(** ** What the loop counts *)

Section Fold.
Context `{Chrono} `{StrictMajority}.
Implicit Types (inp : ReverseQuorumInputs) (p : ReverseQuorumPolicy) (o : Attestation).

Definition in_scope inp p o : bool :=
  objection_in_scope (action inp) (roster inp) (window p (action_asserted_at (action inp))).1
    (window p (action_asserted_at (action inp))).2 o.

Definition lifted inp o : bool := mem (attestation_id o) (dismissed_set (dismissals inp)).

Definition record_of inp p o : ObjectionEscalation :=
  escalate_objection (action inp) o (ballots inp) (roster inp) (duty_holders inp) p (now inp).

(** The escalated pool overruled it. *)
Definition overruled inp p o : bool :=
  match steward p with
  | None => false
  | Some _ => match oe_outcome (record_of inp p o) with Dismissed => true | _ => false end
  end.

(** The objections that carry weight. *)
Definition counts inp p o : bool := in_scope inp p o && negb (lifted inp o) && negb (overruled inp p o).

Lemma count_objection_objectors st o :
  fs_objectors (count_objection st o)
  = if mem (attesting_key_id o) (fs_objectors st) then fs_objectors st
    else fs_objectors st ++ [attesting_key_id o].
Proof. unfold count_objection. by destruct (mem _ _). Qed.

Lemma count_objection_other st o :
  fs_dismissed (count_objection st o) = fs_dismissed st /\
  fs_escalated (count_objection st o) = fs_escalated st /\
  fs_escalation (count_objection st o) = fs_escalation st.
Proof. unfold count_objection. by destruct (mem _ _). Qed.

(** One iteration, field by field. *)
Lemma fold_body_spec inp p st o :
  fs_objectors (fold_body inp p st o)
  = (if counts inp p o && negb (mem (attesting_key_id o) (fs_objectors st))
     then fs_objectors st ++ [attesting_key_id o] else fs_objectors st) /\
  fs_dismissed (fold_body inp p st o)
  = fs_dismissed st ++ (if in_scope inp p o && lifted inp o then [attestation_id o] else []) /\
  fs_escalated (fold_body inp p st o)
  = fs_escalated st ++ (if in_scope inp p o && negb (lifted inp o) && overruled inp p o
                        then [attestation_id o] else []) /\
  fs_escalation (fold_body inp p st o)
  = fs_escalation st ++ (if in_scope inp p o && negb (lifted inp o) && bool_decide (is_Some (steward p))
                         then [record_of inp p o] else []).
Proof.
  unfold fold_body, counts, overruled, in_scope, lifted.
  destruct (window p (action_asserted_at (action inp))) as [opens closes]. simpl.
  destruct (objection_in_scope _ _ _ _ _); simpl; [|by rewrite !app_nil_r].
  destruct (mem (attestation_id o) _); simpl; [by rewrite !app_nil_r|].
  fold (record_of inp p o). destruct (steward p) as [tier|]; simpl.
  - destruct (oe_outcome (record_of inp p o)); simpl;
      rewrite ?count_objection_objectors, ?app_nil_r;
      try (destruct (count_objection_other
             (mk_FoldState (fs_counted st) (fs_objectors st) (fs_dismissed st) (fs_escalated st)
                (fs_escalation st ++ [record_of inp p o])) o) as (-> & -> & ->));
      simpl; split_and!; try done; by destruct (mem _ _).
  - rewrite count_objection_objectors, !app_nil_r.
    destruct (count_objection_other st o) as (-> & -> & ->).
    split_and!; try done. by destruct (mem _ _).
Qed.

Lemma fold_left_app_if {A B S} (f : S -> A -> S) (proj : S -> list B) (b : A -> bool) (g : A -> B)
    (l : list A) (s : S) :
  (forall s x, proj (f s x) = proj s ++ (if b x then [g x] else [])) ->
  proj (fold_left f l s) = proj s ++ map g (List.filter b l).
Proof.
  intros Hf. revert s; induction l as [|x l IH]; intros s; simpl; [by rewrite app_nil_r|].
  rewrite IH, Hf, <- app_assoc. by destruct (b x).
Qed.

Lemma fold_loop_dismissed inp p :
  fs_dismissed (fold_loop inp p)
  = map attestation_id (List.filter (fun o => in_scope inp p o && lifted inp o) (objections inp)).
Proof.
  refine (fold_left_app_if (fold_body inp p) fs_dismissed _ attestation_id (objections inp) _ _).
  intros s x. apply fold_body_spec.
Qed.

Lemma fold_loop_escalated inp p :
  fs_escalated (fold_loop inp p)
  = map attestation_id
      (List.filter (fun o => in_scope inp p o && negb (lifted inp o) && overruled inp p o)
         (objections inp)).
Proof.
  refine (fold_left_app_if (fold_body inp p) fs_escalated _ attestation_id (objections inp) _ _).
  intros s x. apply fold_body_spec.
Qed.

Lemma fold_loop_escalation inp p :
  fs_escalation (fold_loop inp p)
  = map (record_of inp p)
      (List.filter (fun o => in_scope inp p o && negb (lifted inp o)
                             && bool_decide (is_Some (steward p))) (objections inp)).
Proof.
  refine (fold_left_app_if (fold_body inp p) fs_escalation _ (record_of inp p) (objections inp) _ _).
  intros s x. apply fold_body_spec.
Qed.

Lemma fold_left_objectors inp p l st k :
  In k (fs_objectors (fold_left (fold_body inp p) l st)) <->
  In k (fs_objectors st) \/ exists o, In o l /\ counts inp p o = true /\ attesting_key_id o = k.
Proof.
  revert st; induction l as [|o l IH]; intros st; simpl; [naive_solver|].
  rewrite IH. destruct (fold_body_spec inp p st o) as (-> & _).
  destruct (counts inp p o) eqn:Ec; simpl; [|naive_solver congruence].
  destruct (mem (attesting_key_id o) (fs_objectors st)) eqn:Em; simpl.
  - apply mem_true in Em. naive_solver.
  - rewrite in_app_iff. simpl. naive_solver.
Qed.

Lemma fold_left_NoDup inp p l st :
  NoDup (fs_objectors st) -> NoDup (fs_objectors (fold_left (fold_body inp p) l st)).
Proof.
  revert st; induction l as [|o l IH]; intros st Hnd; simpl; [done|]. apply IH.
  destruct (fold_body_spec inp p st o) as (-> & _).
  destruct (counts inp p o); simpl; [|done].
  destruct (mem (attesting_key_id o) (fs_objectors st)) eqn:Em; simpl; [done|].
  apply NoDup_app. split_and!; [done| |apply NoDup_singleton].
  intros x Hx Hx'. apply list_elem_of_singleton in Hx' as ->.
  apply not_true_iff_false in Em. apply Em, mem_true. by apply list_elem_of_In.
Qed.

(** The members whose objections count. *)
Definition Objector inp p (k : string) : Prop :=
  exists o, In o (objections inp) /\ counts inp p o = true /\ attesting_key_id o = k.

Lemma objectors_spec inp p :
  NoDup (fs_objectors (fold_loop inp p)) /\
  forall k, In k (fs_objectors (fold_loop inp p)) <-> Objector inp p k.
Proof.
  split; [apply fold_left_NoDup, NoDup_nil; done|].
  intros k. unfold fold_loop. rewrite fold_left_objectors. unfold Objector. simpl. naive_solver.
Qed.

(** Counting distinct objectors through any duplicate-free list of them. *)
Lemma objectors_len inp p l :
  NoDup l -> (forall k, In k l <-> Objector inp p k) -> len (fs_objectors (fold_loop inp p)) = len l.
Proof.
  intros Hnd Hl. destruct (objectors_spec inp p) as [Hnd' Hspec]. apply len_perm, NoDup_Permutation;
    [done..|]. intros k. rewrite !list_elem_of_In, Hspec, Hl. done.
Qed.

Lemma fold_standing_eq inp p :
  in_policy inp = Some p ->
  standing (fold_reverse_quorum_over inp)
  = if N.leb (reversal_threshold p (len (roster inp))) (len (fs_objectors (fold_loop inp p)))
    then Reversed
    else if Z.leb (window p (action_asserted_at (action inp))).1 (now inp)
            && Z.leb (now inp) (window p (action_asserted_at (action inp))).2
    then WindowOpen else Stood.
Proof.
  intros Hp. unfold fold_reverse_quorum_over. rewrite Hp.
  by destruct (window p (action_asserted_at (action inp))).
Qed.

Lemma fold_governed inp p :
  in_policy inp = Some p ->
  distinct_objectors (fold_reverse_quorum_over inp) = len (fs_objectors (fold_loop inp p)) /\
  rf_required (fold_reverse_quorum_over inp) = reversal_threshold p (len (roster inp)) /\
  (standing (fold_reverse_quorum_over inp) = Reversed <->
   (reversal_threshold p (len (roster inp)) <= len (fs_objectors (fold_loop inp p)))%N).
Proof.
  intros Hp. unfold fold_reverse_quorum_over. rewrite Hp.
  destruct (window p (action_asserted_at (action inp))) as [opens closes]. simpl.
  split_and!; [done..|]. destruct (N.leb_spec (reversal_threshold p (len (roster inp)))
    (len (fs_objectors (fold_loop inp p)))); [done|].
  destruct (_ && _); split; (done || lia).
Qed.
End Fold.

(** ** Properties *)

(** Concrete inputs: a five-member commons under [reverse_quorum:2/5:86400] with
    a steward tier, one action, and two objections to it. *)
Module RqSamples.
Definition policy := mk_ReverseQuorumPolicy 2 5 86400 (Some (mk_StewardTier 3600 3)).
Definition act := row "act" "mod" "scores" 0%Z (Object []) [].
Definition objection (id by_ : string) (at_ : Z) : Attestation :=
  row id by_ "scores" at_
    (Object [("dimension", Str DIMENSION_OBJECTION); (field.OBJECTS_TO, Str "act")]) [].
Definition ballot (id by_ on : string) (at_ : Z) (up : bool) : Attestation :=
  row id by_ "scores" at_
    (Object [("dimension", Str (if up then DIMENSION_UPHELD else DIMENSION_OVERRULED));
             (field.OBJECTS_TO, Str "act"); (field.BALLOT_ON, Str on)]) [].
Definition members := ["a"; "b"; "c"; "d"; "mod"].
Definition later : Z := 100000000000000.
Definition inputs := mk_ReverseQuorumInputs (action_of act)
  [objection "o1" "a" 5%Z; objection "o2" "b" 6%Z] []
  [ballot "v1" "b" "o1" 90%Z false; ballot "v2" "c" "o1" 91%Z false; ballot "v3" "d" "o1" 92%Z false]
  members ["mod"] (Some policy) later.
Definition shuffled := mk_ReverseQuorumInputs (action_of act)
  (rev (objections inputs)) [] (rev (ballots inputs)) (rev members) ["mod"] (Some policy) later.
Definition quiet := mk_ReverseQuorumInputs (action_of act)
  (objections inputs) [] [] members ["mod"] (Some policy) later.
End RqSamples.

(** The policy grammar round-trips: printing a policy and parsing the string
    gives the policy back exactly when the policy is well formed, that is when
    [1 <= m <= n], the numbers fit their machine widths and a declared respondent
    floor is at least three. *)
Theorem policy_roundtrip (p : ReverseQuorumPolicy) :
  parse (to_protocol_string p) = Some p <-> policy_wf p.
Proof. split; [apply parse_wf|apply parse_print]. Qed.

(** The asymmetry of the brake, for every roster: reversing costs at least one
    objector, never more than the declared [m] nor more than the roster, and never
    more than dismissing does; dismissing costs at least the declared [m] and
    always a strict majority of the roster. *)
Theorem brake_asymmetry `{Chrono} `{StrictMajority} (p : ReverseQuorumPolicy) (roster_size : N) :
  policy_wf p ->
  (1 <= reversal_threshold p roster_size <= dismissal_threshold p roster_size)%N /\
  (reversal_threshold p roster_size <= rq_m p <= dismissal_threshold p roster_size)%N /\
  (reversal_threshold p roster_size <= N.max roster_size 1)%N /\
  (roster_size < 2 * dismissal_threshold p roster_size)%N /\
  dismissal_required p roster_size true = OBJECTION_THRESHOLD.
Proof.
  intros [Hm _]. pose proof (dismissal_majority p roster_size).
  unfold reversal_threshold, dismissal_required, dismissal_threshold in *. split_and!; lia.
Qed.

Lemma brake_asymmetry_witness :
  (1 <= reversal_threshold RqSamples.policy 5 <= dismissal_threshold RqSamples.policy 5)%N /\
  reversal_threshold RqSamples.policy 5 = 2%N /\ dismissal_threshold RqSamples.policy 5 = 3%N.
Proof.
  split; [|split; reflexivity].
  apply (brake_asymmetry RqSamples.policy 5).
  unfold policy_wf; simpl; unfold ESCALATION_RESPONDENT_FLOOR, usize_max, u64_max, u32_max; lia.
Defined.

(** C9. The standing the fold reports. A governed action is reversed exactly when
    some set of distinct members, as large as the reversal threshold of the live
    roster, has objections that count: each in scope (right dimension, right
    action, author on the roster, dated in the window), not named by a dismissal,
    and not overruled by the escalated pool. Otherwise it is open or stood by the
    window alone. *)
Theorem fold_standing_spec `{Chrono} `{StrictMajority}
    (inp : ReverseQuorumInputs) (p : ReverseQuorumPolicy) :
  in_policy inp = Some p ->
  let f := fold_reverse_quorum_over inp in
  (standing f = Reversed <->
   exists l, NoDup l /\ (forall k, In k l -> Objector inp p k) /\
             (reversal_threshold p (len (roster inp)) <= len l)%N) /\
  (standing f <> Reversed ->
   standing f = if window_open f then WindowOpen else Stood).
Proof.
  intros Hp. destruct (fold_governed inp p Hp) as (_ & _ & Hst).
  destruct (objectors_spec inp p) as [Hnd Hobj]. cbn zeta. split.
  - rewrite Hst. split.
    + intros Hle. exists (fs_objectors (fold_loop inp p)). split_and!; try done.
      intros k. apply Hobj.
    + intros (l & Hndl & Hl & Hle). etrans; [exact Hle|].
      apply len_incl; [done|]. intros k Hk. by apply Hobj, Hl.
  - unfold fold_reverse_quorum_over. rewrite Hp.
    destruct (window p (action_asserted_at (action inp))) as [opens closes]. simpl.
    destruct (N.leb _ _); [done|]. intros _. by destruct (_ && _).
Qed.

Lemma fold_standing_spec_witness :
  standing (fold_reverse_quorum_over RqSamples.quiet) = Reversed.
Proof.
  apply (fold_standing_spec RqSamples.quiet RqSamples.policy eq_refl).
  exists ["a"; "b"]. split_and!; [repeat constructor; set_solver| |vm_compute; discriminate].
  intros k [<-|[<-|[]]].
  - exists (RqSamples.objection "o1" "a" 5%Z). split_and!; [by left|vm_compute; reflexivity..].
  - exists (RqSamples.objection "o2" "b" 6%Z). split_and!; [by right; left|vm_compute; reflexivity..].
Defined.

(** An escalated undo is never cheap and never silent. When the commons
    suppresses an objection by escalation, the duty-holders' deadline has passed or
    they overruled it themselves; at least three distinct roster members, the
    action's author not among them, cast an overruling ballot on this objection
    dated between the action and now; they are a strict majority of all who
    answered, so the upholding side fell short. *)
Theorem escalated_dismissal_safe `{Chrono} `{StrictMajority} (act : ActionRef) (o : Attestation)
    (bs : list Attestation) (ros duty : list string) (p : ReverseQuorumPolicy) (t : instant) :
  let r := escalate_objection act o bs ros duty p t in
  oe_outcome r = Dismissed ->
  ((exists d, steward_deadline p (action_asserted_at act) = Some d /\ (d <= t)%Z) \/
   oe_steward r = Overruled) /\
  (uphold_ballots r < oe_required r)%N /\ (respondents r < 2 * overrule_ballots r)%N /\
  exists voters, NoDup voters /\ (ESCALATION_RESPONDENT_FLOOR <= len voters)%N /\
    (rq_m p <= len voters)%N /\
    forall k, In k voters ->
      In k ros /\ k <> actor_key_id act /\ Balloted bs act o t DIMENSION_OVERRULED k.
Proof.
  cbn zeta. intros Hd. apply dismissed_inv in Hd as (Hesc & Hreq & Hle & Hlt & _ & vs & Hnd & Hlen & Hvs).
  set (r := escalate_objection act o bs ros duty p t) in *.
  pose proof (escalated_majority p (respondents r)).
  pose proof (escalated_floor p (respondents r)).
  assert (rq_m p <= escalated_dismissal_required p (respondents r))%N
    by (unfold escalated_dismissal_required, dismissal_threshold; lia).
  split_and!; [by apply escalates_inv|lia|lia|]. exists vs. split_and!; (done || lia).
Qed.

Lemma escalated_dismissal_safe_witness :
  exists voters, NoDup voters /\ (3 <= len voters)%N /\
    forall k, In k voters -> In k RqSamples.members /\ k <> "mod".
Proof.
  assert (Hd : oe_outcome (escalate_objection (action_of RqSamples.act)
                 (RqSamples.objection "o1" "a" 5%Z) (ballots RqSamples.inputs) RqSamples.members
                 ["mod"] RqSamples.policy RqSamples.later) = Dismissed)
    by (vm_compute; reflexivity).
  pose proof (escalated_dismissal_safe _ _ _ _ _ _ _ Hd) as (_ & _ & _ & vs & Hnd & Hfl & _ & Hvs).
  exists vs. split_and!; [exact Hnd|exact Hfl|].
  intros k Hk. destruct (Hvs k Hk) as (? & ? & _). split; assumption.
Defined.

(** Two nodes hold the same rows about the same action. *)
Record same_rows (inp inp' : ReverseQuorumInputs) : Prop := mk_same_rows {
  same_action : action inp = action inp';
  same_policy : in_policy inp = in_policy inp';
  same_now : now inp = now inp';
  same_objections : Permutation (objections inp) (objections inp');
  same_dismissals : Permutation (dismissals inp) (dismissals inp');
  same_ballots : Permutation (ballots inp) (ballots inp');
  same_roster : Permutation (roster inp) (roster inp');
  same_duty : Permutation (duty_holders inp) (duty_holders inp');
  ballot_ids : NoDup (map attestation_id (ballots inp));
  objection_ids : NoDup (map attestation_id (objections inp));
}.

Section SameRows.
Context `{Chrono} `{StrictMajority} (inp inp' : ReverseQuorumInputs) (Hsame : same_rows inp inp').
Implicit Types (p : ReverseQuorumPolicy) (o : Attestation).

Lemma same_scope p o : in_scope inp p o = in_scope inp' p o.
Proof.
  destruct Hsame. unfold in_scope, objection_in_scope. rewrite same_action0.
  by rewrite (mem_perm _ _ _ same_roster0).
Qed.

Lemma same_lifted o : lifted inp o = lifted inp' o.
Proof.
  destruct Hsame. unfold lifted. apply mem_perm. unfold dismissed_set.
  by apply Permutation_flat_map.
Qed.

Lemma same_record p o : record_of inp p o = record_of inp' p o.
Proof. destruct Hsame. unfold record_of. rewrite same_action0, same_now0. by apply escalate_perm. Qed.

Lemma same_overruled p o : overruled inp p o = overruled inp' p o.
Proof. unfold overruled. by rewrite same_record. Qed.

Lemma same_counts p o : counts inp p o = counts inp' p o.
Proof. unfold counts. by rewrite same_scope, same_lifted, same_overruled. Qed.

Lemma same_objector p k : Objector inp p k <-> Objector inp' p k.
Proof.
  unfold Objector. setoid_rewrite same_counts. pose proof (same_objections _ _ Hsame) as Hp.
  split; intros (o & Hin & Hrest); exists o; (split; [|done]);
    eapply Permutation_in; try exact Hin; [done|by symmetry].
Qed.

Lemma same_escalation p :
  sort_by (fun a b => objection_id a <s objection_id b) (fs_escalation (fold_loop inp p))
  = sort_by (fun a b => objection_id a <s objection_id b) (fs_escalation (fold_loop inp' p)).
Proof.
  apply sort_by_perm_eq; [intros ??; apply string_ltb_asym
                         |intros ???; apply string_ltb_cotrans|..].
  - rewrite fold_loop_escalation. intros a b Ha Hb Hab Hba.
    apply in_map_iff in Ha as (oa & <- & Ha), Hb as (ob & <- & Hb).
    apply filter_In in Ha as [Ha _], Hb as [Hb _].
    f_equal. eapply (ids_inj (objections inp)); eauto using objection_ids.
    pose proof (string_ltb_total _ _ Hab Hba) as E.
    unfold record_of, escalate_objection in E. repeat case_match; done.
  - rewrite !fold_loop_escalation.
    rewrite (map_ext _ _ (same_record p)). apply Permutation_map.
    apply filter_perm_ext; [|by apply same_objections]. intros o. by rewrite same_scope, same_lifted.
Qed.
End SameRows.

(** Convergence: two nodes holding the same rows, in whatever order each
    received them, fold to the same standing, the same objector count, the same
    dismissed and escalation-dismissed ids and the same escalation records. *)
Theorem fold_order_independent `{Chrono} `{StrictMajority} (inp inp' : ReverseQuorumInputs) :
  same_rows inp inp' ->
  let f := fold_reverse_quorum_over inp in
  let f' := fold_reverse_quorum_over inp' in
  standing f = standing f' /\ distinct_objectors f = distinct_objectors f' /\
  rf_required f = rf_required f' /\ window_open f = window_open f' /\
  dismissed_objection_ids f = dismissed_objection_ids f' /\
  escalation f = escalation f' /\
  escalated_dismissed_objection_ids f = escalated_dismissed_objection_ids f'.
Proof.
  intros Hs. cbn zeta. unfold fold_reverse_quorum_over.
  rewrite <- (same_action _ _ Hs), <- (same_policy _ _ Hs), <- (same_now _ _ Hs).
  rewrite <- (len_perm _ _ (same_roster _ _ Hs)).
  destruct (in_policy inp) as [p|]; [|done].
  destruct (window p (action_asserted_at (action inp))) as [opens closes]. simpl.
  assert (Hlen : len (fs_objectors (fold_loop inp p)) = len (fs_objectors (fold_loop inp' p))).
  { destruct (objectors_spec inp p) as [Hnd Hl]. symmetry. apply objectors_len; [done|].
    intros k. rewrite Hl. by apply same_objector. }
  rewrite Hlen. split_and!; try done.
  - rewrite !fold_loop_dismissed. apply sort_strings_perm, Permutation_map.
    apply filter_perm_ext; [|by apply same_objections].
    intros o. by rewrite (same_scope inp inp'), (same_lifted inp inp').
  - by apply same_escalation.
  - rewrite !fold_loop_escalated. apply sort_strings_perm, Permutation_map.
    apply filter_perm_ext; [|by apply same_objections].
    intros o. by rewrite (same_scope inp inp'), (same_lifted inp inp'), (same_overruled inp inp').
Qed.

Lemma fold_order_independent_witness :
  standing (fold_reverse_quorum_over RqSamples.inputs)
  = standing (fold_reverse_quorum_over RqSamples.shuffled).
Proof.
  apply (fold_order_independent RqSamples.inputs RqSamples.shuffled).
  constructor; try reflexivity; try (apply Permutation_rev);
    vm_compute; repeat constructor; set_solver.
Defined.

(** Objections only protect: holding more objection rows never turns a
    reversed action back. *)
Theorem more_objections_keep_reversal `{Chrono} `{StrictMajority}
    (act : ActionRef) (objs more ds bs : list Attestation) (ros duty : list string)
    (p : ReverseQuorumPolicy) (t : instant) :
  standing (fold_reverse_quorum_over
    (mk_ReverseQuorumInputs act objs ds bs ros duty (Some p) t)) = Reversed ->
  standing (fold_reverse_quorum_over
    (mk_ReverseQuorumInputs act (objs ++ more) ds bs ros duty (Some p) t)) = Reversed.
Proof.
  set (i := mk_ReverseQuorumInputs act objs ds bs ros duty (Some p) t).
  set (i' := mk_ReverseQuorumInputs act (objs ++ more) ds bs ros duty (Some p) t).
  destruct (fold_governed i p eq_refl) as (_ & _ & ->), (fold_governed i' p eq_refl) as (_ & _ & ->).
  intros Hle. etrans; [exact Hle|].
  destruct (objectors_spec i p) as [Hnd Hobj], (objectors_spec i' p) as [Hnd' Hobj'].
  apply len_incl; [done|]. intros k Hk. apply Hobj'.
  apply Hobj in Hk as (o & Ho & Hc & Hk). exists o. split_and!; try done. apply in_app_iff. by left.
Qed.

Lemma more_objections_keep_reversal_witness :
  standing (fold_reverse_quorum_over
    (mk_ReverseQuorumInputs (action_of RqSamples.act)
       (objections RqSamples.quiet ++ [RqSamples.objection "o3" "c" 7%Z]) [] []
       RqSamples.members ["mod"] (Some RqSamples.policy) RqSamples.later)) = Reversed.
Proof. apply more_objections_keep_reversal. vm_compute. reflexivity. Defined.

(** Silence lifts nothing: with no ballots held, declaring a steward tier
    changes neither the standing nor the count, whatever the duty-holder set and
    however long past the deadline the read is. *)
Theorem silence_suppresses_nothing `{Chrono} `{StrictMajority}
    (act : ActionRef) (objs ds : list Attestation) (ros duty : list string)
    (m n w : N) (tier : option StewardTier) (t : instant) :
  let fold st := fold_reverse_quorum_over
    (mk_ReverseQuorumInputs act objs ds [] ros duty (Some (mk_ReverseQuorumPolicy m n w st)) t) in
  standing (fold tier) = standing (fold None) /\
  distinct_objectors (fold tier) = distinct_objectors (fold None).
Proof.
  cbn beta zeta.
  set (pt := mk_ReverseQuorumPolicy m n w tier). set (pn := mk_ReverseQuorumPolicy m n w None).
  set (it := mk_ReverseQuorumInputs act objs ds [] ros duty (Some pt) t).
  set (i0 := mk_ReverseQuorumInputs act objs ds [] ros duty (Some pn) t).
  assert (Hov : forall o, overruled it pt o = false).
  { intros o. unfold overruled. destruct (steward pt); [|done].
    destruct (oe_outcome (record_of it pt o)) eqn:E; try done.
    apply dismissed_inv in E as (_ & Hreq & Hle & _ & _ & vs & _ & Hlen & Hvs).
    pose proof (escalated_floor pt (respondents (record_of it pt o))) as Hf.
    unfold record_of, it in Hf, Hle, Hreq, Hlen. simpl in Hf, Hle, Hreq, Hlen.
    destruct vs as [|v vs]; [rewrite len_nil in Hlen; unfold ESCALATION_RESPONDENT_FLOOR in Hf; lia|].
    destruct (Hvs v (or_introl eq_refl)) as (_ & _ & b & [] & _). }
  assert (Hc : forall o, counts it pt o = counts i0 pn o).
  { intros o. unfold counts. rewrite Hov. done. }
  assert (Hlen : len (fs_objectors (fold_loop it pt)) = len (fs_objectors (fold_loop i0 pn))).
  { destruct (objectors_spec i0 pn) as [Hnd Hl]. apply objectors_len; [done|]. intros k.
    rewrite Hl. unfold Objector. by setoid_rewrite Hc. }
  rewrite (fold_standing_eq it pt eq_refl), (fold_standing_eq i0 pn eq_refl).
  rewrite (proj1 (fold_governed it pt eq_refl)), (proj1 (fold_governed i0 pn eq_refl)), Hlen.
  done.
Qed.

(** The objection window opens at the action and closes no earlier, exactly
    [window_secs] later whenever that instant exists in the calendar, and the
    steward deadline never precedes the window's close. *)
Theorem window_bounds `{Chrono} `{StrictMajority} (p : ReverseQuorumPolicy) (t : instant) :
  (t <= MAX_UTC)%Z ->
  (window p t).1 = t /\ (t <= (window p t).2)%Z /\
  ((Z.of_N (rq_window_secs p) <= i64_max)%Z ->
   (Z.of_N (rq_window_secs p) * NANOS <= DURATION_MAX)%Z ->
   (t + Z.of_N (rq_window_secs p) * NANOS <= MAX_UTC)%Z ->
   (window p t).2 = (t + Z.of_N (rq_window_secs p) * NANOS)%Z) /\
  (forall d, steward_deadline p t = Some d -> ((window p t).2 <= MAX_UTC)%Z -> ((window p t).2 <= d)%Z).
Proof.
  intros Ht. unfold window; simpl. split_and!; [done|by apply saturating_add_ge|apply saturating_add_exact|].
  intros d. unfold steward_deadline, window. destruct (steward p); [|done]. simpl. intros [= <-] Hc.
  by apply saturating_add_ge.
Qed.

Lemma window_bounds_witness :
  (window RqSamples.policy 0%Z).2 = (86400 * NANOS)%Z.
Proof.
  apply (window_bounds RqSamples.policy 0%Z); vm_compute; discriminate.
Defined.
