(* ===== verification/Consensus.v ===== *)
(** * The [consensus_protocol] evaluator

    [src/src/federation/consensus.rs] and the vocabulary gate
    [types::consensus_protocol]. The diagnostic texts that
    [Verdict::Insufficient] and [Verdict::Unevaluable] carry are not modelled. *)

From Stdlib Require Import ZArith NArith Lia Ascii.
From stdpp Require Import base list strings gmap.
From S2P Require Import Prelude RustStd Json ReverseQuorum.

Open Scope string_scope.
Open Scope list_scope.
Open Scope persist_scope.

(** ** Vocabulary *)

Module cp.
Definition FOUNDER_ONLY := "founder_only".
Definition UNANIMOUS := "unanimous".
Definition MAJORITY := "majority".
Definition QUORUM_PREFIX := "quorum:".
Definition WEIGHTED_PREFIX := "weighted:".
Definition CUSTOM_PREFIX := "custom:".
Definition OPEN_SELF_ADMIT := "open:self_admit".
End cp.

Definition MEMBER_ROLE_FOUNDER := "founder".
Definition COHORT_SUBKIND_PUBLIC := "public".
Definition RUBRIC_UNIFORM_HALF := "uniform_half".
Definition MAX_CUSTOM_DEPTH : nat := 8.
Definition OPEN_SELF_ADMIT_REMOVAL_FLOOR : N := 2.

Inductive Direction := Add | Remove.

Record Seat := mk_Seat {
  key_id : string;
  role : option string;
  node_bearing : bool;
}.

(** [opt.as_deref() == Some(v)]. *)
Definition opt_is (o : option string) (v : string) : bool :=
  match o with Some x => x =s v | None => false end.

Definition is_founder (s : Seat) : bool := opt_is (role s) MEMBER_ROLE_FOUNDER.

Record Ballot := mk_Ballot {
  protocol : string;
  subkind : option string;
  policy_blob : option Value;
  b_roster : list Seat;
  signers : gset string;
  direction : Direction;
  subject : option string;
}.

(** [Ballot { protocol: proto, ..*b }]. *)
Definition with_protocol (b : Ballot) (proto : string) : Ballot :=
  mk_Ballot proto (subkind b) (policy_blob b) (b_roster b) (signers b) (direction b) (subject b).

Inductive Verdict := Admit | Insufficient | Unevaluable.

Definition admits (v : Verdict) : bool := match v with Admit => true | _ => false end.

(** [if c { Verdict::Admit } else { insufficient(..) }]. *)
Definition admit_if (c : bool) : Verdict := if c then Admit else Insufficient.

(** ** Eligibility *)

Definition eligible (b : Ballot) : list Seat :=
  let founders_only := opt_is (subkind b) "infrastructure" in
  List.filter (fun s => negb founders_only || (is_founder s && negb (node_bearing s))) (b_roster b).

Definition signed (signers : gset string) (k : string) : bool := bool_decide (k ∈ signers).

Definition counted (elig : list Seat) (signers : gset string) : list Seat :=
  List.filter (fun s => signed signers (key_id s)) elig.

Definition is_add (d : Direction) : bool := match d with Add => true | Remove => false end.

(** How many of these seats are not [k]'s. *)
Definition others (k : string) (l : list Seat) : N := len (List.filter (fun s => key_id s <>s k) l).

Definition parse_quorum_tail (tail : string) : option (N * N) :=
  '(m, n) ← split_once "/" tail;
  m ← parse_u32 m;
  n ← parse_u32 n;
  if N.ltb 0 n && N.leb m n then Some (m, n) else None.

(** ** Open admission *)

Definition evaluate_open_self_admit (b : Ballot) (got : list Seat) : Verdict :=
  if negb (opt_is (subkind b) COHORT_SUBKIND_PUBLIC) then Unevaluable
  else
    let seated k := existsb (fun s => key_id s =s k) (b_roster b) in
    let voices :=
      len (List.filter (fun s => negb (opt_is (subject b) (key_id s))) got) in
    let floor := admit_if (N.leb OPEN_SELF_ADMIT_REMOVAL_FLOOR voices) in
    if is_add (direction b) then
      match subject b with
      | Some k => if negb (seated k) then admit_if (signed (signers b) k) else floor
      | None => floor
      end
    else floor.

(** ** Weighted rubrics *)

Definition seat_weight (weights : Value) (default : F64.t) (s : Seat) : F64.t :=
  match get weights (key_id s) ≫= as_f64 with
  | Some w => w
  | None =>
      match (r ← role s; v ← get weights ("role:" +:+ r); as_f64 v) with
      | Some w => w
      | None => default
      end
  end.

(** The declared threshold, or [None] when the declaration is refused. *)
Definition declared_threshold (decl : Value) (total : F64.t) : option F64.t :=
  t ← match get decl "threshold" ≫= as_f64, get decl "threshold_fraction" ≫= as_f64 with
      | Some t, None => Some t
      | None, Some f =>
          if F64.leb F64.zero f && F64.leb f F64.one
          then Some (F64.max (F64.mul f total) F64.MIN_POSITIVE)
          else None
      | _, _ => None
      end;
  if negb (F64.is_finite t) || F64.leb t F64.zero then None else Some t.

Definition eval_weighted (b : Ballot) (elig got : list Seat) (rubric : string) : Verdict :=
  if rubric =s RUBRIC_UNIFORM_HALF then
    let threshold := F64.ceil (F64.div (F64.of_N (len elig)) (F64.of_N 2)) in
    admit_if (F64.leb threshold (F64.sum (map (fun _ => F64.one) got)))
  else
    match (pb ← policy_blob b; r ← get pb "rubrics"; get r rubric) with
    | None => Unevaluable
    | Some decl =>
        let weights := match get decl "weights" with Some w => w | None => Null end in
        let default :=
          match get decl "default_weight" ≫= as_f64 with Some d => d | None => F64.zero end in
        let w := seat_weight weights default in
        let total := F64.sum (map w elig) in
        match declared_threshold decl total with
        | None => Unevaluable
        | Some threshold => admit_if (F64.leb threshold (F64.sum (map w got)))
        end
    end.

Section Evaluator.
Context `{StrictMajority}.

(** ** The arms of [evaluate]; [on_custom] is the [custom:] arm *)
Definition evaluate_arms (on_custom : string -> list Seat -> list Seat -> Verdict) (b : Ballot)
    : Verdict :=
  let elig := eligible b in
  let got := counted elig (signers b) in
  let n := len elig in
  let p := protocol b in
  if p =s cp.OPEN_SELF_ADMIT then evaluate_open_self_admit b got
  else if is_add (direction b)
          && match subject b with
             | Some k => Nat.eqb (size (signers b)) 1 && signed (signers b) k
             | None => false
             end then Insufficient
  else if N.eqb (len got) 0 then Insufficient
  else if p =s cp.FOUNDER_ONLY then admit_if (existsb is_founder got)
  else if p =s cp.UNANIMOUS then
    match direction b, subject b with
    | Remove, Some removed =>
        let voices := others removed got in
        let rest := others removed elig in
        admit_if (N.eqb voices rest && N.ltb n (2 * voices))
    | _, _ => admit_if (N.eqb (len got) n)
    end
  else if p =s cp.MAJORITY then admit_if (N.ltb n (2 * len got))
  else if starts_with REVERSE_QUORUM_PREFIX p then
    match parse p with
    | None => Unevaluable
    | Some policy =>
        match direction b with
        | Remove => Admit
        | Add => admit_if (N.leb (dismissal_threshold policy n) (len got))
        end
    end
  else match strip_prefix cp.QUORUM_PREFIX p with
  | Some tail =>
      match parse_quorum_tail tail with
      | None => Unevaluable
      | Some (m, _) => admit_if (N.leb (N.max m 1) (len got))
      end
  | None =>
  match strip_prefix cp.WEIGHTED_PREFIX p with
  | Some rubric => eval_weighted b elig got rubric
  | None =>
  match strip_prefix cp.CUSTOM_PREFIX p with
  | Some id => on_custom id elig got
  | None => Unevaluable
  end end end.

(** ** Custom expressions

    The leaves re-enter the evaluator with one of five fixed protocol shapes, none
    of them [custom:]; the arm they cannot reach is left refusing. *)
Definition sub (b : Ballot) (proto : string) : Verdict :=
  evaluate_arms (fun _ _ _ => Unevaluable) (with_protocol b proto).

(** The leaf operators. *)
Definition eval_leaf (b : Ballot) (elig got : list Seat) (op : string) (arg : Value) : Verdict :=
  if op =s "founder" then sub b cp.FOUNDER_ONLY
  else if op =s "majority" then sub b cp.MAJORITY
  else if op =s "unanimous" then sub b cp.UNANIMOUS
  else if op =s "quorum" then
    match as_u64 arg with
    | Some m => sub b (cp.QUORUM_PREFIX +:+ fmt_N m +:+ "/"
                         +:+ fmt_N (N.max (N.max (len elig) m) 1))
    | None => Unevaluable
    end
  else if op =s "weighted" then
    match as_str arg with
    | Some r => sub b (cp.WEIGHTED_PREFIX +:+ r)
    | None => Unevaluable
    end
  else if op =s "role" then
    match get_str arg "name", get arg "min" ≫= as_u64 with
    | Some name, Some min =>
        let have := len (List.filter (fun s => opt_is (role s) name) got) in
        admit_if (N.leb (N.max min 1) have)
    | _, _ => Unevaluable
    end
  else Unevaluable.

(** The loop over the operands of [any_of] and [all_of]. *)
Definition eval_items (ev : Value -> Verdict) (op : string)
    : list Value -> option Verdict -> Verdict :=
  fix loop (items : list Value) (last_insufficient : option Verdict) : Verdict :=
    match items with
    | [] =>
        if op =s "all_of" then Admit
        else match last_insufficient with Some v => v | None => Insufficient end
    | item :: rest =>
        match ev item with
        | Admit => if op =s "any_of" then Admit else loop rest last_insufficient
        | Unevaluable => Unevaluable
        | Insufficient =>
            if op =s "all_of" then Insufficient else loop rest (Some Insufficient)
        end
    end.

Fixpoint eval_expr (b : Ballot) (elig got : list Seat) (expr : Value) (depth : nat) {struct expr}
    : Verdict :=
  if Nat.ltb MAX_CUSTOM_DEPTH depth then Unevaluable
  else match expr with
  | Object [(op, arg)] =>
      if (op =s "any_of") || (op =s "all_of") then
        match arg with
        | Array [] => Unevaluable
        | Array items =>
            eval_items (fun item => eval_expr b elig got item (S depth)) op items None
        | _ => Unevaluable
        end
      else eval_leaf b elig got op arg
  | _ => Unevaluable
  end.

(** [evaluate]. *)
Definition evaluate (b : Ballot) : Verdict :=
  evaluate_arms (fun id elig got =>
      match (pb ← policy_blob b; c ← get pb "custom"; get c id) with
      | None => Unevaluable
      | Some expr => eval_expr b elig got expr 0
      end)
    b.

(** ** The count a protocol demands *)
Definition required_signatures (proto : string) (roster_size : N) : option N :=
  if proto =s cp.UNANIMOUS then Some (N.max roster_size 1)
  else if proto =s cp.MAJORITY then Some (roster_size / 2 + 1)%N
  else if starts_with REVERSE_QUORUM_PREFIX proto then
    policy ← parse proto;
    Some (dismissal_threshold policy roster_size)
  else match strip_prefix cp.QUORUM_PREFIX proto with
       | Some tail => '(m, _) ← parse_quorum_tail tail; Some (N.max m 1)
       | None => None
       end.
End Evaluator.

(** ** The vocabulary gate *)

Definition founders_hold_authority (s : string) : bool :=
  (s =s cp.FOUNDER_ONLY) || (s =s cp.OPEN_SELF_ADMIT).

Definition is_canonical_form (s : string) : bool :=
  if (s =s cp.FOUNDER_ONLY) || (s =s cp.UNANIMOUS) || (s =s cp.MAJORITY)
     || (s =s cp.OPEN_SELF_ADMIT) then true
  else if starts_with REVERSE_QUORUM_PREFIX s then
    match parse s with Some _ => true | None => false end
  else match strip_prefix cp.QUORUM_PREFIX s with
  | Some tail =>
      match split_once "/" tail with
      | Some (m_s, n_s) =>
          match parse_u32 m_s, parse_u32 n_s with
          | Some m, Some n => N.ltb 0 n && N.leb m n
          | _, _ => false
          end
      | None => false
      end
  | None =>
  match strip_prefix cp.WEIGHTED_PREFIX s with
  | Some tail => tail <>s ""
  | None =>
  match strip_prefix cp.CUSTOM_PREFIX s with
  | Some tail => tail <>s ""
  | None => false
  end end end.

(** ** Lemmas *)

Section EvaluatorLemmas.
Context `{StrictMajority}.
Implicit Types (b : Ballot) (f g : string -> list Seat -> list Seat -> Verdict).

Definition got b : list Seat := counted (eligible b) (signers b).

(** The one-signer admission the evaluator refuses outside [open:self_admit]. *)
Definition self_signed b : bool :=
  is_add (direction b)
  && match subject b with
     | Some k => Nat.eqb (size (signers b)) 1 && signed (signers b) k
     | None => false
     end.

Lemma signed_true (ss : gset string) k : signed ss k = true <-> k ∈ ss.
Proof. apply bool_decide_eq_true. Qed.

Lemma admit_if_true c : admit_if c = Admit <-> c = true.
Proof. by destruct c. Qed.

Lemma opt_is_true o v : opt_is o v = true <-> o = Some v.
Proof. destruct o; simpl; [|done]. rewrite String.eqb_eq. naive_solver. Qed.

(** Without a [custom:] prefix the custom arm is not consulted. *)
Lemma arms_ext f g b :
  strip_prefix cp.CUSTOM_PREFIX (protocol b) = None -> evaluate_arms f b = evaluate_arms g b.
Proof. intros E. unfold evaluate_arms. by rewrite E. Qed.

(** A leaf's re-entry is the evaluator itself at the leaf's protocol. *)
Lemma sub_is_evaluate b proto :
  strip_prefix cp.CUSTOM_PREFIX proto = None -> sub b proto = evaluate (with_protocol b proto).
Proof. intros E. by apply arms_ext. Qed.

Lemma arms_admit f b :
  protocol b <> cp.OPEN_SELF_ADMIT -> evaluate_arms f b = Admit ->
  self_signed b = false /\ (len (got b) <> 0)%N.
Proof.
  intros Hp. unfold evaluate_arms. rewrite (proj2 (String.eqb_neq _ _) Hp).
  fold (self_signed b) (got b). destruct (self_signed b); [done|].
  destruct (N.eqb_spec (len (got b)) 0); done.
Qed.

Lemma got_In b s :
  In s (got b) ->
  In s (b_roster b) /\ key_id s ∈ signers b /\
  (subkind b = Some "infrastructure" -> is_founder s = true /\ node_bearing s = false).
Proof.
  unfold got, counted, eligible. rewrite !filter_In. intros [[Hin He] Hs].
  apply signed_true in Hs. split_and!; try done. intros Hk. rewrite Hk in He. simpl in He.
  by breflect.
Qed.

Lemma got_nonempty b : (len (got b) <> 0)%N -> exists s, In s (got b).
Proof. destruct (got b) as [|s l]; [done|]. eauto using in_eq. Qed.

Lemma got_le b : (len (got b) <= len (eligible b))%N.
Proof. apply len_filter_le. Qed.

(** Two selections of a list that together outnumber it share an element. *)
Lemma filter_overlap {A} (p q : A -> bool) (l : list A) :
  (len l < len (List.filter p l) + len (List.filter q l))%N ->
  exists x, In x l /\ p x = true /\ q x = true.
Proof.
  induction l as [|x l IH]; simpl; [rewrite len_nil; lia|].
  destruct (p x) eqn:Ep, (q x) eqn:Eq; rewrite ?len_cons; intros Hl.
  1: by exists x; auto.
  all: destruct IH as (y & ? & ?); [lia|eauto].
Qed.

(** At least two of the seats, when their keys are distinct. *)
Lemma two_distinct (l : list Seat) :
  NoDup (map key_id l) -> (2 <= len l)%N ->
  exists s1 s2, In s1 l /\ In s2 l /\ key_id s1 <> key_id s2.
Proof.
  destruct l as [|s1 [|s2 l]]; intros Hnd Hl; [unfold len in Hl; simpl in Hl; lia..|].
  exists s1, s2. split_and!; [by left|by right; left|]. simpl in Hnd.
  apply NoDup_cons in Hnd as [Hn _]. intros E. apply Hn. rewrite E. apply list_elem_of_here.
Qed.

Lemma NoDup_filter_keys (p : Seat -> bool) l :
  NoDup (map key_id l) -> NoDup (map key_id (List.filter p l)).
Proof.
  induction l as [|s l IH]; simpl; [done|]. intros Hnd. apply NoDup_cons in Hnd as [Hs Hnd].
  destruct (p s); simpl; [|by apply IH]. apply NoDup_cons. split; [|by apply IH].
  intros Hin. apply Hs. apply list_elem_of_fmap in Hin as (x & -> & Hx). apply list_elem_of_fmap.
  exists x. split; [done|]. apply list_elem_of_In in Hx. apply filter_In in Hx as [Hx _].
  by apply list_elem_of_In.
Qed.

(** The voices the open-admission floor counts. *)
Definition voices b : list Seat :=
  List.filter (fun s => negb (opt_is (subject b) (key_id s))) (got b).

Lemma open_admit b :
  protocol b = cp.OPEN_SELF_ADMIT ->
  evaluate b = Admit ->
  subkind b = Some COHORT_SUBKIND_PUBLIC /\
  ((direction b = Add /\ exists k, subject b = Some k /\ k ∈ signers b /\
      forall s, In s (b_roster b) -> key_id s <> k) \/
   (2 <= len (voices b))%N).
Proof.
  intros Hp. unfold evaluate, evaluate_arms. rewrite (proj2 (String.eqb_eq _ _) Hp).
  fold (got b). unfold evaluate_open_self_admit.
  destruct (opt_is (subkind b) COHORT_SUBKIND_PUBLIC) eqn:Ek; simpl; [|done].
  apply opt_is_true in Ek. intros Hadm. split; [done|].
  fold (voices b) in Hadm. destruct (direction b); simpl in Hadm.
  - destruct (subject b) as [k|] eqn:Es.
    + destruct (existsb _ (b_roster b)) eqn:Ex; simpl in Hadm.
      * right. by apply admit_if_true, N.leb_le in Hadm.
      * left. split; [done|]. exists k. apply admit_if_true, signed_true in Hadm.
        split_and!; try done. intros s Hs E. rewrite existsb_false in Ex.
        specialize (Ex s Hs). by rewrite E, String.eqb_refl in Ex.
    + right. by apply admit_if_true, N.leb_le in Hadm.
  - right. by apply admit_if_true, N.leb_le in Hadm.
Qed.

(** ** Counting more signers *)

Definition with_signers b (ss : gset string) : Ballot :=
  mk_Ballot (protocol b) (subkind b) (policy_blob b) (b_roster b) ss (direction b) (subject b).

Lemma counted_mono (l : list Seat) (ss ss' : gset string) (p : Seat -> bool) :
  ss ⊆ ss' ->
  (len (List.filter p (counted l ss)) <= len (List.filter p (counted l ss')))%N.
Proof.
  intros Hsub. unfold counted.
  induction l as [|s l IH]; simpl; [done|].
  destruct (signed ss (key_id s)) eqn:E.
  - assert (signed ss' (key_id s) = true) as -> by (apply signed_true, Hsub; by apply signed_true).
    simpl. destruct (p s); rewrite ?len_cons; lia.
  - destruct (signed ss' (key_id s)); simpl; [|done]. destruct (p s); rewrite ?len_cons; lia.
Qed.

Lemma filter_true {A} (l : list A) : List.filter (fun _ => true) l = l.
Proof. induction l; simpl; congruence. Qed.

Lemma counted_len_mono (l : list Seat) (ss ss' : gset string) :
  ss ⊆ ss' -> (len (counted l ss) <= len (counted l ss'))%N.
Proof.
  intros Hs. pose proof (counted_mono l ss ss' (fun _ => true) Hs) as Hm.
  by rewrite !filter_true in Hm.
Qed.

Lemma others_counted_le k l ss : (others k (counted l ss) <= others k l)%N.
Proof.
  unfold others, counted. induction l as [|s l IH]; simpl; [done|].
  destruct (signed ss (key_id s)); simpl; destruct (key_id s <>s k); rewrite ?len_cons; lia.
Qed.

Lemma existsb_len {A} (p : A -> bool) (l : list A) :
  existsb p l = true <-> (1 <= len (List.filter p l))%N.
Proof.
  induction l as [|x l IH]; simpl; [done|]. destruct (p x); simpl; rewrite ?len_cons; [|done].
  split; [lia|done].
Qed.

Lemma self_signed_mono b ss' :
  signers b ⊆ ss' -> self_signed b = false -> (len (got b) <> 0)%N ->
  self_signed (with_signers b ss') = false.
Proof.
  intros Hsub Hns Hgot. unfold self_signed in *. simpl.
  destruct (direction b); [|done]. simpl in *. destruct (subject b) as [k|]; [|done].
  destruct (Nat.eqb_spec (size ss') 1) as [H1|]; [|done]. simpl.
  destruct (signed ss' k) eqn:Ek; [|done]. exfalso.
  apply got_nonempty in Hgot as [s Hs]. apply got_In in Hs as (_ & Hs & _).
  apply size_1_elem_of in H1 as [x Hx]. apply leibniz_equiv in Hx. subst ss'.
  apply signed_true, elem_of_singleton in Ek as ->.
  assert (signers b = {[x]}) as E.
  { apply set_eq. intros y. split; [apply Hsub|]. intros Hy%elem_of_singleton. subst y.
    specialize (Hsub _ Hs). apply elem_of_singleton in Hsub. by subst. }
  rewrite E, size_singleton in Hns. simpl in Hns. unfold signed in Hns.
  by rewrite bool_decide_eq_true_2 in Hns by set_solver.
Qed.
End EvaluatorLemmas.

(** ** Properties *)

Module CoSamples.
Definition seat (k : string) (founder node : bool) : Seat :=
  mk_Seat k (if founder then Some "founder" else Some "member") node.
Definition room := [seat "a" true false; seat "b" false false; seat "c" false false].
Definition ballot (proto : string) (ss : list string) (d : Direction) (sub : option string)
    (kind : option string) : Ballot :=
  mk_Ballot proto kind None room (list_to_set ss) d sub.
Definition infra := mk_Ballot cp.FOUNDER_ONLY (Some "infrastructure") None
  [seat "n" true true; seat "a" true false] (list_to_set ["a"; "n"]) Add (Some "z").
End CoSamples.

(** No protocol but open admission admits a change that no eligible member
    signed: an admitted change carries the signature of a seated member, who in an
    [infrastructure] group is a founder whose key is not node-bearing. *)
Theorem admit_needs_eligible_signer `{StrictMajority} (b : Ballot) :
  protocol b <> cp.OPEN_SELF_ADMIT -> evaluate b = Admit ->
  exists s, In s (b_roster b) /\ key_id s ∈ signers b /\
    (subkind b = Some "infrastructure" -> is_founder s = true /\ node_bearing s = false).
Proof.
  intros Hp Ha. apply arms_admit in Ha as [_ Hg]; [|done].
  apply got_nonempty in Hg as [s Hs]. exists s. by apply got_In.
Qed.

Lemma admit_needs_eligible_signer_witness :
  exists s, In s (b_roster CoSamples.infra) /\ is_founder s = true /\ node_bearing s = false.
Proof.
  destruct (admit_needs_eligible_signer CoSamples.infra) as (s & Hin & _ & Hf).
  - discriminate.
  - vm_compute. reflexivity.
  - exists s. split; [exact Hin|exact (Hf eq_refl)].
Defined.

(** A key never seats itself: outside open admission, an addition whose only
    signer is the member it names is refused as insufficient, whatever the
    protocol, the roster and the declared policy say. *)
Theorem no_self_admission `{StrictMajority} (b : Ballot) (k : string) :
  protocol b <> cp.OPEN_SELF_ADMIT -> direction b = Add -> subject b = Some k ->
  signers b = {[k]} -> evaluate b = Insufficient.
Proof.
  intros Hp Hd Hs Hk. unfold evaluate, evaluate_arms. rewrite (proj2 (String.eqb_neq _ _) Hp).
  rewrite Hd, Hs, Hk, size_singleton. unfold signed. by rewrite bool_decide_eq_true_2 by set_solver.
Qed.

Lemma no_self_admission_witness :
  evaluate (CoSamples.ballot cp.FOUNDER_ONLY ["a"] Add (Some "a") None) = Insufficient.
Proof.
  apply (no_self_admission _ "a"); [discriminate|reflexivity|reflexivity|].
  vm_compute. reflexivity.
Defined.

(** One voice never decides who is in a public room. Under open admission a
    change is admitted only in a public group; and apart from a newcomer's own
    signature seating the newcomer, it was signed by two distinct seated members,
    the member it names not one of them. *)
Theorem open_admission_two_voices `{StrictMajority} (b : Ballot) :
  protocol b = cp.OPEN_SELF_ADMIT -> NoDup (map key_id (b_roster b)) -> evaluate b = Admit ->
  subkind b = Some COHORT_SUBKIND_PUBLIC /\
  ((direction b = Add /\ exists k, subject b = Some k /\ k ∈ signers b /\
      forall s, In s (b_roster b) -> key_id s <> k) \/
   exists s1 s2, In s1 (b_roster b) /\ In s2 (b_roster b) /\ key_id s1 <> key_id s2 /\
     key_id s1 ∈ signers b /\ key_id s2 ∈ signers b /\
     subject b <> Some (key_id s1) /\ subject b <> Some (key_id s2)).
Proof.
  intros Hp Hnd Ha. apply open_admit in Ha as [Hk [Hn|Hv]]; [by auto| |done].
  split; [done|]. right.
  destruct (two_distinct (voices b)) as (s1 & s2 & H1 & H2 & Hne); [|done|].
  { unfold voices, got, counted, eligible. by repeat apply NoDup_filter_keys. }
  apply filter_In in H1 as [H1 N1], H2 as [H2 N2]. apply got_In in H1 as (?&?&_), H2 as (?&?&_).
  exists s1, s2. apply negb_true_iff in N1, N2.
  split_and!; try done; intros E; rewrite E in *; simpl in *; by rewrite String.eqb_refl in *.
Qed.

Lemma open_admission_two_voices_witness :
  exists s1 s2, In s1 CoSamples.room /\ In s2 CoSamples.room /\ key_id s1 <> key_id s2.
Proof.
  destruct (open_admission_two_voices
    (CoSamples.ballot cp.OPEN_SELF_ADMIT ["a"; "b"] Remove (Some "c") (Some "public")))
    as [_ [[Hd _]|(s1 & s2 & H1 & H2 & Hne & _)]].
  - reflexivity.
  - vm_compute. repeat constructor; set_solver.
  - vm_compute. reflexivity.
  - discriminate Hd.
  - exists s1, s2. split_and!; assumption.
Defined.

(** The two readers of the vocabulary agree: for every protocol whose answer
    is a count, an addition that is not self-signed is admitted exactly when the
    eligible signers number at least [required_signatures] of the eligible set. *)
Theorem required_signatures_agrees `{StrictMajority} (b : Ballot) (k : N) :
  required_signatures (protocol b) (len (eligible b)) = Some k ->
  direction b = Add -> self_signed b = false ->
  (evaluate b = Admit <-> (k <= len (got b))%N).
Proof.
  intros Hr Hd Hss. pose proof (got_le b) as Hle.
  unfold evaluate, evaluate_arms. fold (self_signed b) (got b). rewrite Hss, Hd.
  destruct (String.eqb_spec (protocol b) cp.OPEN_SELF_ADMIT) as [E|_]; [by rewrite E in Hr|].
  destruct (String.eqb_spec (protocol b) cp.FOUNDER_ONLY) as [E|_]; [by rewrite E in Hr|].
  unfold required_signatures in Hr.
  assert (Hk : (1 <= k)%N).
  { clear -Hr. destruct (String.eqb (protocol b) cp.UNANIMOUS); [injection Hr as <-; lia|].
    destruct (String.eqb (protocol b) cp.MAJORITY); [injection Hr as <-; apply N.le_add_l|].
    destruct (starts_with REVERSE_QUORUM_PREFIX (protocol b));
      [bind_inv Hr; injection Hr as <-; unfold dismissal_threshold; lia|].
    case_opt; [|done]. bind_inv Hr. destruct x as [m ?]. injection Hr as <-. lia. }
  destruct (N.eqb_spec (len (got b)) 0) as [E0|Hn0]; [rewrite E0; split; [done|lia]|].
  destruct (String.eqb (protocol b) cp.UNANIMOUS).
  { injection Hr as <-. rewrite admit_if_true, N.eqb_eq. lia. }
  destruct (String.eqb (protocol b) cp.MAJORITY).
  { injection Hr as <-. rewrite admit_if_true, N.ltb_lt.
    pose proof (N.div_mod' (len (eligible b)) 2) as Hdm.
    assert (Hmod : (len (eligible b) mod 2 < 2)%N) by (by apply N.mod_lt).
    revert Hdm Hmod. generalize (len (eligible b) / 2)%N (len (eligible b) mod 2)%N. lia. }
  destruct (starts_with REVERSE_QUORUM_PREFIX (protocol b)).
  { bind_inv Hr. injection Hr as <-. rewrite E. by rewrite admit_if_true, N.leb_le. }
  destruct (strip_prefix cp.QUORUM_PREFIX (protocol b)); [|done].
  bind_inv Hr. destruct x as [m ?]. injection Hr as <-. rewrite E. by rewrite admit_if_true, N.leb_le.
Qed.

Lemma required_signatures_agrees_witness :
  evaluate (CoSamples.ballot "quorum:2/3" ["a"; "b"] Add (Some "z") None) = Admit.
Proof.
  apply (required_signatures_agrees _ 2); [vm_compute; reflexivity..|].
  vm_compute. discriminate.
Defined.

(** Majorities meet: two changes admitted under [majority] by the same group
    have a common eligible signer, so disjoint factions never both carry. *)
Theorem majorities_intersect `{StrictMajority} (b1 b2 : Ballot) :
  protocol b1 = cp.MAJORITY -> protocol b2 = cp.MAJORITY ->
  b_roster b1 = b_roster b2 -> subkind b1 = subkind b2 ->
  evaluate b1 = Admit -> evaluate b2 = Admit ->
  exists s, In s (b_roster b1) /\ key_id s ∈ signers b1 /\ key_id s ∈ signers b2.
Proof.
  intros P1 P2 Hros Hkind.
  assert (Hmaj : forall b, protocol b = cp.MAJORITY -> evaluate b = Admit ->
                   (len (eligible b) < 2 * len (counted (eligible b) (signers b)))%N).
  { intros b Hp. unfold evaluate, evaluate_arms. rewrite Hp.
    change (String.eqb cp.MAJORITY cp.OPEN_SELF_ADMIT) with false.
    change (String.eqb cp.MAJORITY cp.FOUNDER_ONLY) with false.
    change (String.eqb cp.MAJORITY cp.UNANIMOUS) with false.
    change (String.eqb cp.MAJORITY cp.MAJORITY) with true. cbv iota.
    fold (self_signed b) (got b). destruct (self_signed b); [done|].
    destruct (N.eqb (len (got b)) 0); [done|]. by rewrite admit_if_true, N.ltb_lt. }
  assert (He : eligible b1 = eligible b2) by (unfold eligible; by rewrite Hros, Hkind).
  intros A1%(Hmaj b1 P1) A2%(Hmaj b2 P2). rewrite <- He in A2.
  destruct (filter_overlap (fun s => signed (signers b1) (key_id s))
              (fun s => signed (signers b2) (key_id s)) (eligible b1)) as (s & Hs & S1 & S2).
  { unfold counted in A1, A2. lia. }
  exists s. apply filter_In in Hs as [Hs _]. split_and!; [done|by apply signed_true..].
Qed.

Lemma majorities_intersect_witness :
  exists s, In s CoSamples.room /\ key_id s ∈ (list_to_set ["a"; "b"] : gset string)
            /\ key_id s ∈ (list_to_set ["b"; "c"] : gset string).
Proof.
  apply (majorities_intersect (CoSamples.ballot cp.MAJORITY ["a"; "b"] Add (Some "z") None)
           (CoSamples.ballot cp.MAJORITY ["b"; "c"] Remove (Some "a") None));
    vm_compute; reflexivity.
Defined.

(** More signatures never hurt: for every protocol that is not a declared
    rubric or expression, a change that is admitted stays admitted when further
    keys sign it. *)
Theorem signatures_monotone `{StrictMajority} (b : Ballot) (ss' : gset string) :
  strip_prefix cp.WEIGHTED_PREFIX (protocol b) = None ->
  strip_prefix cp.CUSTOM_PREFIX (protocol b) = None ->
  signers b ⊆ ss' -> evaluate b = Admit -> evaluate (with_signers b ss') = Admit.
Proof.
  intros Hw Hc Hsub Ha. pose proof (counted_len_mono (eligible b) _ _ Hsub) as Hlen.
  destruct (decide (protocol b = cp.OPEN_SELF_ADMIT)) as [Hp|Hp].
  { revert Ha. unfold evaluate, evaluate_arms. simpl. rewrite Hp. cbn beta iota.
    unfold evaluate_open_self_admit. simpl. change (eligible (with_signers b ss')) with (eligible b).
    destruct (negb _); [done|].
    pose proof (counted_mono (eligible b) _ _ (fun s => negb (opt_is (subject b) (key_id s))) Hsub) as Hv.
    destruct (direction b), (subject b) as [k|]; simpl in *; try destruct (negb _);
      rewrite ?admit_if_true, ?N.leb_le, ?signed_true; try lia. apply Hsub. }
  destruct (arms_admit _ b Hp Ha) as [Hss Hg].
  pose proof (self_signed_mono b ss' Hsub Hss Hg) as Hss'.
  revert Ha. unfold evaluate, evaluate_arms.
  change (protocol (with_signers b ss')) with (protocol b).
  change (eligible (with_signers b ss')) with (eligible b).
  fold (self_signed b) (self_signed (with_signers b ss')) (got b). rewrite Hss, Hss', Hw, Hc. simpl.
  fold (got b) in Hlen. rewrite (proj2 (String.eqb_neq _ _) Hp).
  destruct (N.eqb_spec (len (got b)) 0); [done|].
  destruct (N.eqb_spec (len (counted (eligible b) ss')) 0); [lia|].
  destruct (String.eqb (protocol b) cp.FOUNDER_ONLY).
  { rewrite !admit_if_true, !existsb_len.
    pose proof (counted_mono (eligible b) _ _ is_founder Hsub) as Hv. unfold got. lia. }
  pose proof (len_filter_le (fun s => signed ss' (key_id s)) (eligible b)) as Hmax.
  fold (counted (eligible b) ss') in Hmax.
  destruct (String.eqb (protocol b) cp.UNANIMOUS).
  { destruct (direction b), (subject b) as [k|]; rewrite ?admit_if_true, ?andb_true_iff, ?N.eqb_eq, ?N.ltb_lt;
      try lia.
    pose proof (counted_mono (eligible b) _ _ (fun s => key_id s <>s k) Hsub) as Hv.
    pose proof (others_counted_le k (eligible b) ss'). unfold others, got in *. lia. }
  destruct (String.eqb (protocol b) cp.MAJORITY); [rewrite !admit_if_true, !N.ltb_lt; lia|].
  destruct (starts_with REVERSE_QUORUM_PREFIX (protocol b)).
  { destruct (parse (protocol b)); [|done]. destruct (direction b); [|done].
    rewrite !admit_if_true, !N.leb_le. lia. }
  destruct (strip_prefix cp.QUORUM_PREFIX (protocol b)); [|done].
  destruct (parse_quorum_tail _) as [[m ?]|]; [|done]. rewrite !admit_if_true, !N.leb_le. lia.
Qed.

Lemma signatures_monotone_witness :
  evaluate (with_signers (CoSamples.ballot cp.UNANIMOUS ["a"; "b"] Remove (Some "c") None)
              (list_to_set ["a"; "b"; "z"])) = Admit.
Proof.
  apply signatures_monotone; [reflexivity|reflexivity| |vm_compute; reflexivity].
  intros x. cbn [signers CoSamples.ballot]. rewrite !elem_of_list_to_set. set_solver.
Defined.

(** What the evaluator admits, the vocabulary gate accepts, but for the two
    prefixed forms with an empty name, which the gate refuses and the evaluator
    looks up. *)
Theorem admitted_protocols_canonical `{StrictMajority} (b : Ballot) :
  evaluate b = Admit ->
  is_canonical_form (protocol b) = true \/
  protocol b = cp.WEIGHTED_PREFIX \/ protocol b = cp.CUSTOM_PREFIX.
Proof.
  unfold evaluate, evaluate_arms, is_canonical_form.
  destruct (String.eqb (protocol b) cp.OPEN_SELF_ADMIT); [rewrite !orb_true_r; by left|].
  fold (self_signed b) (got b). destruct (self_signed b); [done|].
  destruct (N.eqb (len (got b)) 0); [done|].
  destruct (String.eqb (protocol b) cp.FOUNDER_ONLY); [by left|].
  destruct (String.eqb (protocol b) cp.UNANIMOUS); [by left|].
  destruct (String.eqb (protocol b) cp.MAJORITY); [by left|]. simpl.
  destruct (starts_with REVERSE_QUORUM_PREFIX (protocol b)).
  { destruct (parse (protocol b)); [by left|done]. }
  destruct (strip_prefix cp.QUORUM_PREFIX (protocol b)) as [tail|].
  { unfold parse_quorum_tail. destruct (split_once "/" tail) as [[ms ns]|]; [|done]. simpl.
    destruct (parse_u32 ms) as [m|]; [|done]. simpl. destruct (parse_u32 ns) as [n|]; [|done]. simpl.
    destruct (_ && _); [by left|done]. }
  destruct (strip_prefix cp.WEIGHTED_PREFIX (protocol b)) as [tail|] eqn:Ew.
  { destruct (String.eqb_spec tail "") as [->|]; [|by left]. right; left.
    apply strip_prefix_Some in Ew. rewrite Ew. apply string_app_nil_r. }
  destruct (strip_prefix cp.CUSTOM_PREFIX (protocol b)) as [tail|] eqn:Ec; [|done].
  destruct (String.eqb_spec tail "") as [->|]; [|by left]. right; right.
  apply strip_prefix_Some in Ec. rewrite Ec. apply string_app_nil_r.
Qed.

Lemma admitted_protocols_canonical_witness : is_canonical_form "quorum:2/3" = true.
Proof.
  destruct (admitted_protocols_canonical
    (CoSamples.ballot "quorum:2/3" ["a"; "b"] Add (Some "z") None)) as [Hc|[Hc|Hc]].
  - vm_compute. reflexivity.
  - exact Hc.
  - discriminate Hc.
  - discriminate Hc.
Defined.

(** The empty-named rubric: refused by the gate, admitted by the evaluator. *)
Definition unnamed_rubric : Ballot :=
  mk_Ballot cp.WEIGHTED_PREFIX None
    (Some (Object [("rubrics", Object [("", Object [("default_weight", JInt 1); ("threshold", JInt 1)])])]))
    CoSamples.room (list_to_set ["a"]) Add (Some "z").

Example unnamed_rubric_admitted :
  is_canonical_form (protocol unnamed_rubric) = false /\ evaluate unnamed_rubric = Admit.
Proof. vm_compute. split; reflexivity. Qed.

Lemma eval_all_of ev items last :
  eval_items ev "all_of" items last = Admit <-> forall e, In e items -> ev e = Admit.
Proof.
  revert last. induction items as [|x l IH]; intros last; simpl.
  - split; [|done]. intros _ e [].
  - destruct (ev x) eqn:Ex.
    + rewrite (IH last). split; [intros Hl e [<-|He]; auto|auto].
    + split; [done|]. intros Hall. rewrite (Hall x (or_introl eq_refl)) in Ex. done.
    + split; [done|]. intros Hall. rewrite (Hall x (or_introl eq_refl)) in Ex. done.
Qed.

Lemma eval_any_of ev items last :
  last <> Some Admit ->
  eval_items ev "any_of" items last = Admit <->
  exists pre e post, items = pre ++ e :: post /\ ev e = Admit /\
    forall x, In x pre -> ev x = Insufficient.
Proof.
  revert last. induction items as [|x l IH]; intros last Hlast; simpl.
  { split; [|by intros ([|] & e & post & ? & _)]. by destruct last as [[]|]. }
  destruct (ev x) eqn:Ex.
  - split; [|done]. intros _. exists [], x, l. by split_and!.
  - rewrite IH by done. split.
    + intros (pre & e & post & -> & He & Hpre). exists (x :: pre), e, post.
      split_and!; try done. intros y [<-|Hy]; auto.
    + intros (pre & e & post & E & He & Hpre). destruct pre as [|y pre]; injection E as -> ->.
      { congruence. }
      exists pre, e, post. split_and!; try done. intros z Hz. apply Hpre. by right.
  - split; [done|]. intros (pre & e & post & E & He & Hpre).
    destruct pre as [|y pre]; injection E as -> ->; [congruence|].
    rewrite (Hpre y (or_introl eq_refl)) in Ex. done.
Qed.

(** The connectives of declared expressions: within the depth bound, [all_of]
    admits exactly when every operand admits; [any_of] admits exactly when some
    operand admits and every operand before it was evaluable and insufficient, so
    an operand that cannot be evaluated is never skipped. *)
Theorem expression_connectives `{StrictMajority} (b : Ballot) (elig got : list Seat)
    (items : list Value) (depth : nat) :
  items <> [] -> (depth <= MAX_CUSTOM_DEPTH)%nat ->
  let ev := fun e => eval_expr b elig got e (S depth) in
  (eval_expr b elig got (Object [("all_of", Array items)]) depth = Admit <->
   forall e, In e items -> ev e = Admit) /\
  (eval_expr b elig got (Object [("any_of", Array items)]) depth = Admit <->
   exists pre e post, items = pre ++ e :: post /\ ev e = Admit /\
     forall x, In x pre -> ev x = Insufficient).
Proof.
  intros Hne Hd ev.
  assert (Hop : forall op, (op =s "any_of") || (op =s "all_of") = true ->
    eval_expr b elig got (Object [(op, Array items)]) depth = eval_items ev op items None).
  { intros op Hop. cbn [eval_expr]. rewrite (proj2 (Nat.ltb_ge _ _) Hd), Hop. by destruct items. }
  rewrite !Hop by done. split; [apply eval_all_of|by apply eval_any_of].
Qed.

Lemma expression_connectives_witness :
  let b := CoSamples.ballot "custom:x" ["a"; "b"] Add (Some "z") None in
  eval_expr b (eligible b) (got b)
    (Object [("all_of", Array [Object [("founder", Null)]; Object [("majority", Null)]])]) 0 = Admit.
Proof.
  intros b. apply (expression_connectives b); [discriminate|vm_compute; lia|].
  intros e [<-|[<-|[]]]; vm_compute; reflexivity.
Defined.
