(* ===== verification/TwoPath.v ===== *)
(** * The two-path decision: quorum now, or silence through a window

    [src/src/federation/two_path.rs]: thresholds, the corridor, the decision over
    counts, and the decision over held rows. A [BTreeSet<String>] is a [gset].
    [None] stands for the panic of [chrono]'s unchecked addition past its calendar. *)

From Stdlib Require Import ZArith NArith Lia.
From stdpp Require Import base list strings gmap.
From S2P Require Import Prelude RustStd Json ReverseQuorum.

Open Scope string_scope.
Open Scope list_scope.
Open Scope persist_scope.

(** ** Data *)

Inductive ProposalKind := PAdd | PEvict.

#[export] Instance ProposalKind_eq_dec : EqDecision ProposalKind.
Proof. solve_decision. Defined.

Inductive SilenceRule := EvictOnly | Never.
Inductive Cmp := MoreThan | AtLeast.

Inductive Threshold :=
| TStrictMajority
| Fraction (num den : N) (cmp : Cmp).

Inductive Side := Forward | Reverse.
Inductive Base := StandingRoster.
Inductive FloorClass := Voters | SameIdentity.

#[export] Instance FloorClass_eq_dec : EqDecision FloorClass.
Proof. solve_decision. Defined.

Definition min_count (c : FloorClass) : N :=
  match c with Voters => 2 | SameIdentity => 1 end.

Inductive CancelOver := OverBase | OverOthers.
Inductive AtWindow := AtCancel | StayOpen.

Record TwoPathPolicy := mk_TwoPathPolicy {
  tp_base : Base;
  enact : Threshold;
  cancel : option Threshold;
  cancel_over : CancelOver;
  floor : option Threshold;
  floor_class : FloorClass;
  reverse_path : bool;
  at_window : AtWindow;
  irreversible : bool;
  tp_window_secs : Z;
  silence : SilenceRule;
  one_open_per_proposer : bool;
  one_open_per_target : bool;
}.

Record Resolved := mk_Resolved {
  r_enact : N;
  r_cancel : option N;
  r_floor : option N;
}.

Record Counts := mk_Counts {
  approvals : N;
  objections_n : N;
  target_spoke : bool;
  window_closed : bool;
}.

Inductive CancelReason := CancelReached | BelowFloor | NoReversePath | TargetSpoke.

Inductive CorridorRefusal :=
| CancelAboveEnact | EnactBelowStrictMajority | FloorAboveEnact | CancelBySingleVoter
| EnactNeedsEveryone | EnactBySingleVoter | CancelNeedsEveryone | FloorBelowTwoVoters
| WindowBelowFloor.

Record Proposal := mk_Proposal {
  p_id : string;
  p_kind : ProposalKind;
  proposer : string;
  target : string;
  p_asserted_at : instant;
  received_at : instant;
}.

Record Answers := mk_Answers {
  a_approvers : gset string;
  a_objectors : gset string;
  target_acts : list instant;
}.

Inductive LandingPath := PathQuorum | PathLone.

Inductive TwoPathRefusal :=
| ProposerNotOnRoster | TargetAlreadyOnRoster | TargetNotOnRoster | ProposerIsTarget
| ProposerHasOpenProposal | TargetHasOpenProposal.

Inductive TwoPathDecision :=
| Lands (path : LandingPath)
| Pending (earliest_lone_at : option instant) (needs : N)
| Refused (reason : TwoPathRefusal)
| Cancelled (reason : CancelReason).

Definition lands (d : TwoPathDecision) : bool := match d with Lands _ => true | _ => false end.

Record OpenAhead := mk_OpenAhead { by_proposer : bool; on_target : bool }.

(** ** Thresholds *)

Definition count (base : Base) (ros : gset string) (prop : string) (side : Side)
    (exclude_proposer : bool) : N :=
  match base with
  | StandingRoster =>
      match side with
      | Forward => N.of_nat (size ros)
      | Reverse =>
          N.of_nat (size ros)
          - (if exclude_proposer && bool_decide (prop ∈ ros) then 1 else 0)
      end
  end.

Section Decision.
Context `{Chrono} `{StrictMajority}.

Definition votes (t : Threshold) (n : N) : N :=
  match t with
  | TStrictMajority => strict_majority n
  | Fraction num den cmp =>
      let den := N.max den 1 in
      match cmp with
      | MoreThan => num * n / den + 1
      | AtLeast => (num * n + den - 1) / den
      end
  end.

Definition resolve_over (p : TwoPathPolicy) (forward reverse : N) : Resolved :=
  let mc := min_count (floor_class p) in
  mk_Resolved (votes (enact p) forward)
    ((fun c => N.max (votes c reverse) mc) <$> cancel p)
    ((fun f => N.max (votes f forward) mc) <$> floor p).

Definition resolve (p : TwoPathPolicy) (ros : gset string) (prop : string) : Resolved :=
  let fwd := count (tp_base p) ros prop Forward false in
  let rev := count (tp_base p) ros prop Reverse
               (match cancel_over p with OverOthers => true | OverBase => false end) in
  resolve_over p fwd rev.

(** ** The decision over counts *)

(** [opt.is_some_and(|v| x >= v)]. *)
Definition reaches (v : option N) (x : N) : bool :=
  match v with Some v => N.leb v x | None => false end.

Definition decide_counts (p : TwoPathPolicy) (r : Resolved) (c : Counts) (opens_at : instant)
    : TwoPathDecision :=
  let enact_met := N.leb (r_enact r) (approvals c) in
  if enact_met && negb (irreversible p) then Lands PathQuorum
  else
    let cancel_reached := reaches (r_cancel r) (objections_n c) in
    let lone_open := reverse_path p && negb cancel_reached && negb (target_spoke c) in
    let pending := Pending (if lone_open then Some opens_at else None)
                     (r_enact r - approvals c) in
    let cancelled reason :=
      match at_window p with AtCancel => Cancelled reason | StayOpen => pending end in
    if negb (window_closed c) then pending
    else if cancel_reached then cancelled CancelReached
    else if enact_met then Lands PathQuorum
    else if negb (reverse_path p) then cancelled NoReversePath
    else if target_spoke c then cancelled TargetSpoke
    else if reaches (r_floor r) (approvals c) then Lands PathLone
    else cancelled BelowFloor.

(** ** The corridor: [None] is [Ok(())], [Some r] the refusal *)

Definition check_corridor (p : TwoPathPolicy) (base_n : N) (family_floor_secs : Z)
    : option CorridorRefusal :=
  let e := votes (enact p) base_n in
  let c := votes (default (enact p) (cancel p)) base_n in
  let f := votes (default (enact p) (floor p)) base_n in
  let many := N.ltb 1 base_n in
  if many && N.leb e 1 then Some EnactBySingleVoter
  else if many && N.leb base_n c then Some CancelNeedsEveryone
  else if N.ltb e c then Some CancelAboveEnact
  else if N.ltb e (strict_majority base_n) then Some EnactBelowStrictMajority
  else if N.ltb e f then Some FloorAboveEnact
  else if many && N.leb c 1 then Some CancelBySingleVoter
  else if many && N.leb base_n e then Some EnactNeedsEveryone
  else if N.ltb f 2 && bool_decide (floor_class p <> SameIdentity) then Some FloorBelowTwoVoters
  else if Z.ltb (tp_window_secs p) family_floor_secs then Some WindowBelowFloor
  else None.

(** ** The decision over held rows *)

(** [LiveVotes]: on the roster and not the proposer. *)
Definition live (ros : gset string) (prop : string) (keys : gset string) : gset string :=
  filter (fun k => k ∈ ros /\ k <> prop) keys.

(** The structural refusals, in the order they are asked. *)
Definition shape_refusal (ros : gset string) (pr : Proposal) (ahead : OpenAhead)
    (p : TwoPathPolicy) : option TwoPathRefusal :=
  if negb (bool_decide (proposer pr ∈ ros)) then Some ProposerNotOnRoster
  else
    let by_kind :=
      match p_kind pr with
      | PAdd => if bool_decide (target pr ∈ ros) then Some TargetAlreadyOnRoster else None
      | PEvict => if target pr =s proposer pr then Some ProposerIsTarget
                  else if negb (bool_decide (target pr ∈ ros)) then Some TargetNotOnRoster
                  else None
      end in
    match by_kind with
    | Some r => Some r
    | None =>
        if one_open_per_proposer p && by_proposer ahead then Some ProposerHasOpenProposal
        else if one_open_per_target p && on_target ahead then Some TargetHasOpenProposal
        else None
    end.

Definition objectors_of (ros : gset string) (pr : Proposal) (a : Answers) : gset string :=
  live ros (proposer pr) (a_objectors a).

Definition approvers_of (ros : gset string) (pr : Proposal) (a : Answers) : gset string :=
  filter (fun k => k ∉ objectors_of ros pr a) (live ros (proposer pr) (a_approvers a)).

Definition spoke (pr : Proposal) (a : Answers) (p : TwoPathPolicy) : bool :=
  match silence p with
  | EvictOnly => bool_decide (p_kind pr = PEvict)
  | Never => false
  end && existsb (fun t => Z.leb (received_at pr) t) (target_acts a).

(** [received_at + Duration::seconds(window_secs)]. *)
Definition opens_at (pr : Proposal) (p : TwoPathPolicy) : option instant :=
  d ← try_seconds (tp_window_secs p); checked_add_signed (received_at pr) d.

Definition tp_decide (ros : gset string) (pr : Proposal) (a : Answers) (ahead : OpenAhead)
    (now : instant) (p : TwoPathPolicy) : option TwoPathDecision :=
  match shape_refusal ros pr ahead p with
  | Some r => Some (Refused r)
  | None =>
      opens ← opens_at pr p;
      Some (decide_counts p (resolve p ros (proposer pr))
              (mk_Counts (N.of_nat (size (approvers_of ros pr a)) + 1)
                 (N.of_nat (size (objectors_of ros pr a)))
                 (spoke pr a p) (Z.leb opens now))
              opens)
  end.

(** ** Every proposal of a roster *)

(** The comparator's [Less] on [(asserted_at, id)]. *)
Definition proposal_lt (a b : Proposal * Answers) : bool :=
  if negb (Z.eqb (p_asserted_at a.1) (p_asserted_at b.1))
  then Z.ltb (p_asserted_at a.1) (p_asserted_at b.1)
  else p_id a.1 <s p_id b.1.

Definition is_open (d : TwoPathDecision) : bool :=
  match d with Refused _ | Cancelled _ => false | _ => true end.

Definition ahead_of (open : list Proposal) (pr : Proposal) : OpenAhead :=
  mk_OpenAhead (existsb (fun q => proposer q =s proposer pr) open)
    (existsb (fun q => bool_decide (p_kind q = p_kind pr) && (target q =s target pr)) open).

Fixpoint decide_sorted (ros : gset string) (now : instant) (p : TwoPathPolicy)
    (open : list Proposal) (l : list (Proposal * Answers))
    : option (list (Proposal * TwoPathDecision)) :=
  match l with
  | [] => Some []
  | (pr, a) :: rest =>
      d ← tp_decide ros pr a (ahead_of open pr) now p;
      out ← decide_sorted ros now p (if is_open d then open ++ [pr] else open) rest;
      Some ((pr, d) :: out)
  end.

Definition decide_all (ros : gset string) (proposals : list (Proposal * Answers))
    (now : instant) (p : TwoPathPolicy) : option (list (Proposal * TwoPathDecision)) :=
  decide_sorted ros now p [] (sort_by proposal_lt proposals).
End Decision.

(** ** Lemmas *)

Section DecisionLemmas.
Context `{Chrono} `{StrictMajority}.
Implicit Types (p : TwoPathPolicy) (ros : gset string) (pr : Proposal) (a : Answers).

(** What a landing over counts rests on. *)
Definition LandsBy p (r : Resolved) (c : Counts) (path : LandingPath) : Prop :=
  match path with
  | PathQuorum =>
      (r_enact r <= approvals c)%N /\
      (irreversible p = true -> window_closed c = true /\ reaches (r_cancel r) (objections_n c) = false)
  | PathLone =>
      window_closed c = true /\ reverse_path p = true /\ target_spoke c = false /\
      reaches (r_cancel r) (objections_n c) = false /\ reaches (r_floor r) (approvals c) = true /\
      (approvals c < r_enact r)%N
  end.

Lemma decide_counts_lands p r c o path :
  decide_counts p r c o = Lands path -> LandsBy p r c path.
Proof.
  unfold decide_counts, LandsBy.
  destruct (N.leb_spec (r_enact r) (approvals c)), (irreversible p); simpl;
    try (intros [= <-]; done).
  all: destruct (window_closed c); simpl; try done.
  all: destruct (reaches (r_cancel r) _) eqn:?; try (destruct (at_window p); done).
  all: try (intros [= <-]; done).
  all: destruct (reverse_path p); simpl; try (destruct (at_window p); done).
  all: destruct (target_spoke c); simpl; try (destruct (at_window p); done).
  all: destruct (reaches (r_floor r) _) eqn:?; try (destruct (at_window p); done).
  all: intros [= <-]; done.
Qed.

(** Conversely these conditions land a proposal, by one path or the other. *)
Lemma decide_counts_complete p r c o path :
  LandsBy p r c path -> lands (decide_counts p r c o) = true.
Proof.
  unfold decide_counts, LandsBy. destruct path.
  - intros [He Hirr]. rewrite (proj2 (N.leb_le _ _) He). destruct (irreversible p); [|done].
    destruct (Hirr eq_refl) as [-> ->]. done.
  - intros (-> & -> & -> & -> & -> & Hlt). destruct (_ && _); [done|]. simpl.
    by destruct (N.leb _ _).
Qed.

Definition counts_of ros pr a p (opens now : instant) : Counts :=
  mk_Counts (N.of_nat (size (approvers_of ros pr a)) + 1)
    (N.of_nat (size (objectors_of ros pr a))) (spoke pr a p) (Z.leb opens now).

Lemma tp_decide_lands ros pr a ahead now p path :
  tp_decide ros pr a ahead now p = Some (Lands path) ->
  shape_refusal ros pr ahead p = None /\
  exists opens, opens_at pr p = Some opens /\
    LandsBy p (resolve p ros (proposer pr)) (counts_of ros pr a p opens now) path.
Proof.
  unfold tp_decide. destruct (shape_refusal ros pr ahead p); [done|]. intros Hd. bind_inv Hd.
  injection Hd as Hd. apply decide_counts_lands in Hd. eauto.
Qed.

Lemma shape_ok_proposer ros pr ahead p :
  shape_refusal ros pr ahead p = None -> proposer pr ∈ ros.
Proof. unfold shape_refusal. destruct (bool_decide_reflect (proposer pr ∈ ros)); done. Qed.

(** The voices a landing counts: the proposer and the live assents. *)
Definition voters ros pr a : gset string := {[proposer pr]} ∪ approvers_of ros pr a.

Lemma elem_of_approvers ros pr a k :
  k ∈ approvers_of ros pr a <->
  k ∈ ros /\ k <> proposer pr /\ k ∈ a_approvers a /\ k ∉ a_objectors a.
Proof.
  unfold approvers_of, objectors_of, live. rewrite !elem_of_filter. naive_solver.
Qed.

Lemma elem_of_voters ros pr a k :
  k ∈ voters ros pr a <-> k = proposer pr \/ k ∈ approvers_of ros pr a.
Proof. unfold voters. by rewrite elem_of_union, elem_of_singleton. Qed.

Lemma size_voters ros pr a :
  N.of_nat (size (voters ros pr a)) = (N.of_nat (size (approvers_of ros pr a)) + 1)%N.
Proof.
  unfold voters. rewrite size_union, size_singleton; [lia|].
  intros k Hk%elem_of_singleton Hk'. subst. apply elem_of_approvers in Hk'. naive_solver.
Qed.

Lemma opens_at_value pr p t :
  opens_at pr p = Some t -> t = (received_at pr + tp_window_secs p * NANOS)%Z.
Proof.
  unfold opens_at. intros Ht. bind_inv Ht. apply try_seconds_some in E as ->.
  by apply checked_add_some in Ht as [-> _].
Qed.

Lemma opens_at_total pr p :
  (0 <= tp_window_secs p)%Z -> (tp_window_secs p * NANOS <= DURATION_MAX)%Z ->
  (received_at pr + tp_window_secs p * NANOS <= MAX_UTC)%Z ->
  is_Some (opens_at pr p).
Proof.
  intros Hz Hd Hc. unfold opens_at. rewrite try_seconds_small by done. simpl.
  rewrite checked_add_total; [eauto|unfold NANOS; lia|done].
Qed.

(** ** The sort of the proposals *)

Lemma proposal_lt_spec (x y : Proposal * Answers) :
  proposal_lt x y = true <->
  (p_asserted_at x.1 < p_asserted_at y.1)%Z \/
  (p_asserted_at x.1 = p_asserted_at y.1 /\ (p_id x.1 <s p_id y.1) = true).
Proof.
  unfold proposal_lt. destruct (Z.eqb_spec (p_asserted_at x.1) (p_asserted_at y.1)); simpl;
    rewrite ?Z.ltb_lt; intuition lia.
Qed.

Lemma proposal_lt_asym x y : proposal_lt x y = true -> proposal_lt y x = false.
Proof.
  intros Hxy. apply not_true_iff_false. intros Hyx. revert Hxy Hyx. rewrite !proposal_lt_spec.
  intros [?|[? Hs]] [?|[? Hs']]; try lia. apply string_ltb_asym in Hs. congruence.
Qed.

Lemma proposal_lt_cotrans x y z :
  proposal_lt x z = true -> proposal_lt x y = true \/ proposal_lt y z = true.
Proof.
  rewrite !proposal_lt_spec.
  destruct (Z.lt_trichotomy (p_asserted_at x.1) (p_asserted_at y.1)) as [?|[Et|?]];
    [auto|..|intros; right; lia].
  intros [?|[? Hs]]; [right; lia|].
  destruct (string_ltb_cotrans _ (p_id y.1) _ Hs); [left|right]; right; auto with lia.
Qed.

Lemma proposal_lt_connected x y :
  proposal_lt x y = false -> proposal_lt y x = false -> p_id x.1 = p_id y.1.
Proof.
  unfold proposal_lt. rewrite (Z.eqb_sym (p_asserted_at y.1)).
  destruct (Z.eqb_spec (p_asserted_at x.1) (p_asserted_at y.1)); simpl; [apply string_ltb_total|].
  rewrite !Z.ltb_ge. lia.
Qed.

(** ** The loop of [decide_all] *)

(** The proposals a list of decisions leaves open. *)
Definition opened (out : list (Proposal * TwoPathDecision)) : list Proposal :=
  map fst (List.filter (fun pd => is_open pd.2) out).

Lemma tp_decide_open_shape ros pr a ahead now p d :
  tp_decide ros pr a ahead now p = Some d -> is_open d = true -> shape_refusal ros pr ahead p = None.
Proof. unfold tp_decide. destruct (shape_refusal ros pr ahead p); [|done]. by intros [= <-]. Qed.

Lemma shape_ok_ahead ros pr ahead p :
  shape_refusal ros pr ahead p = None ->
  (one_open_per_proposer p = true -> by_proposer ahead = false) /\
  (one_open_per_target p = true -> on_target ahead = false).
Proof.
  unfold shape_refusal. destruct (negb _); [done|]. cbn zeta.
  destruct (match p_kind pr with PAdd => _ | PEvict => _ end); [done|].
  destruct (one_open_per_proposer p), (one_open_per_target p), (by_proposer ahead), (on_target ahead);
    done.
Qed.

(** Decisions opened by the loop avoid the key of everything open before them. *)
Lemma decide_sorted_opened {K} (key : Proposal -> K) ros now p (Q : Prop)
    (Hahead : forall open pr, Q -> shape_refusal ros pr (ahead_of open pr) p = None ->
                forall q, In q open -> key q <> key pr) :
  forall l open out,
  Q -> decide_sorted ros now p open l = Some out ->
  NoDup (map key open) -> NoDup (map key (open ++ opened out)).
Proof.
  induction l as [|[pr a] l IH]; intros open out HQ Hd Hnd; simpl in Hd.
  { injection Hd as <-. unfold opened. simpl. by rewrite app_nil_r. }
  bind_inv Hd. bind_inv Hd. injection Hd as <-.
  destruct (is_open x) eqn:Eo; unfold opened; simpl; rewrite Eo; [|by eapply IH].
  simpl. fold (opened x0). rewrite (cons_middle pr open (opened x0)), app_assoc. eapply IH; eauto. rewrite map_app. apply NoDup_app. split_and!; [done| |].
  - intros k Hk Hk'. apply list_elem_of_singleton in Hk'. subst k.
    apply list_elem_of_fmap in Hk as (q & Hq & Hin). apply list_elem_of_In in Hin.
    apply (tp_decide_open_shape _ _ _ _ _ _ _ E) in Eo. by eapply (Hahead open pr HQ Eo q).
  - apply NoDup_singleton.
Qed.

Lemma ahead_by_proposer open pr q :
  by_proposer (ahead_of open pr) = false -> In q open -> proposer q <> proposer pr.
Proof.
  simpl. rewrite existsb_false. intros Ha Hq E. specialize (Ha q Hq).
  by rewrite E, String.eqb_refl in Ha.
Qed.

Lemma ahead_on_target open pr q :
  on_target (ahead_of open pr) = false -> In q open ->
  (p_kind q, target q) <> (p_kind pr, target pr).
Proof.
  simpl. rewrite existsb_false. intros Ha Hq [= Ek Et]. specialize (Ha q Hq).
  rewrite Ek, Et, String.eqb_refl in Ha. by rewrite bool_decide_eq_true_2 in Ha.
Qed.

Lemma decide_sorted_proposals ros now p l open out :
  decide_sorted ros now p open l = Some out -> map fst out = map fst l.
Proof.
  revert open out. induction l as [|[pr a] l IH]; intros open out Hd; simpl in Hd.
  { by injection Hd as <-. }
  bind_inv Hd. bind_inv Hd. injection Hd as <-. simpl. f_equal. eauto.
Qed.

Lemma decide_sorted_total ros now p l open :
  (forall pr a, In (pr, a) l -> is_Some (opens_at pr p)) ->
  is_Some (decide_sorted ros now p open l).
Proof.
  revert open. induction l as [|[pr a] l IH]; intros open Hl; simpl; [by eauto|].
  assert (is_Some (tp_decide ros pr a (ahead_of open pr) now p)) as [d Hd].
  { unfold tp_decide. destruct (shape_refusal _ _ _ _); [by eauto|].
    destruct (Hl pr a (or_introl eq_refl)) as [t Ht]. rewrite Ht. simpl. eauto. }
  rewrite Hd. simpl. destruct (IH (if is_open d then open ++ [pr] else open)) as [out Ho].
  { intros q b Hq. apply (Hl q b). by right. }
  rewrite Ho. simpl. eauto.
Qed.
End DecisionLemmas.

(** ** Properties *)

Module TpSamples.
Definition policy := mk_TwoPathPolicy StandingRoster TStrictMajority (Some (Fraction 1 3 AtLeast))
  OverBase (Some (Fraction 2 5 AtLeast)) Voters true AtCancel false 86400 EvictOnly true true.
Definition room : gset string := list_to_set ["a"; "b"; "c"; "d"; "e"].
Definition evict (id by_ t : string) (at_ : Z) : Proposal := mk_Proposal id PEvict by_ t at_ at_.
Definition assents (ks : list string) : Answers := mk_Answers (list_to_set ks) ∅ [].
Definition later : Z := (100000 * NANOS)%Z.
Definition held : list (Proposal * Answers) :=
  [(evict "p2" "a" "d" 20%Z, assents []); (evict "p1" "a" "e" 10%Z, assents ["b"; "c"]);
   (evict "p3" "b" "e" 30%Z, assents [])].
End TpSamples.

(** C26. A proposal lands only on voices. If the decision is to land, the proposer
    is on the live roster; every further voice counted is a roster member that
    assented and did not object; and either the voices reach ENACT (and, when the
    act is irreversible, the window has closed below CANCEL), or the window closed
    below CANCEL with the target silent and the voices reached the floor. *)
Theorem landing_sound `{Chrono} `{StrictMajority} (ros : gset string) (pr : Proposal) (a : Answers)
    (ahead : OpenAhead) (now : instant) (p : TwoPathPolicy) (path : LandingPath) :
  tp_decide ros pr a ahead now p = Some (Lands path) ->
  let r := resolve p ros (proposer pr) in
  let v := voters ros pr a in
  let closed := (received_at pr + tp_window_secs p * NANOS <= now)%Z in
  let below_cancel := reaches (r_cancel r) (N.of_nat (size (objectors_of ros pr a))) = false in
  v ⊆ ros /\
  (forall k, k ∈ v -> k <> proposer pr -> k ∈ a_approvers a /\ k ∉ a_objectors a) /\
  match path with
  | PathQuorum => (r_enact r <= N.of_nat (size v))%N /\
                  (irreversible p = true -> closed /\ below_cancel)
  | PathLone => closed /\ below_cancel /\ reverse_path p = true /\ spoke pr a p = false /\
                exists f, r_floor r = Some f /\ (f <= N.of_nat (size v))%N
  end.
Proof.
  intros Hd. apply tp_decide_lands in Hd as (Hshape & opens & Ho & Hl).
  apply shape_ok_proposer in Hshape. apply opens_at_value in Ho as ->. cbn zeta.
  rewrite size_voters. split_and!.
  - intros k [->|Hk]%elem_of_voters; [done|]. apply elem_of_approvers in Hk. naive_solver.
  - intros k [Hk|Hk]%elem_of_voters Hne; [done|]. apply elem_of_approvers in Hk. naive_solver.
  - unfold LandsBy, counts_of in Hl.
    cbn [approvals objections_n target_spoke window_closed] in Hl. destruct path.
    + destruct Hl as [? Hirr]. split; [done|]. intros Hi. destruct (Hirr Hi) as [Hc ?].
      by apply Z.leb_le in Hc.
    + destruct Hl as (Hc & ? & ? & ? & Hf & _). apply Z.leb_le in Hc. split_and!; try done.
      unfold reaches in Hf. destruct (r_floor _) as [f|]; [|done]. exists f. split; [done|]. by apply N.leb_le in Hf.
Qed.

Lemma landing_sound_witness :
  (3 <= N.of_nat (size (voters TpSamples.room (TpSamples.evict "p1" "a" "e" 10%Z)
                          (TpSamples.assents ["b"; "c"]))))%N.
Proof.
  assert (Hd : tp_decide TpSamples.room (TpSamples.evict "p1" "a" "e" 10%Z)
                 (TpSamples.assents ["b"; "c"]) (mk_OpenAhead false false) 11%Z TpSamples.policy
               = Some (Lands PathQuorum)) by (vm_compute; reflexivity).
  destruct (landing_sound _ _ _ _ _ _ _ Hd) as (_ & _ & He & _). exact He.
Defined.

(** Inside the corridor no one acts alone on others: for a policy the corridor
    check accepts at the live roster's size, with distinct people as voters and at
    least two of them, nothing lands by either path on fewer than two voices. *)
Theorem corridor_no_unilateral `{Chrono} `{StrictMajority} (ros : gset string) (pr : Proposal)
    (a : Answers) (ahead : OpenAhead) (now : instant) (p : TwoPathPolicy) (path : LandingPath)
    (family_floor_secs : Z) :
  check_corridor p (N.of_nat (size ros)) family_floor_secs = None ->
  floor_class p = Voters -> (2 <= N.of_nat (size ros))%N ->
  tp_decide ros pr a ahead now p = Some (Lands path) ->
  (2 <= N.of_nat (size (voters ros pr a)))%N.
Proof.
  intros Hc Hcl Hn Hd. apply tp_decide_lands in Hd as (_ & opens & _ & Hl).
  rewrite size_voters. unfold LandsBy, counts_of in Hl. destruct path.
  - destruct Hl as [Hl _]. simpl in Hl. unfold check_corridor in Hc. cbn zeta in Hc.
    rewrite (proj2 (N.ltb_lt _ _)) in Hc by lia. simpl in Hc.
    unfold resolve, count in Hl. simpl in Hl. destruct (tp_base p).
    destruct (N.leb_spec (votes (enact p) (N.of_nat (size ros))) 1); [done|]. lia.
  - destruct Hl as (_ & _ & _ & _ & Hf & _). unfold resolve, resolve_over in Hf. simpl in Hf.
    rewrite Hcl in Hf. destruct (floor p) as [f|]; simpl in Hf; [|done]. breflect. lia.
Qed.

Lemma corridor_no_unilateral_witness :
  (2 <= N.of_nat (size (voters TpSamples.room (TpSamples.evict "p1" "a" "e" 10%Z)
                          (TpSamples.assents ["b"]))))%N.
Proof.
  apply (corridor_no_unilateral TpSamples.room _ _ (mk_OpenAhead false false) TpSamples.later
           TpSamples.policy PathLone 86400); vm_compute; (reflexivity || discriminate).
Defined.

(** Assents help and objections hinder: adding assents, removing objections or
    letting time pass never turns a landing proposal into one that does not land. *)
Theorem landing_monotone `{Chrono} `{StrictMajority} (p : TwoPathPolicy) (r : Resolved)
    (c c' : Counts) (o : instant) :
  (approvals c <= approvals c')%N -> (objections_n c' <= objections_n c)%N ->
  target_spoke c' = target_spoke c ->
  (window_closed c = true -> window_closed c' = true) ->
  lands (decide_counts p r c o) = true -> lands (decide_counts p r c' o) = true.
Proof.
  intros Ha Hob Hs Hw Hl. destruct (decide_counts p r c o) as [path| | |] eqn:Hd; try done.
  apply decide_counts_lands in Hd.
  assert (Hcan : reaches (r_cancel r) (objections_n c) = false ->
                 reaches (r_cancel r) (objections_n c') = false).
  { unfold reaches. destruct (r_cancel r); [|done]. rewrite !N.leb_gt. lia. }
  destruct (N.le_gt_cases (r_enact r) (approvals c')) as [He|He].
  - apply (decide_counts_complete p r c' o PathQuorum). split; [done|]. intros Hirr.
    destruct path; simpl in Hd; [destruct Hd as [_ Hd]; destruct (Hd Hirr)|]; naive_solver.
  - apply (decide_counts_complete p r c' o PathLone). destruct path; simpl in Hd; [lia|].
    destruct Hd as (? & ? & ? & ? & Hf & ?). unfold LandsBy. split_and!; auto; [congruence|].
    unfold reaches in *. destruct (r_floor r); [|done]. rewrite N.leb_le in *. lia.
Qed.

Lemma landing_monotone_witness :
  lands (decide_counts TpSamples.policy (mk_Resolved 3 (Some 2%N) (Some 2%N))
           (mk_Counts 4 0 false true) 0%Z) = true.
Proof.
  apply (landing_monotone TpSamples.policy _ (mk_Counts 2 1 false true));
    vm_compute; (reflexivity || discriminate || auto).
Defined.

(** Among the decisions [decide_all] returns, no proposer has two open
    proposals, and no target has two open proposals of one kind, when the policy
    says so; and every held proposal is decided exactly once. *)
Theorem decide_all_one_open `{Chrono} `{StrictMajority} (ros : gset string)
    (proposals : list (Proposal * Answers)) (now : instant) (p : TwoPathPolicy)
    (out : list (Proposal * TwoPathDecision)) :
  decide_all ros proposals now p = Some out ->
  (one_open_per_proposer p = true -> NoDup (map proposer (opened out))) /\
  (one_open_per_target p = true -> NoDup (map (fun q => (p_kind q, target q)) (opened out))) /\
  Permutation (map fst out) (map fst proposals).
Proof.
  unfold decide_all. intros Hd. split_and!.
  - intros Hp. refine (decide_sorted_opened proposer ros now p (one_open_per_proposer p = true)
      _ _ [] out Hp Hd (NoDup_nil_2 : NoDup (map proposer []))).
    intros open pr HQ Hs q Hq. apply shape_ok_ahead in Hs as [Hs _].
    by apply (ahead_by_proposer open pr q (Hs HQ)).
  - intros Hp. refine (decide_sorted_opened (fun q => (p_kind q, target q)) ros now p
      (one_open_per_target p = true) _ _ [] out Hp Hd NoDup_nil_2).
    intros open pr HQ Hs q Hq. apply shape_ok_ahead in Hs as [_ Hs].
    by apply (ahead_on_target open pr q (Hs HQ)).
  - rewrite (decide_sorted_proposals _ _ _ _ _ _ Hd). by rewrite sort_by_perm.
Qed.

Lemma decide_all_one_open_witness :
  exists out, decide_all TpSamples.room TpSamples.held TpSamples.later TpSamples.policy = Some out /\
    NoDup (map proposer (opened out)).
Proof.
  eexists. split; [vm_compute; reflexivity|].
  eapply (decide_all_one_open TpSamples.room TpSamples.held TpSamples.later TpSamples.policy);
    [vm_compute; reflexivity|reflexivity].
Defined.

(** The order in which a node received the proposals does not matter: two
    orders of the same proposals, with distinct ids, get the same decisions. *)
Theorem decide_all_order_independent `{Chrono} `{StrictMajority} (ros : gset string)
    (l l' : list (Proposal * Answers)) (now : instant) (p : TwoPathPolicy) :
  NoDup (map (fun x => p_id x.1) l) -> Permutation l l' ->
  decide_all ros l now p = decide_all ros l' now p.
Proof.
  intros Hnd Hp. unfold decide_all. f_equal.
  apply sort_by_perm_eq; eauto using proposal_lt_asym, proposal_lt_cotrans.
  intros x y Hx Hy Hxy Hyx. pose proof (proposal_lt_connected x y Hxy Hyx) as E.
  apply list_elem_of_In, list_elem_of_lookup in Hx as [i Hi].
  apply list_elem_of_In, list_elem_of_lookup in Hy as [j Hj].
  assert (i = j) as ->; [|congruence].
  eapply NoDup_lookup; [exact Hnd|..]; rewrite list_lookup_fmap; [by rewrite Hi|].
  rewrite Hj. simpl. by rewrite E.
Qed.

Lemma decide_all_order_independent_witness :
  decide_all TpSamples.room TpSamples.held TpSamples.later TpSamples.policy
  = decide_all TpSamples.room (rev TpSamples.held) TpSamples.later TpSamples.policy.
Proof.
  apply decide_all_order_independent; [vm_compute; repeat constructor; set_solver|apply Permutation_rev].
Defined.

(** The decision is total where the calendar is: if every proposal's window
    ends inside the calendar, [decide_all] answers for all of them. *)
Theorem decide_all_total `{Chrono} `{StrictMajority} (ros : gset string)
    (l : list (Proposal * Answers)) (now : instant) (p : TwoPathPolicy) :
  (0 <= tp_window_secs p)%Z -> (tp_window_secs p * NANOS <= DURATION_MAX)%Z ->
  (forall pr a, In (pr, a) l -> (received_at pr + tp_window_secs p * NANOS <= MAX_UTC)%Z) ->
  exists out, decide_all ros l now p = Some out /\ len out = len l.
Proof.
  intros Hz Hd Hl.
  destruct (decide_sorted_total ros now p (sort_by proposal_lt l) []) as [out Ho].
  { intros pr a Hin. apply sort_by_In in Hin. apply opens_at_total; eauto. }
  exists out. split; [exact Ho|]. apply decide_sorted_proposals in Ho.
  apply (f_equal length) in Ho. rewrite !length_map in Ho. unfold len. rewrite Ho.
  by rewrite sort_by_perm.
Qed.

Lemma decide_all_total_witness :
  exists out, decide_all TpSamples.room TpSamples.held TpSamples.later TpSamples.policy = Some out /\
    len out = 3%N.
Proof.
  apply (decide_all_total TpSamples.room TpSamples.held); [vm_compute; discriminate..|].
  intros pr a [E|[E|[E|[]]]]; injection E as <- <-; vm_compute; discriminate.
Defined.
