(* ===== verification/Matcher.v ===== *)
(** * The dimension matcher

    [src/src/federation/namespace/matcher.rs]: the manifest's grammar as data, the
    segment matcher, the choice of the most specific family, and [match_family].

    A compiled pattern is the predicate its [is_match] answers; compiling one is the
    [regex] crate's, and Unicode lowercasing is a table of the standard library: both
    are members of [Grammar]. A [panic!] on a malformed vendored manifest is [None] of
    [parse_rules]. A [BTreeMap] is a [gmap]. *)

From Stdlib Require Import ZArith NArith Lia Ascii.
From stdpp Require Import base list strings gmap.
From S2P Require Import Prelude RustStd Json.

Open Scope string_scope.
Open Scope list_scope.
Open Scope persist_scope.

(** ** What the grammar is compiled with *)

Definition Regex := string -> bool.

Definition ascii_lower_byte (c : ascii) : ascii :=
  let n := N_of_ascii c in
  if (65 <=? n)%N && (n <=? 90)%N then ascii_of_N (n + 32) else c.

Fixpoint ascii_lower (s : string) : string :=
  match s with EmptyString => EmptyString | String c s' => String (ascii_lower_byte c) (ascii_lower s') end.

Fixpoint is_ascii (s : string) : bool :=
  match s with EmptyString => true | String c s' => (N_of_ascii c <? 128)%N && is_ascii s' end.

Class Grammar := {
  (** [Regex::new]. *)
  regex_new : string -> option Regex;
  (** [str::to_lowercase]. *)
  to_lowercase : string -> string;
  to_lowercase_ascii : forall s, is_ascii s = true -> to_lowercase s = ascii_lower s;
}.

(** ** Further [str] operations *)

(** [s.strip_suffix(p)]. *)
Definition strip_suffix (p s : string) : option string :=
  let n := (String.length s - String.length p)%nat in
  if Nat.leb (String.length p) (String.length s)
     && (String.substring n (String.length p) s =s p)
  then Some (String.substring 0 n s) else None.

(** The UTF-8 encoding of a code point below 2^16. *)
Definition utf8 (c : N) : string :=
  let b n := ascii_of_N n in
  if (c <? 128)%N then String (b c) ""
  else if (c <? 2048)%N then
    String (b (192 + c / 64)%N) (String (b (128 + c mod 64)%N) "")
  else String (b (224 + c / 4096)%N)
         (String (b (128 + (c / 64) mod 64)%N) (String (b (128 + c mod 64)%N) "")).

(** The characters [is_py_space] accepts: Unicode [White_Space] and the four ASCII
    separators. *)
Definition is_py_space : list string :=
  map utf8 [9; 10; 11; 12; 13; 28; 29; 30; 31; 32; 133; 160; 5760; 8192; 8193; 8194; 8195; 8196;
            8197; 8198; 8199; 8200; 8201; 8202; 8232; 8233; 8239; 8287; 12288]%N.

Fixpoint first_some {A B} (f : A -> option B) (l : list A) : option B :=
  match l with
  | [] => None
  | x :: l' => match f x with Some y => Some y | None => first_some f l' end
  end.

(** Strip matching ends until none is left; each round shortens the string. *)
Fixpoint strip_all (strip : string -> option string) (fuel : nat) (s : string) : string :=
  match fuel with
  | O => s
  | S n => match strip s with Some s' => strip_all strip n s' | None => s end
  end.

(** [s.trim_matches(chars)], the characters given by their encodings. *)
Definition trim_matches (chars : list string) (s : string) : string :=
  let fuel := String.length s in
  let s' := strip_all (fun s => first_some (fun c => strip_prefix c s) chars) fuel s in
  strip_all (fun s => first_some (fun c => strip_suffix c s) chars) fuel s'.

(** ** Data *)

Inductive Refusal :=
| CaseMalformed | FamilyUnregistered | MissingVersionSegment | PrivateUseNotFederatable
| VocabValueUnregistered.

#[export] Instance Refusal_eq_dec : EqDecision Refusal.
Proof. solve_decision. Defined.

Definition Refusal_ALL : list Refusal :=
  [CaseMalformed; FamilyUnregistered; MissingVersionSegment; PrivateUseNotFederatable;
   VocabValueUnregistered].

Definition manifest_key (r : Refusal) : string :=
  match r with
  | CaseMalformed => "case_malformed"
  | FamilyUnregistered => "family_unregistered"
  | MissingVersionSegment => "missing_version_segment"
  | PrivateUseNotFederatable => "private_use_not_federatable"
  | VocabValueUnregistered => "vocab_value_unregistered"
  end.

Notation Binds := (gmap string string).

Record FamilyMatch := mk_FamilyMatch {
  family : option string;
  binds : Binds;
  refusal : option Refusal;
}.

Definition bare (ref : option Refusal) : FamilyMatch := mk_FamilyMatch None ∅ ref.

Inductive SegClass := CLiteral | CVocab | CExternal | CValue | CHex | CWildcard.

#[export] Instance SegClass_eq_dec : EqDecision SegClass.
Proof. solve_decision. Defined.

Record Seg := mk_Seg {
  seg_segment : string;
  seg_name : string;
  seg_class : SegClass;
  seg_pattern : option Regex;
  seg_values : option (list string);
  seg_open : bool;
  seg_multi : bool;
}.

Record Fam := mk_Fam {
  f_prefix : string;
  f_segments : list Seg;
  f_leaves : list string;
  f_leaves_closed : bool;
}.

Definition last_class (f : Fam) : option SegClass := seg_class <$> last (f_segments f).

Definition is_class (c : SegClass) (s : Seg) : bool := bool_decide (seg_class s = c).

(** [(literals, non-wildcard, length)], compared lexicographically. *)
Definition Score : Type := N * N * N.

Definition score (f : Fam) : Score :=
  let literals := len (List.filter (is_class CLiteral) (f_segments f)) in
  let wildcard := bool_decide (last_class f = Some CWildcard) in
  (literals, if negb wildcard then 1%N else 0%N, len (f_segments f)).

Definition score_gt (a b : Score) : bool :=
  let '(a1, a2, a3) := a in
  let '(b1, b2, b3) := b in
  if negb (N.eqb a1 b1) then N.ltb b1 a1
  else if negb (N.eqb a2 b2) then N.ltb b2 a2
  else N.ltb b3 a3.

Definition ends_version (f : Fam) : bool :=
  match last (f_segments f) with Some s => seg_segment s =s "{version}" | None => false end.

Record Rules := mk_Rules {
  r_vocab : Regex;
  r_private : string;
  r_version : Regex;
  r_version_required : bool;
  r_exempt : list string;
  r_tokens : gmap string string;
  r_external : gmap string Regex;
  r_reserved_stems : list string;
  r_closed_stems : list string;
  r_reserved_stem_rules : list (string * string * string);
  r_families : list Fam;
  r_hex : Regex;
  r_version_like : Regex;
  r_version_attempt : Regex;
}.

Definition find_family (r : Rules) (prefix : string) : option Fam :=
  List.find (fun f => f_prefix f =s prefix) (r_families r).

Definition refusal_as_str (r : Rules) (x : Refusal) : string :=
  default (manifest_key x) (r_tokens r !! manifest_key x).

Definition from_token (r : Rules) (token : string) : option Refusal :=
  List.find (fun x => refusal_as_str r x =s token) Refusal_ALL.

(** ** The segment matcher *)

(** [opt.or_else(..)] and [opt.or(..)]: the first refusal stands. *)
Definition or_else (a b : option Refusal) : option Refusal :=
  match a with Some _ => a | None => b end.

(** [(!ok).then_some(CaseMalformed)]. *)
Definition malformed_unless (ok : bool) : option Refusal :=
  if ok then None else Some CaseMalformed.

Definition check_seg (seg : Seg) (got : string) (r : Rules) : option Refusal :=
  if got =s "" then Some CaseMalformed
  else if seg_segment seg =s "{version}" then malformed_unless (r_version r got)
  else
    match seg_class seg with
    | CVocab =>
        if negb (r_vocab r got) then Some CaseMalformed
        else match seg_values seg with
             | Some values =>
                 if negb (N.eqb (len values) 0) && negb (seg_open seg)
                    && negb (existsb (fun v => v =s got) values)
                 then Some VocabValueUnregistered else None
             | None => None
             end
    | CHex => malformed_unless (default (r_hex r) (seg_pattern seg) got)
    | CExternal =>
        match (match seg_pattern seg with
               | Some p => Some p
               | None => r_external r !! seg_name seg
               end) with
        | Some p => malformed_unless (p got)
        | None => None
        end
    | CValue | CLiteral | CWildcard =>
        match seg_pattern seg with Some p => malformed_unless (p got) | None => None end
    end.

(** The walk over the fixed segments: [rest] is [parts[pi..]]. An index past the end,
    a panic in the source, is [None]; [match_loop_none] shows it does not happen. *)
Fixpoint match_loop (r : Rules) (multi : option nat) (extra i : nat) (segs : list Seg)
    (rest : list string) (b : Binds) (ref : option Refusal)
    : option (Binds * option Refusal * list string) :=
  match segs with
  | [] => Some (b, ref, rest)
  | seg :: segs' =>
      if bool_decide (multi = Some i) then
        if Nat.leb (1 + extra) (length rest) then
          let span := take (1 + extra) rest in
          match_loop r multi extra (S i) segs' (drop (1 + extra) rest)
            (<[seg_name seg := join ":" span]> b)
            (fold_left (fun ref got => or_else ref (check_seg seg got r)) span ref)
        else None
      else
        match rest with
        | [] => None
        | got :: rest' =>
            if is_class CLiteral seg then
              if seg_segment seg <>s got then None
              else match_loop r multi extra (S i) segs' rest' b ref
            else
              match_loop r multi extra (S i) segs' rest' (<[seg_name seg := got]> b)
                (or_else ref (check_seg seg got r))
        end
  end.

(** The segments below a variadic tail. *)
Fixpoint match_tail (r : Rules) (tail : list string) (ref : option Refusal) : option Refusal :=
  match tail with
  | [] => ref
  | got :: tail' =>
      let last_one := match tail' with [] => true | _ => false end in
      let bad := (got =s "") || negb (r_vocab r got) || r_version_like r got
                 || (last_one && r_version_attempt r got) in
      match_tail r tail' (if bad then or_else ref (Some CaseMalformed) else ref)
  end.

Definition ends_wildcard (segs : list Seg) : bool :=
  match last segs with Some s => is_class CWildcard s | None => false end.

Definition position_multi (segs : list Seg) : option nat :=
  fst <$> list_find (fun s => seg_multi s = true) segs.

Definition match_segments (segs : list Seg) (parts : list string) (r : Rules)
    : option (Binds * option Refusal) :=
  let wildcard := ends_wildcard segs in
  let fixed := if wildcard then removelast segs else segs in
  let multi := position_multi fixed in
  extra ←
    (if wildcard then if Nat.ltb (length parts) (length fixed + 1) then None else Some 0%nat
     else match multi with
          | Some _ => if Nat.ltb (length parts) (length fixed) then None
                      else Some (length parts - length fixed)%nat
          | None => if negb (Nat.eqb (length parts) (length fixed)) then None else Some 0%nat
          end);
  '(b, ref, tail) ← match_loop r multi extra 0 fixed parts ∅ None;
  let ref := match_tail r tail ref in
  Some (match tail with [] => b | _ => <["*" := join ":" tail]> b end, ref).

(** ** The most specific family *)

Record Resolved := mk_Resolved {
  res_fam : Fam;
  res_binds : Binds;
  res_refusal : option Refusal;
  res_has_version : bool;
}.

Definition Candidate : Type := Score * Resolved.

Definition offer (best : option Candidate) (fam : Fam) (found : option (Binds * option Refusal))
    (has_version : bool) : option Candidate :=
  match found with
  | Some (b, ref) =>
      let sc := score fam in
      if match best with None => true | Some (s, _) => score_gt sc s end
      then Some (sc, mk_Resolved fam b ref has_version) else best
  | None => best
  end.

Definition mutated_tail (r : Rules) (seg : string) : bool :=
  (r_version_like r seg && negb (r_version r seg)) || r_version_attempt r seg.

Definition is_versioned (r : Rules) (parts : list string) : bool :=
  match last parts with Some p => r_version r p | None => false end.

(** The body of the first loop. *)
Definition resolve_step (r : Rules) (parts : list string) (best : option Candidate) (fam : Fam)
    : option Candidate :=
  let versioned := is_versioned r parts in
  if ends_version fam && negb versioned then
    let headless := removelast (f_segments fam) in
    offer (offer best fam (match_segments headless parts r) false)
      fam (match_segments (f_segments fam) parts r) true
  else if ends_version fam || negb versioned then
    let found :=
      '(b, ref) ← match_segments (f_segments fam) parts r;
      let mutated := negb versioned &&
                     match last parts with Some p => mutated_tail r p | None => false end in
      Some (b, or_else ref (if mutated then Some CaseMalformed else None)) in
    offer best fam found (ends_version fam)
  else if Nat.ltb 1 (length parts) then
    offer best fam (match_segments (f_segments fam) (removelast parts) r) true
  else best.

(** The body of the second loop: a version-shaped value with the tail omitted. *)
Definition reread_step (r : Rules) (parts : list string) (best : option Candidate) (fam : Fam)
    : option Candidate :=
  if ends_version fam then best
  else offer best fam (match_segments (f_segments fam) parts r) false.

Definition resolve (r : Rules) (parts : list string) : option Resolved :=
  let best := fold_left (resolve_step r parts) (r_families r) None in
  let best :=
    match best with
    | None => if is_versioned r parts then fold_left (reread_step r parts) (r_families r) None
              else None
    | Some _ => best
    end in
  snd <$> best.

Section Match.
Context `{Grammar}.

Definition detect_malformed (r : Rules) (parts : list string) (clean_only : bool)
    : option string :=
  let low := map to_lowercase parts in
  let n := length parts in
  let nth_is (p : Regex) (i : nat) := match parts !! i with Some s => p s | None => false end in
  let folded := if bool_decide (low = parts) then [] else [low] in
  let stripped :=
    if Nat.ltb 1 n && (nth_is (r_version_like r) (n - 1)%nat || nth_is (r_version_attempt r) (n - 1)%nat)
    then [take (n - 1) parts; take (n - 1) low]
         ++ (if Nat.ltb 2 n && nth_is (r_version_like r) (n - 2)%nat
             then [take (n - 2) parts; take (n - 2) low] else [])
    else [] in
  first_some (fun v =>
    match resolve r v with
    | Some hit => if bool_decide (res_refusal hit = None) || negb clean_only
                  then Some (f_prefix (res_fam hit)) else None
    | None => None
    end) (folded ++ stripped).

Definition malformed_as (f : string) : FamilyMatch := mk_FamilyMatch (Some f) ∅ (Some CaseMalformed).

Definition fenced (r : Rules) : list string := r_reserved_stems r ++ r_closed_stems r.

(** No row claims the dimension. *)
Definition match_unclaimed (r : Rules) (dimension : string) (parts : list string) : FamilyMatch :=
  match detect_malformed r parts false with
  | Some mutated => malformed_as mutated
  | None =>
      if existsb (fun stem => starts_with stem dimension) (fenced r)
      then bare (Some FamilyUnregistered)
      else
        let low := to_lowercase dimension in
        if (low <>s dimension) && existsb (fun stem => starts_with stem low) (fenced r)
        then bare (Some CaseMalformed)
        else
          let last_part := default "" (last parts) in
          if r_version_required r && negb (r_version r last_part)
          then bare (Some (if mutated_tail r last_part then CaseMalformed
                           else MissingVersionSegment))
          else if Nat.ltb (length parts) 2
                  || r_version_like r (default "" (parts !! (length parts - 2)%nat))
          then bare (Some CaseMalformed)
          else bare None
  end.

(** A row resolved. *)
Definition match_claimed (r : Rules) (parts : list string) (hit : Resolved) : FamilyMatch :=
  let fam := res_fam hit in
  let with_ b ref := mk_FamilyMatch (Some (f_prefix fam)) b ref in
  match res_refusal hit with
  | Some _ =>
      match detect_malformed r parts true with
      | Some mutated =>
          if mutated <>s f_prefix fam then malformed_as mutated
          else with_ (res_binds hit) (res_refusal hit)
      | None => with_ (res_binds hit) (res_refusal hit)
      end
  | None =>
      let versioned := is_versioned r parts in
      let closed := f_leaves_closed fam
        && bool_decide (last_class fam = Some CWildcard \/ last_class fam = Some CVocab) in
      let leaf_parts := if versioned && res_has_version hit then removelast parts else parts in
      let ok_leaf := existsb (fun l =>
        match find_family r l with
        | Some lf => bool_decide (is_Some (match_segments (f_segments lf) leaf_parts r))
        | None => false
        end) (f_leaves fam) in
      if closed && negb ok_leaf then with_ (res_binds hit) (Some FamilyUnregistered)
      else if r_version_required r && negb (existsb (fun e => e =s f_prefix fam) (r_exempt r))
              && negb (res_has_version hit)
      then with_ (res_binds hit) (Some MissingVersionSegment)
      else if res_has_version hit
      then with_ (<["version" := default "" (last parts)]> (res_binds hit)) None
      else with_ (res_binds hit) None
  end.

Definition match_family (r : Rules) (dimension : string) : FamilyMatch :=
  if (dimension =s "") || (trim_matches is_py_space dimension <>s dimension)
  then bare (Some CaseMalformed)
  else if starts_with (r_private r) dimension then bare (Some PrivateUseNotFederatable)
  else
    let parts := split_on ":" dimension in
    if existsb (fun p => p =s "") parts then bare (Some CaseMalformed)
    else match resolve r parts with
         | None => match_unclaimed r dimension parts
         | Some hit => match_claimed r parts hit
         end.
End Match.

(** ** Questions other modules ask of the grammar *)

Definition is_version_segment (r : Rules) (segment : string) : bool := r_version r segment.

(** The last [:]-segment, when it is a version and something stands before it. *)
Definition trailing_version (r : Rules) (dimension : string) : option string :=
  l ← last (split_on ":" dimension);
  if has_byte ":" dimension && is_version_segment r l then Some l else None.

Definition is_version_exempt (r : Rules) (fam : string) : bool :=
  existsb (fun e => e =s fam) (r_exempt r).

Definition reserved_stem_rule (r : Rules) (dimension : string) : option (string * string) :=
  (fun x : string * string * string => (x.1.2, x.2))
    <$> max_by (fun a b : string * string * string =>
                  Nat.ltb (String.length a.1.1) (String.length b.1.1))
          (List.filter (fun x => starts_with x.1.1 dimension) (r_reserved_stem_rules r)).

Definition placeholder_values (r : Rules) (fam placeholder : string)
    : option (list string * bool) :=
  f ← find_family r fam;
  seg ← List.find (fun s => seg_segment s =s placeholder) (f_segments f);
  v ← seg_values seg;
  Some (v, seg_open seg).

Definition family_leaves (r : Rules) (fam : string) : option (list string * bool) :=
  f ← find_family r fam; Some (f_leaves f, f_leaves_closed f).

Definition is_literal_family_prefix (r : Rules) (prefix : string) : bool :=
  match strip_suffix ":" prefix with
  | None => false
  | Some body =>
      let want := split_on ":" body in
      existsb (fun f =>
        Nat.ltb (length want) (length (f_segments f))
        && forallb (fun sw : Seg * string => is_class CLiteral sw.1 && (seg_segment sw.1 =s sw.2))
             (zip (f_segments f) want)) (r_families r)
  end.

(** ** Reading the manifest *)

Section Manifest.
Context `{Grammar}.

Definition HEX_PATTERN : string := "^[0-9a-f]+$".
Definition VERSION_LIKE : string := "^[vV][0-9]+(?:\.[0-9]+)*\z".
Definition VERSION_ATTEMPT : string := "^[vV][0-9][0-9A-Za-z_.\-]*\z".

Definition compile (p : string) : option Regex := regex_new ("^(?:" +:+ p +:+ ")$").
Definition compile_detector (p : string) : option Regex := regex_new p.

(** [&v[k]]: [Null] for a missing member. *)
Definition index (v : Value) (k : string) : Value := default Null (get v k).

(** [v.get(k).and_then(as_array)], [[]] when absent. *)
Definition array_or_empty (v : Value) (k : string) : list Value := default [] (get v k ≫= as_array).

Definition parse_class (s : string) : option SegClass :=
  if s =s "literal" then Some CLiteral
  else if s =s "vocab" then Some CVocab
  else if s =s "external" then Some CExternal
  else if s =s "value" then Some CValue
  else if s =s "hex" then Some CHex
  else if s =s "wildcard" then Some CWildcard
  else None.

(** Compile a pattern where there is one; [None] is the panic. *)
Definition compile_opt (p : option string) : option (option Regex) :=
  match p with Some p => Some <$> compile p | None => Some None end.

Definition parse_seg (s : Value) : option Seg :=
  segment ← as_str (index s "segment");
  cls ← as_str (index s "class") ≫= parse_class;
  pattern ← compile_opt (get_str s "pattern");
  values ← match get s "values" ≫= as_array with
           | Some a => Some <$> mapM as_str a
           | None => Some None
           end;
  Some (mk_Seg segment (trim_matches ["{"; "}"] segment) cls pattern values
          (default false (get s "open" ≫= as_bool)) (default false (get s "multi" ≫= as_bool))).

Definition parse_fam (f : Value) : option Fam :=
  prefix ← as_str (index f "prefix");
  segs ← as_array (index f "segments");
  segments ← mapM parse_seg segs;
  leaves ← mapM as_str (array_or_empty f "leaves");
  Some (mk_Fam prefix segments leaves (default false (get f "leaves_closed" ≫= as_bool))).

(** [prefix[..prefix.len() - 1]]: a panic on the empty string and inside a character. *)
Fixpoint drop_last_byte (s : string) : option string :=
  match s with
  | EmptyString => None
  | String c EmptyString => if (N_of_ascii c <? 128)%N then Some EmptyString else None
  | String c s' => String c <$> drop_last_byte s'
  end.

Definition closed_stem (f : Fam) : option string :=
  if bool_decide (last_class f = Some CWildcard) then drop_last_byte (f_prefix f)
  else Some (default "" (head (split_on ":" (f_prefix f))) +:+ ":").

(** [collect::<BTreeSet<_>>().into_iter().collect()]. *)
Definition btree_set (l : list string) : list string := sort_strings (remove_dups l).

Definition parse_stem_rule (s : Value) : option (string * string * string) :=
  stem ← as_str (index s "stem");
  rule ← as_str (index s "rule");
  cc_ref ← as_str (index s "cc_ref");
  Some (stem, rule, cc_ref).

Definition parse_rules (root : Value) : option Rules :=
  let meta := index root "_meta" in
  let cr := index meta "case_rule" in
  let vs := index cr "version_segment" in
  token_members ← as_object (index cr "refusal_tokens");
  tokens ← mapM (fun kv : string * Value => v ← as_str kv.2; Some (kv.1, v)) token_members;
  external ← mapM (fun kv : string * Value =>
                     match get_str kv.2 "pattern" with
                     | Some p => (fun re => [(kv.1, re)]) <$> compile p
                     | None => Some []
                     end) (default [] (get cr "external_standards" ≫= as_object));
  reserved ← mapM (fun s => as_str (index s "stem")) (array_or_empty cr "reserved_stems");
  stem_rules ← mapM parse_stem_rule
                 (List.filter (fun s => bool_decide (get_str s "kind" = Some "reserved"))
                    (array_or_empty cr "reserved_stems"));
  exempt ← mapM as_str (array_or_empty vs "exempt");
  fams ← as_array (index root "families");
  families ← mapM parse_fam fams;
  stems ← mapM closed_stem (List.filter f_leaves_closed families);
  vocab ← as_str (index cr "vocab_pattern") ≫= compile;
  private ← as_str (index meta "private_use_prefix");
  version ← as_str (index vs "pattern") ≫= compile;
  hex ← compile HEX_PATTERN;
  version_like ← compile_detector VERSION_LIKE;
  version_attempt ← compile_detector VERSION_ATTEMPT;
  Some (mk_Rules vocab private version (default true (get vs "required" ≫= as_bool)) exempt
          (list_to_map tokens) (list_to_map (concat external)) reserved (btree_set stems)
          stem_rules families hex version_like version_attempt).
End Manifest.

(** ** The segment matcher: rendering undoes matching *)

(** The text a segment stands for under a match. *)
Definition render_seg (b : Binds) (s : Seg) : string :=
  if is_class CLiteral s then seg_segment s else default "" (b !! seg_name s).

(** The rows of the manifest: placeholders have distinct names, none of them the
    variadic tail's, and literals are not multi. *)
Definition placeholders (segs : list Seg) : list string :=
  map seg_name (List.filter (fun s => negb (is_class CLiteral s)) segs).

Definition fixed_of (segs : list Seg) : list Seg :=
  if ends_wildcard segs then removelast segs else segs.

Definition wf_segs (segs : list Seg) : bool :=
  bool_decide (NoDup (placeholders (fixed_of segs)))
  && bool_decide ("*" ∉ placeholders (fixed_of segs))
  && forallb (fun s => negb (is_class CLiteral s && seg_multi s)) (fixed_of segs).

Definition render (segs : list Seg) (b : Binds) : list string :=
  map (render_seg b) (fixed_of segs)
  ++ (if ends_wildcard segs then [default "" (b !! "*")] else []).

Lemma join_cons_ne sep x l : l <> [] -> join sep (x :: l) = x +:+ sep +:+ join sep l.
Proof. by destruct l. Qed.

Lemma join_app sep c t :
  c <> [] -> t <> [] -> join sep (c ++ t) = join sep c +:+ sep +:+ join sep t.
Proof.
  intros Hc Ht. induction c as [|x c IH]; [done|]. destruct (decide (c = [])) as [->|Hne].
  - by apply join_cons_ne.
  - simpl app. rewrite !join_cons_ne by (by destruct c). rewrite IH by done.
    by rewrite !string_app_assoc.
Qed.

(** Joining blocks first changes nothing. *)
Lemma join_concat sep (cs : list (list string)) :
  Forall (fun c => c <> []) cs -> join sep (concat cs) = join sep (map (join sep) cs).
Proof.
  induction 1 as [|c cs Hc Hcs IH]; [done|]. simpl concat. simpl map.
  destruct Hcs as [|c' cs Hc' Hcs]; [simpl; by rewrite app_nil_r|].
  rewrite join_app; [|done|by destruct c']. rewrite IH. by rewrite join_cons_ne.
Qed.

Lemma or_else_none a b : or_else a b = None <-> a = None /\ b = None.
Proof. destruct a; simpl; naive_solver. Qed.

Lemma fold_or_else_none {A} (f : A -> option Refusal) l ref :
  fold_left (fun ref x => or_else ref (f x)) l ref = None <->
  ref = None /\ forall x, In x l -> f x = None.
Proof.
  revert ref. induction l as [|x l IH]; intros ref; simpl; [naive_solver|].
  rewrite IH, or_else_none. naive_solver.
Qed.

Section Loop.
Context (r : Rules) (multi : option nat) (extra : nat).

(** The multi-segment placeholder is a placeholder. *)
Definition multi_ok (i : nat) (segs : list Seg) : Prop :=
  forall j s, multi = Some j -> (i <= j)%nat -> segs !! (j - i)%nat = Some s ->
  is_class CLiteral s = false /\ seg_multi s = true.

Lemma multi_ok_tail i s segs : multi_ok i (s :: segs) -> multi_ok (S i) segs.
Proof.
  intros Hmu j s' Hj Hij Hs'. apply (Hmu j s' Hj); [lia|].
  by replace (j - i)%nat with (S (j - S i)) by lia.
Qed.

Lemma multi_ok_head i s segs :
  multi_ok i (s :: segs) -> multi = Some i -> is_class CLiteral s = false /\ seg_multi s = true.
Proof. intros Hmu Hi. apply (Hmu i s Hi); [lia|]. by rewrite Nat.sub_diag. Qed.

(** The walk, one segment at a time: it takes a block of the parts and either
    checks a literal or binds a placeholder. *)
Lemma match_loop_cons i s segs rest b ref out :
  multi_ok i (s :: segs) ->
  match_loop r multi extra i (s :: segs) rest b ref = Some out ->
  exists c rest', rest = c ++ rest' /\
    length c = (1 + if bool_decide (multi = Some i) then extra else 0)%nat /\
    if is_class CLiteral s
    then c = [seg_segment s] /\ match_loop r multi extra (S i) segs rest' b ref = Some out
    else match_loop r multi extra (S i) segs rest' (<[seg_name s := join ":" c]> b)
           (fold_left (fun ref got => or_else ref (check_seg s got r)) c ref) = Some out.
Proof.
  intros Hmu Hm. cbn [match_loop] in Hm. case_bool_decide as Hcase.
  - destruct (multi_ok_head i s segs Hmu Hcase) as [-> _].
    destruct (Nat.leb_spec (1 + extra) (length rest)); [|done].
    exists (take (1 + extra) rest), (drop (1 + extra) rest).
    rewrite take_drop, length_take_le by lia. split_and!; [done|done|exact Hm].
  - destruct rest as [|got rest]; [done|]. exists [got], rest. split_and!; [done..|].
    destruct (is_class CLiteral s); [|done].
    destruct (String.eqb_spec (seg_segment s) got) as [->|]; done.
Qed.

Lemma match_loop_refusal i segs rest b ref b' tail :
  multi_ok i segs -> match_loop r multi extra i segs rest b ref = Some (b', None, tail) -> ref = None.
Proof.
  revert i rest b ref. induction segs as [|s segs IH]; intros i rest b ref Hmu Hm.
  { simpl in Hm. by injection Hm as <- <- <-. }
  destruct (match_loop_cons _ _ _ _ _ _ _ Hmu Hm) as (c & rest' & -> & _ & Hr).
  apply multi_ok_tail in Hmu. destruct (is_class CLiteral s); [destruct Hr|]; eauto.
  apply IH in Hr; [|done]. by apply fold_or_else_none in Hr as [-> _].
Qed.

Lemma match_loop_other i segs rest b ref b' ref' tail k :
  multi_ok i segs -> match_loop r multi extra i segs rest b ref = Some (b', ref', tail) ->
  k ∉ placeholders segs -> b' !! k = b !! k.
Proof.
  revert i rest b ref. induction segs as [|s segs IH]; intros i rest b ref Hmu Hm Hk.
  { simpl in Hm. by injection Hm as <- <- <-. }
  destruct (match_loop_cons _ _ _ _ _ _ _ Hmu Hm) as (c & rest' & -> & _ & Hr).
  apply multi_ok_tail in Hmu. unfold placeholders in Hk. simpl in Hk.
  destruct (is_class CLiteral s); simpl in Hk; [destruct Hr; eauto|].
  apply not_elem_of_cons in Hk as [Hne Hk]. rewrite (IH _ _ _ _ Hmu Hr Hk).
  by apply lookup_insert_ne.
Qed.

(** What one block of parts is to its segment in a match. *)
Definition covers (b : Binds) (ref : option Refusal) (s : Seg) (c : list string) : Prop :=
  c <> [] /\ (seg_multi s = false -> length c = 1%nat) /\
  if is_class CLiteral s then c = [seg_segment s]
  else b !! seg_name s = Some (join ":" c) /\
       (ref = None -> forall got, In got c -> check_seg s got r = None).

Lemma match_loop_covers i segs rest b ref b' ref' tail :
  multi_ok i segs -> NoDup (placeholders segs) ->
  match_loop r multi extra i segs rest b ref = Some (b', ref', tail) ->
  exists cs, rest = concat cs ++ tail /\ Forall2 (covers b' ref') segs cs.
Proof.
  revert i rest b ref. induction segs as [|s segs IH]; intros i rest b ref Hmu Hnd Hm.
  { simpl in Hm. injection Hm as <- <- <-. exists []. by split. }
  destruct (match_loop_cons _ _ _ _ _ _ _ Hmu Hm) as (c & rest' & -> & Hc & Hr).
  assert (Hne : c <> []) by (by destruct c).
  assert (Hone : seg_multi s = false -> length c = 1%nat).
  { intros Hsm. case_bool_decide as Hi; [|done]. destruct (multi_ok_head _ _ _ Hmu Hi). congruence. }
  apply multi_ok_tail in Hmu.
  unfold placeholders in Hnd. simpl in Hnd. destruct (is_class CLiteral s) eqn:Ec; simpl in Hnd.
  - destruct Hr as [Hlit Hr]. destruct (IH _ _ _ _ Hmu Hnd Hr) as (cs & -> & HF).
    exists (c :: cs). simpl. rewrite app_assoc. split; [done|]. constructor; [|done].
    split_and!; [done..|]. by rewrite Ec.
  - apply NoDup_cons in Hnd as [Hn Hnd]. destruct (IH _ _ _ _ Hmu Hnd Hr) as (cs & -> & HF).
    exists (c :: cs). simpl. rewrite app_assoc. split; [done|]. constructor; [|done].
    split_and!; [done..|]. rewrite Ec. split.
    + rewrite (match_loop_other _ _ _ _ _ _ _ _ _ Hmu Hr Hn). apply lookup_insert_eq.
    + intros ->. apply match_loop_refusal in Hr; [|done].
      apply fold_or_else_none in Hr as [_ Hr]. exact Hr.
Qed.

(** The parts the walk takes: one per segment, and the surplus for the multi one. *)
Lemma match_loop_length i segs rest b ref b' ref' tail :
  multi_ok i segs -> match_loop r multi extra i segs rest b ref = Some (b', ref', tail) ->
  length rest = (length segs + length tail
    + match multi with
      | Some j => if Nat.leb i j && Nat.ltb j (i + length segs) then extra else 0
      | None => 0 end)%nat.
Proof.
  revert i rest b ref. induction segs as [|s segs IH]; intros i rest b ref Hmu Hm.
  { simpl in Hm. injection Hm as <- <- <-. destruct multi as [j|]; simpl; [|lia].
    destruct (Nat.leb_spec i j), (Nat.ltb_spec j (i + 0)); simpl; lia. }
  destruct (match_loop_cons _ _ _ _ _ _ _ Hmu Hm) as (c & rest' & -> & Hc & Hr).
  apply multi_ok_tail in Hmu. rewrite length_app, Hc. cbn [length].
  assert (Hl : length rest' = (length segs + length tail
    + match multi with
      | Some j => if Nat.leb (S i) j && Nat.ltb j (S i + length segs) then extra else 0
      | None => 0 end)%nat).
  { destruct (is_class CLiteral s); [destruct Hr|]; eauto. }
  rewrite Hl. destruct multi as [j|]; [|case_bool_decide; [done|lia]].
  rewrite <- Nat.add_succ_comm.
  case_bool_decide as Hij; [injection Hij as Hij|assert (j <> i) by congruence];
    destruct (Nat.leb_spec (S i) j), (Nat.leb_spec i j), (Nat.ltb_spec j (S i + length segs));
    simpl; lia.
Qed.

(** With enough parts the walk stops only at a literal that differs: its indexing
    never runs past the end. *)
Lemma match_loop_none i segs rest b ref :
  multi_ok i segs ->
  (length segs + match multi with Some j => if Nat.leb i j then extra else 0 | None => 0 end
     <= length rest)%nat ->
  match_loop r multi extra i segs rest b ref = None ->
  exists s got, In s segs /\ In got rest /\ is_class CLiteral s = true /\ seg_segment s <> got.
Proof.
  revert i rest b ref. induction segs as [|s segs IH]; intros i rest b ref Hmu Hlen Hm; [done|].
  pose proof (multi_ok_tail _ _ _ Hmu) as Hmu'. cbn [match_loop] in Hm. simpl in Hlen. case_bool_decide as Hcase.
  - rewrite Hcase, Nat.leb_refl in Hlen. destruct (Nat.leb_spec (1 + extra) (length rest)); [|lia].
    apply IH in Hm as (s' & got & ? & Hg & ?); [|done|].
    + exists s', got. split_and!; try tauto; [by right|].
      rewrite <- (take_drop (1 + extra) rest). apply in_or_app. by right.
    + rewrite length_drop, Hcase. destruct (Nat.leb_spec (S i) i); lia.
  - destruct rest as [|got rest]; [simpl in Hlen; lia|]. simpl in Hlen.
    assert (Hl : (length segs + match multi with Some j => if Nat.leb (S i) j then extra else 0
                                | None => 0 end <= length rest)%nat).
    { destruct multi as [j|]; [|lia].
      destruct (Nat.leb_spec i j), (Nat.leb_spec (S i) j); lia. }
    destruct (is_class CLiteral s) eqn:Ec.
    + destruct (String.eqb_spec (seg_segment s) got) as [E|E]; simpl in Hm.
      * apply IH in Hm as (s' & got' & ? & ? & ?); [|done..]. exists s', got'. simpl. tauto.
      * exists s, got. simpl. tauto.
    + apply IH in Hm as (s' & got' & ? & ? & ?); [|done..]. exists s', got'. simpl. tauto.
Qed.
End Loop.

(** ** [match_segments] *)

Lemma position_multi_ok segs :
  forallb (fun s => negb (is_class CLiteral s && seg_multi s)) segs = true ->
  multi_ok (position_multi segs) 0 segs.
Proof.
  intros Hl j s Hj _ Hs. rewrite Nat.sub_0_r in Hs. unfold position_multi in Hj.
  destruct (list_find _ segs) as [[j' s']|] eqn:E; [|done]. injection Hj as ->.
  apply list_find_Some in E as (Hs' & Hm & _). assert (s' = s) as -> by congruence.
  rewrite forallb_forall in Hl. specialize (Hl s). rewrite Hm, andb_true_r, negb_true_iff in Hl.
  split; [|done]. apply Hl, list_elem_of_In, list_elem_of_lookup. eauto.
Qed.

Lemma position_multi_lt segs j : position_multi segs = Some j -> (j < length segs)%nat.
Proof.
  unfold position_multi. destruct (list_find _ segs) as [[j' s']|] eqn:E; [|done]. intros [= ->].
  apply list_find_Some in E as (Hs' & _). by eapply lookup_lt_Some.
Qed.

Lemma match_tail_refusal r tail ref : match_tail r tail ref = None -> ref = None.
Proof.
  revert ref. induction tail as [|x tail IH]; intros ref; simpl; [done|].
  intros Hm. apply IH in Hm. destruct (_ || _); [|done]. apply or_else_none in Hm. tauto.
Qed.

(** What a match of a row says: the parts fall into blocks, one per fixed segment,
    and the variadic tail. *)
Record Matched (r : Rules) (segs : list Seg) (parts : list string) (b : Binds)
    (ref : option Refusal) (cs : list (list string)) (tail : list string) : Prop := {
  m_parts : parts = concat cs ++ tail;
  m_covers : Forall2 (covers r b ref) (fixed_of segs) cs;
  m_tail : if ends_wildcard segs then tail <> [] /\ b !! "*" = Some (join ":" tail) else tail = [];
  m_dom : forall k, k ∉ placeholders (fixed_of segs) -> k <> "*" -> b !! k = None;
}.

Lemma covers_star r b ref ref' s c x :
  (ref' = None -> ref = None) -> (is_class CLiteral s = false -> seg_name s <> "*") ->
  covers r b ref s c -> covers r (<["*" := x]> b) ref' s c.
Proof.
  intros Hr Hn (Hne & Hone & Hc). split_and!; [done..|]. destruct (is_class CLiteral s); [done|].
  rewrite lookup_insert_ne by (symmetry; auto). naive_solver.
Qed.

(** The arity test leaves the tail empty for a row without a wildcard, and not for one
    with it. *)
Lemma match_arity segs parts extra r b ref tail :
  let fixed := fixed_of segs in
  multi_ok (position_multi fixed) 0 fixed ->
  (if ends_wildcard segs then if Nat.ltb (length parts) (length fixed + 1) then None else Some 0%nat
   else match position_multi fixed with
        | Some _ => if Nat.ltb (length parts) (length fixed) then None
                    else Some (length parts - length fixed)%nat
        | None => if negb (Nat.eqb (length parts) (length fixed)) then None else Some 0%nat
        end) = Some extra ->
  match_loop r (position_multi fixed) extra 0 fixed parts ∅ None = Some (b, ref, tail) ->
  if ends_wildcard segs then tail <> [] else tail = [].
Proof.
  intros fixed Hmu He Hm. apply match_loop_length in Hm; [|done].
  destruct (ends_wildcard segs).
  - destruct (Nat.ltb_spec (length parts) (length fixed + 1)); [done|]. injection He as <-.
    assert (length tail <> 0%nat); [|by destruct tail].
    destruct (position_multi fixed) as [j|]; [|lia]. destruct (_ && _); lia.
  - apply length_zero_iff_nil. destruct (position_multi fixed) as [j|] eqn:Ej.
    + destruct (Nat.ltb_spec (length parts) (length fixed)); [done|]. injection He as <-.
      apply position_multi_lt in Ej. destruct (Nat.ltb_spec j (0 + length fixed)); simpl in *; lia.
    + destruct (Nat.eqb_spec (length parts) (length fixed)); simpl in He; [|done]. lia.
Qed.

Lemma not_in_placeholders segs k s :
  k ∉ placeholders segs -> In s segs -> is_class CLiteral s = false -> seg_name s <> k.
Proof.
  intros Hk Hs Hc <-. apply Hk. apply list_elem_of_In. unfold placeholders.
  apply in_map, filter_In. by rewrite Hc.
Qed.

Lemma match_segments_spec segs parts r b ref :
  wf_segs segs = true -> match_segments segs parts r = Some (b, ref) ->
  exists cs tail, Matched r segs parts b ref cs tail.
Proof.
  unfold wf_segs. rewrite !andb_true_iff, !bool_decide_eq_true. intros [[Hnd Hstar] Hl] Hm.
  pose proof (position_multi_ok _ Hl) as Hmu. unfold match_segments in Hm. fold (fixed_of segs) in Hm.
  apply bind_Some in Hm as (extra & He & Hm). apply bind_Some in Hm as ([[b0 ref0] tail] & Hlp & Hm).
  pose proof (match_arity _ _ _ _ _ _ _ Hmu He Hlp) as Ht.
  destruct (match_loop_covers _ _ _ _ _ _ _ _ _ _ _ Hmu Hnd Hlp) as (cs & Hp & HF).
  pose proof (fun k => match_loop_other _ _ _ _ _ _ _ _ _ _ _ k Hmu Hlp) as Hdom.
  injection Hm as <- <-. exists cs, tail. destruct tail as [|x tail].
  - split; [done| |by destruct (ends_wildcard segs)|].
    + eapply Forall2_impl; [exact HF|]. done.
    + intros k Hk _. rewrite Hdom by done. apply lookup_empty.
  - split; [done| | |].
    + apply Forall2_same_length_lookup in HF as [Hlen HF]. apply Forall2_same_length_lookup.
      split; [done|]. intros i s c Hs Hc. apply (covers_star r b0 ref0).
      * intros Hn. by apply match_tail_refusal in Hn.
      * apply (not_in_placeholders (fixed_of segs)); [done|].
        apply list_elem_of_In, list_elem_of_lookup. eauto.
      * by eapply HF.
    + destruct (ends_wildcard segs); [|done]. split; [done|]. by rewrite lookup_insert_eq.
    + intros k Hk Hne. rewrite lookup_insert_ne by done. rewrite Hdom by done. apply lookup_empty.
Qed.

Lemma covers_join r b ref s c : covers r b ref s c -> join ":" c = render_seg b s.
Proof.
  intros (Hne & Hone & Hc). unfold render_seg. destruct (is_class CLiteral s); [by subst|].
  destruct Hc as [-> _]. done.
Qed.

Lemma concat_singletons {A} (t : list A) : concat (map (fun x => [x]) t) = t.
Proof. induction t as [|x t IH]; simpl; [done|]. by rewrite IH. Qed.

(** Rendering the row under the bindings gives the text back, also with parts after it. *)
Lemma matched_render r segs parts b ref cs tail t :
  Matched r segs parts b ref cs tail -> join ":" (parts ++ t) = join ":" (render segs b ++ t).
Proof.
  intros [-> HF Ht _]. unfold render.
  assert (Hcs : Forall (fun c => c <> []) cs).
  { clear Ht. induction HF as [|s c segs' cs' Hc HF IH]; constructor; [apply Hc|done]. }
  assert (Hmap : map (join ":") cs = map (render_seg b) (fixed_of segs)).
  { clear Ht Hcs. induction HF as [|s c segs' cs' Hc HF IH]; simpl; [done|].
    by rewrite IH, (covers_join _ _ _ _ _ Hc). }
  set (blocks := cs ++ (if ends_wildcard segs then [tail] else []) ++ map (fun x => [x]) t).
  replace ((concat cs ++ tail) ++ t) with (concat blocks).
  - rewrite join_concat.
    + unfold blocks. rewrite !map_app, Hmap, map_map, map_id, <- app_assoc. do 2 f_equal.
      destruct (ends_wildcard segs); [|done]. destruct Ht as [_ ->]. done.
    + unfold blocks. rewrite !Forall_app. split_and!; [done| |by apply Forall_map, Forall_true].
      destruct (ends_wildcard segs); [|done]. destruct Ht. by constructor.
  - unfold blocks. rewrite !concat_app, concat_singletons, app_assoc. do 2 f_equal.
    destruct (ends_wildcard segs); [simpl; by rewrite app_nil_r|by rewrite Ht].
Qed.

Lemma is_class_true c s : is_class c s = true <-> seg_class s = c.
Proof. unfold is_class. apply bool_decide_eq_true. Qed.

(** A placeholder of a clean match bound a value its class accepts. *)
Lemma matched_checked r segs parts b cs tail s :
  Matched r segs parts b None cs tail -> In s (fixed_of segs) -> is_class CLiteral s = false ->
  seg_multi s = false ->
  exists v, b !! seg_name s = Some v /\ check_seg s v r = None.
Proof.
  intros [_ HF _ _] Hs Hc Hm. apply list_elem_of_In, list_elem_of_lookup in Hs as [i Hi].
  destruct (Forall2_lookup_l _ _ _ _ _ HF Hi) as (c & _ & _ & Hone & Hcov). rewrite Hc in Hcov.
  destruct Hcov as [Hb Hchk]. specialize (Hone Hm). destruct c as [|v [|]]; try done.
  exists v. split; [done|]. apply Hchk; [done|by left].
Qed.

(** ** The candidates of a resolution *)

Definition reading (fam : Fam) (found : option (Binds * option Refusal)) (has_version : bool)
    : list Candidate :=
  match found with
  | Some (b, ref) => [(score fam, mk_Resolved fam b ref has_version)]
  | None => []
  end.

(** How the first loop reads a family, in the order it offers the readings. *)
Definition readings (r : Rules) (parts : list string) (fam : Fam) : list Candidate :=
  let versioned := is_versioned r parts in
  if ends_version fam && negb versioned then
    reading fam (match_segments (removelast (f_segments fam)) parts r) false
    ++ reading fam (match_segments (f_segments fam) parts r) true
  else if ends_version fam || negb versioned then
    reading fam
      ('(b, ref) ← match_segments (f_segments fam) parts r;
       let mutated := negb versioned &&
                      match last parts with Some p => mutated_tail r p | None => false end in
       Some (b, or_else ref (if mutated then Some CaseMalformed else None)))
      (ends_version fam)
  else if Nat.ltb 1 (length parts) then
    reading fam (match_segments (f_segments fam) (removelast parts) r) true
  else [].

Definition rereadings (r : Rules) (parts : list string) (fam : Fam) : list Candidate :=
  if ends_version fam then [] else reading fam (match_segments (f_segments fam) parts r) false.

(** All candidates, in manifest order: the second loop's when the first has none and
    the last segment is version-shaped. *)
Definition candidates (r : Rules) (parts : list string) : list Candidate :=
  match flat_map (readings r parts) (r_families r) with
  | [] => if is_versioned r parts then flat_map (rereadings r parts) (r_families r) else []
  | l => l
  end.

Definition by_score (a b : Candidate) : bool := score_gt a.1 b.1.

Definition keep_best (best : option Candidate) (c : Candidate) : option Candidate :=
  if match best with None => true | Some b => by_score c b end then Some c else best.

Lemma offer_reading best fam found hv :
  offer best fam found hv = fold_left keep_best (reading fam found hv) best.
Proof. unfold offer, reading, keep_best, by_score. destruct found as [[b ref]|], best as [[s x]|]; done. Qed.

Lemma resolve_step_readings r parts best fam :
  resolve_step r parts best fam = fold_left keep_best (readings r parts fam) best.
Proof.
  unfold resolve_step, readings. rewrite !offer_reading.
  repeat case_if; by rewrite ?fold_left_app.
Qed.

Lemma reread_step_readings r parts best fam :
  reread_step r parts best fam = fold_left keep_best (rereadings r parts fam) best.
Proof. unfold reread_step, rereadings. rewrite !offer_reading. by case_if. Qed.

Lemma fold_left_flat_map {A B C} (f : C -> B -> C) (g : A -> list B) step l c :
  (forall c x, step c x = fold_left f (g x) c) ->
  fold_left step l c = fold_left f (flat_map g l) c.
Proof.
  intros Hs. revert c. induction l as [|x l IH]; intros c; simpl; [done|].
  by rewrite fold_left_app, Hs, IH.
Qed.

Lemma keep_best_some l c : is_Some (fold_left keep_best l (Some c)).
Proof.
  revert c. induction l as [|x l IH]; intros c; simpl; [by eauto|].
  unfold keep_best at 2. destruct (by_score x c); apply IH.
Qed.

Lemma resolve_candidates r parts :
  resolve r parts = snd <$> fold_left keep_best (candidates r parts) None.
Proof.
  unfold resolve, candidates.
  rewrite (fold_left_flat_map keep_best (readings r parts)) by apply resolve_step_readings.
  rewrite (fold_left_flat_map keep_best (rereadings r parts)) by apply reread_step_readings.
  destruct (flat_map (readings r parts) (r_families r)) as [|c l].
  - simpl. by destruct (is_versioned r parts).
  - change (fold_left keep_best (c :: l) None) with (fold_left keep_best l (Some c)).
    by destruct (keep_best_some l c) as [x ->].
Qed.

(** Keeping the first best is the head of the stable sort. *)
Lemma keep_best_head l acc :
  head (fold_left (fun acc x => insert_sorted by_score x acc) l acc)
  = fold_left keep_best l (head acc).
Proof.
  revert acc. induction l as [|x l IH]; intros acc; simpl; [done|]. rewrite IH. f_equal.
  destruct acc as [|y acc]; simpl; [done|]. unfold keep_best. by destruct (by_score x y).
Qed.

Lemma keep_best_In l best x : fold_left keep_best l best = Some x -> best = Some x \/ In x l.
Proof.
  revert best. induction l as [|y l IH]; intros best; simpl; [auto|].
  intros Hx. apply IH in Hx as [Hx|Hx]; [|auto]. unfold keep_best in Hx.
  case_if; [injection Hx as ->; auto|auto].
Qed.

Lemma score_gt_spec a b :
  score_gt a b = true <->
  (b.1.1 < a.1.1)%N \/ (b.1.1 = a.1.1 /\ ((b.1.2 < a.1.2)%N \/ (b.1.2 = a.1.2 /\ (b.2 < a.2)%N))).
Proof.
  destruct a as [[a1 a2] a3], b as [[b1 b2] b3]. simpl.
  destruct (N.eqb_spec a1 b1), (N.eqb_spec a2 b2); simpl; rewrite N.ltb_lt; lia.
Qed.

Lemma by_score_asym a b : by_score a b = true -> by_score b a = false.
Proof.
  unfold by_score. intros Hab. apply not_true_iff_false. revert Hab. rewrite !score_gt_spec. lia.
Qed.

Lemma by_score_cotrans a b c : by_score a c = true -> by_score a b = true \/ by_score b c = true.
Proof. unfold by_score. rewrite !score_gt_spec. lia. Qed.

(** ** Rows as the manifest writes them *)

(** The segments of a row before its version segment. *)
Definition body (f : Fam) : list Seg :=
  if ends_version f then removelast (f_segments f) else f_segments f.

(** A row's placeholders are distinct, and [version] names the last segment or none. *)
Definition wf_fam (f : Fam) : bool :=
  wf_segs (f_segments f) && wf_segs (body f)
  && bool_decide ("version" ∉ placeholders (fixed_of (body f)))
  && (negb (ends_version f)
      || (negb (ends_wildcard (body f))
          && match last (f_segments f) with
             | Some s => (seg_name s =s "version") && negb (is_class CLiteral s)
                         && negb (is_class CWildcard s) && negb (seg_multi s)
             | None => false
             end)).

Definition wf_rules (r : Rules) : bool := forallb wf_fam (r_families r).

(** A reading of the parts as an instance of a family. *)
Inductive Reads (r : Rules) (parts : list string) (fam : Fam) : Binds -> option Refusal -> bool -> Prop :=
| reads_headless b ref : ends_version fam = true -> is_versioned r parts = false ->
    match_segments (removelast (f_segments fam)) parts r = Some (b, ref) ->
    Reads r parts fam b ref false
| reads_mistailed b ref : ends_version fam = true -> is_versioned r parts = false ->
    match_segments (f_segments fam) parts r = Some (b, ref) -> Reads r parts fam b ref true
| reads_versioned b ref : ends_version fam = true -> is_versioned r parts = true ->
    match_segments (f_segments fam) parts r = Some (b, ref) ->
    Reads r parts fam b (or_else ref None) true
| reads_stripped b ref : ends_version fam = false -> is_versioned r parts = true ->
    (1 < length parts)%nat ->
    match_segments (f_segments fam) (removelast parts) r = Some (b, ref) -> Reads r parts fam b ref true
| reads_bare b ref ref' : ends_version fam = false ->
    match_segments (f_segments fam) parts r = Some (b, ref) ->
    (ref' = None -> ref = None) -> Reads r parts fam b ref' false.

Lemma reading_In fam found hv c :
  In c (reading fam found hv) ->
  exists b ref, found = Some (b, ref) /\ c = (score fam, mk_Resolved fam b ref hv).
Proof. unfold reading. destruct found as [[b ref]|]; [|done]. intros [<-|[]]. eauto. Qed.

Lemma readings_Reads r parts fam c :
  In c (readings r parts fam) \/ In c (rereadings r parts fam) ->
  c.1 = score fam /\ res_fam c.2 = fam /\
  Reads r parts fam (res_binds c.2) (res_refusal c.2) (res_has_version c.2).
Proof.
  unfold readings, rereadings. intros [Hc|Hc].
  - destruct (ends_version fam) eqn:Ee, (is_versioned r parts) eqn:Ev; simpl in Hc.
    + apply reading_In in Hc as (b & ref & Hf & ->). simpl. split_and!; [done..|].
      apply bind_Some in Hf as ([b0 ref0] & Hm & Hf). injection Hf as <- <-.
      by apply reads_versioned.
    + apply in_app_iff in Hc as [Hc|Hc]; apply reading_In in Hc as (b & ref & Hf & ->); simpl;
        split_and!; eauto using Reads.
    + destruct (Nat.ltb_spec 1 (length parts)); [|done].
      apply reading_In in Hc as (b & ref & Hf & ->). simpl. split_and!; eauto using Reads.
    + apply reading_In in Hc as (b & ref & Hf & ->). simpl. split_and!; [done..|].
      apply bind_Some in Hf as ([b0 ref0] & Hm & Hf). injection Hf as <- <-.
      eapply reads_bare; [done..|]. by intros [-> _]%or_else_none.
  - destruct (ends_version fam) eqn:Ee; [done|]. apply reading_In in Hc as (b & ref & Hf & ->).
    simpl. split_and!; eauto using Reads.
Qed.

Lemma candidates_Reads r parts c :
  In c (candidates r parts) ->
  In (res_fam c.2) (r_families r) /\ c.1 = score (res_fam c.2) /\
  Reads r parts (res_fam c.2) (res_binds c.2) (res_refusal c.2) (res_has_version c.2).
Proof.
  intros E. unfold candidates in E.
  assert (exists fam, In fam (r_families r) /\
            (In c (readings r parts fam) \/ In c (rereadings r parts fam))) as (fam & Hf & Hc).
  { destruct (flat_map (readings r parts) _) as [|c0 l] eqn:El.
    - destruct (is_versioned r parts); [|done]. apply in_flat_map in E as (fam & ? & ?). eauto.
    - rewrite <- El in E. apply in_flat_map in E as (fam & ? & ?). eauto. }
  apply readings_Reads in Hc as (Hsc & Hfam & Hr). by rewrite Hfam.
Qed.

Lemma candidates_score r parts c : In c (candidates r parts) -> c.1 = score (res_fam c.2).
Proof. intros Hc. by apply candidates_Reads in Hc as (_ & ? & _). Qed.

Lemma resolve_Reads r parts hit :
  resolve r parts = Some hit ->
  In (res_fam hit) (r_families r) /\
  Reads r parts (res_fam hit) (res_binds hit) (res_refusal hit) (res_has_version hit).
Proof.
  rewrite resolve_candidates. destruct (fold_left _ _ _) as [c|] eqn:E; [|done]. intros [= <-].
  apply keep_best_In in E as [|E]; [done|]. by apply candidates_Reads in E as (? & _ & ?).
Qed.

Lemma last_removelast {A} (l : list A) x : last l = Some x -> l = removelast l ++ [x].
Proof.
  intros Hl. destruct l as [|y l _] using rev_ind; [done|]. rewrite last_snoc in Hl.
  injection Hl as ->. by rewrite removelast_last.
Qed.

Lemma wf_fam_inv f :
  wf_fam f = true ->
  wf_segs (f_segments f) = true /\ wf_segs (body f) = true /\
  "version" ∉ placeholders (fixed_of (body f)) /\
  (ends_version f = true -> exists s, last (f_segments f) = Some s /\
     seg_segment s = "{version}" /\ seg_name s = "version" /\ is_class CLiteral s = false /\
     is_class CWildcard s = false /\ seg_multi s = false /\ ends_wildcard (body f) = false).
Proof.
  unfold wf_fam. rewrite !andb_true_iff, bool_decide_eq_true. intros [[[Hs Hb] Hv] Ht].
  split_and!; [done..|]. intros He. rewrite He in Ht. simpl in Ht.
  unfold ends_version in He. destruct (last (f_segments f)) as [s|]; [|by rewrite andb_false_r in Ht].
  exists s. rewrite !andb_true_iff, !negb_true_iff, String.eqb_eq in Ht.
  apply String.eqb_eq in He. naive_solver.
Qed.

(** A trailing [{version}] placeholder takes exactly the last part. *)
Lemma matched_version r segs parts b ref cs tail s :
  Matched r segs parts b ref cs tail -> last segs = Some s ->
  is_class CLiteral s = false -> is_class CWildcard s = false -> seg_multi s = false ->
  exists v, last parts = Some v /\ b !! seg_name s = Some v /\
    (ref = None -> check_seg s v r = None).
Proof.
  intros [Hp HF Ht _] Hs Hl Hw Hm.
  assert (Hew : ends_wildcard segs = false) by (unfold ends_wildcard; by rewrite Hs).
  unfold fixed_of in HF. rewrite Hew in HF, Ht. subst tail. rewrite app_nil_r in Hp.
  rewrite (last_removelast _ _ Hs) in HF.
  apply Forall2_app_inv_l in HF as (cs1 & cs2 & _ & HF & ->).
  inversion HF as [|? c ? ? (Hne & Hone & Hc) Hnil]; subst. inversion Hnil; subst.
  rewrite Hl in Hc. destruct Hc as [Hb Hchk]. specialize (Hone Hm). destruct c as [|v [|]]; try done.
  exists v. rewrite concat_app. simpl. rewrite last_snoc. split_and!; [done..|].
  intros Hr. apply Hchk; [done|by left].
Qed.

Lemma check_version s v r :
  seg_segment s = "{version}" -> check_seg s v r = None -> r_version r v = true.
Proof.
  intros Hs. unfold check_seg, malformed_unless. rewrite Hs. simpl. destruct (v =s ""); [done|].
  by destruct (r_version r v).
Qed.

Lemma reads_has_version r parts fam b :
  wf_fam fam = true -> Reads r parts fam b None true -> is_versioned r parts = true.
Proof.
  intros Hwf HR. destruct (wf_fam_inv _ Hwf) as (Hs & _ & _ & Hv). inversion HR; subst; try done.
  destruct (Hv ltac:(done)) as (s & Hl & Hseg & _ & Hlit & Hw & Hm & _).
  destruct (match_segments_spec _ _ _ _ _ Hs ltac:(eassumption)) as (cs & tail & HM).
  destruct (matched_version _ _ _ _ _ _ _ _ HM Hl Hlit Hw Hm) as (v & Hlast & _ & Hchk).
  unfold is_versioned. rewrite Hlast. by apply (check_version s), Hchk.
Qed.

Lemma render_frame segs b k v :
  k ∉ placeholders (fixed_of segs) -> k <> "*" -> render segs (<[k := v]> b) = render segs b.
Proof.
  intros Hk Hstar. unfold render. f_equal.
  - apply map_ext_in. intros s Hs. unfold render_seg. destruct (is_class CLiteral s) eqn:E; [done|].
    rewrite lookup_insert_ne; [done|]. symmetry. by eapply not_in_placeholders.
  - destruct (ends_wildcard segs); [|done]. by rewrite lookup_insert_ne.
Qed.

(** The bindings an admitted dimension is answered with. *)
Definition final_binds (parts : list string) (b : Binds) (has_version : bool) : Binds :=
  if has_version then <["version" := default "" (last parts)]> b else b.

Lemma reads_bare_render r parts segs b ref :
  wf_segs segs = true -> "version" ∉ placeholders (fixed_of segs) ->
  match_segments segs parts r = Some (b, ref) ->
  join ":" parts = join ":" (render segs b ++ option_list (b !! "version")).
Proof.
  intros Hwf Hv Hm. destruct (match_segments_spec _ _ _ _ _ Hwf Hm) as (cs & tail & HM).
  rewrite (m_dom _ _ _ _ _ _ _ HM "version") by done. simpl. rewrite app_nil_r.
  pose proof (matched_render _ _ _ _ _ _ _ [] HM) as E. by rewrite !app_nil_r in E.
Qed.

Lemma reads_render r parts fam b hv :
  wf_fam fam = true -> Reads r parts fam b None hv ->
  let b' := final_binds parts b hv in
  join ":" parts = join ":" (render (body fam) b' ++ option_list (b' !! "version")).
Proof.
  intros Hwf HR. pose proof (wf_fam_inv _ Hwf) as (Hs & Hb & Hv & Hver).
  pose proof (fun e => reads_has_version r parts fam b Hwf (eq_ind hv (Reads r parts fam b None) HR true e)) as Hhv.
  cbn zeta. inversion HR as [b0 ref Ee Ev Hm|b0 ref Ee Ev Hm|b0 ref Ee Ev Hm Eb Er|b0 ref Ee Ev Hlen Hm
    |b0 ref ref' Ee Hm Hr]; subst; unfold final_binds.
  - unfold body in *. rewrite Ee in *. by eapply reads_bare_render.
  - specialize (Hhv eq_refl). congruence.
  - destruct (Hver Ee) as (s & Hl & _ & Hname & Hlit & Hw & Hmul & Hbw).
    destruct (match_segments_spec _ _ _ _ _ Hs Hm) as (cs & tail & HM).
    destruct (matched_version _ _ _ _ _ _ _ _ HM Hl Hlit Hw Hmul) as (v & Hlast & Hbv & _).
    rewrite render_frame, lookup_insert_eq, Hlast by done. simpl.
    pose proof (matched_render _ _ _ _ _ _ _ [] HM) as E. rewrite !app_nil_r in E. rewrite E.
    unfold render, fixed_of at 1, ends_wildcard at 1 2. rewrite Hl, Hw, app_nil_r.
    rewrite (last_removelast _ _ Hl) at 1. rewrite map_app. simpl.
    unfold render_seg at 2. rewrite Hlit, Hbv. simpl.
    unfold body in *. rewrite Ee in *. unfold fixed_of. by rewrite Hbw, app_nil_r.
  - destruct (last parts) as [v|] eqn:Hlast; [|by unfold is_versioned in Ev; rewrite Hlast in Ev].
    rewrite render_frame, lookup_insert_eq by done. simpl.
    destruct (match_segments_spec _ _ _ _ _ Hs Hm) as (cs & tail & HM).
    rewrite (last_removelast _ _ Hlast) at 1. rewrite (matched_render _ _ _ _ _ _ _ [v] HM).
    unfold body. by rewrite Ee.
  - unfold body in *. rewrite Ee in *. by eapply reads_bare_render.
Qed.

Lemma fixed_body_incl f s :
  wf_fam f = true -> ends_version f = true -> In s (fixed_of (body f)) -> In s (fixed_of (f_segments f)).
Proof.
  intros Hwf He Hs. destruct (wf_fam_inv _ Hwf) as (_ & _ & _ & Hv).
  destruct (Hv He) as (x & Hl & _ & _ & _ & Hw & _ & Hbw). unfold fixed_of in *.
  assert (ends_wildcard (f_segments f) = false) as -> by (unfold ends_wildcard; by rewrite Hl).
  rewrite Hbw in Hs. unfold body in Hs. rewrite He in Hs. rewrite (last_removelast _ _ Hl).
  apply in_or_app. by left.
Qed.

(** Every placeholder before the version is bound to a value its class accepts. *)
Lemma reads_checked r parts fam b hv s :
  wf_fam fam = true -> Reads r parts fam b None hv -> In s (fixed_of (body fam)) ->
  is_class CLiteral s = false -> seg_multi s = false ->
  exists v, final_binds parts b hv !! seg_name s = Some v /\ check_seg s v r = None.
Proof.
  intros Hwf HR Hs Hlit Hmu. pose proof (wf_fam_inv _ Hwf) as (Hsegs & Hbody & Hv & _).
  assert (Hb : exists v, b !! seg_name s = Some v /\ check_seg s v r = None).
  { assert (exists segs parts', wf_segs segs = true /\ match_segments segs parts' r = Some (b, None) /\
              In s (fixed_of segs)) as (segs & parts' & Hw & Hm & Hin).
    { inversion HR as [b0 ref Ee Ev Hm|b0 ref Ee Ev Hm|b0 ref Ee Ev Hm Eb Er|b0 ref Ee Ev Hlen Hm
        |b0 ref ref' Ee Hm Hr]; subst.
      - exists (body fam), parts. split_and!; [done| |done]. unfold body. by rewrite Ee.
      - exists (f_segments fam), parts. split_and!; [done..|]. by apply fixed_body_incl.
      - apply or_else_none in Er as [-> _]. exists (f_segments fam), parts.
        split_and!; [done..|]. by apply fixed_body_incl.
      - exists (f_segments fam), (removelast parts). unfold body in Hs. rewrite Ee in Hs. done.
      - rewrite (Hr eq_refl) in Hm. exists (f_segments fam), parts. unfold body in Hs.
        rewrite Ee in Hs. done. }
    destruct (match_segments_spec _ _ _ _ _ Hw Hm) as (cs & tail & HM).
    by apply (matched_checked _ _ _ _ _ _ s HM). }
  destruct Hb as (v & Hb & Hc). exists v. split; [|done]. unfold final_binds.
  destruct hv; [|done]. rewrite lookup_insert_ne; [done|]. symmetry. by eapply not_in_placeholders.
Qed.

Lemma check_closed_vocab s v r vs :
  seg_class s = CVocab -> seg_segment s <> "{version}" -> seg_values s = Some vs -> vs <> [] ->
  seg_open s = false -> check_seg s v r = None -> In v vs /\ r_vocab r v = true.
Proof.
  intros Hc Hnv Hvs Hne Ho. unfold check_seg. rewrite Hc, Hvs, Ho. destruct (v =s ""); [done|].
  rewrite (proj2 (String.eqb_neq _ _) Hnv). destruct (r_vocab r v); [|done]. simpl.
  destruct (N.eqb_spec (len vs) 0) as [E|]; [by apply len_zero in E|]. simpl.
  destruct (existsb _ vs) eqn:E; [|done]. intros _. split; [|done].
  apply existsb_exists in E as (x & Hx & ->%String.eqb_eq). done.
Qed.

(** ** What the answers of [match_family] rest on *)

Section Answers.
Context `{Grammar}.

(** The closed stems of the rules a manifest reads to. *)
Lemma parse_rules_closed root r :
  parse_rules root = Some r ->
  exists stems, mapM closed_stem (List.filter f_leaves_closed (r_families r)) = Some stems /\
    r_closed_stems r = btree_set stems.
Proof.
  unfold parse_rules. cbn zeta. intros Hp. repeat (bind_inv Hp). injection Hp as <-. eauto.
Qed.

Lemma match_claimed_family r parts hit : family (match_claimed r parts hit) <> None.
Proof.
  unfold match_claimed. destruct (res_refusal hit).
  - destruct (detect_malformed _ _ _); [case_if|]; done.
  - cbn zeta. repeat case_if; done.
Qed.

(** The two clean answers: open vocabulary, and an admitted family. *)
Lemma match_family_clean r dim f b :
  match_family r dim = mk_FamilyMatch f b None ->
  starts_with (r_private r) dim = false /\
  existsb (fun p => p =s "") (split_on ":" dim) = false /\
  match f with
  | None => resolve r (split_on ":" dim) = None /\
            match_unclaimed r dim (split_on ":" dim) = bare None
  | Some p => exists hit, resolve r (split_on ":" dim) = Some hit /\
      p = f_prefix (res_fam hit) /\ match_claimed r (split_on ":" dim) hit = mk_FamilyMatch f b None
  end.
Proof.
  unfold match_family. destruct (_ || _); [done|].
  destruct (starts_with (r_private r) dim); [done|]. cbn zeta.
  destruct (existsb _ _); [done|]. destruct (resolve r _) as [hit|] eqn:Er; intros Hm.
  - split_and!; [done..|]. pose proof (match_claimed_family r (split_on ":" dim) hit) as Hf.
    rewrite Hm in Hf. destruct f as [p|]; [|done]. exists hit. split_and!; [done| |done].
    unfold match_claimed in Hm. destruct (res_refusal hit) eqn:Eref.
    + destruct (detect_malformed _ _ _); [case_if|]; simplify_eq; congruence.
    + cbn zeta in Hm. repeat case_if; by simplify_eq.
  - split_and!; [done..|]. destruct f as [p|].
    + unfold match_unclaimed in Hm. destruct (detect_malformed _ _ _); [done|].
      cbn zeta in Hm. repeat case_if; done.
    + split; [done|]. rewrite Hm. unfold match_unclaimed in Hm.
      destruct (detect_malformed _ _ _); [done|]. cbn zeta in Hm. unfold bare in *.
      repeat case_if; by simplify_eq.
Qed.

Lemma match_claimed_clean r parts hit f b :
  match_claimed r parts hit = mk_FamilyMatch f b None ->
  let fam := res_fam hit in
  res_refusal hit = None /\ b = final_binds parts (res_binds hit) (res_has_version hit) /\
  (r_version_required r = true -> is_version_exempt r (f_prefix fam) = false ->
   res_has_version hit = true) /\
  (f_leaves_closed fam = true -> last_class fam = Some CWildcard \/ last_class fam = Some CVocab ->
   exists l lf, In l (f_leaves fam) /\ find_family r l = Some lf /\
     is_Some (match_segments (f_segments lf)
                (if is_versioned r parts && res_has_version hit then removelast parts else parts) r)).
Proof.
  unfold match_claimed. cbn zeta. destruct (res_refusal hit) eqn:Er.
  { destruct (detect_malformed _ _ _); [case_if|]; intros; simplify_eq; congruence. }
  set (ok := existsb _ (f_leaves (res_fam hit))).
  destruct (f_leaves_closed _ && _ && negb ok) eqn:Ec; [done|].
  destruct (_ && _ && negb (res_has_version hit)) eqn:Ev; [done|]. intros Hm.
  split_and!; [done| | |].
  - unfold final_binds. destruct (res_has_version hit); by simplify_eq.
  - intros Hreq Hex. unfold is_version_exempt in Hex. rewrite Hreq, Hex in Ev. simpl in Ev.
    by destruct (res_has_version hit).
  - intros Hcl Hlc. rewrite Hcl, bool_decide_eq_true_2 in Ec by done. simpl in Ec.
    apply negb_false_iff in Ec. subst ok. apply existsb_exists in Ec as (l & Hl & Hlf).
    destruct (find_family r l) as [lf|] eqn:Elf; [|done]. exists l, lf.
    by apply bool_decide_eq_true in Hlf.
Qed.

(** An admitted dimension: the family it resolved to, and how. *)
Lemma admitted_inv r dim p b :
  wf_rules r = true -> match_family r dim = mk_FamilyMatch (Some p) b None ->
  exists hit, let fam := res_fam hit in
    In fam (r_families r) /\ wf_fam fam = true /\ f_prefix fam = p /\
    Reads r (split_on ":" dim) fam (res_binds hit) None (res_has_version hit) /\
    match_claimed r (split_on ":" dim) hit = mk_FamilyMatch (Some p) b None.
Proof.
  intros Hwf Hm. apply match_family_clean in Hm as (_ & _ & hit & Hr & -> & Hc). exists hit. cbn zeta.
  destruct (resolve_Reads _ _ _ Hr) as [Hin HR]. unfold wf_rules in Hwf. rewrite forallb_forall in Hwf.
  split_and!; [done|by apply Hwf|done| |done].
  by apply match_claimed_clean in Hc as (<- & _).
Qed.
End Answers.

(** ** Properties *)

Module MSamples.
Definition byte_in (ranges : list (N * N)) (c : ascii) : bool :=
  existsb (fun p => (p.1 <=? N_of_ascii c)%N && (N_of_ascii c <=? p.2)%N) ranges.
Fixpoint all_bytes (ranges : list (N * N)) (s : string) : bool :=
  match s with EmptyString => true | String c s' => byte_in ranges c && all_bytes ranges s' end.
Definition digit : list (N * N) := [(48, 57)]%N.
Definition lower : list (N * N) := [(97, 122)]%N.
Definition vocab_re (s : string) : bool :=
  match s with
  | EmptyString => false
  | String c s' => byte_in (digit ++ lower) c && all_bytes (digit ++ lower ++ [(95, 95); (45, 46)]%N) s'
  end.
Definition groups (s : string) : bool :=
  forallb (fun w => (w <>s "") && all_bytes digit w) (split_on "." s).
Definition version_re (heads : string) (s : string) : bool :=
  match s with EmptyString => false | String c s' => has_byte c heads && groups s' end.
Definition attempt_re (s : string) : bool :=
  match s with
  | String c (String d s') => has_byte c "vV" && byte_in digit d
      && all_bytes (digit ++ lower ++ [(65, 90); (95, 95); (45, 46)]%N) s'
  | _ => false
  end.
Definition hex_re (s : string) : bool := (s <>s "") && all_bytes (digit ++ [(97, 102)]%N) s.

Definition table : list (string * Regex) :=
  [("^(?:^[a-z0-9][a-z0-9_.-]*$)$", vocab_re); ("^(?:^v[0-9]+(\.[0-9]+)*$)$", version_re "v");
   ("^(?:^[0-9a-f]+$)$", hex_re); (VERSION_LIKE, version_re "vV"); (VERSION_ATTEMPT, attempt_re)].

Definition lit (s : string) : Value := Object [("segment", Str s); ("class", Str "literal")].
Definition manifest : Value := Object [
  ("_meta", Object [
    ("private_use_prefix", Str "x_private:");
    ("case_rule", Object [
      ("vocab_pattern", Str "^[a-z0-9][a-z0-9_.-]*$");
      ("refusal_tokens", Object [("case_malformed", Str "namespace_dimension_case_malformed")]);
      ("reserved_stems", Array [Object [("stem", Str "transparency_log:"); ("kind", Str "reserved");
         ("rule", Str "witness-emitter"); ("cc_ref", Str "CC 3.4.10")]]);
      ("version_segment", Object [("pattern", Str "^v[0-9]+(\.[0-9]+)*$");
         ("exempt", Array []); ("required", Bool true)])])]);
  ("families", Array [
    Object [("prefix", Str "config:{scope}"); ("segments", Array [lit "config";
      Object [("segment", Str "{scope}"); ("class", Str "vocab");
              ("values", Array [Str "admission"; Str "routing"]); ("open", Bool false)]])];
    Object [("prefix", Str "accord:*"); ("leaves", Array [Str "accord:lifecycle"]);
      ("leaves_closed", Bool true);
      ("segments", Array [lit "accord"; Object [("segment", Str "*"); ("class", Str "wildcard")]])];
    Object [("prefix", Str "accord:lifecycle"); ("segments", Array [lit "accord"; lit "lifecycle"])];
    Object [("prefix", Str "trust:{job}:{version}"); ("segments", Array [lit "trust";
      Object [("segment", Str "{job}"); ("class", Str "value"); ("multi", Bool true)];
      Object [("segment", Str "{version}"); ("class", Str "vocab")]])]])].
End MSamples.

(** A grammar to evaluate the model with: the patterns of the vendored manifest, and
    lowercasing of the ASCII letters. *)
#[export] Instance sample_grammar : Grammar := {|
  regex_new p := assoc p MSamples.table;
  to_lowercase := ascii_lower;
  to_lowercase_ascii := fun s _ => eq_refl;
|}.

Module MRules.
Definition rules : Rules :=
  default (mk_Rules (fun _ => true) "" (fun _ => true) true [] ∅ ∅ [] [] [] [] (fun _ => true)
             (fun _ => true) (fun _ => true)) (parse_rules MSamples.manifest).
Definition answer (dim : string) : option string * option string * option string * option Refusal :=
  let m := match_family rules dim in
  (family m, binds m !! "version", binds m !! "job", refusal m).
End MRules.

Example matcher_answers :
  map MRules.answer ["config:admission:v1"; "config:other:v1"; "config:admission"; "accord:lifecycle:v2";
                     "accord:elsewhere:v2"; "trust:a:b:v1.2"; "Trust:a:v1"; "third_party:signal:v1";
                     "transparency_log:x:v1"; "x_private:a:v1"; "accord:lifecycle:V1"]
  = [(Some "config:{scope}", Some "v1", None, None);
     (Some "config:{scope}", None, None, Some VocabValueUnregistered);
     (Some "config:{scope}", None, None, Some MissingVersionSegment);
     (Some "accord:lifecycle", Some "v2", None, None);
     (Some "accord:*", None, None, Some FamilyUnregistered);
     (Some "trust:{job}:{version}", Some "v1.2", Some "a:b", None);
     (Some "trust:{job}:{version}", None, None, Some CaseMalformed);
     (None, None, None, None);
     (None, None, None, Some FamilyUnregistered);
     (None, None, None, Some PrivateUseNotFederatable);
     (Some "accord:lifecycle", None, None, Some CaseMalformed)].
Proof. vm_compute. reflexivity. Qed.

(** C27. Open vocabulary is no bypass. A dimension answered without a family and
    without a refusal is outside the private-use range, has no empty segment, is
    claimed by no row and is no malformed form of one; it sits under no reserved
    or closed stem, not even case-folded; and it carries exactly one trailing
    version segment, after at least one other. *)
Theorem open_vocabulary_sound `{Grammar} (r : Rules) (dim : string) (b : Binds) :
  match_family r dim = mk_FamilyMatch None b None ->
  let parts := split_on ":" dim in
  starts_with (r_private r) dim = false /\
  (forall p, In p parts -> p <> "") /\
  resolve r parts = None /\ detect_malformed r parts false = None /\
  (forall stem, In stem (fenced r) ->
     starts_with stem dim = false /\ starts_with stem (to_lowercase dim) = false /\
     (is_ascii dim = true -> starts_with stem (ascii_lower dim) = false)) /\
  (2 <= length parts)%nat /\
  (r_version_required r = true -> exists v, last parts = Some v /\ r_version r v = true) /\
  (forall s, parts !! (length parts - 2)%nat = Some s -> r_version_like r s = false).
Proof.
  intros Hm. apply match_family_clean in Hm as (Hp & Hne & Hr & Hu). cbn zeta.
  rewrite existsb_false in Hne. unfold match_unclaimed in Hu.
  destruct (detect_malformed _ _ _) eqn:Ed; [done|].
  destruct (existsb _ (fenced r)) eqn:Ef; [done|]. cbn zeta in Hu.
  destruct (_ && existsb _ (fenced r)) eqn:El; [done|].
  destruct (r_version_required r && _) eqn:Ev; [done|].
  destruct (Nat.ltb_spec (length (split_on ":" dim)) 2); [done|]. simpl in Hu.
  destruct (r_version_like _ _) eqn:Elike; [done|]. rewrite existsb_false in Ef.
  assert (Hlow : forall stem, In stem (fenced r) -> starts_with stem (to_lowercase dim) = false).
  { intros stem Hs. destruct (String.eqb_spec (to_lowercase dim) dim) as [->|]; [by apply Ef|].
    simpl in El. rewrite existsb_false in El. by apply El. }
  split_and!; try done.
  - intros p Hin ->. by specialize (Hne "" Hin).
  - intros stem Hs. split_and!; [by apply Ef|by apply Hlow|].
    intros Ha. rewrite <- to_lowercase_ascii by done. by apply Hlow.
  - intros Hreq. rewrite Hreq in Ev. simpl in Ev. apply negb_false_iff in Ev.
    destruct (last (split_on ":" dim)) as [v|] eqn:E; [by eauto|].
    apply last_None in E. by apply split_on_nonempty in E.
  - intros s Hs. by rewrite Hs in Elike.
Qed.

Lemma open_vocabulary_sound_witness :
  starts_with "transparency_log:" (ascii_lower "third_party:signal:v1") = false /\
  starts_with "accord:" (ascii_lower "third_party:signal:v1") = false.
Proof.
  assert (Hm : match_family MRules.rules "third_party:signal:v1" = mk_FamilyMatch None ∅ None)
    by (vm_compute; reflexivity).
  destruct (open_vocabulary_sound _ _ _ Hm) as (_ & _ & _ & _ & Hf & _).
  split; apply Hf; vm_compute; auto.
Defined.

(** A family closed in its leaves fences its whole stem: with the rules read
    from a manifest, no open-vocabulary dimension sits under a closed wildcard
    family's prefix, nor under the first segment of a closed parameterized parent. *)
Theorem closed_families_fenced `{Grammar} (root : Value) (r : Rules) (dim : string) (b : Binds)
    (fam : Fam) :
  parse_rules root = Some r -> match_family r dim = mk_FamilyMatch None b None ->
  In fam (r_families r) -> f_leaves_closed fam = true ->
  exists stem, closed_stem fam = Some stem /\ starts_with stem dim = false.
Proof.
  intros Hp Hm Hin Hcl. apply match_family_clean in Hm as (_ & _ & _ & Hu).
  destruct (parse_rules_closed _ _ Hp) as (stems & Hs & Hcs).
  assert (Hf : In fam (List.filter f_leaves_closed (r_families r))) by (by apply filter_In).
  apply list_elem_of_In, list_elem_of_lookup in Hf as [k Hk]. apply mapM_Some in Hs.
  destruct (Forall2_lookup_l _ _ _ _ _ Hs Hk) as (stem & Hst & Hc). exists stem. split; [done|].
  unfold match_unclaimed in Hu. destruct (detect_malformed _ _ _); [done|].
  destruct (existsb _ (fenced _)) eqn:Ef; [done|]. rewrite existsb_false in Ef. apply Ef.
  unfold fenced. rewrite Hcs. apply in_or_app. right. unfold btree_set, sort_strings.
  apply sort_by_In, list_elem_of_In, elem_of_remove_dups, list_elem_of_lookup. eauto.
Qed.

Lemma closed_families_fenced_witness :
  exists fam stem, f_prefix fam = "accord:*" /\ closed_stem fam = Some stem /\
    starts_with stem "third_party:signal:v1" = false.
Proof.
  assert (Hr : parse_rules MSamples.manifest = Some MRules.rules) by (vm_compute; reflexivity).
  assert (Hm : match_family MRules.rules "third_party:signal:v1" = mk_FamilyMatch None ∅ None)
    by (vm_compute; reflexivity).
  destruct (find_family MRules.rules "accord:*") as [fam|] eqn:Ef; [|vm_compute in Ef; discriminate].
  assert (Hcl : f_leaves_closed fam = true)
    by (vm_compute in Ef; injection Ef as <-; reflexivity).
  apply find_some in Ef as [Hin Hp]. apply String.eqb_eq in Hp.
  destruct (closed_families_fenced _ _ _ _ fam Hr Hm Hin Hcl) as (stem & ? & ?).
  exists fam, stem. auto.
Defined.

(** The most specific family wins, the first in manifest order on a tie:
    [resolve]'s running best is the head of the stable sort, by descending score,
    of every reading of the parts, and no reading outscores it. *)
Theorem resolve_most_specific (r : Rules) (parts : list string) :
  resolve r parts = snd <$> head (sort_by by_score (candidates r parts)) /\
  forall hit c, resolve r parts = Some hit -> In c (candidates r parts) ->
    score_gt c.1 (score (res_fam hit)) = false.
Proof.
  assert (Hr : resolve r parts = snd <$> head (sort_by by_score (candidates r parts))).
  { rewrite resolve_candidates. unfold sort_by. by rewrite keep_best_head. }
  split; [done|]. intros hit c Hh Hc. rewrite Hr in Hh.
  pose proof (sort_by_sorted by_score by_score_asym by_score_cotrans (candidates r parts)) as Hs.
  apply sort_by_In with (lt := by_score) in Hc.
  assert (Hsc : forall x, In x (sort_by by_score (candidates r parts)) -> x.1 = score (res_fam x.2)).
  { intros x Hx%sort_by_In. by apply candidates_score in Hx. }
  destruct (sort_by by_score (candidates r parts)) as [|x l]; [done|]. injection Hh as <-.
  rewrite <- Hsc by (by left). inversion Hs as [|? ? _ Hall]; subst. clear Hs. rename Hall into Hs.
  destruct Hc as [<-|Hc].
  - apply not_true_iff_false. rewrite score_gt_spec. lia.
  - rewrite List.Forall_forall in Hs. by apply Hs in Hc.
Qed.

(** Round trip. The family and the bindings of an admitted dimension spell the
    dimension: its literals and bound values in order, the variadic tail, and the
    version last give back the text byte for byte. *)
Theorem admitted_roundtrip `{Grammar} (r : Rules) (dim p : string) (b : Binds) :
  wf_rules r = true -> match_family r dim = mk_FamilyMatch (Some p) b None ->
  exists fam, In fam (r_families r) /\ f_prefix fam = p /\
    dim = join ":" (render (body fam) b ++ option_list (b !! "version")).
Proof.
  intros Hwf Hm. destruct (admitted_inv _ _ _ _ Hwf Hm) as (hit & Hin & Hfam & Hp & HR & Hc).
  exists (res_fam hit). split_and!; [done..|]. apply match_claimed_clean in Hc as (_ & -> & _).
  rewrite <- (reads_render _ _ _ _ _ Hfam HR). symmetry. apply join_split_on.
Qed.

Lemma admitted_roundtrip_witness :
  exists b fam, In fam (r_families MRules.rules) /\ f_prefix fam = "trust:{job}:{version}" /\
    "trust:a:b:v1.2" = join ":" (render (body fam) b ++ option_list (b !! "version")).
Proof.
  assert (Hwf : wf_rules MRules.rules = true) by (vm_compute; reflexivity).
  assert (Hm : match_family MRules.rules "trust:a:b:v1.2"
               = mk_FamilyMatch (Some "trust:{job}:{version}")
                   (binds (match_family MRules.rules "trust:a:b:v1.2")) None)
    by (vm_compute; reflexivity).
  destruct (admitted_roundtrip _ _ _ _ Hwf Hm) as (fam & ? & ? & ?). eauto.
Defined.

(** An admitted dimension of a family that is not exempt ends in a version
    segment, which is what [version] binds; and one of a family closed in its
    leaves fits the segments of a leaf the manifest publishes. *)
Theorem admitted_versioned `{Grammar} (r : Rules) (dim p : string) (b : Binds) :
  wf_rules r = true -> match_family r dim = mk_FamilyMatch (Some p) b None ->
  let parts := split_on ":" dim in
  (r_version_required r = true -> is_version_exempt r p = false ->
   exists v, last parts = Some v /\ is_version_segment r v = true /\ b !! "version" = Some v) /\
  exists fam, In fam (r_families r) /\ f_prefix fam = p /\
    (f_leaves_closed fam = true -> last_class fam = Some CWildcard \/ last_class fam = Some CVocab ->
     exists l lf, In l (f_leaves fam) /\ find_family r l = Some lf /\
       (is_Some (match_segments (f_segments lf) (removelast parts) r) \/
        is_Some (match_segments (f_segments lf) parts r))).
Proof.
  intros Hwf Hm. destruct (admitted_inv _ _ _ _ Hwf Hm) as (hit & Hin & Hfam & Hp & HR & Hc).
  apply match_claimed_clean in Hc as (_ & -> & Hver & Hleaf). cbn zeta. split.
  - intros Hreq Hex. rewrite <- Hp in Hex. specialize (Hver Hreq Hex). rewrite Hver in *.
    apply reads_has_version in HR; [|done]. unfold is_versioned in HR. unfold final_binds.
    destruct (last (split_on ":" dim)) as [v|]; [|done]. exists v. split_and!; [done..|].
    by rewrite lookup_insert_eq.
  - exists (res_fam hit). split_and!; [done..|]. intros Hcl Hlc.
    destruct (Hleaf Hcl Hlc) as (l & lf & ? & ? & Hs). exists l, lf. split_and!; [done..|].
    destruct (_ && _); auto.
Qed.

Lemma admitted_versioned_witness :
  exists b : Binds, b !! "version" = Some "v2" /\
    family (match_family MRules.rules "accord:lifecycle:v2") = Some "accord:lifecycle".
Proof.
  assert (Hwf : wf_rules MRules.rules = true) by (vm_compute; reflexivity).
  assert (Hm : match_family MRules.rules "accord:lifecycle:v2"
               = mk_FamilyMatch (Some "accord:lifecycle")
                   (binds (match_family MRules.rules "accord:lifecycle:v2")) None)
    by (vm_compute; reflexivity).
  destruct (admitted_versioned _ _ _ _ Hwf Hm) as [Hv _].
  destruct (Hv eq_refl eq_refl) as (v & Hl & _ & Hb). vm_compute in Hl. injection Hl as <-.
  rewrite Hm. eexists. split; [exact Hb|reflexivity].
Defined.

(** Closed enumerations hold: in an admitted dimension, each placeholder whose
    row closes its values is bound to one of them. *)
Theorem admitted_values `{Grammar} (r : Rules) (dim p : string) (b : Binds) :
  wf_rules r = true -> match_family r dim = mk_FamilyMatch (Some p) b None ->
  exists fam, In fam (r_families r) /\ f_prefix fam = p /\
    forall s vs, In s (fixed_of (body fam)) -> seg_class s = CVocab -> seg_multi s = false ->
      seg_segment s <> "{version}" -> seg_values s = Some vs -> vs <> [] -> seg_open s = false ->
      exists v, b !! seg_name s = Some v /\ In v vs /\ r_vocab r v = true.
Proof.
  intros Hwf Hm. destruct (admitted_inv _ _ _ _ Hwf Hm) as (hit & Hin & Hfam & Hp & HR & Hc).
  exists (res_fam hit). split_and!; [done..|]. intros s vs Hs Hcls Hmu Hnv Hvs Hne Hop.
  apply match_claimed_clean in Hc as (_ & -> & _).
  assert (Hlit : is_class CLiteral s = false) by (unfold is_class; by rewrite Hcls).
  destruct (reads_checked _ _ _ _ _ s Hfam HR Hs Hlit Hmu) as (v & Hb & Hchk).
  exists v. split; [done|]. by apply (check_closed_vocab s).
Qed.

Lemma admitted_values_witness :
  exists (b : Binds) v, b !! "scope" = Some v /\ In v ["admission"; "routing"].
Proof.
  assert (Hwf : wf_rules MRules.rules = true) by (vm_compute; reflexivity).
  assert (Hm : match_family MRules.rules "config:admission:v1"
               = mk_FamilyMatch (Some "config:{scope}")
                   (binds (match_family MRules.rules "config:admission:v1")) None)
    by (vm_compute; reflexivity).
  destruct (admitted_values _ _ _ _ Hwf Hm) as (fam & Hin & Hp & Hv).
  destruct Hin as [<-|[<-|[<-|[<-|[]]]]]; try discriminate Hp.
  destruct (Hv _ ["admission"; "routing"] (or_intror (or_introl eq_refl)) eq_refl eq_refl
              ltac:(discriminate) eq_refl ltac:(discriminate) eq_refl) as (v & ? & ? & _).
  eauto.
Defined.
