(* ===== verification/Consent.v ===== *)
(** * The consent fold

    [src/src/federation/consent_scope.rs] (scope tokens: grammar, covering, windows, the
    door gate) and [src/src/federation/consent.rs] (stances, causal edges, the fold with
    its ratchet, the bounded read behind it).

    [asserted_at + window] is [chrono]'s unchecked addition: [None] of the functions that
    reach it is its panic past the calendar. *)

From Stdlib Require Import ZArith NArith Lia Ascii.
From stdpp Require Import base list strings gmap.
From S2P Require Import Prelude RustStd Json Precedence.

Open Scope string_scope.
Open Scope list_scope.
Open Scope persist_scope.

(** ** Vocabulary *)

(** [types.rs], [mod cohort_scope]. *)
Module cohort_scopes.
Definition SELF := "self".
Definition FAMILY := "family".
Definition COMMUNITY := "community".
Definition AFFILIATIONS := "affiliations".
Definition SPECIES := "species".
Definition BIOSPHERE := "biosphere".
Definition FEDERATION := "federation".
Definition ALL : list string :=
  [SELF; FAMILY; COMMUNITY; AFFILIATIONS; SPECIES; BIOSPHERE; FEDERATION].
End cohort_scopes.

Definition cohort_is_valid (s : string) : bool := existsb (fun v => v =s s) cohort_scopes.ALL.

Module principle.
Definition RETAIN := "retain".
Definition SHARE := "share".
Definition ANALYZE := "analyze".
End principle.

Module consent_dimension.
Definition STATE_PREFIX := "consent:state:".
Definition STATE_GRANTED_PREFIX := "consent:state:granted".
Definition STATE_REVOKED_PREFIX := "consent:state:revoked".
Definition STATE_EXPIRED_PREFIX := "consent:state:expired".
End consent_dimension.

(** ** Scope tokens *)

Inductive SubScope :=
| Whole
| Cohort (c : string)
| Window (d : Z)
| Family (f : string)
| Segments (segs : list string).

Record ScopeToken := mk_ScopeToken { kind : string; sub : SubScope }.

Inductive ScopeTokenError :=
| Empty
| BadSegment (token segment : string)
| MalformedSub (token kind expected : string)
| CohortNotInVocabulary (token cohort : string).

Definition is_lower (c : ascii) : bool := (97 <=? N_of_ascii c)%N && (N_of_ascii c <=? 122)%N.
Definition is_digit (c : ascii) : bool := (48 <=? N_of_ascii c)%N && (N_of_ascii c <=? 57)%N.

Definition is_kind_char (i : nat) (c : ascii) : bool :=
  if Nat.eqb i 0 then is_lower c else is_lower c || is_digit c || Ascii.eqb c "_".

Definition is_sub_char (c : ascii) : bool :=
  is_lower c || is_digit c || Ascii.eqb c "_" || Ascii.eqb c "-".

(** [s.chars().enumerate().all(p)]; the predicates reject every byte of a character
    outside ASCII. *)
Fixpoint all_from (p : nat -> ascii -> bool) (i : nat) (s : string) : bool :=
  match s with EmptyString => true | String c s' => p i c && all_from p (S i) s' end.

(** [s.split_at(s.len() - 1)]. *)
Fixpoint split_last (s : string) : option (string * ascii) :=
  match s with
  | EmptyString => None
  | String c EmptyString => Some (EmptyString, c)
  | String c s' => match split_last s' with Some (a, u) => Some (String c a, u) | None => None end
  end.

(** [s.parse::<i64>()]. *)
Definition parse_i64 (s : string) : option Z :=
  match strip_prefix "-" s with
  | Some digits =>
      n ← parse_digits digits;
      if (Z.of_N n <=? i64_max + 1)%Z then Some (- Z.of_N n)%Z else None
  | None => Z.of_N <$> parse_uint (Z.to_N i64_max) s
  end.

Definition cohort_rank (s : string) : nat :=
  match list_find (fun v => v = s) cohort_scopes.ALL with Some (i, _) => i | None => 0%nat end.

(** [q.starts_with(g)] on slices. *)
Fixpoint list_starts_with (g q : list string) : bool :=
  match g, q with
  | [], _ => true
  | x :: g', y :: q' => (x =s y) && list_starts_with g' q'
  | _ :: _, [] => false
  end.

Definition covers (grant query : ScopeToken) : bool :=
  if kind grant <>s kind query then false
  else
    match sub grant, sub query with
    | Whole, _ => true
    | Window _, _ => true
    | Cohort g, Cohort q => Nat.leb (cohort_rank q) (cohort_rank g)
    | Cohort g, Whole => g =s cohort_scopes.FEDERATION
    | Family g, Family q => g =s q
    | Family _, Whole => false
    | Segments g, Segments q => list_starts_with g q
    | Segments _, Whole => false
    | _, _ => false
    end.

Section Tokens.
Context `{Chrono}.

Definition parse_window (s : string) : option Z :=
  '(digits, unit) ← split_last s;
  n ← parse_i64 digits;
  if negb (0 <? n)%Z then None
  else if Ascii.eqb unit "d" then try_days n
  else if Ascii.eqb unit "h" then try_hours n
  else None.

Definition RETAIN_FORM := "`<n>d` or `<n>h` (a positive retention window)".
Definition SHARE_FORM := "`cohort:<cohort_scope>` (an audience narrowing)".
Definition ANALYZE_FORM := "`<family>` (one dimension family, e.g. `capacity`)".

(** The sub-scope, interpreted for its kind. *)
Definition parse_sub (token k : string) (subs : list string) : ScopeTokenError + SubScope :=
  match subs with
  | [] => inr Whole
  | _ =>
      if k =s principle.SHARE then
        match subs with
        | [head; cohort] =>
            if head =s "cohort" then
              if negb (cohort_is_valid cohort) then inl (CohortNotInVocabulary token cohort)
              else inr (Cohort cohort)
            else inl (MalformedSub token k SHARE_FORM)
        | _ => inl (MalformedSub token k SHARE_FORM)
        end
      else if k =s principle.RETAIN then
        match subs with
        | [window] => match parse_window window with
                      | Some d => inr (Window d)
                      | None => inl (MalformedSub token k RETAIN_FORM)
                      end
        | _ => inl (MalformedSub token k RETAIN_FORM)
        end
      else if k =s principle.ANALYZE then
        match subs with
        | [f] => inr (Family f)
        | _ => inl (MalformedSub token k ANALYZE_FORM)
        end
      else inr (Segments subs)
  end.

Definition parse_scope_token (token : string) : ScopeTokenError + ScopeToken :=
  if token =s "" then inl Empty
  else
    let segments := split_on ":" token in
    let k := default "" (head segments) in
    if (k =s "") || negb (all_from is_kind_char 0 k) then inl (BadSegment token k)
    else
      let subs := tail segments in
      match List.find (fun s => (s =s "") || negb (all_from (fun _ => is_sub_char) 0 s)) subs with
      | Some s => inl (BadSegment token s)
      | None =>
          match parse_sub token k subs with
          | inl e => inl e
          | inr sb => inr (mk_ScopeToken k sb)
          end
      end.

(** [.ok()]. *)
Definition ok {E A} (r : E + A) : option A := match r with inl _ => None | inr a => Some a end.

(** [None] of the outer option is the panic of [asserted_at + w]. *)
Definition retain_until (grant : ScopeToken) (at_ : instant) : option (option instant) :=
  match sub grant with
  | Window w => if kind grant =s principle.RETAIN then Some <$> checked_add_signed at_ w
                else Some None
  | _ => Some None
  end.

Definition scope_member_tokens (env : Value) : list string :=
  match get env "scope" with
  | Some (Str s) => if s =s "" then [] else [s]
  | Some (Array items) => List.filter (fun s => s <>s "") (omap as_str items)
  | _ => []
  end.

(** The door gate: [None] is [Ok(())], [Some e] names the token that does not parse. *)
Definition check_consent_scope_tokens (env : Value) : option (string * ScopeTokenError) :=
  let is_consent_state := match envelope_dimension env with
                          | Some d => starts_with consent_dimension.STATE_PREFIX d
                          | None => false
                          end in
  if negb is_consent_state then None
  else
    (fix go (l : list string) : option (string * ScopeTokenError) :=
       match l with
       | [] => None
       | t :: l' => match parse_scope_token t with inl e => Some (t, e) | inr _ => go l' end
       end) (scope_member_tokens env).

(** ** Stances and edges *)

Inductive ConsentState := Granted | Revoked | Expired | Unspecified.

#[export] Instance ConsentState_eq_dec : EqDecision ConsentState.
Proof. solve_decision. Defined.

Definition row_dimension (a : Attestation) : option string :=
  get_str (attestation_envelope a) "dimension".

(** [envelope_dimension(a).is_some_and(|d| d.starts_with(p))]. *)
Definition dimension_under (p : string) (a : Attestation) : bool :=
  match row_dimension a with Some d => starts_with p d | None => false end.

Definition consent_state_of (dimension : option string) : ConsentState :=
  match dimension with
  | Some d =>
      if starts_with consent_dimension.STATE_GRANTED_PREFIX d then Granted
      else if starts_with consent_dimension.STATE_REVOKED_PREFIX d then Revoked
      else if starts_with consent_dimension.STATE_EXPIRED_PREFIX d then Expired
      else Unspecified
  | None => Unspecified
  end.

Definition restriction_rank (s : ConsentState) : N :=
  match s with Granted => 0 | Unspecified => 1 | Expired => 2 | Revoked => 3 end.

Definition row_rank (a : Attestation) : N := restriction_rank (consent_state_of (row_dimension a)).

(** [fold_ordering_key(a) < fold_ordering_key(b)], on [(instant, rank, id)]. *)
Definition fold_ordering_lt (a b : Attestation) : bool :=
  if negb (Z.eqb (asserted_at a) (asserted_at b)) then Z.ltb (asserted_at a) (asserted_at b)
  else if negb (N.eqb (row_rank a) (row_rank b)) then N.ltb (row_rank a) (row_rank b)
  else attestation_id a <s attestation_id b.

Inductive ConsentCausalEdge := EdgeAbsent | Names (target : string) | Unusable.

Definition causal_edge (a : Attestation) : ConsentCausalEdge :=
  match row_dimension a with
  | None => EdgeAbsent
  | Some d =>
      if negb (starts_with consent_dimension.STATE_PREFIX d) then EdgeAbsent
      else if bool_decide (consent_state_of (Some d) = Granted) then EdgeAbsent
      else
        match get (attestation_envelope a) "consent_supersedes" with
        | None | Some Null => EdgeAbsent
        | Some member =>
            match as_str member with
            | Some target =>
                if (target <>s "") && (target <>s attestation_id a) then Names target else Unusable
            | None => Unusable
            end
        end
  end.

Definition causal_rank (a : Attestation) (known : gset string) : N :=
  match causal_edge a with
  | EdgeAbsent => 0
  | Names target => if bool_decide (target ∈ known) then 0 else 1
  | Unusable => 1
  end.

(** [causal_fold_ordering_key(a) < causal_fold_ordering_key(b)]. *)
Definition causal_fold_ordering_lt (known : gset string) (a b : Attestation) : bool :=
  if negb (N.eqb (causal_rank a known) (causal_rank b known))
  then N.ltb (causal_rank a known) (causal_rank b known)
  else fold_ordering_lt a b.

(** ** Scopes of a row *)

Definition named_scopes (a : Attestation) : list string :=
  match get (attestation_envelope a) "scope" with
  | Some (Str s) => if s <>s "" then [s] else []
  | Some (Array items) => List.filter (fun s => s <>s "") (omap as_str items)
  | _ => []
  end.

Definition envelope_names_scope (a : Attestation) (scope : string) : bool :=
  existsb (fun s => s =s scope) (named_scopes a).

Definition covering_token (a : Attestation) (scope : string) (qualifier : option string)
    : option ScopeToken :=
  match named_scopes a with
  | [] =>
      if dimension_under consent_dimension.STATE_GRANTED_PREFIX a then None
      else Some (mk_ScopeToken scope Whole)
  | named =>
      query ← ok (parse_scope_token scope);
      token ← List.find (fun g => covers g query)
                (omap (fun s => ok (parse_scope_token s)) named);
      match qualifier with
      | Some q => if bool_decide (get_str (attestation_envelope a) "content_class" = Some q)
                  then Some token else None
      | None => Some token
      end
  end.

Definition matches_scoped_query (a : Attestation) (scope : string) (qualifier : option string)
    : bool :=
  bool_decide (is_Some (covering_token a scope qualifier)).

(** The earliest of the instants, each of which may be the panic. *)
Definition min_opt (a b : option instant) : option instant :=
  match a, b with
  | Some x, Some y => Some (Z.min x y)
  | Some x, None => Some x
  | None, y => y
  end.

Definition grant_lapse_instant (a : Attestation) : option (option instant) :=
  ends ← mapM (fun t => retain_until t (asserted_at a))
           (omap (fun s => ok (parse_scope_token s)) (named_scopes a));
  Some (min_opt (expires_at a) (fold_left min_opt ends None)).

Definition lapsed_grant (a : Attestation) (subject grant_id : string) (g : Attestation)
    : option bool :=
  if (attestation_id g =s grant_id) && (attesting_key_id g =s subject)
     && dimension_under consent_dimension.STATE_GRANTED_PREFIX g
  then lapse ← grant_lapse_instant g;
       Some (match lapse with Some l => Z.leb l (asserted_at a) | None => false end)
  else Some false.

Definition substrate_expiry_bound_to_subject (a : Attestation) (rows : list Attestation)
    (subject : string) : option bool :=
  if negb (dimension_under consent_dimension.STATE_EXPIRED_PREFIX a) then Some false
  else match causal_edge a with
       | Names grant_id => anyM (lapsed_grant a subject grant_id) rows
       | _ => Some false
       end.

(** ** The fold *)

Definition universe (rows : list Attestation) (subject : string) : option (list Attestation) :=
  filterM (fun a =>
             if attesting_key_id a =s subject then Some true
             else substrate_expiry_bound_to_subject a rows subject)
    (List.filter (dimension_under consent_dimension.STATE_PREFIX) rows).

Definition live_at (now : instant) (a : Attestation) : bool :=
  match expires_at a with None => true | Some e => Z.ltb now e end.

Definition candidates_of (u : list Attestation) (now : instant)
    (scoped : option (string * option string)) : list Attestation :=
  List.filter (fun a => match scoped with
                        | Some (scope, qualifier) => matches_scoped_query a scope qualifier
                        | None => true
                        end)
    (List.filter (live_at now) u).

Definition ids_of (l : list Attestation) : gset string := list_to_set (map attestation_id l).

(** Retired, or named by a candidate's edge. *)
Definition eliminated (retired : gset string) (candidates : list Attestation) : gset string :=
  fold_left (fun acc a => match causal_edge a with Names t => {[t]} ∪ acc | _ => acc end)
    candidates retired.

Definition stance (w : option Attestation) : ConsentState :=
  consent_state_of (w ≫= row_dimension).

Definition clock_winner (candidates : list Attestation) : option Attestation :=
  max_by fold_ordering_lt candidates.

Definition causal_winner (known retired : gset string) (candidates : list Attestation)
    : option Attestation :=
  max_by (causal_fold_ordering_lt known)
    (List.filter (fun a => negb (bool_decide (attestation_id a ∈ eliminated retired candidates)))
       candidates).

(** Stages 2 to 4, from the universe and the retired ids. *)
Definition fold_from (u : list Attestation) (retired : gset string) (now : instant)
    (scoped : option (string * option string)) : ConsentState * option Attestation :=
  let candidates := candidates_of u now scoped in
  let cw := clock_winner candidates in
  let kw := causal_winner (ids_of u) retired candidates in
  if N.ltb (restriction_rank (stance cw)) (restriction_rank (stance kw))
  then (stance kw, kw) else (stance cw, cw).

Section WithRows.
Context (rt : RowTypes).

Definition fold_winner (rows : list Attestation) (subject : string) (now : instant)
    (scoped : option (string * option string)) : option (ConsentState * option Attestation) :=
  u ← universe rows subject;
  Some (fold_from u (retired_ids rt rows) now scoped).

Record ScopedStance := mk_ScopedStance { ss_state : ConsentState; ss_retain_until : option instant }.

Definition fold_scoped_stance_refs_with_winner (rows : list Attestation) (subject : string)
    (now : instant) (scope : string) (qualifier : option string)
    : option (ScopedStance * option Attestation) :=
  '(state, winner) ← fold_winner rows subject now (Some (scope, qualifier));
  until ← match winner with
          | Some w => match covering_token w scope qualifier with
                      | Some t => retain_until t (asserted_at w)
                      | None => Some None
                      end
          | None => Some None
          end;
  let state := match until with
               | Some e => if bool_decide (state = Granted) && Z.leb e now then Expired else state
               | None => state
               end in
  Some (mk_ScopedStance state until, winner).

Definition fold_scoped_stance_refs (rows : list Attestation) (subject : string) (now : instant)
    (scope : string) (qualifier : option string) : option ScopedStance :=
  fst <$> fold_scoped_stance_refs_with_winner rows subject now scope qualifier.

Definition fold_stance_refs (rows : list Attestation) (subject : string) (now : instant)
    (scoped : option (string * option string)) : option ConsentState :=
  match scoped with
  | Some (scope, qualifier) => ss_state <$> fold_scoped_stance_refs rows subject now scope qualifier
  | None => fst <$> fold_winner rows subject now None
  end.
End WithRows.
End Tokens.

(** ** The bounded read behind the fold

    What the directory's paged reads promise about the federation-tier rows held about
    each target: [None] is a failed read. *)
Class ConsentReads (about : string -> list Attestation) := {
  (** [AttestationQuery::to(target).authored_by(p).dimension_prefix(prefix)], all pages. *)
  read_authored : string -> string -> string -> option (list Attestation);
  (** [AttestationQuery::to(target).dimension_prefix(prefix)], all pages. *)
  read_prefix : string -> string -> option (list Attestation);
  (** [list_composers_referencing_any(ids, Some(target), None)]. *)
  list_composers_referencing_any : list string -> string -> option (list Attestation);
  read_authored_spec : forall target p prefix l, read_authored target p prefix = Some l ->
    forall a, In a l <-> In a (about target) /\ attesting_key_id a = p /\
                         dimension_under prefix a = true;
  read_prefix_spec : forall target prefix l, read_prefix target prefix = Some l ->
    forall a, In a l <-> In a (about target) /\ dimension_under prefix a = true;
  composers_spec : forall ids target l, list_composers_referencing_any ids target = Some l ->
    forall a, In a l <-> In a (about target) /\ is_structural_composer (attestation_type a) = true /\
      exists id, In id ids /\
        references_attestation_id_from_envelope (attestation_envelope a) = Some id;
}.

(** [if seen.insert(id) { rows.push(a) }]. *)
Definition push_unseen (rows : list Attestation) (a : Attestation) : list Attestation :=
  if existsb (fun r => attestation_id r =s attestation_id a) rows then rows else rows ++ [a].

Definition push_all (rows l : list Attestation) : list Attestation := fold_left push_unseen l rows.

Section ScopedRows.
Context {about : string -> list Attestation} `{ConsentReads about}.

Fixpoint read_principals (target : string) (principals : list string) (rows : list Attestation)
    : option (list Attestation) :=
  match principals with
  | [] => Some rows
  | p :: ps =>
      l ← read_authored target p consent_dimension.STATE_PREFIX;
      read_principals target ps (push_all rows l)
  end.

Definition scoped_fold_rows (target : string) (principals : list string)
    : option (list Attestation) :=
  rows ← read_principals target principals [];
  expired ← read_prefix target consent_dimension.STATE_EXPIRED_PREFIX;
  let rows := push_all rows expired in
  composers ← list_composers_referencing_any (map attestation_id rows) target;
  Some (sort_by (fun a b => Z.ltb (asserted_at b) (asserted_at a)) (push_all rows composers)).
End ScopedRows.


(** ** The fold's orders *)

Lemma fold_ordering_spec a b :
  fold_ordering_lt a b = true <->
  (asserted_at a < asserted_at b)%Z \/
  (asserted_at a = asserted_at b /\ (row_rank a < row_rank b)%N) \/
  (asserted_at a = asserted_at b /\ row_rank a = row_rank b /\
   (attestation_id a <s attestation_id b) = true).
Proof.
  unfold fold_ordering_lt. destruct (Z.eqb_spec (asserted_at a) (asserted_at b)); simpl;
    [|rewrite Z.ltb_lt; intuition lia].
  destruct (N.eqb_spec (row_rank a) (row_rank b)); simpl; rewrite ?N.ltb_lt; intuition lia.
Qed.

Lemma fold_ordering_asym a b : fold_ordering_lt a b = true -> fold_ordering_lt b a = false.
Proof.
  intros Hab. apply not_true_iff_false. intros Hba. revert Hab Hba. rewrite !fold_ordering_spec.
  intros [?|[[??]|(?&?&Hs)]] [?|[[??]|(?&?&Hs')]]; try lia.
  apply string_ltb_asym in Hs. congruence.
Qed.

Lemma fold_ordering_cotrans a b c :
  fold_ordering_lt a c = true -> fold_ordering_lt a b = true \/ fold_ordering_lt b c = true.
Proof.
  rewrite !fold_ordering_spec.
  destruct (Z.lt_trichotomy (asserted_at a) (asserted_at b)) as [?|[Et|?]]; [auto| |intros; right; lia].
  destruct (N.lt_trichotomy (row_rank a) (row_rank b)) as [?|[Er|?]]; [auto| |intros; right; lia].
  intros [?|[[??]|(?&?&Hs)]]; [right; lia..|].
  destruct (string_ltb_cotrans _ (attestation_id b) _ Hs); [left|right]; right; right; auto with lia.
Qed.

Lemma fold_ordering_connected a b :
  fold_ordering_lt a b = false -> fold_ordering_lt b a = false -> attestation_id a = attestation_id b.
Proof.
  unfold fold_ordering_lt. rewrite (Z.eqb_sym (asserted_at b)), (N.eqb_sym (row_rank b)).
  destruct (Z.eqb_spec (asserted_at a) (asserted_at b)); simpl; [|rewrite !Z.ltb_ge; lia].
  destruct (N.eqb_spec (row_rank a) (row_rank b)); simpl; [|rewrite !N.ltb_ge; lia].
  apply string_ltb_total.
Qed.

Section Causal.
Context (known : gset string).

Lemma causal_ordering_spec a b :
  causal_fold_ordering_lt known a b = true <->
  (causal_rank a known < causal_rank b known)%N \/
  (causal_rank a known = causal_rank b known /\ fold_ordering_lt a b = true).
Proof.
  unfold causal_fold_ordering_lt.
  destruct (N.eqb_spec (causal_rank a known) (causal_rank b known)); simpl; rewrite ?N.ltb_lt;
    intuition lia.
Qed.

Lemma causal_ordering_asym a b :
  causal_fold_ordering_lt known a b = true -> causal_fold_ordering_lt known b a = false.
Proof.
  intros Hab. apply not_true_iff_false. intros Hba. revert Hab Hba. rewrite !causal_ordering_spec.
  intros [?|[? Hs]] [?|[? Hs']]; try lia. apply fold_ordering_asym in Hs. congruence.
Qed.

Lemma causal_ordering_cotrans a b c :
  causal_fold_ordering_lt known a c = true ->
  causal_fold_ordering_lt known a b = true \/ causal_fold_ordering_lt known b c = true.
Proof.
  rewrite !causal_ordering_spec.
  destruct (N.lt_trichotomy (causal_rank a known) (causal_rank b known)) as [?|[Er|?]];
    [auto| |intros; right; lia].
  intros [?|[? Hs]]; [right; lia|].
  destruct (fold_ordering_cotrans _ b _ Hs); [left|right]; right; auto with lia.
Qed.

Lemma causal_ordering_connected a b :
  causal_fold_ordering_lt known a b = false -> causal_fold_ordering_lt known b a = false ->
  attestation_id a = attestation_id b.
Proof.
  unfold causal_fold_ordering_lt. rewrite (N.eqb_sym (causal_rank b known)).
  destruct (N.eqb_spec (causal_rank a known) (causal_rank b known)); simpl; [|rewrite !N.ltb_ge; lia].
  apply fold_ordering_connected.
Qed.
End Causal.

Lemma elem_of_eliminated retired l t :
  t ∈ eliminated retired l <-> t ∈ retired \/ exists a, In a l /\ causal_edge a = Names t.
Proof.
  unfold eliminated. revert retired. induction l as [|a l IH]; intros retired; simpl.
  { split; [auto|]. intros [?|(? & [] & _)]. done. }
  rewrite IH. clear IH. destruct (causal_edge a) as [|t'|] eqn:E;
    rewrite ?elem_of_union, ?elem_of_singleton; split.
  1, 5: intros [?|(b & ? & ?)]; eauto.
  1, 4: intros [?|(b & [<-|?] & ?)]; [by left|congruence|eauto].
  - intros [[->|?]|(b & ? & ?)]; eauto.
  - intros [?|(b & [<-|?] & ?)]; [by left; right|left; left; congruence|eauto].
Qed.

(** ** The fold depends on the universe and on which of its rows are retired *)

Section Agree.
Context `{Chrono}.

Lemma candidates_In u now scoped a :
  In a (candidates_of u now scoped) <->
  In a u /\ live_at now a = true /\
  match scoped with Some (s, q) => matches_scoped_query a s q = true | None => True end.
Proof. unfold candidates_of. rewrite !filter_In. destruct scoped as [[s q]|]; naive_solver. Qed.

Lemma fold_from_agree u u' ret ret' now scoped :
  (forall a b, In a u -> In b u -> attestation_id a = attestation_id b -> a = b) ->
  (forall a, In a u <-> In a u') ->
  (forall a, In a u -> attestation_id a ∈ ret <-> attestation_id a ∈ ret') ->
  fold_from u ret now scoped = fold_from u' ret' now scoped.
Proof.
  intros Hid Hu Hret.
  assert (Hc : forall a, In a (candidates_of u now scoped) <-> In a (candidates_of u' now scoped)).
  { intros a. rewrite !candidates_In, Hu. done. }
  assert (Hk : ids_of u = ids_of u').
  { apply set_eq. intros t. unfold ids_of. rewrite !elem_of_list_to_set, !list_elem_of_In, !in_map_iff.
    split; intros (x & ? & Hx); apply Hu in Hx; eauto. }
  assert (Hcw : clock_winner (candidates_of u now scoped) = clock_winner (candidates_of u' now scoped)).
  { apply max_by_ext; eauto using fold_ordering_asym, fold_ordering_cotrans.
    intros x y Hx Hy ? ?. apply candidates_In in Hx as [Hx _], Hy as [Hy _].
    eauto using fold_ordering_connected. }
  assert (He : forall a, In a (candidates_of u now scoped) ->
            attestation_id a ∈ eliminated ret (candidates_of u now scoped) <->
            attestation_id a ∈ eliminated ret' (candidates_of u' now scoped)).
  { intros a Ha. rewrite !elem_of_eliminated. apply candidates_In in Ha as [Ha _]. rewrite (Hret a Ha).
    split; (intros [?|(b & Hb & ?)]; [auto|]); right; exists b; (split; [by apply Hc|done]). }
  assert (Hkw : causal_winner (ids_of u) ret (candidates_of u now scoped)
                = causal_winner (ids_of u') ret' (candidates_of u' now scoped)).
  { rewrite <- Hk. unfold causal_winner.
    apply max_by_ext; eauto using causal_ordering_asym, causal_ordering_cotrans.
    - intros a. rewrite !filter_In, !negb_true_iff, !bool_decide_eq_false.
      split; intros [Ha Hn].
      + split; [by apply Hc|]. by rewrite <- He.
      + apply Hc in Ha. split; [done|]. by rewrite He.
    - intros x y Hx Hy ? ?. apply filter_In in Hx as [Hx _], Hy as [Hy _].
      apply candidates_In in Hx as [Hx _], Hy as [Hy _]. eauto using causal_ordering_connected. }
  unfold fold_from. by rewrite Hcw, Hkw.
Qed.

(** The test that admits a row into the universe. *)
Definition admitted_row (rows : list Attestation) (subject : string) (a : Attestation) : option bool :=
  if attesting_key_id a =s subject then Some true
  else substrate_expiry_bound_to_subject a rows subject.

Lemma universe_In rows subject u a :
  universe rows subject = Some u ->
  In a u <-> In a rows /\ dimension_under consent_dimension.STATE_PREFIX a = true /\
             admitted_row rows subject a = Some true.
Proof.
  unfold universe. fold (admitted_row rows subject). intros Hf.
  apply filterM_some in Hf as [-> _]. rewrite !filter_In, bool_decide_eq_true. tauto.
Qed.
End Agree.

(** ** Two row sets the fold cannot tell apart *)

Lemma starts_with_app p q d : starts_with (p +:+ q) d = true -> starts_with p d = true.
Proof.
  rewrite !starts_with_iff. intros [r ->]. exists (q +:+ r). by rewrite string_app_assoc.
Qed.

Lemma under_app p q a : dimension_under (p +:+ q) a = true -> dimension_under p a = true.
Proof. unfold dimension_under. destruct (row_dimension a); [apply starts_with_app|done]. Qed.

Lemma granted_is_state a :
  dimension_under consent_dimension.STATE_GRANTED_PREFIX a = true ->
  dimension_under consent_dimension.STATE_PREFIX a = true.
Proof. exact (under_app consent_dimension.STATE_PREFIX "granted" a). Qed.

Lemma expired_is_state a :
  dimension_under consent_dimension.STATE_EXPIRED_PREFIX a = true ->
  dimension_under consent_dimension.STATE_PREFIX a = true.
Proof. exact (under_app consent_dimension.STATE_PREFIX "expired" a). Qed.

(** The rows the fold reads by content: the subject's statements and the expiry records. *)
Definition fold_reads (subject : string) (a : Attestation) : Prop :=
  dimension_under consent_dimension.STATE_PREFIX a = true /\
  (attesting_key_id a = subject \/ dimension_under consent_dimension.STATE_EXPIRED_PREFIX a = true).

Section SameFold.
Context `{Chrono} (rt : RowTypes) (rows rows' : list Attestation) (subject : string).
Hypothesis Hnd : NoDup (map attestation_id rows).
Hypothesis Hreads : forall a, fold_reads subject a -> In a rows <-> In a rows'.

Lemma lapsed_grant_reads a id g : lapsed_grant a subject id g <> Some false -> attestation_id g = id /\ fold_reads subject g.
Proof.
  unfold lapsed_grant. destruct (_ && _) eqn:E; [|done]. intros _.
  rewrite !andb_true_iff, !String.eqb_eq in E. destruct E as [[? ?] Hg].
  split; [done|]. split; [by apply granted_is_state|by left].
Qed.

Lemma expiry_bound_same a :
  substrate_expiry_bound_to_subject a rows subject = substrate_expiry_bound_to_subject a rows' subject.
Proof.
  unfold substrate_expiry_bound_to_subject. destruct (negb _); [done|].
  destruct (causal_edge a) as [|id|]; try done. apply anyM_ext.
  - intros x Hx. apply lapsed_grant_reads in Hx as [_ Hx]. by apply Hreads.
  - intros x y Hx Hy Hfx Hfy. apply lapsed_grant_reads in Hfx as [Ex _], Hfy as [Ey _].
    apply (ids_inj rows); congruence.
Qed.

Lemma admitted_row_same a : admitted_row rows subject a = admitted_row rows' subject a.
Proof. unfold admitted_row. by rewrite expiry_bound_same. Qed.

(** Only rows the fold reads are admitted, or make the test panic. *)
Lemma admitted_reads l a :
  dimension_under consent_dimension.STATE_PREFIX a = true ->
  admitted_row l subject a <> Some false -> fold_reads subject a.
Proof.
  intros Hs. unfold admitted_row, substrate_expiry_bound_to_subject, fold_reads.
  destruct (String.eqb_spec (attesting_key_id a) subject); [by auto|].
  destruct (dimension_under consent_dimension.STATE_EXPIRED_PREFIX a); [by auto|done].
Qed.

Lemma universe_none_same : universe rows subject = None <-> universe rows' subject = None.
Proof.
  assert (Hdir : forall l l', (forall a, fold_reads subject a -> In a l -> In a l') ->
            (forall a, admitted_row l subject a = admitted_row l' subject a) ->
            universe l subject = None -> universe l' subject = None).
  { intros l l' Hin Hadm Hn. unfold universe in *.
    fold (admitted_row l subject) in Hn. fold (admitted_row l' subject).
    apply filterM_none in Hn as (a & Ha & Hf). apply filter_In in Ha as [Ha Hs].
    destruct (filterM _ _) eqn:E; [|done]. apply filterM_some in E as [_ E].
    exfalso. apply (E a); [|by rewrite <- Hadm].
    apply filter_In. split; [|done]. apply Hin; [|done]. apply (admitted_reads l); [done|].
    by rewrite Hf. }
  split; apply Hdir; auto using admitted_row_same; intros a Ha; by apply Hreads.
Qed.

Lemma fold_winner_same now scoped :
  (forall a, fold_reads subject a -> In a rows ->
     attestation_id a ∈ retired_ids rt rows <-> attestation_id a ∈ retired_ids rt rows') ->
  fold_winner rt rows subject now scoped = fold_winner rt rows' subject now scoped.
Proof.
  intros Hret. unfold fold_winner. pose proof universe_none_same as Hn.
  destruct (universe rows subject) as [u|] eqn:Eu, (universe rows' subject) as [u'|] eqn:Eu';
    [|destruct Hn; naive_solver..|done]. simpl. f_equal.
  assert (Hin : forall a, In a u -> In a rows /\ fold_reads subject a).
  { intros a Ha. apply (universe_In _ _ _ a Eu) in Ha as (Ha & Hs & Hadm). split; [done|].
    apply (admitted_reads rows); [done|]. by rewrite Hadm. }
  apply fold_from_agree.
  - intros a b Ha Hb. apply (ids_inj rows); [done|by apply Hin..].
  - intros a. rewrite (universe_In _ _ _ a Eu), (universe_In _ _ _ a Eu'), admitted_row_same.
    split; intros (Ha & Hs & Hadm); split_and!; try done;
      (apply Hreads; [|done]); eapply admitted_reads; try done; by rewrite Hadm.
  - intros a Ha. apply Hin in Ha as [Ha Hr]. by apply Hret.
Qed.
End SameFold.

(** A row in both slices is retired in both when they hold the same composers naming it. *)
Lemma retired_same rt rows rows' a :
  NoDup (map attestation_id rows) -> NoDup (map attestation_id rows') -> In a rows -> In a rows' ->
  (forall r, is_structural_composer (attestation_type r) = true ->
     references_attestation_id_from_envelope (attestation_envelope r) = Some (attestation_id a) ->
     In r rows <-> In r rows') ->
  attestation_id a ∈ retired_ids rt rows <-> attestation_id a ∈ retired_ids rt rows'.
Proof.
  intros Hnd Hnd' Ha Ha' Hr. rewrite !retired_spec. unfold Retired.
  setoid_rewrite (by_id_NoDup rows a Hnd Ha). setoid_rewrite (by_id_NoDup rows' a Hnd' Ha').
  split; intros (r & tg & Hin & Hret & Href & ?); exists r, tg; (split; [|done]);
    apply Hr; eauto using retraction_is_composer.
Qed.

(** ** The bounded read *)

Lemma push_unseen_NoDup rows a :
  NoDup (map attestation_id rows) -> NoDup (map attestation_id (push_unseen rows a)).
Proof.
  intros Hnd. unfold push_unseen. destruct (existsb _ rows) eqn:E; [done|].
  rewrite map_app. simpl. apply NoDup_app. split_and!; [done| |apply NoDup_singleton].
  intros k Hk Hk'. apply list_elem_of_singleton in Hk'. subst k.
  apply list_elem_of_In, in_map_iff in Hk as (r & Er & Hr). rewrite existsb_false in E.
  specialize (E r Hr). by rewrite Er, String.eqb_refl in E.
Qed.

Lemma push_all_NoDup rows l :
  NoDup (map attestation_id rows) -> NoDup (map attestation_id (push_all rows l)).
Proof.
  unfold push_all. revert rows. induction l as [|a l IH]; intros rows Hnd; simpl; [done|].
  by apply IH, push_unseen_NoDup.
Qed.

Section Push.
Context (held : list Attestation) (Hheld : NoDup (map attestation_id held)).

Lemma push_all_In rows l a :
  incl rows held -> incl l held -> In a (push_all rows l) <-> In a rows \/ In a l.
Proof.
  unfold push_all. revert rows. induction l as [|x l IH]; intros rows Hr Hl; simpl; [tauto|].
  assert (Hx : In x held) by (apply Hl; by left).
  assert (Hp : incl (push_unseen rows x) held /\ (In a (push_unseen rows x) <-> In a rows \/ x = a)).
  { unfold push_unseen. destruct (existsb _ rows) eqn:E.
    - apply existsb_exists in E as (r & Hin & E%String.eqb_eq).
      rewrite (ids_inj held r x) in Hin by auto. split; [done|]. naive_solver.
    - split; [apply incl_app; [done|intros y [<-|[]]; done]|].
      rewrite in_app_iff. simpl. tauto. }
  destruct Hp as [Hp Ha]. rewrite IH, Ha; [tauto|done|]. intros y Hy. apply Hl. by right.
Qed.
End Push.

Section Bounded.
Context {about : string -> list Attestation} `{ConsentReads about} (target : string).
Context (Hheld : NoDup (map attestation_id (about target))).

Lemma read_principals_spec ps rows out :
  read_principals target ps rows = Some out ->
  incl rows (about target) -> NoDup (map attestation_id rows) ->
  NoDup (map attestation_id out) /\
  forall a, In a out <-> In a rows \/ (In a (about target) /\ In (attesting_key_id a) ps /\
                           dimension_under consent_dimension.STATE_PREFIX a = true).
Proof.
  revert rows. induction ps as [|p ps IH]; intros rows Hr Hin Hnd; simpl in Hr.
  { injection Hr as <-. split; [done|]. simpl. tauto. }
  bind_inv Hr. pose proof (read_authored_spec _ _ _ _ E) as Hx.
  assert (Hix : incl x (about target)) by (intros a Ha; apply Hx in Ha; tauto).
  pose proof (fun a => push_all_In _ Hheld rows x a Hin Hix) as Hp.
  destruct (IH _ Hr) as [Hnd' Ho]; [|by apply push_all_NoDup|].
  { intros a Ha. apply Hp in Ha as [Ha|Ha]; auto. }
  split; [done|]. intros a. rewrite Ho, Hp, Hx. simpl. naive_solver.
Qed.

(** Exactly the rows it reads: the principals' statements, the expiry records, and the
    composers naming one of those. *)
Lemma scoped_fold_rows_spec ps rows :
  scoped_fold_rows target ps = Some rows ->
  let stated a := In a (about target) /\
    ((In (attesting_key_id a) ps /\ dimension_under consent_dimension.STATE_PREFIX a = true) \/
     dimension_under consent_dimension.STATE_EXPIRED_PREFIX a = true) in
  NoDup (map attestation_id rows) /\
  forall a, In a rows <-> stated a \/
    (In a (about target) /\ is_structural_composer (attestation_type a) = true /\
     exists r, stated r /\
       references_attestation_id_from_envelope (attestation_envelope a) = Some (attestation_id r)).
Proof.
  unfold scoped_fold_rows. intros Hs. cbn zeta. bind_inv Hs. bind_inv Hs. bind_inv Hs.
  injection Hs as <-. rename x into r1, x0 into r2, x1 into r3.
  destruct (read_principals_spec _ _ _ E) as [Hnd1 H1]; [by intros ? []|constructor|].
  pose proof (read_prefix_spec _ _ _ E0) as H2. pose proof (composers_spec _ _ _ E1) as H3.
  assert (Hi1 : incl r1 (about target)) by (intros a Ha; apply H1 in Ha; simpl in Ha; tauto).
  assert (Hi2 : incl r2 (about target)) by (intros a Ha; apply H2 in Ha; tauto).
  pose proof (fun a => push_all_In _ Hheld r1 r2 a Hi1 Hi2) as H12.
  assert (Hi12 : incl (push_all r1 r2) (about target))
    by (intros a Ha; apply H12 in Ha as [Ha|Ha]; auto).
  assert (Hi3 : incl r3 (about target)) by (intros a Ha; apply H3 in Ha; tauto).
  pose proof (fun a => push_all_In _ Hheld (push_all r1 r2) r3 a Hi12 Hi3) as H123.
  assert (Hst : forall a, In a (push_all r1 r2) <-> In a (about target) /\
    ((In (attesting_key_id a) ps /\ dimension_under consent_dimension.STATE_PREFIX a = true) \/
     dimension_under consent_dimension.STATE_EXPIRED_PREFIX a = true)).
  { intros a. rewrite H12, H1, H2. simpl. tauto. }
  split.
  - rewrite sort_by_perm. by apply push_all_NoDup, push_all_NoDup.
  - intros a. rewrite sort_by_In, H123, Hst, H3. setoid_rewrite in_map_iff.
    split; (intros [?|(? & ? & Hex)]; [by left|right; split_and!; [done..|]]).
    + destruct Hex as (id & (r & <- & Hr) & ?). exists r. split; [by apply Hst|done].
    + destruct Hex as (r & Hr & ?). exists (attestation_id r). split; [|done].
      exists r. split; [done|]. by apply Hst.
Qed.
End Bounded.

(** ** What a granted answer rests on *)

Lemma restriction_rank_zero s : restriction_rank s = 0%N <-> s = Granted.
Proof. by destruct s. Qed.

Lemma stance_granted w : stance w = Granted ->
  exists g, w = Some g /\ dimension_under consent_dimension.STATE_GRANTED_PREFIX g = true.
Proof.
  unfold stance. destruct w as [g|]; simpl; [|done]. intros Hs. exists g. split; [done|].
  unfold dimension_under. destruct (row_dimension g) as [d|]; simpl in *; [|done].
  destruct (starts_with consent_dimension.STATE_GRANTED_PREFIX d); [done|].
  repeat case_if; done.
Qed.

Lemma granted_row_rank g :
  dimension_under consent_dimension.STATE_GRANTED_PREFIX g = true <-> row_rank g = 0%N.
Proof.
  unfold dimension_under, row_rank. destruct (row_dimension g) as [d|]; [|done]. simpl.
  destruct (starts_with consent_dimension.STATE_GRANTED_PREFIX d); [done|].
  repeat case_if; done.
Qed.

Lemma granted_not_expired g :
  dimension_under consent_dimension.STATE_GRANTED_PREFIX g = true ->
  dimension_under consent_dimension.STATE_EXPIRED_PREFIX g = false.
Proof.
  unfold dimension_under. destruct (row_dimension g) as [d|]; [|done].
  rewrite starts_with_iff. intros [r ->]. reflexivity.
Qed.

(** Both folds of a granted answer chose a grant. *)
Lemma fold_from_granted u ret now scoped w `{Chrono} :
  fold_from u ret now scoped = (Granted, w) ->
  let cs := candidates_of u now scoped in
  w = clock_winner cs /\ stance w = Granted /\ stance (causal_winner (ids_of u) ret cs) = Granted.
Proof.
  unfold fold_from. cbn zeta.
  destruct (N.ltb_spec (restriction_rank (stance (clock_winner (candidates_of u now scoped))))
              (restriction_rank (stance (causal_winner (ids_of u) ret (candidates_of u now scoped)))));
    intros [= Hs <-].
  - rewrite Hs in *. simpl in *. lia.
  - rewrite Hs in *. simpl in *. split_and!; [done..|]. apply restriction_rank_zero. lia.
Qed.

(** A causal winner survives elimination and, ranked first by its edge, leaves no
    surviving row with an unresolved one. *)
Lemma causal_winner_spec known ret cs h :
  causal_winner known ret cs = Some h ->
  In h cs /\ attestation_id h ∉ eliminated ret cs /\
  forall c, In c cs -> attestation_id c ∉ eliminated ret cs ->
    (causal_rank c known <= causal_rank h known)%N.
Proof.
  unfold causal_winner. intros Hw.
  apply max_by_spec in Hw as [Hin Hmax]; eauto using causal_ordering_asym, causal_ordering_cotrans.
  apply filter_In in Hin as [Hin Hel]. apply negb_true_iff, bool_decide_eq_false in Hel.
  split_and!; [done..|]. intros c Hc Hce.
  assert (Hlt : causal_fold_ordering_lt known h c = false).
  { apply Hmax, filter_In. split; [done|]. by apply negb_true_iff, bool_decide_eq_false. }
  apply not_true_iff_false in Hlt. rewrite causal_ordering_spec in Hlt. lia.
Qed.

Lemma granted_no_edge g :
  dimension_under consent_dimension.STATE_GRANTED_PREFIX g = true -> causal_edge g = EdgeAbsent.
Proof.
  unfold dimension_under, causal_edge. destruct (row_dimension g) as [d|]; [|done]. simpl.
  intros ->. by destruct (negb _).
Qed.

Lemma universe_granted `{Chrono} rows subject u g :
  universe rows subject = Some u -> In g u ->
  dimension_under consent_dimension.STATE_GRANTED_PREFIX g = true ->
  In g rows /\ attesting_key_id g = subject.
Proof.
  intros Hu Hg Hgr. apply (universe_In _ _ _ _ Hu) in Hg as (Hin & _ & Hadm). split; [done|].
  unfold admitted_row, substrate_expiry_bound_to_subject in Hadm.
  destruct (String.eqb_spec (attesting_key_id g) subject); [done|].
  by rewrite (granted_not_expired g Hgr) in Hadm.
Qed.

(** ** Tokens *)

Section TokenLemmas.
Context `{Chrono}.

(** The shape the parser gives each kind. *)
Definition token_shape (t : ScopeToken) : Prop :=
  match sub t with
  | Whole => True
  | Cohort c => kind t = principle.SHARE /\ cohort_is_valid c = true
  | Window _ => kind t = principle.RETAIN
  | Family _ => kind t = principle.ANALYZE
  | Segments _ => kind t <> principle.SHARE /\ kind t <> principle.RETAIN /\ kind t <> principle.ANALYZE
  end.

Lemma parse_sub_shape token k subs sb :
  parse_sub token k subs = inr sb -> token_shape (mk_ScopeToken k sb).
Proof.
  unfold parse_sub, token_shape. destruct subs as [|x subs]; [by intros [= <-]|].
  destruct (String.eqb_spec k principle.SHARE) as [->|].
  { destruct subs as [|y [|]]; try done. destruct (x =s "cohort"); [|done].
    destruct (cohort_is_valid y) eqn:E; [|done]. by intros [= <-]. }
  destruct (String.eqb_spec k principle.RETAIN) as [->|].
  { destruct subs; [|done]. destruct (parse_window x); [|done]. by intros [= <-]. }
  destruct (String.eqb_spec k principle.ANALYZE) as [->|].
  { destruct subs; [|done]. by intros [= <-]. }
  by intros [= <-].
Qed.

Lemma parse_token_shape s t : parse_scope_token s = inr t -> token_shape t.
Proof.
  unfold parse_scope_token. destruct (s =s ""); [done|]. cbn zeta. destruct (_ || _); [done|].
  destruct (List.find _ _); [done|]. destruct (parse_sub _ _ _) eqn:E; [done|].
  intros [= <-]. by apply parse_sub_shape in E.
Qed.

Lemma list_starts_with_iff g q : list_starts_with g q = true <-> exists r, q = g ++ r.
Proof.
  revert q. induction g as [|x g IH]; intros q; simpl; [split; eauto|].
  destruct q as [|y q]; [split; [done|by intros [r ?]]|].
  rewrite andb_true_iff, String.eqb_eq, IH. naive_solver.
Qed.

Lemma covers_refl t : covers t t = true.
Proof.
  unfold covers. rewrite String.eqb_refl. simpl. destruct (sub t); try done.
  - by apply Nat.leb_le.
  - apply String.eqb_refl.
  - apply list_starts_with_iff. exists []. by rewrite app_nil_r.
Qed.

(** The federation is the widest audience. *)
Lemma cohort_rank_federation c :
  cohort_is_valid c = true -> (cohort_rank c <= cohort_rank cohort_scopes.FEDERATION)%nat.
Proof.
  unfold cohort_is_valid. rewrite existsb_exists. intros (v & Hv & ->%String.eqb_eq).
  simpl in Hv. repeat (destruct Hv as [<-|Hv]; [vm_compute; lia|]). done.
Qed.

Lemma cohort_rank_top c :
  cohort_is_valid c = true -> (cohort_rank cohort_scopes.FEDERATION <= cohort_rank c)%nat ->
  c = cohort_scopes.FEDERATION.
Proof.
  unfold cohort_is_valid. rewrite existsb_exists. intros (v & Hv & ->%String.eqb_eq).
  simpl in Hv. repeat (destruct Hv as [<-|Hv]; [vm_compute; intros; (done || lia)|]). done.
Qed.

Lemma named_scopes_member a : named_scopes a = scope_member_tokens (attestation_envelope a).
Proof. unfold named_scopes, scope_member_tokens. repeat case_match; done. Qed.

Lemma check_tokens_parse env d s :
  envelope_dimension env = Some d -> starts_with consent_dimension.STATE_PREFIX d = true ->
  check_consent_scope_tokens env = None -> In s (scope_member_tokens env) ->
  exists t, parse_scope_token s = inr t.
Proof.
  intros Hd Hp. unfold check_consent_scope_tokens. rewrite Hd, Hp. simpl.
  induction (scope_member_tokens env) as [|x l IH]; simpl; [done|].
  destruct (parse_scope_token x) eqn:E; [done|]. intros Hc [->|Hs]; eauto.
Qed.

(** What a grant's covering token is: one it names, that parses and covers the query. *)
Lemma covering_token_granted a scope q t :
  dimension_under consent_dimension.STATE_GRANTED_PREFIX a = true ->
  covering_token a scope q = Some t ->
  exists s query, In s (named_scopes a) /\ parse_scope_token s = inr t /\
    parse_scope_token scope = inr query /\ covers t query = true.
Proof.
  intros Hg. unfold covering_token. rewrite Hg.
  destruct (named_scopes a) as [|x l] eqn:En; [done|]. rewrite <- En. clear En x l. intros Hc.
  bind_inv Hc. bind_inv Hc. assert (x0 = t) as ->.
  { destruct q as [q|]; [|congruence]. case_bool_decide; congruence. }
  unfold ok in E. destruct (parse_scope_token scope) as [|query] eqn:Eq; [done|]. injection E as ->.
  apply List.find_some in E0 as [Hin Hcov]. apply list_elem_of_In, list_elem_of_omap in Hin as (s & Hs & Ht).
  exists s, x. unfold ok in Ht. destruct (parse_scope_token s) eqn:Es; [done|]. injection Ht as ->.
  split_and!; try done. by apply list_elem_of_In.
Qed.

(** The covering token of any row: the blanket one, or one the row names. *)
Lemma covering_token_named a scope q t :
  covering_token a scope q = Some t ->
  t = mk_ScopeToken scope Whole \/ exists s, In s (named_scopes a) /\ parse_scope_token s = inr t.
Proof.
  unfold covering_token. destruct (named_scopes a) as [|x l] eqn:En.
  { destruct (dimension_under _ a); [done|]. intros [= <-]. by left. }
  rewrite <- En. clear En x l. intros Hc. bind_inv Hc. bind_inv Hc. right.
  assert (x0 = t) as -> by (destruct q as [q|]; [case_bool_decide|]; congruence).
  apply List.find_some in E0 as [Hin _]. apply list_elem_of_In, list_elem_of_omap in Hin as (s & Hs & Ht).
  exists s. unfold ok in Ht. destruct (parse_scope_token s); [done|]. injection Ht as ->.
  split; [by apply list_elem_of_In|done].
Qed.

(** ** Where the fold cannot panic *)

Lemma lapse_total a :
  (forall s t, In s (named_scopes a) -> parse_scope_token s = inr t ->
     retain_until t (asserted_at a) <> None) ->
  is_Some (grant_lapse_instant a).
Proof.
  intros Hs. unfold grant_lapse_instant.
  destruct (mapM_total (fun t => retain_until t (asserted_at a))
              (omap (fun s => ok (parse_scope_token s)) (named_scopes a))) as [l Hl].
  - intros t Ht. apply list_elem_of_In, list_elem_of_omap in Ht as (s & Hin & Hp).
    unfold ok in Hp. destruct (parse_scope_token s) eqn:E; [done|]. injection Hp as ->.
    apply (Hs s); [by apply list_elem_of_In|done].
  - rewrite Hl. simpl. eauto.
Qed.

Lemma universe_total rows subject :
  (forall g, In g rows -> is_Some (grant_lapse_instant g)) -> is_Some (universe rows subject).
Proof.
  intros Hl. destruct (universe rows subject) eqn:E; [eauto|]. unfold universe in E.
  fold (admitted_row rows subject) in E. apply filterM_none in E as (a & Ha & Hn).
  unfold admitted_row, substrate_expiry_bound_to_subject in Hn.
  destruct (attesting_key_id a =s subject); [done|]. destruct (negb _); [done|].
  destruct (causal_edge a); try done. apply anyM_total in Hn as [].
  intros g Hg. unfold lapsed_grant. destruct (_ && _); [|done].
  destruct (Hl g Hg) as [o ->]. done.
Qed.

Lemma clock_winner_In cs g : clock_winner cs = Some g -> In g cs.
Proof.
  intros Hc. apply max_by_spec in Hc as [? _]; eauto using fold_ordering_asym, fold_ordering_cotrans.
Qed.

Lemma fold_from_In u ret now scoped st g : fold_from u ret now scoped = (st, Some g) -> In g u.
Proof.
  unfold fold_from. cbn zeta. case_if; intros [= _ Hw].
  - apply causal_winner_spec in Hw as [Hw _]. by apply candidates_In in Hw as [? _].
  - apply clock_winner_In in Hw. by apply candidates_In in Hw as [? _].
Qed.

(** The row that decided a granted scoped answer. *)
Lemma scoped_winner rt rows subject now scope q w :
  fold_winner rt rows subject now (Some (scope, q)) = Some (Granted, w) ->
  exists g t, w = Some g /\ In g rows /\ attesting_key_id g = subject /\
    dimension_under consent_dimension.STATE_GRANTED_PREFIX g = true /\ covering_token g scope q = Some t.
Proof.
  unfold fold_winner. intros Hf. bind_inv Hf. injection Hf as Hf.
  apply fold_from_granted in Hf as (Hw & Hsw & _). destruct (stance_granted _ Hsw) as (g & -> & Hg).
  symmetry in Hw. apply clock_winner_In, candidates_In in Hw as (Hu & _ & Hm).
  destruct (universe_granted _ _ _ _ E Hu Hg). unfold matches_scoped_query in Hm.
  apply bool_decide_eq_true in Hm as [t Ht]. exists g, t. done.
Qed.
End TokenLemmas.

(** ** Properties *)

(** The reads of a directory held in memory. *)
Program Definition memory_reads (about : string -> list Attestation) : ConsentReads about := {|
  read_authored target p prefix :=
    Some (List.filter (fun a => (attesting_key_id a =s p) && dimension_under prefix a) (about target));
  read_prefix target prefix := Some (List.filter (dimension_under prefix) (about target));
  list_composers_referencing_any ids target :=
    Some (List.filter (fun a => is_structural_composer (attestation_type a) &&
            match references_attestation_id_from_envelope (attestation_envelope a) with
            | Some t => existsb (fun id => id =s t) ids
            | None => false
            end) (about target));
|}.
Next Obligation.
  simpl. intros about target p prefix l [= <-] a.
  by rewrite filter_In, andb_true_iff, String.eqb_eq.
Qed.
Next Obligation. simpl. intros about target prefix l [= <-] a. by rewrite filter_In. Qed.
Next Obligation.
  simpl. intros about ids target l [= <-] a. rewrite filter_In, andb_true_iff.
  destruct (references_attestation_id_from_envelope _) as [t|]; [|naive_solver].
  rewrite existsb_exists. setoid_rewrite String.eqb_eq. naive_solver.
Qed.

Module CnSamples.
Definition rt0 : RowTypes := mk_RowTypes ["scores"; "withdraws"; "recants"; "supersedes"] [].
Definition state (id by_ st : string) (at_ : Z) (extra : list (string * Value)) : Attestation :=
  row id by_ "scores" at_ (Object (("dimension", Str ("consent:state:" +:+ st)) :: extra)) [].
Definition grant := state "g1" "s" "granted:v1" 10 [("scope", Array [Str "view"; Str "retain:1h"])].
Definition revoke := state "r1" "s" "revoked:v1" 5 [("consent_supersedes", Str "g0")].
Definition g0 := state "g0" "s" "granted:v1" 3 [("scope", Str "view")].
Definition stranger := state "x1" "t" "revoked:v1" 50 [].
Definition rows : list Attestation := [grant; stranger; revoke; g0].
Definition withdrawal : Attestation :=
  row "w1" "s" "withdraws" 20%Z (Object [("references_attestation_id", Str "g1")]) [].
Definition overflowing :=
  state "g9" "s" "granted:v1" 10 [("scope", Str "retain:100000000d")].
End CnSamples.

Example consent_answers :
  map (fun rows => fst <$> fold_winner CnSamples.rt0 rows "s" 30%Z (Some ("view", None)))
    [CnSamples.rows; CnSamples.withdrawal :: CnSamples.rows; [CnSamples.stranger];
     [CnSamples.grant; CnSamples.revoke]]
  = [Some Granted; Some Revoked; Some Unspecified; Some Revoked].
Proof. vm_compute. reflexivity. Qed.

(** The door admits a window that ends past the calendar, and the fold that meets it
    panics. *)
Example retain_window_overflows :
  check_consent_scope_tokens (attestation_envelope CnSamples.overflowing) = None /\
  fold_scoped_stance_refs CnSamples.rt0 [CnSamples.overflowing] "s" 30%Z "retain" None = None.
Proof. split; vm_compute; reflexivity. Qed.

(** C28. What a granted answer rests on. The row that decided it is in the slice,
    authored by the subject, a grant, unexpired, and matches the query; among the
    subject's applicable statements every other one is older, or is a grant of
    the same instant; and the causal plane agrees: some applicable grant is
    neither retired nor named by an applicable statement's edge, and no
    surviving statement carries an unresolved edge. *)
Theorem granted_sound `{Chrono} (rt : RowTypes) (rows : list Attestation) (subject : string)
    (now : instant) (scoped : option (string * option string)) (w : option Attestation) :
  fold_winner rt rows subject now scoped = Some (Granted, w) ->
  let is_grant := dimension_under consent_dimension.STATE_GRANTED_PREFIX in
  exists u g h, universe rows subject = Some u /\ w = Some g /\
    let cs := candidates_of u now scoped in
    let dead := eliminated (retired_ids rt rows) cs in
    In g rows /\ In g cs /\ attesting_key_id g = subject /\ is_grant g = true /\
    (forall c, In c cs -> (asserted_at c < asserted_at g)%Z \/
                          (asserted_at c = asserted_at g /\ is_grant c = true)) /\
    In h cs /\ is_grant h = true /\ attestation_id h ∉ dead /\
    (forall c, In c cs -> attestation_id c ∉ dead -> causal_rank c (ids_of u) = 0%N).
Proof.
  unfold fold_winner. intros Hf. bind_inv Hf. injection Hf as Hf. rename x into u.
  apply fold_from_granted in Hf as (Hw & Hsw & Hsk). cbn zeta.
  destruct (stance_granted _ Hsw) as (g & -> & Hg). destruct (stance_granted _ Hsk) as (h & Hk & Hh).
  symmetry in Hw. unfold clock_winner in Hw.
  apply max_by_spec in Hw as [Hin Hmax]; eauto using fold_ordering_asym, fold_ordering_cotrans.
  apply causal_winner_spec in Hk as (Hhin & Hhd & Hhmax).
  assert (Hgu : In g u) by (by apply candidates_In in Hin as [? _]).
  destruct (universe_granted _ _ _ _ E Hgu Hg) as [Hgr Hgs].
  exists u, g, h. split_and!; try done.
  - intros c Hc. specialize (Hmax c Hc). apply not_true_iff_false in Hmax.
    rewrite fold_ordering_spec in Hmax. apply granted_row_rank in Hg.
    destruct (Z.lt_trichotomy (asserted_at c) (asserted_at g)) as [?|[?|?]]; [by left|right|exfalso; tauto].
    split; [done|]. apply granted_row_rank. lia.
  - intros c Hc Hd. specialize (Hhmax c Hc Hd).
    assert (causal_rank h (ids_of u) = 0%N) by (unfold causal_rank; by rewrite (granted_no_edge h Hh)).
    lia.
Qed.

Lemma granted_sound_witness :
  exists g, In g CnSamples.rows /\ attesting_key_id g = "s" /\
    dimension_under consent_dimension.STATE_GRANTED_PREFIX g = true.
Proof.
  assert (Hf : fold_winner CnSamples.rt0 CnSamples.rows "s" 30%Z (Some ("view", None))
               = Some (Granted, Some CnSamples.grant)) by (vm_compute; reflexivity).
  destruct (granted_sound _ _ _ _ _ _ Hf) as (u & g & h & _ & _ & ? & _ & ? & ? & _).
  exists g. auto.
Defined.

(** The bounded read loses nothing. For a principal it was asked for, the fold
    over the rows [scoped_fold_rows] reads is the fold over every row held about
    the target: the same stance, the same deciding row, the same panic. *)
Theorem scoped_rows_suffice `{Chrono} (about : string -> list Attestation) `{!ConsentReads about}
    (rt : RowTypes) (target : string) (principals : list string) (rows : list Attestation)
    (subject : string) (now : instant) (scoped : option (string * option string)) :
  NoDup (map attestation_id (about target)) ->
  scoped_fold_rows target principals = Some rows -> In subject principals ->
  fold_winner rt rows subject now scoped = fold_winner rt (about target) subject now scoped.
Proof.
  intros Hnd Hs Hp. destruct (scoped_fold_rows_spec target Hnd _ _ Hs) as [Hnd' Hin].
  assert (Hstated : forall a, fold_reads subject a -> In a (about target) ->
    (In (attesting_key_id a) principals /\ dimension_under consent_dimension.STATE_PREFIX a = true) \/
    dimension_under consent_dimension.STATE_EXPIRED_PREFIX a = true).
  { intros a [Hst [<-|He]] Ha; auto. }
  apply fold_winner_same; [done| |].
  - intros a Ha. rewrite Hin. split; [tauto|]. auto.
  - intros a Ha Har. assert (Hab : In a (about target)) by (apply Hin in Har; tauto).
    apply retired_same; auto. intros r Hr Href. rewrite Hin. split; [tauto|].
    intros Hrab. right. split_and!; [done..|]. exists a. auto.
Qed.

Lemma scoped_rows_suffice_witness :
  fold_winner CnSamples.rt0 (rev [CnSamples.grant; CnSamples.withdrawal]) "s" 30%Z None
  = fold_winner CnSamples.rt0 [CnSamples.withdrawal; CnSamples.stranger; CnSamples.grant] "s" 30%Z None.
Proof.
  pose (about := fun _ : string => [CnSamples.withdrawal; CnSamples.stranger; CnSamples.grant]).
  assert (Hr : @scoped_fold_rows about (memory_reads about) "t" ["s"]
               = Some [CnSamples.withdrawal; CnSamples.grant]) by (vm_compute; reflexivity).
  assert (Hnd : NoDup (map attestation_id (about "t"))) by (vm_compute; repeat constructor; set_solver).
  exact (@scoped_rows_suffice _ about (memory_reads about) CnSamples.rt0 "t" ["s"] _ "s" 30%Z None
           Hnd Hr (or_introl eq_refl)).
Defined.

(** The door never admits a token the fold cannot match: when a consent row
    passes the gate, a query for any scope it names, without a qualifier, matches
    the row. *)
Theorem door_tokens_match `{Chrono} (a : Attestation) (s : string) :
  dimension_under consent_dimension.STATE_PREFIX a = true ->
  check_consent_scope_tokens (attestation_envelope a) = None ->
  In s (named_scopes a) -> matches_scoped_query a s None = true.
Proof.
  intros Hd Hc Hs. unfold dimension_under in Hd. destruct (row_dimension a) as [d|] eqn:Ed; [|done].
  rewrite named_scopes_member in Hs. destruct (check_tokens_parse _ d s Ed Hd Hc Hs) as [t Ht].
  rewrite <- named_scopes_member in Hs.
  unfold matches_scoped_query. apply bool_decide_eq_true. unfold covering_token.
  destruct (named_scopes a) as [|x l] eqn:En; [done|]. rewrite <- En in *. rewrite Ht. simpl.
  assert (Hf : is_Some (List.find (fun g => covers g t)
                          (omap (fun s => ok (parse_scope_token s)) (named_scopes a)))).
  { apply find_some_iff. exists t. split; [|apply covers_refl].
    apply list_elem_of_In, list_elem_of_omap. exists s. rewrite Ht. split; [by apply list_elem_of_In|done]. }
  destruct Hf as [g Hg]. rewrite Hg. simpl. eauto.
Qed.

Lemma door_tokens_match_witness : matches_scoped_query CnSamples.grant "retain:1h" None = true.
Proof.
  apply door_tokens_match; [vm_compute; reflexivity..|]. vm_compute. auto.
Defined.

(** Covering is a preorder on the tokens the parser accepts: a token covers
    itself, and what is covered by something covered is covered. *)
Theorem covers_preorder `{Chrono} (x y z : string) (tx ty tz : ScopeToken) :
  parse_scope_token x = inr tx -> parse_scope_token y = inr ty -> parse_scope_token z = inr tz ->
  covers tx tx = true /\
  (covers tx ty = true -> covers ty tz = true -> covers tx tz = true).
Proof.
  intros Hx Hy Hz. apply parse_token_shape in Hx, Hy, Hz. split; [apply covers_refl|].
  assert (principle.SHARE <> principle.RETAIN) by done.
  assert (principle.SHARE <> principle.ANALYZE) by done.
  assert (principle.RETAIN <> principle.ANALYZE) by done.
  unfold covers, token_shape in *.
  destruct (String.eqb_spec (kind tx) (kind ty)) as [E1|]; [|done].
  destruct (String.eqb_spec (kind ty) (kind tz)) as [E2|]; [|done].
  rewrite (proj2 (String.eqb_eq (kind tx) (kind tz))) by congruence. simpl.
  destruct (sub tx) as [|gx|dx|fx|sx]; try done;
    destruct (sub ty) as [|gy|dy|fy|sy]; try done;
    destruct (sub tz) as [|gz|dz|fz|sz]; try done.
  all: rewrite ?String.eqb_eq, ?Nat.leb_le, ?list_starts_with_iff.
  all: repeat match goal with H : _ /\ _ |- _ => destruct H end; try congruence.
  - intros -> _. apply cohort_rank_federation. tauto.
  - intros Hle ->. by apply cohort_rank_top.
  - lia.
  - intros [r ->] [r' ->]. exists (r ++ r'). by rewrite app_assoc.
Qed.

Lemma covers_preorder_witness :
  covers (mk_ScopeToken "share" (Cohort "federation")) (mk_ScopeToken "share" (Cohort "self")) = true.
Proof.
  apply (covers_preorder "share:cohort:federation" "share" "share:cohort:self" _
           (mk_ScopeToken "share" Whole)); vm_compute; reflexivity.
Defined.

(** A granted scoped answer is inside its bounds: the deciding row is a grant of
    the subject that names a token covering the query (a grant never matches
    blanket), and when that token is a retention window, the answer reports the
    window's end and the end is still ahead. *)
Theorem granted_within_window `{Chrono} (rt : RowTypes) (rows : list Attestation)
    (subject : string) (now : instant) (scope : string) (q : option string)
    (until : option instant) (w : option Attestation) :
  fold_scoped_stance_refs_with_winner rt rows subject now scope q
    = Some (mk_ScopedStance Granted until, w) ->
  exists g s t query, w = Some g /\ In g rows /\ attesting_key_id g = subject /\
    In s (named_scopes g) /\ parse_scope_token s = inr t /\
    parse_scope_token scope = inr query /\ covers t query = true /\
    match sub t with
    | Window d => until = Some (asserted_at g + d)%Z /\ (now < asserted_at g + d)%Z
    | _ => until = None
    end.
Proof.
  unfold fold_scoped_stance_refs_with_winner. intros Hf. apply bind_Some in Hf as ([st w'] & Hw & Hf).
  apply bind_Some in Hf as (until' & Hu & Hf). cbn zeta in Hf. injection Hf as Hst -> ->.
  assert (st = Granted /\ match until with Some e => (now < e)%Z | None => True end) as [-> Hnow].
  { destruct until as [e|]; [|done]. destruct st; simpl in Hst; try done.
    destruct (Z.leb_spec e now); [done|]. by split. }
  destruct (scoped_winner _ _ _ _ _ _ _ Hw) as (g & t & -> & Hin & Hsub & Hg & Hcov).
  destruct (covering_token_granted _ _ _ _ Hg Hcov) as (s & query & Hs & Ht & Hq & Hc).
  exists g, s, t, query. split_and!; try done. rewrite Hcov in Hu. unfold retain_until in Hu.
  pose proof (parse_token_shape _ _ Ht) as Hshape. unfold token_shape in Hshape.
  destruct (sub t) as [| |d| |]; try congruence. rewrite Hshape in Hu. simpl in Hu.
  destruct (checked_add_signed _ _) as [e|] eqn:Ea; [|done]. injection Hu as <-.
  apply checked_add_some in Ea as [-> _]. done.
Qed.

Lemma granted_within_window_witness :
  exists g s t query, Some CnSamples.grant = Some g /\ In g CnSamples.rows /\ attesting_key_id g = "s" /\
    In s (named_scopes g) /\ parse_scope_token s = inr t /\
    parse_scope_token "retain" = inr query /\ covers t query = true /\
    match sub t with
    | Window d => Some (asserted_at CnSamples.grant + 3600 * NANOS)%Z = Some (asserted_at g + d)%Z /\
                  (30 < asserted_at g + d)%Z
    | _ => Some (asserted_at CnSamples.grant + 3600 * NANOS)%Z = None
    end.
Proof.
  apply (granted_within_window CnSamples.rt0 CnSamples.rows "s" 30%Z "retain" None).
  vm_compute. reflexivity.
Defined.

(** The scoped fold answers whenever the windows it meets end inside the
    calendar: if no token a row of the slice names overflows from the row's
    instant, there is a stance for every subject and query. *)
Theorem scoped_fold_total `{Chrono} (rt : RowTypes) (rows : list Attestation) (subject : string)
    (now : instant) (scope : string) (q : option string) :
  (forall a s t, In a rows -> In s (named_scopes a) -> parse_scope_token s = inr t ->
     retain_until t (asserted_at a) <> None) ->
  exists st, fold_scoped_stance_refs rt rows subject now scope q = Some st.
Proof.
  intros Hcal. unfold fold_scoped_stance_refs, fold_scoped_stance_refs_with_winner.
  destruct (universe_total rows subject) as [u Hu].
  { intros g Hg. apply lapse_total. intros s t. by apply Hcal. }
  unfold fold_winner. rewrite Hu. simpl.
  destruct (fold_from u (retired_ids rt rows) now (Some (scope, q))) as [st w] eqn:Ef. simpl.
  assert (Hw : match w with
               | Some w => match covering_token w scope q with
                           | Some t => retain_until t (asserted_at w)
                           | None => Some None
                           end
               | None => Some None
               end <> None).
  { destruct w as [w|]; [|done]. destruct (covering_token w scope q) as [t|] eqn:Ec; [|done].
    destruct (covering_token_named _ _ _ _ Ec) as [->|(s & Hs & Ht)]; [done|].
    apply (Hcal w s); [|done..]. apply fold_from_In in Ef.
    apply (universe_In _ _ _ _ Hu) in Ef. tauto. }
  destruct (match w with Some _ => _ | None => _ end) as [o|]; [|done]. simpl. eauto.
Qed.

Lemma scoped_fold_total_witness :
  exists st, fold_scoped_stance_refs CnSamples.rt0 [CnSamples.grant] "s" 30%Z "view" None = Some st.
Proof.
  apply scoped_fold_total. intros a s t [<-|[]] Hs Ht.
  vm_compute in Hs. destruct Hs as [<-|[<-|[]]]; vm_compute in Ht; injection Ht as <-;
    vm_compute; discriminate.
Defined.
