(* ===== verification/Query.v ===== *)
(** * The bounded attestation read

    [src/src/federation/attestation_query.rs]: the query and its builders, its predicate
    and order, one page of it ([query_attestations]) and the walk over every page
    ([Pages::next]), with the cursor of [src/src/ceg/list/federation.rs].

    A directory is its [run_attestation_query]; each call of [next] takes the directory as
    it is at that moment, so a walk is a walk over a list of directories and the rows may
    change between pages. A backend's text is kept as its kind and interpolated values. *)

From Stdlib Require Import ZArith NArith Lia.
From stdpp Require Import base list strings gmap sorting.
From S2P Require Import Prelude RustStd Json Precedence.

Open Scope string_scope.
Open Scope list_scope.
Open Scope persist_scope.

(** ** The query *)

Definition MAX_PAGE : N := 10000.

(** [FOLD_PAGE], as built for release. *)
Definition FOLD_PAGE : positive := 500.

Inductive DimensionFilter :=
| Any
| Prefix (p : string)
| Exact (x : string)
| AnyOf (xs : list string).

#[export] Instance DimensionFilter_eq_dec : EqDecision DimensionFilter.
Proof. solve_decision. Defined.

Record ScopeFilter := mk_ScopeFilter {
  sf_cohort_scope : string;
  sf_cohort_target : option string;
}.

Inductive QueryTier := TierFederation | TierLocal.

(** [types.rs], [mod attestation_tier]. *)
Module attestation_tier.
Definition LOCAL := "local".
Definition FEDERATION := "federation".
End attestation_tier.

Definition stored (t : QueryTier) : string :=
  match t with
  | TierFederation => attestation_tier.FEDERATION
  | TierLocal => attestation_tier.LOCAL
  end.

Inductive Direction := Asc | Desc.

Inductive QueryOrder := ByAssertedAt (d : Direction).

Definition direction (o : QueryOrder) : Direction := match o with ByAssertedAt d => d end.

(** [ceg/list/federation.rs], [struct AttestationCursor]. *)
Record AttestationCursor := mk_AttestationCursor {
  cur_version : string;
  last_asserted_at : instant;
  last_attestation_id : string;
}.

#[export] Instance AttestationCursor_eq_dec : EqDecision AttestationCursor.
Proof. solve_decision. Defined.

Definition from_trailing (at_ : instant) (id : string) : AttestationCursor :=
  mk_AttestationCursor "v1" at_ id.

(** [limit] is a [NonZeroU32]. *)
Record AttestationQuery := mk_AttestationQuery {
  q_by : option string;
  q_to : option string;
  q_dimension : DimensionFilter;
  q_types : list string;
  q_type_prefix : option string;
  q_excluded_dimensions : list string;
  q_tier : QueryTier;
  q_order : QueryOrder;
  q_limit : positive;
  q_after : option AttestationCursor;
  q_as_of : option instant;
  q_scope : option ScopeFilter;
}.

(** ** Builders *)

Definition pinned (by_ to_ : option string) (limit : positive) : AttestationQuery :=
  mk_AttestationQuery by_ to_ Any [] None [] TierFederation (ByAssertedAt Desc) limit None None None.

Definition by_key (k : string) (limit : positive) : AttestationQuery := pinned (Some k) None limit.
Definition to_key (k : string) (limit : positive) : AttestationQuery := pinned None (Some k) limit.

Definition authored_by (q : AttestationQuery) (k : string) : AttestationQuery :=
  mk_AttestationQuery (Some k) (q_to q) (q_dimension q) (q_types q) (q_type_prefix q)
    (q_excluded_dimensions q) (q_tier q) (q_order q) (q_limit q) (q_after q) (q_as_of q) (q_scope q).

Definition attested_to (q : AttestationQuery) (k : string) : AttestationQuery :=
  mk_AttestationQuery (q_by q) (Some k) (q_dimension q) (q_types q) (q_type_prefix q)
    (q_excluded_dimensions q) (q_tier q) (q_order q) (q_limit q) (q_after q) (q_as_of q) (q_scope q).

Definition set_dimension (q : AttestationQuery) (f : DimensionFilter) : AttestationQuery :=
  mk_AttestationQuery (q_by q) (q_to q) f (q_types q) (q_type_prefix q)
    (q_excluded_dimensions q) (q_tier q) (q_order q) (q_limit q) (q_after q) (q_as_of q) (q_scope q).

Definition dimension_prefix (q : AttestationQuery) (p : string) := set_dimension q (Prefix p).
Definition dimension (q : AttestationQuery) (x : string) := set_dimension q (Exact x).
Definition dimension_any_of (q : AttestationQuery) (xs : list string) := set_dimension q (AnyOf xs).

Definition scope (q : AttestationQuery) (s : string) (t : option string) : AttestationQuery :=
  mk_AttestationQuery (q_by q) (q_to q) (q_dimension q) (q_types q) (q_type_prefix q)
    (q_excluded_dimensions q) (q_tier q) (q_order q) (q_limit q) (q_after q) (q_as_of q)
    (Some (mk_ScopeFilter s t)).

Definition types (q : AttestationQuery) (ts : list string) : AttestationQuery :=
  mk_AttestationQuery (q_by q) (q_to q) (q_dimension q) ts (q_type_prefix q)
    (q_excluded_dimensions q) (q_tier q) (q_order q) (q_limit q) (q_after q) (q_as_of q) (q_scope q).

Definition type_prefix (q : AttestationQuery) (p : string) : AttestationQuery :=
  mk_AttestationQuery (q_by q) (q_to q) (q_dimension q) (q_types q) (Some p)
    (q_excluded_dimensions q) (q_tier q) (q_order q) (q_limit q) (q_after q) (q_as_of q) (q_scope q).

Definition excluding_dimensions (q : AttestationQuery) (ds : list string) : AttestationQuery :=
  mk_AttestationQuery (q_by q) (q_to q) (q_dimension q) (q_types q) (q_type_prefix q)
    ds (q_tier q) (q_order q) (q_limit q) (q_after q) (q_as_of q) (q_scope q).

Definition set_tier (q : AttestationQuery) (t : QueryTier) : AttestationQuery :=
  mk_AttestationQuery (q_by q) (q_to q) (q_dimension q) (q_types q) (q_type_prefix q)
    (q_excluded_dimensions q) t (q_order q) (q_limit q) (q_after q) (q_as_of q) (q_scope q).

Definition order (q : AttestationQuery) (o : QueryOrder) : AttestationQuery :=
  mk_AttestationQuery (q_by q) (q_to q) (q_dimension q) (q_types q) (q_type_prefix q)
    (q_excluded_dimensions q) (q_tier q) o (q_limit q) (q_after q) (q_as_of q) (q_scope q).

Definition oldest_first (q : AttestationQuery) : AttestationQuery := order q (ByAssertedAt Asc).

Definition as_of (q : AttestationQuery) (t : instant) : AttestationQuery :=
  mk_AttestationQuery (q_by q) (q_to q) (q_dimension q) (q_types q) (q_type_prefix q)
    (q_excluded_dimensions q) (q_tier q) (q_order q) (q_limit q) (q_after q) (Some t) (q_scope q).

Definition after (q : AttestationQuery) (c : option AttestationCursor) : AttestationQuery :=
  mk_AttestationQuery (q_by q) (q_to q) (q_dimension q) (q_types q) (q_type_prefix q)
    (q_excluded_dimensions q) (q_tier q) (q_order q) (q_limit q) c (q_as_of q) (q_scope q).

(** ** What the query narrows to, and its name *)

(** [self.dimension != DimensionFilter::Any]. *)
Definition has_dimension (q : AttestationQuery) : bool :=
  match q_dimension q with Any => false | _ => true end.

Definition is_narrowed (q : AttestationQuery) : bool :=
  negb (is_nil (q_types q)) || is_some (q_type_prefix q) || has_dimension q
  || negb (is_nil (q_excluded_dimensions q)) || is_some (q_scope q).

Definition seeks_narrow_index (q : AttestationQuery) : bool :=
  negb (is_nil (q_types q)) || is_some (q_type_prefix q) || has_dimension q
  || (is_some (q_scope q) && is_some (q_to q)).

Definition shape (q : AttestationQuery) : string :=
  match q_tier q with
  | TierLocal => "list_local_tier_attestations"
  | TierFederation =>
      let to := is_some (q_to q) in
      let dim := has_dimension q in
      if is_some (q_type_prefix q) && negb dim then
        if to then "list_attestations_for_types" else "list_attestations_by_types"
      else
        match dim, q_types q, to with
        | true, _, false => "list_attestations_by_dimension_prefix"
        | true, _, true => "list_attestations_for_dimension_prefix"
        | false, [], false => "list_attestations_by"
        | false, [], true => "list_attestations_for"
        | false, [_], false =>
            if is_nil (q_excluded_dimensions q) then "list_attestations_by_type"
            else "list_attestations_by_types"
        | false, [_], true =>
            if is_nil (q_excluded_dimensions q) then "list_attestations_for_type"
            else "list_attestations_for_types"
        | false, _, false => "list_attestations_by_types"
        | false, _, true => "list_attestations_for_types"
        end
  end.

Definition key (q : AttestationQuery) : string :=
  match q_by q, q_to q with
  | Some k, _ => k
  | None, Some k => k
  | None, None => "*"
  end.

(** ** Refusals *)

(** The texts of [validate], with what they interpolate. *)
Inductive QueryDefect :=
| PinsNoKey
| LimitExceeds (limit : N)
| NamesNoDimension
| CursorVersion (version : string).

(** The texts of the faults raised here, and a backend's own. *)
Inductive BackendFault :=
| StatementFailed (text : string)
| RowsPastPage (past fetch limit : N)
| CursorStuck (c : AttestationCursor).

(** [federation::Error], the kinds this read tells apart. *)
Inductive Error :=
| InvalidArgument (d : QueryDefect)
| Unsupported (method : string)
| Backend (f : BackendFault)
| OtherError (kind : string).

(** [validate], with [None] for [Ok(())]. *)
Definition validate (q : AttestationQuery) : option Error :=
  if negb (is_some (q_by q)) && negb (is_some (q_to q)) then Some (InvalidArgument PinsNoKey)
  else if (MAX_PAGE <? Npos (q_limit q))%N then
    Some (InvalidArgument (LimitExceeds (Npos (q_limit q))))
  else if bool_decide (q_dimension q = AnyOf []) then Some (InvalidArgument NamesNoDimension)
  else match q_after q with
       | Some c => if cur_version c <>s "v1" then Some (InvalidArgument (CursorVersion (cur_version c)))
                   else None
       | None => None
       end.

(** ** The predicate and the order *)

(** [federation/mod.rs], [cohort_target_of_envelope]. *)
Definition COHORT_TARGET_KEYS : list string :=
  ["community_id"; "community_key_id"; "cohort_key_id"; "family_key_id"].

Fixpoint find_str (env : Value) (ks : list string) : option string :=
  match ks with
  | [] => None
  | k :: ks' => match get_str env k with Some s => Some s | None => find_str env ks' end
  end.

Definition cohort_target_of_envelope (env : Value) : option string := find_str env COHORT_TARGET_KEYS.

(** The order of [(asserted_at, attestation_id)] pairs. *)
Notation row_key := (instant * string)%type.

Definition key_ltb (a b : row_key) : bool :=
  (fst a <? fst b)%Z || ((fst a =? fst b)%Z && (snd a <s snd b)).

Definition key_of (a : Attestation) : row_key := (asserted_at a, attestation_id a).
Definition mark_of (c : AttestationCursor) : row_key := (last_asserted_at c, last_attestation_id c).


Definition admits (q : AttestationQuery) (a : Attestation) : bool :=
  let dimension := envelope_dimension (attestation_envelope a) in
  is_none_or (q_by q) (fun k => attesting_key_id a =s k)
  && is_none_or (q_to q) (fun k => attested_key_id a =s k)
  && (tier a =s stored (q_tier q))
  && match q_dimension q with
     | Any => true
     | Prefix p => is_some_and dimension (fun d => starts_with p d)
     | Exact x => bool_decide (dimension = Some x)
     | AnyOf xs => is_some_and dimension (fun d => existsb (fun x => x =s d) xs)
     end
  && is_none_or (q_scope q) (fun s =>
       (cohort_scope a =s sf_cohort_scope s)
       && is_none_or (sf_cohort_target s) (fun t =>
            bool_decide (cohort_target_of_envelope (attestation_envelope a) = Some t)))
  && (is_nil (q_types q) || existsb (fun t => t =s Json.attestation_type a) (q_types q))
  && is_none_or (q_type_prefix q) (fun p => starts_with p (Json.attestation_type a))
  && negb (is_some_and dimension (fun d => existsb (fun x => x =s d) (q_excluded_dimensions q)))
  && is_none_or (q_as_of q) (fun t => (asserted_at a <=? t)%Z)
  && is_none_or (q_after q) (fun c =>
       let here := key_of a in
       let mark := mark_of c in
       match direction (q_order q) with
       | Desc => key_ltb here mark
       | Asc => key_ltb mark here
       end).

(** [sort]'s comparator says [Less]. *)
Definition before (d : Direction) (a b : Attestation) : bool :=
  match d with
  | Desc => key_ltb (key_of b) (key_of a)
  | Asc => key_ltb (key_of a) (key_of b)
  end.

Definition sort (q : AttestationQuery) (rows : list Attestation) : list Attestation :=
  sort_by (before (direction (q_order q))) rows.

Definition fetch (q : AttestationQuery) : N := Npos (q_limit q) + 1.

(** ** One page *)

Inductive StoreBackend := Sqlite | Postgres.

Record QueryRows := mk_QueryRows {
  qr_rows : list Attestation;
  qr_bytes : N;
  qr_backend : StoreBackend;
}.

Record Page := mk_Page {
  page_rows : list Attestation;
  page_next : option AttestationCursor;
}.

Inductive NotServedReason := Refused (e : Error) | Fault (e : Error).

Definition into_error (r : NotServedReason) : Error := match r with Refused e | Fault e => e end.

Inductive ReadOutcome := Served (p : Page) | NotServed (r : NotServedReason).

Definition served (o : ReadOutcome) : Error + Page :=
  match o with Served p => inr p | NotServed r => inl (into_error r) end.

Definition is_served (o : ReadOutcome) : bool :=
  match o with Served _ => true | NotServed _ => false end.

(** [AttestationQueryExec::run_attestation_query] of one directory. *)
Notation Exec := (AttestationQuery -> Error + QueryRows).

Definition query_attestations (run : Exec) (q : AttestationQuery) : ReadOutcome :=
  match validate q with
  | Some e => NotServed (Refused e)
  | None =>
      match run q with
      | inl (Unsupported m) => NotServed (Refused (Unsupported m))
      | inl e => NotServed (Fault e)
      | inr r =>
          let rows := qr_rows r in
          if (fetch q <? len rows)%N then
            NotServed (Fault (Backend (RowsPastPage (len rows - fetch q) (fetch q) (Npos (q_limit q)))))
          else
            let limit := Pos.to_nat (q_limit q) in
            if (Npos (q_limit q) <? len rows)%N then
              let rows := take limit rows in
              Served (mk_Page rows
                (match last rows with
                 | Some a => Some (from_trailing (asserted_at a) (attestation_id a))
                 | None => None
                 end))
            else Served (mk_Page rows None)
      end
  end.

(** ** Every page *)

Record Pages := mk_Pages {
  pg_query : AttestationQuery;
  pg_done : bool;
  pg_last : option AttestationCursor;
}.

Definition pages (q : AttestationQuery) : Pages := mk_Pages q false None.

(** [Pages::next]: the result, and the walk's state after it. *)
Definition next (run : Exec) (p : Pages) : (Error + option (list Attestation)) * Pages :=
  if pg_done p then (inr None, p)
  else
    match served (query_attestations run (pg_query p)) with
    | inl e => (inl e, p)
    | inr page =>
        match page_next page with
        | Some c =>
            if bool_decide (pg_last p = Some c) then (inl (Backend (CursorStuck c)), p)
            else (inr (Some (page_rows page)), mk_Pages (after (pg_query p) (Some c)) false (Some c))
        | None => (inr (Some (page_rows page)), mk_Pages (pg_query p) true (pg_last p))
        end
    end.

(** [while let Some(rows) = pages.next(dir).await? { out.extend(rows) }], one directory
    per turn; [None] when the turns run out before the walk ends. *)
Fixpoint all (runs : list Exec) (p : Pages) (out : list Attestation)
    : option (Error + list Attestation) :=
  match runs with
  | [] => None
  | run :: runs' =>
      match next run p with
      | (inl e, _) => Some (inl e)
      | (inr None, _) => Some (inr out)
      | (inr (Some rows), p') => all runs' p' (out ++ rows)
      end
  end.

(** ** The row order *)

Lemma key_ltb_spec a b :
  key_ltb a b = true <-> (fst a < fst b)%Z \/ (fst a = fst b /\ (snd a <s snd b) = true).
Proof. unfold key_ltb. rewrite orb_true_iff, andb_true_iff, Z.ltb_lt, Z.eqb_eq. tauto. Qed.

Lemma key_ltb_irrefl a : key_ltb a a = false.
Proof.
  apply not_true_iff_false. rewrite key_ltb_spec, string_ltb_irrefl. intros [?|[_ ?]]; [lia|done].
Qed.

Lemma key_ltb_trans a b c : key_ltb a b = true -> key_ltb b c = true -> key_ltb a c = true.
Proof.
  rewrite !key_ltb_spec. intros [?|[-> ?]] [?|[? ?]]; try (left; lia).
  right. split; [done|]. by eapply string_ltb_trans.
Qed.

Lemma key_ltb_asym a b : key_ltb a b = true -> key_ltb b a = false.
Proof.
  intros Hab. apply not_true_iff_false. intros Hba.
  pose proof (key_ltb_trans _ _ _ Hab Hba). by rewrite key_ltb_irrefl in *.
Qed.

Lemma key_ltb_total a b : key_ltb a b = false -> key_ltb b a = false -> a = b.
Proof.
  rewrite <- !not_true_iff_false, !key_ltb_spec. destruct a as [x s], b as [y t]; simpl. intros H1 H2.
  assert (x = y) as -> by lia. f_equal.
  apply string_ltb_total; apply not_true_iff_false; tauto.
Qed.

Lemma key_ltb_cotrans a b c : key_ltb a c = true -> key_ltb a b = true \/ key_ltb b c = true.
Proof.
  intros Hac. destruct (key_ltb a b) eqn:Hab; [by left|]. right.
  destruct (key_ltb b c) eqn:Hbc; [done|]. destruct (key_ltb c b) eqn:Hcb.
  - by rewrite (key_ltb_trans a c b) in Hab.
  - rewrite (key_ltb_total b c) in Hab by done. congruence.
Qed.

Section Before.
Context (d : Direction).

Lemma before_irrefl a : before d a a = false.
Proof. destruct d; apply key_ltb_irrefl. Qed.

Lemma before_trans a b c : before d a b = true -> before d b c = true -> before d a c = true.
Proof. destruct d; simpl; eauto using key_ltb_trans. Qed.

Lemma before_asym a b : before d a b = true -> before d b a = false.
Proof. destruct d; apply key_ltb_asym. Qed.

Lemma before_cotrans a b c : before d a c = true -> before d a b = true \/ before d b c = true.
Proof.
  destruct d; simpl; [apply key_ltb_cotrans|]. intros H.
  destruct (key_ltb_cotrans _ (key_of b) _ H); auto.
Qed.

Lemma before_total (l : list Attestation) a b :
  NoDup (map attestation_id l) -> In a l -> In b l ->
  before d a b = false -> before d b a = false -> a = b.
Proof.
  intros Hnd Ha Hb H1 H2. apply (ids_inj l); try done.
  assert (key_of a = key_of b) as E by (destruct d; by apply key_ltb_total). by injection E.
Qed.

(** Rows with distinct ids sort strictly. *)
Lemma sort_strict l :
  NoDup (map attestation_id l) ->
  StronglySorted (fun a b => before d a b = true) (sort_by (before d) l).
Proof.
  intros Hnd. pose proof (sort_by_sorted _ before_asym before_cotrans l) as Hs.
  pose proof (sort_by_perm (before d) l) as Hp. rewrite <- Hp in Hnd.
  revert Hs Hnd. generalize (sort_by (before d) l). clear Hp l. intros l Hs.
  induction Hs as [|x l Hs IH Hall]; intros Hnd; constructor.
  - apply IH. simpl in Hnd. by apply NoDup_cons in Hnd as [_ Hnd].
  - rewrite Forall_forall in Hall |- *. intros y Hy. specialize (Hall y Hy). unfold not_after in Hall.
    destruct (before d x y) eqn:E; [done|]. apply list_elem_of_In in Hy.
    assert (x = y) as -> by (apply (before_total (x :: l)); simpl; auto).
    simpl in Hnd. apply NoDup_cons in Hnd as [Hn _]. exfalso. apply Hn.
    by apply list_elem_of_In, in_map.
Qed.

(** What comes after the last row of a page is the rest of the list. *)
Lemma filter_past_last n l z :
  StronglySorted (fun a b => before d a b = true) l -> last (take n l) = Some z ->
  List.filter (before d z) l = drop n l.
Proof.
  intros Hs Hz. apply last_Some in Hz as [l1 Hl1].
  rewrite <- (take_drop n l) in Hs |- * at 1. rewrite Hl1 in Hs |- *.
  rewrite List.filter_app. pose proof (StronglySorted_app_1_l _ _ _ Hs) as Hs1.
  assert (Hpre : List.filter (before d z) (l1 ++ [z]) = []).
  { rewrite List.filter_app. simpl. rewrite before_irrefl, app_nil_r.
    clear -Hs1. induction l1 as [|x l1 IH]; [done|]. simpl in *. inv Hs1.
    rewrite Forall_forall in H2. rewrite (before_asym x z); [by apply IH|].
    apply H2. apply list_elem_of_In, in_app_iff. right. by left. }
  rewrite Hpre. simpl. clear Hpre Hs1.
  assert (Hall : forall y, In y (drop n l) -> before d z y = true).
  { intros y Hy. eapply (StronglySorted_app_1_elem_of (fun a b => before d a b = true)); [exact Hs|..].
    - apply list_elem_of_In, in_app_iff. right. by left.
    - by apply list_elem_of_In. }
  clear Hs. induction (drop n l) as [|y l' IH]; [done|]. simpl. rewrite Hall by (by left).
  f_equal. apply IH. intros. apply Hall. by right.
Qed.
End Before.

Section SortFilter.
Context {A : Type} (lt : A -> A -> bool).
Hypothesis lt_asym : forall a b, lt a b = true -> lt b a = false.
Hypothesis lt_cotrans : forall a b c, lt a c = true -> lt a b = true \/ lt b c = true.

Lemma filter_sorted (R : A -> A -> Prop) (f : A -> bool) l :
  StronglySorted R l -> StronglySorted R (List.filter f l).
Proof.
  induction 1 as [|x l Hs IH Hall]; simpl; [constructor|]. destruct (f x); [|done].
  constructor; [done|]. rewrite Forall_forall in Hall |- *. intros y Hy. apply Hall.
  apply list_elem_of_In in Hy. apply filter_In in Hy as [Hy _]. by apply list_elem_of_In.
Qed.

(** Sorting and filtering commute where the order separates the elements. *)
Lemma sort_filter (f : A -> bool) l :
  (forall a b, In a l -> In b l -> lt a b = false -> lt b a = false -> a = b) ->
  sort_by lt (List.filter f l) = List.filter f (sort_by lt l).
Proof.
  intros Hconn. apply (StronglySorted_unique_strong (not_after lt)).
  - intros a b Ha Hb. apply list_elem_of_In, sort_by_In, filter_In in Ha as [Ha _].
    apply list_elem_of_In, filter_In in Hb as [Hb _]. apply sort_by_In in Hb.
    unfold not_after. intros. by apply Hconn.
  - by apply sort_by_sorted.
  - by apply filter_sorted, sort_by_sorted.
  - rewrite sort_by_perm. apply perm_filter. symmetry. apply sort_by_perm.
Qed.
End SortFilter.

(** ** Continuing after a row *)

Definition cursor_of (z : Attestation) : AttestationCursor :=
  from_trailing (asserted_at z) (attestation_id z).

Definition dir_of (q : AttestationQuery) : Direction := direction (q_order q).

(** The query that asks for what follows the rows read so far. *)
Definition resume (q : AttestationQuery) (out : list Attestation) : AttestationQuery :=
  match last out with Some z => after q (Some (cursor_of z)) | None => q end.

Definition past (q : AttestationQuery) (out : list Attestation) (a : Attestation) : bool :=
  is_none_or (last out) (fun z => before (dir_of q) z a).

Lemma admits_after q c a :
  admits (after q c) a =
  admits (after q None) a && is_none_or c (fun c =>
    match dir_of q with Desc => key_ltb (key_of a) (mark_of c) | Asc => key_ltb (mark_of c) (key_of a) end).
Proof. destruct c as [c|]; simpl; [|by rewrite andb_true_r]. unfold admits. simpl. by rewrite andb_true_r. Qed.

Lemma admits_unfold q a : admits q a = admits (after q (q_after q)) a.
Proof. by destruct q. Qed.

Lemma admits_advance q z a :
  admits q z = true -> admits (after q (Some (cursor_of z))) a = admits q a && before (dir_of q) z a.
Proof.
  intros Hz. rewrite (admits_unfold q a), (admits_unfold q z) in *.
  rewrite admits_after in Hz |- *. rewrite (admits_after q (q_after q) a).
  apply andb_true_iff in Hz as [_ Hz]. unfold is_none_or in *.
  assert (Eb : match dir_of q with
               | Asc => key_ltb (mark_of (cursor_of z)) (key_of a)
               | Desc => key_ltb (key_of a) (mark_of (cursor_of z))
               end = before (dir_of q) z a) by (by destruct (dir_of q)).
  rewrite Eb. clear Eb.
  destruct (admits (after q None) a); simpl; [|done].
  destruct (q_after q) as [c|]; simpl; [|done].
  destruct (before (dir_of q) z a) eqn:Hb; [|by rewrite andb_false_r].
  rewrite andb_true_r. symmetry. unfold before in Hb. destruct (dir_of q); eauto using key_ltb_trans.
Qed.

Lemma admits_resume q out a :
  (forall z, last out = Some z -> admits q z = true) ->
  admits (resume q out) a = admits q a && past q out a.
Proof.
  intros Hz. unfold resume, past. destruct (last out) as [z|]; simpl; [|by rewrite andb_true_r].
  apply admits_advance. by apply Hz.
Qed.

Lemma resume_order q out : q_order (resume q out) = q_order q.
Proof. unfold resume. by destruct (last out). Qed.

Lemma resume_limit q out : q_limit (resume q out) = q_limit q.
Proof. unfold resume. by destruct (last out). Qed.

Lemma validate_resume q out : validate q = None -> validate (resume q out) = None.
Proof.
  unfold resume. destruct (last out) as [z|]; [|done]. unfold validate. simpl.
  repeat (case_if; [done|]). done.
Qed.

Lemma resume_app q out rows z :
  last rows = Some z -> after (resume q out) (Some (cursor_of z)) = resume q (out ++ rows).
Proof.
  intros Hz. unfold resume. rewrite last_app, Hz. by destruct (last out).
Qed.

(** A row past the cursor never mints that cursor again. *)
Lemma cursor_moves q z c : admits q z = true -> q_after q = Some c -> c <> cursor_of z.
Proof.
  intros Hz Hc ->. rewrite admits_unfold, Hc, admits_after in Hz. apply andb_true_iff in Hz as [_ Hz].
  simpl in Hz. destruct (dir_of q); by rewrite key_ltb_irrefl in Hz.
Qed.

(** ** The executor's contract

    [run_attestation_query]: at most [q.fetch()] rows in [q]'s order, of the rows the
    directory holds. [attestation_id] is the table's primary key. *)
Definition answer (store : list Attestation) (q : AttestationQuery) : list Attestation :=
  sort q (List.filter (admits q) store).

Lemma answer_In store q a : In a (answer store q) <-> In a store /\ admits q a = true.
Proof. unfold answer, sort. by rewrite sort_by_In, filter_In. Qed.

Class Serves (store : list Attestation) (run : Exec) : Prop := {
  store_ids : NoDup (map attestation_id store);
  run_spec : forall q, validate q = None ->
    exists r, run q = inr r /\ qr_rows r = take (N.to_nat (fetch q)) (answer store q);
}.

(** A directory over rows held in memory. *)
Definition memory_exec (store : list Attestation) : Exec := fun q =>
  inr (mk_QueryRows (take (N.to_nat (fetch q)) (answer store q)) 0 Sqlite).

Lemma memory_exec_serves store : NoDup (map attestation_id store) -> Serves store (memory_exec store).
Proof. intros Hnd. split; [done|]. intros q _. eexists. by split. Qed.

(** One page over a directory that keeps the contract. *)
Lemma query_page store run q :
  Serves store run -> validate q = None ->
  query_attestations run q =
  Served (mk_Page (take (Pos.to_nat (q_limit q)) (answer store q))
    (if (Pos.to_nat (q_limit q) <? length (answer store q))%nat
     then cursor_of <$> last (take (Pos.to_nat (q_limit q)) (answer store q)) else None)).
Proof.
  intros [_ Hrun] Hv. unfold query_attestations. rewrite Hv. destruct (Hrun q Hv) as (r & -> & Hr).
  rewrite Hr. set (l := answer store q). set (n := Pos.to_nat (q_limit q)).
  assert (Hf : N.to_nat (fetch q) = S n) by (unfold fetch, n; lia). rewrite Hf.
  assert (Hlen : len (take (S n) l) = N.of_nat (min (S n) (length l))) by (unfold len; by rewrite length_take).
  rewrite Hlen. replace (fetch q) with (N.of_nat (S n)) by lia.
  replace (N.pos (q_limit q)) with (N.of_nat n) by (unfold n; lia).
  destruct (N.ltb_spec (N.of_nat (S n)) (N.of_nat (min (S n) (length l)))); [lia|].
  destruct (Nat.ltb_spec n (length l)) as [Hn|Hn].
  - destruct (N.ltb_spec (N.of_nat n) (N.of_nat (min (S n) (length l)))); [|lia].
    rewrite take_take. replace (min n (S n)) with n by lia.
    by destruct (last (take n l)).
  - destruct (N.ltb_spec (N.of_nat n) (N.of_nat (min (S n) (length l)))); [lia|].
    by rewrite !take_ge by lia.
Qed.

(** One turn of the walk. *)
Lemma next_page store run q out l :
  Serves store run -> validate q = None -> (forall z, last out = Some z -> admits q z = true) ->
  (l = None \/ l = q_after (resume q out)) ->
  let n := Pos.to_nat (q_limit q) in
  let rows := answer store (resume q out) in
  next run (mk_Pages (resume q out) false l) =
  if (n <? length rows)%nat
  then (inr (Some (take n rows)),
        mk_Pages (resume q (out ++ take n rows)) false (q_after (resume q (out ++ take n rows))))
  else (inr (Some rows), mk_Pages (resume q out) true l).
Proof.
  intros Hs Hv Hout Hl n rows. unfold next. simpl.
  rewrite (query_page store) by auto using validate_resume. simpl. rewrite resume_limit.
  fold n rows. destruct (Nat.ltb_spec n (length rows)) as [Hn|Hn]; [|by rewrite take_ge by lia].
  destruct (last (take n rows)) as [z|] eqn:Hz; simpl.
  - assert (Hzin : In z rows).
    { apply last_Some in Hz as [l1 Hz]. rewrite <- (take_drop n rows), Hz. rewrite !in_app_iff. simpl. auto. }
    apply sort_by_In, filter_In in Hzin as [_ Hza].
    case_bool_decide as Hc.
    + destruct Hl as [->|Hl]; [done|]. rewrite Hc in Hl. symmetry in Hl.
      by destruct (cursor_moves _ _ _ Hza Hl).
    + rewrite (resume_app q out _ z Hz). do 2 f_equal. unfold resume. by rewrite last_app, Hz.
  - apply last_None in Hz. apply (f_equal length) in Hz. rewrite length_take in Hz. simpl in Hz.
    unfold n in *. lia.
Qed.

(** The rows of the rest of the walk. *)
Lemma rest_rows q M store out k :
  NoDup (map attestation_id store) -> Permutation (List.filter (admits q) store) M ->
  out = take k (sort q M) -> answer store (resume q out) = drop k (sort q M).
Proof.
  intros Hnd Hp ->. set (l := sort q M).
  assert (Hnf : NoDup (map attestation_id (List.filter (admits q) store))) by (by apply NoDup_filter_ids).
  assert (HndM : NoDup (map attestation_id M)) by (by rewrite <- Hp).
  assert (Hadm : forall z, In z l -> admits q z = true).
  { intros z Hz. apply sort_by_In in Hz. rewrite <- Hp in Hz. by apply filter_In in Hz as [_ Hz]. }
  assert (Hl : l = sort q (List.filter (admits q) store)).
  { apply sort_by_perm_eq; eauto using before_asym, before_cotrans; [|by symmetry].
    intros a b Ha Hb. by apply (before_total _ M). }
  unfold answer, sort. rewrite resume_order.
  assert (Hlast : forall z, last (take k l) = Some z -> admits q z = true).
  { intros z Hz. apply Hadm. apply last_Some in Hz as [l1 Hz].
    rewrite <- (take_drop k l), Hz, !in_app_iff. simpl. auto. }
  rewrite (List.filter_ext _ _ (fun a => admits_resume q (take k l) a Hlast)).
  rewrite <- filter_filter_andb, sort_filter; eauto using before_asym, before_cotrans.
  2: { intros a b Ha Hb. by apply (before_total _ (List.filter (admits q) store)). }
  fold (dir_of q). change (sort_by (before (dir_of q))) with (sort q). rewrite <- Hl. unfold past.
  destruct (last (take k l)) as [z|] eqn:Hz; simpl.
  - apply filter_past_last; [|done]. by apply sort_strict.
  - apply last_None in Hz.
    assert (Hk : k = 0 \/ l = []) by (destruct k, l; auto; done).
    assert (Hid : forall m : list Attestation, List.filter (fun _ => true) m = m)
      by (induction m; simpl; congruence).
    rewrite Hid. destruct Hk as [->|E]; [done|]. rewrite E. by destruct k.
Qed.

(** The walk over directories that all hold the same matching rows: after [n] pages of
    what is left, and the turn that finds the walk done, it has returned every row. *)
Lemma all_resume q M n : forall stores runs k l,
  validate q = None -> Forall2 Serves stores runs ->
  Forall (fun store => Permutation (List.filter (admits q) store) M) stores ->
  (l = None \/ l = q_after (resume q (take k (sort q M)))) ->
  length M - k <= S n * Pos.to_nat (q_limit q) -> S (S n) <= length runs ->
  all runs (mk_Pages (resume q (take k (sort q M))) false l) (take k (sort q M)) = Some (inr (sort q M)).
Proof.
  induction n as [|n IH]; intros stores runs k l Hv Hs HM Hl Hn Hr.
  all: destruct Hs as [|store run stores runs Hrun Hs]; [simpl in Hr; lia|].
  all: apply Forall_cons in HM as [HM HMs].
  all: assert (Hlast : forall z, last (take k (sort q M)) = Some z -> admits q z = true).
  1, 3: intros z Hz; apply last_Some in Hz as [l1 Hz];
    assert (Hin : In z (sort q M)) by (rewrite <- (take_drop k (sort q M)), Hz, !in_app_iff; simpl; auto);
    apply sort_by_In in Hin; rewrite <- HM in Hin; by apply filter_In in Hin as [_ Hin].
  all: cbn [all]; rewrite (next_page store) by auto.
  all: rewrite (rest_rows q M store _ k) by (done || apply Hrun).
  all: assert (HL : length (sort q M) = length M) by (apply Permutation_length, sort_by_perm).
  all: destruct (Nat.ltb_spec (Pos.to_nat (q_limit q)) (length (drop k (sort q M)))) as [Hlt|Hge];
    rewrite length_drop in *.
  - lia.
  - destruct Hs; [simpl in Hr; lia|]. cbn [all]. unfold next; simpl. by rewrite take_drop.
  - rewrite !take_take_drop. apply (IH stores); auto. simpl in *. lia. simpl in *. lia.
  - destruct Hs; [simpl in Hr; lia|]. cbn [all]. unfold next; simpl. by rewrite take_drop.
Qed.

(** ** A walk while rows change *)

Lemma all_done runs q l out res : all runs (mk_Pages q true l) out = Some (inr res) -> res = out.
Proof. destruct runs as [|run runs]; [done|]. cbn. congruence. Qed.

Lemma sorted_snoc (R : Attestation -> Attestation -> Prop) out rows :
  StronglySorted R out -> StronglySorted R rows ->
  (forall a b, In a out -> In b rows -> R a b) -> StronglySorted R (out ++ rows).
Proof.
  intros. apply StronglySorted_app_2; try done. intros a b Ha Hb.
  apply list_elem_of_In in Ha, Hb. auto.
Qed.

Lemma past_all q out a b :
  StronglySorted (fun a b => before (dir_of q) a b = true) out ->
  In a out -> past q out b = true -> before (dir_of q) a b = true.
Proof.
  intros Hs Ha Hb. unfold past in Hb. destruct (last out) as [z|] eqn:Hz; simpl in Hb.
  - apply last_Some in Hz as [l1 ->]. apply in_app_iff in Ha as [Ha|[->|[]]]; [|done].
    eapply before_trans; [|exact Hb].
    apply (StronglySorted_app_1_elem_of (fun a b => before (dir_of q) a b = true) _ _ _ _ Hs);
      apply list_elem_of_In; simpl; auto.
  - apply last_None in Hz. by subst.
Qed.

Lemma all_changes q : forall runs stores l out res,
  validate q = None -> Forall2 Serves stores runs ->
  (l = None \/ l = q_after (resume q out)) ->
  StronglySorted (fun a b => before (dir_of q) a b = true) out ->
  (forall a, In a out -> admits q a = true) ->
  all runs (mk_Pages (resume q out) false l) out = Some (inr res) ->
  StronglySorted (fun a b => before (dir_of q) a b = true) res /\
  (forall a, In a res -> In a out \/ admits q a = true /\ exists store, In store stores /\ In a store) /\
  (forall a, admits q a = true -> (forall store, In store stores -> In a store) ->
     In a out \/ past q out a = true -> In a res).
Proof.
  induction runs as [|run runs IH]; intros stores l out res Hv Hs Hl Hso Ha Hall; [done|].
  inversion Hs as [|store ? stores' ? Hrun Hs']; subst. cbn [all] in Hall.
  assert (Hlast : forall z, last out = Some z -> admits q z = true).
  { intros z Hz. apply last_Some in Hz as [l1 ->]. apply Ha, in_app_iff. right. by left. }
  rewrite (next_page store) in Hall by auto.
  set (rows := answer store (resume q out)) in *. set (n := Pos.to_nat (q_limit q)) in *.
  assert (Hrows : forall a, In a rows <-> In a store /\ admits q a = true /\ past q out a = true).
  { intros a. unfold rows, answer, sort. rewrite sort_by_In, filter_In, admits_resume by done.
    rewrite andb_true_iff. tauto. }
  assert (Hsr : StronglySorted (fun a b => before (dir_of q) a b = true) rows).
  { unfold rows, answer, sort. rewrite resume_order. apply sort_strict, NoDup_filter_ids, Hrun. }
  destruct (Nat.ltb_spec n (length rows)) as [Hn|Hn].
  - assert (Htake : forall a, In a (take n rows) -> In a rows).
    { intros a Hin. rewrite <- (take_drop n rows). apply in_app_iff. by left. }
    pose proof (Hsr) as Hsplit. rewrite <- (take_drop n rows) in Hsplit.
    destruct (IH stores' (q_after (resume q (out ++ take n rows))) (out ++ take n rows) res)
      as (Hr1 & Hr2 & Hr3); auto.
    + apply sorted_snoc; [done|by eapply StronglySorted_app_1_l|].
      intros a b Hina Hinb. apply (past_all q out); [done..|]. by apply Hrows, Htake.
    + intros a Hin. apply in_app_iff in Hin as [Hin|Hin]; [auto|]. by apply Hrows, Htake.
    + split_and!; [done|..].
      * intros a Hin. apply Hr2 in Hin as [Hin|(? & store' & ? & ?)]; [|right; eauto using in_cons].
        apply in_app_iff in Hin as [Hin|Hin]; [by left|]. right.
        apply Htake, Hrows in Hin as (? & ? & _). split; [done|]. exists store. split; [by left|done].
      * intros a Hadm Hin Hwhere. apply Hr3; [done|intros; apply Hin; by right|].
        destruct Hwhere as [?|Hpast]; [left; apply in_app_iff; by left|].
        assert (Har : In a rows) by (apply Hrows; split_and!; [apply Hin; by left|done..]).
        rewrite <- (take_drop n rows) in Har. apply in_app_iff in Har as [Har|Har].
        -- left. apply in_app_iff. by right.
        -- right. unfold past. rewrite last_app.
           destruct (last (take n rows)) as [z|] eqn:Hz; simpl; [|done].
           apply last_Some in Hz as [l1 Hz].
           apply (StronglySorted_app_1_elem_of (fun a b => before (dir_of q) a b = true) _ _ _ _ Hsplit);
             apply list_elem_of_In; [rewrite Hz; apply in_app_iff; simpl; auto|done].
  - apply all_done in Hall as ->. split_and!.
    + apply sorted_snoc; [done..|]. intros a b Hina Hinb. apply (past_all q out); [done..|].
      by apply Hrows.
    + intros a Hin. apply in_app_iff in Hin as [?|Hin]; [by left|]. right.
      apply Hrows in Hin as (? & ? & _). split; [done|]. exists store. split; [by left|done].
    + intros a Hadm Hin [?|Hpast]; apply in_app_iff; [by left|]. right. apply Hrows.
      split_and!; [apply Hin; by left|done..].
Qed.

(** A walk over one directory, with turns enough for every row it holds. *)
Definition read_all (run : Exec) (store : list Attestation) (q : AttestationQuery)
    : option (list Attestation) :=
  match all (repeat run (S (S (length store)))) (pages q) [] with
  | Some (inr l) => Some l
  | _ => None
  end.

Lemma read_all_answer store run q :
  Serves store run -> validate q = None -> read_all run store q = Some (answer store q).
Proof.
  intros Hs Hv. unfold read_all.
  rewrite (all_resume q (List.filter (admits q) store) (length store) (repeat store (S (S (length store))))
             _ 0 None); auto.
  - generalize (S (S (length store))). intros m. induction m; simpl; by constructor.
  - apply Forall_forall. intros s Hin. apply list_elem_of_In, repeat_spec in Hin. by subst.
  - pose proof (len_filter_le (admits q) store). unfold len in *. pose proof (Pos2Nat.is_pos (q_limit q)). nia.
  - by rewrite repeat_length.
Qed.

(** ** Properties *)

Module QuSamples.
Definition scored (id dim : string) (at_ : Z) : Attestation :=
  row id "k" "scores" at_ (Object [("dimension", Str dim)]) [].
Definition r1 := scored "a1" "trust:x" 10.
Definition r2 := scored "a2" "trust:y" 20.
Definition r3 := scored "a3" "other:z" 30.
Definition r4 := scored "a4" "trust:x" 20.
Definition r5 := scored "a5" "trust:q" 40.
Definition late := scored "a0" "trust:x" 99.
Definition store : list Attestation := [r1; r2; r3; r4; r5].
Definition q : AttestationQuery := dimension_prefix (by_key "k" 2) "trust:".
End QuSamples.

(** The walk by hand: two pages of two rows, newest first, and the turn that ends it. *)
Example walk_pages :
  all (repeat (memory_exec QuSamples.store) 3) (pages QuSamples.q) []
  = Some (inr [QuSamples.r5; QuSamples.r4; QuSamples.r2; QuSamples.r1]).
Proof. vm_compute. reflexivity. Qed.

(** C30. A walk over every page returns every matching row, once, in order, and ends: over
    directories that keep the executor's contract and hold the same matching rows [M] at
    every turn, [n] pages of the query's limit are enough for [n * limit] rows, and one
    more turn finds the walk done. *)
Theorem pages_complete (q : AttestationQuery) (M : list Attestation) (n : nat)
    (stores : list (list Attestation)) (runs : list Exec) :
  validate q = None -> Forall2 Serves stores runs ->
  Forall (fun store => Permutation (List.filter (admits q) store) M) stores ->
  1 <= n -> length M <= n * Pos.to_nat (q_limit q) -> length runs = S n ->
  all runs (pages q) [] = Some (inr (sort q M)).
Proof.
  intros Hv Hs HM Hn HL Hr. destruct n as [|n]; [lia|].
  apply (all_resume q M n stores runs 0 None); auto; lia.
Qed.

Lemma pages_complete_witness :
  all (repeat (memory_exec QuSamples.store) 3) (pages QuSamples.q) []
  = Some (inr (sort QuSamples.q [QuSamples.r1; QuSamples.r2; QuSamples.r4; QuSamples.r5])).
Proof.
  assert (Hs : Serves QuSamples.store (memory_exec QuSamples.store)).
  { apply memory_exec_serves. vm_compute. repeat constructor; set_solver. }
  apply (pages_complete QuSamples.q _ 2 (repeat QuSamples.store 3)).
  - vm_compute; reflexivity.
  - simpl. repeat (eapply List.Forall2_cons; [exact Hs|]). apply List.Forall2_nil.
  - assert (Hp : List.filter (admits QuSamples.q) QuSamples.store
                        = [QuSamples.r1; QuSamples.r2; QuSamples.r4; QuSamples.r5])
      by (vm_compute; reflexivity).
    repeat (apply List.Forall_cons; [by rewrite Hp|]). apply List.Forall_nil.
  - lia.
  - simpl. lia.
  - reflexivity.
Defined.

(** C31. A walk over a directory that changes between pages never returns a row twice nor
    out of order, returns only rows the query admits that some turn's directory held, and
    misses no admitted row that every turn's directory held. *)
Theorem walk_over_changes (q : AttestationQuery) (stores : list (list Attestation))
    (runs : list Exec) (res : list Attestation) :
  validate q = None -> Forall2 Serves stores runs ->
  all runs (pages q) [] = Some (inr res) ->
  StronglySorted (fun a b => before (direction (q_order q)) a b = true) res /\
  (forall a, In a res -> admits q a = true /\ exists store, In store stores /\ In a store) /\
  (forall a, admits q a = true -> (forall store, In store stores -> In a store) -> In a res).
Proof.
  intros Hv Hs Hall. destruct (all_changes q runs stores None [] res) as (H1 & H2 & H3); auto.
  - constructor.
  - split_and!; [done|..].
    + intros a Ha. by destruct (H2 a Ha) as [[]|?].
    + intros a Ha Hin. apply H3; [done..|]. by right.
Qed.

Lemma walk_over_changes_witness :
  all [memory_exec QuSamples.store; memory_exec (QuSamples.late :: QuSamples.store);
       memory_exec QuSamples.store] (pages QuSamples.q) []
  = Some (inr [QuSamples.r5; QuSamples.r4; QuSamples.r2; QuSamples.r1]) /\
  StronglySorted (fun a b => before Desc a b = true)
    [QuSamples.r5; QuSamples.r4; QuSamples.r2; QuSamples.r1].
Proof.
  assert (Hall : all [memory_exec QuSamples.store; memory_exec (QuSamples.late :: QuSamples.store);
                      memory_exec QuSamples.store] (pages QuSamples.q) []
                 = Some (inr [QuSamples.r5; QuSamples.r4; QuSamples.r2; QuSamples.r1]))
    by (vm_compute; reflexivity).
  split; [exact Hall|].
  apply (walk_over_changes QuSamples.q
           [QuSamples.store; QuSamples.late :: QuSamples.store; QuSamples.store] _ _
           eq_refl) in Hall as [Hs _]; [exact Hs|].
  repeat (eapply List.Forall2_cons; [apply memory_exec_serves; vm_compute; repeat constructor; set_solver|]).
  apply List.Forall2_nil.
Defined.

(** A fold over the pages of an [as_of t] query replays: whatever rows dated after [t]
    land before or between the pages, and in whatever order the directory holds its rows,
    the walk returns the same list. *)
Theorem as_of_replay (q : AttestationQuery) (t : instant) (held : list Attestation) (n : nat)
    (stores : list (list Attestation)) (runs : list Exec) :
  validate q = None -> Forall2 Serves stores runs ->
  Forall (fun store => exists landed, Permutation store (landed ++ held) /\
            forall a, In a landed -> (t < asserted_at a)%Z) stores ->
  1 <= n -> length held <= n * Pos.to_nat (q_limit q) -> length runs = S n ->
  all runs (pages (as_of q t)) [] = Some (inr (answer held (as_of q t))).
Proof.
  intros Hv Hs Hst Hn HL Hr. unfold answer.
  apply (all_resume (as_of q t) _ (n - 1) stores runs 0 None); auto.
  - eapply Forall_impl; [exact Hst|]. intros store (landed & Hp & Hl). cbv beta.
    rewrite (perm_filter _ _ _ Hp), List.filter_app.
    assert (Hnil : List.filter (admits (as_of q t)) landed = []).
    { clear Hp. induction landed as [|a landed IH]; [done|]. simpl.
      assert (Ha : admits (as_of q t) a = false).
      { unfold admits. simpl. specialize (Hl a (or_introl eq_refl)).
        destruct (Z.leb_spec (asserted_at a) t); [lia|]. by rewrite ?andb_false_r. }
      rewrite Ha. apply IH. intros. apply Hl. by right. }
    by rewrite Hnil.
  - pose proof (len_filter_le (admits (as_of q t)) held). unfold len in *.
    replace (S (n - 1)) with n by lia. change (q_limit (as_of q t)) with (q_limit q). lia.
  - lia.
Qed.

Lemma as_of_replay_witness :
  all [memory_exec QuSamples.store; memory_exec (QuSamples.late :: QuSamples.store);
       memory_exec (QuSamples.late :: QuSamples.store); memory_exec QuSamples.store]
    (pages (as_of QuSamples.q 50%Z)) []
  = Some (inr (answer QuSamples.store (as_of QuSamples.q 50%Z))).
Proof.
  assert (Hl : forall a, In a [QuSamples.late] -> (50 < asserted_at a)%Z).
  { intros a [<-|[]]. reflexivity. }
  apply (as_of_replay QuSamples.q 50%Z QuSamples.store 3
           [QuSamples.store; QuSamples.late :: QuSamples.store;
            QuSamples.late :: QuSamples.store; QuSamples.store]).
  - reflexivity.
  - repeat (eapply List.Forall2_cons; [apply memory_exec_serves; vm_compute; repeat constructor; set_solver|]).
    apply List.Forall2_nil.
  - repeat apply List.Forall_cons; [..|apply List.Forall_nil].
    + exists []. split; [reflexivity|by intros].
    + exists [QuSamples.late]. split; [reflexivity|exact Hl].
    + exists [QuSamples.late]. split; [reflexivity|exact Hl].
    + exists []. split; [reflexivity|by intros].
  - lia.
  - simpl. lia.
  - reflexivity.
Defined.

(** An error is not empty: a page is served exactly when the query is valid, the
    directory answered, and it answered with at most one row past the page; then the page
    holds the first [limit] rows and carries a cursor exactly when there was a row past it.
    Every other outcome is [NotServed] with the error, refused before any statement runs
    where the query is invalid, or where the directory does not serve the read. *)
Theorem served_exactly (run : Exec) (q : AttestationQuery) :
  match query_attestations run q with
  | Served p =>
      validate q = None /\ exists r, run q = inr r /\ (len (qr_rows r) <= fetch q)%N /\
      page_rows p = take (Pos.to_nat (q_limit q)) (qr_rows r) /\
      (is_Some (page_next p) <-> len (qr_rows r) = fetch q) /\
      (page_next p = None -> page_rows p = qr_rows r)
  | NotServed (Refused e) =>
      validate q = Some e \/ (validate q = None /\ run q = inl e /\ exists m, e = Unsupported m)
  | NotServed (Fault e) =>
      validate q = None /\
      ((run q = inl e /\ forall m, e <> Unsupported m) \/
       exists r, run q = inr r /\ (fetch q < len (qr_rows r))%N)
  end.
Proof.
  unfold query_attestations. destruct (validate q) as [e|]; [by left|].
  destruct (run q) as [e|r] eqn:Er.
  { destruct e; try (split; [done|]; left; split; [done|]; intros m; discriminate). right. eauto. }
  destruct (N.ltb_spec (fetch q) (len (qr_rows r))) as [Hf|Hf]; [split; eauto|].
  assert (Hlt : length (qr_rows r) = N.to_nat (len (qr_rows r))) by (unfold len; lia).
  destruct (N.ltb_spec (Npos (q_limit q)) (len (qr_rows r))) as [Hn|Hn]; simpl.
  - split; [done|]. exists r. split_and!; [done..| |].
    + unfold fetch in *. split; [intros _; lia|intros _].
      destruct (last _) eqn:El; [eauto|]. apply last_None, (f_equal length) in El.
      rewrite length_take in El. simpl in El. lia.
    + destruct (last _) eqn:El; [done|]. apply last_None, (f_equal length) in El.
      rewrite length_take in El. simpl in El. lia.
  - split; [done|]. exists r. split_and!; [done..| | |].
    + by rewrite take_ge by lia.
    + unfold fetch in *. split; [by intros []|lia].
    + done.
Qed.

(** The served pages behind a walk's rows: one per turn but the last, the last of them
    without a cursor and no other, each turn's read served. *)
Definition walk_pages_ok (runs : list Exec) (ps : list Page) : Prop :=
  length ps < length runs /\
  Forall2 (fun run p => exists q, query_attestations run q = Served p) (take (length ps) runs) ps /\
  (exists front z, ps = front ++ [z] /\ page_next z = None /\
     Forall (fun p => is_Some (page_next p)) front).

(** A walk that returns rows was served at every turn: its rows are exactly the rows of
    the pages it was served, the walk ended because the last page said it was the last,
    and a failed or refused read at any turn is the walk's error. *)
Theorem walk_served (runs : list Exec) (q : AttestationQuery) (res : list Attestation) :
  (all runs (pages q) [] = Some (inr res) ->
   exists ps, walk_pages_ok runs ps /\ res = concat (map page_rows ps)) /\
  (forall run runs' p out r, pg_done p = false ->
     query_attestations run (pg_query p) = NotServed r ->
     all (run :: runs') p out = Some (inl (into_error r))).
Proof.
  split.
  - assert (Hgen : forall runs p out, pg_done p = false -> all runs p out = Some (inr res) ->
              exists ps, walk_pages_ok runs ps /\ res = out ++ concat (map page_rows ps)).
    { clear runs q. induction runs as [|run runs IH]; intros p out Hd Hall; [done|].
      cbn [all] in Hall. unfold next in Hall. rewrite Hd in Hall.
      destruct (query_attestations run (pg_query p)) as [pg|r] eqn:Eq; simpl in Hall; [|done].
      destruct (page_next pg) as [c|] eqn:En.
      - case_bool_decide; [done|]. apply IH in Hall as (ps & (Hl & Hf & Hz) & ->); [|done].
        exists (pg :: ps). split; [|simpl; by rewrite app_assoc].
        split_and!; [simpl; lia|simpl; constructor; eauto|].
        destruct Hz as (front & z & -> & Hz & Hfr). exists (pg :: front), z. split_and!; auto.
      - assert (exists run' runs', runs = run' :: runs') as (run' & runs' & ->)
          by (destruct runs; [done|eauto]).
        apply all_done in Hall. subst. exists [pg]. split; [|simpl; by rewrite app_nil_r].
        split_and!; [simpl; lia|simpl; repeat constructor; eauto|]. exists [], pg. by split_and!. }
    intros Hall. by apply Hgen in Hall.
  - intros run runs' p out r Hd Hq. cbn [all]. unfold next. rewrite Hd, Hq. by destruct r.
Qed.

Lemma walk_served_witness :
  exists ps, walk_pages_ok (repeat (memory_exec QuSamples.store) 3) ps /\
    [QuSamples.r5; QuSamples.r4; QuSamples.r2; QuSamples.r1] = concat (map page_rows ps).
Proof.
  assert (Hall : all (repeat (memory_exec QuSamples.store) 3) (pages QuSamples.q) []
                 = Some (inr [QuSamples.r5; QuSamples.r4; QuSamples.r2; QuSamples.r1]))
    by (vm_compute; reflexivity).
  exact (proj1 (walk_served _ _ _) Hall).
Defined.

(** A directory that ignores the cursor cannot hold a walk: a page that mints the
    cursor the page before it minted is an error, not another page. *)
Theorem stuck_cursor_stops (run run' : Exec) (runs : list Exec) (q : AttestationQuery)
    (out : list Attestation) (p p' : Page) (c : AttestationCursor) :
  query_attestations run q = Served p -> page_next p = Some c ->
  query_attestations run' (after q (Some c)) = Served p' -> page_next p' = Some c ->
  all (run :: run' :: runs) (pages q) out = Some (inl (Backend (CursorStuck c))).
Proof.
  intros Hq Hc Hq' Hc'. cbn [all]. unfold next at 1. simpl. rewrite Hq. simpl. rewrite Hc. simpl.
  unfold next. simpl. rewrite Hq'. simpl. rewrite Hc'. by rewrite bool_decide_eq_true_2.
Qed.

Definition ignores_cursor : Exec := fun q => memory_exec QuSamples.store (after q None).

Lemma stuck_cursor_stops_witness :
  all [ignores_cursor; ignores_cursor] (pages QuSamples.q) []
  = Some (inl (Backend (CursorStuck (cursor_of QuSamples.r4)))).
Proof.
  apply (stuck_cursor_stops ignores_cursor ignores_cursor [] QuSamples.q []
           (mk_Page [QuSamples.r5; QuSamples.r4] (Some (cursor_of QuSamples.r4)))
           (mk_Page [QuSamples.r5; QuSamples.r4] (Some (cursor_of QuSamples.r4))));
    vm_compute; reflexivity.
Defined.
