(* ===== verification/QuerySql.v ===== *)
(** * The statement behind the bounded read

    [render_sql] of [src/src/federation/attestation_query.rs] and [dimension_prefix_bounds]
    of [src/src/ceg/list/federation.rs].

    [render_sql] pushes binds and predicate parts in order; here a part is a [Clause], the
    plan is the list of parts with the binds, and the statement's text is the clauses
    printed for a dialect. A clause's reading is the SQL comparison it spells, with NULL
    as not true, on text columns in byte order and [asserted_at] as an instant. The
    generated columns [dimension] and [cohort_target] are what the schema says: the text
    the database extracts from the envelope, a parameter with its documented laws. *)

From Stdlib Require Import ZArith NArith Lia Ascii String.
From stdpp Require Import base list strings gmap sorting.
From S2P Require Import Prelude RustStd Utf8 Json Precedence Query.

Open Scope string_scope.
Open Scope list_scope.
Open Scope persist_scope.

(** ** [dimension_prefix_bounds] *)

(** The loop over the prefix's bytes, last byte first. *)
Fixpoint bump (rev_bytes : list ascii) : option (list ascii) :=
  match rev_bytes with
  | [] => None
  | last :: rest =>
      if (N_of_ascii last =? 255)%N then bump rest
      else Some (ascii_of_N (N_of_ascii last + 1) :: rest)
  end.

Definition dimension_prefix_bounds (prefix : string) : option (string * string) :=
  if prefix =s "" then None
  else
    match bump (rev (list_ascii_of_string prefix)) with
    | None => None
    | Some r =>
        let upper := string_of_list_ascii (rev r) in
        if utf8_valid upper then Some (prefix, upper) else None
    end.

(** ** The plan *)

Module Dialect.
Inductive t := Sqlite | Postgres.
End Dialect.

Inductive Bind :=
| BText (s : string)
| BTime (t : instant)
| BInt (n : Z).

Record Statement := mk_Statement { st_sql : string; st_binds : list Bind }.

(** A text column, and whether the part compares it with the dialect's byte collation. *)
Inductive Col := AttestingKey | AttestedKey | DimCollated | DimBare | TypeCollated | TypeBare
               | CohortScope | CohortTarget.

(** One part of the WHERE clause; a number is the placeholder of a bind, from 1. *)
Inductive Clause :=
| ColEq (c : Col) (ph : N)
| TierIs (lit : string)
| ColRange (c : Col) (a b : N)
| SubstrEq (c : Col) (n : N) (ph : N)
| ColIn (c : Col) (phs : list N)
| NullOrNotIn (phs : list N)
| AsOfClause (ph : N)
| PastClause (d : Direction) (a b : N).

(** [binds] and [parts], as the code fills them. *)
Notation plan_st := (list Bind * list Clause)%type.

(** [binds.push(b)], and its placeholder. *)
Definition push (b : Bind) (binds : list Bind) : list Bind * N := (binds ++ [b], len (binds ++ [b])).

Fixpoint push_texts (xs : list string) (binds : list Bind) : list Bind * list N :=
  match xs with
  | [] => (binds, [])
  | x :: xs' =>
      let '(binds, ph) := push (BText x) binds in
      let '(binds, phs) := push_texts xs' binds in
      (binds, ph :: phs)
  end.

Definition part_eq (c : Col) (o : option string) (st : plan_st) : plan_st :=
  match o with
  | None => st
  | Some k => let '(binds, ph) := push (BText k) (fst st) in (binds, snd st ++ [ColEq c ph])
  end.

(** A byte-prefix part: the half-open range, or [substr] where no bound is representable. *)
Definition part_prefix (collated bare : Col) (p : string) (st : plan_st) : plan_st :=
  match dimension_prefix_bounds p with
  | Some (lo, hi) =>
      let '(binds, a) := push (BText lo) (fst st) in
      let '(binds, b) := push (BText hi) binds in
      (binds, snd st ++ [ColRange collated a b])
  | None =>
      let '(binds, ph) := push (BText p) (fst st) in
      (binds, snd st ++ [SubstrEq bare (N.of_nat (char_count p)) ph])
  end.

Definition part_dimension (q : AttestationQuery) (st : plan_st) : plan_st :=
  match q_dimension q with
  | Any => st
  | Prefix p => part_prefix DimCollated DimBare p st
  | Exact x => part_eq DimCollated (Some x) st
  | AnyOf xs => let '(binds, phs) := push_texts xs (fst st) in (binds, snd st ++ [ColIn DimCollated phs])
  end.

Definition part_scope (q : AttestationQuery) (st : plan_st) : plan_st :=
  match q_scope q with
  | None => st
  | Some s => part_eq CohortTarget (sf_cohort_target s) (part_eq CohortScope (Some (sf_cohort_scope s)) st)
  end.

Definition part_types (q : AttestationQuery) (st : plan_st) : plan_st :=
  if is_nil (q_types q) then st
  else let '(binds, phs) := push_texts (q_types q) (fst st) in (binds, snd st ++ [ColIn TypeBare phs]).

Definition part_type_prefix (q : AttestationQuery) (st : plan_st) : plan_st :=
  match q_type_prefix q with None => st | Some p => part_prefix TypeCollated TypeBare p st end.

Definition part_excluded (q : AttestationQuery) (st : plan_st) : plan_st :=
  if is_nil (q_excluded_dimensions q) then st
  else let '(binds, phs) := push_texts (q_excluded_dimensions q) (fst st) in
       (binds, snd st ++ [NullOrNotIn phs]).

Definition part_as_of (q : AttestationQuery) (st : plan_st) : plan_st :=
  match q_as_of q with
  | None => st
  | Some t => let '(binds, ph) := push (BTime t) (fst st) in (binds, snd st ++ [AsOfClause ph])
  end.

Definition part_after (q : AttestationQuery) (st : plan_st) : plan_st :=
  match q_after q with
  | None => st
  | Some c =>
      let '(binds, a) := push (BTime (last_asserted_at c)) (fst st) in
      let '(binds, b) := push (BText (last_attestation_id c)) binds in
      (binds, snd st ++ [PastClause (direction (q_order q)) a b])
  end.

Definition plan_where (q : AttestationQuery) : plan_st :=
  let st := part_eq AttestedKey (q_to q) (part_eq AttestingKey (q_by q) ([], [])) in
  let st := (fst st, snd st ++ [TierIs (stored (q_tier q))]) in
  part_after q (part_as_of q (part_excluded q (part_type_prefix q (part_types q
    (part_scope q (part_dimension q st)))))).

(** The plan with its LIMIT bind and placeholder. *)
Definition plan (q : AttestationQuery) : list Bind * list Clause * N :=
  let st := plan_where q in
  let '(binds, limit) := push (BInt (Zpos (q_limit q) + 1)) (fst st) in
  (binds, snd st, limit).

(** ** Its text *)

Section Print.
Context (d : Dialect.t) (pin : string).

Definition ph_text (n : N) : string :=
  match d with Dialect.Sqlite => "?" +:+ fmt_N n | Dialect.Postgres => "$" +:+ fmt_N n end.

(** A string with double quotes around ["C"]. *)
Definition collate_c : string := " COLLATE " +:+ String "034" ("C" +:+ String "034" "").

Definition collated (name : string) : string :=
  match d with Dialect.Sqlite => name | Dialect.Postgres => name +:+ collate_c end.

Definition id_text : string :=
  match d with
  | Dialect.Sqlite => "attestation_id"
  | Dialect.Postgres => "attestation_id::text" +:+ collate_c
  end.

Definition col_text (c : Col) : string :=
  match c with
  | AttestingKey => "attesting_key_id"
  | AttestedKey => "attested_key_id"
  | DimCollated => collated "dimension"
  | DimBare => "dimension"
  | TypeCollated => collated "attestation_type"
  | TypeBare => "attestation_type"
  | CohortScope => "cohort_scope"
  | CohortTarget => "cohort_target"
  end.

Definition clause_text (c : Clause) : string :=
  match c with
  | ColEq c ph => col_text c +:+ " = " +:+ ph_text ph
  | TierIs lit => "tier = '" +:+ lit +:+ "'"
  | ColRange c a b =>
      "(" +:+ col_text c +:+ " >= " +:+ ph_text a +:+ " AND " +:+ col_text c +:+ " < " +:+ ph_text b +:+ ")"
  | SubstrEq c n ph => "substr(" +:+ col_text c +:+ ", 1, " +:+ fmt_N n +:+ ") = " +:+ ph_text ph
  | ColIn c phs =>
      col_text c +:+ " IN (" +:+ (if is_nil phs then "NULL" else join ", " (map ph_text phs)) +:+ ")"
  | NullOrNotIn phs => "(dimension IS NULL OR dimension NOT IN (" +:+ join ", " (map ph_text phs) +:+ "))"
  | AsOfClause ph => pin +:+ "asserted_at <= " +:+ ph_text ph
  | PastClause dir a b =>
      "(" +:+ pin +:+ "asserted_at, " +:+ id_text +:+ ") " +:+
      (match dir with Desc => "<" | Asc => ">" end) +:+
      " (" +:+ ph_text a +:+ ", " +:+ ph_text b +:+ ")"
  end.
End Print.

Definition dir_text (d : Direction) : string := match d with Desc => "DESC" | Asc => "ASC" end.

Definition pin_of (q : AttestationQuery) (d : Dialect.t) : string :=
  match d with
  | Dialect.Sqlite => if seeks_narrow_index q then "+" else ""
  | Dialect.Postgres => ""
  end.

Definition render_sql (q : AttestationQuery) (d : Dialect.t) (table columns : string) : Statement :=
  let pin := pin_of q d in
  let '(binds, parts, limit) := plan q in
  let dir := dir_text (direction (q_order q)) in
  mk_Statement
    ("SELECT " +:+ columns +:+ " FROM " +:+ table +:+ " WHERE " +:+
     join " AND " (map (clause_text d pin) parts) +:+
     " ORDER BY " +:+ pin +:+ "asserted_at " +:+ dir +:+ ", " +:+ id_text d +:+ " " +:+ dir +:+
     " LIMIT " +:+ ph_text d limit)
    binds.

(** ** The reading of a statement *)

(** [json_extract(envelope, '$.k')] and [envelope->>'k'] as text: a string is itself, a
    JSON null (like an absent member) is NULL, any other value is its own text. *)
Class SqlText := {
  extract_text : Value -> option string;
  extract_str : forall s, extract_text (Str s) = Some s;
  extract_null : extract_text Null = None;
  extract_bool : forall b, is_Some (extract_text (Bool b));
}.

(** Booleans as postgres spells them; arrays, objects and numbers as one text. *)
Definition sample_text (v : Value) : option string :=
  match v with
  | Str s => Some s
  | Null => None
  | Bool true => Some "true"
  | Bool false => Some "false"
  | _ => Some "?"
  end.

#[export] Instance sql_text_sample : SqlText.
Proof. refine {| extract_text := sample_text |}; [done|done|]. intros []; simpl; eauto. Defined.

Section Reading.
Context `{SqlText}.

Definition member_text (env : Value) (k : string) : option string := get env k ≫= extract_text.

(** The generated column [cohort_target]: COALESCE over the four members. *)
Fixpoint coalesce (env : Value) (ks : list string) : option string :=
  match ks with
  | [] => None
  | k :: ks' => match member_text env k with Some s => Some s | None => coalesce env ks' end
  end.

Definition col_value (a : Attestation) (c : Col) : option string :=
  match c with
  | AttestingKey => Some (attesting_key_id a)
  | AttestedKey => Some (attested_key_id a)
  | DimCollated | DimBare => member_text (attestation_envelope a) "dimension"
  | TypeCollated | TypeBare => Some (Json.attestation_type a)
  | CohortScope => Some (cohort_scope a)
  | CohortTarget => coalesce (attestation_envelope a) COHORT_TARGET_KEYS
  end.

Definition bind_at (binds : list Bind) (ph : N) : option Bind := binds !! N.to_nat (ph - 1).
Definition text_at (binds : list Bind) (ph : N) : option string :=
  match bind_at binds ph with Some (BText s) => Some s | _ => None end.
Definition time_at (binds : list Bind) (ph : N) : option instant :=
  match bind_at binds ph with Some (BTime t) => Some t | _ => None end.

(** A comparison of two operands, not true when either is NULL. *)
Definition cmp2 {A B} (f : A -> B -> bool) (x : option A) (y : option B) : bool :=
  match x, y with Some x, Some y => f x y | _, _ => false end.

Definition holds (binds : list Bind) (a : Attestation) (c : Clause) : bool :=
  match c with
  | ColEq c ph => cmp2 String.eqb (col_value a c) (text_at binds ph)
  | TierIs lit => tier a =s lit
  | ColRange c x y =>
      cmp2 (fun v lo => negb (v <s lo)) (col_value a c) (text_at binds x)
      && cmp2 String.ltb (col_value a c) (text_at binds y)
  | SubstrEq c n ph => cmp2 (fun v p => take_chars (N.to_nat n) v =s p) (col_value a c) (text_at binds ph)
  | ColIn c phs => existsb (fun ph => cmp2 String.eqb (col_value a c) (text_at binds ph)) phs
  | NullOrNotIn phs =>
      match col_value a DimBare with
      | None => true
      | Some d => forallb (fun ph => cmp2 (fun d x => negb (d =s x)) (Some d) (text_at binds ph)) phs
      end
  | AsOfClause ph => cmp2 Z.leb (Some (asserted_at a)) (time_at binds ph)
  | PastClause dir x y =>
      let here := Some (asserted_at a) in
      let id := Some (attestation_id a) in
      match dir with
      | Desc => cmp2 Z.ltb here (time_at binds x)
                || (cmp2 Z.eqb here (time_at binds x) && cmp2 String.ltb id (text_at binds y))
      | Asc => cmp2 Z.ltb (time_at binds x) here
               || (cmp2 Z.eqb (time_at binds x) here && cmp2 String.ltb (text_at binds y) id)
      end
  end.
End Reading.

(** ** Prefix ranges *)

Lemma ascii_compare_lt a b : Ascii.compare a b = Lt <-> (N_of_ascii a < N_of_ascii b)%N.
Proof. unfold Ascii.compare. apply N.compare_lt_iff. Qed.

Lemma string_ltb_cons a s b t :
  (String a s <s String b t) = true <->
  (N_of_ascii a < N_of_ascii b)%N \/ (a = b /\ (s <s t) = true).
Proof.
  unfold String.ltb. cbn [String.compare]. destruct (Ascii.compare a b) eqn:E.
  - apply ascii_compare_eq in E as ->. split; [tauto|]. intros [?|[_ ?]]; [lia|done].
  - rewrite ascii_compare_lt in E. tauto.
  - unfold Ascii.compare in E. rewrite N.compare_gt_iff in E.
    split; [done|]. intros [?|[-> _]]; lia.
Qed.

Lemma N_of_ascii_bound a : (N_of_ascii a < 256)%N.
Proof. apply N_ascii_bounded. Qed.

Lemma starts_with_cons a p b d :
  starts_with (String a p) (String b d) = true <-> a = b /\ starts_with p d = true.
Proof.
  rewrite !starts_with_iff. setoid_rewrite app_cons. naive_solver.
Qed.

(** The loop read from the front: the rest is bumped where it can be. *)
Fixpoint succ_prefix (l : list ascii) : option (list ascii) :=
  match l with
  | [] => None
  | a :: l' =>
      match succ_prefix l' with
      | Some h => Some (a :: h)
      | None => if (N_of_ascii a =? 255)%N then None else Some [ascii_of_N (N_of_ascii a + 1)]
      end
  end.

Lemma bump_snoc r a :
  bump (r ++ [a]) = match bump r with
                    | Some r' => Some (r' ++ [a])
                    | None => if (N_of_ascii a =? 255)%N then None
                              else Some [ascii_of_N (N_of_ascii a + 1)]
                    end.
Proof. induction r as [|b r IH]; simpl; [done|]. by destruct (N_of_ascii b =? 255)%N. Qed.

Lemma bump_rev l : (@rev ascii) <$> bump (rev l) = succ_prefix l.
Proof.
  induction l as [|a l IH]; simpl; [done|]. rewrite bump_snoc, <- IH.
  destruct (bump (rev l)) as [r|]; simpl; [by rewrite rev_app_distr|]. by destruct (_ =? _)%N.
Qed.

(** Below the bumped prefix and not below the prefix is having the prefix; a prefix of
    255s only has no bound and needs none. *)
Lemma succ_prefix_range l d :
  match succ_prefix l with
  | Some h => starts_with (string_of_list_ascii l) d = true <->
      (d <s string_of_list_ascii l) = false /\ (d <s string_of_list_ascii h) = true
  | None => starts_with (string_of_list_ascii l) d = true <-> (d <s string_of_list_ascii l) = false
  end.
Proof.
  revert d. induction l as [|a l IH]; intros d.
  { simpl. split; [|done]. by destruct d. }
  cbn [succ_prefix string_of_list_ascii].
  assert (Hempty : starts_with (String a (string_of_list_ascii l)) "" = false) by done.
  destruct d as [|b d].
  { rewrite Hempty. destruct (succ_prefix l); [|destruct (_ =? _)%N]; cbn [string_of_list_ascii];
      split; try done; by intros [? _]. }
  specialize (IH d). pose proof (N_of_ascii_bound b).
  destruct (succ_prefix l) as [h|]; cbn [string_of_list_ascii].
  - rewrite starts_with_cons, IH, <- !not_true_iff_false, !string_ltb_cons. split.
    + intros [-> [Hn Hh]]. split; [|tauto]. intros [?|[_ ?]]; [lia|done].
    + intros [Hn Hh]. assert (a = b) as ->.
      { destruct Hh as [?|[-> _]]; [|done]. exfalso. tauto. }
      split; [done|]. split; [tauto|]. destruct Hh as [?|[_ ?]]; [lia|done].
  - pose proof (N_of_ascii_bound a).
    destruct (N.eqb_spec (N_of_ascii a) 255) as [E255|E255]; cbn [string_of_list_ascii];
      rewrite starts_with_cons, IH, <- !not_true_iff_false, !string_ltb_cons.
    + split; [intros [-> Hn] [?|[_ ?]]; [lia|done]|]. intros Hn. assert (a = b) as ->.
      { assert (Eab : N_of_ascii a = N_of_ascii b) by lia. apply (f_equal ascii_of_N) in Eab.
        by rewrite !ascii_N_embedding in Eab. }
      tauto.
    + rewrite N_ascii_embedding by lia. split.
      * intros [-> Hn]. split; [|left; lia]. intros [?|[_ ?]]; [lia|done].
      * intros [Hn Hh]. assert (a = b) as ->.
        { assert (N_of_ascii b < N_of_ascii a + 1)%N.
          { destruct Hh as [?|[-> Hx]]; [done|]. unfold String.ltb in Hx. by destruct d. }
          assert (Eab : N_of_ascii a = N_of_ascii b) by lia. apply (f_equal ascii_of_N) in Eab.
          by rewrite !ascii_N_embedding in Eab. }
        tauto.
Qed.

Lemma prefix_bounds_shape p lo hi :
  dimension_prefix_bounds p = Some (lo, hi) ->
  lo = p /\ exists h, succ_prefix (list_ascii_of_string p) = Some h /\ hi = string_of_list_ascii h.
Proof.
  unfold dimension_prefix_bounds. destruct (p =s ""); [done|].
  rewrite <- bump_rev. destruct (bump _) as [r|]; [|done]. case_if; [|done]. intros [= <- <-].
  simpl. eauto.
Qed.

(** ** The plan's meaning, part by part *)

(** The strings of a query and of a row are Rust strings, and the members the schema
    extracts are strings, null or absent. *)
Definition query_text_ok (q : AttestationQuery) : bool :=
  match q_dimension q with Prefix p => utf8_valid p | _ => true end
  && is_none_or (q_type_prefix q) utf8_valid.

Definition plain_member (env : Value) (k : string) : bool :=
  match get env k with None | Some Null | Some (Str _) => true | _ => false end.

Definition row_text_ok (a : Attestation) : bool :=
  utf8_valid (Json.attestation_type a)
  && is_none_or (envelope_dimension (attestation_envelope a)) utf8_valid
  && forallb (plain_member (attestation_envelope a)) ("dimension" :: COHORT_TARGET_KEYS).

Section Meaning.
Context `{SqlText}.

Lemma member_plain env k : plain_member env k = true -> member_text env k = get_str env k.
Proof.
  unfold plain_member, member_text, get_str. destruct (get env k) as [[]|]; try done; intros _; simpl.
  - apply extract_null.
  - apply extract_str.
Qed.

Lemma coalesce_plain env ks :
  forallb (plain_member env) ks = true -> coalesce env ks = find_str env ks.
Proof.
  induction ks as [|k ks IH]; simpl; [done|]. rewrite andb_true_iff. intros [Hk Hks].
  rewrite (member_plain _ _ Hk). by destruct (get_str env k); [|apply IH].
Qed.

Lemma bind_at_pushed binds b extra : bind_at ((binds ++ [b]) ++ extra) (len (binds ++ [b])) = Some b.
Proof.
  unfold bind_at, len. rewrite length_app. simpl.
  replace (N.to_nat (N.of_nat (length binds + 1) - 1)) with (length binds) by lia.
  rewrite <- app_assoc. simpl. by rewrite list_lookup_middle.
Qed.

Lemma text_at_pushed binds s extra : text_at ((binds ++ [BText s]) ++ extra) (len (binds ++ [BText s])) = Some s.
Proof. unfold text_at. by rewrite bind_at_pushed. Qed.

Lemma push_texts_spec xs : forall binds binds' phs, push_texts xs binds = (binds', phs) ->
  (exists more, binds' = binds ++ more) /\
  forall extra, map (text_at (binds' ++ extra)) phs = map Some xs.
Proof.
  induction xs as [|x xs IH]; intros binds binds' phs E; simpl in E.
  { injection E as <- <-. split; [by exists []; rewrite app_nil_r|done]. }
  destruct (push_texts xs (binds ++ [BText x])) as [b2 p2] eqn:E2. injection E as <- <-.
  destruct (IH _ _ _ E2) as [[more ->] Hm]. split; [exists ([BText x] ++ more); by rewrite app_assoc|].
  intros extra. simpl. f_equal; [|apply Hm]. rewrite <- app_assoc. apply text_at_pushed.
Qed.

(** A state's parts hold of exactly the rows of a predicate, whatever binds follow. *)
Definition means (st : plan_st) (P : Attestation -> bool) : Prop :=
  forall extra a, row_text_ok a = true -> forallb (holds (fst st ++ extra) a) (snd st) = P a.

(** A part pushes binds and one clause. *)
Lemma means_part st P binds' c Q :
  means st P -> (exists more, binds' = fst st ++ more) ->
  (forall extra a, row_text_ok a = true -> holds (binds' ++ extra) a c = Q a) ->
  means (binds', snd st ++ [c]) (fun a => P a && Q a).
Proof.
  intros Hst [more ->] Hc extra a Ha. cbn [fst snd]. rewrite forallb_app. cbn [forallb].
  rewrite andb_true_r, (Hc extra a Ha). f_equal. rewrite <- app_assoc. by apply Hst.
Qed.

Lemma means_true st P : means st P -> means st (fun a => P a && true).
Proof. intros Hst extra a Ha. rewrite andb_true_r. by apply Hst. Qed.

Lemma means_ext st P Q : means st P -> (forall a, row_text_ok a = true -> P a = Q a) -> means st Q.
Proof. intros Hst E extra a Ha. rewrite <- (E a Ha). by apply Hst. Qed.

Lemma means_eq st P c o :
  means st P ->
  means (part_eq c o st)
    (fun a => P a && is_none_or o (fun k => cmp2 String.eqb (col_value a c) (Some k))).
Proof.
  intros Hst. destruct o as [k|]; [|by apply means_true]. simpl.
  apply (means_part st P); [done|by eexists|]. intros extra a _. unfold holds. by rewrite text_at_pushed.
Qed.

Lemma means_texts st P xs (mk : list N -> Clause) (Q : Attestation -> list (option string) -> bool) :
  means st P ->
  (forall binds a phs, holds binds a (mk phs) = Q a (map (text_at binds) phs)) ->
  means (let '(binds, phs) := push_texts xs (fst st) in (binds, snd st ++ [mk phs]))
    (fun a => P a && Q a (map Some xs)).
Proof.
  intros Hst Hmk. destruct (push_texts xs (fst st)) as [binds phs] eqn:E.
  destruct (push_texts_spec _ _ _ _ E) as [Hmore Hm]. apply (means_part st P); [done..|].
  intros extra a _. by rewrite Hmk, Hm.
Qed.

Lemma existsb_map' {A B} (f : B -> bool) (g : A -> B) l : existsb f (map g l) = existsb (fun x => f (g x)) l.
Proof. induction l as [|x l IH]; simpl; [done|]. by rewrite IH. Qed.

Lemma means_in st P c xs :
  means st P ->
  means (let '(binds, phs) := push_texts xs (fst st) in (binds, snd st ++ [ColIn c phs]))
    (fun a => P a && is_some_and (col_value a c) (fun v => existsb (fun x => x =s v) xs)).
Proof.
  intros Hst.
  eapply means_ext;
    [apply (means_texts st P xs (ColIn c) (fun a l => existsb (cmp2 String.eqb (col_value a c)) l)); [done|]|].
  - intros binds a phs. unfold holds. by rewrite existsb_map'.
  - intros a _. cbv beta. f_equal. rewrite existsb_map'. destruct (col_value a c) as [v|]; simpl.
    + induction xs as [|x xs IH]; simpl; [done|]. by rewrite IH, String.eqb_sym.
    + induction xs; simpl; auto.
Qed.

(** The values a prefix part may meet: texts of Rust strings. *)
Definition texts_ok (c : Col) : Prop :=
  forall a v, row_text_ok a = true -> col_value a c = Some v -> utf8_valid v = true.

Lemma means_prefix st P collated bare p :
  means st P -> utf8_valid p = true -> texts_ok bare ->
  (forall a, col_value a collated = col_value a bare) ->
  means (part_prefix collated bare p st)
    (fun a => P a && is_some_and (col_value a bare) (starts_with p)).
Proof.
  intros Hst Hp Hok Hcol. unfold part_prefix. destruct (dimension_prefix_bounds p) as [[lo hi]|] eqn:E.
  - destruct (prefix_bounds_shape _ _ _ E) as [-> (h & Hh & ->)]. simpl.
    apply (means_part st P); [done|eexists; by rewrite <- app_assoc|]. intros extra a _.
    unfold holds. rewrite text_at_pushed, Hcol.
    rewrite <- (app_assoc (fst st ++ [BText p])), text_at_pushed. simpl.
    destruct (col_value a bare) as [v|]; [|done]. simpl. apply eq_true_iff_eq.
    rewrite andb_true_iff, negb_true_iff. pose proof (succ_prefix_range (list_ascii_of_string p) v) as Hr.
    rewrite Hh, string_of_list_ascii_of_string in Hr. symmetry. exact Hr.
  - simpl. apply (means_part st P); [done|by eexists|]. intros extra a Ha.
    unfold holds. rewrite text_at_pushed. destruct (col_value a bare) as [v|] eqn:Ev; [|done]. simpl.
    rewrite Nat2N.id. apply substr_prefix; [done|]. by eapply Hok.
Qed.

Lemma dim_value a c :
  row_text_ok a = true -> c = DimCollated \/ c = DimBare ->
  col_value a c = envelope_dimension (attestation_envelope a).
Proof.
  unfold row_text_ok. intros Ha. apply andb_true_iff in Ha as [_ Ha]. apply andb_true_iff in Ha as [Hd _].
  intros [->| ->]; apply (member_plain _ _ Hd).
Qed.

Lemma target_value a :
  row_text_ok a = true ->
  col_value a CohortTarget = cohort_target_of_envelope (attestation_envelope a).
Proof.
  unfold row_text_ok. intros Ha. apply andb_true_iff in Ha as [_ Ha]. apply andb_true_iff in Ha as [_ Ht].
  by apply coalesce_plain.
Qed.

Lemma dim_texts_ok : texts_ok DimBare.
Proof.
  intros a v Ha Hv. rewrite dim_value in Hv by auto. unfold row_text_ok in Ha.
  rewrite Hv in Ha. simpl in Ha. breflect. tauto.
Qed.

Lemma type_texts_ok : texts_ok TypeBare.
Proof. intros a v Ha Hv. injection Hv as <-. unfold row_text_ok in Ha. breflect. tauto. Qed.

Lemma eqb_bool_decide (o : option string) x :
  cmp2 String.eqb o (Some x) = bool_decide (o = Some x).
Proof.
  apply eq_true_iff_eq. rewrite bool_decide_eq_true. destruct o as [d|]; cbn [cmp2]; [|done].
  rewrite String.eqb_eq. split; congruence.
Qed.

Lemma means_dimension q st P :
  means st P -> query_text_ok q = true ->
  means (part_dimension q st) (fun a => P a &&
    let dimension := envelope_dimension (attestation_envelope a) in
    match q_dimension q with
    | Any => true
    | Prefix p => is_some_and dimension (fun d => starts_with p d)
    | Exact x => bool_decide (dimension = Some x)
    | AnyOf xs => is_some_and dimension (fun d => existsb (fun x => x =s d) xs)
    end).
Proof.
  intros Hst Hq. unfold part_dimension, query_text_ok in *. destruct (q_dimension q) as [|p|x|xs].
  - by apply means_true.
  - breflect. eapply means_ext; [apply (means_prefix st P); try done; [tauto|apply dim_texts_ok]|].
    intros a Ha. cbv beta. by rewrite dim_value by auto.
  - eapply means_ext; [by apply means_eq|]. intros a Ha. cbv beta.
    rewrite dim_value by auto. simpl. by rewrite eqb_bool_decide.
  - eapply means_ext; [by apply means_in|]. intros a Ha. cbv beta. by rewrite dim_value by auto.
Qed.

Lemma means_scope q st P :
  means st P ->
  means (part_scope q st) (fun a => P a && is_none_or (q_scope q) (fun s =>
    (cohort_scope a =s sf_cohort_scope s)
    && is_none_or (sf_cohort_target s) (fun t =>
         bool_decide (cohort_target_of_envelope (attestation_envelope a) = Some t)))).
Proof.
  intros Hst. unfold part_scope. destruct (q_scope q) as [s|]; [|by apply means_true].
  eapply means_ext; [by apply means_eq, means_eq|]. intros a Ha. cbv beta.
  rewrite target_value by done. simpl. rewrite <- andb_assoc. f_equal. f_equal.
  destruct (sf_cohort_target s) as [t|]; [|done]. cbn [is_none_or]. apply eqb_bool_decide.
Qed.

Lemma means_types q st P :
  means st P ->
  means (part_types q st)
    (fun a => P a && (is_nil (q_types q) || existsb (fun t => t =s Json.attestation_type a) (q_types q))).
Proof.
  intros Hst. unfold part_types. destruct (is_nil (q_types q)); [by apply means_true|].
  exact (means_in st P TypeBare (q_types q) Hst).
Qed.

Lemma means_type_prefix q st P :
  means st P -> query_text_ok q = true ->
  means (part_type_prefix q st)
    (fun a => P a && is_none_or (q_type_prefix q) (fun p => starts_with p (Json.attestation_type a))).
Proof.
  intros Hst Hq. unfold part_type_prefix, query_text_ok in *. apply andb_true_iff in Hq as [_ Hq].
  destruct (q_type_prefix q) as [p|]; [|by apply means_true].
  exact (means_prefix st P TypeCollated TypeBare p Hst Hq type_texts_ok (fun _ => eq_refl)).
Qed.

Lemma means_excluded q st P :
  means st P ->
  means (part_excluded q st) (fun a => P a &&
    negb (is_some_and (envelope_dimension (attestation_envelope a))
            (fun d => existsb (fun x => x =s d) (q_excluded_dimensions q)))).
Proof.
  intros Hst. unfold part_excluded. destruct (q_excluded_dimensions q) as [|x0 xs0] eqn:E.
  - eapply means_ext; [by apply means_true|]. intros a _. cbv beta. f_equal.
    by destruct (envelope_dimension _).
  - rewrite <- E. cbn [is_nil]. replace (is_nil (q_excluded_dimensions q)) with false by (by rewrite E).
    eapply means_ext; [apply (means_texts st P _ NullOrNotIn (fun a l =>
      match col_value a DimBare with
      | None => true
      | Some d => forallb (cmp2 (fun d x => negb (d =s x)) (Some d)) l
      end)); [done|]|].
    + intros binds a phs. unfold holds. destruct (col_value a DimBare); [|done].
      induction phs as [|ph phs IH]; [done|]. cbn [forallb map]. by rewrite IH.
    + intros a Ha. cbv beta. rewrite dim_value by auto. f_equal.
      destruct (envelope_dimension _) as [d|]; [|done]. simpl.
      generalize (q_excluded_dimensions q). intros xs.
      induction xs as [|x xs IH]; [done|]. cbn [map forallb existsb]. rewrite IH, negb_orb.
      simpl. by rewrite String.eqb_sym.
Qed.

Lemma means_as_of q st P :
  means st P ->
  means (part_as_of q st) (fun a => P a && is_none_or (q_as_of q) (fun t => (asserted_at a <=? t)%Z)).
Proof.
  intros Hst. unfold part_as_of. destruct (q_as_of q) as [t|]; [|by apply means_true].
  simpl. apply (means_part st P); [done|by eexists|]. intros extra a _. unfold holds, time_at.
  by rewrite bind_at_pushed.
Qed.

Lemma means_after q st P :
  means st P ->
  means (part_after q st) (fun a => P a && is_none_or (q_after q) (fun c =>
    let here := key_of a in
    let mark := mark_of c in
    match direction (q_order q) with Desc => key_ltb here mark | Asc => key_ltb mark here end)).
Proof.
  intros Hst. unfold part_after. destruct (q_after q) as [c|]; [|by apply means_true].
  simpl. apply (means_part st P); [done|eexists; by rewrite <- app_assoc|]. intros extra a _.
  unfold holds. rewrite text_at_pushed. unfold time_at.
  rewrite <- (app_assoc (fst st ++ [BTime (last_asserted_at c)])), bind_at_pushed. done.
Qed.

Lemma plan_where_means q : query_text_ok q = true -> means (plan_where q) (admits q).
Proof.
  intros Hq. unfold plan_where.
  assert (Hbase : means (let st := part_eq AttestedKey (q_to q) (part_eq AttestingKey (q_by q) ([], [])) in
      (fst st, snd st ++ [TierIs (stored (q_tier q))]))
    (fun a => is_none_or (q_by q) (fun k => attesting_key_id a =s k)
              && is_none_or (q_to q) (fun k => attested_key_id a =s k)
              && (tier a =s stored (q_tier q)))).
  { assert (H0 : means ([], []) (fun _ => true)) by (by intros ? ? ?).
    pose proof (means_eq _ _ AttestedKey (q_to q) (means_eq _ _ AttestingKey (q_by q) H0)) as Hkeys.
    exact (means_part _ _ _ (TierIs (stored (q_tier q))) (fun a => tier a =s stored (q_tier q)) Hkeys
             (ex_intro _ [] (eq_sym (app_nil_r _))) (fun _ _ _ => eq_refl)). }
  cbn zeta in Hbase |- *. revert Hbase.
  generalize (part_eq AttestedKey (q_to q) (part_eq AttestingKey (q_by q) ([], []))). intros st Hst.
  exact (means_after q _ _ (means_as_of q _ _ (means_excluded q _ _ (means_type_prefix q _ _
    (means_types q _ _ (means_scope q _ _ (means_dimension q _ _ Hst Hq))) Hq)))).
Qed.
End Meaning.

(** ** Properties *)

(** The half-open byte range is the prefix: whenever [dimension_prefix_bounds] gives
    bounds, a string starts with the prefix exactly when it is at or above the lower bound
    and below the upper one, in byte order. *)
Theorem prefix_bounds_exact (p lo hi d : string) :
  dimension_prefix_bounds p = Some (lo, hi) ->
  starts_with p d = true <-> (d <s lo) = false /\ (d <s hi) = true.
Proof.
  intros E. destruct (prefix_bounds_shape _ _ _ E) as [-> (h & Hh & ->)].
  pose proof (succ_prefix_range (list_ascii_of_string p) d) as Hr.
  by rewrite Hh, string_of_list_ascii_of_string in Hr.
Qed.

Lemma prefix_bounds_exact_witness :
  starts_with "config:" "config:Z" = true <->
  ("config:Z" <s "config:") = false /\ ("config:Z" <s "config;") = true.
Proof. apply prefix_bounds_exact. vm_compute. reflexivity. Defined.

(** The statement of a second page, as sqlite receives it. *)
Example render_sql_sample :
  render_sql (after QuSamples.q (Some (cursor_of QuSamples.r5))) Dialect.Sqlite "t" "c"
  = mk_Statement
      "SELECT c FROM t WHERE attesting_key_id = ?1 AND tier = 'federation' AND (dimension >= ?2 AND dimension < ?3) AND (+asserted_at, attestation_id) < (?4, ?5) ORDER BY +asserted_at DESC, attestation_id DESC LIMIT ?6"
      [BText "k"; BText "trust:"; BText "trust;"; BTime 40%Z; BText "a5"; BInt 3].
Proof. vm_compute. reflexivity. Qed.

(** Where the two part: an envelope whose [community_id] is a JSON boolean. The
    predicate skips a member that is not a string and takes [community_key_id]; the
    generated column takes the boolean's text, so the statement and [admits] disagree on
    the row's cohort target. *)
Theorem cohort_target_diverges `{SqlText} (k : string) :
  (forall b, extract_text (Bool b) <> Some k) ->
  let env := Object [("community_id", Bool true); ("community_key_id", Str k)] in
  cohort_target_of_envelope env = Some k /\ coalesce env COHORT_TARGET_KEYS <> Some k.
Proof.
  intros Hk. split; [reflexivity|]. cbn. destruct (extract_bool true) as [s Hs]. rewrite Hs.
  specialize (Hk true). congruence.
Qed.

Lemma cohort_target_diverges_witness :
  let env := Object [("community_id", Bool true); ("community_key_id", Str "k")] in
  cohort_target_of_envelope env = Some "k" /\ coalesce env COHORT_TARGET_KEYS <> Some "k".
Proof. apply cohort_target_diverges. intros []; vm_compute; discriminate. Defined.
