(* ===== verification/QueryText.v ===== *)
(** * The statement's text, read as SQL

    What the text of [render_sql] ([QuerySql]) asks of a database. [Sql] is the fragment of
    SQL such a text is written in, on its own: its columns, operands, predicates, ORDER BY
    and LIMIT, how each is spelled, which dialect accepts it, and what it returns over the
    rows of a table. Text compares in byte order on sqlite, and on postgres only under
    [COLLATE "C"]; elsewhere postgres orders text by the locale of the database, of which
    nothing is assumed. *)

From Stdlib Require Import ZArith NArith Lia Ascii String Permutation Sorted.
From stdpp Require Import base list strings gmap sorting.
From S2P Require Import Prelude RustStd Utf8 Json Precedence Query QuerySql.

Open Scope string_scope.
Open Scope list_scope.
Open Scope persist_scope.

Module Sql.

Inductive column := CAttestingKey | CAttestedKey | CDimension | CType | CScope | CTarget | CTier | CAssertedAt | CId.

Inductive operand :=
| Plain (c : column)
| Collated (c : column)
| Unindexed (c : column)
| TextCollated (c : column).

(** A number is a placeholder, from 1. *)
Inductive pred :=
| Eq (x : operand) (p : N)
| EqLit (x : operand) (lit : string)
| Range (x y : operand) (p r : N)
| SubstrEq (x : operand) (n p : N)
| In (x : operand) (ps : list N)
| InNull (x : operand)
| NullOrNotIn (x y : operand) (ps : list N)
| AtMost (x : operand) (p : N)
| RowBelow (x y : operand) (p r : N)
| RowAbove (x y : operand) (p r : N).

Inductive dir := ASC | DESC.

Record select := mk_select { where_ : list pred; order_by : list (operand * dir); limit : N }.

(** ** How it is spelled *)

Definition name (c : column) : string :=
  match c with
  | CAttestingKey => "attesting_key_id" | CAttestedKey => "attested_key_id" | CDimension => "dimension"
  | CType => "attestation_type" | CScope => "cohort_scope" | CTarget => "cohort_target" | CTier => "tier"
  | CAssertedAt => "asserted_at" | CId => "attestation_id"
  end.

(** ["C"], quoted. *)
Definition c_collation : string := String "034" ("C" +:+ String "034" "").

Definition operand_text (x : operand) : string :=
  match x with
  | Plain c => name c
  | Collated c => name c +:+ (" COLLATE " +:+ c_collation)
  | Unindexed c => "+" +:+ name c
  | TextCollated c => name c +:+ "::text" +:+ " COLLATE " +:+ c_collation
  end.

Section Text.
Context (d : Dialect.t).

Definition arg_text (n : N) : string :=
  match d with Dialect.Sqlite => "?" | Dialect.Postgres => "$" end +:+ fmt_N n.

Definition pred_text (p : pred) : string :=
  match p with
  | Eq x n => operand_text x +:+ " = " +:+ arg_text n
  | EqLit x lit => operand_text x +:+ " = '" +:+ lit +:+ "'"
  | Range x y m n =>
      "(" +:+ operand_text x +:+ " >= " +:+ arg_text m +:+ " AND " +:+ operand_text y +:+ " < " +:+ arg_text n +:+ ")"
  | SubstrEq x n m => "substr(" +:+ operand_text x +:+ ", 1, " +:+ fmt_N n +:+ ") = " +:+ arg_text m
  | In x ns => operand_text x +:+ " IN (" +:+ join ", " (map arg_text ns) +:+ ")"
  | InNull x => operand_text x +:+ " IN (NULL)"
  | NullOrNotIn x y ns =>
      "(" +:+ operand_text x +:+ " IS NULL OR " +:+ operand_text y +:+ " NOT IN (" +:+ join ", " (map arg_text ns) +:+ "))"
  | AtMost x n => operand_text x +:+ " <= " +:+ arg_text n
  | RowBelow x y m n =>
      "(" +:+ operand_text x +:+ ", " +:+ operand_text y +:+ ") < (" +:+ arg_text m +:+ ", " +:+ arg_text n +:+ ")"
  | RowAbove x y m n =>
      "(" +:+ operand_text x +:+ ", " +:+ operand_text y +:+ ") > (" +:+ arg_text m +:+ ", " +:+ arg_text n +:+ ")"
  end.

Definition direction_text (o : dir) : string := match o with ASC => " ASC" | DESC => " DESC" end.

Definition text (table columns : string) (s : select) : string :=
  "SELECT " +:+ columns +:+ " FROM " +:+ table +:+ " WHERE " +:+ join " AND " (map pred_text (where_ s)) +:+
  " ORDER BY " +:+ join ", " (map (fun k => operand_text (fst k) +:+ direction_text (snd k)) (order_by s)) +:+
  " LIMIT " +:+ arg_text (limit s).
End Text.

(** ** What it returns *)

(** Sqlite has no collation ["C"] and no cast [::text]; postgres has no unary plus for an
    instant. *)
Definition accepts (d : Dialect.t) (x : operand) : bool :=
  match d, x with
  | _, Plain _ => true
  | Dialect.Sqlite, Unindexed _ => true
  | Dialect.Postgres, (Collated _ | TextCollated _) => true
  | _, _ => false
  end.
Definition operands (p : pred) : list operand :=
  match p with
  | Eq x _ | EqLit x _ | SubstrEq x _ _ | In x _ | InNull x | AtMost x _ => [x]
  | Range x y _ _ | NullOrNotIn x y _ | RowBelow x y _ _ | RowAbove x y _ _ => [x; y]
  end.
Definition accepted (d : Dialect.t) (s : select) : bool :=
  forallb (fun p => forallb (accepts d) (operands p)) (where_ s) && forallb (fun k => accepts d (fst k)) (order_by s).

Definition column_of (x : operand) : column :=
  match x with Plain c | Collated c | Unindexed c | TextCollated c => c end.

Section Rows.
Context `{SqlText} (locale_lt : string -> string -> bool) (d : Dialect.t).

Definition text_of (a : Attestation) (x : operand) : option string :=
  match column_of x with
  | CAttestingKey => Some (attesting_key_id a)
  | CAttestedKey => Some (attested_key_id a)
  | CDimension => member_text (attestation_envelope a) "dimension"
  | CType => Some (Json.attestation_type a)
  | CScope => Some (cohort_scope a)
  | CTarget => coalesce (attestation_envelope a) COHORT_TARGET_KEYS
  | CTier => Some (tier a)
  | CAssertedAt => None
  | CId => Some (attestation_id a)
  end.
Definition time_of (a : Attestation) (x : operand) : option instant :=
  match column_of x with CAssertedAt => Some (asserted_at a) | _ => None end.

(** The order of text under an operand's collation. *)
Definition text_lt (x : operand) : string -> string -> bool :=
  match d, x with
  | Dialect.Sqlite, _ => String.ltb
  | Dialect.Postgres, (Collated _ | TextCollated _) => String.ltb
  | Dialect.Postgres, _ => locale_lt
  end.

Section Binds.
Context (binds : list Bind) (a : Attestation).

Definition text_arg (n : N) : option string :=
  match binds !! N.to_nat (n - 1) with Some (BText s) => Some s | _ => None end.
Definition time_arg (n : N) : option instant :=
  match binds !! N.to_nat (n - 1) with Some (BTime t) => Some t | _ => None end.

(** A predicate is true; NULL is not true. *)
Definition holds (p : pred) : bool :=
  match p with
  | Eq x n => cmp2 String.eqb (text_of a x) (text_arg n)
  | EqLit x lit => cmp2 String.eqb (text_of a x) (Some lit)
  | Range x y m n =>
      cmp2 (fun v lo => negb (text_lt x v lo)) (text_of a x) (text_arg m) && cmp2 (text_lt y) (text_of a y) (text_arg n)
  | SubstrEq x n m => cmp2 (fun v p => take_chars (N.to_nat n) v =s p) (text_of a x) (text_arg m)
  | In x ns => existsb (fun n => cmp2 String.eqb (text_of a x) (text_arg n)) ns
  | InNull _ => false
  | NullOrNotIn x y ns =>
      negb (is_some (text_of a x))
      || (is_some (text_of a y) && forallb (fun n => cmp2 (fun v w => negb (v =s w)) (text_of a y) (text_arg n)) ns)
  | AtMost x n => cmp2 Z.leb (time_of a x) (time_arg n)
  | RowBelow x y m n =>
      cmp2 Z.ltb (time_of a x) (time_arg m)
      || (cmp2 Z.eqb (time_of a x) (time_arg m) && cmp2 (text_lt y) (text_of a y) (text_arg n))
  | RowAbove x y m n =>
      cmp2 Z.ltb (time_arg m) (time_of a x)
      || (cmp2 Z.eqb (time_arg m) (time_of a x) && cmp2 (text_lt y) (text_arg n) (text_of a y))
  end.
End Binds.

Definition key_less (x : operand) (a b : Attestation) : bool :=
  cmp2 Z.ltb (time_of a x) (time_of b x) || cmp2 (text_lt x) (text_of a x) (text_of b x).

(** The keys of ORDER BY, the first that tells two rows apart. *)
Fixpoint comes_before (keys : list (operand * dir)) (a b : Attestation) : bool :=
  match keys with
  | [] => false
  | (x, o) :: rest =>
      let less := match o with ASC => key_less x a b | DESC => key_less x b a end in
      let more := match o with ASC => key_less x b a | DESC => key_less x a b end in
      less || (negb more && comes_before rest a b)
  end.

(** A list the database may return: it accepts the statement, and the list is the first rows
    of some arrangement in order of those that satisfy every predicate. *)
Definition returns (binds : list Bind) (table : list Attestation) (s : select) (l : list Attestation) : Prop :=
  accepted d s = true /\
  exists n full, binds !! N.to_nat (limit s - 1) = Some (BInt n) /\ (0 <= n)%Z /\
    Permutation full (List.filter (fun a => forallb (holds binds a) (where_ s)) table) /\
    StronglySorted (fun a b => comes_before (order_by s) b a = false) full /\
    l = take (Z.to_nat n) full.
End Rows.
End Sql.

(** ** The plan as such a statement *)

Section Translate.
Context (d : Dialect.t) (pin : bool).

Definition collated_operand (c : Sql.column) : Sql.operand :=
  match d with Dialect.Sqlite => Sql.Plain c | Dialect.Postgres => Sql.Collated c end.
Definition operand_of (c : Col) : Sql.operand :=
  match c with
  | AttestingKey => Sql.Plain Sql.CAttestingKey
  | AttestedKey => Sql.Plain Sql.CAttestedKey
  | DimCollated => collated_operand Sql.CDimension
  | DimBare => Sql.Plain Sql.CDimension
  | TypeCollated => collated_operand Sql.CType
  | TypeBare => Sql.Plain Sql.CType
  | CohortScope => Sql.Plain Sql.CScope
  | CohortTarget => Sql.Plain Sql.CTarget
  end.
Definition time_operand : Sql.operand :=
  if pin then Sql.Unindexed Sql.CAssertedAt else Sql.Plain Sql.CAssertedAt.
Definition id_operand : Sql.operand :=
  match d with Dialect.Sqlite => Sql.Plain Sql.CId | Dialect.Postgres => Sql.TextCollated Sql.CId end.

Definition pred_of (c : Clause) : Sql.pred :=
  match c with
  | ColEq c n => Sql.Eq (operand_of c) n
  | TierIs lit => Sql.EqLit (Sql.Plain Sql.CTier) lit
  | ColRange c m n => Sql.Range (operand_of c) (operand_of c) m n
  | SubstrEq c n m => Sql.SubstrEq (operand_of c) n m
  | ColIn c ns => if is_nil ns then Sql.InNull (operand_of c) else Sql.In (operand_of c) ns
  | NullOrNotIn ns => Sql.NullOrNotIn (Sql.Plain Sql.CDimension) (Sql.Plain Sql.CDimension) ns
  | AsOfClause n => Sql.AtMost time_operand n
  | PastClause Desc m n => Sql.RowBelow time_operand id_operand m n
  | PastClause Asc m n => Sql.RowAbove time_operand id_operand m n
  end.
Definition dir_of (o : Direction) : Sql.dir := match o with Desc => Sql.DESC | Asc => Sql.ASC end.
End Translate.

Definition pinned (q : AttestationQuery) (d : Dialect.t) : bool :=
  match d with Dialect.Sqlite => seeks_narrow_index q | Dialect.Postgres => false end.

Definition select_of (q : AttestationQuery) (d : Dialect.t) : Sql.select :=
  let '(_, parts, limit) := plan q in
  let o := dir_of (direction (q_order q)) in
  Sql.mk_select (map (pred_of d (pinned q d)) parts) [(time_operand (pinned q d), o); (id_operand d, o)] limit.

(** *** Its text *)

Section Spelled.
Context (q : AttestationQuery) (d : Dialect.t).

Lemma placeholder_text n : ph_text d n = Sql.arg_text d n.
Proof. by destruct d. Qed.

Lemma operand_spelled c : col_text d c = Sql.operand_text (operand_of d c).
Proof. by destruct d, c. Qed.

Lemma time_spelled : pin_of q d +:+ "asserted_at" = Sql.operand_text (time_operand (pinned q d)).
Proof. unfold pin_of, pinned, time_operand. by destruct d; [destruct (seeks_narrow_index q)|]. Qed.

Lemma id_spelled : id_text d = Sql.operand_text (id_operand d).
Proof. by destruct d. Qed.

Lemma dir_spelled o : " " +:+ dir_text o = Sql.direction_text (dir_of o).
Proof. by destruct o. Qed.

(** The pin goes before the name of the column. *)
Lemma pinned_app s : pin_of q d +:+ ("asserted_at" +:+ s) = Sql.operand_text (time_operand (pinned q d)) +:+ s.
Proof. by rewrite <- time_spelled, string_app_assoc. Qed.

Lemma clause_spelled c : clause_text d (pin_of q d) c = Sql.pred_text d (pred_of d (pinned q d) c).
Proof.
  assert (Hphs : forall ns, map (ph_text d) ns = map (Sql.arg_text d) ns)
    by (intros ns; apply map_ext; intros n; apply placeholder_text).
  destruct c as [c n|lit|c m n|c n m|c ns|ns|n|o m n]; cbn [clause_text pred_of Sql.pred_text];
    rewrite ?operand_spelled, ?placeholder_text, ?Hphs; try done.
  - by destruct ns; cbn [is_nil Sql.pred_text]; rewrite ?Hphs.
  - change ("asserted_at <= " +:+ Sql.arg_text d n) with ("asserted_at" +:+ (" <= " +:+ Sql.arg_text d n)).
    by rewrite pinned_app.
  - rewrite id_spelled. change ("asserted_at, " +:+ ?s) with ("asserted_at" +:+ (", " +:+ s)).
    rewrite pinned_app. by destruct o.
Qed.
End Spelled.

Lemma render_spelled q d table columns :
  st_sql (render_sql q d table columns) = Sql.text d table columns (select_of q d).
Proof.
  unfold render_sql, select_of, Sql.text. destruct (plan q) as [[binds parts] limit].
  cbn [st_sql Sql.where_ Sql.order_by Sql.limit map join fst snd].
  rewrite map_map, (map_ext _ _ (clause_spelled q d)), placeholder_text, id_spelled, <- !dir_spelled.
  change ("asserted_at " +:+ ?s) with ("asserted_at" +:+ (" " +:+ s)). rewrite pinned_app.
  rewrite !string_app_assoc. done.
Qed.

(** *** What it returns *)

Section Meaning.
Context `{SqlText} (locale_lt : string -> string -> bool) (q : AttestationQuery) (d : Dialect.t).

(** A range is asked of a collated column alone. *)
Definition collated_range (c : Clause) : bool :=
  match c with ColRange c _ _ => match c with DimCollated | TypeCollated => true | _ => false end | _ => true end.

Lemma collated_lt c : c = DimCollated \/ c = TypeCollated -> Sql.text_lt locale_lt d (operand_of d c) = String.ltb.
Proof. intros [->| ->]; by destruct d. Qed.

Lemma id_lt : Sql.text_lt locale_lt d (id_operand d) = String.ltb.
Proof. by destruct d. Qed.

Lemma operand_value a c : Sql.text_of a (operand_of d c) = col_value a c.
Proof. unfold Sql.text_of, operand_of, collated_operand. by destruct c, d. Qed.

Lemma time_value a b : Sql.time_of a (time_operand b) = Some (asserted_at a) /\ Sql.text_of a (time_operand b) = None.
Proof. by destruct b. Qed.

Lemma id_value a : Sql.text_of a (id_operand d) = Some (attestation_id a) /\ Sql.time_of a (id_operand d) = None.
Proof. by destruct d. Qed.

Lemma clause_read binds a c : collated_range c = true ->
  Sql.holds locale_lt d binds a (pred_of d (pinned q d) c) = holds binds a c.
Proof.
  assert (Ht : forall n, Sql.text_arg binds n = text_at binds n) by done.
  assert (Hi : forall n, Sql.time_arg binds n = time_at binds n) by done.
  destruct (time_value a (pinned q d)) as [Hta _]. destruct (id_value a) as [Hid _].
  destruct c as [c n|lit|c m n|c n m|c ns|ns|n|o m n]; cbn [pred_of Sql.holds holds collated_range]; intros Hc;
    rewrite ?operand_value, ?Hta, ?Hid, ?Ht, ?Hi; try done.
  - by rewrite collated_lt by (destruct c; auto; done).
  - by destruct ns; cbn [is_nil Sql.holds]; rewrite ?operand_value.
  - unfold Sql.text_of. cbn [Sql.column_of]. change (member_text _ "dimension") with (col_value a DimBare).
    by destruct (col_value a DimBare).
  - destruct o; cbn [Sql.holds]; by rewrite Hta, Hid, Hi, Ht, id_lt.
Qed.

Lemma part_eq_collated c o st : forallb collated_range (snd st) = true -> forallb collated_range (snd (part_eq c o st)) = true.
Proof. intros Hs. destruct o; [|done]. cbn. by rewrite forallb_app, Hs. Qed.

Lemma part_prefix_collated c b p st : (c = DimCollated \/ c = TypeCollated) ->
  forallb collated_range (snd st) = true -> forallb collated_range (snd (part_prefix c b p st)) = true.
Proof.
  intros Hc Hs. unfold part_prefix. destruct (dimension_prefix_bounds p) as [[lo hi]|]; cbn; rewrite forallb_app, Hs; [|done].
  by destruct Hc as [->| ->].
Qed.

Lemma texts_collated xs st mk : (forall phs, collated_range (mk phs) = true) -> forallb collated_range (snd st) = true ->
  forallb collated_range (snd (let '(binds, phs) := push_texts xs (fst st) in (binds, snd st ++ [mk phs]) : plan_st)) = true.
Proof. intros Hm Hs. destruct (push_texts xs (fst st)). cbn. by rewrite forallb_app, Hs; cbn; rewrite Hm. Qed.

Lemma plan_collated : forallb collated_range (snd (plan_where q)) = true.
Proof.
  unfold plan_where. cbv zeta.
  set (st0 := (fst _, snd _ ++ [TierIs _]) : plan_st).
  assert (H0 : forallb collated_range (snd st0) = true).
  { unfold st0. cbn [snd]. rewrite forallb_app. cbn. rewrite andb_true_r. by repeat apply part_eq_collated. }
  assert (H1 : forallb collated_range (snd (part_dimension q st0)) = true).
  { unfold part_dimension. destruct (q_dimension q); [done|by apply part_prefix_collated; auto|by apply part_eq_collated|].
    by apply texts_collated. }
  assert (H2 : forallb collated_range (snd (part_scope q (part_dimension q st0))) = true).
  { unfold part_scope. destruct (q_scope q); [by repeat apply part_eq_collated|done]. }
  assert (H3 : forallb collated_range (snd (part_types q (part_scope q (part_dimension q st0)))) = true).
  { unfold part_types. destruct (is_nil _); [done|by apply texts_collated]. }
  generalize dependent (part_types q (part_scope q (part_dimension q st0))). intros st H3.
  assert (H4 : forallb collated_range (snd (part_type_prefix q st)) = true).
  { unfold part_type_prefix. destruct (q_type_prefix q); [by apply part_prefix_collated; auto|done]. }
  generalize dependent (part_type_prefix q st). intros st' H4.
  assert (H5 : forallb collated_range (snd (part_excluded q st')) = true).
  { unfold part_excluded. destruct (is_nil _); [done|by apply texts_collated]. }
  unfold part_after, part_as_of. destruct (q_as_of q), (q_after q); cbn; rewrite ?forallb_app, ?H5; done.
Qed.

Lemma forallb_mapped {A B} (f : B -> bool) (g : A -> B) l : forallb f (map g l) = forallb (fun x => f (g x)) l.
Proof. induction l as [|x l IH]; [done|]. cbn [map forallb]. by rewrite IH. Qed.

(** The dialect accepts what is asked of it. *)
Lemma operand_accepted c : Sql.accepts d (operand_of d c) = true.
Proof. by destruct d, c. Qed.
Lemma time_accepted : Sql.accepts d (time_operand (pinned q d)) = true.
Proof. unfold pinned, time_operand. by destruct d; [destruct (seeks_narrow_index q)|]. Qed.
Lemma id_accepted : Sql.accepts d (id_operand d) = true.
Proof. by destruct d. Qed.
Lemma select_accepted : Sql.accepted d (select_of q d) = true.
Proof.
  assert (Hp : forall b : Sql.column, Sql.accepts d (Sql.Plain b) = true) by (by destruct d).
  unfold Sql.accepted, select_of. destruct (plan q) as [[binds parts] limit].
  cbn [Sql.where_ Sql.order_by forallb fst]. rewrite time_accepted, id_accepted, andb_true_r.
  rewrite forallb_mapped. apply forallb_forall. intros c _.
  destruct c as [c n|lit|c m n|c n m|c ns|ns|n|o m n]; cbn [pred_of Sql.operands forallb];
    rewrite ?operand_accepted, ?time_accepted, ?Hp; try done.
  - by destruct (is_nil ns); cbn [Sql.operands forallb]; rewrite operand_accepted.
  - by destruct o; cbn [Sql.operands forallb]; rewrite time_accepted, id_accepted.
Qed.

(** ORDER BY is the order of the query. *)
Lemma order_read a b :
  Sql.comes_before locale_lt d (Sql.order_by (select_of q d)) a b = before (direction (q_order q)) a b.
Proof.
  assert (Hk : forall x y, Sql.key_less locale_lt d (time_operand (pinned q d)) x y = (asserted_at x <? asserted_at y)%Z).
  { intros x y. unfold Sql.key_less. destruct (time_value x (pinned q d)) as [-> ->].
    destruct (time_value y (pinned q d)) as [-> ->]. cbn [cmp2]. by rewrite orb_false_r. }
  assert (Hi : forall x y, Sql.key_less locale_lt d (id_operand d) x y = (attestation_id x <s attestation_id y)).
  { intros x y. unfold Sql.key_less. destruct (id_value x) as [-> ->]. destruct (id_value y) as [-> ->].
    by rewrite id_lt. }
  unfold select_of. destruct (plan q) as [[binds parts] limit]. cbn [Sql.order_by Sql.comes_before].
  unfold before, key_ltb, key_of. destruct (direction (q_order q)); cbn [dir_of fst snd]; rewrite !Hk, !Hi, andb_false_r, orb_false_r.
  all: rewrite ?(Z.eqb_sym (asserted_at b)).
  all: destruct (Z.ltb_spec (asserted_at b) (asserted_at a)), (Z.ltb_spec (asserted_at a) (asserted_at b)),
    (Z.eqb_spec (asserted_at a) (asserted_at b)); cbn; try done; lia.
Qed.

(** Its predicates select what the query admits. *)
Lemma where_read store : query_text_ok q = true -> forallb row_text_ok store = true ->
  List.filter (fun a => forallb (Sql.holds locale_lt d (fst (fst (plan q))) a) (Sql.where_ (select_of q d))) store
  = List.filter (admits q) store.
Proof.
  intros Hq Hs. apply List.filter_ext_in. intros a Ha. rewrite forallb_forall in Hs. specialize (Hs a Ha).
  rewrite <- (plan_where_means q Hq [BInt (Zpos (q_limit q) + 1)] a Hs). unfold select_of, plan. cbn [push].
  cbn [Sql.where_ fst snd]. rewrite forallb_mapped. pose proof plan_collated as Hc. rewrite forallb_forall in Hc.
  apply eq_true_iff_eq. rewrite !forallb_forall. split; intros Hx c Hin; specialize (Hx c Hin).
  - by rewrite clause_read in Hx by auto.
  - by rewrite clause_read by auto.
Qed.

Lemma limit_read : fst (fst (plan q)) !! N.to_nat (Sql.limit (select_of q d) - 1) = Some (BInt (Zpos (q_limit q) + 1)).
Proof.
  unfold select_of, plan. cbn [push Sql.limit fst snd].
  pose proof (bind_at_pushed (fst (plan_where q)) (BInt (Zpos (q_limit q) + 1)) []) as Hb.
  by rewrite app_nil_r in Hb.
Qed.

Lemma arranged_weaken {A} (R S : A -> A -> Prop) l :
  (forall a b, R a b -> S a b) -> StronglySorted R l -> StronglySorted S l.
Proof. intros HRS. induction 1 as [|x l _ IH Hall]; constructor; [done|]. eapply Forall_impl; [exact Hall|]. auto. Qed.

(** The rows in order are one list. *)
Lemma arranged_once l full :
  NoDup (map attestation_id l) -> Permutation full l ->
  StronglySorted (fun a b => before (direction (q_order q)) b a = false) full -> full = sort q l.
Proof.
  intros Hnd Hp Hs. unfold sort. rewrite <- (sort_by_id _ full Hs).
  apply sort_by_perm_eq; [apply before_asym|apply before_cotrans| |done].
  intros a b Ha Hb. apply (before_total _ l); [done|..]; by eapply Permutation_in.
Qed.
End Meaning.

(** ** Properties *)

(** C32. The statement answers the query. Whatever the dialect, the table and the columns
    named, the text [render_sql] makes spells an SQL statement that the dialect accepts and
    that, under the binds [render_sql] gives, over a table of distinct ids, can return one list
    only: the first [fetch] of the rows [admits] keeps, in the query's order (on postgres
    whatever the locale's order of text). The strings are those of Rust, and the members the
    schema extracts from a row's envelope are strings, null or absent, without which the
    statement and the predicate part ([cohort_target_diverges]). *)
Theorem statement_answers `{SqlText} (locale_lt : string -> string -> bool) (q : AttestationQuery) (d : Dialect.t)
    (table columns : string) (store : list Attestation) :
  query_text_ok q = true -> forallb row_text_ok store = true -> NoDup (map attestation_id store) ->
  exists s, st_sql (render_sql q d table columns) = Sql.text d table columns s /\
    forall l, Sql.returns locale_lt d (st_binds (render_sql q d table columns)) store s l
              <-> l = take (N.to_nat (fetch q)) (answer store q).
Proof.
  intros Hq Hs Hnd. exists (select_of q d). split; [apply render_spelled|]. intros l.
  assert (Hbinds : st_binds (render_sql q d table columns) = fst (fst (plan q)))
    by (unfold render_sql; by destruct (plan q) as [[? ?] ?]).
  rewrite Hbinds. unfold Sql.returns. rewrite limit_read, where_read by done.
  assert (Hf : Z.to_nat (Z.pos (q_limit q) + 1) = N.to_nat (fetch q)) by (unfold fetch; lia).
  assert (Hids : NoDup (map attestation_id (List.filter (admits q) store))) by (by apply NoDup_filter_ids).
  split.
  - intros (_ & n & full & [= <-] & _ & Hp & Hsort & ->). rewrite Hf. f_equal. unfold answer.
    apply arranged_once; [done..|]. eapply arranged_weaken; [|exact Hsort]. intros a b. cbv beta. by rewrite (order_read locale_lt).
  - intros ->. split; [apply select_accepted|]. exists (Z.pos (q_limit q) + 1)%Z, (answer store q).
    split_and!; [done|lia|apply sort_by_perm| |by rewrite Hf].
    eapply arranged_weaken; [|apply (sort_by_sorted _ (before_asym _) (before_cotrans _))].
    intros a b Hab. rewrite (order_read locale_lt). exact Hab.
Qed.

Lemma statement_answers_witness :
  exists s, st_sql (render_sql (after QuSamples.q (Some (cursor_of QuSamples.r5))) Dialect.Postgres "t" "c")
            = Sql.text Dialect.Postgres "t" "c" s /\
    forall l, Sql.returns (fun _ _ => true) Dialect.Postgres
                (st_binds (render_sql (after QuSamples.q (Some (cursor_of QuSamples.r5))) Dialect.Postgres "t" "c"))
                QuSamples.store s l
              <-> l = [QuSamples.r4; QuSamples.r2; QuSamples.r1].
Proof.
  assert (E : take (N.to_nat (fetch (after QuSamples.q (Some (cursor_of QuSamples.r5)))))
                (answer QuSamples.store (after QuSamples.q (Some (cursor_of QuSamples.r5))))
              = [QuSamples.r4; QuSamples.r2; QuSamples.r1]) by (vm_compute; reflexivity).
  rewrite <- E.
  apply (statement_answers (fun _ _ => true) (after QuSamples.q (Some (cursor_of QuSamples.r5))) Dialect.Postgres "t" "c" QuSamples.store).
  - vm_compute; reflexivity.
  - vm_compute; reflexivity.
  - apply (bool_decide_unpack (NoDup (map attestation_id QuSamples.store))); vm_compute; exact I.
Defined.

(** The same page as postgres receives it. *)
Example render_postgres_sample :
  st_sql (render_sql (after QuSamples.q (Some (cursor_of QuSamples.r5))) Dialect.Postgres "t" "c")
  = "SELECT c FROM t WHERE attesting_key_id = $1 AND tier = 'federation' AND (dimension" +:+ collate_c +:+ " >= $2 AND dimension" +:+
    collate_c +:+ " < $3) AND (asserted_at, attestation_id::text" +:+ collate_c +:+ ") < ($4, $5) ORDER BY asserted_at DESC, attestation_id::text" +:+
    collate_c +:+ " DESC LIMIT $6".
Proof. vm_compute. reflexivity. Qed.
