(* ===== verification/ConsentRead.v ===== *)
(** * The consent fold over the directory's paged reads

    [scoped_fold_rows] of [src/src/federation/consent.rs] reads through
    [AttestationQuery::to(target, FOLD_PAGE)...pages()]. Here the interface the fold was
    proved against, [ConsentReads], is discharged by walks over a directory that keeps the
    executor's contract, and the fold's answer over those pages is the answer over every
    row held about the target. *)

From Stdlib Require Import ZArith NArith Lia.
From stdpp Require Import base list strings gmap sorting.
From S2P Require Import Prelude RustStd Json Precedence Consent Query.

Open Scope string_scope.
Open Scope list_scope.
Open Scope persist_scope.

(** The federation-tier rows a directory holds about a key. *)
Definition held_about (store : list Attestation) (target : string) : list Attestation :=
  List.filter (fun a => (attested_key_id a =s target) && (tier a =s attestation_tier.FEDERATION)) store.

(** The two queries of [scoped_fold_rows]. *)
Definition authored_query (target p prefix : string) : AttestationQuery :=
  dimension_prefix (authored_by (to_key target FOLD_PAGE) p) prefix.
Definition prefix_query (target prefix : string) : AttestationQuery :=
  dimension_prefix (to_key target FOLD_PAGE) prefix.

Lemma authored_query_admits target p prefix a :
  admits (authored_query target p prefix) a = true <->
  (attested_key_id a = target /\ tier a = attestation_tier.FEDERATION) /\
  attesting_key_id a = p /\ dimension_under prefix a = true.
Proof.
  unfold admits, dimension_under, row_dimension, envelope_dimension. simpl.
  assert (Hn : forall o : option string, is_some_and o (fun _ => false) = false) by (by intros []).
  rewrite Hn. simpl. rewrite !andb_true_r, !andb_true_iff, !String.eqb_eq. unfold is_some_and. tauto.
Qed.

Lemma prefix_query_admits target prefix a :
  admits (prefix_query target prefix) a = true <->
  (attested_key_id a = target /\ tier a = attestation_tier.FEDERATION) /\ dimension_under prefix a = true.
Proof.
  unfold admits, dimension_under, row_dimension, envelope_dimension. simpl.
  assert (Hn : forall o : option string, is_some_and o (fun _ => false) = false) by (by intros []).
  rewrite Hn. simpl. rewrite !andb_true_r, !andb_true_iff, !String.eqb_eq. unfold is_some_and. tauto.
Qed.

Lemma held_about_In store target a :
  In a (held_about store target) <->
  In a store /\ attested_key_id a = target /\ tier a = attestation_tier.FEDERATION.
Proof. unfold held_about. by rewrite filter_In, andb_true_iff, !String.eqb_eq. Qed.

Section Paged.
Context (store : list Attestation) (run : Exec) `{HS : !Serves store run}.
(** [list_composers_referencing_any(ids, Some(target), None)], the directory's one unpaged
    read, with the membership it documents. *)
Context (composers : list string -> string -> option (list Attestation)).
Hypothesis composers_member : forall ids target l, composers ids target = Some l ->
  forall a, In a l <-> In a (held_about store target) /\
    is_structural_composer (Json.attestation_type a) = true /\
    exists id, In id ids /\ references_attestation_id_from_envelope (attestation_envelope a) = Some id.

(** The paged reads are the reads the fold was proved against. *)
Program Definition paged_reads : ConsentReads (held_about store) := {|
  read_authored target p prefix := read_all run store (authored_query target p prefix);
  read_prefix target prefix := read_all run store (prefix_query target prefix);
  list_composers_referencing_any := composers;
|}.
Next Obligation.
  simpl. intros target p prefix l E a. rewrite read_all_answer in E by done. injection E as <-.
  rewrite answer_In, authored_query_admits, held_about_In. tauto.
Qed.
Next Obligation.
  simpl. intros target prefix l E a. rewrite read_all_answer in E by done. injection E as <-.
  rewrite answer_In, prefix_query_admits, held_about_In. tauto.
Qed.
Next Obligation. exact composers_member. Qed.

Lemma read_principals_total target principals rows :
  is_Some (@read_principals _ paged_reads target principals rows).
Proof.
  revert rows. induction principals as [|p ps IH]; intros rows; [eauto|].
  cbn [read_principals read_authored paged_reads]. rewrite read_all_answer by done. apply IH.
Qed.
End Paged.

(** C29. Consent over pages: a directory that keeps the paged read's contract (and answers
    its composer read) always gives the consent fold its rows, and the answer over them is
    the answer over every row it holds about the target, for every principal asked for. *)
Theorem consent_over_pages `{Chrono} (store : list Attestation) (run : Exec)
    (composers : list string -> string -> option (list Attestation))
    (HS : Serves store run)
    (Hmember : forall ids target l, composers ids target = Some l ->
       forall a, In a l <-> In a (held_about store target) /\
         is_structural_composer (Json.attestation_type a) = true /\
         exists id, In id ids /\ references_attestation_id_from_envelope (attestation_envelope a) = Some id)
    (Hserved : forall ids target, is_Some (composers ids target))
    (rt : RowTypes) (target : string) (principals : list string) (subject : string) (now : instant)
    (scoped : option (string * option string)) :
  In subject principals ->
  exists rows,
    @scoped_fold_rows _ (paged_reads store run composers Hmember) target principals = Some rows /\
    fold_winner rt rows subject now scoped = fold_winner rt (held_about store target) subject now scoped.
Proof.
  intros Hp. set (R := paged_reads store run composers Hmember).
  assert (Hrows : exists rows, @scoped_fold_rows _ R target principals = Some rows).
  { subst R. unfold scoped_fold_rows.
    destruct (read_principals_total store run composers Hmember target principals []) as [rows ->].
    cbn [mbind option_bind read_prefix paged_reads]. rewrite read_all_answer by done.
    cbn [mbind option_bind list_composers_referencing_any paged_reads].
    edestruct (Hserved) as [l ->]. cbn. eauto. }
  destruct Hrows as [rows Hrows]. exists rows. split; [done|].
  apply (@scoped_rows_suffice _ _ R rt target principals); [|done..].
  apply NoDup_filter_ids, HS.
Qed.

Definition memory_composers (store : list Attestation) (ids : list string) (target : string)
    : option (list Attestation) :=
  @list_composers_referencing_any _ (memory_reads (held_about store)) ids target.

Lemma consent_over_pages_witness :
  exists rows,
    fold_winner CnSamples.rt0 rows "s" 30%Z None
    = fold_winner CnSamples.rt0
        (held_about [CnSamples.withdrawal; CnSamples.stranger; CnSamples.grant] "s") "s" 30%Z None /\
    length rows = 2.
Proof.
  set (store := [CnSamples.withdrawal; CnSamples.stranger; CnSamples.grant]).
  assert (HS : Serves store (memory_exec store)).
  { apply memory_exec_serves. vm_compute. repeat constructor; set_solver. }
  pose (Hm := fun ids target => @composers_spec _ (memory_reads (held_about store)) ids target).
  destruct (consent_over_pages store (memory_exec store) (memory_composers store) HS Hm
              (fun _ _ => ltac:(eexists; reflexivity)) CnSamples.rt0 "s" ["s"] "s" 30%Z None
              (or_introl eq_refl)) as (rows & Hr & Hf).
  exists rows. split; [exact Hf|].
  vm_compute in Hr. injection Hr as <-. reflexivity.
Defined.
