(* ===== verification/Cache.v ===== *)
(** * The substrate cache

    [src/src/cache/]: keys and buckets ([key.rs]), the bounded LRU ([lru.rs]), the counters
    ([stats.rs]) and the cache over them ([mod.rs]).

    [HashMap<CacheKey, Slot>] is a map from the key's digest, since keys are equal when
    their digests are; [Instant] and [Duration] are nanosecond counts; the clock reading
    [Instant::now()] is an argument. A lock's critical section is one function of the
    state: [lookup] and [fill] are the two sections of [get_or_compute]. *)

From Stdlib Require Import ZArith NArith Lia Ascii.
From stdpp Require Import base list strings gmap.
From S2P Require Import Prelude RustStd Bytes.

Open Scope string_scope.
Open Scope list_scope.
Open Scope persist_scope.

(** ** Buckets and keys *)

(** Bucket width in milliseconds, clamped to 1 and to [i64::MAX]. *)
Definition bucket_ms (bucket : Z) : Z := Z.max 1 (Z.min (bucket / 1000000) i64_max).

(** [div_euclid] by a positive width is [Z.div]. *)
Definition bucket_of (unix_ms bucket : Z) : Z := (unix_ms / bucket_ms bucket)%Z.

Definition buckets_for_window (start_unix_ms end_unix_ms bucket : Z) : list Z :=
  let '(lo, hi) := if (start_unix_ms <=? end_unix_ms)%Z
                   then (start_unix_ms, end_unix_ms) else (end_unix_ms, start_unix_ms) in
  let first := bucket_of lo bucket in
  let last := bucket_of hi bucket in
  map (fun i => (first + Z.of_nat i)%Z) (seq 0 (Z.to_nat (last - first + 1))).

Record CacheKey := mk_CacheKey {
  digest : string;
  first_bucket : Z;
  last_bucket : Z;
}.

(** A string with its trailing NUL. *)
Definition with_nul (s : string) : string := s +:+ String "000" "".

(** The bytes [CacheKey::new] hashes. *)
Definition key_preimage (method_id filter_digest scope_digest : string) (first last bucket : Z) : string :=
  with_nul "CacheKey:v4.0" +:+ framed method_id +:+ filter_digest +:+ scope_digest
  +:+ le64 first +:+ le64 last +:+ le64 (bucket_ms bucket).

Section Hash.
(** [Sha256], of the [sha2] crate. *)
Context (sha256 : string -> string).

Definition new_key (method_id filter_digest scope_digest : string)
    (window_start window_end bucket : Z) : CacheKey :=
  let '(lo, hi) := if (window_start <=? window_end)%Z
                   then (window_start, window_end) else (window_end, window_start) in
  let first := bucket_of lo bucket in
  let last := bucket_of hi bucket in
  mk_CacheKey (sha256 (key_preimage method_id filter_digest scope_digest first last bucket)) first last.

(** The bytes [scope_digest] hashes. *)
Definition scope_preimage (authenticated : bool) (identity : string) (family community : list string)
    (occurrence : string) (self_keys : list string) : string :=
  with_nul "CallerScope:v46.3.1" +:+
  if authenticated then
    String "001" "" +:+ framed identity +:+ framed_list (sort_strings family)
    +:+ framed_list (sort_strings community) +:+ framed occurrence +:+ framed_list (sort_strings self_keys)
  else String "000" "".

Definition scope_digest (authenticated : bool) (identity : string) (family community : list string)
    (occurrence : string) (self_keys : list string) : string :=
  sha256 (scope_preimage authenticated identity family community occurrence self_keys).
End Hash.

Definition overlaps_bucket (k : CacheKey) (b : Z) : bool :=
  (first_bucket k <=? b)%Z && (b <=? last_bucket k)%Z.

(** ** The LRU *)

Definition wrapping_add (x n : N) : N := ((x + n) mod (u64_max + 1))%N.
Definition saturating_add (x y : N) : N := N.min (x + y) usize_max.
(** [N]'s subtraction stops at 0, as [saturating_sub] does. *)
Definition saturating_sub (x y : N) : N := (x - y)%N.

Section Lru.
Context {T : Type}.

Record CacheEntry := mk_CacheEntry { value : T; byte_size : N; inserted_at : Z }.

Definition is_expired (e : CacheEntry) (ttl now : Z) : bool :=
  (ttl <=? Z.max 0 (now - inserted_at e))%Z.

Record Slot := mk_Slot { entry : CacheEntry; last_tick : N }.

Record LruCache := mk_LruCache {
  lru_map : gmap string (CacheKey * Slot);
  max_entries : N;
  max_bytes : N;
  bytes_resident : N;
  tick : N;
}.

Definition lru_new (max_entries max_bytes : N) : LruCache := mk_LruCache ∅ max_entries max_bytes 0 0.

Definition lru_len (c : LruCache) : N := N.of_nat (size (lru_map c)).

Definition next_tick (c : LruCache) : LruCache :=
  mk_LruCache (lru_map c) (max_entries c) (max_bytes c) (bytes_resident c) (wrapping_add (tick c) 1).

(** [remove_internal]: whether the key was resident, and the cache without it. *)
Definition remove_internal (d : string) (c : LruCache) : bool * LruCache :=
  match lru_map c !! d with
  | Some (_, s) =>
      (true, mk_LruCache (delete d (lru_map c)) (max_entries c) (max_bytes c)
               (saturating_sub (bytes_resident c) (byte_size (entry s))) (tick c))
  | None => (false, c)
  end.

(** [get]: the hit, whether an expired entry was dropped, and the cache after. *)
Definition lru_get (d : string) (ttl now : Z) (c : LruCache) : option T * N * LruCache :=
  match lru_map c !! d with
  | None => (None, 0%N, c)
  | Some (k, s) =>
      if is_expired (entry s) ttl now then (None, 1%N, snd (remove_internal d c))
      else
        let c := next_tick c in
        (Some (value (entry s)), 0%N,
         mk_LruCache (<[d := (k, mk_Slot (entry s) (tick c))]> (lru_map c))
           (max_entries c) (max_bytes c) (bytes_resident c) (tick c))
  end.

Definition over_capacity (c : LruCache) : bool :=
  (max_entries c <? lru_len c)%N || (max_bytes c <? bytes_resident c)%N.

(** [map.iter().min_by_key(|(_, slot)| slot.last_tick)]: the first of the least. *)
Definition lru_victim (c : LruCache) : option string :=
  match map_to_list (lru_map c) with
  | [] => None
  | x :: l => Some (fst (fold_best (fun a b => (last_tick (snd (snd a)) <? last_tick (snd (snd b)))%N) x l))
  end.

Definition evict_lru_victim (c : LruCache) : option (string * LruCache) :=
  match lru_victim c with
  | Some d => Some (d, snd (remove_internal d c))
  | None => None
  end.

(** The eviction loop of [insert]; each round removes an entry, so the entries at its
    start bound its rounds. *)
Fixpoint evict_loop (fuel : nat) (c : LruCache) (evicted : N) : LruCache * N :=
  match fuel with
  | O => (c, evicted)
  | S fuel' =>
      if over_capacity c then
        match evict_lru_victim c with
        | Some (_, c') => evict_loop fuel' c' (evicted + 1)
        | None => (c, evicted)
        end
      else (c, evicted)
  end.

(** [insert] up to its loop. *)
Definition place (k : CacheKey) (e : CacheEntry) (c : LruCache) : LruCache :=
  let c := next_tick c in
  let t := tick c in
  let bytes := match lru_map c !! digest k with
               | Some (_, old) => saturating_sub (bytes_resident c) (byte_size (entry old))
               | None => bytes_resident c
               end in
  mk_LruCache (<[digest k := (k, mk_Slot e t)]> (delete (digest k) (lru_map c)))
    (max_entries c) (max_bytes c) (saturating_add bytes (byte_size e)) t.

Definition lru_insert (k : CacheKey) (e : CacheEntry) (c : LruCache) : LruCache * N :=
  let c := place k e c in
  evict_loop (size (lru_map c)) c 0.

(** Remove each of a list of keys, counting those that were resident. *)
Definition remove_all (ds : list string) (c : LruCache) : LruCache * N :=
  fold_left (fun '(c, n) d => let '(b, c') := remove_internal d c in (c', if (b : bool) then (n + 1)%N else n))
    ds (c, 0%N).

Definition expired_keys (ttl now : Z) (c : LruCache) : list string :=
  (List.filter (fun x => is_expired (entry (snd (snd x))) ttl now) (map_to_list (lru_map c))).*1.

Definition evict_expired (ttl now : Z) (c : LruCache) : LruCache * list string :=
  let ds := expired_keys ttl now c in
  (fst (remove_all ds c), ds).

Definition contains_resident (d : string) (c : LruCache) : bool := bool_decide (is_Some (lru_map c !! d)).

Definition keys_overlapping_bucket (b : Z) (c : LruCache) : list string :=
  (List.filter (fun x => overlaps_bucket (fst (snd x)) b) (map_to_list (lru_map c))).*1.

(** ** Counters *)

Record CacheStats := mk_CacheStats {
  hits : N;
  misses : N;
  evictions_lru : N;
  evictions_ttl : N;
  invalidations_write : N;
  stat_bytes_resident : N;
  stat_entries_resident : N;
}.

Definition stats0 : CacheStats := mk_CacheStats 0 0 0 0 0 0 0.

Definition record_hit (s : CacheStats) : CacheStats :=
  mk_CacheStats (wrapping_add (hits s) 1) (misses s) (evictions_lru s) (evictions_ttl s)
    (invalidations_write s) (stat_bytes_resident s) (stat_entries_resident s).
Definition record_miss (s : CacheStats) : CacheStats :=
  mk_CacheStats (hits s) (wrapping_add (misses s) 1) (evictions_lru s) (evictions_ttl s)
    (invalidations_write s) (stat_bytes_resident s) (stat_entries_resident s).
Definition record_eviction_lru (n : N) (s : CacheStats) : CacheStats :=
  mk_CacheStats (hits s) (misses s) (wrapping_add (evictions_lru s) n) (evictions_ttl s)
    (invalidations_write s) (stat_bytes_resident s) (stat_entries_resident s).
Definition record_eviction_ttl (n : N) (s : CacheStats) : CacheStats :=
  mk_CacheStats (hits s) (misses s) (evictions_lru s) (wrapping_add (evictions_ttl s) n)
    (invalidations_write s) (stat_bytes_resident s) (stat_entries_resident s).
Definition record_invalidation_write (n : N) (s : CacheStats) : CacheStats :=
  mk_CacheStats (hits s) (misses s) (evictions_lru s) (evictions_ttl s)
    (wrapping_add (invalidations_write s) n) (stat_bytes_resident s) (stat_entries_resident s).
Definition set_residency (b e : N) (s : CacheStats) : CacheStats :=
  mk_CacheStats (hits s) (misses s) (evictions_lru s) (evictions_ttl s)
    (invalidations_write s) b e.

(** ** The cache *)

Record CacheConfig := mk_CacheConfig {
  cfg_max_entries : N;
  cfg_max_bytes : N;
  cfg_ttl : Z;
  cfg_invalidation_bucket : Z;
}.

Inductive DeploymentTier := Mobile | Edge | Server.

Definition default_for_tier (t : DeploymentTier) : CacheConfig :=
  match t with
  | Mobile => mk_CacheConfig 256 (8 * 1024 * 1024) 30000000000 3600000000000
  | Edge => mk_CacheConfig 512 (32 * 1024 * 1024) 30000000000 3600000000000
  | Server => mk_CacheConfig 1024 (64 * 1024 * 1024) 30000000000 3600000000000
  end.

Record Cache := mk_Cache { inner : LruCache; config : CacheConfig; stats : CacheStats }.

Definition with_config (cfg : CacheConfig) : Cache :=
  mk_Cache (lru_new (cfg_max_entries cfg) (cfg_max_bytes cfg)) cfg stats0.

Definition refresh_residency (c : Cache) : Cache :=
  mk_Cache (inner c) (config c) (set_residency (bytes_resident (inner c)) (lru_len (inner c)) (stats c)).

Definition with_inner (l : LruCache) (f : CacheStats -> CacheStats) (c : Cache) : Cache :=
  mk_Cache l (config c) (f (stats c)).

(** The first critical section of [get_or_compute]: a live hit, or the miss. The miss is
    recorded right after it. *)
Definition lookup (now : Z) (k : CacheKey) (c : Cache) : option T * Cache :=
  let '(hit, ev, l) := lru_get (digest k) (cfg_ttl (config c)) now (inner c) in
  let c := with_inner l (if (0 <? ev)%N then record_eviction_ttl ev else id) c in
  let c := if (0 <? ev)%N then refresh_residency c else c in
  match hit with
  | Some v => (Some v, refresh_residency (with_inner l record_hit c))
  | None => (None, with_inner l record_miss c)
  end.

(** The second: store what was computed, stamped with the first section's clock. *)
Definition fill (now : Z) (k : CacheKey) (v : T) (size : N) (c : Cache) : Cache :=
  let '(l, ev) := lru_insert k (mk_CacheEntry v size now) (inner c) in
  refresh_residency (with_inner l (if (0 <? ev)%N then record_eviction_lru ev else id) c).

(** [get_or_compute] with no other caller in between. *)
Definition get_or_compute {E} (now : Z) (k : CacheKey) (compute : E + (T * N)) (c : Cache)
    : (E + T) * Cache :=
  match lookup now k c with
  | (Some v, c) => (inr v, c)
  | (None, c) =>
      match compute with
      | inl e => (inl e, c)
      | inr (v, size) => (inr v, fill now k v size c)
      end
  end.

Definition try_get (now : Z) (k : CacheKey) (c : Cache) : option T * Cache := lookup now k c.

Definition store (now : Z) (k : CacheKey) (v : T) (size : N) (c : Cache) : T * Cache :=
  (v, fill now k v size c).

Definition invalidate_write (write_unix_ms : Z) (c : Cache) : N * Cache :=
  let wb := bucket_of write_unix_ms (cfg_invalidation_bucket (config c)) in
  let '(l, n) := remove_all (keys_overlapping_bucket wb (inner c)) (inner c) in
  (n, refresh_residency (with_inner l (if (0 <? n)%N then record_invalidation_write n else id) c)).

Definition sweep_expired (now : Z) (c : Cache) : N * Cache :=
  let '(l, ds) := evict_expired (cfg_ttl (config c)) now (inner c) in
  let n := len ds in
  (n, refresh_residency (with_inner l (if (0 <? n)%N then record_eviction_ttl n else id) c)).
End Lru.

Arguments CacheEntry : clear implicits.
Arguments Slot : clear implicits.
Arguments LruCache : clear implicits.
Arguments Cache : clear implicits.

(** ** The LRU's invariant *)

Section Invariant.
Context {T : Type}.
Implicit Types (c : LruCache T) (m : gmap string (CacheKey * Slot T)).

(** The declared sizes of the resident entries. *)
Definition size_of (x : CacheKey * Slot T) : N := byte_size (entry (snd x)).
Definition total m : N := map_fold (fun _ x acc => (size_of x + acc)%N) 0%N m.

Record lru_ok c : Prop := {
  ok_keys : forall d k s, lru_map c !! d = Some (k, s) -> digest k = d;
  ok_bytes : bytes_resident c = total (lru_map c);
  ok_ticks : forall d k s, lru_map c !! d = Some (k, s) -> (last_tick s <= tick c)%N;
  ok_distinct : forall d1 d2 k1 k2 s1 s2, lru_map c !! d1 = Some (k1, s1) ->
    lru_map c !! d2 = Some (k2, s2) -> last_tick s1 = last_tick s2 -> d1 = d2;
}.

Lemma total_insert m d x : m !! d = None -> total (<[d := x]> m) = (size_of x + total m)%N.
Proof. intros Hd. unfold total. rewrite map_fold_insert_L; [done| |done]. intros. lia. Qed.

Lemma total_delete m d x : m !! d = Some x -> (total m = size_of x + total (delete d m))%N.
Proof.
  intros Hd. rewrite <- (insert_delete_id m d x Hd) at 1. apply total_insert. apply lookup_delete_eq.
Qed.

Lemma total_delete_le m d : (total (delete d m) <= total m)%N.
Proof.
  destruct (m !! d) as [x|] eqn:E; [rewrite (total_delete m d x E); lia|]. by rewrite delete_id.
Qed.

Lemma remove_spec d c :
  lru_ok c ->
  let c' := snd (remove_internal d c) in
  lru_ok c' /\ lru_map c' = delete d (lru_map c) /\ max_entries c' = max_entries c /\
  max_bytes c' = max_bytes c /\ tick c' = tick c /\ (bytes_resident c' <= bytes_resident c)%N /\
  fst (remove_internal d c) = contains_resident d c.
Proof.
  intros [Hk Hb Ht Hd]. unfold remove_internal, contains_resident.
  destruct (lru_map c !! d) as [[k s]|] eqn:E; simpl.
  - split_and!; try done; [|unfold saturating_sub; lia].
    split; simpl.
    + intros d' k' s' H. apply lookup_delete_Some in H as [_ H]. eauto.
    + unfold saturating_sub. rewrite Hb, (total_delete _ _ _ E). unfold size_of. simpl. lia.
    + intros d' k' s' H. apply lookup_delete_Some in H as [_ H]. eauto.
    + intros d1 d2 k1 k2 s1 s2 H1 H2. apply lookup_delete_Some in H1 as [_ H1], H2 as [_ H2]. eauto.
  - split_and!; try done; [by symmetry; apply delete_id].
Qed.

Lemma fold_remove_spec ds : forall c n,
  lru_ok c ->
  let '(c', n') := fold_left
    (fun '(c, n) d => let '(b, c') := remove_internal d c in (c', if (b : bool) then (n + 1)%N else n))
    ds (c, n) in
  lru_ok c' /\ (forall d, lru_map c' !! d = if bool_decide (d ∈ ds) then None else lru_map c !! d) /\
  max_entries c' = max_entries c /\ max_bytes c' = max_bytes c /\ tick c' = tick c /\
  (bytes_resident c' <= bytes_resident c)%N /\
  (NoDup ds -> (forall d, In d ds -> is_Some (lru_map c !! d)) -> n' = (n + len ds)%N).
Proof.
  induction ds as [|d ds IH]; intros c n Hok.
  { simpl. split_and!; auto; try done. intros. rewrite len_nil. lia. }
  cbn [fold_left]. destruct (remove_spec d c Hok) as (Hok' & Hm & He & Hx & Ht & Hle & Hc).
  destruct (remove_internal d c) as [b c1]. simpl in *.
  specialize (IH c1 (if b then n + 1 else n)%N Hok').
  destruct (fold_left _ ds _) as [c2 n2]. destruct IH as (Hok2 & Hm2 & He2 & Hx2 & Ht2 & Hle2 & Hn2).
  split_and!; try done; try congruence; [..|lia|].
  - intros d'. rewrite Hm2, Hm. destruct (decide (d = d')) as [<-|Hne].
    + rewrite lookup_delete_eq. rewrite (bool_decide_eq_true_2 (d ∈ d :: ds)) by (by left).
      by destruct (bool_decide _).
    + rewrite lookup_delete_ne by done. destruct (decide (d' ∈ ds)).
      * rewrite !bool_decide_eq_true_2; [done|by right|done].
      * rewrite !bool_decide_eq_false_2; [done|set_solver|done].
  - intros Hnd Hres. apply NoDup_cons in Hnd as [Hni Hnd].
    assert (b = true) as -> by (rewrite Hc; apply bool_decide_eq_true_2, Hres; by left).
    rewrite Hn2, len_cons; [lia|done|]. intros d' Hd'. rewrite Hm, lookup_delete_ne; [apply Hres; by right|].
    intros ->. by apply Hni, list_elem_of_In.
Qed.

Lemma remove_all_spec ds c :
  lru_ok c ->
  let '(c', n) := remove_all ds c in
  lru_ok c' /\ (forall d, lru_map c' !! d = if bool_decide (d ∈ ds) then None else lru_map c !! d) /\
  max_entries c' = max_entries c /\ max_bytes c' = max_bytes c /\ tick c' = tick c /\
  (bytes_resident c' <= bytes_resident c)%N /\
  (NoDup ds -> (forall d, In d ds -> is_Some (lru_map c !! d)) -> n = len ds).
Proof.
  intros Hok. unfold remove_all. pose proof (fold_remove_spec ds c 0 Hok) as H.
  destruct (fold_left _ ds _) as [c' n]. destruct H as (? & ? & ? & ? & ? & ? & Hn).
  split_and!; try done.
Qed.

(** The keys a filter of the resident entries names: distinct, and resident. *)
Lemma filter_keys_spec (f : string * (CacheKey * Slot T) -> bool) c :
  NoDup ((List.filter f (map_to_list (lru_map c))).*1) /\
  forall d, In d ((List.filter f (map_to_list (lru_map c))).*1) <->
    exists x, lru_map c !! d = Some x /\ f (d, x) = true.
Proof.
  split.
  - assert (Hsub : sublist ((List.filter f (map_to_list (lru_map c))).*1) ((map_to_list (lru_map c)).*1)).
    { apply fmap_sublist. generalize (map_to_list (lru_map c)). intros l.
      induction l as [|x l IH]; simpl; [constructor|]. destruct (f x); by constructor. }
    eapply sublist_NoDup; [|exact Hsub]. apply NoDup_fst_map_to_list.
  - intros d. rewrite <- list_elem_of_In, list_elem_of_fmap. split.
    + intros ([d' x] & -> & Hin). apply list_elem_of_In, filter_In in Hin as [Hin Hf].
      apply list_elem_of_In, elem_of_map_to_list in Hin. eauto.
    + intros (x & Hx & Hf). exists (d, x). split; [done|]. apply list_elem_of_In, filter_In.
      split; [|done]. by apply list_elem_of_In, elem_of_map_to_list.
Qed.

Lemma lru_len_delete d c c' :
  lru_map c' = delete d (lru_map c) -> is_Some (lru_map c !! d) -> (lru_len c = lru_len c' + 1)%N.
Proof.
  intros Hm [x Hx]. unfold lru_len. rewrite Hm, <- (insert_delete_id _ _ _ Hx) at 1.
  rewrite map_size_insert_None by apply lookup_delete_eq. lia.
Qed.

(** The victim is resident and has the least tick. *)
Lemma victim_spec c d :
  lru_victim c = Some d ->
  exists k s, lru_map c !! d = Some (k, s) /\
    forall d' k' s', lru_map c !! d' = Some (k', s') -> (last_tick s <= last_tick s')%N.
Proof.
  unfold lru_victim. destruct (map_to_list (lru_map c)) as [|x l] eqn:E; [done|]. intros [= <-].
  set (better := fun a b : string * (CacheKey * Slot T) => _).
  assert (Hin : In (fold_best better x l) (map_to_list (lru_map c))) by (rewrite E; apply fold_best_in).
  assert (Hmax : forall y, In y (map_to_list (lru_map c)) -> better y (fold_best better x l) = false).
  { rewrite E. apply fold_best_max; unfold better; intros; breflect; lia. }
  apply list_elem_of_In in Hin. destruct (fold_best better x l) as [d [k s]].
  apply elem_of_map_to_list in Hin. exists k, s. split; [done|]. intros d' k' s' H'.
  specialize (Hmax (d', (k', s'))). apply elem_of_map_to_list, list_elem_of_In, Hmax in H'.
  unfold better in H'. simpl in H'. breflect. lia.
Qed.

Lemma victim_none c : lru_victim c = None -> lru_map c = ∅.
Proof.
  unfold lru_victim. destruct (map_to_list (lru_map c)) eqn:E; [|done]. intros _.
  by apply map_to_list_empty_iff.
Qed.

Lemma empty_fits c : lru_ok c -> lru_map c = ∅ -> over_capacity c = false.
Proof.
  intros Hok E. unfold over_capacity, lru_len. rewrite (ok_bytes _ Hok), E. unfold total.
  rewrite map_fold_empty, map_size_empty. simpl. by destruct (max_entries c), (max_bytes c).
Qed.

(** What the loop evicts is older than what it keeps, and it stops within the bounds. *)
Lemma evict_loop_spec fuel : forall c n,
  lru_ok c -> size (lru_map c) <= fuel ->
  let '(c', n') := evict_loop fuel c n in
  lru_ok c' /\ over_capacity c' = false /\ lru_map c' ⊆ lru_map c /\
  max_entries c' = max_entries c /\ max_bytes c' = max_bytes c /\ tick c' = tick c /\
  (n' - n = lru_len c - lru_len c')%N /\ (n <= n')%N /\ (lru_len c' <= lru_len c)%N /\
  (forall d d' k k' s s', lru_map c !! d = Some (k, s) -> lru_map c' !! d = None ->
     lru_map c' !! d' = Some (k', s') -> (last_tick s < last_tick s')%N).
Proof.
  induction fuel as [|fuel IH]; intros c n Hok Hf.
  { assert (E : lru_map c = ∅) by (apply map_size_empty_inv; lia). cbn [evict_loop].
    split_and!; try done; [by apply empty_fits|lia..|]. intros d d' k k' s s' H1 H2. congruence. }
  cbn [evict_loop]. destruct (over_capacity c) eqn:Eo.
  2: { split_and!; try done; [lia..|]. intros d d' k k' s s' H1 H2. congruence. }
  unfold evict_lru_victim. destruct (lru_victim c) as [v|] eqn:Ev.
  2: { apply victim_none in Ev. by rewrite empty_fits in Eo. }
  destruct (victim_spec _ _ Ev) as (kv & sv & Hv & Hmin).
  destruct (remove_spec v c Hok) as (Hok' & Hm & He & Hx & Ht & _ & _).
  set (c1 := snd (remove_internal v c)) in *.
  assert (Hlen : (lru_len c = lru_len c1 + 1)%N) by (by apply (lru_len_delete v); eauto).
  specialize (IH c1 (n + 1)%N Hok'). destruct (evict_loop fuel c1 (n + 1)) as [c2 n2].
  destruct IH as (Hok2 & Ho2 & Hsub & He2 & Hx2 & Ht2 & Hn2 & Hle2 & Hl2 & Hord).
  { unfold lru_len in Hlen. lia. }
  split_and!; try done; try congruence; try lia.
  - etransitivity; [exact Hsub|]. rewrite Hm. apply delete_subseteq.
  - intros d d' k k' s s' Hd Hd2 Hd'. assert (Hd1 : lru_map c1 !! d' = Some (k', s')).
    { eapply lookup_weaken; [exact Hd'|done]. }
    destruct (decide (d = v)) as [->|Hne].
    + assert (s = sv) as -> by congruence. rewrite Hm in Hd1.
      apply lookup_delete_Some in Hd1 as [Hvd Hd1]. pose proof (Hmin _ _ _ Hd1).
      destruct (N.eq_dec (last_tick sv) (last_tick s')) as [Eq|]; [|lia].
      by destruct Hvd; apply (ok_distinct _ Hok _ _ _ _ _ _ Hv Hd1).
    + apply (Hord d d' k k' s s'); auto. rewrite Hm. by rewrite lookup_delete_ne.
Qed.

(** Every eviction was needed: putting the youngest evicted entry back would break a
    bound. *)
Lemma evict_loop_needed fuel : forall c n,
  lru_ok c -> size (lru_map c) <= fuel ->
  let c' := fst (evict_loop fuel c n) in
  c' = c \/
  exists d k s, lru_map c !! d = Some (k, s) /\ lru_map c' !! d = None /\
    (forall d1 k1 s1, lru_map c !! d1 = Some (k1, s1) -> lru_map c' !! d1 = None ->
       (last_tick s1 <= last_tick s)%N) /\
    ((max_entries c < lru_len c' + 1)%N \/ (max_bytes c < bytes_resident c' + byte_size (entry s))%N).
Proof.
  induction fuel as [|fuel IH]; intros c n Hok Hf; cbn [evict_loop]; [by left|].
  destruct (over_capacity c) eqn:Eo; [|by left].
  unfold evict_lru_victim. destruct (lru_victim c) as [v|] eqn:Ev; [|by left]. right.
  destruct (victim_spec _ _ Ev) as (kv & sv & Hv & Hmin).
  destruct (remove_spec v c Hok) as (Hok' & Hm & He & Hx & Ht & _ & _).
  set (c1 := snd (remove_internal v c)) in *.
  assert (Hlen : (lru_len c = lru_len c1 + 1)%N) by (by apply (lru_len_delete v); eauto).
  assert (Hf1 : size (lru_map c1) <= fuel) by (unfold lru_len in Hlen; lia).
  pose proof (evict_loop_spec fuel c1 (n + 1) Hok' Hf1) as Hs.
  destruct (IH c1 (n + 1)%N Hok' Hf1) as [E|(d & k & s & Hd & Hd' & Hold & Hwhy)].
  - rewrite E in *. exists v, kv, sv. split_and!; [done|rewrite Hm; apply lookup_delete_eq|..].
    + intros d1 k1 s1 H1 H2. rewrite Hm in H2. destruct (decide (v = d1)) as [<-|Hne].
      * rewrite Hv in H1. injection H1 as _ <-. lia.
      * rewrite lookup_delete_ne in H2 by done. congruence.
    + pose proof (proj1 (orb_true_iff _ _) Eo) as Eo'. rewrite !N.ltb_lt in Eo'.
      rewrite (ok_bytes _ Hok), (total_delete _ _ _ Hv) in Eo'. rewrite (ok_bytes _ Hok'), Hm.
      unfold size_of at 1 in Eo'. cbn [snd] in Eo'. lia.
  - destruct (evict_loop fuel c1 (n + 1)) as [c2 n2]. cbn [fst] in *.
    destruct Hs as (_ & _ & Hsub & _). rewrite Hm in Hd. apply lookup_delete_Some in Hd as [Hvd Hd].
    exists d, k, s. split_and!; [done..| |by rewrite <- He, <- Hx].
    intros d1 k1 s1 H1 H2. destruct (decide (v = d1)) as [<-|Hne].
    + rewrite Hv in H1. injection H1 as _ <-. eauto.
    + apply (Hold d1 k1 s1); [rewrite Hm; by rewrite lookup_delete_ne|done].
Qed.

(** [insert] up to its loop keeps the accounting, while the tick and the bytes have room. *)
Lemma place_spec k e c :
  lru_ok c -> (tick c < u64_max)%N -> (bytes_resident c + byte_size e <= usize_max)%N ->
  let c' := place k e c in
  lru_ok c' /\ lru_map c' = <[digest k := (k, mk_Slot e (tick c + 1))]> (delete (digest k) (lru_map c)) /\
  tick c' = (tick c + 1)%N /\ max_entries c' = max_entries c /\ max_bytes c' = max_bytes c.
Proof.
  intros [Hk Hb Ht Hd] Htick Hroom.
  assert (Hw : wrapping_add (tick c) 1 = (tick c + 1)%N).
  { unfold wrapping_add. apply N.mod_small. unfold u64_max in *. lia. }
  unfold place. cbn [next_tick lru_map tick bytes_resident max_entries max_bytes]. rewrite Hw.
  split_and!; try done. split; cbn [lru_map tick bytes_resident].
  - intros d k' s' H. apply lookup_insert_Some in H as [[<- [= <- <-]]|[_ H]]; [done|].
    apply lookup_delete_Some in H as [_ H]. eauto.
  - rewrite total_insert by apply lookup_delete_eq. unfold size_of at 1. cbn [snd entry].
    pose proof (total_delete_le (lru_map c) (digest k)).
    unfold saturating_add, saturating_sub. destruct (lru_map c !! digest k) as [[k0 old]|] eqn:E.
    + rewrite Hb, (total_delete _ _ _ E) in *. unfold size_of at 1. cbn [snd]. unfold size_of in *. simpl in *. lia.
    + rewrite delete_id by done. rewrite Hb in *. lia.
  - intros d k' s' H. apply lookup_insert_Some in H as [[<- [= <- <-]]|[_ H]]; [simpl; lia|].
    apply lookup_delete_Some in H as [_ H]. apply Ht in H. lia.
  - intros d1 d2 k1 k2 s1 s2 H1 H2 E.
    apply lookup_insert_Some in H1 as [[<- [= <- <-]]|[Hn1 H1]];
      apply lookup_insert_Some in H2 as [[<- [= <- <-]]|[Hn2 H2]]; simpl in *; auto.
    + apply lookup_delete_Some in H2 as [_ H2]. apply Ht in H2. lia.
    + apply lookup_delete_Some in H1 as [_ H1]. apply Ht in H1. lia.
    + apply lookup_delete_Some in H1 as [_ H1], H2 as [_ H2]. eauto.
Qed.

Lemma insert_spec k e c :
  lru_ok c -> (tick c < u64_max)%N -> (bytes_resident c + byte_size e <= usize_max)%N ->
  let '(c', n) := lru_insert k e c in
  lru_ok c' /\ over_capacity c' = false /\ lru_map c' ⊆ lru_map (place k e c) /\
  max_entries c' = max_entries c /\ max_bytes c' = max_bytes c /\ tick c' = (tick c + 1)%N /\
  (n = lru_len (place k e c) - lru_len c')%N /\ (lru_len c' <= lru_len (place k e c))%N /\
  (forall d d' k1 k2 s s', lru_map (place k e c) !! d = Some (k1, s) -> lru_map c' !! d = None ->
     lru_map c' !! d' = Some (k2, s') -> (last_tick s < last_tick s')%N).
Proof.
  intros Hok Ht Hr. destruct (place_spec k e c Hok Ht Hr) as (Hok' & Hm & Ht' & He & Hx).
  unfold lru_insert. pose proof (evict_loop_spec (size (lru_map (place k e c))) _ 0 Hok' (le_n _)) as H.
  destruct (evict_loop _ _ _) as [c' n]. destruct H as (? & ? & ? & ? & ? & ? & ? & ? & ? & ?).
  split_and!; try done; try congruence; lia.
Qed.

Lemma get_spec d ttl now c :
  lru_ok c -> (tick c < u64_max)%N ->
  let '(hit, ev, c') := lru_get d ttl now c in
  lru_ok c' /\ max_entries c' = max_entries c /\ max_bytes c' = max_bytes c /\
  (tick c <= tick c' <= tick c + 1)%N /\ (bytes_resident c' <= bytes_resident c)%N /\
  (lru_len c' <= lru_len c)%N /\
  (forall v, hit = Some v <-> exists k s, lru_map c !! d = Some (k, s) /\
     is_expired (entry s) ttl now = false /\ value (entry s) = v) /\
  (forall d' k' s', lru_map c' !! d' = Some (k', s') ->
     exists s0, lru_map c !! d' = Some (k', s0) /\ entry s0 = entry s').
Proof.
  intros Hok Htick. unfold lru_get. destruct (lru_map c !! d) as [[k s]|] eqn:E.
  2: { split_and!; try done; try lia; [naive_solver|]. intros d' k' s' H. eauto. }
  destruct (is_expired (entry s) ttl now) eqn:Ex.
  - destruct (remove_spec d c Hok) as (Hok' & Hm & He & Hx & Ht & Hb & _).
    split_and!; try done; try lia.
    + pose proof (lru_len_delete d c _ Hm). unfold is_Some in *. rewrite E in H.
      specialize (H ltac:(eauto)). lia.
    + intros v. split; [done|]. intros (k0 & s0 & H & Hn & _). congruence.
    + intros d' k' s' H. rewrite Hm in H. apply lookup_delete_Some in H as [_ H]. eauto.
  - assert (Hw : wrapping_add (tick c) 1 = (tick c + 1)%N).
    { unfold wrapping_add. apply N.mod_small. unfold u64_max in *. lia. }
    destruct Hok as [Hk Hb Ht Hd]. cbn [next_tick lru_map max_entries max_bytes bytes_resident tick].
    rewrite Hw. split_and!; cbn [lru_map max_entries max_bytes bytes_resident tick]; try done; try lia.
    + split; cbn [lru_map max_entries max_bytes bytes_resident tick].
      * intros d' k' s' H. apply lookup_insert_Some in H as [[<- [= <- <-]]|[_ H]]; eauto.
      * rewrite <- insert_delete_eq. rewrite total_insert by apply lookup_delete_eq.
        rewrite Hb, (total_delete _ _ _ E). done.
      * intros d' k' s' H. apply lookup_insert_Some in H as [[<- [= <- <-]]|[_ H]]; [simpl; lia|].
        apply Ht in H. lia.
      * intros d1 d2 k1 k2 s1 s2 H1 H2 Eq.
        apply lookup_insert_Some in H1 as [[<- [= <- <-]]|[Hn1 H1]];
          apply lookup_insert_Some in H2 as [[<- [= <- <-]]|[Hn2 H2]]; simpl in *; eauto;
          [apply Ht in H2|apply Ht in H1]; lia.
    + unfold lru_len. cbn [lru_map]. rewrite map_size_insert_Some by eauto. lia.
    + intros v. naive_solver.
    + intros d' k' s' H. apply lookup_insert_Some in H as [[<- [= <- <-]]|[_ H]]; eauto.
Qed.
End Invariant.

(** ** Operations as one type, and their runs *)

Inductive Op (T : Type) :=
| OpLookup (now : Z) (k : CacheKey)
| OpFill (now : Z) (k : CacheKey) (v : T) (size : N)
| OpInvalidate (write_unix_ms : Z)
| OpSweep (now : Z).
Arguments OpLookup {T}.
Arguments OpFill {T}.
Arguments OpInvalidate {T}.
Arguments OpSweep {T}.

Definition apply_op {T} (c : Cache T) (o : Op T) : Cache T :=
  match o with
  | OpLookup now k => snd (lookup now k c)
  | OpFill now k v size => fill now k v size c
  | OpInvalidate ts => snd (invalidate_write ts c)
  | OpSweep now => snd (sweep_expired now c)
  end.

Definition run_ops {T} (cfg : CacheConfig) (ops : list (Op T)) : Cache T :=
  fold_left apply_op ops (with_config cfg).

(** The operation's declared size leaves room for the byte counter. *)
Definition op_fits {T} (cfg : CacheConfig) (o : Op T) : Prop :=
  match o with OpFill _ _ _ size => (cfg_max_bytes cfg + size <= usize_max)%N | _ => True end.

(** The cache's invariant: its LRU is accounted for and within bounds, and holds its
    configuration; [n] bounds the ticks spent. *)
Record cache_ok {T} (cfg : CacheConfig) (n : N) (c : Cache T) : Prop := {
  co_lru : lru_ok (inner c);
  co_bound : over_capacity (inner c) = false;
  co_cfg : config c = cfg;
  co_entries : max_entries (inner c) = cfg_max_entries cfg;
  co_bytes : max_bytes (inner c) = cfg_max_bytes cfg;
  co_tick : (tick (inner c) <= n)%N;
}.

Lemma over_capacity_false {T} (c : LruCache T) :
  over_capacity c = false <-> (lru_len c <= max_entries c)%N /\ (bytes_resident c <= max_bytes c)%N.
Proof. unfold over_capacity. rewrite orb_false_iff, !N.ltb_ge. tauto. Qed.

Lemma subset_len {T} (c c' : LruCache T) :
  (forall d, is_Some (lru_map c' !! d) -> is_Some (lru_map c !! d)) -> (lru_len c' <= lru_len c)%N.
Proof.
  intros Hs. unfold lru_len. assert (dom (lru_map c') ⊆ dom (lru_map c)) as Hd.
  { intros d. rewrite !elem_of_dom. apply Hs. }
  apply subseteq_size in Hd. rewrite !size_dom in Hd. lia.
Qed.

Lemma lookup_inner {T} now k (c : Cache T) :
  inner (snd (lookup now k c)) = snd (lru_get (digest k) (cfg_ttl (config c)) now (inner c)) /\
  config (snd (lookup now k c)) = config c /\
  fst (lookup now k c) = fst (fst (lru_get (digest k) (cfg_ttl (config c)) now (inner c))).
Proof. unfold lookup. destruct (lru_get _ _ _ _) as [[[v|] ev] l]; by destruct (0 <? ev)%N. Qed.

Lemma fill_inner {T} now k v size (c : Cache T) :
  inner (fill now k v size c) = fst (lru_insert k (mk_CacheEntry v size now) (inner c)) /\
  config (fill now k v size c) = config c.
Proof. unfold fill. by destruct (lru_insert _ _ _) as [l ev]. Qed.

Lemma invalidate_inner {T} ts (c : Cache T) :
  let wb := bucket_of ts (cfg_invalidation_bucket (config c)) in
  inner (snd (invalidate_write ts c)) = fst (remove_all (keys_overlapping_bucket wb (inner c)) (inner c)) /\
  config (snd (invalidate_write ts c)) = config c /\
  fst (invalidate_write ts c) = snd (remove_all (keys_overlapping_bucket wb (inner c)) (inner c)).
Proof. unfold invalidate_write. by destruct (remove_all _ _) as [l n]. Qed.

Lemma sweep_inner {T} now (c : Cache T) :
  inner (snd (sweep_expired now c)) = fst (evict_expired (cfg_ttl (config c)) now (inner c)) /\
  config (snd (sweep_expired now c)) = config c.
Proof. unfold sweep_expired. by destruct (evict_expired _ _ _) as [l ds]. Qed.

(** Removing keys keeps the invariant. *)
Lemma remove_all_ok {T} cfg n (c : LruCache T) ds :
  lru_ok c -> over_capacity c = false -> max_entries c = cfg_max_entries cfg ->
  max_bytes c = cfg_max_bytes cfg -> (tick c <= n)%N ->
  let c' := fst (remove_all ds c) in
  lru_ok c' /\ over_capacity c' = false /\ max_entries c' = cfg_max_entries cfg /\
  max_bytes c' = cfg_max_bytes cfg /\ (tick c' <= n)%N.
Proof.
  intros Hok Hb He Hx Ht. pose proof (remove_all_spec ds c Hok) as H. destruct (remove_all ds c) as [c' m].
  destruct H as (Hok' & Hm & He' & Hx' & Ht' & Hle & _). simpl. split_and!; try congruence; try lia.
  apply over_capacity_false in Hb as [Hb1 Hb2]. apply over_capacity_false.
  assert (lru_len c' <= lru_len c)%N; [|lia]. apply subset_len. intros d. rewrite Hm.
  case_bool_decide; [by intros []|done].
Qed.

Lemma apply_op_ok {T} cfg n (c : Cache T) o :
  cache_ok cfg n c -> op_fits cfg o -> (n < u64_max)%N -> cache_ok cfg (n + 1) (apply_op c o).
Proof.
  intros [Hok Hb Hc He Hx Ht] Hfit Hn. destruct o as [now k|now k v size|ts|now]; cbn [apply_op].
  - destruct (lookup_inner now k c) as (Ei & Ec & _).
    pose proof (get_spec (digest k) (cfg_ttl (config c)) now (inner c) Hok ltac:(lia)) as H.
    destruct (lru_get _ _ _ _) as [[hit ev] l]. destruct H as (H1 & H2 & H3 & H4 & H5 & H6 & _).
    apply over_capacity_false in Hb as [Hb1 Hb2].
    split; rewrite ?Ei, ?Ec; simpl; try done; try congruence; [|lia].
    apply over_capacity_false. lia.
  - destruct (fill_inner now k v size c) as [Ei Ec]. pose proof (proj1 (over_capacity_false _) Hb) as [_ Hb2].
    pose proof (insert_spec k (mk_CacheEntry v size now) (inner c) Hok ltac:(lia)) as H.
    simpl in H, Hfit. specialize (H ltac:(lia)). destruct (lru_insert _ _ _) as [l ev].
    destruct H as (H1 & H2 & _ & H4 & H5 & H6 & _).
    split; rewrite ?Ei, ?Ec; simpl; try done; try congruence. lia.
  - destruct (invalidate_inner ts c) as (Ei & Ec & _). cbn zeta in Ei.
    destruct (remove_all_ok cfg n (inner c)
      (keys_overlapping_bucket (bucket_of ts (cfg_invalidation_bucket (config c))) (inner c)))
      as (H1 & H2 & H3 & H4 & H5); try done.
    split; rewrite ?Ei, ?Ec; simpl; try done. lia.
  - destruct (sweep_inner now c) as [Ei Ec].
    destruct (remove_all_ok cfg n (inner c) (expired_keys (cfg_ttl (config c)) now (inner c)))
      as (H1 & H2 & H3 & H4 & H5); try done.
    split; rewrite ?Ei, ?Ec; simpl; try done. lia.
Qed.

Lemma cache_ok_new {T} cfg : cache_ok cfg 0 (@with_config T cfg).
Proof.
  assert (lru_ok (@lru_new T (cfg_max_entries cfg) (cfg_max_bytes cfg))) as Hok.
  { split; try done; simpl; intros; by rewrite lookup_empty in *. }
  split; try done. by apply empty_fits.
Qed.

Lemma run_ops_ok {T} cfg (ops : list (Op T)) :
  Forall (op_fits cfg) ops -> (len ops <= u64_max)%N -> cache_ok cfg (len ops) (run_ops cfg ops).
Proof.
  intros Hf Hl. unfold run_ops.
  assert (H : forall n c, cache_ok cfg n c -> (n + len ops <= u64_max)%N ->
            cache_ok cfg (n + len ops) (fold_left apply_op ops c)).
  { clear Hl. induction Hf as [|o ops Ho Hf IH]; intros n c Hc Hn; simpl.
    - rewrite len_nil. by rewrite N.add_0_r.
    - rewrite len_cons in *. replace (n + (1 + len ops))%N with ((n + 1) + len ops)%N by lia.
      apply IH; [|lia]. apply apply_op_ok; [done..|lia]. }
  apply (H 0%N); [apply cache_ok_new|lia].
Qed.

(** ** Properties *)

Module CaSamples.
Definition key_at (d : string) (a b : Z) : CacheKey := mk_CacheKey d a b.
Definition cfg : CacheConfig := mk_CacheConfig 2 100 30 3600000000000.
Definition k1 := key_at "k1" 0 5.
Definition k2 := key_at "k2" 3 9.
Definition k3 := key_at "k3" 7 9.
(** Two entries, a touch of the first, and a third: the second is the one evicted. *)
Definition ops : list (Op nat) :=
  [OpFill 0 k1 10 40; OpFill 1 k2 20 40; OpLookup 2 k1; OpFill 3 k3 30 40].
End CaSamples.

Example cache_evicts_lru :
  map (fun k => fst (lookup 4 k (run_ops CaSamples.cfg CaSamples.ops)))
    [CaSamples.k1; CaSamples.k2; CaSamples.k3] = [Some 10; None; Some 30].
Proof. vm_compute. reflexivity. Qed.

(** Over any run of cache operations the cache stays within both of its bounds, and
    its byte count is exactly the sum of the resident entries' declared sizes (for fewer
    than 2^64 operations, with sizes that leave the byte counter room). *)
Theorem cache_bounded {T} (cfg : CacheConfig) (ops : list (Op T)) :
  Forall (op_fits cfg) ops -> (len ops <= u64_max)%N ->
  let c := inner (run_ops cfg ops) in
  (lru_len c <= cfg_max_entries cfg)%N /\ (bytes_resident c <= cfg_max_bytes cfg)%N /\
  bytes_resident c = total (lru_map c).
Proof.
  intros Hf Hl. destruct (run_ops_ok cfg ops Hf Hl) as [Hok Hb _ He Hx _].
  apply over_capacity_false in Hb. rewrite He, Hx in Hb. split_and!; [tauto..|]. apply Hok.
Qed.

Lemma cache_bounded_witness :
  (lru_len (inner (run_ops CaSamples.cfg CaSamples.ops)) <= 2)%N.
Proof.
  apply (cache_bounded CaSamples.cfg CaSamples.ops); [|vm_compute; discriminate].
  repeat constructor; vm_compute; discriminate.
Defined.

(** An insert evicts in least-recently-used order and no more than it must: every
    evicted entry is older than every entry kept; putting the youngest evicted entry back
    would break a bound; the new entry stays unless it alone exceeds a bound; and an entry
    larger than the byte bound empties the cache. *)
Theorem insert_evicts_lru {T} (k : CacheKey) (e : CacheEntry T) (c : LruCache T) :
  lru_ok c -> (tick c < u64_max)%N -> (bytes_resident c + byte_size e <= usize_max)%N ->
  let p := place k e c in
  let c' := fst (lru_insert k e c) in
  (forall d d' k1 k2 s s', lru_map p !! d = Some (k1, s) -> lru_map c' !! d = None ->
     lru_map c' !! d' = Some (k2, s') -> (last_tick s < last_tick s')%N) /\
  (c' = p \/ exists d k1 s, lru_map p !! d = Some (k1, s) /\ lru_map c' !! d = None /\
     ((max_entries c < lru_len c' + 1)%N \/ (max_bytes c < bytes_resident c' + byte_size (entry s))%N)) /\
  ((1 <= max_entries c)%N -> (byte_size e <= max_bytes c)%N ->
     lru_map c' !! digest k = Some (k, mk_Slot e (tick c + 1))) /\
  ((max_bytes c < byte_size e)%N -> lru_map c' = ∅).
Proof.
  intros Hok Ht Hr p c'. destruct (place_spec k e c Hok Ht Hr) as (Hokp & Hmp & Htp & Hep & Hxp).
  pose proof (insert_spec k e c Hok Ht Hr) as Hins.
  pose proof (evict_loop_needed (size (lru_map p)) p 0 Hokp (le_n _)) as Hneed. fold p in Hins, Hmp.
  change (fst (evict_loop (size (lru_map p)) p 0)) with c' in Hneed.
  destruct (lru_insert k e c) as [c0 n0] eqn:Ei. cbn [fst] in c'. subst c'.
  destruct Hins as (Hok' & Hb & Hsub & He & Hx & Htk & Hn & Hle & Hord).
  assert (Hnew : lru_map p !! digest k = Some (k, mk_Slot e (tick c + 1)))
    by (rewrite Hmp; apply lookup_insert_eq).
  assert (Hempty : lru_map c0 !! digest k = None -> lru_map c0 = ∅).
  { intros Hgone. apply map_empty. intros d. destruct (lru_map c0 !! d) as [[k2 s2]|] eqn:E2; [|done].
    pose proof (Hord _ _ _ _ _ _ Hnew Hgone E2) as Hlt. simpl in Hlt.
    pose proof (ok_ticks _ Hok' _ _ _ E2). lia. }
  split_and!; [done|..].
  - destruct Hneed as [?|(d & k1 & s & H1 & H2 & _ & H3)]; [by left|]. right.
    exists d, k1, s. rewrite <- Hep, <- Hxp. auto.
  - intros H1 Hsz. destruct (lru_map c0 !! digest k) as [x|] eqn:Ex.
    { pose proof (lookup_weaken _ _ _ _ Ex Hsub). congruence. }
    specialize (Hempty eq_refl).
    destruct Hneed as [->|(d & k1 & s & H2 & H3 & Hold & Hwhy)]; [congruence|]. exfalso.
    assert (Es : s = mk_Slot e (tick c + 1)).
    { pose proof (Hold _ _ _ Hnew Ex) as Hge. simpl in Hge. pose proof (ok_ticks _ Hokp _ _ _ H2).
      assert (d = digest k) as -> by (eapply (ok_distinct _ Hokp _ _ _ _ _ _ H2 Hnew); simpl; lia).
      congruence. }
    subst s. unfold lru_len in Hwhy. rewrite (ok_bytes _ Hok'), Hempty in Hwhy. unfold total in Hwhy.
    rewrite map_size_empty, map_fold_empty in Hwhy. simpl in Hwhy.
    lia.
  - intros Hbig. apply Hempty. destruct (lru_map c0 !! digest k) as [x|] eqn:Ex; [|done].
    pose proof (lookup_weaken _ _ _ _ Ex Hsub) as Exp. rewrite Hnew in Exp. injection Exp as <-.
    apply over_capacity_false in Hb as [_ Hb]. rewrite (ok_bytes _ Hok'), (total_delete _ _ _ Ex), Hx in Hb.
    unfold size_of at 1 in Hb. simpl in Hb. lia.
Qed.

Lemma insert_evicts_lru_witness :
  lru_map (fst (lru_insert CaSamples.k3 (mk_CacheEntry 30 200 3)
                 (inner (run_ops CaSamples.cfg CaSamples.ops)))) = ∅.
Proof.
  assert (Hok : cache_ok CaSamples.cfg 4 (run_ops CaSamples.cfg CaSamples.ops)).
  { apply (run_ops_ok CaSamples.cfg CaSamples.ops); [|vm_compute; discriminate].
    repeat constructor; vm_compute; discriminate. }
  apply (insert_evicts_lru CaSamples.k3 (mk_CacheEntry 30 200 3) _ (co_lru _ _ _ Hok));
    vm_compute; first [reflexivity|discriminate].
Defined.

(** The instants of a window are in buckets its key overlaps, the ends included. *)
Lemma window_overlaps sha256 method filter scope ws we bucket ts :
  (Z.min ws we <= ts <= Z.max ws we)%Z ->
  overlaps_bucket (new_key sha256 method filter scope ws we bucket) (bucket_of ts bucket) = true.
Proof.
  intros Hts. unfold overlaps_bucket, new_key. assert (Hpos : (0 < bucket_ms bucket)%Z) by (unfold bucket_ms; lia).
  destruct (Z.leb_spec ws we); simpl; unfold bucket_of; breflect; split; apply Z.div_le_mono; lia.
Qed.

(** A write invalidates what it must and nothing else: after [invalidate_write], no
    resident entry's window contains the write's bucket, every other entry is untouched,
    and the count returned is the number dropped. In particular a key whose window
    contains the write's instant is gone. *)
Theorem invalidate_write_exact {T} (ts : Z) (c : Cache T) :
  lru_ok (inner c) ->
  let wb := bucket_of ts (cfg_invalidation_bucket (config c)) in
  let '(n, c') := invalidate_write ts c in
  (forall d, lru_map (inner c') !! d =
     match lru_map (inner c) !! d with
     | Some (k, s) => if overlaps_bucket k wb then None else Some (k, s)
     | None => None
     end) /\
  n = len (keys_overlapping_bucket wb (inner c)) /\
  (forall sha256 method filter scope ws we d s,
     (Z.min ws we <= ts <= Z.max ws we)%Z ->
     lru_map (inner c') !! d
     <> Some (new_key sha256 method filter scope ws we (cfg_invalidation_bucket (config c)), s)).
Proof.
  intros Hok wb. pose proof (invalidate_inner ts c) as (Ei & _ & En). fold wb in Ei, En.
  destruct (invalidate_write ts c) as [n c'] eqn:Ew. cbn [fst snd] in Ei, En. rewrite Ei, En.
  pose proof (remove_all_spec (keys_overlapping_bucket wb (inner c)) (inner c) Hok) as Hr.
  destruct (remove_all _ _) as [l m]. destruct Hr as (_ & Hm & _ & _ & _ & _ & Hn). cbn [fst snd].
  destruct (filter_keys_spec (fun x => overlaps_bucket (fst (snd x)) wb) (inner c)) as [Hnd Hin].
  fold (keys_overlapping_bucket wb (inner c)) in Hnd, Hin.
  assert (Hmap : forall d, lru_map l !! d =
     match lru_map (inner c) !! d with
     | Some (k, s) => if overlaps_bucket k wb then None else Some (k, s)
     | None => None
     end).
  { intros d. rewrite Hm. case_bool_decide as Hd.
    - apply list_elem_of_In, Hin in Hd as ([k s] & -> & Hf). simpl in Hf. by rewrite Hf.
    - destruct (lru_map (inner c) !! d) as [[k s]|] eqn:E; [|done].
      destruct (overlaps_bucket k wb) eqn:Ho; [|done]. destruct Hd. apply list_elem_of_In, Hin. eauto. }
  split_and!; [done| |].
  - apply Hn; [done|]. intros d Hd. apply Hin in Hd as (x & -> & _). eauto.
  - intros sha256 method filter scope ws we d s Hts E. rewrite Hmap in E.
    destruct (lru_map (inner c) !! d) as [[k0 s0]|]; [|done]. destruct (overlaps_bucket k0 wb) eqn:Ho; [done|].
    injection E as -> _. unfold wb in Ho. by rewrite window_overlaps in Ho.
Qed.

Lemma invalidate_write_exact_witness :
  fst (invalidate_write 18000000 (run_ops CaSamples.cfg CaSamples.ops)) = 1%N /\
  lru_map (inner (snd (invalidate_write 18000000 (run_ops CaSamples.cfg CaSamples.ops)))) !! "k1" = None.
Proof.
  assert (Hok : cache_ok CaSamples.cfg 4 (run_ops CaSamples.cfg CaSamples.ops)).
  { apply (run_ops_ok CaSamples.cfg CaSamples.ops); [|vm_compute; discriminate].
    repeat constructor; vm_compute; discriminate. }
  pose proof (invalidate_write_exact 18000000 (run_ops CaSamples.cfg CaSamples.ops) (co_lru _ _ _ Hok)) as H.
  cbn zeta in H. destruct (invalidate_write _ _) as [n c']. destruct H as (Hm & Hn & _). cbn [fst snd].
  split; [rewrite Hn|rewrite Hm]; vm_compute; reflexivity.
Defined.

(** ** Key separation *)

Definition is_i64 (z : Z) : Prop := (- 2 ^ 63 <= z < 2 ^ 63)%Z.

Lemma key_preimage_inj m f s a b w m' f' s' a' b' w' :
  fits m -> fits m' -> String.length f = 32 -> String.length f' = 32 ->
  String.length s = 32 -> String.length s' = 32 ->
  is_i64 a -> is_i64 b -> is_i64 a' -> is_i64 b' ->
  key_preimage m f s a b w = key_preimage m' f' s' a' b' w' ->
  m = m' /\ f = f' /\ s = s' /\ a = a' /\ b = b' /\ bucket_ms w = bucket_ms w'.
Proof.
  intros Hm Hm' Hf Hf' Hs Hs' Ha Hb Ha' Hb' E. unfold key_preimage in E.
  apply app_inj_length in E as [_ E]; [|done]. apply framed_inj in E as [-> E]; [|done..].
  apply app_inj_length in E as [-> E]; [|lia]. apply app_inj_length in E as [-> E]; [|lia].
  apply app_inj_length in E as [Ea E]; [|by rewrite !le64_length].
  apply app_inj_length in E as [Eb E]; [|by rewrite !le64_length].
  apply le64_inj_signed in Ea, Eb; [|done..].
  apply le64_inj in E; [done|..]; unfold bucket_ms, i64_max, two64; lia.
Qed.

Lemma bucket_of_i64 ts b : is_i64 ts -> is_i64 (bucket_of ts b).
Proof.
  unfold is_i64, bucket_of. intros Hts. assert (Hpos : (0 < bucket_ms b)%Z) by (unfold bucket_ms; lia).
  split.
  - apply Z.div_le_lower_bound; [done|]. nia.
  - apply Z.div_lt_upper_bound; [done|]. nia.
Qed.

(** Cache keys separate what they must: two keys built from different methods, filter
    digests, scope digests, bucket windows or bucket widths are different keys, unless the
    hash itself collides on their preimages. *)
Theorem cache_keys_separate (sha256 : string -> string) (m f s m' f' s' : string)
    (a b w a' b' w' : Z) :
  fits m -> fits m' -> String.length f = 32 -> String.length f' = 32 ->
  String.length s = 32 -> String.length s' = 32 ->
  is_i64 a -> is_i64 b -> is_i64 a' -> is_i64 b' ->
  let k := new_key sha256 m f s a b w in
  let k' := new_key sha256 m' f' s' a' b' w' in
  let p := key_preimage m f s (first_bucket k) (last_bucket k) w in
  let p' := key_preimage m' f' s' (first_bucket k') (last_bucket k') w' in
  digest k = digest k' ->
  (m = m' /\ f = f' /\ s = s' /\
   first_bucket k = first_bucket k' /\ last_bucket k = last_bucket k' /\ bucket_ms w = bucket_ms w') \/
  (p <> p' /\ sha256 p = sha256 p').
Proof.
  intros Hm Hm' Hf Hf' Hs Hs' Ha Hb Ha' Hb' k k' p p' E. subst k k' p p'.
  assert (Hshape : forall m f s a b w, exists lo hi, (lo = a /\ hi = b \/ lo = b /\ hi = a) /\
    new_key sha256 m f s a b w =
    mk_CacheKey (sha256 (key_preimage m f s (bucket_of lo w) (bucket_of hi w) w)) (bucket_of lo w) (bucket_of hi w)).
  { intros. unfold new_key. destruct (_ <=? _)%Z; eexists _, _; (split; [|reflexivity]); auto. }
  destruct (Hshape m f s a b w) as (lo & hi & Hlh & K1).
  destruct (Hshape m' f' s' a' b' w') as (lo' & hi' & Hlh' & K2).
  rewrite K1, K2 in E |- *. simpl in E |- *.
  destruct (decide (key_preimage m f s (bucket_of lo w) (bucket_of hi w) w
                    = key_preimage m' f' s' (bucket_of lo' w') (bucket_of hi' w') w')) as [Ep|Hne].
  - left. apply key_preimage_inj in Ep; try done; apply bucket_of_i64; naive_solver.
  - right. eauto.
Qed.

(** The identity stands in for the hash where a sample needs one. *)
Definition sample_hash (s : string) : string := s.

Lemma cache_keys_separate_witness :
  let d := "0123456789abcdef0123456789abcdef" in
  digest (new_key sample_hash "m" d d 0 10 1) = digest (new_key sample_hash "m" d d 10 0 1) /\
  (0 / 1)%Z = 0%Z.
Proof.
  assert (Hi : is_i64 0 /\ is_i64 10) by (unfold is_i64; lia).
  assert (E : digest (new_key sample_hash "m" "0123456789abcdef0123456789abcdef"
                        "0123456789abcdef0123456789abcdef" 0 10 1)
              = digest (new_key sample_hash "m" "0123456789abcdef0123456789abcdef"
                        "0123456789abcdef0123456789abcdef" 10 0 1)) by (vm_compute; reflexivity).
  split; [exact E|].
  destruct (cache_keys_separate sample_hash "m" "0123456789abcdef0123456789abcdef"
              "0123456789abcdef0123456789abcdef" "m" "0123456789abcdef0123456789abcdef"
              "0123456789abcdef0123456789abcdef" 0 10 1 10 0 1) as [_|_];
    try reflexivity; try tauto; exact E.
Defined.

Lemma sort_strings_eq_perm l m : sort_strings l = sort_strings m <-> Permutation l m.
Proof.
  split; [|apply sort_strings_perm]. intros E.
  rewrite <- (sort_by_perm (fun a b => a <s b) l), <- (sort_by_perm (fun a b => a <s b) m).
  unfold sort_strings in E. by rewrite E.
Qed.

Lemma sort_strings_fits l : Forall fits l -> Forall fits (sort_strings l).
Proof. intros H. unfold sort_strings. by rewrite sort_by_perm. Qed.

(** The caller scopes [scope_digest] is asked about. *)
Record Caller := mk_Caller {
  ca_identity : string; ca_family : list string; ca_community : list string;
  ca_occurrence : string; ca_self : list string;
}.

Definition caller_fits (c : Caller) : Prop :=
  fits (ca_identity c) /\ fits (ca_occurrence c) /\
  Forall fits (ca_family c) /\ Forall fits (ca_community c) /\ Forall fits (ca_self c) /\
  (Z.of_nat (length (ca_family c)) < two64)%Z /\ (Z.of_nat (length (ca_community c)) < two64)%Z /\
  (Z.of_nat (length (ca_self c)) < two64)%Z.

Definition caller_digest (sha256 : string -> string) (c : option Caller) : string :=
  match c with
  | Some c => scope_digest sha256 true (ca_identity c) (ca_family c) (ca_community c)
                (ca_occurrence c) (ca_self c)
  | None => scope_digest sha256 false "" [] [] "" []
  end.

(** The bytes [caller_digest] hashes. *)
Definition caller_preimage (c : option Caller) : string :=
  match c with
  | Some c => scope_preimage true (ca_identity c) (ca_family c) (ca_community c) (ca_occurrence c) (ca_self c)
  | None => scope_preimage false "" [] [] "" []
  end.

(** Two callers with the same admission, whatever order the resolver listed it in. *)
Definition same_caller (c c' : option Caller) : Prop :=
  match c, c' with
  | Some c, Some c' =>
      ca_identity c = ca_identity c' /\ ca_occurrence c = ca_occurrence c' /\
      Permutation (ca_family c) (ca_family c') /\ Permutation (ca_community c) (ca_community c') /\
      Permutation (ca_self c) (ca_self c')
  | None, None => True
  | _, _ => False
  end.

(** Scope digests identify admissions: the same admission hashes alike in any order,
    and two callers whose admissions differ (an unauthenticated caller among them) never
    share a digest, unless the hash itself collides on their preimages. *)
Theorem scope_digest_disjoint (sha256 : string -> string) (c c' : option Caller) :
  (forall x, c = Some x -> caller_fits x) -> (forall x, c' = Some x -> caller_fits x) ->
  (same_caller c c' -> caller_digest sha256 c = caller_digest sha256 c') /\
  (caller_digest sha256 c = caller_digest sha256 c' ->
     same_caller c c' \/
     (caller_preimage c <> caller_preimage c' /\ sha256 (caller_preimage c) = sha256 (caller_preimage c'))).
Proof.
  intros Hc Hc'. split.
  - destruct c as [c|], c' as [c'|]; simpl; try done. intros (-> & -> & Hf & Hm & Hs).
    unfold scope_digest, scope_preimage.
    by rewrite (sort_strings_perm _ _ Hf), (sort_strings_perm _ _ Hm), (sort_strings_perm _ _ Hs).
  - assert (Hd : forall x, caller_digest sha256 x = sha256 (caller_preimage x)) by (by intros [x|]).
    rewrite !Hd. intros Eh. destruct (decide (caller_preimage c = caller_preimage c')) as [E|]; [left|by right].
    destruct c as [c|], c' as [c'|]; unfold caller_preimage, scope_preimage in E;
      apply app_inj_length in E as [_ E]; try done.
    destruct (Hc c eq_refl) as (? & ? & ? & ? & ? & ? & ? & ?).
    destruct (Hc' c' eq_refl) as (? & ? & ? & ? & ? & ? & ? & ?).
    apply app_inj_length in E as [_ E]; [|done].
    apply framed_inj in E as [Ei E]; [|done..].
    assert (Hl : forall l, length (sort_strings l) = length l)
      by (intros l; apply Permutation_length, sort_by_perm).
    apply framed_list_inj in E as [Ef E]; try (by apply sort_strings_fits); try (by rewrite Hl).
    apply framed_list_inj in E as [Em E]; try (by apply sort_strings_fits); try (by rewrite Hl).
    apply framed_inj in E as [Eo E]; [|done..].
    rewrite <- (string_app_nil_r (framed_list (sort_strings (ca_self c)))),
      <- (string_app_nil_r (framed_list (sort_strings (ca_self c')))) in E.
    apply framed_list_inj in E as [Es _]; try (by apply sort_strings_fits); try (by rewrite Hl).
    apply sort_strings_eq_perm in Ef, Em, Es. by split_and!.
Qed.

Lemma scope_digest_disjoint_witness :
  caller_digest sample_hash (Some (mk_Caller "i" ["b"; "a"] [] "o" []))
  = caller_digest sample_hash (Some (mk_Caller "i" ["a"; "b"] [] "o" [])).
Proof.
  apply (scope_digest_disjoint sample_hash).
  - intros x [= <-]. unfold caller_fits, fits. simpl. repeat split; try done; repeat constructor.
  - intros x [= <-]. unfold caller_fits, fits. simpl. repeat split; try done; repeat constructor.
  - simpl. split_and!; try done. constructor.
Defined.
