(* ===== verification/CacheRuns.v ===== *)
(** * What the cache serves: transparency, staleness, interleavings

    Runs of [src/src/cache/mod.rs] against a database. A caller of [get_or_compute] that
    no other operation interleaves with sees the database itself ([cache_transparent]);
    callers that interleave see an answer the database gave within the entry's time to
    live ([staleness_bounded]), and not always its answer after the last invalidation
    ([fill_after_invalidation]). *)

From Stdlib Require Import ZArith NArith Lia Ascii.
From stdpp Require Import base list strings gmap.
From S2P Require Import Prelude RustStd Bytes Cache.

Open Scope string_scope.
Open Scope list_scope.
Open Scope persist_scope.

(** ** Where resident entries come from *)

Section Entries.
Context {T : Type}.
Implicit Types c : LruCache T.

(** Every entry of [c'] is an entry of [c], under the same key. *)
Definition entries_from (c' c : LruCache T) : Prop :=
  forall d k s, lru_map c' !! d = Some (k, s) ->
    exists s0, lru_map c !! d = Some (k, s0) /\ entry s0 = entry s.

Lemma entries_refl c : entries_from c c.
Proof. intros d k s H. eauto. Qed.

Lemma entries_trans c1 c2 c3 : entries_from c1 c2 -> entries_from c2 c3 -> entries_from c1 c3.
Proof.
  intros H12 H23 d k s H. destruct (H12 _ _ _ H) as (s2 & H2 & E2).
  destruct (H23 _ _ _ H2) as (s3 & H3 & E3). exists s3. split; [done|congruence].
Qed.

Lemma remove_entries d c : entries_from (snd (remove_internal d c)) c.
Proof.
  unfold remove_internal. destruct (lru_map c !! d) as [[k s]|]; [|apply entries_refl].
  intros d' k' s' H. simpl in H. apply lookup_delete_Some in H as [_ H]. eauto.
Qed.

Lemma remove_all_entries ds c : entries_from (fst (remove_all ds c)) c.
Proof.
  unfold remove_all. generalize 0%N. revert c. induction ds as [|d ds IH]; intros c n; [apply entries_refl|].
  cbn [fold_left]. pose proof (remove_entries d c) as Hr. destruct (remove_internal d c) as [b c1].
  eapply entries_trans; [apply IH|exact Hr].
Qed.

Lemma get_entries d ttl now c : entries_from (snd (lru_get d ttl now c)) c.
Proof.
  unfold lru_get. destruct (lru_map c !! d) as [[k s]|] eqn:E; [|apply entries_refl].
  destruct (is_expired _ _ _); [apply remove_entries|]. intros d' k' s' H. simpl in H.
  apply lookup_insert_Some in H as [[<- [= <- <-]]|[_ H]]; eauto.
Qed.

Lemma evict_loop_entries fuel : forall c n, entries_from (fst (evict_loop fuel c n)) c.
Proof.
  induction fuel as [|fuel IH]; intros c n; cbn [evict_loop]; [apply entries_refl|].
  destruct (over_capacity c); [|apply entries_refl]. unfold evict_lru_victim.
  destruct (lru_victim c) as [v|]; [|apply entries_refl].
  eapply entries_trans; [apply IH|apply remove_entries].
Qed.

Lemma insert_entries k e c d k' s :
  lru_map (fst (lru_insert k e c)) !! d = Some (k', s) ->
  (d = digest k /\ k' = k /\ entry s = e) \/
  (exists s0, lru_map c !! d = Some (k', s0) /\ entry s0 = entry s).
Proof.
  intros H. unfold lru_insert in H. apply evict_loop_entries in H as (s0 & H & E).
  unfold place in H. cbn [lru_map next_tick] in H.
  apply lookup_insert_Some in H as [[<- [= <- <-]]|[_ H]]; [left; by rewrite <- E|].
  apply lookup_delete_Some in H as [_ H]. eauto.
Qed.

(** A hit is a live resident entry. *)
Lemma get_hit d ttl now c v :
  fst (fst (lru_get d ttl now c)) = Some v ->
  exists k s, lru_map c !! d = Some (k, s) /\ is_expired (entry s) ttl now = false /\ value (entry s) = v.
Proof.
  unfold lru_get. destruct (lru_map c !! d) as [[k s]|]; [|done].
  destruct (is_expired (entry s) ttl now) eqn:E; [done|]. intros [= <-]. eauto.
Qed.
End Entries.

(** ** Sequential runs are transparent *)

(** An aggregate query: the method, the digests of its filter and of its caller's scope, and
    the ends of its window, in either order. *)
Record WindowQuery := mk_query {
  q_method : string;
  q_filter : string;
  q_scope : string;
  q_start : Z;
  q_end : Z;
}.
Definition in_window (ts : Z) (q : WindowQuery) : Prop :=
  (Z.min (q_start q) (q_end q) <= ts <= Z.max (q_start q) (q_end q))%Z.
(** The key a caller builds for it. *)
Definition key_of (sha256 : string -> string) (bucket : Z) (q : WindowQuery) : CacheKey :=
  new_key sha256 (q_method q) (q_filter q) (q_scope q) (q_start q) (q_end q) bucket.

Section Transparent.
Context {T B E : Type} (sha256 : string -> string) (bucket : Z).
(** What a query answers over a database: the value and its declared size. *)
Context (answer : WindowQuery -> B -> T * N).

(** A read at a clock reading, which the backend answers or fails; a write of the database
    at an instant, with its invalidation; a sweep. *)
Inductive Act :=
| Read (now : Z) (q : WindowQuery) (fault : option E)
| Write (ts : Z) (db : B)
| Sweep (now : Z).

Definition act (c : Cache T) (db : B) (a : Act) : option (E + T) * Cache T * B :=
  match a with
  | Read now q fault =>
      let compute := match fault with Some e => inl e | None => inr (answer q db) end in
      let '(r, c) := get_or_compute now (key_of sha256 bucket q) compute c in (Some r, c, db)
  | Write ts db' => (None, snd (invalidate_write ts c), db')
  | Sweep now => (None, snd (sweep_expired now c), db)
  end.

(** The results of a run's reads, each with what a direct read of the database would say. *)
Fixpoint run (c : Cache T) (db : B) (acts : list Act) : list ((E + T) * T * option E) :=
  match acts with
  | [] => []
  | a :: acts' =>
      let '(r, c', db') := act c db a in
      let rest := run c' db' acts' in
      match r, a with
      | Some x, Read _ q fault => (x, fst (answer q db), fault) :: rest
      | _, _ => rest
      end
  end.

(** The queries in use: those that share a digest have one answer. *)
Context (Q : WindowQuery -> Prop).
Hypothesis digests_answer : forall q q' db, Q q -> Q q' ->
  digest (key_of sha256 bucket q) = digest (key_of sha256 bucket q') -> answer q db = answer q' db.

(** A write at an instant changes only the answers of queries whose window contains it. *)
Definition write_local (ts : Z) (db db' : B) : Prop :=
  forall q, Q q -> ~ in_window ts q -> answer q db' = answer q db.

Fixpoint acts_ok (db : B) (acts : list Act) : Prop :=
  match acts with
  | [] => True
  | Read _ q _ :: acts' => Q q /\ acts_ok db acts'
  | Write ts db' :: acts' => write_local ts db db' /\ acts_ok db' acts'
  | Sweep _ :: acts' => acts_ok db acts'
  end.

(** Resident entries answer for the database as it is. *)
Definition current (c : LruCache T) (db : B) : Prop :=
  forall d k s, lru_map c !! d = Some (k, s) ->
    exists q, Q q /\ k = key_of sha256 bucket q /\ digest k = d /\ value (entry s) = fst (answer q db).

Lemma current_from c c' db : entries_from c' c -> current c db -> current c' db.
Proof.
  intros Hf Hc d k s H. destruct (Hf _ _ _ H) as (s0 & H0 & E0). rewrite <- E0. eauto.
Qed.

Lemma act_read c db now q fault :
  current (inner c) db -> Q q ->
  let '(r, c', _) := act c db (Read now q fault) in
  current (inner c') db /\ config c' = config c /\
  (r = Some (inr (fst (answer q db))) \/ exists e, fault = Some e /\ r = Some (inl e)).
Proof.
  intros Hc Hq. cbn [act]. set (k := key_of sha256 bucket q). unfold get_or_compute.
  destruct (lookup_inner now k c) as (Ei & Ecf & Eh).
  destruct (lookup now k c) as [hit c1]. cbn [fst snd] in *.
  assert (Hc1 : current (inner c1) db).
  { rewrite Ei. eapply current_from; [apply get_entries|done]. }
  destruct hit as [v|].
  - symmetry in Eh. apply get_hit in Eh as (k0 & s & Hs & _ & Hv).
    destruct (Hc _ _ _ Hs) as (q0 & Hq0 & -> & Hd & Hval). split_and!; [done..|]. left.
    rewrite <- (digests_answer q0 q db Hq0 Hq Hd). congruence.
  - destruct fault as [e|]; [split_and!; eauto|].
    destruct (answer q db) as [v size] eqn:Ea. cbn [fst].
    destruct (fill_inner now k v size c1) as [Ef Ec]. split_and!; [|congruence|by left].
    rewrite Ef. intros d k' s H. apply insert_entries in H as [(-> & -> & Es)|(s0 & H & Es)].
    + exists q. rewrite Es. simpl. by rewrite Ea.
    + rewrite <- Es. by apply Hc1.
Qed.
End Transparent.

Arguments Read {B E}.
Arguments Write {B E}.
Arguments Sweep {B E}.

(** The invariants of a write's invalidation, apart from the tick. *)
Lemma remove_keeps_config {T} ts (c : Cache T) : config (snd (invalidate_write ts c)) = config c.
Proof. apply invalidate_inner. Qed.

(** Without an accounting hypothesis, the keys an invalidation names are gone. *)
Lemma fold_remove_gone {T} ds : forall (c : LruCache T) n d,
  (In d ds \/ lru_map c !! d = None) ->
  lru_map (fst (fold_left
    (fun '(c, n) d => let '(b, c') := remove_internal d c in (c', if (b : bool) then (n + 1)%N else n))
    ds (c, n))) !! d = None.
Proof.
  induction ds as [|d0 ds IH]; intros c n d Hd; cbn [fold_left]; [by destruct Hd|].
  assert (Hm : lru_map (snd (remove_internal d0 c)) = delete d0 (lru_map c)).
  { unfold remove_internal. destruct (lru_map c !! d0) as [[k s]|] eqn:E; [done|]. by rewrite delete_id. }
  destruct (remove_internal d0 c) as [b c1]. apply IH. simpl in Hm. rewrite Hm.
  destruct Hd as [[->|Hd]|Hd]; [right; apply lookup_delete_eq|by left|].
  right. apply lookup_delete_None. by right.
Qed.

Lemma remove_all_gone {T} ds (c : LruCache T) d : In d ds -> lru_map (fst (remove_all ds c)) !! d = None.
Proof. intros Hd. apply fold_remove_gone. by left. Qed.

(** After an invalidation, no resident key meets the write's bucket. *)
Lemma invalidated_gone {T} ts (c : Cache T) d k s :
  lru_map (inner (snd (invalidate_write ts c))) !! d = Some (k, s) ->
  overlaps_bucket k (bucket_of ts (cfg_invalidation_bucket (config c))) = false.
Proof.
  intros H. destruct (invalidate_inner ts c) as (Ei & _ & _). cbn zeta in Ei. rewrite Ei in H.
  set (wb := bucket_of ts _) in *. destruct (overlaps_bucket k wb) eqn:Eo; [|done].
  destruct (remove_all_entries _ _ _ _ _ H) as (s0 & H0 & _).
  rewrite remove_all_gone in H; [done|].
  apply (filter_keys_spec (fun x => overlaps_bucket (fst (snd x)) wb) (inner c)). eauto.
Qed.

Lemma run_current {T B E} (sha256 : string -> string) (answer : WindowQuery -> B -> T * N) (Q : WindowQuery -> Prop)
    (cfg : CacheConfig)
    (digests_answer : forall q q' db, Q q -> Q q' ->
       digest (key_of sha256 (cfg_invalidation_bucket cfg) q) = digest (key_of sha256 (cfg_invalidation_bucket cfg) q') ->
       answer q db = answer q' db) :
  forall (acts : list (@Act B E)) (c : Cache T) (db : B),
  config c = cfg -> current sha256 (cfg_invalidation_bucket cfg) answer Q (inner c) db ->
  acts_ok answer Q db acts ->
  Forall (fun '(r, direct, fault) => r = inr direct \/ exists e, fault = Some e /\ r = inl e)
    (run sha256 (cfg_invalidation_bucket cfg) answer c db acts).
Proof.
  induction acts as [|a acts IH]; intros c db Hcfg Hc Hok; [constructor|].
  destruct a as [now q fault|ts db'|now]; simpl in Hok.
  - destruct Hok as [Hq Hok]. pose proof (act_read sha256 _ answer Q digests_answer c db now q fault Hc Hq) as Hr.
    cbn [run]. cbn [act] in *. destruct (get_or_compute _ _ _ c) as [r c'].
    destruct Hr as (Hc' & Ecf & Hres). constructor; [|apply IH; congruence || done].
    destruct Hres as [[= ->]|(e & -> & [= ->])]; eauto.
  - destruct Hok as [Hw Hok]. cbn [run act]. apply IH; [by rewrite remove_keeps_config| |done].
    intros d k s H. pose proof (invalidated_gone _ _ _ _ _ H) as Ho. rewrite Hcfg in Ho.
    destruct (invalidate_inner ts c) as (Ei & _ & _). cbn zeta in Ei. rewrite Ei in H.
    destruct (remove_all_entries _ _ _ _ _ H) as (s0 & H0 & E0).
    destruct (Hc _ _ _ H0) as (q & Hq & -> & Hd & Hv). exists q. rewrite <- E0. split_and!; [done..|].
    rewrite (Hw q Hq); [done|]. intros Hin. unfold key_of in Ho. by rewrite window_overlaps in Ho.
  - cbn [run act]. destruct (sweep_inner now c) as [Ei Ec].
    apply IH; [congruence| |done]. rewrite Ei. eapply current_from; [apply remove_all_entries|done].
Qed.

(** ** Interleaved runs *)

Section Interleaved.
Context {T B : Type}.
(** What a digest's query answers over a database; [None] is a failed read. *)
Context (answer : string -> B -> option (T * N)).

(** A caller between its two critical sections: its key, its clock reading, and what it
    read of the database, once it has. *)
Record Pending := mk_Pending { p_key : CacheKey; p_began : Z; p_read : option (T * N) }.

(** The databases seen so far with the clock at each, the newest first. *)
Record World := mk_World {
  w_now : Z;
  w_db : B;
  w_seen : list (Z * B);
  w_cache : Cache T;
  w_pending : list Pending;
}.

Inductive Event :=
| Tau
| Served (k : CacheKey) (v : T) (since : Z).

Inductive step : World -> Event -> World -> Prop :=
| step_clock now db seen c ps now' :
    (now <= now')%Z ->
    step (mk_World now db seen c ps) Tau (mk_World now' db ((now', db) :: seen) c ps)
| step_db now db seen c ps db' :
    step (mk_World now db seen c ps) Tau (mk_World now db' ((now, db') :: seen) c ps)
| step_invalidate now db seen c ps ts :
    step (mk_World now db seen c ps) Tau (mk_World now db seen (snd (invalidate_write ts c)) ps)
| step_sweep now db seen c ps :
    step (mk_World now db seen c ps) Tau (mk_World now db seen (snd (sweep_expired now c)) ps)
| step_hit now db seen c ps k v c' :
    lookup now k c = (Some v, c') ->
    step (mk_World now db seen c ps) (Served k v (now - cfg_ttl (config c))) (mk_World now db seen c' ps)
| step_miss now db seen c ps k c' :
    lookup now k c = (None, c') ->
    step (mk_World now db seen c ps) Tau (mk_World now db seen c' (mk_Pending k now None :: ps))
| step_read now db seen c ps1 k began ps2 r :
    answer (digest k) db = Some r ->
    step (mk_World now db seen c (ps1 ++ mk_Pending k began None :: ps2)) Tau
      (mk_World now db seen c (ps1 ++ mk_Pending k began (Some r) :: ps2))
| step_fail now db seen c ps1 k began ps2 :
    answer (digest k) db = None ->
    step (mk_World now db seen c (ps1 ++ mk_Pending k began None :: ps2)) Tau
      (mk_World now db seen c (ps1 ++ ps2))
| step_fill now db seen c ps1 k began v size ps2 :
    step (mk_World now db seen c (ps1 ++ mk_Pending k began (Some (v, size)) :: ps2))
      (Served k v began) (mk_World now db seen (fill began k v size c) (ps1 ++ ps2)).

Inductive reachable (w0 : World) : World -> Prop :=
| reach_init : reachable w0 w0
| reach_step w e w' : reachable w0 w -> step w e w' -> reachable w0 w'.

(** Some database seen at or after [since] answers [v] for the digest. *)
Definition answered (seen : list (Z * B)) (d : string) (v : T) (since : Z) : Prop :=
  exists t db size, In (t, db) seen /\ (since <= t)%Z /\ answer d db = Some (v, size).

Record world_ok (w : World) : Prop := {
  wo_now : In (w_now w, w_db w) (w_seen w);
  wo_past : forall t db, In (t, db) (w_seen w) -> (t <= w_now w)%Z;
  wo_resident : forall d k s, lru_map (inner (w_cache w)) !! d = Some (k, s) ->
    answered (w_seen w) d (value (entry s)) (inserted_at (entry s));
  wo_pending : forall k began v size, In (mk_Pending k began (Some (v, size))) (w_pending w) ->
    answered (w_seen w) (digest k) v began;
  wo_began : forall p, In p (w_pending w) -> (p_began p <= w_now w)%Z;
}.

Lemma answered_more x seen d v since : answered seen d v since -> answered (x :: seen) d v since.
Proof. intros (t & db & size & H & ?). exists t, db, size. split; [by right|done]. Qed.

Lemma resident_from (c c' : LruCache T) seen :
  entries_from c' c ->
  (forall d k s, lru_map c !! d = Some (k, s) ->
     answered seen d (value (entry s)) (inserted_at (entry s))) ->
  forall d k s, lru_map c' !! d = Some (k, s) ->
     answered seen d (value (entry s)) (inserted_at (entry s)).
Proof. intros Hf H d k s Hs. destruct (Hf _ _ _ Hs) as (s0 & H0 & E0). rewrite <- E0. eauto. Qed.

Lemma step_ok w e w' : world_ok w -> step w e w' -> world_ok w'.
Proof.
  intros [Hn Hp Hr Hq Hb] Hstep.
  destruct Hstep; cbn [w_now w_db w_seen w_cache w_pending] in *.
  - split; simpl; [by left|..].
    + intros t db0 [[= <- <-]|Ht]; [lia|]. apply Hp in Ht. lia.
    + intros. eapply answered_more, Hr. eassumption.
    + intros. eapply answered_more, Hq. eassumption.
    + intros p Hin. apply Hb in Hin. lia.
  - split; simpl; [by left|..].
    + intros t db0 [[= <- <-]|Ht]; [lia|]. by apply Hp in Ht.
    + intros. eapply answered_more, Hr. eassumption.
    + intros. eapply answered_more, Hq. eassumption.
    + done.
  - destruct (invalidate_inner ts c) as (Ei & _ & _). revert Ei. generalize (snd (invalidate_write ts c)).
    intros c' Ei. split; simpl; try done. rewrite Ei.
    eapply resident_from; [apply remove_all_entries|done].
  - destruct (sweep_inner now c) as [Ei _]. revert Ei. generalize (snd (sweep_expired now c)).
    intros c' Ei. split; simpl; try done. rewrite Ei.
    eapply resident_from; [apply remove_all_entries|done].
  - split; simpl; try done. destruct (lookup_inner now k c) as (Ei & _ & _). rewrite H in Ei. simpl in Ei.
    rewrite Ei. eapply resident_from; [apply get_entries|done].
  - destruct (lookup_inner now k c) as (Ei & _ & _). rewrite H in Ei. simpl in Ei.
    split; simpl; try done.
    + rewrite Ei. eapply resident_from; [apply get_entries|done].
    + intros k0 b0 v0 z0 [[=]|Hin]. eauto.
    + intros p [<-|Hin]; [simpl; lia|auto].
  - split; simpl; try done.
    + intros k0 b0 v0 z0 Hin. apply in_app_iff in Hin as [Hin|[[= -> -> ->]|Hin]].
      * apply (Hq _ _ _ z0). apply in_app_iff. by left.
      * exists now, db, z0. split_and!; [done| |done].
        apply (Hb (mk_Pending k0 b0 None)), in_app_iff. right. by left.
      * apply (Hq _ _ _ z0). apply in_app_iff. right. by right.
    + intros p Hin. apply in_app_iff in Hin as [Hin|[<-|Hin]].
      * apply Hb, in_app_iff. by left.
      * apply (Hb (mk_Pending k began None)), in_app_iff. right. by left.
      * apply Hb, in_app_iff. right. by right.
  - split; simpl; try done.
    + intros k0 b0 v0 z0 Hin. apply (Hq _ _ _ z0), in_app_iff.
      apply in_app_iff in Hin as [?|?]; [by left|right; by right].
    + intros p Hin. apply Hb, in_app_iff. apply in_app_iff in Hin as [?|?]; [by left|right; by right].
  - destruct (fill_inner began k v size c) as [Ei _]. split; simpl; try done.
    + rewrite Ei. intros d k0 s Hs. apply insert_entries in Hs as [(-> & -> & Es)|(s0 & H0 & E0)].
      * rewrite Es. simpl. apply (Hq _ _ _ size), in_app_iff. right. by left.
      * rewrite <- E0. eauto.
    + intros k0 b0 v0 z0 Hin. apply (Hq _ _ _ z0), in_app_iff.
      apply in_app_iff in Hin as [?|?]; [by left|right; by right].
    + intros p Hin. apply Hb, in_app_iff. apply in_app_iff in Hin as [?|?]; [by left|right; by right].
Qed.

(** The world a process starts in. *)
Definition start (now : Z) (db : B) (cfg : CacheConfig) : World :=
  mk_World now db [(now, db)] (with_config cfg) [].

Lemma reachable_ok now db cfg w : reachable (start now db cfg) w -> world_ok w.
Proof.
  induction 1 as [|w e w' _ IH Hs]; [|by eapply step_ok].
  split; simpl; try done; [by left|..].
  - intros t db' [[= <- <-]|[]]. lia.
Qed.
End Interleaved.

(** ** Properties *)

(** C33. The cache is transparent to callers that do not interleave (callers that do may fill in
    an answer older than an invalidation, [fill_after_invalidation]). Suppose queries that share
    a key's digest have the same answers, and a write at an instant changes only the answers of
    queries whose window, ends included, contains that instant. Then over any run of reads,
    writes (each followed by its invalidation) and sweeps, every read returns exactly what a
    direct read of the database would return at that moment, or the backend's own error when
    the backend failed; a failed recompute never serves a cached value in its place. *)
Theorem cache_transparent {T B E} (sha256 : string -> string) (answer : WindowQuery -> B -> T * N)
    (Q : WindowQuery -> Prop) (cfg : CacheConfig) (db : B) (acts : list (@Act B E)) :
  let bucket := cfg_invalidation_bucket cfg in
  (forall q q' db, Q q -> Q q' -> digest (key_of sha256 bucket q) = digest (key_of sha256 bucket q') ->
     answer q db = answer q' db) ->
  acts_ok answer Q db acts ->
  Forall (fun '(r, direct, fault) => r = inr direct \/ exists e, fault = Some e /\ r = inl e)
    (run sha256 bucket answer (with_config cfg) db acts).
Proof.
  intros bucket Hq Hok. eapply run_current; [exact Hq|reflexivity| |exact Hok].
  intros d k s H. simpl in H. by rewrite lookup_empty in H.
Qed.

Module CrSamples.
(** Writes with their instants; a query counts those of its window. *)
Definition writes_in (q : WindowQuery) (db : list Z) : nat :=
  length (List.filter (fun ts => (Z.min (q_start q) (q_end q) <=? ts)%Z && (ts <=? Z.max (q_start q) (q_end q))%Z) db).
Definition answer (q : WindowQuery) (db : list Z) : nat * N := (writes_in q db, 1%N).
(** A week and a day, of hour buckets. *)
Definition week : WindowQuery := mk_query "stats" "f-week" "s" 0 604800000.
Definition day : WindowQuery := mk_query "stats" "f-day" "s" 86400000 0.
Definition Q (q : WindowQuery) : Prop := q = week \/ q = day.
(** The third write is in the week's window and in none of its last bucket. *)
Definition acts : list (@Act (list Z) string) :=
  [Read 0 week None; Write 18000000 [18000000]; Read 1 week None; Read 2 day None;
   Write 100000000 [18000000; 100000000]; Read 3 week (Some "down"); Read 4 week None; Read 5 day None]%Z.
End CrSamples.

Example cache_run :
  run sample_hash (cfg_invalidation_bucket CaSamples.cfg) CrSamples.answer (with_config CaSamples.cfg) [] CrSamples.acts
  = [(inr 0, 0, None); (inr 1, 1, None); (inr 1, 1, None); (inl "down", 2, Some "down"); (inr 2, 2, None); (inr 1, 1, None)].
Proof. vm_compute. reflexivity. Qed.

Lemma writes_in_local q db ts : ~ in_window ts q -> CrSamples.writes_in q (db ++ [ts]) = CrSamples.writes_in q db.
Proof.
  intros Hn. unfold CrSamples.writes_in. rewrite List.filter_app, length_app. cbn [List.filter].
  destruct (Z.leb_spec (Z.min (q_start q) (q_end q)) ts), (Z.leb_spec ts (Z.max (q_start q) (q_end q))); simpl;
    try (by rewrite Nat.add_0_r). by destruct Hn.
Qed.

Lemma cache_transparent_witness :
  Forall (fun '(r, direct, fault) => r = inr direct \/ exists e, fault = Some e /\ r = inl e)
    (run sample_hash (cfg_invalidation_bucket CaSamples.cfg) CrSamples.answer (with_config CaSamples.cfg) [] CrSamples.acts).
Proof.
  apply (cache_transparent sample_hash CrSamples.answer CrSamples.Q CaSamples.cfg [] CrSamples.acts).
  - intros q q' db [->| ->] [->| ->] E; try reflexivity; vm_compute in E; discriminate E.
  - simpl. split_and!; try (left; reflexivity); try (right; reflexivity); try exact I.
    + intros q _ Hn. unfold CrSamples.answer. f_equal. apply (writes_in_local q [] _ Hn).
    + intros q _ Hn. unfold CrSamples.answer. f_equal. apply (writes_in_local q [18000000%Z] _ Hn).
Defined.

(** Staleness is bounded whatever interleaves: in every reachable world, a value
    served at the clock [now] is what the database answered for that key at some moment
    after [now - ttl] (a hit) or after the caller began (a computed value), and no later
    than [now]. *)
Theorem staleness_bounded {T B} (answer : string -> B -> option (T * N)) (now0 : Z) (db0 : B)
    (cfg : CacheConfig) (w w' : World) (k : CacheKey) (v : T) (since : Z) :
  (0 <= cfg_ttl cfg)%Z -> reachable answer (start now0 db0 cfg) w ->
  step answer w (Served k v since) w' ->
  exists t db size, In (t, db) (w_seen w) /\ (since <= t <= w_now w)%Z /\
    answer (digest k) db = Some (v, size) /\
    (w_pending w' = w_pending w -> (w_now w - cfg_ttl cfg < t)%Z).
Proof.
  intros Httl Hr Hs. pose proof (reachable_ok answer _ _ _ _ Hr) as Hok.
  assert (Hcfg : config (w_cache w) = cfg).
  { clear -Hr. induction Hr as [|w e w' _ IH Hs]; [done|]. rewrite <- IH.
    destruct Hs; cbn [w_cache]; try done;
      try apply invalidate_inner; try apply sweep_inner; try apply fill_inner.
    all: destruct (lookup_inner now k c) as (_ & Ec & _); by rewrite H in Ec. }
  destruct Hok as [Hn Hp Hres Hq Hb]. inversion Hs; subst; simpl in *.
  - match goal with H : lookup _ _ _ = _ |- _ => rename H into Hl end.
    destruct (lookup_inner now k c) as (_ & _ & Eh). rewrite Hl in Eh. symmetry in Eh.
    apply get_hit in Eh as (k0 & s & Hk & Hx & <-).
    destruct (Hres _ _ _ Hk) as (t & db' & size & Hin & Ht & Ha). unfold is_expired in Hx. breflect.
    exists t, db', size. split_and!; [done|lia|by apply Hp in Hin|done|intros _; lia].
  - destruct (Hq k since v size) as (t & db' & size' & Hin & Ht & Ha).
    { apply in_app_iff. right. by left. }
    exists t, db', size'. split_and!; [done..|by apply Hp in Hin|done|].
    intros E. apply (f_equal length) in E. rewrite !length_app in E. simpl in E. lia.
Qed.

Module CwSamples.
Import CaSamples.
Definition answer (d : string) (db : nat) : option (nat * N) := Some (db, 1%N).
Definition w0 : @World nat nat := start 0 3 cfg.
Definition c_missed : Cache nat := snd (lookup 0 k1 (with_config cfg)).
(** Missed, read at database 3; then the database becomes 7 and is invalidated; then the
    value read before is filled in. *)
Definition w_read : World := mk_World 0 3 [(0%Z, 3)] c_missed [mk_Pending k1 0 (Some (3, 1%N))].
Definition c_inval : Cache nat := snd (invalidate_write 18000000 c_missed).
Definition w_inval : World := mk_World 0 7 [(0%Z, 7); (0%Z, 3)] c_inval [mk_Pending k1 0 (Some (3, 1%N))].
Definition c_filled : Cache nat := fill 0 k1 3 1 c_inval.
Definition w_filled : World := mk_World 0 7 [(0%Z, 7); (0%Z, 3)] c_filled [].
End CwSamples.

Lemma cw_reach_read : reachable CwSamples.answer CwSamples.w0 CwSamples.w_read.
Proof.
  apply (reach_step _ _ (mk_World 0 3 [(0%Z, 3)] CwSamples.c_missed [mk_Pending CaSamples.k1 0 None]) Tau).
  - apply (reach_step _ _ CwSamples.w0 Tau); [apply reach_init|]. apply step_miss. vm_compute. reflexivity.
  - apply (step_read CwSamples.answer 0 3 _ _ [] CaSamples.k1 0 [] (3, 1%N)). reflexivity.
Qed.

Lemma cw_reach_filled : reachable CwSamples.answer CwSamples.w0 CwSamples.w_filled.
Proof.
  apply (reach_step _ _ CwSamples.w_inval (Served CaSamples.k1 3 0)).
  - apply (reach_step _ _ (mk_World 0 7 [(0%Z, 7); (0%Z, 3)] CwSamples.c_missed
                             [mk_Pending CaSamples.k1 0 (Some (3, 1%N))]) Tau).
    + apply (reach_step _ _ CwSamples.w_read Tau); [apply cw_reach_read|]. apply step_db.
    + apply step_invalidate.
  - apply (step_fill CwSamples.answer 0 7 _ _ [] CaSamples.k1 0 3 1 []).
Qed.

Lemma staleness_bounded_witness :
  exists t db size, In (t, db) (w_seen CwSamples.w_filled) /\ (-30 <= t <= 0)%Z /\
    CwSamples.answer (digest CaSamples.k1) db = Some (3, size).
Proof.
  assert (Hs : step CwSamples.answer CwSamples.w_filled (Served CaSamples.k1 3 (-30))
                 (mk_World 0 7 [(0%Z, 7); (0%Z, 3)] (snd (lookup 0 CaSamples.k1 CwSamples.c_filled)) [])).
  { apply (step_hit CwSamples.answer 0 7 _ CwSamples.c_filled). vm_compute. reflexivity. }
  destruct (staleness_bounded CwSamples.answer 0 3 CaSamples.cfg _ _ _ _ _ ltac:(vm_compute; discriminate)
              cw_reach_filled Hs) as (t & db & size & H1 & H2 & H3 & _).
  exists t, db, size. auto.
Defined.

(** What an invalidation does not reach: a caller that read the database before a
    write, and fills after the write's invalidation, puts the value from before the write
    back in the cache. The world is reachable, the write's bucket is inside the key's
    window, the invalidation ran after the write, and a later caller is served the old
    value while the database answers another. *)
Theorem fill_after_invalidation :
  let w := CwSamples.w_filled in
  reachable CwSamples.answer CwSamples.w0 w /\
  overlaps_bucket CaSamples.k1 (bucket_of 18000000 (cfg_invalidation_bucket CaSamples.cfg)) = true /\
  CwSamples.answer (digest CaSamples.k1) (w_db w) = Some (7, 1%N) /\
  exists w', step CwSamples.answer w (Served CaSamples.k1 3 (-30)) w'.
Proof.
  split_and!; [apply cw_reach_filled|vm_compute; reflexivity|reflexivity|].
  exists (mk_World 0 7 [(0%Z, 7); (0%Z, 3)] (snd (lookup 0 CaSamples.k1 CwSamples.c_filled)) []).
  apply (step_hit CwSamples.answer 0 7 _ CwSamples.c_filled). vm_compute. reflexivity.
Qed.
