(* ===== verification/CallerScope.v ===== *)
(** * Who may read a row

    [src/src/scope/]: the caller's resolved admission ([admission.rs]), the read gate over a
    row ([caller.rs]) and the same gate as a WHERE fragment with its parameters ([sql.rs]);
    with the scope classifier of [federation/types.rs] ([mod cohort_scope]) and the
    sensitive-leaf test of [federation/admission.rs].

    A fragment is a tree of the parts [sql.rs] formats, printed to its text and read with
    NULL as not true. On sqlite a [?] takes the next parameter in the order of the text; on
    postgres [$n] names it. *)

From Stdlib Require Import ZArith NArith Lia Ascii String.
From stdpp Require Import base list strings gmap.
From S2P Require Import Prelude RustStd Utf8.

Open Scope string_scope.
Open Scope list_scope.
Open Scope persist_scope.

(** ** The classifier *)

Inductive Scope := SelfOnly | Family | Community | Affiliations | Species | Biosphere | Federation.

Inductive TargetPlane := FamilyPlane | RoomPlane.

Inductive Placement := SelfCollective | Targeted (p : TargetPlane) | Commons.

#[export] Instance TargetPlane_eq_dec : EqDecision TargetPlane.
Proof. solve_decision. Defined.
#[export] Instance Placement_eq_dec : EqDecision Placement.
Proof. solve_decision. Defined.

Module Scopes.
Definition ALL : list Scope :=
  [SelfOnly; Family; Community; Affiliations; Species; Biosphere; Federation].
End Scopes.

Definition as_str (s : Scope) : string :=
  match s with
  | SelfOnly => "self"
  | Family => "family"
  | Community => "community"
  | Affiliations => "affiliations"
  | Species => "species"
  | Biosphere => "biosphere"
  | Federation => "federation"
  end.

Definition parse (s : string) : option Scope :=
  if s =s "self" then Some SelfOnly
  else if s =s "family" then Some Family
  else if s =s "community" then Some Community
  else if s =s "affiliations" then Some Affiliations
  else if s =s "species" then Some Species
  else if s =s "biosphere" then Some Biosphere
  else if s =s "federation" then Some Federation
  else None.

Definition placement (s : Scope) : Placement :=
  match s with
  | SelfOnly => SelfCollective
  | Family => Targeted FamilyPlane
  | Community | Affiliations => Targeted RoomPlane
  | Species | Biosphere | Federation => Commons
  end.

Inductive CryptoTier := InvisibleEncrypted | CommunityDek | Plaintext.

Definition scope_crypto_tier (s : Scope) (cohort_subkind : option string) : CryptoTier :=
  match s with
  | SelfOnly | Family => InvisibleEncrypted
  | Community | Affiliations =>
      if bool_decide (cohort_subkind = Some "infrastructure") then Plaintext else CommunityDek
  | Species | Biosphere | Federation => Plaintext
  end.

Definition crypto_tier (cohort_scope : string) (cohort_subkind : option string) : CryptoTier :=
  match parse cohort_scope with
  | Some s => scope_crypto_tier s cohort_subkind
  | None => Plaintext
  end.

Definition is_targeted (s : string) : bool :=
  match placement <$> parse s with Some (Targeted _) => true | _ => false end.

Definition target_plane (s : string) : option TargetPlane :=
  match placement <$> parse s with Some (Targeted p) => Some p | _ => None end.

Definition commons : list string :=
  map as_str (List.filter (fun s => bool_decide (placement s = Commons)) Scopes.ALL).

Definition is_structurally_invisible (s : string) : bool := (s =s "self") || (s =s "family").

(** ** Sensitive leaves *)

Definition scope_covers (held wanted : string) : bool :=
  if (held =s "") || (wanted =s "") then false
  else if held =s wanted then true
  else match strip_prefix held wanted with
       | Some rest => (1 <? String.length rest)%nat && starts_with ":" rest
       | None => false
       end.

Definition CONFIG_SENSITIVE_LEAVES : list string := ["config:admission"; "config:transport"].

Definition is_sensitive_config_leaf (dimension : string) : bool :=
  existsb (fun leaf => scope_covers leaf dimension) CONFIG_SENSITIVE_LEAVES.

(** ** The caller *)

(** [BTreeSet<KeyId>] is a set; its iteration is in byte order. *)
Definition btree_iter (s : gset string) : list string := sort_strings (elements s).

Record CallerAdmission := mk_CallerAdmission {
  occurrence_key_id : string;
  identity_key_id : string;
  family_key_ids : gset string;
  community_key_ids : gset string;
  self_key_ids : gset string;
}.

Inductive CallerScope := Unauthenticated | Authenticated (admission : CallerAdmission).

Definition is_authenticated (c : CallerScope) : bool :=
  match c with Authenticated _ => true | Unauthenticated => false end.

Definition from_resolved (occ identity : string) (families communities : list string) : CallerAdmission :=
  mk_CallerAdmission occ identity (list_to_set families) (list_to_set communities)
    (list_to_set [occ; identity]).

Definition opt_in (o : option string) (s : gset string) : bool :=
  match o with Some x => bool_decide (x ∈ s) | None => false end.

Definition admits (c : CallerScope) (cohort_scope target : string) (cohort_target dimension : option string)
    : bool :=
  match parse cohort_scope with
  | None => false
  | Some scope =>
      if bool_decide (placement scope = Commons) then true
      else
        match c with
        | Unauthenticated => false
        | Authenticated a =>
            match placement scope with
            | SelfCollective =>
                bool_decide (target ∈ self_key_ids a)
                && ((target =s occurrence_key_id a)
                    || negb (match dimension with
                             | Some d => is_sensitive_config_leaf d
                             | None => false
                             end))
            | Targeted FamilyPlane => opt_in cohort_target (family_key_ids a)
            | Targeted RoomPlane => opt_in cohort_target (community_key_ids a)
            | Commons => true
            end
        end
  end.

Definition PROPOSAL_DIMENSION := "membership:proposal:v1".

Definition admits_membership_proposal (c : CallerScope) (cohort_scope : string)
    (dimension : option string) (subject_key_ids : list string) : bool :=
  match c with
  | Unauthenticated => false
  | Authenticated a =>
      ((cohort_scope =s "family") || (cohort_scope =s "community"))
      && bool_decide (dimension = Some PROPOSAL_DIMENSION)
      && existsb (fun k => bool_decide (k ∈ self_key_ids a)) subject_key_ids
  end.

Definition admits_local_tier (c : CallerScope) (tier attesting_key_id : string) : bool :=
  if tier <>s "local" then true
  else match c with
       | Unauthenticated => false
       | Authenticated a => occurrence_key_id a =s attesting_key_id
       end.

(** ** Resolution

    What [build_caller_admission_from_directory] asks the directory; each read may fail. *)
Record IdentityOccurrence := mk_IdentityOccurrence {
  io_identity_key_id : string;
  io_occurrence_key_id : string;
  io_asserted_at : Z;
}.

Record IdentityOccurrenceRevocation := mk_IdentityOccurrenceRevocation {
  ior_occurrence_key_id : string;
  ior_effective_at : Z;
}.

Definition revokes (r : IdentityOccurrenceRevocation) (o : IdentityOccurrence) (now : Z) : bool :=
  (ior_occurrence_key_id r =s io_occurrence_key_id o)
  && (ior_effective_at r <=? now)%Z && (io_asserted_at o <=? ior_effective_at r)%Z.

Record AdmissionReads (E : Type) := mk_AdmissionReads {
  lookup_identity_for_occurrence : string -> E + option IdentityOccurrence;
  list_identity_occurrence_revocations_for : string -> E + list IdentityOccurrenceRevocation;
  list_families_for_member_active : string -> E + list string;
  list_communities_for_member_active : string -> E + list string;
  principals_of : string -> E + list string;
  occurrences_of : string -> E + list string;
  nodes_of : string -> E + list string;
}.

Section Resolve.
Context {E : Type} (dir : AdmissionReads E).

(** The [?] operator. *)
Definition try_ {A B} (x : E + A) (f : A -> E + B) : E + B :=
  match x with inl e => inl e | inr a => f a end.

Notation "'do' x <- e1 ; e2" := (try_ e1 (fun x => e2)) (at level 200, x name, right associativity).

(** [principals.sort(); principals.dedup()], then one turn per principal. *)
Fixpoint collect (ps : list string) (out : gset string) : E + gset string :=
  match ps with
  | [] => inr out
  | p :: ps' =>
      do os <- occurrences_of _ dir p;
      do ns <- nodes_of _ dir p;
      collect ps' (out ∪ {[p]} ∪ list_to_set os ∪ list_to_set ns)
  end.

Definition self_collective_of (occ identity : string) : E + gset string :=
  do ps <- principals_of _ dir occ;
  collect (dedup_sorted (sort_strings (ps ++ [identity]))) {[occ; identity]}.

Definition resolve_identity (now : Z) (occ : string) : E + string :=
  do found <- lookup_identity_for_occurrence _ dir occ;
  match found with
  | Some o =>
      do rs <- list_identity_occurrence_revocations_for _ dir (io_identity_key_id o);
      inr (if existsb (fun r => revokes r o now) rs then occ else io_identity_key_id o)
  | None => inr occ
  end.

Definition build_caller_admission_from_directory (now : Z) (occ : string) : E + CallerAdmission :=
  do identity <- resolve_identity now occ;
  do families <- list_families_for_member_active _ dir identity;
  do communities <- list_communities_for_member_active _ dir identity;
  do selves <- self_collective_of occ identity;
  inr (mk_CallerAdmission occ identity (list_to_set families) (list_to_set communities) selves).

Definition caller_scope_from_directory (now : Z) (occ : string) : E + CallerScope :=
  if occ =s "" then inr Unauthenticated
  else do a <- build_caller_admission_from_directory now occ; inr (Authenticated a).
End Resolve.

(** ** The gate as SQL *)

Inductive BackendKind := Postgres | Sqlite.

Inductive ScopeParam := Key (k : string) | KeyList (ks : list string).

(** A placeholder: [$n], or the next [?]. *)
Inductive Ph := Dollar (n : N) | Question.

(** The columns a fragment compares with parameters. *)
Inductive TCol := TargetCol | RoomCol.

Inductive Expr :=
| ScopeEq (label : string)
| ScopeIn (labels : list string)
| OneIsZero
| ColIn (c : TCol) (phs : list Ph)
| ColAny (c : TCol) (ph : Ph)
| ColEq (c : TCol) (ph : Ph)
| DimIsNull
| NotSensitive
| DimEq (lit : string)
| SubjectAny (ph : Ph)
| SubjectIn (phs : list Ph)
| And (es : list Expr)
| Or (es : list Expr).

(** [next] and [params]. *)
Notation sql_st := (N * list ScopeParam)%type.

Definition placeholder (b : BackendKind) (next : N) : Ph * N :=
  match b with Postgres => (Dollar next, (next + 1)%N) | Sqlite => (Question, next) end.

Fixpoint push_keys (b : BackendKind) (ks : list string) (st : sql_st) : list Ph * sql_st :=
  match ks with
  | [] => ([], st)
  | k :: ks' =>
      let '(ph, next) := placeholder b (fst st) in
      let '(phs, st) := push_keys b ks' (next, snd st ++ [Key k]) in
      (ph :: phs, st)
  end.

Definition push_list (ks : list string) (st : sql_st) : Ph * sql_st :=
  let '(ph, next) := placeholder Postgres (fst st) in (ph, (next, snd st ++ [KeyList ks])).

Definition scope_match (labels : list string) : Expr :=
  match labels with [one] => ScopeEq one | many => ScopeIn many end.

Definition target_membership_branch (b : BackendKind) (c : TCol) (labels : list string)
    (keys : gset string) (st : sql_st) : Expr * sql_st :=
  if bool_decide (keys = ∅) then (And [scope_match labels; OneIsZero], st)
  else
    match b with
    | Postgres => let '(ph, st) := push_list (btree_iter keys) st in (And [scope_match labels; ColAny c ph], st)
    | Sqlite => let '(phs, st) := push_keys b (btree_iter keys) st in (And [scope_match labels; ColIn c phs], st)
    end.

Definition plane_labels (p : TargetPlane) : list string :=
  map as_str (List.filter (fun s => bool_decide (placement s = Targeted p)) Scopes.ALL).

(** The self branch, narrowed where the table has a dimension column. *)
Definition self_branch (b : BackendKind) (has_dim : bool) (a : CallerAdmission) (st : sql_st) : Expr * sql_st :=
  let '(e, st) := target_membership_branch b TargetCol ["self"] (self_key_ids a) st in
  if has_dim then
    let '(ph, next) := placeholder b (fst st) in
    (And [e; Or [ColEq TargetCol ph; DimIsNull; NotSensitive]],
     (next, snd st ++ [Key (occurrence_key_id a)]))
  else (e, st).

(** One branch per roster; a roster no scope is answered against has none. *)
Definition plane_branch (b : BackendKind) (c : TCol) (p : TargetPlane) (keys : gset string) (st : sql_st)
    : list Expr * sql_st :=
  match plane_labels p with
  | [] => ([], st)
  | labels => let '(e, st) := target_membership_branch b c labels keys st in ([e], st)
  end.

(** The membership-proposal arm, on tables with both columns. *)
Definition proposal_branch (b : BackendKind) (on : bool) (a : CallerAdmission) (st : sql_st)
    : list Expr * sql_st :=
  if on && negb (bool_decide (self_key_ids a = ∅)) then
    match b with
    | Postgres =>
        let '(ph, st) := push_list (btree_iter (self_key_ids a)) st in
        ([And [ScopeIn ["family"; "community"]; DimEq PROPOSAL_DIMENSION; SubjectAny ph]], st)
    | Sqlite =>
        let '(phs, st) := push_keys b (btree_iter (self_key_ids a)) st in
        ([And [ScopeIn ["family"; "community"]; DimEq PROPOSAL_DIMENSION; SubjectIn phs]], st)
    end
  else ([], st).

(** [cohort_scope_sql_predicate_full]: whether the table has a room column and a dimension
    column, and the fragment with its parameters. *)
Definition cohort_scope_predicate (b : BackendKind) (has_room has_dim : bool) (scope : CallerScope)
    : Expr * list ScopeParam :=
  match scope with
  | Unauthenticated => (Or [ScopeIn commons], [])
  | Authenticated a =>
      let '(self_e, st) := self_branch b has_dim a (1%N, []) in
      let room := if has_room then RoomCol else TargetCol in
      let '(fam, st) := plane_branch b room FamilyPlane (family_key_ids a) st in
      let '(rooms, st) := plane_branch b room RoomPlane (community_key_ids a) st in
      let '(prop, st) := proposal_branch b (has_room && has_dim) a st in
      (Or (ScopeIn commons :: self_e :: fam ++ rooms ++ prop), snd st)
  end.

Definition local_tier_predicate (b : BackendKind) (scope : CallerScope) : option Ph * list ScopeParam :=
  match scope with
  | Unauthenticated => (None, [])
  | Authenticated a => (Some (fst (placeholder b 1)), [Key (occurrence_key_id a)])
  end.

(** ** Its text *)

Section Text.
Context (b : BackendKind) (scope_col target_col room_col dim qualifier : string).

Definition ph_text (p : Ph) : string :=
  match p with Dollar n => "$" +:+ fmt_N n | Question => "?" end.

Definition tcol_text (c : TCol) : string := match c with TargetCol => target_col | RoomCol => room_col end.

Definition quoted (s : string) : string := "'" +:+ s +:+ "'".

Definition sensitive_text : string :=
  join " OR " (map (fun leaf =>
    let n := fmt_N (N.of_nat (String.length leaf + 1)) in
    dim +:+ " = '" +:+ leaf +:+ "' OR (substr(" +:+ dim +:+ ", 1, " +:+ n +:+ ") = '" +:+ leaf
    +:+ ":' AND length(" +:+ dim +:+ ") > " +:+ n +:+ ")") CONFIG_SENSITIVE_LEAVES).

Definition subjects_text (keys : string) : string :=
  "EXISTS (SELECT 1 FROM " +:+
  (match b with Postgres => "cirislens.attestation_subjects" | Sqlite => "attestation_subjects" end)
  +:+ " ms WHERE ms.attestation_id = " +:+ qualifier +:+ "attestation_id AND ms.subject_key_id "
  +:+ keys +:+ ")".

Fixpoint text (e : Expr) : string :=
  match e with
  | ScopeEq l => scope_col +:+ " = " +:+ quoted l
  | ScopeIn ls => scope_col +:+ " IN (" +:+ join "," (map quoted ls) +:+ ")"
  | OneIsZero => "1=0"
  | ColIn c phs => tcol_text c +:+ " IN (" +:+ join "," (map ph_text phs) +:+ ")"
  | ColAny c ph => tcol_text c +:+ " = ANY(" +:+ ph_text ph +:+ ")"
  | ColEq c ph => tcol_text c +:+ " = " +:+ ph_text ph
  | DimIsNull => dim +:+ " IS NULL"
  | NotSensitive => "NOT (" +:+ sensitive_text +:+ ")"
  | DimEq lit => dim +:+ " = " +:+ quoted lit
  | SubjectAny ph => subjects_text ("= ANY(" +:+ ph_text ph +:+ ")")
  | SubjectIn phs => subjects_text ("IN (" +:+ join ", " (map ph_text phs) +:+ ")")
  | And es => "(" +:+ join " AND " (map text es) +:+ ")"
  | Or es => "(" +:+ join " OR " (map text es) +:+ ")"
  end.
End Text.

(** [cohort_scope_sql_predicate_full]. *)
Definition cohort_scope_sql_predicate_full (b : BackendKind) (scope_col target_col : string)
    (cohort_target_col dimension_col : option string) (scope : CallerScope) : string * list ScopeParam :=
  let '(e, params) := cohort_scope_predicate b (bool_decide (is_Some cohort_target_col))
                        (bool_decide (is_Some dimension_col)) scope in
  let qualifier := match last (split_on "."%char scope_col) with
                   | Some w =>
                       if has_byte "."%char scope_col
                       then String.substring 0 (String.length scope_col - String.length w) scope_col
                       else ""
                   | None => ""
                   end in
  (text b scope_col target_col (default target_col cohort_target_col) (default "" dimension_col) qualifier e,
   params).

Definition local_tier_sql_predicate (b : BackendKind) (tier_col attester_col : string) (scope : CallerScope)
    : string * list ScopeParam :=
  let '(ph, params) := local_tier_predicate b scope in
  (match ph with
   | None => "(" +:+ tier_col +:+ " <> 'local')"
   | Some ph => "(" +:+ tier_col +:+ " <> 'local' OR " +:+ attester_col +:+ " = " +:+ ph_text ph +:+ ")"
   end, params).

(** ** Its reading *)

(** The columns of a row the gate reads: [target_col], the room and the dimension (NULL
    where the envelope names none), and the row's subjects. *)
Record GateRow := mk_GateRow {
  g_scope : string;
  g_target : string;
  g_room : option string;
  g_dim : option string;
  g_subjects : list string;
}.

Definition ph_value (params : list ScopeParam) (pos : nat) (p : Ph) : option ScopeParam * nat :=
  match p with
  | Dollar n => (params !! N.to_nat (n - 1), pos)
  | Question => (params !! pos, S pos)
  end.

Fixpoint ph_values (params : list ScopeParam) (pos : nat) (ps : list Ph) : list (option ScopeParam) * nat :=
  match ps with
  | [] => ([], pos)
  | p :: ps' =>
      let '(v, pos) := ph_value params pos p in
      let '(vs, pos) := ph_values params pos ps' in
      (v :: vs, pos)
  end.

Definition is_key (x : string) (p : option ScopeParam) : bool :=
  match p with Some (Key k) => x =s k | _ => false end.
Definition in_list (x : string) (p : option ScopeParam) : bool :=
  match p with Some (KeyList ks) => existsb (fun k => x =s k) ks | _ => false end.

Definition tcol_value (r : GateRow) (c : TCol) : option string :=
  match c with TargetCol => Some (g_target r) | RoomCol => g_room r end.

Definition on_some (o : option string) (f : string -> bool) : bool :=
  match o with Some x => f x | None => false end.

(** [dim = 'leaf' OR (substr(dim, 1, n) = 'leaf:' AND length(dim) > n)], for each leaf. *)
Definition sql_sensitive (d : string) : bool :=
  existsb (fun leaf =>
    let n := String.length leaf + 1 in
    (d =s leaf) || ((take_chars n d =s leaf +:+ ":") && (n <? char_count d)%nat)) CONFIG_SENSITIVE_LEAVES.

Section Eval.
Context (params : list ScopeParam) (r : GateRow).

Fixpoint eval (pos : nat) (e : Expr) : bool * nat :=
  match e with
  | ScopeEq l => (g_scope r =s l, pos)
  | ScopeIn ls => (existsb (fun l => g_scope r =s l) ls, pos)
  | OneIsZero => (false, pos)
  | ColIn c phs =>
      let '(vs, pos) := ph_values params pos phs in
      (on_some (tcol_value r c) (fun x => existsb (is_key x) vs), pos)
  | ColAny c ph =>
      let '(v, pos) := ph_value params pos ph in (on_some (tcol_value r c) (fun x => in_list x v), pos)
  | ColEq c ph =>
      let '(v, pos) := ph_value params pos ph in (on_some (tcol_value r c) (fun x => is_key x v), pos)
  | DimIsNull => (match g_dim r with None => true | Some _ => false end, pos)
  | NotSensitive => (on_some (g_dim r) (fun d => negb (sql_sensitive d)), pos)
  | DimEq lit => (on_some (g_dim r) (fun d => d =s lit), pos)
  | SubjectAny ph =>
      let '(v, pos) := ph_value params pos ph in (existsb (fun s => in_list s v) (g_subjects r), pos)
  | SubjectIn phs =>
      let '(vs, pos) := ph_values params pos phs in
      (existsb (fun s => existsb (is_key s) vs) (g_subjects r), pos)
  | And es =>
      (fix go (pos : nat) (es : list Expr) : bool * nat :=
         match es with
         | [] => (true, pos)
         | e :: es' =>
             let '(x, pos) := eval pos e in
             let '(y, pos) := go pos es' in
             (x && y, pos)
         end) pos es
  | Or es =>
      (fix go (pos : nat) (es : list Expr) : bool * nat :=
         match es with
         | [] => (false, pos)
         | e :: es' =>
             let '(x, pos) := eval pos e in
             let '(y, pos) := go pos es' in
             (x || y, pos)
         end) pos es
  end.

Fixpoint eval_and (pos : nat) (es : list Expr) : bool * nat :=
  match es with
  | [] => (true, pos)
  | e :: es' =>
      let '(x, pos) := eval pos e in
      let '(y, pos) := eval_and pos es' in
      (x && y, pos)
  end.

Fixpoint eval_or (pos : nat) (es : list Expr) : bool * nat :=
  match es with
  | [] => (false, pos)
  | e :: es' =>
      let '(x, pos) := eval pos e in
      let '(y, pos) := eval_or pos es' in
      (x || y, pos)
  end.

Lemma eval_And pos es : eval pos (And es) = eval_and pos es.
Proof. reflexivity. Qed.

Lemma eval_Or pos es : eval pos (Or es) = eval_or pos es.
Proof. reflexivity. Qed.
End Eval.

(** Does a row pass the rendered gate? *)
Definition passes (q : Expr * list ScopeParam) (r : GateRow) : bool := fst (eval (snd q) r 0 (fst q)).

(** ** The branches, one by one *)

Lemma btree_iter_In x s : existsb (fun k => x =s k) (btree_iter s) = bool_decide (x ∈ s).
Proof.
  apply eq_true_iff_eq. rewrite existsb_exists, bool_decide_eq_true. unfold btree_iter, sort_strings.
  setoid_rewrite String.eqb_eq. setoid_rewrite sort_by_In. setoid_rewrite <- list_elem_of_In.
  setoid_rewrite elem_of_elements. naive_solver.
Qed.

Lemma push_keys_sqlite ks : forall st,
  push_keys Sqlite ks st = (repeat Question (length ks), (fst st, snd st ++ map Key ks)).
Proof.
  induction ks as [|k ks IH]; intros [n ps]; simpl; [by rewrite app_nil_r|].
  rewrite IH. simpl. by rewrite <- app_assoc.
Qed.

Lemma ph_values_questions ks : forall ps extra,
  ph_values ((ps ++ map Key ks) ++ extra) (length ps) (repeat Question (length ks))
  = (map (fun k => Some (Key k)) ks, length (ps ++ map Key ks)).
Proof.
  induction ks as [|k ks IH]; intros ps extra; simpl; [by rewrite app_nil_r|].
  specialize (IH (ps ++ [Key k]) extra). rewrite <- !app_assoc in IH. simpl in IH.
  rewrite <- app_assoc. simpl. rewrite list_lookup_middle by done.
  rewrite length_app in IH. simpl in IH. rewrite Nat.add_1_r in IH. by rewrite IH.
Qed.

Lemma existsb_keys x ks : existsb (is_key x) (map (fun k => Some (Key k)) ks) = existsb (fun k => x =s k) ks.
Proof. induction ks as [|k ks IH]; simpl; [done|]. by rewrite IH. Qed.

(** On sqlite the next [?] is the first parameter not yet placed; on postgres the next [$n]
    is. *)
Definition aligned (b : BackendKind) (st : sql_st) : Prop :=
  match b with Postgres => fst st = (len (snd st) + 1)%N | Sqlite => True end.

Definition next_pos (b : BackendKind) (st : sql_st) (pos : nat) : nat :=
  match b with Postgres => pos | Sqlite => length (snd st) end.

(** A list of expressions built from [st] to [st'] reads its own parameters only and
    answers [P]. *)
Definition reads (b : BackendKind) (st : sql_st) (e : Expr) (st' : sql_st) (P : GateRow -> bool) : Prop :=
  aligned b st' /\ (exists more, snd st' = snd st ++ more) /\
  forall extra r pos, (b = Sqlite -> pos = length (snd st)) ->
    eval (snd st' ++ extra) r pos e = (P r, next_pos b st' pos).

Lemma one_param b st p :
  aligned b st ->
  let '(ph, next) := placeholder b (fst st) in
  aligned b (next, snd st ++ [p]) /\
  forall extra pos, (b = Sqlite -> pos = length (snd st)) ->
    ph_value ((snd st ++ [p]) ++ extra) pos ph = (Some p, next_pos b (next, snd st ++ [p]) pos).
Proof.
  destruct st as [n ps]. intros Ha. destruct b; simpl in *.
  - subst n. split; [rewrite len_app, len_cons, len_nil; lia|]. intros extra pos _. f_equal.
    replace (N.to_nat (len ps + 1 - 1)) with (length ps) by (unfold len; lia).
    rewrite <- app_assoc. simpl. by rewrite list_lookup_middle.
  - split; [done|]. intros extra pos Hp. rewrite (Hp eq_refl), <- app_assoc. simpl.
    rewrite list_lookup_middle by done. f_equal. rewrite length_app. simpl. lia.
Qed.

Lemma scope_match_eval params r pos labels :
  eval params r pos (scope_match labels) = (existsb (fun l => g_scope r =s l) labels, pos).
Proof. destruct labels as [|l [|l' ls]]; try reflexivity. simpl. by rewrite orb_false_r. Qed.

Lemma branch_reads b c labels keys st :
  aligned b st ->
  let '(e, st') := target_membership_branch b c labels keys st in
  reads b st e st' (fun r => existsb (fun l => g_scope r =s l) labels && opt_in (tcol_value r c) keys).
Proof.
  intros Ha. unfold target_membership_branch. case_bool_decide as Hk.
  { split_and!; [done|by exists []; rewrite app_nil_r|]. intros extra r pos Hp. rewrite eval_And.
    cbn [eval_and eval]. rewrite scope_match_eval. subst keys. f_equal.
    - destruct (tcol_value r c); simpl; by rewrite ?andb_false_r.
    - destruct b; [done|]. simpl. auto. }
  destruct b.
  - pose proof (one_param Postgres st (KeyList (btree_iter keys)) Ha) as H. unfold push_list.
    destruct (placeholder Postgres (fst st)) as [ph next]. destruct H as [Ha' Hv].
    split_and!; [done|by eexists|]. intros extra r pos Hp. rewrite eval_And. cbn [eval_and eval].
    rewrite scope_match_eval. cbn [snd fst]. rewrite (Hv extra pos) by done. simpl. f_equal. f_equal.
    rewrite andb_true_r. destruct (tcol_value r c); [|done]. simpl. apply btree_iter_In.
  - rewrite push_keys_sqlite. split_and!; [done|by eexists|]. intros extra r pos Hp. rewrite eval_And.
    cbn [eval_and eval]. rewrite scope_match_eval. cbn [snd]. rewrite (Hp eq_refl), ph_values_questions.
    simpl. f_equal. f_equal. rewrite andb_true_r. destruct (tcol_value r c); [|done]. simpl.
    rewrite existsb_keys. apply btree_iter_In.
Qed.

(** ** Sensitive leaves in SQL *)

Lemma valid_nonempty_count s : utf8_valid s = true -> (0 <? char_count s)%nat = negb (s =s "").
Proof.
  intros Hs. destruct s as [|a s]; [done|]. simpl. by rewrite (valid_head _ _ Hs).
Qed.

Lemma char_count_app a b : char_count (a +:+ b) = char_count a + char_count b.
Proof. induction a as [|x a IH]; rewrite ?app_cons; simpl; [done|]. destruct (cont x); by rewrite IH. Qed.

Lemma covers_sql leaf d :
  utf8_valid (leaf +:+ ":") = true -> char_count (leaf +:+ ":") = String.length leaf + 1 -> leaf <> "" ->
  utf8_valid d = true ->
  (d =s leaf) || ((take_chars (String.length leaf + 1) d =s leaf +:+ ":")
                  && (String.length leaf + 1 <? char_count d)%nat) = scope_covers leaf d.
Proof.
  intros Hl Hn Hne Hd. unfold scope_covers. rewrite (proj2 (String.eqb_neq leaf "") Hne). simpl.
  rewrite <- Hn, substr_prefix by done. rewrite (String.eqb_sym leaf d).
  destruct (String.eqb_spec d "") as [->|Hd0].
  { simpl. rewrite andb_false_r, orb_false_r. by destruct leaf. }
  destruct (String.eqb_spec d leaf) as [->|Hdl]; [done|]. simpl.
  destruct (starts_with (leaf +:+ ":") d) eqn:Es.
  - apply starts_with_iff in Es as [r ->]. rewrite string_app_assoc, strip_prefix_app.
    rewrite app_cons, app_nil_l', (char_count_app leaf (String ":" r)).
    assert (Hr : utf8_valid r = true).
    { apply (valid_app (String.length (leaf +:+ ":")) (leaf +:+ ":")); done. }
    assert (E1 : starts_with ":" (String ":" r) = true) by (apply starts_with_iff; by exists r).
    rewrite E1, andb_true_r. simpl.
    replace (char_count (leaf +:+ ":") <? char_count leaf + S (char_count r))%nat
      with (0 <? char_count r)%nat.
    + rewrite (valid_nonempty_count r Hr). destruct r; done.
    + rewrite char_count_app. change (char_count ":") with 1. apply eq_true_iff_eq. rewrite !Nat.ltb_lt. lia.
  - simpl. destruct (strip_prefix leaf d) as [rest|] eqn:Ep; [|done].
    apply strip_prefix_Some in Ep as ->. destruct (starts_with ":" rest) eqn:E1; [|by rewrite andb_false_r].
    apply starts_with_iff in E1 as [r ->]. apply not_true_iff_false in Es. destruct Es.
    apply starts_with_iff. exists r. by rewrite string_app_assoc.
Qed.

Lemma sensitive_sql d : utf8_valid d = true -> sql_sensitive d = is_sensitive_config_leaf d.
Proof.
  intros Hd. unfold sql_sensitive, is_sensitive_config_leaf, CONFIG_SENSITIVE_LEAVES. cbn [existsb].
  by rewrite !covers_sql by (done || reflexivity).
Qed.

(** ** Composing the branches *)

Definition reads_or (b : BackendKind) (st : sql_st) (es : list Expr) (st' : sql_st) (P : GateRow -> bool)
    : Prop :=
  aligned b st' /\ (exists more, snd st' = snd st ++ more) /\
  forall extra r pos, (b = Sqlite -> pos = length (snd st)) ->
    eval_or (snd st' ++ extra) r pos es = (P r, next_pos b st' pos).

Lemma reads_one b st e st' P : reads b st e st' P -> reads_or b st [e] st' P.
Proof.
  intros (Ha & Hm & H). split_and!; [done..|]. intros extra r pos Hp. cbn [eval_or].
  rewrite H by done. by rewrite orb_false_r.
Qed.

Lemma reads_none b st : aligned b st -> reads_or b st [] st (fun _ => false).
Proof.
  intros Ha. split_and!; [done|by exists []; rewrite app_nil_r|]. intros extra r pos Hp. cbn.
  destruct b; [done|]. by rewrite (Hp eq_refl).
Qed.

Lemma eval_or_app params r es1 es2 : forall pos,
  eval_or params r pos (es1 ++ es2) =
  let '(x, pos) := eval_or params r pos es1 in
  let '(y, pos) := eval_or params r pos es2 in (x || y, pos).
Proof.
  induction es1 as [|e es1 IH]; intros pos; simpl; [by destruct (eval_or _ _ _ _)|].
  destruct (eval params r pos e) as [x pos1]. rewrite IH.
  destruct (eval_or params r pos1 es1) as [y pos2]. destruct (eval_or params r pos2 es2) as [z pos3].
  by rewrite orb_assoc.
Qed.

Lemma reads_app b st1 es1 st2 es2 st3 P Q :
  reads_or b st1 es1 st2 P -> reads_or b st2 es2 st3 Q ->
  reads_or b st1 (es1 ++ es2) st3 (fun r => P r || Q r).
Proof.
  intros (Ha1 & [m1 Hm1] & H1) (Ha2 & [m2 Hm2] & H2). split_and!; [done| |].
  - exists (m1 ++ m2). rewrite Hm2, Hm1. by rewrite app_assoc.
  - intros extra r pos Hp. rewrite eval_or_app. rewrite Hm2 at 1. rewrite <- app_assoc, H1 by done.
    rewrite H2; [|by intros ->]. by destruct b.
Qed.

Lemma plane_reads b c p keys st :
  aligned b st ->
  let '(es, st') := plane_branch b c p keys st in
  reads_or b st es st' (fun r => existsb (fun l => g_scope r =s l) (plane_labels p)
                                 && opt_in (tcol_value r c) keys).
Proof.
  intros Ha. unfold plane_branch. pose proof (branch_reads b c (plane_labels p) keys st Ha) as H.
  destruct (plane_labels p) as [|l ls] eqn:E; [by destruct p|].
  destruct (target_membership_branch b c (l :: ls) keys st) as [e st']. by apply reads_one.
Qed.

Lemma self_reads b a st :
  aligned b st ->
  let '(e, st') := self_branch b true a st in
  reads b st e st' (fun r => (g_scope r =s "self") && bool_decide (g_target r ∈ self_key_ids a)
    && ((g_target r =s occurrence_key_id a)
        || match g_dim r with None => true | Some d => negb (sql_sensitive d) end)).
Proof.
  intros Ha. unfold self_branch.
  pose proof (branch_reads b TargetCol ["self"] (self_key_ids a) st Ha) as H.
  destruct (target_membership_branch b TargetCol ["self"] (self_key_ids a) st) as [e st1].
  destruct H as (Ha1 & [m1 Hm1] & H1).
  pose proof (one_param b st1 (Key (occurrence_key_id a)) Ha1) as Hp.
  destruct (placeholder b (fst st1)) as [ph next]. destruct Hp as [Ha2 Hv].
  split_and!; [done|exists (m1 ++ [Key (occurrence_key_id a)]); cbn [snd]; rewrite Hm1; by rewrite app_assoc|].
  intros extra r pos Hpos. rewrite eval_And. cbn [eval_and]. cbn [snd fst] in *.
  rewrite <- app_assoc, H1 by done. rewrite eval_Or. cbn [eval_or eval].
  rewrite app_assoc. rewrite Hv by (by intros ->). cbn [tcol_value on_some is_key existsb opt_in].
  rewrite !orb_false_r, andb_true_r. f_equal; [|by destruct b].
  f_equal. f_equal. by destruct (g_dim r).
Qed.

Lemma proposal_reads b a st :
  aligned b st ->
  let '(es, st') := proposal_branch b true a st in
  reads_or b st es st' (fun r => admits_membership_proposal (Authenticated a) (g_scope r) (g_dim r) (g_subjects r)).
Proof.
  intros Ha. unfold proposal_branch.
  assert (Hdim : forall r, on_some (g_dim r) (fun d => d =s PROPOSAL_DIMENSION)
                           = bool_decide (g_dim r = Some PROPOSAL_DIMENSION)).
  { intros r. apply eq_true_iff_eq. rewrite bool_decide_eq_true.
    destruct (g_dim r); simpl; [rewrite String.eqb_eq; split; congruence|done]. }
  case_bool_decide as He; cbn [andb negb].
  - pose proof (reads_none b st Ha) as (H1 & H2 & H3). split_and!; [done..|]. intros extra r pos Hp.
    rewrite H3 by done. f_equal. unfold admits_membership_proposal. rewrite He.
    assert (Hn : forall l : list string, existsb (fun k => bool_decide (k ∈ (∅ : gset string))) l = false).
    { intros l. apply existsb_false. intros x _. by apply bool_decide_eq_false_2, not_elem_of_empty. }
    by rewrite Hn, andb_false_r.
  - destruct b.
    + pose proof (one_param Postgres st (KeyList (btree_iter (self_key_ids a))) Ha) as H. unfold push_list.
      destruct (placeholder Postgres (fst st)) as [ph next]. destruct H as [Ha' Hv]. apply reads_one.
      split_and!; [done|by eexists|]. intros extra r pos Hp. rewrite eval_And. cbn [eval_and eval].
      cbn [snd fst]. rewrite (Hv extra pos) by done. cbn [in_list next_pos]. f_equal.
      cbn [existsb admits_membership_proposal]. rewrite Hdim, orb_false_r, andb_true_r, <- andb_assoc.
      do 2 f_equal. induction (g_subjects r) as [|x l IH]; [done|]. cbn [existsb]. by rewrite IH, btree_iter_In.
    + rewrite push_keys_sqlite. apply reads_one. split_and!; [done|by eexists|].
      intros extra r pos Hp. rewrite eval_And. cbn [eval_and eval]. cbn [snd].
      rewrite (Hp eq_refl), ph_values_questions. cbn [next_pos snd]. f_equal.
      cbn [existsb admits_membership_proposal]. rewrite Hdim, orb_false_r, andb_true_r, <- andb_assoc.
      do 2 f_equal. induction (g_subjects r) as [|x l IH]; [done|]. cbn [existsb].
      by rewrite IH, existsb_keys, btree_iter_In.
Qed.

(** ** The classifier's labels *)

Lemma parse_as_str s : parse (as_str s) = Some s.
Proof. by destruct s. Qed.

Lemma parse_Some x s : parse x = Some s <-> x = as_str s.
Proof.
  split; [|intros ->; apply parse_as_str]. unfold parse.
  repeat (case_if; [intros [= <-]; by apply String.eqb_eq|]). done.
Qed.

Lemma labels_parse x (f : Scope -> bool) :
  existsb (fun l => x =s l) (map as_str (List.filter f Scopes.ALL))
  = match parse x with Some s => f s | None => false end.
Proof.
  apply eq_true_iff_eq. rewrite existsb_exists. split.
  - intros (l & Hl & Hx). apply in_map_iff in Hl as (s & <- & Hs). apply filter_In in Hs as [_ Hs].
    apply String.eqb_eq in Hx as ->. by rewrite parse_as_str.
  - intros Hs. destruct (parse x) as [s|] eqn:E; [|done]. apply parse_Some in E as ->.
    exists (as_str s). split; [|apply String.eqb_refl]. apply in_map, filter_In. split; [|done].
    unfold Scopes.ALL. destruct s; simpl; tauto.
Qed.

Lemma self_label x : (x =s "self") = match parse x with Some SelfOnly => true | _ => false end.
Proof.
  destruct (String.eqb_spec x "self") as [->|Hne]; [done|].
  destruct (parse x) as [s|] eqn:E; [|done]. apply parse_Some in E as ->. by destruct s.
Qed.

(** ** Properties *)

(** C34. The gate reads the same in SQL: for every caller, backend and row (of Rust strings),
    the rendered fragment under its parameters, bound in order, holds exactly when the row
    passes [admits] or the membership-proposal arm. *)
Theorem gate_sql_agrees (b : BackendKind) (scope : CallerScope) (r : GateRow) :
  (forall d, g_dim r = Some d -> utf8_valid d = true) ->
  passes (cohort_scope_predicate b true true scope) r
  = admits scope (g_scope r) (g_target r) (g_room r) (g_dim r)
    || admits_membership_proposal scope (g_scope r) (g_dim r) (g_subjects r).
Proof.
  intros Hd. unfold passes, cohort_scope_predicate. destruct scope as [|a].
  { cbn [fst snd]. rewrite eval_Or. cbn [eval_or eval fst]. unfold commons. rewrite labels_parse.
    unfold admits, admits_membership_proposal. rewrite !orb_false_r.
    destruct (parse (g_scope r)) as [s|]; [|done]. by destruct (bool_decide (placement s = Commons)). }
  assert (Ha0 : aligned b (1%N, [])) by (by destruct b).
  pose proof (self_reads b a (1%N, []) Ha0) as Hs.
  destruct (self_branch b true a (1%N, [])) as [self_e st1]. apply reads_one in Hs.
  pose proof (plane_reads b RoomCol FamilyPlane (family_key_ids a) st1 (proj1 Hs)) as Hf.
  destruct (plane_branch b RoomCol FamilyPlane (family_key_ids a) st1) as [fam st2].
  pose proof (plane_reads b RoomCol RoomPlane (community_key_ids a) st2 (proj1 Hf)) as Hr.
  destruct (plane_branch b RoomCol RoomPlane (community_key_ids a) st2) as [rooms st3].
  pose proof (proposal_reads b a st3 (proj1 Hr)) as Hp. cbn [andb].
  destruct (proposal_branch b true a st3) as [prop st4].
  pose proof (reads_app _ _ _ _ _ _ _ _ Hs (reads_app _ _ _ _ _ _ _ _ Hf (reads_app _ _ _ _ _ _ _ _ Hr Hp)))
    as (_ & _ & Hall).
  cbn [fst snd]. rewrite eval_Or. specialize (Hall [] r 0 (fun _ => eq_refl)).
  rewrite app_nil_r in Hall. cbn [app] in Hall.
  change (ScopeIn commons :: self_e :: fam ++ rooms ++ prop)
    with ([ScopeIn commons] ++ (self_e :: fam ++ rooms ++ prop)).
  rewrite eval_or_app. cbn [eval_or eval] in Hall |- *. rewrite Hall. cbn [fst].
  rewrite !orb_assoc. f_equal.
  unfold commons, plane_labels. rewrite !labels_parse, self_label. cbn [tcol_value].
  unfold admits. destruct (parse (g_scope r)) as [s|]; [|done].
  assert (Hsens : match g_dim r with None => true | Some d => negb (sql_sensitive d) end
                  = negb (match g_dim r with Some d => is_sensitive_config_leaf d | None => false end)).
  { destruct (g_dim r) as [d|]; [|done]. by rewrite sensitive_sql by auto. }
  rewrite Hsens. destruct s; cbn -[elem_of]; rewrite ?orb_false_r; done.
Qed.

Module CsSamples.
Definition alice : CallerAdmission :=
  mk_CallerAdmission "phone" "alice" {["fam"]} {["roomA"; "roomB"]} {["alice"; "laptop"; "phone"]}.
Definition in_room (room : string) : GateRow := mk_GateRow "community" "bob" (Some room) (Some "chat:v1") [].
Definition leaf (target : string) : GateRow := mk_GateRow "self" target None (Some "config:transport:v2") [].
Definition invite : GateRow :=
  mk_GateRow "family" "bob" (Some "other") (Some "membership:proposal:v1") ["laptop"].
End CsSamples.

(** The gate on sample rows, on both backends: a room the caller is in, one it is not in, a
    sensitive leaf of the caller's own occurrence, of another of its keys, and an invite. *)
Example gate_samples :
  map (fun b => map (passes (cohort_scope_predicate b true true (Authenticated CsSamples.alice)))
    [CsSamples.in_room "roomB"; CsSamples.in_room "roomC"; CsSamples.leaf "phone"; CsSamples.leaf "laptop";
     CsSamples.invite]) [Postgres; Sqlite]
  = [[true; false; true; false; true]; [true; false; true; false; true]].
Proof. vm_compute. reflexivity. Qed.

Example gate_sql_sample :
  cohort_scope_sql_predicate_full Sqlite "t.cohort_scope" "t.k" (Some "t.room") None
    (Authenticated (mk_CallerAdmission "phone" "alice" ∅ {["roomA"; "roomB"]} {["phone"]}))
  = ("(t.cohort_scope IN ('species','biosphere','federation') OR (t.cohort_scope = 'self' AND t.k IN (?)) OR (t.cohort_scope = 'family' AND 1=0) OR (t.cohort_scope IN ('community','affiliations') AND t.room IN (?,?)))",
     [Key "phone"; Key "roomA"; Key "roomB"]).
Proof. vm_compute. reflexivity. Qed.

Lemma gate_sql_agrees_witness :
  passes (cohort_scope_predicate Sqlite true true (Authenticated CsSamples.alice)) CsSamples.invite = true.
Proof.
  rewrite (gate_sql_agrees Sqlite (Authenticated CsSamples.alice) CsSamples.invite).
  - vm_compute. reflexivity.
  - intros d Hd. vm_compute in Hd. injection Hd as <-. vm_compute. reflexivity.
Defined.

(** Who reads without proof reads what is stored in the clear: the unauthenticated
    reader is admitted to exactly the closed-set scopes whose at-rest tier is plaintext
    (the infrastructure carve-out of a room aside), and no admission widens with the
    row's target, room or dimension for such a reader. *)
Theorem public_reads_are_plaintext (cohort_scope target : string) (room dim : option string) :
  admits Unauthenticated cohort_scope target room dim = true <->
  is_Some (parse cohort_scope) /\ crypto_tier cohort_scope None = Plaintext.
Proof.
  unfold admits, crypto_tier. destruct (parse cohort_scope) as [s|].
  - destruct s; simpl; split; intros; try done; try (by split; eauto); by destruct H.
  - split; [done|]. by intros [[? ?] _].
Qed.

(** What a resolved admission holds: the occurrence asked for and its identity are in
    the self collective, the identity is the one the occurrence is bound to unless the
    binding is absent or revoked (then it is the occurrence itself), the rosters are
    exactly the active memberships of that identity, and a failed read of any of them is
    the error, never a narrower or wider admission. *)
Theorem admission_resolution {E} (dir : AdmissionReads E) (now : Z) (occ : string) (a : CallerAdmission) :
  build_caller_admission_from_directory dir now occ = inr a ->
  occurrence_key_id a = occ /\ occ ∈ self_key_ids a /\ identity_key_id a ∈ self_key_ids a /\
  (exists found, lookup_identity_for_occurrence _ dir occ = inr found /\
     match found with
     | None => identity_key_id a = occ
     | Some o => exists rs, list_identity_occurrence_revocations_for _ dir (io_identity_key_id o) = inr rs /\
         identity_key_id a = if existsb (fun r => revokes r o now) rs then occ else io_identity_key_id o
     end) /\
  (exists fs, list_families_for_member_active _ dir (identity_key_id a) = inr fs /\
     family_key_ids a = list_to_set fs) /\
  (exists cs, list_communities_for_member_active _ dir (identity_key_id a) = inr cs /\
     community_key_ids a = list_to_set cs).
Proof.
  unfold build_caller_admission_from_directory, try_.
  destruct (resolve_identity dir now occ) as [e|identity] eqn:Ei; [done|].
  destruct (list_families_for_member_active _ dir identity) as [e|fs] eqn:Ef; [done|].
  destruct (list_communities_for_member_active _ dir identity) as [e|cs] eqn:Ec; [done|].
  destruct (self_collective_of dir occ identity) as [e|selves] eqn:Es; [done|]. intros [= <-]. simpl.
  assert (Hsub : {[occ; identity]} ⊆ selves).
  { unfold self_collective_of, try_ in Es. destruct (principals_of _ dir occ) as [e|ps]; [done|].
    revert Es. generalize (dedup_sorted (sort_strings (ps ++ [identity]))).
    assert (Hgen : forall l out, collect dir l out = inr selves -> out ⊆ selves).
    { induction l as [|p l IH]; intros out; cbn [collect]; [by intros [= ->]|]. unfold try_.
      destruct (occurrences_of _ dir p); [done|]. destruct (nodes_of _ dir p); [done|].
      intros H. apply IH in H. set_solver. }
    intros l H. by apply (Hgen l). }
  split_and!; [done|set_solver|set_solver| |eauto|eauto].
  unfold resolve_identity, try_ in Ei. destruct (lookup_identity_for_occurrence _ dir occ) as [e|[o|]]; [done|..].
  - exists (Some o). split; [done|].
    destruct (list_identity_occurrence_revocations_for _ dir (io_identity_key_id o)) as [e|rs]; [done|].
    exists rs. split; [done|congruence].
  - exists None. split; [done|congruence].
Qed.

Module CdSamples.
Definition dir : AdmissionReads string := mk_AdmissionReads string
  (fun k => inr (if k =s "phone" then Some (mk_IdentityOccurrence "alice" "phone" 10) else None))
  (fun _ => inr [mk_IdentityOccurrenceRevocation "phone" 50])
  (fun k => inr (if k =s "alice" then ["fam"] else []))
  (fun _ => inr ["room"])
  (fun k => inr ["alice"])
  (fun k => inr ["phone"; "laptop"])
  (fun _ => inr ["node"]).
End CdSamples.

(** Before its revocation takes effect the phone is alice; after it, only itself. *)
Example resolution_samples :
  map (fun now => match build_caller_admission_from_directory CdSamples.dir now "phone" with
                  | inr a => (identity_key_id a, btree_iter (family_key_ids a)) | inl _ => ("", [])
                  end) [20%Z; 60%Z] = [("alice", ["fam"]); ("phone", [])].
Proof. vm_compute. reflexivity. Qed.

Lemma admission_resolution_witness :
  exists a, build_caller_admission_from_directory CdSamples.dir 60 "phone" = inr a /\
    "phone" ∈ self_key_ids a.
Proof.
  destruct (build_caller_admission_from_directory CdSamples.dir 60 "phone") as [e|a] eqn:E;
    [vm_compute in E; discriminate|].
  exists a. split; [reflexivity|]. apply (admission_resolution CdSamples.dir 60 "phone" a E).
Defined.
