(* ===== verification/AdmissionCache.v ===== *)
(** * The admission cache

    [src/src/cache/admission.rs]: resolved caller admissions by occurrence key, with the
    reverse index from identities to occurrences that a roster write invalidates through.

    [resolve] is the caller's resolution ([build_caller_admission]); the clock reading is
    an argument. *)

From Stdlib Require Import ZArith NArith Lia.
From stdpp Require Import base list strings gmap.
From S2P Require Import Prelude RustStd CallerScope.

Open Scope string_scope.
Open Scope list_scope.
Open Scope persist_scope.

Definition DEFAULT_ADMISSION_TTL : Z := 300000000000.

Record AdmissionSlot := mk_AdmissionSlot { admission : CallerAdmission; slot_inserted_at : Z }.

Definition slot_is_expired (s : AdmissionSlot) (ttl now : Z) : bool :=
  (ttl <=? Z.max 0 (now - slot_inserted_at s))%Z.

Record Inner := mk_Inner {
  adm_map : gmap string AdmissionSlot;
  by_identity : gmap string (gset string);
}.

Definition deregister (occ : string) (i : Inner) : Inner :=
  match adm_map i !! occ with
  | None => i
  | Some slot =>
      let identity := identity_key_id (admission slot) in
      mk_Inner (delete occ (adm_map i))
        (match by_identity i !! identity with
         | Some set =>
             let set := set ∖ {[occ]} in
             if bool_decide (set = ∅) then delete identity (by_identity i)
             else <[identity := set]> (by_identity i)
         | None => by_identity i
         end)
  end.

Record AdmissionStats := mk_AdmissionStats {
  adm_hits : N;
  adm_misses : N;
  adm_evictions_ttl : N;
  adm_invalidations_chain_write : N;
  adm_entries_resident : N;
}.

Record AdmissionCache := mk_AdmissionCache { adm_inner : Inner; adm_ttl : Z; adm_stats : AdmissionStats }.

Definition with_ttl (ttl : Z) : AdmissionCache :=
  mk_AdmissionCache (mk_Inner ∅ ∅) ttl (mk_AdmissionStats 0 0 0 0 0).

(** [fetch_add] on a [u64] counter. *)
Definition fetch_add (x n : N) : N := ((x + n) mod (u64_max + 1))%N.

Definition count (h m e v : N) (c : AdmissionCache) : AdmissionCache :=
  let s := adm_stats c in
  mk_AdmissionCache (adm_inner c) (adm_ttl c)
    (mk_AdmissionStats (fetch_add (adm_hits s) h) (fetch_add (adm_misses s) m)
       (fetch_add (adm_evictions_ttl s) e) (fetch_add (adm_invalidations_chain_write s) v)
       (adm_entries_resident s)).

Definition adm_refresh_residency (c : AdmissionCache) : AdmissionCache :=
  let s := adm_stats c in
  mk_AdmissionCache (adm_inner c) (adm_ttl c)
    (mk_AdmissionStats (adm_hits s) (adm_misses s) (adm_evictions_ttl s)
       (adm_invalidations_chain_write s) (N.of_nat (size (adm_map (adm_inner c))))).

Definition set_adm_inner (i : Inner) (c : AdmissionCache) : AdmissionCache :=
  mk_AdmissionCache i (adm_ttl c) (adm_stats c).

(** The first critical section of [get_or_resolve]: a live hit, or the miss. *)
Definition adm_lookup (now : Z) (occ : string) (c : AdmissionCache) : option CallerAdmission * AdmissionCache :=
  match adm_map (adm_inner c) !! occ with
  | Some slot =>
      if slot_is_expired slot (adm_ttl c) now then
        (None, count 0 1 0 0 (adm_refresh_residency (count 0 0 1 0
                 (set_adm_inner (deregister occ (adm_inner c)) c))))
      else (Some (admission slot), count 1 0 0 0 c)
  | None => (None, count 0 1 0 0 c)
  end.

(** The second: replace any prior entry, and index the new one. *)
Definition register (now : Z) (occ : string) (a : CallerAdmission) (i : Inner) : Inner :=
  let i := deregister occ i in
  mk_Inner (<[occ := mk_AdmissionSlot a now]> (adm_map i))
    (<[identity_key_id a := default ∅ (by_identity i !! identity_key_id a) ∪ {[occ]}]> (by_identity i)).

Definition adm_fill (now : Z) (occ : string) (a : CallerAdmission) (c : AdmissionCache) : AdmissionCache :=
  adm_refresh_residency (set_adm_inner (register now occ a (adm_inner c)) c).

Definition get_or_resolve {E} (now : Z) (occ : string) (resolve : E + CallerAdmission) (c : AdmissionCache)
    : (E + CallerAdmission) * AdmissionCache :=
  match adm_lookup now occ c with
  | (Some a, c) => (inr a, c)
  | (None, c) =>
      match resolve with
      | inl e => (inl e, c)
      | inr a => (inr a, adm_fill now occ a c)
      end
  end.

Definition invalidate_occurrence (occ : string) (c : AdmissionCache) : bool * AdmissionCache :=
  if bool_decide (is_Some (adm_map (adm_inner c) !! occ)) then
    (true, adm_refresh_residency (count 0 0 0 1 (set_adm_inner (deregister occ (adm_inner c)) c)))
  else (false, c).

(** The occurrences the reverse index lists for the changed members. *)
Definition victims (members : list string) (i : Inner) : gset string :=
  fold_left (fun acc m => acc ∪ default ∅ (by_identity i !! m)) members ∅.

(** Deregister each listed occurrence that is resident, counting them. *)
Definition deregister_all (occs : list string) (i : Inner) : Inner * N :=
  fold_left (fun '(i, n) occ =>
    if bool_decide (is_Some (adm_map i !! occ)) then (deregister occ i, (n + 1)%N) else (i, n)) occs (i, 0%N).

Definition invalidate_members (members : list string) (c : AdmissionCache) : N * AdmissionCache :=
  let '(i, n) := deregister_all (elements (victims members (adm_inner c))) (adm_inner c) in
  let c := set_adm_inner i c in
  (n, if (0 <? n)%N then adm_refresh_residency (count 0 0 0 n c) else c).

Definition adm_expired (ttl now : Z) (i : Inner) : list string :=
  (List.filter (fun x => slot_is_expired (snd x) ttl now) (map_to_list (adm_map i))).*1.

Definition adm_sweep_expired (now : Z) (c : AdmissionCache) : N * AdmissionCache :=
  let occs := adm_expired (adm_ttl c) now (adm_inner c) in
  let c' := set_adm_inner (fold_left (fun i occ => deregister occ i) occs (adm_inner c)) c in
  let n := len occs in
  (n, if (0 <? n)%N then adm_refresh_residency (count 0 0 n 0 c') else c').

(** ** The reverse index *)

(** The index lists exactly the resident occurrences of each identity, and no identity
    without one. *)
Record index_ok (i : Inner) : Prop := {
  idx_exact : forall identity occ,
    (exists set, by_identity i !! identity = Some set /\ occ ∈ set) <->
    (exists slot, adm_map i !! occ = Some slot /\ identity_key_id (admission slot) = identity);
  idx_nonempty : forall identity set, by_identity i !! identity = Some set -> set <> ∅;
}.

Lemma index_new : index_ok (mk_Inner ∅ ∅).
Proof.
  split; simpl.
  - intros identity occ. split; [intros (? & H & _)|intros (? & H & _)]; by rewrite lookup_empty in H.
  - intros identity set H. by rewrite lookup_empty in H.
Qed.

Lemma deregister_map occ i : adm_map (deregister occ i) = delete occ (adm_map i).
Proof.
  unfold deregister. destruct (adm_map i !! occ) as [slot|] eqn:E; [done|]. by rewrite delete_id.
Qed.

Lemma deregister_by occ i :
  index_ok i -> forall identity o,
  (exists set, by_identity (deregister occ i) !! identity = Some set /\ o ∈ set) <->
  (exists set, by_identity i !! identity = Some set /\ o ∈ set) /\ o <> occ.
Proof.
  intros [Hex Hne] identity o. unfold deregister.
  destruct (adm_map i !! occ) as [slot|] eqn:E.
  - set (id0 := identity_key_id (admission slot)). cbn [by_identity].
    destruct (proj2 (Hex id0 occ)) as (set0 & Hset & Hin); [eauto|]. rewrite Hset.
    assert (Hother : forall set', by_identity i !! identity = Some set' -> occ ∈ set' -> identity = id0).
    { intros set' H1 H2. destruct (proj1 (Hex identity occ)) as (slot' & H3 & <-); [eauto|].
      unfold id0. congruence. }
    case_bool_decide as Hb.
    + destruct (decide (identity = id0)) as [->|Hd].
      * rewrite lookup_delete_eq. split; [by intros (? & ? & _)|].
        intros [(set' & H1 & H2) Hoc]. rewrite Hset in H1. injection H1 as <-. set_solver.
      * rewrite lookup_delete_ne by done. split; [|tauto].
        intros (set' & H1 & H2). split; [eauto|]. intros ->. by apply Hd, (Hother set').
    + destruct (decide (identity = id0)) as [->|Hd].
      * rewrite lookup_insert_eq, Hset. split.
        -- intros (set' & [= <-] & Hin'). apply elem_of_difference in Hin' as [? Hn]. split; [eauto|].
           intros ->. by apply Hn, elem_of_singleton.
        -- intros [(set' & [= <-] & Hin') Hoc]. eexists. split; [done|]. set_solver.
      * rewrite lookup_insert_ne by done. split; [|tauto].
        intros (set' & H1 & H2). split; [eauto|]. intros ->. by apply Hd, (Hother set').
  - split; [|tauto]. intros H. split; [done|]. intros ->.
    apply Hex in H as (slot & H & _). congruence.
Qed.

Lemma deregister_ok occ i : index_ok i -> index_ok (deregister occ i).
Proof.
  intros Hok. split.
  - intros identity o. rewrite deregister_by by done. rewrite (idx_exact i Hok), deregister_map.
    split.
    + intros [(slot & H & E) Hne]. exists slot. by rewrite lookup_delete_ne.
    + intros (slot & H & E). apply lookup_delete_Some in H as [Hne H]. split; [eauto|done].
  - intros identity set H. unfold deregister in H. destruct (adm_map i !! occ) as [slot|]; [|by eapply Hok].
    cbn [by_identity] in H. destruct (by_identity i !! identity_key_id (admission slot)) as [set0|] eqn:E;
      [|by eapply Hok]. case_bool_decide.
    + apply lookup_delete_Some in H as [_ H]. by eapply Hok.
    + apply lookup_insert_Some in H as [[_ <-]|[_ H]]; [done|]. by eapply Hok.
Qed.

Lemma register_ok now occ a i : index_ok i -> index_ok (register now occ a i).
Proof.
  intros Hok. pose proof (deregister_ok occ i Hok) as Hd. unfold register. set (j := deregister occ i) in *.
  assert (Hgone : adm_map j !! occ = None) by (unfold j; rewrite deregister_map; apply lookup_delete_eq).
  split; cbn [adm_map by_identity].
  - intros identity o. destruct (decide (identity = identity_key_id a)) as [->|Hi].
    + rewrite lookup_insert_eq. split.
      * intros (set & [= <-] & Hin). apply elem_of_union in Hin as [Hin|Hin].
        -- destruct (by_identity j !! identity_key_id a) as [set0|] eqn:E; [|by apply not_elem_of_empty in Hin].
           destruct (proj1 (idx_exact j Hd (identity_key_id a) o)) as (slot & H & Es); [eauto|].
           exists slot. rewrite lookup_insert_ne; [done|]. intros ->. congruence.
        -- apply elem_of_singleton in Hin as ->. exists (mk_AdmissionSlot a now). by rewrite lookup_insert_eq.
      * intros (slot & H & Es). eexists. split; [done|]. apply elem_of_union.
        apply lookup_insert_Some in H as [[<- <-]|[Hne H]]; [right; by apply elem_of_singleton|left].
        destruct (proj2 (idx_exact j Hd (identity_key_id a) o)) as (set & -> & Hin); [eauto|done].
    + rewrite lookup_insert_ne by done. rewrite (idx_exact j Hd). split.
      * intros (slot & H & Es). exists slot. rewrite lookup_insert_ne; [done|]. intros ->. congruence.
      * intros (slot & H & Es). apply lookup_insert_Some in H as [[<- <-]|[Hne H]]; [simpl in Es; congruence|eauto].
  - intros identity set H. apply lookup_insert_Some in H as [[_ <-]|[_ H]]; [set_solver|]. by eapply Hd.
Qed.

Lemma fold_deregister_ok occs : forall i, index_ok i -> index_ok (fold_left (fun i occ => deregister occ i) occs i).
Proof. induction occs as [|o occs IH]; intros i Hi; simpl; [done|]. by apply IH, deregister_ok. Qed.

Lemma fold_deregister_map occs : forall i o,
  adm_map (fold_left (fun i occ => deregister occ i) occs i) !! o =
  if bool_decide (o ∈ occs) then None else adm_map i !! o.
Proof.
  induction occs as [|x occs IH]; intros i o; simpl; [done|]. rewrite IH, deregister_map.
  destruct (decide (o ∈ occs)); [rewrite !bool_decide_eq_true_2; [done|by right|done]|].
  rewrite (bool_decide_eq_false_2 (o ∈ occs)) by done. destruct (decide (x = o)) as [->|Hne].
  - rewrite lookup_delete_eq, bool_decide_eq_true_2; [done|by left].
  - rewrite lookup_delete_ne, bool_decide_eq_false_2; [done|set_solver|done].
Qed.

Lemma deregister_all_fold occs : forall i n,
  fst (fold_left (fun '(i, n) occ =>
    if bool_decide (is_Some (adm_map i !! occ)) then (deregister occ i, (n + 1)%N) else (i, n)) occs (i, n))
  = fold_left (fun i occ => deregister occ i) occs i.
Proof.
  induction occs as [|o occs IH]; intros i n; simpl; [done|]. case_bool_decide as H; rewrite IH; [done|].
  f_equal. unfold deregister. destruct (adm_map i !! o); [|done]. exfalso. eauto.
Qed.

Lemma victims_spec i members occ :
  index_ok i -> occ ∈ victims members i <->
  exists slot, adm_map i !! occ = Some slot /\ In (identity_key_id (admission slot)) members.
Proof.
  intros Hok. unfold victims.
  assert (Hgen : forall acc, occ ∈ fold_left (fun acc m => acc ∪ default ∅ (by_identity i !! m)) members acc <->
    occ ∈ acc \/ exists m, In m members /\ exists set, by_identity i !! m = Some set /\ occ ∈ set).
  { induction members as [|m ms IH]; intros acc; simpl; [naive_solver|]. rewrite IH, elem_of_union.
    assert (Hm : occ ∈ default ∅ (by_identity i !! m) <-> exists set, by_identity i !! m = Some set /\ occ ∈ set).
    { destruct (by_identity i !! m) as [s|]; simpl; [naive_solver|]. split; [set_solver|naive_solver]. }
    rewrite Hm. naive_solver. }
  rewrite Hgen. setoid_rewrite (idx_exact i Hok). set_solver.
Qed.

Lemma deregister_all_count occs : forall i n,
  NoDup occs -> (forall o, In o occs -> is_Some (adm_map i !! o)) ->
  snd (fold_left (fun '(i, n) occ =>
    if bool_decide (is_Some (adm_map i !! occ)) then (deregister occ i, (n + 1)%N) else (i, n)) occs (i, n))
  = (n + len occs)%N.
Proof.
  induction occs as [|o occs IH]; intros i n Hnd Hres; simpl; [rewrite len_nil; lia|].
  rewrite bool_decide_eq_true_2 by (apply Hres; by left). apply NoDup_cons in Hnd as [Hni Hnd].
  rewrite IH, len_cons; [lia|done|]. intros o' Ho'. rewrite deregister_map, lookup_delete_ne.
  - apply Hres. by right.
  - intros ->. by apply Hni, list_elem_of_In.
Qed.

(** ** Operations and runs *)

Inductive AdmOp :=
| AdmLookup (now : Z) (occ : string)
| AdmFill (now : Z) (occ : string) (a : CallerAdmission)
| AdmInvalidateOccurrence (occ : string)
| AdmInvalidateMembers (members : list string)
| AdmSweep (now : Z).

Definition adm_apply (c : AdmissionCache) (o : AdmOp) : AdmissionCache :=
  match o with
  | AdmLookup now occ => snd (adm_lookup now occ c)
  | AdmFill now occ a => adm_fill now occ a c
  | AdmInvalidateOccurrence occ => snd (invalidate_occurrence occ c)
  | AdmInvalidateMembers ms => snd (invalidate_members ms c)
  | AdmSweep now => snd (adm_sweep_expired now c)
  end.

Definition adm_run (ttl : Z) (ops : list AdmOp) : AdmissionCache := fold_left adm_apply ops (with_ttl ttl).

Lemma invalidate_members_inner ms c :
  adm_inner (snd (invalidate_members ms c))
  = fold_left (fun i occ => deregister occ i) (elements (victims ms (adm_inner c))) (adm_inner c) /\
  adm_ttl (snd (invalidate_members ms c)) = adm_ttl c.
Proof.
  unfold invalidate_members, deregister_all.
  pose proof (deregister_all_fold (elements (victims ms (adm_inner c))) (adm_inner c) 0) as H.
  destruct (fold_left _ _ (adm_inner c, 0%N)) as [i n]. simpl in H. rewrite <- H.
  destruct (0 <? n)%N; by split.
Qed.

Lemma adm_apply_ok c o : index_ok (adm_inner c) -> index_ok (adm_inner (adm_apply c o)).
Proof.
  intros Hok. destruct o as [now occ|now occ a|occ|ms|now]; cbn [adm_apply].
  - unfold adm_lookup. destruct (adm_map (adm_inner c) !! occ) as [slot|]; [|done].
    destruct (slot_is_expired _ _ _); [|done]. by apply deregister_ok.
  - by apply register_ok.
  - unfold invalidate_occurrence. case_bool_decide; [|done]. by apply deregister_ok.
  - destruct (invalidate_members_inner ms c) as [-> _]. by apply fold_deregister_ok.
  - unfold adm_sweep_expired. destruct (0 <? len _)%N; by apply fold_deregister_ok.
Qed.

Lemma adm_run_ok ttl ops : index_ok (adm_inner (adm_run ttl ops)).
Proof.
  unfold adm_run. assert (H : index_ok (adm_inner (with_ttl ttl))) by apply index_new.
  revert H. generalize (with_ttl ttl). induction ops as [|o ops IH]; intros c Hc; simpl; [done|].
  by apply IH, adm_apply_ok.
Qed.

(** ** Properties *)

(** A roster write reaches every admission it changes: in any state the cache can be
    in, [invalidate_members] drops exactly the cached admissions whose resolved identity is
    a changed member, through the reverse index alone, and counts them; every other
    admission stays. *)
Theorem invalidate_members_exact (ttl : Z) (ops : list AdmOp) (members : list string) :
  let c := adm_run ttl ops in
  let '(n, c') := invalidate_members members c in
  (forall occ, adm_map (adm_inner c') !! occ =
     match adm_map (adm_inner c) !! occ with
     | Some slot => if bool_decide (identity_key_id (admission slot) ∈ members) then None else Some slot
     | None => None
     end) /\
  n = N.of_nat (size (victims members (adm_inner c))).
Proof.
  intros c. pose proof (adm_run_ok ttl ops) as Hok. fold c in Hok.
  destruct (invalidate_members_inner members c) as [Ei _].
  destruct (invalidate_members members c) as [n c'] eqn:Em. cbn [snd] in Ei. split.
  - intros occ. rewrite Ei, fold_deregister_map. case_bool_decide as Hv.
    + rewrite elem_of_elements in Hv. apply victims_spec in Hv as (slot & -> & Hin); [|done].
      rewrite bool_decide_eq_true_2; [done|by apply list_elem_of_In].
    + destruct (adm_map (adm_inner c) !! occ) as [slot|] eqn:E; [|done].
      rewrite bool_decide_eq_false_2; [done|]. intros Hin. apply Hv, elem_of_elements, victims_spec; [done|].
      exists slot. split; [done|by apply list_elem_of_In].
  - unfold invalidate_members, deregister_all in Em.
    pose proof (deregister_all_count (elements (victims members (adm_inner c))) (adm_inner c) 0) as Hc.
    destruct (fold_left _ _ (adm_inner c, 0%N)) as [i m]. injection Em as <- _. cbn [snd] in Hc. rewrite Hc.
    + unfold len. by rewrite N.add_0_l.
    + apply NoDup_elements.
    + intros o Ho. apply list_elem_of_In, elem_of_elements, victims_spec in Ho as (slot & -> & _); [eauto|done].
Qed.

(** No admission is served past its time to live, and a failed resolution serves
    nothing: what [get_or_resolve] returns is a resident admission younger than the
    [ttl], or what the resolution returned, its error included; and then nothing past the
    [ttl] remains under that key. *)
Theorem get_or_resolve_fresh {E} (now : Z) (occ : string) (resolve : E + CallerAdmission) (c : AdmissionCache) :
  let '(r, c') := get_or_resolve now occ resolve c in
  ((exists slot, adm_map (adm_inner c) !! occ = Some slot /\ r = inr (admission slot) /\
      (Z.max 0 (now - slot_inserted_at slot) < adm_ttl c)%Z) \/
   (r = resolve /\ forall slot, adm_map (adm_inner c) !! occ = Some slot ->
      slot_is_expired slot (adm_ttl c) now = true)) /\
  (forall e, r = inl e -> adm_map (adm_inner c') !! occ = None).
Proof.
  unfold get_or_resolve, adm_lookup. destruct (adm_map (adm_inner c) !! occ) as [slot|] eqn:Eo.
  - destruct (slot_is_expired slot (adm_ttl c) now) eqn:Ex.
    + destruct resolve as [e|a]; simpl; (split; [right; split; [done|]; intros slot' [= <-]; done|]).
      * intros _ _. rewrite deregister_map. apply lookup_delete_eq.
      * intros e [=].
    + split; [|intros e [=]]. left. exists slot. split_and!; [done..|]. unfold slot_is_expired in Ex. breflect. lia.
  - destruct resolve as [e|a]; simpl; (split; [right; split; [done|]; intros slot' [=]|]); [done|intros e [=]].
Qed.

Module AcSamples.
Definition adm (occ identity : string) : CallerAdmission := from_resolved occ identity [] [].
Definition ops : list AdmOp :=
  [AdmFill 0 "phone" (adm "phone" "alice"); AdmFill 1 "laptop" (adm "laptop" "alice");
   AdmFill 2 "tablet" (adm "tablet" "bob"); AdmFill 3 "laptop" (adm "laptop" "carol")].
End AcSamples.

(** A re-resolved occurrence leaves its old identity's list: alice's roster write drops the
    phone alone. *)
Example admission_run :
  let c := adm_run 100 AcSamples.ops in
  let '(n, c') := invalidate_members ["alice"; "dave"] c in
  (n, map (fun o => bool_decide (is_Some (adm_map (adm_inner c') !! o))) ["phone"; "laptop"; "tablet"])
  = (1%N, [false; true; true]).
Proof. vm_compute. reflexivity. Qed.
