(* ===== verification/AuditChain.v ===== *)
(** * The audit chain

    [src/src/audit/]: the entry ([types.rs]), its hash and signature checks ([verify.rs]),
    and the chain operations of the sqlite backend ([sqlite.rs]): [record_entry],
    [try_claim_event], [verify_chain], [next_chain_position].

    The table is the list of its rows in insertion order, with its constraints: [entry_id]
    is the primary key, [(tenant_id, sequence_number)] and a present [content_hash] are
    unique. [recorded_at] is stored as text of microsecond precision, so a row reads back
    truncated; the other columns read back as written. An operation's transaction is one
    function of the table. Canonical bytes, the
    hash and the signature check are parameters; an error's text is kept as its case. The
    projections that run after the commit (Merkle, trust grants) are one parameter: they
    can fail, and the chain row stays. *)

From Stdlib Require Import ZArith NArith Lia.
From stdpp Require Import base countable list strings gmap sorting.
From S2P Require Import Prelude RustStd Bytes Json.

Open Scope string_scope.
Open Scope list_scope.
Open Scope persist_scope.

Record AuditEntry := mk_AuditEntry {
  entry_id : string;
  sequence_number : Z;
  tenant_id : string;
  actor_id : string;
  action_type : string;
  subject_kind : string;
  subject_id : string;
  payload : Value;
  prev_hash : string;
  entry_hash : string;
  recorded_at : instant;
  signature : string;
}.

(** 32 zero bytes. *)
Definition GENESIS_PREV_HASH : string :=
  String.string_of_list_ascii (repeat Ascii.zero 32).

Inductive ChainRefusal :=
| EntryHashClaim
| GapAtTail (expected got : Z)
| PrevHashAtTail (seq : Z)
| FirstNotOne (got : Z).

Inductive AuditError :=
| InvalidArgument (what : string)
| ChainIntegrity (why : ChainRefusal)
| Signature (why : string)
| Conflict (what : string)
| NotFound (what : string)
| BackendError (what : string)
| PoolExhausted (waited : Z)
| NotImplemented (what : string)
| Internal (what : string)
| Merkle (what : string)
| TrustGrant (what : string).

(** [signature] and [entry_hash] emptied before hashing. *)
Definition for_hash (e : AuditEntry) : AuditEntry :=
  mk_AuditEntry (entry_id e) (sequence_number e) (tenant_id e) (actor_id e) (action_type e)
    (subject_kind e) (subject_id e) (payload e) (prev_hash e) "" (recorded_at e) "".

(** What the chain takes from elsewhere: the canonical bytes of an entry (the top-level
    [signature] stripped, everything else in them), SHA-256, and the Ed25519 check. *)
Class AuditCrypto := {
  canonical : AuditEntry -> option string;
  sha256 : string -> string;
  verify_ed25519 : string -> string -> string -> bool;
  sha256_length : forall s, String.length (sha256 s) = 32;
  canonical_binds : forall e e' c, canonical e = Some c -> canonical e' = Some c ->
    entry_id e = entry_id e' /\ sequence_number e = sequence_number e' /\
    tenant_id e = tenant_id e' /\ prev_hash e = prev_hash e' /\ entry_hash e = entry_hash e' /\
    recorded_at e = recorded_at e';
}.

(** Nanoseconds cut to microseconds. *)
Definition truncate_to_micros (dt : instant) : instant := (dt / 1000 * 1000)%Z.

(** What [INSERT] and [decode_entry_row] make of an entry: [fmt_datetime] keeps
    microseconds. *)
Definition stored (e : AuditEntry) : AuditEntry :=
  mk_AuditEntry (entry_id e) (sequence_number e) (tenant_id e) (actor_id e) (action_type e)
    (subject_kind e) (subject_id e) (payload e) (prev_hash e) (entry_hash e)
    (truncate_to_micros (recorded_at e)) (signature e).

(** ** Hashes and signatures *)

Section Chain.
Context `{AuditCrypto}.

Definition canonical_bytes_for_entry (e : AuditEntry) : AuditError + string :=
  match canonical e with Some c => inr c | None => inl (Internal "canonicalize") end.

Definition compute_entry_hash (e : AuditEntry) : AuditError + string :=
  match canonical_bytes_for_entry (for_hash e) with
  | inl err => inl err
  | inr c => inr (sha256 c)
  end.

Definition verify_entry_signature (e : AuditEntry) : option AuditError :=
  if signature e =s "" then Some (Signature "signature missing")
  else if actor_id e =s "" then Some (InvalidArgument "actor_id missing")
  else match canonical_bytes_for_entry e with
       | inl err => Some err
       | inr c => if verify_ed25519 c (signature e) (actor_id e) then None else Some (Signature "verify")
       end.

(** ** The table *)

Record AuditRow := mk_AuditRow { row_entry : AuditEntry; content_hash : option string }.

Definition of_tenant (t : string) (log : list AuditRow) : list AuditEntry :=
  List.filter (fun e => tenant_id e =s t) (map row_entry log).

(** [ORDER BY sequence_number DESC LIMIT 1]. *)
Definition tail_of (t : string) (log : list AuditRow) : option AuditEntry :=
  max_by (fun a b => (sequence_number a <? sequence_number b)%Z) (of_tenant t log).

(** The constraints an INSERT is checked against. *)
Definition key_taken (e : AuditEntry) (ch : option string) (log : list AuditRow) : bool :=
  existsb (fun r =>
    (entry_id (row_entry r) =s entry_id e)
    || ((tenant_id (row_entry r) =s tenant_id e)
        && (sequence_number (row_entry r) =? sequence_number e)%Z)
    || match content_hash r, ch with Some x, Some y => x =s y | _, _ => false end) log.

(** The input gates shared by [record_entry] and [try_claim_event]. *)
Definition input_gates (e : AuditEntry) : option AuditError :=
  if (sequence_number e <? 1)%Z then Some (InvalidArgument "sequence_number must be >= 1")
  else if tenant_id e =s "" then Some (InvalidArgument "tenant_id must be non-empty")
  else if negb (String.length (prev_hash e) =? 32)%nat then Some (InvalidArgument "prev_hash must be 32 bytes")
  else if negb (String.length (entry_hash e) =? 32)%nat then Some (InvalidArgument "entry_hash must be 32 bytes")
  else match compute_entry_hash e with
       | inl err => Some err
       | inr d => if d <>s entry_hash e then Some (ChainIntegrity EntryHashClaim)
                  else verify_entry_signature e
       end.

(** The chain gates inside the transaction. *)
Definition chain_gates (e : AuditEntry) (log : list AuditRow) : option AuditError :=
  match tail_of (tenant_id e) log with
  | Some p =>
      if negb (sequence_number e =? sequence_number p + 1)%Z then
        Some (ChainIntegrity (GapAtTail (sequence_number p + 1) (sequence_number e)))
      else if prev_hash e <>s entry_hash p then
        Some (ChainIntegrity (PrevHashAtTail (sequence_number e)))
      else None
  | None =>
      (* a first entry with a non-zero prev_hash is a bridge: logged, and accepted *)
      if negb (sequence_number e =? 1)%Z then Some (ChainIntegrity (FirstNotOne (sequence_number e))) else None
  end.

Context (project : AuditEntry -> option AuditError).

(** [record_entry]: its result, and the table after it. *)
Definition record_entry (e : AuditEntry) (log : list AuditRow) : option AuditError * list AuditRow :=
  match input_gates e with
  | Some err => (Some err, log)
  | None =>
      match chain_gates e log with
      | Some err => (Some err, log)
      | None =>
          if key_taken e None log then (Some (Conflict "unique"), log)
          else (project e, log ++ [mk_AuditRow (stored e) None])
      end
  end.

Record AuditEventRef := mk_AuditEventRef { ref_entry_id : string; ref_tenant_id : string; ref_sequence : Z }.

Definition ref_of (e : AuditEntry) : AuditEventRef :=
  mk_AuditEventRef (entry_id e) (tenant_id e) (sequence_number e).

Inductive ClaimResult := Stored (r : AuditEventRef) | AlreadyClaimed (r : AuditEventRef).

(** [SELECT .. WHERE content_hash = ?1]. *)
Definition claimed (ch : string) (log : list AuditRow) : option AuditEntry :=
  match List.find (fun r => bool_decide (content_hash r = Some ch)) log with
  | Some r => Some (row_entry r)
  | None => None
  end.

Definition try_claim_event (ch : string) (e : AuditEntry) (log : list AuditRow)
    : (AuditError + ClaimResult) * list AuditRow :=
  match input_gates e with
  | Some err => (inl err, log)
  | None =>
      match claimed ch log with
      | Some x => (inr (AlreadyClaimed (ref_of x)), log)
      | None =>
          match chain_gates e log with
          | Some err => (inl err, log)
          | None =>
              (* INSERT OR IGNORE, then the read-back *)
              let log' := if key_taken e (Some ch) log then log else log ++ [mk_AuditRow (stored e) (Some ch)] in
              match claimed ch log' with
              | None => (inl (Conflict "(tenant_id, sequence_number)"), log)
              | Some x =>
                  if entry_id x =s entry_id e then
                    match project e with
                    | Some err => (inl err, log')
                    | None => (inr (Stored (ref_of x)), log')
                    end
                  else (inr (AlreadyClaimed (ref_of x)), log')
              end
          end
      end
  end.

Definition next_chain_position (t : string) (log : list AuditRow) : AuditError + (Z * string) :=
  if t =s "" then inl (InvalidArgument "tenant_id must be non-empty")
  else match tail_of t log with
       | Some p =>
           if (String.length (entry_hash p) =? 32)%nat then inr ((sequence_number p + 1)%Z, entry_hash p)
           else inl (BackendError "entry_hash column expected 32 bytes")
       | None => inr (1%Z, GENESIS_PREV_HASH)
       end.

(** ** Verification *)

Inductive ChainBreakReason :=
| EntryHashMismatch | PrevHashMismatch | SequenceGap | SignatureFailure | GenesisPrevHashNotZero.

Inductive ChainVerifyOutcome := Ok | Break (at_sequence : Z) (reason : ChainBreakReason).

Record ChainVerification := mk_ChainVerification {
  cv_tenant_id : string;
  cv_from : Z;
  cv_to : Z;
  entries_walked : nat;
  outcome : ChainVerifyOutcome;
}.

(** The walk over the rows of the range, in order; [prior] is the row before. *)
Fixpoint walk (prior : option AuditEntry) (walked : nat) (rows : list AuditEntry)
    : AuditError + (nat * ChainVerifyOutcome) :=
  match rows with
  | [] => inr (walked, Ok)
  | e :: rows' =>
      let walked := S walked in
      let broke := fun at_ reason => inr (walked, Break at_ reason) in
      let link := match prior with
                  | None =>
                      if (sequence_number e =? 1)%Z && (prev_hash e <>s GENESIS_PREV_HASH)
                      then Some (1%Z, GenesisPrevHashNotZero) else None
                  | Some p =>
                      if negb (sequence_number e =? sequence_number p + 1)%Z
                      then Some (sequence_number e, SequenceGap)
                      else if prev_hash e <>s entry_hash p then Some (sequence_number e, PrevHashMismatch)
                      else None
                  end in
      match link with
      | Some (at_, reason) => broke at_ reason
      | None =>
          match compute_entry_hash e with
          | inl err => inl err
          | inr d =>
              if d <>s entry_hash e then broke (sequence_number e) EntryHashMismatch
              else match verify_entry_signature e with
                   | Some _ => broke (sequence_number e) SignatureFailure
                   | None => walk (Some e) walked rows'
                   end
          end
      end
  end.

Definition in_range (from to : Z) (e : AuditEntry) : bool :=
  (from <=? sequence_number e)%Z && (sequence_number e <=? to)%Z.

(** The rows of the range, [ORDER BY sequence_number ASC]. *)
Definition range_rows (t : string) (from to : Z) (log : list AuditRow) : list AuditEntry :=
  sort_by (fun a b => (sequence_number a <? sequence_number b)%Z)
    (List.filter (in_range from to) (of_tenant t log)).

Definition verify_chain (t : string) (from : Z) (to : option Z) (log : list AuditRow)
    : AuditError + ChainVerification :=
  if t =s "" then inl (InvalidArgument "tenant_id must be non-empty")
  else if (from <? 1)%Z then inl (InvalidArgument "from_sequence must be >= 1")
  else
    let resolved := match to with
                    | Some n => if (n <? from)%Z then inl (InvalidArgument "to_sequence < from_sequence") else inr n
                    | None => inr (match tail_of t log with Some p => sequence_number p | None => 0%Z end)
                    end in
    match resolved with
    | inl err => inl err
    | inr to =>
        if (to <? from)%Z then inr (mk_ChainVerification t from to 0 Ok)
        else match walk None 0 (range_rows t from to log) with
             | inl err => inl err
             | inr (n, out) => inr (mk_ChainVerification t from to n out)
             end
    end.
End Chain.

(** ** Chains *)

Section ChainLemmas.
Context `{AuditCrypto}.

(** The entry's own checks: its hash is the hash of its bytes, and its signature holds. *)
Definition entry_ok (e : AuditEntry) : Prop :=
  compute_entry_hash e = inr (entry_hash e) /\ verify_entry_signature e = None.

(** A chain as the write path builds it: from 1 on, without a gap, each entry naming the
    hash of the one before it, every entry satisfying [ok]. The first entry's [prev_hash]
    is free (a bridge). *)
Fixpoint chain (ok : AuditEntry -> Prop) (prior : option AuditEntry) (l : list AuditEntry) : Prop :=
  match l with
  | [] => True
  | e :: l' =>
      match prior with
      | None => sequence_number e = 1%Z
      | Some p => sequence_number e = (sequence_number p + 1)%Z /\ prev_hash e = entry_hash p
      end /\ ok e /\ chain ok (Some e) l'
  end.

(** A run of rows as the walk accepts it: it may start anywhere. *)
Fixpoint segment (prior : option AuditEntry) (l : list AuditEntry) : Prop :=
  match l with
  | [] => True
  | e :: l' =>
      match prior with
      | None => sequence_number e = 1%Z -> prev_hash e = GENESIS_PREV_HASH
      | Some p => sequence_number e = (sequence_number p + 1)%Z /\ prev_hash e = entry_hash p
      end /\ entry_ok e /\ segment (Some e) l'
  end.

(** The walk ends in [Ok] exactly on a segment, having walked all of it. *)
Lemma walk_ok l : forall prior n m, walk prior n l = inr (m, Ok) <-> segment prior l /\ m = n + length l.
Proof.
  induction l as [|e l IH]; intros prior n m; cbn [walk segment length].
  { split; [intros [= <-]; split; [done|lia]|intros [_ ->]; by rewrite Nat.add_0_r]. }
  unfold entry_ok.
  destruct prior as [p|].
  - destruct (Z.eqb_spec (sequence_number e) (sequence_number p + 1)); simpl; [|naive_solver].
    destruct (String.eqb_spec (prev_hash e) (entry_hash p)); simpl; [|naive_solver].
    destruct (compute_entry_hash e) as [err|d]; [naive_solver|].
    destruct (String.eqb_spec d (entry_hash e)) as [->|]; simpl; [|naive_solver].
    destruct (verify_entry_signature e); [naive_solver|]. rewrite IH.
    split; [intros [? ->]|intros [(_ & _ & ?) ->]]; (split; [tauto|lia]).
  - destruct (Z.eqb_spec (sequence_number e) 1) as [E1|E1]; simpl.
    + destruct (String.eqb_spec (prev_hash e) GENESIS_PREV_HASH) as [Eg|Eg]; simpl; [|naive_solver].
      destruct (compute_entry_hash e) as [err|d]; [naive_solver|].
      destruct (String.eqb_spec d (entry_hash e)) as [->|]; simpl; [|naive_solver].
      destruct (verify_entry_signature e); [naive_solver|]. rewrite IH.
      split; [intros [? ->]|intros [(_ & _ & ?) ->]]; (split; [tauto|lia]).
    + destruct (compute_entry_hash e) as [err|d]; [naive_solver|].
      destruct (String.eqb_spec d (entry_hash e)) as [->|]; simpl; [|naive_solver].
      destruct (verify_entry_signature e); [naive_solver|]. rewrite IH.
      split; [intros [? ->]|intros [(_ & _ & ?) ->]]; (split; [tauto|lia]).
Qed.

Definition later (a b : AuditEntry) : Prop := (sequence_number a < sequence_number b)%Z.

Section Links.
Context {ok : AuditEntry -> Prop}.

Lemma chain_sorted l : forall p, chain ok (Some p) l ->
  StronglySorted later l /\ Forall (later p) l.
Proof.
  induction l as [|e l IH]; intros p Hc; [split; constructor|].
  destruct Hc as ([Hs _] & _ & Hc). destruct (IH e Hc) as [Hl He].
  assert (Hpe : later p e) by (unfold later; lia). split; constructor; auto.
  eapply Forall_impl; [exact He|]. unfold later. intros x Hx. unfold later in Hpe. lia.
Qed.

Lemma chain_none_sorted l : chain ok None l -> StronglySorted later l.
Proof.
  destruct l as [|e l]; [constructor|]. intros (_ & _ & Hc). apply chain_sorted in Hc as [? ?].
  by constructor.
Qed.

(** The greatest sequence number of a sorted list is its last. *)
Lemma max_is_last l :
  StronglySorted later l -> max_by (fun a b => (sequence_number a <? sequence_number b)%Z) l = last l.
Proof.
  intros Hs. destruct (max_by _ l) as [w|] eqn:E.
  - apply max_by_spec in E as [Hin Hmax]; [|intros; breflect; lia..].
    destruct (last l) as [z|] eqn:El; [|apply last_None in El; by subst].
    apply last_Some in El as [l' ->]. f_equal. apply in_app_iff in Hin as [Hin|[<-|[]]]; [|done].
    specialize (Hmax z). rewrite in_app_iff in Hmax. specialize (Hmax (or_intror (or_introl eq_refl))).
    pose proof (StronglySorted_app_1_elem_of later _ _ w z Hs) as Hlt.
    rewrite !list_elem_of_In in Hlt. specialize (Hlt Hin (or_introl eq_refl)).
    unfold later in Hlt. breflect. lia.
  - apply max_by_none in E as ->. done.
Qed.

(** A chain extended by one entry. *)
Lemma chain_snoc l e : forall prior,
  chain ok prior (l ++ [e]) <->
  chain ok prior l /\ ok e /\
  match (match last l with Some z => Some z | None => prior end) with
  | None => sequence_number e = 1%Z
  | Some p => sequence_number e = (sequence_number p + 1)%Z /\ prev_hash e = entry_hash p
  end.
Proof.
  induction l as [|x l IH]; intros prior; cbn [chain app]; [simpl; tauto|].
  rewrite IH. rewrite last_cons. destruct (last l); tauto.
Qed.

(** Positions in a chain are sequence numbers. *)
Lemma chain_last_seq l e : chain ok None (l ++ [e]) -> sequence_number e = Z.of_nat (S (length l)).
Proof.
  revert e. induction l as [|x l IH] using rev_ind; intros e Hc.
  - by destruct Hc as (? & _).
  - apply chain_snoc in Hc as (Hc & _ & Hl). rewrite last_snoc in Hl. destruct Hl as [Hl _].
    apply IH in Hc. rewrite length_app. simpl. lia.
Qed.

(** A chain of entries that each satisfy more. *)
Lemma chain_weaken (ok' : AuditEntry -> Prop) l : forall prior,
  (forall e, In e l -> ok e -> ok' e) -> chain ok prior l -> chain ok' prior l.
Proof.
  induction l as [|e l IH]; intros prior Hi Hc; [done|]. destruct Hc as (Hl & He & Hc).
  split_and!; [done|apply Hi; [by left|done]|]. apply IH; [|done]. intros x Hx. apply Hi. by right.
Qed.

Lemma chain_elem_ok l : forall prior, chain ok prior l -> forall e, In e l -> ok e.
Proof.
  induction l as [|x l IH]; intros prior Hc e He; [done|]. destruct Hc as (_ & Hx & Hc).
  destruct He as [<-|He]; [done|]. by apply (IH (Some x)).
Qed.

(** ** Ranges of a chain *)

Lemma filter_none_above from to l :
  Forall (fun e => (to < sequence_number e)%Z) l -> List.filter (in_range from to) l = [].
Proof.
  induction 1 as [|e l He _ IH]; simpl; [done|]. unfold in_range at 1.
  destruct (Z.leb_spec (sequence_number e) to); [lia|]. by rewrite andb_false_r.
Qed.

Lemma range_after from to l : forall p, chain ok (Some p) l -> (from <= sequence_number p)%Z ->
  Forall entry_ok (List.filter (in_range from to) l) ->
  segment (Some p) (List.filter (in_range from to) l).
Proof.
  induction l as [|e l IH]; intros p Hc Hp; simpl; [done|].
  pose proof Hc as ([Hs Hprev] & _ & Hc').
  assert (Er : in_range from to e = (sequence_number e <=? to)%Z).
  { unfold in_range. by destruct (Z.leb_spec from (sequence_number e)); [|lia]. }
  rewrite Er. destruct (Z.leb_spec (sequence_number e) to).
  - intros Hok. apply Forall_cons in Hok as [He Hok]. cbn [segment].
    split_and!; [done..|]. apply IH; [done|lia|done].
  - rewrite filter_none_above; [done|]. apply chain_sorted in Hc' as [_ Hl].
    eapply Forall_impl; [exact Hl|]. unfold later. intros. lia.
Qed.

Lemma range_segment from to l : forall prior, chain ok prior l ->
  Forall entry_ok (List.filter (in_range from to) l) ->
  (forall e, In e l -> sequence_number e = 1%Z -> in_range from to e = true -> prev_hash e = GENESIS_PREV_HASH) ->
  segment None (List.filter (in_range from to) l).
Proof.
  induction l as [|e l IH]; intros prior Hc Hok Hg; simpl; [done|].
  pose proof Hc as (_ & _ & Hc'). simpl in Hok. destruct (in_range from to e) eqn:Er.
  - apply Forall_cons in Hok as [He Hok]. cbn [segment]. split_and!; [intros; apply Hg; [by left|done..]|done|].
    unfold in_range in Er. breflect. apply range_after; [done|tauto|done].
  - apply (IH (Some e) Hc'); [done|]. intros e' Hin. apply Hg. by right.
Qed.

(** A filtered chain stays sorted, so the statement's ORDER BY changes nothing. *)
Lemma range_rows_filter t from to log :
  StronglySorted later (of_tenant t log) ->
  range_rows t from to log = List.filter (in_range from to) (of_tenant t log).
Proof.
  intros Hc. unfold range_rows.
  set (l := of_tenant t log) in *.
  assert (Hf : StronglySorted later (List.filter (in_range from to) l)).
  { clear -Hc. induction Hc as [|x l Hs IH Hall]; simpl; [constructor|].
    destruct (in_range from to x); [|done]. constructor; [done|].
    rewrite Forall_forall in Hall |- *. intros y Hy. apply Hall, list_elem_of_In.
    apply list_elem_of_In, filter_In in Hy. tauto. }
  generalize dependent (List.filter (in_range from to) l). clear Hc. intros m Hf.
  apply (StronglySorted_unique_strong (fun a b => (sequence_number b <? sequence_number a)%Z = false)).
  - intros a b Ha Hb Hab Hba. rewrite list_elem_of_In, sort_by_In in Ha. apply list_elem_of_In in Hb.
    breflect. assert (Heq : sequence_number a = sequence_number b) by lia.
    clear -Hf Ha Hb Heq. induction Hf as [|x l0 Hs IH Hall]; [done|].
    rewrite Forall_forall in Hall. unfold later in Hall.
    destruct Ha as [->|Ha], Hb as [->|Hb]; auto; exfalso.
    + apply list_elem_of_In, Hall in Hb. lia.
    + apply list_elem_of_In, Hall in Ha. lia.
  - apply sort_by_sorted; intros; breflect; lia.
  - clear -Hf. induction Hf as [|x l0 Hs IH Hall]; constructor; [done|].
    eapply Forall_impl; [exact Hall|]. unfold later. intros y Hy. apply Z.ltb_ge. lia.
  - apply sort_by_perm.
Qed.
End Links.
End ChainLemmas.

(** ** The write path keeps the chains *)

Inductive AuditOp := Record_ (e : AuditEntry) | Claim (ch : string) (e : AuditEntry).

Section WritePath.
Context `{AuditCrypto} (project : AuditEntry -> option AuditError).

Definition audit_apply (log : list AuditRow) (o : AuditOp) : list AuditRow :=
  match o with
  | Record_ e => snd (record_entry project e log)
  | Claim ch e => snd (try_claim_event project ch e log)
  end.

Definition audit_run (ops : list AuditOp) : list AuditRow := fold_left audit_apply ops [].

Definition op_entry (o : AuditOp) : AuditEntry := match o with Record_ e => e | Claim _ e => e end.

(** A row as the write path leaves it: an entry of the callers' (they keep [P]) that passed
    its own checks, stored. *)
Definition written (P : AuditEntry -> Prop) (x : AuditEntry) : Prop :=
  exists e, P e /\ entry_ok e /\ x = stored e.

Context (P : AuditEntry -> Prop).

Record log_ok (log : list AuditRow) : Prop := {
  lo_chain : forall t, chain (written P) None (of_tenant t log);
  lo_claims : NoDup (omap content_hash log);
}.

Lemma of_tenant_snoc t log e ch :
  of_tenant t (log ++ [mk_AuditRow e ch]) = of_tenant t log ++ (if tenant_id e =s t then [e] else []).
Proof. unfold of_tenant. by rewrite map_app, List.filter_app. Qed.

Lemma input_gates_ok e :
  input_gates e = None ->
  entry_ok e /\ (1 <= sequence_number e)%Z /\ tenant_id e <> "" /\ String.length (prev_hash e) = 32.
Proof.
  unfold input_gates, entry_ok.
  destruct (Z.ltb_spec (sequence_number e) 1); [done|].
  destruct (String.eqb_spec (tenant_id e) ""); [done|].
  destruct (Nat.eqb_spec (String.length (prev_hash e)) 32); [|done]. simpl.
  destruct (Nat.eqb_spec (String.length (entry_hash e)) 32); [|done]. simpl.
  destruct (compute_entry_hash e) as [err|d]; [done|].
  destruct (String.eqb_spec d (entry_hash e)) as [->|]; simpl; [|done]. auto.
Qed.

Lemma tail_is_last {ok : AuditEntry -> Prop} t log : chain ok None (of_tenant t log) -> tail_of t log = last (of_tenant t log).
Proof. intros Hc. unfold tail_of. by apply max_is_last, (chain_none_sorted (ok := ok)). Qed.

Lemma entry_hash_32 e : entry_ok e -> String.length (entry_hash e) = 32.
Proof.
  unfold entry_ok, compute_entry_hash. destruct (canonical_bytes_for_entry _) as [err|c]; [by intros [? _]|].
  intros [[= <-] _]. apply sha256_length.
Qed.

Lemma append_ok e ch log :
  log_ok log -> P e -> input_gates e = None -> chain_gates e log = None ->
  (forall x, ch = Some x -> claimed x log = None) -> log_ok (log ++ [mk_AuditRow (stored e) ch]).
Proof.
  intros [Hc Hn] HP Hi Hg Hclaim. apply input_gates_ok in Hi as (Hok & _). split.
  - intros t. rewrite of_tenant_snoc. cbn [stored tenant_id].
    destruct (String.eqb_spec (tenant_id e) t) as [<-|]; [|by rewrite app_nil_r].
    apply chain_snoc. split_and!; [done|by exists e|]. cbn [stored sequence_number prev_hash].
    unfold chain_gates in Hg.
    rewrite (tail_is_last _ _ (Hc (tenant_id e))) in Hg.
    destruct (last (of_tenant (tenant_id e) log)) as [p|].
    + destruct (Z.eqb_spec (sequence_number e) (sequence_number p + 1)); [|done].
      destruct (String.eqb_spec (prev_hash e) (entry_hash p)); done.
    + destruct (Z.eqb_spec (sequence_number e) 1); done.
  - rewrite omap_app. apply NoDup_app. split_and!; [done| |destruct ch; simpl; repeat constructor; set_solver].
    intros x Hx Hin. destruct ch as [y|]; simpl in Hin; [|by apply not_elem_of_nil in Hin].
    apply list_elem_of_singleton in Hin as ->. specialize (Hclaim y eq_refl).
    apply list_elem_of_omap in Hx as (r & Hr & Ey). unfold claimed in Hclaim.
    destruct (List.find _ log) eqn:Ef; [done|].
    apply list_elem_of_In in Hr. apply (List.find_none _ _ Ef r) in Hr.
    by rewrite bool_decide_eq_true_2 in Hr.
Qed.

Lemma record_ok e log : P e -> log_ok log -> log_ok (snd (record_entry project e log)).
Proof.
  intros HP Hok. unfold record_entry. destruct (input_gates e) eqn:Hi; [done|].
  destruct (chain_gates e log) eqn:Hg; [done|]. destruct (key_taken e None log); [done|].
  by apply append_ok.
Qed.

Lemma claim_ok ch e log : P e -> log_ok log -> log_ok (snd (try_claim_event project ch e log)).
Proof.
  intros HP Hok. unfold try_claim_event. destruct (input_gates e) eqn:Hi; [done|].
  destruct (claimed ch log) eqn:Hc; [done|]. destruct (chain_gates e log) eqn:Hg; [done|].
  assert (Hnew : log_ok (if key_taken e (Some ch) log then log else log ++ [mk_AuditRow (stored e) (Some ch)])).
  { destruct (key_taken e (Some ch) log); [done|]. apply append_ok; try done. by intros x [= <-]. }
  cbn zeta. revert Hnew. generalize (if key_taken e (Some ch) log then log else log ++ [mk_AuditRow (stored e) (Some ch)]).
  intros log' Hnew. destruct (claimed ch log') as [x|]; [|done].
  destruct (entry_id x =s entry_id e); [|done]. by destruct (project e).
Qed.

Lemma audit_run_ok ops : Forall (fun o => P (op_entry o)) ops -> log_ok (audit_run ops).
Proof.
  unfold audit_run. assert (Hnil : log_ok []) by (split; [done|constructor]).
  revert Hnil. generalize ([] : list AuditRow).
  induction ops as [|o ops IH]; intros log Hlog HP; simpl; [done|].
  apply Forall_cons in HP as [Ho HP]. apply IH; [|done].
  destruct o; [by apply record_ok|by apply claim_ok].
Qed.

(** The claimed row of a table whose claims are distinct. *)
Lemma claimed_snoc ch e log :
  claimed ch log = None -> claimed ch (log ++ [mk_AuditRow e (Some ch)]) = Some e.
Proof.
  unfold claimed. induction log as [|r log IH]; simpl; [by rewrite bool_decide_eq_true_2|].
  case_bool_decide; [done|]. apply IH.
Qed.

(** ** Walks on written chains *)

Lemma verify_range {ok : AuditEntry -> Prop} t from to log :
  chain ok None (of_tenant t log) -> t <> "" -> (1 <= from <= to)%Z ->
  verify_chain t from (Some to) log =
  match walk None 0 (List.filter (in_range from to) (of_tenant t log)) with
  | inl err => inl err
  | inr (n, out) => inr (mk_ChainVerification t from to n out)
  end.
Proof.
  intros Hc Ht Hft. unfold verify_chain. rewrite (proj2 (String.eqb_neq t "") Ht).
  destruct (Z.ltb_spec from 1); [lia|]. destruct (Z.ltb_spec to from); [lia|].
  destruct (Z.ltb_spec to from); [lia|]. by rewrite range_rows_filter by (eapply chain_none_sorted; exact Hc).
Qed.
End WritePath.

(** ** Agreement of chains with the same head *)

Section Agreement.
Context `{AuditCrypto}.

(** The bytes the chain's hash is over. *)
Definition same_bytes (e e' : AuditEntry) : Prop :=
  exists c, canonical (for_hash e) = Some c /\ canonical (for_hash e') = Some c.

(** A collision found on two given entries: the bytes hashed for them differ and have the
    same hash. *)
Definition collide (e e' : AuditEntry) : Prop :=
  exists c c', canonical (for_hash e) = Some c /\ canonical (for_hash e') = Some c' /\
    c <> c' /\ sha256 c = sha256 c'.

(** Two entries at the same place of two chains collide. *)
Definition collide_in (l l' : list AuditEntry) : Prop :=
  exists (i : nat) (e e' : AuditEntry), l !! i = Some e /\ l' !! i = Some e' /\ collide e e'.

Lemma collide_in_app_l l l' k k' : collide_in l l' -> collide_in (l ++ k) (l' ++ k').
Proof.
  intros (i & e & e' & He & He' & Hc). exists i, e, e'.
  rewrite !lookup_app_l by (eapply lookup_lt_Some; eassumption). done.
Qed.

Lemma collide_in_snoc l l' e e' : length l = length l' -> collide e e' -> collide_in (l ++ [e]) (l' ++ [e']).
Proof.
  intros Hlen Hc. exists (length l), e, e'. rewrite lookup_app_r by lia. rewrite Nat.sub_diag.
  split_and!; [done| |done]. rewrite lookup_app_r by lia. by rewrite Hlen, Nat.sub_diag.
Qed.

Lemma same_hash e e' :
  entry_ok e -> entry_ok e' -> entry_hash e = entry_hash e' -> same_bytes e e' \/ collide e e'.
Proof.
  unfold entry_ok, compute_entry_hash, canonical_bytes_for_entry, same_bytes, collide.
  destruct (canonical (for_hash e)) as [c|]; [|by intros [? _]].
  destruct (canonical (for_hash e')) as [c'|]; [|by intros _ [? _]].
  intros [[= E] _] [[= E'] _] Eq. destruct (decide (c = c')) as [->|Hne]; [left; eauto|].
  right. exists c, c'. split_and!; [done..|congruence].
Qed.

Lemma chains_agree l : forall l' e e',
  chain entry_ok None (l ++ [e]) -> chain entry_ok None (l' ++ [e']) -> length l = length l' ->
  entry_hash e = entry_hash e' ->
  Forall2 same_bytes (l ++ [e]) (l' ++ [e']) \/ collide_in (l ++ [e]) (l' ++ [e']).
Proof.
  induction l as [|x l IH] using rev_ind; intros l' e e' Hc Hc' Hlen Eq.
  all: apply chain_snoc in Hc as (Hc & Hok & Hl), Hc' as (Hc' & Hok' & Hl').
  all: destruct (same_hash e e' Hok Hok' Eq) as [Hsame|Hx]; [|right; by apply collide_in_snoc].
  all: destruct Hsame as (c & Hb & Hb'); destruct (canonical_binds _ _ _ Hb Hb') as (_ & _ & _ & Hprev & _ & _).
  all: cbn [for_hash prev_hash] in Hprev.
  - destruct l'; [|done]. left. constructor; [by exists c|constructor].
  - destruct l' as [|x' l' _] using rev_ind; [rewrite length_app in Hlen; simpl in Hlen; lia|].
    rewrite !length_app in Hlen. simpl in Hlen.
    rewrite last_snoc in Hl, Hl'. destruct Hl as [_ Hl], Hl' as [_ Hl'].
    destruct (IH l' x x' Hc Hc') as [Hall|Hx]; [lia|congruence| |right; by apply collide_in_app_l].
    left. apply Forall2_app; [done|]. constructor; [by exists c|constructor].
Qed.
End Agreement.

(** ** Entries whose time is whole microseconds *)

Section Rounded.
Context `{AuditCrypto} (project : AuditEntry -> option AuditError).

Definition rounded (e : AuditEntry) : Prop := truncate_to_micros (recorded_at e) = recorded_at e.

Lemma stored_rounded e : rounded e -> stored e = e.
Proof. unfold rounded, stored. intros ->. by destruct e. Qed.

Lemma run_entry_ok ops t :
  Forall (fun o => rounded (op_entry o)) ops -> chain entry_ok None (of_tenant t (audit_run project ops)).
Proof.
  intros Hr. eapply chain_weaken; [|apply (audit_run_ok project rounded ops Hr)].
  intros x _ (e & HP & He & ->). by rewrite stored_rounded.
Qed.

End Rounded.

Section Walks.
Context `{AuditCrypto}.

(** An entry whose time is not whole microseconds no longer hashes to its hash once
    stored. *)
Lemma stored_unrounded e :
  entry_ok e -> ~ rounded e -> compute_entry_hash (stored e) <> inr (entry_hash e) \/ collide (stored e) e.
Proof.
  unfold entry_ok, compute_entry_hash, canonical_bytes_for_entry, collide.
  destruct (canonical (for_hash e)) as [c|] eqn:Ec; [|by intros [? _]]. intros [[= Eh] _] Hr.
  destruct (canonical (for_hash (stored e))) as [c'|] eqn:Ec'; [|by left].
  destruct (decide (sha256 c' = entry_hash e)) as [E|]; [|left; congruence].
  destruct (decide (c' = c)) as [->|Hne]; [|right; exists c', c; split_and!; [done..|congruence]].
  exfalso. apply Hr. by destruct (canonical_binds _ _ _ Ec' Ec) as (_ & _ & _ & _ & _ & Hrec).
Qed.

(** The rows of a chain numbered above [k] are the chain without its first [k]. *)
Lemma above_is_drop {ok : AuditEntry -> Prop} k l : chain ok None l ->
  List.filter (fun e => (Z.of_nat k <? sequence_number e)%Z) l = drop k l.
Proof.
  intros Hc. assert (Hgen : forall l prior m, chain ok prior l ->
    (match prior with None => m = 0%Z | Some p => sequence_number p = m end) ->
    List.filter (fun e => (Z.of_nat k <? sequence_number e)%Z) l = drop (Z.to_nat (Z.of_nat k - m)) l).
  { clear. induction l as [|x l IH]; intros prior m Hl Hm; [by rewrite drop_nil|].
    destruct Hl as (Hx & _ & Hl). cbn [List.filter].
    assert (Hseq : sequence_number x = (m + 1)%Z) by (destruct prior; [destruct Hx; lia|lia]).
    rewrite (IH (Some x) (sequence_number x) Hl eq_refl), Hseq.
    destruct (Z.ltb_spec (Z.of_nat k) (m + 1)).
    - replace (Z.to_nat (Z.of_nat k - m)) with 0 by lia.
      replace (Z.to_nat (Z.of_nat k - (m + 1))) with 0 by lia. by rewrite !drop_0.
    - replace (Z.to_nat (Z.of_nat k - m)) with (S (Z.to_nat (Z.of_nat k - (m + 1)))) by lia. done. }
  rewrite (Hgen l None 0%Z Hc eq_refl). f_equal. lia.
Qed.

(** Deleting a tenant's rows numbered up to [k]. *)
Definition cut (t : string) (k : nat) (log : list AuditRow) : list AuditRow :=
  List.filter (fun r => negb ((tenant_id (row_entry r) =s t)
                              && (sequence_number (row_entry r) <=? Z.of_nat k)%Z)) log.

Lemma cut_of_tenant t k log :
  of_tenant t (cut t k log) =
  List.filter (fun e => (Z.of_nat k <? sequence_number e)%Z) (of_tenant t log).
Proof.
  unfold of_tenant, cut. induction log as [|r log IH]; [done|]. cbn [List.filter map].
  destruct (String.eqb_spec (tenant_id (row_entry r)) t) as [E|E]; simpl.
  - rewrite Z.ltb_antisym.
    destruct (Z.leb_spec (sequence_number (row_entry r)) (Z.of_nat k)); simpl; [done|].
    by rewrite (proj2 (String.eqb_eq _ _) E), IH.
  - by rewrite (proj2 (String.eqb_neq _ _) E).
Qed.

Lemma chain_bounds {ok : AuditEntry -> Prop} l : chain ok None l ->
  forall e, In e l -> (1 <= sequence_number e <= Z.of_nat (length l))%Z.
Proof.
  intros Hc. assert (Hgen : forall l prior m, chain ok prior l ->
    (match prior with None => m = 0%Z | Some p => sequence_number p = m end) ->
    forall e, In e l -> (m + 1 <= sequence_number e <= m + Z.of_nat (length l))%Z).
  { clear. induction l as [|x l IH]; intros prior m Hl Hm e Hin; [done|].
    destruct Hl as (Hx & _ & Hl).
    assert (Hseq : sequence_number x = (m + 1)%Z) by (destruct prior; [destruct Hx; lia|lia]).
    cbn [length]. destruct Hin as [->|Hin]; [lia|].
    specialize (IH (Some x) (sequence_number x) Hl eq_refl e Hin). lia. }
  intros e He. specialize (Hgen l None 0%Z Hc eq_refl e He). lia.
Qed.

Lemma range_rows_In t from to log x :
  In x (range_rows t from to log) -> in_range from to x = true.
Proof. unfold range_rows. rewrite sort_by_In, filter_In. tauto. Qed.

(** A segment of as many rows as its numbers allow is a chain from 1. *)
Lemma full_segment_chain l :
  segment None l -> (forall x, In x l -> (1 <= sequence_number x <= Z.of_nat (length l))%Z) ->
  chain entry_ok None l.
Proof.
  destruct l as [|a l]; [done|]. intros (_ & Ha & Hs) Hb.
  assert (Hlast : forall l p, segment (Some p) l ->
    chain entry_ok (Some p) l /\ exists z, In z (p :: l) /\ sequence_number z = (sequence_number p + Z.of_nat (length l))%Z).
  { clear. induction l as [|y l IH]; intros p Hs.
    - split; [done|]. exists p. split; [by left|simpl; lia].
    - destruct Hs as ([Hq Hp] & Hy & Hs). destruct (IH y Hs) as (Hc & z & Hz & Ez).
      split; [done|]. exists z. split; [by right|cbn [length]; lia]. }
  destruct (Hlast l a Hs) as (Hc & z & Hz & Ez).
  pose proof (Hb z Hz). pose proof (Hb a (or_introl eq_refl)). cbn [length] in *.
  split_and!; [lia|done..].
Qed.

(** What [verify_chain] answers over the rows it read. *)
Lemma verify_ok_iff t from to log n :
  t <> "" -> (1 <= from <= to)%Z ->
  verify_chain t from (Some to) log = inr (mk_ChainVerification t from to n Ok) <->
  segment None (range_rows t from to log) /\ n = length (range_rows t from to log).
Proof.
  intros Ht Hft. unfold verify_chain. rewrite (proj2 (String.eqb_neq t "") Ht).
  destruct (Z.ltb_spec from 1); [lia|]. destruct (Z.ltb_spec to from); [lia|].
  destruct (Z.ltb_spec to from); [lia|]. rewrite <- (walk_ok _ None 0 n).
  destruct (walk None 0 _) as [err|[m out]]; [done|]. split; congruence.
Qed.

(** Without an upper bound, the walk goes up to the newest row. *)
Lemma verify_to_tail t from log p :
  t <> "" -> tail_of t log = Some p -> (from <= sequence_number p)%Z ->
  verify_chain t from None log = verify_chain t from (Some (sequence_number p)) log.
Proof.
  intros Ht Hp Hle. unfold verify_chain. rewrite (proj2 (String.eqb_neq t "") Ht), Hp.
  destruct (Z.ltb_spec from 1); [done|].
  rewrite (proj2 (Z.ltb_ge _ _) Hle). cbn zeta. by rewrite (proj2 (Z.ltb_ge _ _) Hle).
Qed.
End Walks.

(** ** The table only grows *)

Section Growth.
Context `{AuditCrypto} (project : AuditEntry -> option AuditError).

Lemma apply_grows o log : exists added, audit_apply project log o = log ++ added.
Proof.
  destruct o as [e|ch e]; simpl; unfold record_entry, try_claim_event; repeat case_match; simpl;
    solve [exists []; by rewrite app_nil_r | eexists; reflexivity].
Qed.

Lemma ops_grow ops : forall log, exists added, fold_left (audit_apply project) ops log = log ++ added.
Proof.
  induction ops as [|o ops IH]; intros log; simpl; [exists []; by rewrite app_nil_r|].
  destruct (apply_grows o log) as [a ->]. destruct (IH (log ++ a)) as [b ->].
  exists (a ++ b). by rewrite app_assoc.
Qed.

Lemma claimed_app ch x log added : claimed ch log = Some x -> claimed ch (log ++ added) = Some x.
Proof.
  unfold claimed. induction log as [|r log IH]; simpl; [done|]. case_bool_decide; [done|]. apply IH.
Qed.

(** A refused write leaves the table as it was; an accepted one adds the entry's row. *)
Lemma record_cases e log :
  snd (record_entry project e log) = log \/
  (input_gates e = None /\ snd (record_entry project e log) = log ++ [mk_AuditRow (stored e) None]).
Proof. unfold record_entry. repeat case_match; simpl; auto. Qed.

Lemma accepted_input e :
  entry_ok e -> (1 <= sequence_number e)%Z -> tenant_id e <> "" -> String.length (prev_hash e) = 32 ->
  input_gates e = None.
Proof.
  intros Hok Hs Ht Hp. unfold input_gates. destruct (Z.ltb_spec (sequence_number e) 1); [lia|].
  rewrite (proj2 (String.eqb_neq _ _) Ht), Hp, (entry_hash_32 e Hok). destruct Hok as [-> Hsig].
  by rewrite String.eqb_refl.
Qed.

(** The position [next_chain_position] names is one the chain gates accept. *)
Lemma next_position_gates P t log :
  t <> "" -> chain (written P) None (of_tenant t log) ->
  exists n ph, next_chain_position t log = inr (n, ph) /\ String.length ph = 32 /\
    n = (Z.of_nat (length (of_tenant t log)) + 1)%Z /\
    forall e, tenant_id e = t -> sequence_number e = n -> prev_hash e = ph -> chain_gates e log = None.
Proof.
  intros Ht Hc. pose proof (tail_is_last t log Hc) as Htail. unfold next_chain_position, chain_gates.
  rewrite (proj2 (String.eqb_neq t "") Ht). destruct (last (of_tenant t log)) as [p|] eqn:El.
  - apply last_Some in El as [front El].
    assert (Hp32 : String.length (entry_hash p) = 32).
    { assert (Hw : written P p) by (apply (chain_elem_ok _ None Hc); rewrite El, in_app_iff; simpl; auto).
      destruct Hw as (e & _ & Hok & ->). exact (entry_hash_32 e Hok). }
    rewrite Htail, Hp32. eexists _, _. split_and!; [done|done| |].
    + rewrite El in Hc |- *. rewrite (chain_last_seq _ _ Hc), length_app. simpl. lia.
    + intros e -> Hs Hp. by rewrite Htail, Hs, Z.eqb_refl, Hp, String.eqb_refl.
  - apply last_None in El. rewrite Htail, El. eexists _, _. split_and!; [done..|].
    intros e -> Hs _. by rewrite Htail, Hs.
Qed.

Lemma fresh_key e log :
  Forall (fun r => entry_id (row_entry r) <> entry_id e) log ->
  (forall r, In r log -> tenant_id (row_entry r) = tenant_id e -> sequence_number (row_entry r) <> sequence_number e) ->
  key_taken e None log = false.
Proof.
  intros Hid Hseq. unfold key_taken. apply not_true_is_false. intros Ht. apply existsb_exists in Ht as (r & Hr & Ht).
  rewrite Forall_forall in Hid. pose proof Hr as Hr'. apply list_elem_of_In, Hid, String.eqb_neq in Hr'.
  rewrite Hr' in Ht. destruct (content_hash r); rewrite orb_false_r in Ht; simpl in Ht;
    apply andb_prop in Ht as [Ht Hs]; apply String.eqb_eq in Ht; apply Z.eqb_eq in Hs; by apply (Hseq r).
Qed.

Lemma segment_all_ok l : forall prior, segment prior l -> forall x, In x l -> entry_ok x.
Proof.
  induction l as [|y l IH]; intros prior Hs x Hx; [done|]. destruct Hs as (_ & Hy & Hs).
  destruct Hx as [<-|Hx]; [done|]. by apply (IH (Some y)).
Qed.
End Growth.

(** ** Properties *)

(** C37. The write path keeps every tenant's chain: after any sequence of [record_entry] and
    [try_claim_event] calls, accepted or refused, whatever the projections answer, each
    tenant's rows are numbered from 1 on without gap or fork, each names the hash of the
    one before it, each is an entry that passed its hash and signature checks, with its time
    cut to microseconds, and no content hash is claimed twice. *)
Theorem write_path_chains `{AuditCrypto} (project : AuditEntry -> option AuditError) (ops : list AuditOp) :
  (forall t, chain (written (fun _ => True)) None (of_tenant t (audit_run project ops))) /\
  NoDup (omap content_hash (audit_run project ops)).
Proof. split; apply (audit_run_ok project (fun _ => True) ops); by apply Forall_forall. Qed.

(** [verify_chain] answers [Ok] exactly when the rows it read are a segment: every
    row's hash and signature hold, every row but the first follows the one before it, and a
    row numbered 1 names the all-zero hash; and then it walked all of them. *)
Theorem verify_chain_exact `{AuditCrypto} (t : string) (from to : Z) (log : list AuditRow) (n : nat) :
  t <> "" -> (1 <= from <= to)%Z ->
  verify_chain t from (Some to) log = inr (mk_ChainVerification t from to n Ok) <->
  segment None (range_rows t from to log) /\ n = length (range_rows t from to log).
Proof. apply verify_ok_iff. Qed.

(** What the write path wrote verifies, when the callers rounded their times as
    [truncate_to_micros] asks: over any range of a tenant's chain the walk is [Ok] and
    counts the range's rows, unless the range includes a first entry that bridges from
    another chain, and then the walk stops there and says so. *)
Theorem written_chain_verifies `{AuditCrypto} (project : AuditEntry -> option AuditError)
    (ops : list AuditOp) (t : string) (from to : Z) :
  Forall (fun o => rounded (op_entry o)) ops -> t <> "" -> (1 <= from <= to)%Z ->
  let log := audit_run project ops in
  let rows := List.filter (in_range from to) (of_tenant t log) in
  verify_chain t from (Some to) log =
  inr (match of_tenant t log with
       | e :: _ =>
           if (from =? 1)%Z && (prev_hash e <>s GENESIS_PREV_HASH)
           then mk_ChainVerification t from to 1 (Break 1 GenesisPrevHashNotZero)
           else mk_ChainVerification t from to (length rows) Ok
       | [] => mk_ChainVerification t from to 0 Ok
       end).
Proof.
  intros Hr Ht Hft log rows. pose proof (run_entry_ok project ops t Hr) as Hc. fold log in Hc.
  rewrite (verify_range (ok := entry_ok)) by done. fold rows.
  assert (Hw : (forall e, In e (of_tenant t log) -> sequence_number e = 1%Z -> from = 1%Z ->
                  prev_hash e = GENESIS_PREV_HASH) -> walk None 0 rows = inr (length rows, Ok)).
  { intros Hg. apply walk_ok. split; [|done]. apply (range_segment from to _ None Hc).
    - apply Forall_forall. intros x Hx. apply list_elem_of_In, filter_In in Hx as [Hx _].
      by apply (chain_elem_ok _ None Hc).
    - intros x Hx Hx1 Hin. apply Hg; [done..|]. unfold in_range in Hin. breflect. lia. }
  destruct (of_tenant t log) as [|e l] eqn:El; [done|].
  assert (He1 : sequence_number e = 1%Z) by (by destruct Hc as (? & _)).
  destruct (Z.eqb_spec from 1) as [->|Hf]; simpl; [|by rewrite Hw by done].
  destruct (String.eqb_spec (prev_hash e) GENESIS_PREV_HASH) as [Hg|Hg]; simpl.
  - rewrite Hw; [done|]. intros x [<-|Hx] Hx1 _; [done|]. destruct Hc as (_ & _ & Hc).
    apply chain_sorted in Hc as [_ Hall]. rewrite Forall_forall in Hall.
    apply list_elem_of_In, Hall in Hx. unfold later in Hx. lia.
  - assert (Hr1 : exists l', rows = e :: l').
    { unfold rows. simpl. unfold in_range at 1. rewrite He1. destruct (Z.leb_spec 1 to); [|lia]. simpl. eauto. }
    destruct Hr1 as [l' ->]. cbn [walk]. rewrite He1. simpl. by rewrite (proj2 (String.eqb_neq _ _) Hg).
Qed.

(** Tamper evidence: two tables whose chains for a tenant verify from 1 on, counting
    as many entries as the range has numbers, and whose newest entries have the same hash,
    agree entry by entry on every byte the hashes cover; otherwise two entries at
    the same place of the two chains are a collision of the hash function. *)
Theorem same_head_same_chain `{AuditCrypto} (t : string) (n : nat) (log log' : list AuditRow)
    (l l' : list AuditEntry) (e e' : AuditEntry) :
  t <> "" -> range_rows t 1 (Z.of_nat (S n)) log = l ++ [e] ->
  range_rows t 1 (Z.of_nat (S n)) log' = l' ++ [e'] ->
  verify_chain t 1 (Some (Z.of_nat (S n))) log = inr (mk_ChainVerification t 1 (Z.of_nat (S n)) (S n) Ok) ->
  verify_chain t 1 (Some (Z.of_nat (S n))) log' = inr (mk_ChainVerification t 1 (Z.of_nat (S n)) (S n) Ok) ->
  entry_hash e = entry_hash e' ->
  Forall2 same_bytes (l ++ [e]) (l' ++ [e']) \/ collide_in (l ++ [e]) (l' ++ [e']).
Proof.
  intros Ht Hr Hr' Hv Hv' Eq.
  apply verify_ok_iff in Hv as [Hs Hn]; [|done|lia]. apply verify_ok_iff in Hv' as [Hs' Hn']; [|done|lia].
  assert (Hb : forall log x, In x (range_rows t 1 (Z.of_nat (S n)) log) -> (1 <= sequence_number x <= Z.of_nat (S n))%Z).
  { intros lg x Hx. apply range_rows_In in Hx. unfold in_range in Hx. apply andb_prop in Hx as [H1 H2]. apply Z.leb_le in H1, H2. lia. }
  pose proof (Hb log) as Hb1. pose proof (Hb log') as Hb2. rewrite Hr in *. rewrite Hr' in *.
  apply chains_agree; [apply full_segment_chain; rewrite <- ?Hn; done
                      |apply full_segment_chain; rewrite <- ?Hn'; done| |done].
  rewrite length_app in Hn, Hn'. simpl in Hn, Hn'. lia.
Qed.

(** What a walk cannot see: removing the oldest [k] entries of a tenant's chain (and
    keeping one at least) leaves a table that [verify_chain], asked for the whole chain
    from 1, answers with [Ok]; only the count of the entries walked falls short. *)
Theorem truncated_head_verifies `{AuditCrypto} (project : AuditEntry -> option AuditError)
    (ops : list AuditOp) (t : string) (k : nat) :
  Forall (fun o => rounded (op_entry o)) ops -> t <> "" ->
  1 <= k -> k < length (of_tenant t (audit_run project ops)) ->
  let log := audit_run project ops in
  let n := length (of_tenant t log) in
  verify_chain t 1 None (cut t k log) = inr (mk_ChainVerification t 1 (Z.of_nat n) (n - k) Ok).
Proof.
  intros Hr Ht Hk1 Hk log n. pose proof (run_entry_ok project ops t Hr) as Hc. fold log in Hc, Hk.
  pose proof (cut_of_tenant t k log) as Hcut. pose proof (chain_bounds _ Hc) as Hb.
  rewrite (above_is_drop _ _ Hc) in Hcut.
  assert (Hrange : drop k (of_tenant t log) = List.filter (in_range (Z.of_nat k + 1) (Z.of_nat n)) (of_tenant t log)).
  { rewrite <- (above_is_drop _ _ Hc). apply List.filter_ext_in. intros x Hx. specialize (Hb x Hx).
    unfold in_range. apply eq_true_iff_eq. rewrite Z.ltb_lt, andb_true_iff, !Z.leb_le. unfold n. lia. }
  assert (Hsorted : StronglySorted later (of_tenant t (cut t k log))).
  { rewrite Hcut. apply chain_none_sorted in Hc. rewrite <- (take_drop k (of_tenant t log)) in Hc.
    by apply StronglySorted_app_1_r in Hc. }
  destruct (last (of_tenant t log)) as [z|] eqn:El; [|apply last_None in El; rewrite El in Hk; simpl in Hk; lia].
  apply last_Some in El as [front El].
  assert (Hn : n = S (length front)) by (unfold n; rewrite El, length_app; simpl; lia).
  assert (Hz : sequence_number z = Z.of_nat n) by (rewrite El in Hc; rewrite Hn; by apply (chain_last_seq (ok := entry_ok))).
  assert (Htail : tail_of t (cut t k log) = Some z).
  { unfold tail_of. rewrite max_is_last, Hcut, El, drop_app_le, last_snoc by (done || lia). done. }
  rewrite (verify_to_tail _ _ _ z), Hz by (done || lia). apply verify_ok_iff; [done|lia|].
  rewrite range_rows_filter, Hcut by done.
  assert (Hall : List.filter (in_range 1 (Z.of_nat n)) (drop k (of_tenant t log)) = drop k (of_tenant t log)).
  { rewrite Hrange. rewrite filter_filter_andb. apply List.filter_ext_in. intros x Hx.
    specialize (Hb x Hx). unfold in_range, n. apply eq_true_iff_eq. rewrite !andb_true_iff, !Z.leb_le. lia. }
  rewrite Hall. split; [|rewrite length_drop; lia]. rewrite Hrange.
  apply (range_segment _ _ _ None Hc).
  - apply Forall_forall. intros x Hx. apply list_elem_of_In, filter_In in Hx as [Hx _].
    by apply (chain_elem_ok _ None Hc).
  - intros x _ Hx1 Hx. unfold in_range in Hx. breflect. lia.
Qed.

(** C39. An entry whose [recorded_at] is finer than microseconds can be accepted, and then
    no range that includes it ever verifies again, whatever is written after it: the stored
    row no longer hashes to its hash. The one way out is that the bytes hashed for the stored
    row and for the entry, which differ, are a collision of the hash function. *)
Theorem unrounded_entry_breaks `{AuditCrypto} (project : AuditEntry -> option AuditError)
    (e : AuditEntry) (log : list AuditRow) (ops : list AuditOp) (from to : Z) (k : nat) :
  snd (record_entry project e log) <> log -> ~ rounded e ->
  (1 <= from <= sequence_number e)%Z -> (sequence_number e <= to)%Z ->
  verify_chain (tenant_id e) from (Some to)
    (fold_left (audit_apply project) ops (snd (record_entry project e log))) <>
  inr (mk_ChainVerification (tenant_id e) from to k Ok) \/
  collide (stored e) e.
Proof.
  intros Hnew Hr Hfrom Hto. destruct (record_cases project e log) as [|[Hi ->]]; [done|].
  destruct (ops_grow project ops (log ++ [mk_AuditRow (stored e) None])) as [added ->].
  apply input_gates_ok in Hi as (Hok & _ & Ht & _).
  destruct (stored_unrounded e Hok Hr) as [Hbad|]; [left|by right].
  rewrite verify_ok_iff by (done || lia). intros [Hs _]. apply Hbad.
  apply (segment_all_ok _ _ Hs (stored e)). unfold range_rows, of_tenant.
  rewrite sort_by_In, !filter_In, in_map_iff. split_and!.
  - exists (mk_AuditRow (stored e) None). split; [done|]. rewrite !in_app_iff. simpl. auto.
  - cbn [stored tenant_id]. apply String.eqb_refl.
  - unfold in_range. cbn [stored sequence_number]. rewrite andb_true_iff, !Z.leb_le. lia.
Qed.

(** A claim is granted once: when [try_claim_event] answers [Stored], it appended that
    entry's row and names it, and every later claim of the same content hash whose entry
    passes the input gates is answered [AlreadyClaimed] with that same reference and
    changes nothing, whatever was written in between. *)
Theorem claim_granted_once `{AuditCrypto} (project : AuditEntry -> option AuditError)
    (ch : string) (e e' : AuditEntry) (log log' : list AuditRow) (r : AuditEventRef) (ops : list AuditOp) :
  try_claim_event project ch e log = (inr (Stored r), log') -> input_gates e' = None ->
  log' = log ++ [mk_AuditRow (stored e) (Some ch)] /\ r = ref_of e /\
  let now := fold_left (audit_apply project) ops log' in
  try_claim_event project ch e' now = (inr (AlreadyClaimed r), now).
Proof.
  intros Hc Hi'. assert (Hstored : claimed ch log = None /\ log' = log ++ [mk_AuditRow (stored e) (Some ch)] /\ r = ref_of e).
  { unfold try_claim_event in Hc. destruct (input_gates e); [done|].
    destruct (claimed ch log) eqn:E0; [done|]. destruct (chain_gates e log); [done|]. cbn zeta in Hc.
    destruct (key_taken e (Some ch) log); [by rewrite E0 in Hc|].
    rewrite claimed_snoc in Hc by done. cbn [stored entry_id] in Hc. rewrite String.eqb_refl in Hc.
    destruct (project e); by inv Hc. }
  destruct Hstored as (E0 & -> & ->). split_and!; [done..|]. cbn zeta.
  destruct (ops_grow project ops (log ++ [mk_AuditRow (stored e) (Some ch)])) as [added ->].
  unfold try_claim_event at 1. rewrite Hi', (claimed_app ch (stored e)); [done|by apply claimed_snoc].
Qed.

(** The chain can always be extended: on any table the write path built, and for any
    named tenant, [next_chain_position] answers a position, and [record_entry] accepts every
    entry at that position whose hash and signature hold and whose id is new; no chain gate
    and no uniqueness constraint stands in its way. *)
Theorem next_position_accepted `{AuditCrypto} (project : AuditEntry -> option AuditError)
    (ops : list AuditOp) (t : string) :
  t <> "" ->
  exists n ph, next_chain_position t (audit_run project ops) = inr (n, ph) /\
    forall e, tenant_id e = t -> sequence_number e = n -> prev_hash e = ph -> entry_ok e ->
      Forall (fun r => entry_id (row_entry r) <> entry_id e) (audit_run project ops) ->
      record_entry project e (audit_run project ops) =
      (project e, audit_run project ops ++ [mk_AuditRow (stored e) None]).
Proof.
  intros Ht. assert (Hlog : log_ok (fun _ => True) (audit_run project ops)) by (apply audit_run_ok; by apply Forall_forall).
  pose proof (lo_chain _ _ Hlog t) as Hc. set (log := audit_run project ops) in *.
  destruct (next_position_gates (fun _ => True) t log Ht Hc) as (n & ph & Hn & Hph & Hlen & Hgate).
  exists n, ph. split; [done|].
  intros e Het Hes Hep Hok Hid. unfold record_entry. rewrite accepted_input by (congruence || lia).
  rewrite (Hgate e Het Hes Hep), fresh_key; [done|done|].
  intros r Hr Hrt. assert (Hin : In (row_entry r) (of_tenant t log)).
  { unfold of_tenant. apply filter_In. split; [by apply in_map|]. apply String.eqb_eq. congruence. }
  apply (chain_bounds _ Hc) in Hin. lia.
Qed.

(** ** Witnesses *)

(** A concrete instance: the fields in an injective code as the canonical bytes, their
    length as the hash, and a signature check that accepts. *)
Module Toy.

Fixpoint bits (p : positive) : string :=
  match p with
  | xH => ""
  | xO p' => String Ascii.zero (bits p')
  | xI p' => String Ascii.one (bits p')
  end.

Lemma bits_inj p : forall q, bits p = bits q -> p = q.
Proof. induction p as [p IH|p IH|]; intros [q|q|]; simpl; intros E; try done; f_equal; apply IH; congruence. Qed.

Definition fields (e : AuditEntry) : string * Z * string * string * string * Z :=
  (entry_id e, sequence_number e, tenant_id e, prev_hash e, entry_hash e, recorded_at e).

Definition canon (e : AuditEntry) : option string := Some (bits (encode (fields e))).

(** The length, in 32 bytes. *)
Definition hash (s : string) : string := le_bytes 32 (Z.of_nat (String.length s)).

Lemma canon_binds e e' c : canon e = Some c -> canon e' = Some c ->
  entry_id e = entry_id e' /\ sequence_number e = sequence_number e' /\
  tenant_id e = tenant_id e' /\ prev_hash e = prev_hash e' /\ entry_hash e = entry_hash e' /\
  recorded_at e = recorded_at e'.
Proof.
  unfold canon. intros [= <-] [= E]. apply bits_inj, (inj encode) in E. unfold fields in E.
  injection E. intros. split_and!; congruence.
Qed.

#[local] Instance crypto : AuditCrypto := {|
  canonical := canon;
  sha256 := hash;
  verify_ed25519 _ _ _ := true;
  sha256_length s := le_bytes_length 32 _;
  canonical_binds := canon_binds;
|}.

(** An entry with its hash filled in. *)
Definition seal (id : string) (n : Z) (prev : string) (at_ : instant) : AuditEntry :=
  let e := mk_AuditEntry id n "t" "actor" "act" "kind" "subject" (Str "x") prev "" at_ "sig" in
  match compute_entry_hash e with
  | inr h => mk_AuditEntry id n "t" "actor" "act" "kind" "subject" (Str "x") prev h at_ "sig"
  | inl _ => e
  end.

Definition e1 : AuditEntry := seal "a" 1 GENESIS_PREV_HASH 1000%Z.
Definition e2 : AuditEntry := seal "b" 2 (entry_hash e1) 2000%Z.
Definition e3 : AuditEntry := seal "c" 3 (entry_hash e2) 3000%Z.
Definition e3' : AuditEntry := seal "c" 3 (entry_hash e2) 3001%Z.
Definition ops : list AuditOp := [Record_ e1; Claim "h" e2; Record_ e3; Record_ e3].
Definition quiet : AuditEntry -> option AuditError := fun _ => None.
Definition table : list AuditRow := audit_run quiet ops.

Lemma ops_rounded : Forall (fun o => rounded (op_entry o)) ops.
Proof. repeat constructor. Qed.

Example table_rows : map row_entry table = [e1; e2; e3].
Proof. vm_compute. reflexivity. Qed.

Lemma verify_chain_exact_witness :
  verify_chain "t" 2 (Some 3%Z) table = inr (mk_ChainVerification "t" 2 3 2 Ok).
Proof.
  refine (proj2 (verify_chain_exact "t" 2 3 table 2 _ _) _); [done|lia|].
  assert (Hr : range_rows "t" 2 3 table = [e2; e3]) by (vm_compute; reflexivity).
  rewrite Hr. split; [|done]. cbn [segment]. unfold entry_ok.
  refine (conj _ (conj (conj _ _) (conj (conj _ _) (conj (conj _ _) I)))); try (vm_compute; reflexivity).
  assert (He2 : sequence_number e2 = 2%Z) by (vm_compute; reflexivity). rewrite He2. intros Hx. discriminate Hx.
Defined.

Lemma written_chain_verifies_witness :
  verify_chain "t" 1 (Some 9%Z) table = inr (mk_ChainVerification "t" 1 9 3 Ok).
Proof.
  pose proof (written_chain_verifies quiet ops "t" 1 9 ops_rounded ltac:(done) ltac:(lia)) as Hv.
  cbv zeta in Hv. unfold table. rewrite Hv. vm_compute. reflexivity.
Defined.

Lemma same_head_same_chain_witness :
  Forall2 same_bytes ([e1; e2] ++ [e3]) ([e1; e2] ++ [e3]) \/
  collide_in ([e1; e2] ++ [e3]) ([e1; e2] ++ [e3]).
Proof.
  refine (same_head_same_chain "t" 2 table (rev table) [e1; e2] [e1; e2] e3 e3 _ _ _ _ _ _); [done|vm_compute; reflexivity..].
Defined.

Lemma truncated_head_verifies_witness :
  verify_chain "t" 1 None (cut "t" 2 table) = inr (mk_ChainVerification "t" 1 3 1 Ok).
Proof.
  assert (Hk : 2 < length (of_tenant "t" (audit_run quiet ops))) by (vm_compute; lia).
  pose proof (truncated_head_verifies quiet ops "t" 2 ops_rounded ltac:(done) ltac:(lia) Hk) as Hv.
  cbv zeta in Hv. unfold table. rewrite Hv. vm_compute. reflexivity.
Defined.

Lemma unrounded_entry_breaks_witness :
  verify_chain (tenant_id e3') 1 (Some 3%Z)
    (fold_left (audit_apply quiet) [] (snd (record_entry quiet e3' (firstn 2 table)))) <>
  inr (mk_ChainVerification (tenant_id e3') 1 3 3 Ok) \/
  collide (stored e3') e3'.
Proof.
  assert (Hnew : length (snd (record_entry quiet e3' (firstn 2 table))) = 3) by (vm_compute; reflexivity).
  assert (Hold : length (firstn 2 table) = 2) by (vm_compute; reflexivity).
  assert (Hseq : sequence_number e3' = 3%Z) by (vm_compute; reflexivity).
  assert (Hr : (truncate_to_micros (recorded_at e3') =? recorded_at e3')%Z = false) by (vm_compute; reflexivity).
  refine (unrounded_entry_breaks quiet e3' (firstn 2 table) [] 1 3 3 _ _ _ _).
  - intros E. rewrite E, Hold in Hnew. discriminate Hnew.
  - apply Z.eqb_neq, Hr.
  - rewrite Hseq. lia.
  - rewrite Hseq. lia.
Defined.

Lemma claim_granted_once_witness :
  let log := [mk_AuditRow e1 None] in
  let log' := log ++ [mk_AuditRow (stored e2) (Some "h")] in
  log' = log ++ [mk_AuditRow (stored e2) (Some "h")] /\ ref_of e2 = ref_of e2 /\
  let now := fold_left (audit_apply quiet) [Record_ e3] log' in
  try_claim_event quiet "h" e3 now = (inr (AlreadyClaimed (ref_of e2)), now).
Proof.
  refine (claim_granted_once quiet "h" e2 e3 [mk_AuditRow e1 None]
            ([mk_AuditRow e1 None] ++ [mk_AuditRow (stored e2) (Some "h")]) (ref_of e2) [Record_ e3] _ _);
    vm_compute; reflexivity.
Defined.

Lemma next_position_accepted_witness :
  exists n ph, next_chain_position "t" (audit_run quiet ops) = inr (n, ph) /\
    forall e, tenant_id e = "t" -> sequence_number e = n -> prev_hash e = ph -> entry_ok e ->
      Forall (fun r => entry_id (row_entry r) <> entry_id e) (audit_run quiet ops) ->
      record_entry quiet e (audit_run quiet ops) = (quiet e, (audit_run quiet ops) ++ [mk_AuditRow (stored e) None]).
Proof. exact (next_position_accepted quiet ops "t" ltac:(done)). Defined.
End Toy.
