(* ===== verification/AuditBytes.v ===== *)
(** * The bytes of an audit entry

    [src/src/audit/types.rs] and [verify.rs]: an entry as the JSON object its hash and its
    signature are over, through the pinned canonical writer. It discharges what the chain of
    [AuditChain] asks of canonical bytes. Base64, the RFC 3339 text of an instant, SHA-256
    and Ed25519 are parameters. *)

From Stdlib Require Import ZArith NArith Lia Ascii String.
From stdpp Require Import base list strings sorting.
From S2P Require Import Prelude RustStd Utf8 Bytes Json Canonical AuditChain.

Open Scope string_scope.
Open Scope list_scope.
Open Scope persist_scope.

(** [Display] of an [i64]. *)
Definition fmt_Z (z : Z) : string := if (z <? 0)%Z then "-" +:+ fmt_N (Z.abs_N z) else fmt_N (Z.to_N z).

(** The [base64] and [chrono] crates: the encodings read back what they wrote, so they are
    injective, and their output is ASCII. *)
Class EntryText := {
  b64 : string -> string;
  rfc3339 : instant -> string;
  b64_inj : forall s t, b64 s = b64 t -> s = t;
  rfc3339_inj : forall t u, rfc3339 t = rfc3339 u -> t = u;
  b64_utf8 : forall s, utf8_valid (b64 s) = true;
  rfc3339_utf8 : forall t, utf8_valid (rfc3339 t) = true;
}.

Section EntryValue.
Context `{EntryText}.

(** An [i64] as a JSON number. *)
Definition JI64 (z : Z) : Value :=
  Number (mk_number (if (z <? 0)%Z then None else Some (Z.to_N z)) None (fmt_Z z)).

(** [serde_json::to_value(entry)]. *)
Definition entry_value (e : AuditEntry) : Value :=
  Object [("action_type", Str (action_type e)); ("actor_id", Str (actor_id e)); ("entry_hash", Str (b64 (entry_hash e)));
          ("entry_id", Str (entry_id e)); ("payload", payload e); ("prev_hash", Str (b64 (prev_hash e)));
          ("recorded_at", Str (rfc3339 (recorded_at e))); ("sequence_number", JI64 (sequence_number e));
          ("signature", Str (signature e)); ("subject_id", Str (subject_id e)); ("subject_kind", Str (subject_kind e));
          ("tenant_id", Str (tenant_id e))].

(** Every [String] of a Rust value is UTF-8, and its payload is a JSON value. *)
Definition entry_wf (e : AuditEntry) : bool := wfb (entry_value e).

(** [canonical_bytes_for_entry]; no Rust value is an entry that is not well formed. *)
Definition entry_bytes (e : AuditEntry) : option string :=
  if entry_wf e then Some (canonicalize_envelope_for_signing_v1_pinned (entry_value e)) else None.

(** Two entries agree on all their bytes cover: every field but the signature, the payload
    up to the order of its members. *)
Definition same_entry (e e' : AuditEntry) : Prop :=
  entry_id e = entry_id e' /\ sequence_number e = sequence_number e' /\ tenant_id e = tenant_id e' /\
  actor_id e = actor_id e' /\ action_type e = action_type e' /\ subject_kind e = subject_kind e' /\
  subject_id e = subject_id e' /\ canon (payload e) = canon (payload e') /\ prev_hash e = prev_hash e' /\
  entry_hash e = entry_hash e' /\ recorded_at e = recorded_at e'.

Lemma fmt_Z_inj z z' : fmt_Z z = fmt_Z z' -> z = z'.
Proof.
  assert (Hd : forall n s, fmt_N n <> "-" +:+ s).
  { intros n s E. assert (Hb : has_byte "-"%char (fmt_N n) = false) by (apply fmt_N_byte; left; vm_compute; reflexivity).
    rewrite E in Hb. by rewrite app_cons, has_byte_head in Hb. }
  assert (Hinj : forall m n, fmt_N m = fmt_N n -> m = n).
  { intros m n E. apply (f_equal parse_digits) in E. rewrite !parse_digits_fmt in E. congruence. }
  unfold fmt_Z. destruct (Z.ltb_spec z 0), (Z.ltb_spec z' 0); intros E.
  - rewrite !app_cons, !app_nil_l' in E. injection E as E. apply Hinj in E. lia.
  - symmetry in E. by apply Hd in E.
  - by apply Hd in E.
  - apply Hinj in E. lia.
Qed.

Lemma entry_bytes_bind e e' c : entry_bytes e = Some c -> entry_bytes e' = Some c -> same_entry e e'.
Proof.
  unfold entry_bytes, entry_wf. destruct (wfb (entry_value e)) eqn:Hw; [|done].
  destruct (wfb (entry_value e')) eqn:Hw'; [|done]. intros Hc Hc'.
  assert (E : canonicalize_envelope_for_signing_v1_pinned (entry_value e)
              = canonicalize_envelope_for_signing_v1_pinned (entry_value e')) by congruence.
  rewrite !pinned_stripped in E. apply write_value_iff in E; [|by apply stripped_wf..].
  injection E as E1 E2 E3 E4 E5 E6 E7 E8 E9 E10 E11.
  apply b64_inj in E3, E6. apply rfc3339_inj in E7. apply fmt_Z_inj in E8.
  unfold same_entry. split_and!; congruence.
Qed.
End EntryValue.

(** ** The chain over these bytes *)

Section Instance_.
Context `{EntryText} (sha : string -> string) (check : string -> string -> string -> bool)
  (sha_length : forall s, String.length (sha s) = 32).

Lemma entry_canonical_binds e e' c : entry_bytes e = Some c -> entry_bytes e' = Some c ->
  entry_id e = entry_id e' /\ sequence_number e = sequence_number e' /\
  tenant_id e = tenant_id e' /\ prev_hash e = prev_hash e' /\ entry_hash e = entry_hash e' /\
  recorded_at e = recorded_at e'.
Proof. intros Hc Hc'. destruct (entry_bytes_bind _ _ _ Hc Hc') as (? & ? & ? & ? & ? & ? & ? & ? & ? & ? & ?). done. Qed.

(** The pinned writer discharges what the chain asks of canonical bytes. *)
#[local] Instance v1_crypto : AuditCrypto := {|
  canonical := entry_bytes;
  sha256 := sha;
  verify_ed25519 := check;
  sha256_length := sha_length;
  canonical_binds := entry_canonical_binds;
|}.

(** Entries of verified chains over the same bytes are the same entries. *)
Lemma same_bytes_entry e e' : entry_ok e -> entry_ok e' -> same_bytes e e' -> same_entry e e'.
Proof.
  intros [Hh _] [Hh' _] (c & Hc & Hc').
  destruct (entry_bytes_bind _ _ _ Hc Hc') as (? & ? & ? & ? & ? & ? & ? & ? & ? & _ & ?).
  unfold compute_entry_hash, canonical_bytes_for_entry in Hh, Hh'. rewrite Hc in Hh. rewrite Hc' in Hh'.
  unfold same_entry. split_and!; try done. congruence.
Qed.
End Instance_.

(** ** Properties *)

(** The entry hash binds the entry: two entries whose derived hashes are equal agree on
    every field the bytes cover (the id, the number, the tenant, the actor, the action, the
    subject, the payload as a JSON value, the previous hash and the time), or the bytes
    hashed for the two are a collision of the hash function. *)
Theorem entry_hash_binds `{EntryText} (sha : string -> string) (check : string -> string -> string -> bool)
    (sha_length : forall s, String.length (sha s) = 32) (e e' : AuditEntry) (h : string) :
  @compute_entry_hash (v1_crypto sha check sha_length) e = inr h ->
  @compute_entry_hash (v1_crypto sha check sha_length) e' = inr h ->
  same_entry (for_hash e) (for_hash e') \/ @collide (v1_crypto sha check sha_length) e e'.
Proof.
  unfold compute_entry_hash, canonical_bytes_for_entry. cbn [canonical v1_crypto sha256].
  destruct (entry_bytes (for_hash e)) as [c|] eqn:Ec; [|done].
  destruct (entry_bytes (for_hash e')) as [c'|] eqn:Ec'; [|done]. intros [= Eh] [= Eh'].
  destruct (decide (c = c')) as [->|Hne]; [left; by apply (entry_bytes_bind _ _ c')|].
  right. exists c, c'. cbn [canonical v1_crypto sha256]. split_and!; [done..|congruence].
Qed.

(** C38. A verified chain is its content: two tables whose chains for a tenant verify from 1
    on, counting as many entries as the range has numbers, and whose newest entries have
    the same hash, hold the same entries in every field the hash covers (all of them but the
    signature); otherwise two entries at the same place of the two chains have canonical
    bytes that differ and hash alike. *)
Theorem verified_chain_content `{EntryText} (sha : string -> string) (check : string -> string -> string -> bool)
    (sha_length : forall s, String.length (sha s) = 32) (t : string) (n : nat) (log log' : list AuditRow)
    (l l' : list AuditEntry) (e e' : AuditEntry) :
  let C := v1_crypto sha check sha_length in
  let whole := fun lg => @verify_chain C t 1 (Some (Z.of_nat (S n))) lg =
    inr (mk_ChainVerification t 1 (Z.of_nat (S n)) (S n) Ok) in
  t <> "" -> range_rows t 1 (Z.of_nat (S n)) log = l ++ [e] ->
  range_rows t 1 (Z.of_nat (S n)) log' = l' ++ [e'] -> whole log -> whole log' ->
  entry_hash e = entry_hash e' ->
  Forall2 same_entry (l ++ [e]) (l' ++ [e']) \/
  (exists i a b x y, (l ++ [e]) !! i = Some a /\ (l' ++ [e']) !! i = Some b /\
    entry_bytes (for_hash a) = Some x /\ entry_bytes (for_hash b) = Some y /\ x <> y /\ sha x = sha y).
Proof.
  intros C whole Ht Hr Hr' Hv Hv' Eq.
  destruct (@same_head_same_chain C t n log log' l l' e e' Ht Hr Hr' Hv Hv' Eq) as [Hall|Hx]; [left|right].
  2: { destruct Hx as (i & a & b & Ha & Hb & x & y & Hx). by exists i, a, b, x, y. }
  apply verify_ok_iff in Hv as [Hs _]; [|done|lia]. apply verify_ok_iff in Hv' as [Hs' _]; [|done|lia].
  rewrite Hr in Hs. rewrite Hr' in Hs'.
  pose proof (segment_all_ok _ _ Hs) as Hok. pose proof (segment_all_ok _ _ Hs') as Hok'.
  revert Hok Hok'. clear -Hall. induction Hall as [|x y l1 l2 Hxy Hall IH]; intros Hok Hok'; constructor.
  - eapply same_bytes_entry; [apply Hok; by left|apply Hok'; by left|done].
  - apply IH; intros z Hz; [apply Hok|apply Hok']; by right.
Qed.

(** ** Witnesses *)

Module HexText.
Fixpoint hex (s : string) : string :=
  match s with
  | EmptyString => ""
  | String a s' => String (hex_digit (N_of_ascii a / 16)) (String (hex_digit (N_of_ascii a mod 16)) (hex s'))
  end.

Lemma byte_bounds a : (N_of_ascii a < 256)%N.
Proof. destruct a as [[] [] [] [] [] [] [] []]; vm_compute; done. Qed.

Lemma hex_inj s : forall t, hex s = hex t -> s = t.
Proof.
  induction s as [|a s IH]; intros [|b t] E; cbn [hex] in E; try done. injection E as E1 E2 E.
  apply IH in E as ->. f_equal. apply N_of_ascii_inj.
  pose proof (byte_bounds a). pose proof (byte_bounds b).
  apply hex_digit_inj in E1; [|apply N.Div0.div_lt_upper_bound; lia..].
  apply hex_digit_inj in E2; [|by apply N.mod_lt..].
  rewrite (N.div_mod (N_of_ascii a) 16), (N.div_mod (N_of_ascii b) 16) by done. congruence.
Qed.

Lemma ascii_valid s : all_chars (byte_in 0 127) s = true -> utf8_valid s = true.
Proof. induction s as [|a s IH]; [done|]. simpl. intros Hs. apply andb_prop in Hs as [-> Hs]. auto. Qed.

Lemma hex_utf8 s : utf8_valid (hex s) = true.
Proof.
  apply ascii_valid. induction s as [|a s IH]; [done|]. cbn [hex all_chars]. rewrite IH.
  assert (Hd : forall n, (n < 16)%N -> byte_in 0 127 (hex_digit n) = true).
  { intros n Hn. apply hex_digit_printable in Hn. unfold printable in Hn. apply byte_in_iff in Hn.
    apply byte_in_iff. lia. }
  pose proof (byte_bounds a).
  rewrite !Hd; [done|by apply N.mod_lt|apply N.Div0.div_lt_upper_bound; lia].
Qed.

Lemma all_chars_bytes f s : (forall c, f c = false -> has_byte c s = false) -> all_chars f s = true.
Proof.
  induction s as [|a s IH]; intros Hf; [done|]. simpl. destruct (f a) eqn:E.
  - apply IH. intros c Hc. apply Hf in Hc. simpl in Hc. by apply orb_false_elim in Hc as [_ ?].
  - apply Hf in E. by rewrite has_byte_head in E.
Qed.

Lemma fmt_Z_utf8 z : utf8_valid (fmt_Z z) = true.
Proof.
  assert (Hn : forall n, all_chars (byte_in 0 127) (fmt_N n) = true).
  { intros n. apply all_chars_bytes. intros c Hc. apply fmt_N_byte. right. apply byte_in_false in Hc. lia. }
  apply ascii_valid. unfold fmt_Z. destruct (z <? 0)%Z; rewrite ?all_chars_app; by rewrite Hn.
Qed.

#[local] Instance text : EntryText := {|
  b64 := hex; rfc3339 := fmt_Z; b64_inj := hex_inj; rfc3339_inj := fmt_Z_inj;
  b64_utf8 := hex_utf8; rfc3339_utf8 := fmt_Z_utf8;
|}.

Definition sha (s : string) : string := le_bytes 32 (Z.of_nat (String.length s)).
Definition sha_length (s : string) : String.length (sha s) = 32 := le_bytes_length 32 _.
Definition check (_ _ _ : string) : bool := true.
#[local] Instance crypto : AuditCrypto := v1_crypto sha check sha_length.

Definition seal (id : string) (n : Z) (prev : string) (p : Value) : AuditEntry :=
  let e := mk_AuditEntry id n "t" "actor" "act" "kind" "subject" p prev "" 0%Z "sig" in
  match compute_entry_hash e with
  | inr h => mk_AuditEntry id n "t" "actor" "act" "kind" "subject" p prev h 0%Z "sig"
  | inl _ => e
  end.

Definition e1 : AuditEntry := seal "a" 1 GENESIS_PREV_HASH (Object [("y", JInt 2); ("x", JInt 1)]).
Definition e1' : AuditEntry := seal "a" 1 GENESIS_PREV_HASH (Object [("x", JInt 1); ("y", JInt 2)]).

Lemma entry_hash_binds_witness :
  same_entry (for_hash e1) (for_hash e1') \/ collide e1 e1'.
Proof.
  assert (Hh : exists h, compute_entry_hash e1 = inr h /\ compute_entry_hash e1' = inr h)
    by (eexists; split; vm_compute; reflexivity).
  destruct Hh as (h & H1 & H2). exact (entry_hash_binds sha check sha_length e1 e1' h H1 H2).
Defined.

Lemma verified_chain_content_witness :
  Forall2 same_entry ([] ++ [e1]) ([] ++ [e1']) \/
  (exists i a b x y, ([] ++ [e1]) !! i = Some a /\ ([] ++ [e1']) !! i = Some b /\
    entry_bytes (for_hash a) = Some x /\ entry_bytes (for_hash b) = Some y /\ x <> y /\ sha x = sha y).
Proof.
  refine (verified_chain_content sha check sha_length "t" 0 [mk_AuditRow e1 None] [mk_AuditRow e1' None]
            [] [] e1 e1' _ _ _ _ _ _); [done|vm_compute; reflexivity..].
Defined.
End HexText.
