(* ===== verification/Locks.v ===== *)
(** * Maintenance locks

    [src/src/maintenance_locks/]: the lock row ([types.rs]) and the three operations of the
    backends ([sqlite.rs], [postgres.rs]), each one statement over a table keyed by
    [lock_key]. The database's clock and its date arithmetic are an interface: a stamp has
    the resolution the column stores, and the expiry test is exact but for the instant of
    equality, where sqlite's floating-point days may round either way. *)

From Stdlib Require Import ZArith NArith Lia.
From stdpp Require Import base list strings gmap.
From S2P Require Import Prelude RustStd Json.

Open Scope string_scope.
Open Scope list_scope.
Open Scope persist_scope.

Record MaintenanceLock := mk_MaintenanceLock {
  lock_key : string;
  locked_by : option string;
  locked_at : option instant;
  lock_timeout_seconds : Z;
  metadata : option Value;
}.

Inductive LockError := InvalidArgument (what : string).

(** [is_expired]; the sum stays inside the calendar, as a stamp is the present and an
    [i32] of seconds is 68 years. *)
Definition is_expired (l : MaintenanceLock) (now : instant) : bool :=
  match locked_by l, locked_at l with
  | Some _, Some at_ => (at_ + lock_timeout_seconds l * NANOS <? now)%Z
  | _, _ => true
  end.

(** The server's clock: what a stamp stores of an instant, and the expiry test
    [now > locked_at + timeout] as the statement evaluates it. *)
Class LockClock := {
  TICK : Z;
  stamp : instant -> instant;
  past : instant -> instant -> Z -> bool;
  stamp_close : forall t, (t - TICK < stamp t <= t)%Z;
  past_before : forall now at_ s, (stamp now < at_ + s * NANOS)%Z -> past now at_ s = false;
  past_after : forall now at_ s, (at_ + s * NANOS < stamp now)%Z -> past now at_ s = true;
}.

Section Ops.
Context `{LockClock}.

Notation Table := (gmap string MaintenanceLock).

Definition validate_acquire_args (key by_ : string) (timeout_seconds : Z) : option LockError :=
  if key =s "" then Some (InvalidArgument "lock_key required")
  else if by_ =s "" then Some (InvalidArgument "locked_by required")
  else if (timeout_seconds <=? 0)%Z then Some (InvalidArgument "timeout_seconds must be > 0")
  else None.

(** The WHERE of the upsert. *)
Definition acquirable (now : instant) (by_ : string) (l : MaintenanceLock) : bool :=
  match locked_by l, locked_at l with
  | None, _ | _, None => true
  | Some holder, Some at_ => (holder =s by_) || past now at_ (lock_timeout_seconds l)
  end.

Definition try_acquire_lock (now : instant) (key by_ : string) (timeout_seconds : Z) (meta : option Value)
    (tbl : Table) : (LockError + option MaintenanceLock) * Table :=
  match validate_acquire_args key by_ timeout_seconds with
  | Some e => (inl e, tbl)
  | None =>
      let new := mk_MaintenanceLock key (Some by_) (Some (stamp now)) timeout_seconds meta in
      match tbl !! key with
      | Some l => if acquirable now by_ l then (inr (Some new), <[key := new]> tbl) else (inr None, tbl)
      | None => (inr (Some new), <[key := new]> tbl)
      end
  end.

Definition release_lock (key by_ : string) (tbl : Table) : (LockError + bool) * Table :=
  if key =s "" then (inl (InvalidArgument "lock_key required"), tbl)
  else if by_ =s "" then (inl (InvalidArgument "locked_by required"), tbl)
  else match tbl !! key with
       | Some l =>
           if bool_decide (locked_by l = Some by_)
           then (inr true, <[key := mk_MaintenanceLock (lock_key l) None None (lock_timeout_seconds l) (metadata l)]> tbl)
           else (inr false, tbl)
       | None => (inr false, tbl)
       end.

Definition get_lock (key : string) (tbl : Table) : LockError + option MaintenanceLock :=
  if key =s "" then inl (InvalidArgument "lock_key required") else inr (tbl !! key).

(** ** Histories of operations *)

Inductive LockOp :=
| Acquire (now : instant) (key by_ : string) (timeout_seconds : Z) (meta : option Value)
| Release (key by_ : string).

Definition lock_apply (tbl : Table) (o : LockOp) : Table :=
  match o with
  | Acquire now key by_ t m => snd (try_acquire_lock now key by_ t m tbl)
  | Release key by_ => snd (release_lock key by_ tbl)
  end.

Definition lock_run (ops : list LockOp) (tbl : Table) : Table := fold_left lock_apply ops tbl.

(** An operation that cannot take the lock [l] on [key] from its holder: one on another key,
    or one of another holder while the lock is not past its timeout. *)
Definition harmless (key holder : string) (until : instant) (o : LockOp) : Prop :=
  match o with
  | Acquire now key' by_ _ _ => key' <> key \/ (by_ <> holder /\ (stamp now < until)%Z)
  | Release key' by_ => key' <> key \/ by_ <> holder
  end.

Lemma held_refuses now key by_ t m tbl l holder at_ :
  tbl !! key = Some l -> locked_by l = Some holder -> locked_at l = Some at_ ->
  by_ <> holder -> (stamp now < at_ + lock_timeout_seconds l * NANOS)%Z ->
  validate_acquire_args key by_ t = None ->
  try_acquire_lock now key by_ t m tbl = (inr None, tbl).
Proof.
  intros Hl Hb Ha Hne Ht Hv. unfold try_acquire_lock. rewrite Hv, Hl. unfold acquirable. rewrite Hb, Ha.
  rewrite past_before by done. rewrite (proj2 (String.eqb_neq holder by_)) by congruence. done.
Qed.

Lemma harmless_keeps key holder until tbl l at_ o :
  tbl !! key = Some l -> locked_by l = Some holder -> locked_at l = Some at_ ->
  until = (at_ + lock_timeout_seconds l * NANOS)%Z -> harmless key holder until o ->
  lock_apply tbl o !! key = Some l.
Proof.
  intros Hl Hb Ha -> Ho. destruct o as [now key' by_ t m|key' by_]; cbn [lock_apply harmless] in *.
  - unfold try_acquire_lock. destruct (validate_acquire_args key' by_ t) eqn:Hv; [done|].
    destruct (decide (key' = key)) as [->|Hne].
    + destruct Ho as [?|[Hby Ht]]; [done|].
      pose proof (held_refuses now key by_ t m tbl l holder at_ Hl Hb Ha Hby Ht Hv) as Hr.
      unfold try_acquire_lock in Hr. rewrite Hv in Hr. by rewrite Hr.
    + cbn zeta. destruct (tbl !! key') as [l'|]; [destruct (acquirable now by_ l')|]; cbn [snd];
        rewrite ?lookup_insert_ne by done; done.
  - unfold release_lock. destruct (key' =s ""); [done|]. destruct (by_ =s ""); [done|].
    destruct (decide (key' = key)) as [->|Hne].
    + destruct Ho as [?|Hby]; [done|]. rewrite Hl, Hb. rewrite bool_decide_eq_false_2 by congruence. done.
    + destruct (tbl !! key') as [l'|]; [|done]. case_bool_decide; cbn [snd]; [|done].
      by rewrite lookup_insert_ne.
Qed.

Lemma harmless_run key holder until l at_ ops : forall tbl,
  tbl !! key = Some l -> locked_by l = Some holder -> locked_at l = Some at_ ->
  until = (at_ + lock_timeout_seconds l * NANOS)%Z -> Forall (harmless key holder until) ops ->
  lock_run ops tbl !! key = Some l.
Proof.
  induction ops as [|o ops IH]; intros tbl Hl Hb Ha Hu Hops; [done|].
  apply Forall_cons in Hops as [Ho Hops]. apply (IH (lock_apply tbl o)); try done.
  by eapply harmless_keeps.
Qed.

Lemma acquire_won now key by_ t m tbl l tbl' :
  try_acquire_lock now key by_ t m tbl = (inr (Some l), tbl') ->
  l = mk_MaintenanceLock key (Some by_) (Some (stamp now)) t m /\ tbl' !! key = Some l /\
  validate_acquire_args key by_ t = None.
Proof.
  unfold try_acquire_lock. destruct (validate_acquire_args key by_ t); [done|]. cbn zeta.
  destruct (tbl !! key) as [l'|]; [destruct (acquirable now by_ l'); [|done]|];
    intros [= <- <-]; by rewrite lookup_insert_eq.
Qed.
End Ops.

(** ** Properties *)

(** Mutual exclusion: once a holder has acquired a lock, and until its timeout has
    passed or it releases or renews the lock itself, every other caller's attempt is refused
    without effect and the row stays as the holder's acquire returned it, whatever
    operations other callers make in between and in whatever order the clocks read. *)
Theorem lock_exclusive `{LockClock} (now : instant) (key holder : string) (t : Z) (m : option Value)
    (tbl tbl' : gmap string MaintenanceLock) (l : MaintenanceLock) (ops : list LockOp)
    (now' : instant) (other : string) (t' : Z) (m' : option Value) :
  try_acquire_lock now key holder t m tbl = (inr (Some l), tbl') ->
  Forall (harmless key holder (stamp now + t * NANOS)%Z) ops ->
  other <> holder -> (stamp now' < stamp now + t * NANOS)%Z -> validate_acquire_args key other t' = None ->
  try_acquire_lock now' key other t' m' (lock_run ops tbl') = (inr None, lock_run ops tbl') /\
  get_lock key (lock_run ops tbl') = inr (Some l).
Proof.
  intros Hw Hops Hne Hnow Hv. destruct (acquire_won _ _ _ _ _ _ _ _ Hw) as (-> & Hl & _).
  set (l := mk_MaintenanceLock key (Some holder) (Some (stamp now)) t m) in *.
  assert (Hrow : lock_run ops tbl' !! key = Some l) by (eapply (harmless_run key holder); eauto).
  split; [by eapply held_refuses|]. unfold get_lock, validate_acquire_args in *.
  destruct (key =s ""); [done|]. by rewrite Hrow.
Qed.

(** No lock is held for ever: whatever operations were made, there is an instant after
    which every well-formed attempt on the key succeeds, and the row is then the caller's. *)
Theorem lock_eventually_free `{LockClock} (ops : list LockOp) (tbl : gmap string MaintenanceLock) (key : string) :
  exists deadline : instant, forall now by_ t m, (deadline <= now)%Z -> validate_acquire_args key by_ t = None ->
    let mine := mk_MaintenanceLock key (Some by_) (Some (stamp now)) t m in
    try_acquire_lock now key by_ t m (lock_run ops tbl) = (inr (Some mine), <[key := mine]> (lock_run ops tbl)).
Proof.
  set (tb := lock_run ops tbl). unfold try_acquire_lock.
  destruct (tb !! key) as [l|]; [|exists 0%Z; intros now by_ t m _ ->; done].
  destruct (locked_at l) as [at_|] eqn:Ha.
  - exists (at_ + lock_timeout_seconds l * NANOS + TICK)%Z. intros now by_ t m Hd ->. cbn zeta.
    unfold acquirable. rewrite Ha. pose proof (stamp_close now).
    destruct (locked_by l); [|done]. by rewrite past_after, orb_true_r by lia.
  - exists 0%Z. intros now by_ t m _ ->. cbn zeta. unfold acquirable. rewrite Ha. by destruct (locked_by l).
Qed.

(** Releasing is the holder's: a release by anyone else answers [false] and changes
    nothing, so a holder whose lock was taken over after its timeout cannot free its
    successor's; the holder's own release frees the key for any caller at once. *)
Theorem release_is_holders `{LockClock} (key by_ : string) (tbl : gmap string MaintenanceLock) (l : MaintenanceLock) :
  key <> "" -> by_ <> "" -> tbl !! key = Some l ->
  (locked_by l <> Some by_ -> release_lock key by_ tbl = (inr false, tbl)) /\
  (locked_by l = Some by_ -> exists tbl', release_lock key by_ tbl = (inr true, tbl') /\
     forall now other t m, validate_acquire_args key other t = None ->
       exists mine, fst (try_acquire_lock now key other t m tbl') = inr (Some mine)).
Proof.
  intros Hk Hb Hl. unfold release_lock.
  rewrite (proj2 (String.eqb_neq key "") Hk), (proj2 (String.eqb_neq by_ "") Hb), Hl. split; intros Hh.
  - by rewrite bool_decide_eq_false_2.
  - rewrite bool_decide_eq_true_2 by done. eexists. split; [done|]. intros now other t m Hv.
    unfold try_acquire_lock. rewrite Hv, lookup_insert_eq. by eexists.
Qed.

(** ** Witnesses *)

(** Postgres: microseconds, and exact intervals. *)
#[export] Program Instance postgres_clock : LockClock := {|
  TICK := 1000;
  stamp t := (t / 1000 * 1000)%Z;
  past now at_ s := (at_ + s * NANOS <? now / 1000 * 1000)%Z;
|}.
Next Obligation. simpl. intros t. pose proof (Z.div_mod t 1000 ltac:(lia)). pose proof (Z.mod_pos_bound t 1000 ltac:(lia)). lia. Qed.
Next Obligation. simpl. intros now at_ s Hb. apply Z.ltb_ge. lia. Qed.
Next Obligation. simpl. intros now at_ s Hb. by apply Z.ltb_lt. Qed.

Definition lock_key_sample : string := "tsdb_consolidation".

Lemma lock_exclusive_witness :
  let tbl' := snd (try_acquire_lock 5000%Z lock_key_sample "a" 300 None ∅) in
  try_acquire_lock 9000%Z lock_key_sample "b" 300 None (lock_run [Release lock_key_sample "b"] tbl')
  = (inr None, lock_run [Release lock_key_sample "b"] tbl') /\
  get_lock lock_key_sample (lock_run [Release lock_key_sample "b"] tbl')
  = inr (Some (mk_MaintenanceLock lock_key_sample (Some "a") (Some 5000%Z) 300 None)).
Proof.
  apply (lock_exclusive 5000%Z lock_key_sample "a" 300 None ∅
           (snd (try_acquire_lock 5000%Z lock_key_sample "a" 300 None ∅))
           (mk_MaintenanceLock lock_key_sample (Some "a") (Some 5000%Z) 300 None)
           [Release lock_key_sample "b"] 9000%Z "b" 300 None); [reflexivity| |discriminate|vm_compute; reflexivity|reflexivity].
  constructor; [right; discriminate|constructor].
Defined.

Lemma release_is_holders_witness :
  let l := mk_MaintenanceLock lock_key_sample (Some "a") (Some 5000%Z) 300 None in
  (locked_by l <> Some "b" -> release_lock lock_key_sample "b" {[lock_key_sample := l]} = (inr false, {[lock_key_sample := l]})).
Proof.
  intros l. apply (release_is_holders lock_key_sample "b" {[lock_key_sample := l]} l); [discriminate..|].
  apply lookup_singleton_eq.
Defined.
