(* ===== verification/TrustRoot.v ===== *)
(** * Trust roots, conferrals and the walks over them

    [src/src/federation/trust_root.rs]: the job labels of [delegates_to] rows, the
    trust-root verdict with its edge, charter and holder legs, grant rotation, the walk
    that asks whether a subject holds a scope from a root the user trusts, the transit and
    serve-tier resolvers, and the accord-root rule of the relay gate. With them
    [required_signatures]'s family reading, [count_distinct_roster_scrubs] of
    [reverse_quorum.rs], [charter_in_force] of [canonical_community.rs] and
    [has_accord_conferred_role_over_roster] of [admission.rs].

    A walk reads one directory at one moment: its reads are the fields of [Directory], each
    of which may fail, and the clock is an argument. The loop over the pages of a query is
    one read; [TrustBounded] discharges it by the walk of [Query]. *)

From Stdlib Require Import ZArith NArith Lia Ascii String.
From stdpp Require Import base list strings gmap sorting.
From S2P Require Import Prelude RustStd Json Precedence ReverseQuorum Consensus Matcher Query.

Open Scope string_scope.
Open Scope list_scope.
Open Scope persist_scope.

(** ** Jobs of a [delegates_to] row *)

Definition contains (l : list string) (s : string) : bool := existsb (fun x => x =s s) l.

Definition ACCORD_HEARTBEAT_DIMENSION := "accord:lifecycle:v1".
Definition TRUST_CHARTER_DIMENSION := "trust:charter:v1".
Definition TRUST_CONFERS_DIMENSION := "trust:confers:v1".
Definition TRUST_ACCEPTS_DIMENSION := "trust:accepts:v1".
Definition TRUST_JOB_DIMENSIONS : list string :=
  [TRUST_CHARTER_DIMENSION; TRUST_CONFERS_DIMENSION; TRUST_ACCEPTS_DIMENSION].

Definition job_dimension_admits (env : Value) (expected : string) : bool :=
  match envelope_dimension env with
  | Some d => if contains TRUST_JOB_DIMENSIONS d then d =s expected else true
  | None => true
  end.

Definition names_no_trust_job (env : Value) : bool :=
  negb (is_some_and (envelope_dimension env) (contains TRUST_JOB_DIMENSIONS)).

Definition jobs_other_than (expected : string) : list string :=
  List.filter (fun d => d <>s expected) TRUST_JOB_DIMENSIONS.

(** [envelope.rs], [enum ScopeSet], as serde reads it untagged. *)
Inductive ScopeSet := One (s : string) | Many (l : list string).

Definition ScopeSet_from_value (v : Value) : option ScopeSet :=
  match v with
  | Str s => Some (One s)
  | Array l => ts ← mapM as_str l; Some (Many ts)
  | _ => None
  end.

Definition ScopeSet_contains (s : ScopeSet) (token : string) : bool :=
  match s with One x => x =s token | Many l => contains l token end.

Definition scope_contains (env : Value) (token : string) : bool :=
  match (v ← get env "scope"; ScopeSet_from_value v) with
  | Some s => ScopeSet_contains s token
  | None => false
  end.

Definition INFRA_ATTEST_SCOPE := "infra:attest".
Definition INFRA_SERVE_SCOPE := "infra:serve".
Definition INFRA_TRANSPORT := "infra:transport".
Definition CHARTER_PRE_ROTATION_FIELD := "pre_rotation_commitment".

(** [b.is_ascii_hexdigit() && !b.is_ascii_uppercase()]. *)
Definition lower_hex (a : ascii) : bool :=
  let n := N_of_ascii a in
  (((48 <=? n) && (n <=? 57)) || ((97 <=? n) && (n <=? 102)))%N.

Fixpoint all_bytes (f : ascii -> bool) (s : string) : bool :=
  match s with EmptyString => true | String a s' => f a && all_bytes f s' end.

Definition charter_commitment_well_formed (env : Value) : bool :=
  match get_str env CHARTER_PRE_ROTATION_FIELD with
  | Some h => Nat.eqb (String.length h) 64 && all_bytes lower_hex h
  | None => false
  end.

(** ** Liveness of a row *)

Definition is_expired (a : Attestation) (now : instant) : bool :=
  match expires_at a with Some e => (e <=? now)%Z | None => false end.

Definition counts_in_capability_walk (a : Attestation) : bool := tier a =s attestation_tier.FEDERATION.

(** [earlier_bound] and [latest_bound]: [None] never expires. *)
Definition earlier_bound (a b : option instant) : option instant :=
  match a, b with
  | Some x, Some y => Some (Z.min x y)
  | Some x, None => Some x
  | None, other => other
  end.

Fixpoint latest_bound_from (best : option instant) (rows : list Attestation) : option instant :=
  match rows with
  | [] => best
  | r :: rows' =>
      t ← expires_at r;
      latest_bound_from (Some (match best with Some b => Z.max b t | None => t end)) rows'
  end.
Definition latest_bound : list Attestation -> option instant := latest_bound_from None.

(** ** Drills *)

Definition DAY : Z := 86400 * NANOS.
Definition DRILL_GREEN_MAX_DAYS : Z := 90.
Definition DRILL_YELLOW_MAX_DAYS : Z := 180.

Inductive DrillFreshness := Green | Yellow | Red.

Definition DrillFreshness_of (age : option Z) : DrillFreshness :=
  match age with
  | Some d => if (d <? DRILL_GREEN_MAX_DAYS * DAY)%Z then Green
              else if (d <? DRILL_YELLOW_MAX_DAYS * DAY)%Z then Yellow else Red
  | None => Red
  end.

(** ** Records of [types.rs] the walks read *)

Record FamilyMember := mk_FamilyMember {
  fm_key_id : string;
  fm_joined_at : instant;
  fm_role : option string;
}.

Record Family := mk_Family {
  family_key_id : string;
  family_name : string;
  family_members : list FamilyMember;
  founded_at : instant;
  consensus_protocol : string;
  consensus_protocol_entrenched : bool;
  dissolved_at : option instant;
  prev_head_digest : string;
  charter_digest : string;
  family_row_hash : string;
}.

Record KeyRecord := mk_KeyRecord {
  kr_key_id : string;
  pubkey_ed25519_base64 : string;
  pubkey_ml_dsa_65_base64 : option string;
  kr_algorithm : string;
  kr_identity_type : string;
  kr_identity_ref : string;
  kr_valid_from : instant;
  kr_valid_until : option instant;
  registration_envelope : Value;
  kr_original_content_hash : string;
  kr_scrub_signature_classical : string;
  kr_scrub_signature_pqc : option string;
  kr_scrub_key_id : string;
  kr_scrub_timestamp : instant;
  kr_pqc_completed_at : option instant;
  kr_persist_row_hash : string;
  capability_roles : list string;
  attestation_evidence : option Value;
  kr_consent_role : option string;
  kr_additional_scrubs : list ScrubSig;
}.

(** [str::trim]: Unicode [White_Space]. *)
Definition WHITE_SPACE : list string :=
  map utf8 [9; 10; 11; 12; 13; 32; 133; 160; 5760; 8192; 8193; 8194; 8195; 8196; 8197; 8198; 8199;
            8200; 8201; 8202; 8232; 8233; 8239; 8287; 12288]%N.
Definition trim (s : string) : string := trim_matches WHITE_SPACE s.

(** [types.rs], [mod identity_type]. *)
Definition NODE := "node".

Definition parse_set (stored : string) : list string :=
  List.filter (fun s => s <>s "") (map trim (split_on "," stored)).

Definition set_contains (stored member : string) : bool := contains (parse_set stored) member.

Definition claims_role (r : KeyRecord) (role : string) : bool :=
  set_contains (kr_identity_type r) role || contains (capability_roles r) role.

(** [Attestation::scrubs]. *)
Definition scrubs (a : Attestation) : list ScrubSig :=
  mk_ScrubSig (scrub_key_id a) (scrub_signature_classical a) (scrub_signature_pqc a) None
  :: additional_scrubs a.

(** ** Verdicts *)

Inductive RootKind := KeyRoot | FamilyRoot | CommunityRoot.

Record CharterQuorum := mk_CharterQuorum {
  distinct_holders : N;
  required : N;
  roster_size : N;
}.

Definition met (q : CharterQuorum) : bool := (required q <=? distinct_holders q)%N.

Record HolderHardware := mk_HolderHardware {
  hh_key_id : string;
  hh_class : option string;
  layer_a : bool;
  layer_b : option bool;
  hh_refusal : option string;
}.

Definition attested (h : HolderHardware) : bool :=
  layer_a h && match layer_b h with Some false => false | _ => true end.

Record TrustRootVerdict := mk_TrustRootVerdict {
  edge_exists : bool;
  root_self_declares : bool;
  charter_has_recovery : bool;
  last_drill_at : option instant;
  drill_freshness : DrillFreshness;
  halt_latched : option bool;
  valid : bool;
  root_kind : RootKind;
  charter_quorum : option CharterQuorum;
  holders_hardware : list HolderHardware;
  holders_hardware_attested : bool;
  bounded_until : option instant;
}.

Inductive ConferralPlane := Delegation | AccordCoScrub | FamilyQuorum.

Record TrustedGrant := mk_TrustedGrant {
  root_key_id : string;
  grant_attestation_id : string;
  grant_verdict : TrustRootVerdict;
  conferral_plane : ConferralPlane;
}.

(** [canonical_community.rs], [enum HeadCharter]. *)
Inductive HeadCharter := HeadKeyRoot | HeadNamed (digest : string) | HeadUnnamed.

Definition HeadCharter_of (digest : string) : HeadCharter :=
  if digest =s "" then HeadUnnamed else HeadNamed digest.

Definition head_admits (h : HeadCharter) (charter : Attestation) : bool :=
  match h with
  | HeadKeyRoot => true
  | HeadNamed digest => persist_row_hash charter =s digest
  | HeadUnnamed => false
  end.

(** ** The directory a walk reads *)

(** [superseded_by] of [admission.rs]'s [RoleWithdrawal] is what is read of a withdrawal. *)
Record Directory := mk_Directory {
  (** [while let Some(page) = q.pages().next(dir)? { out.extend(page) }]. *)
  read_pages : AttestationQuery -> Error + list Attestation;
  list_composers_referencing_any :
    list string -> option string -> option string -> Error + list Attestation;
  list_attestations_referencing : string -> Error + list Attestation;
  get_attestation : string -> Error + option Attestation;
  trust_direction_held_among : list string -> Error + list string;
  lookup_family : string -> Error + option Family;
  (** Folded at the instant given. *)
  active_family_members : instant -> string -> Error + list FamilyMember;
  list_families_for_member : string -> Error + list Family;
  (** Is a community row held, and a halt latched, under this id? *)
  holds_community : string -> Error + bool;
  get_active_halt : string -> Error + bool;
  lookup_public_key : string -> Error + option KeyRecord;
  lookup_role_withdrawal : string -> string -> Error + option (option string);
  rooted_community_family : string -> Error + option string;
  owner_of : string -> Error + option string;
  (** [verify_envelope_hybrid_signature(..).is_ok()] and
      [verify_accord_family_coscrub(..).is_ok()]. *)
  verify_envelope_hybrid_signature : string -> Value -> string -> option string -> bool;
  verify_accord_family_coscrub : KeyRecord -> list string -> bool;
}.

(** What the walks ask of the build and of other modules, with no directory. *)
Class TrustBuild := {
  is_pinned_bundle_row : Attestation -> bool;
  evaluate_holder_hardware : KeyRecord -> HolderHardware;
  check_row_column_binding : Attestation -> bool;
  (** [str::parse::<DateTime<Utc>>]. *)
  parse_datetime : string -> option instant;
  accord_family_key_id : string;
}.

(** [Err(Error::Unsupported { .. }) => x]. *)
Definition or_unsupported {A} (m : Error + A) (x : A) : Error + A :=
  match m with inl (Unsupported _) => inr x | _ => m end.

Section Walks.
Context (rt : RowTypes) `{StrictMajority} `{TrustBuild} (dir : Directory).

Definition tombstoned_ids (rows : list Attestation) : gset string := retired_ids rt rows.

(** [out.sort_by_key(|a| Reverse(a.asserted_at))]. *)
Definition newest_first (rows : list Attestation) : list Attestation :=
  sort_by (fun a b => (asserted_at b <? asserted_at a)%Z) rows.

Definition with_slice_composers (selected : list Attestation) (about by_ : option string)
    : Error + list Attestation :=
  match selected with
  | [] => inr selected
  | _ =>
      let ids := map attestation_id selected in
      composers ← list_composers_referencing_any dir ids about by_;
      inr (newest_first (selected ++ distinct_on attestation_id ids composers))
  end.

Definition direction_denied_ids (rows : list Attestation) : Error + gset string :=
  let asked := map attestation_id (List.filter (fun row =>
      (Json.attestation_type row =s attestation_type.DELEGATES_TO)
      && names_no_trust_job (attestation_envelope row)
      && negb (is_pinned_bundle_row row)) rows) in
  match asked with
  | [] => inr ∅
  | _ =>
      let asked := dedup_sorted (sort_strings asked) in
      held ← trust_direction_held_among dir asked;
      inr (list_to_set (List.filter (fun id => negb (contains held id)) asked))
  end.

(** ** Rotation *)

Definition MAX_GRANT_ROTATIONS : nat := 64.

Definition target_of (a : Attestation) : option string :=
  references_attestation_id_from_envelope (attestation_envelope a).

Fixpoint rotation_loop (signer : string) (turns : nat) (cur_target : option string) : Error + bool :=
  match turns with
  | O => inr false
  | S turns' =>
      match cur_target with
      | None => inr false
      | Some target_id =>
          found ← get_attestation dir target_id;
          match found with
          | None => inr false
          | Some target =>
              if attesting_key_id target <>s signer then inr false
              else if Json.attestation_type target =s attestation_type.DELEGATES_TO then inr true
              else if Json.attestation_type target <>s attestation_type.SUPERSEDES then inr false
              else rotation_loop signer turns' (target_of target)
          end
      end
  end.

Definition rotates_own_grant (succ : Attestation) : Error + bool :=
  rotation_loop (attesting_key_id succ) MAX_GRANT_ROTATIONS (target_of succ).

(** The test on one row that references the candidate. *)
Definition supersedes_own (row r : Attestation) : bool :=
  (Json.attestation_type r =s attestation_type.SUPERSEDES)
  && (attesting_key_id r =s attesting_key_id row)
  && (attestation_id r <>s attestation_id row).

Definition confers_now (row : Attestation) : Error + bool :=
  rotates ← (if Json.attestation_type row =s attestation_type.SUPERSEDES
             then rotates_own_grant row else inr true);
  if negb rotates then inr false
  else
    refs ← list_attestations_referencing dir (attestation_id row);
    inr (negb (existsb (supersedes_own row) refs)).

Fixpoint live_conferrals (shaped : list Attestation) : Error + list Attestation :=
  match shaped with
  | [] => inr []
  | row :: shaped' =>
      live ← confers_now row;
      rest ← live_conferrals shaped';
      inr (if (live : bool) then row :: rest else rest)
  end.

(** ** Families *)

Definition resolve_family_root (root_ref : string) : Error + option Family :=
  or_unsupported (lookup_family dir root_ref) None.

Definition family_charter_threshold (f : Family) (n : N) : N :=
  let floor := strict_majority n in
  let protocol := consensus_protocol f in
  let policy :=
    if starts_with REVERSE_QUORUM_PREFIX protocol then n
    else match required_signatures protocol n with
         | Some k => k
         | None => if protocol =s cp.FOUNDER_ONLY then floor else n
         end in
  N.max policy floor.

(** [reverse_quorum.rs], [count_distinct_roster_scrubs]. *)
Definition count_distinct_roster_scrubs (env : Value) (ss : list ScrubSig) (roster : list string)
    : gset string :=
  fold_left (fun counted s =>
    let k := ss_scrub_key_id s in
    if bool_decide (k ∈ counted) || negb (contains roster k) then counted
    else if verify_envelope_hybrid_signature dir k env (ss_scrub_signature_classical s)
              (ss_scrub_signature_pqc s)
         then {[k]} ∪ counted else counted) ss ∅.

Definition family_quorum_holders_over_roster (env : Value) (ss : list ScrubSig) (f : Family)
    (roster : list string) : CharterQuorum * gset string :=
  let counted := count_distinct_roster_scrubs env ss roster in
  (mk_CharterQuorum (N.of_nat (size counted)) (family_charter_threshold f (len roster)) (len roster),
   counted).

Definition family_quorum_holders_over (now : instant) (row : Attestation) (f : Family)
    : Error + (CharterQuorum * gset string) :=
  members ← or_unsupported (active_family_members dir now (family_key_id f)) [];
  inr (family_quorum_holders_over_roster (attestation_envelope row) (scrubs row) f (map fm_key_id members)).

Definition family_quorum_over (now : instant) (row : Attestation) (f : Family) : Error + CharterQuorum :=
  q ← family_quorum_holders_over now row f; inr (fst q).

(** [canonical_community.rs], [charter_in_force]. *)
Definition charter_in_force (root : string) : Error + (string * HeadCharter) :=
  fam ← lookup_family dir root;
  match fam with
  | Some f => inr (root, HeadCharter_of (charter_digest f))
  | None =>
      community ← holds_community dir root;
      if (community : bool) then
        acc ← lookup_family dir accord_family_key_id;
        inr (accord_family_key_id,
             match acc with Some f => HeadCharter_of (charter_digest f) | None => HeadUnnamed end)
      else inr (root, HeadKeyRoot)
  end.

(** [holder_hardware]; the memo it reads through keeps the answers of a pure function. *)
Definition holder_hardware (key_id : string) : Error + HolderHardware :=
  rec ← lookup_public_key dir key_id;
  match rec with
  | None => inr (mk_HolderHardware key_id None false None (Some "no key record for this holder"))
  | Some r => inr (evaluate_holder_hardware r)
  end.

(** ** The verdict *)

Definition self_root_verdict : TrustRootVerdict :=
  mk_TrustRootVerdict false false false None Red None false KeyRoot None [] false None.

(** Which arm a root reference takes: the family, the id its legs are read under, and the
    kind reported. *)
Definition root_arm (root_ref : string) : Error + (option Family * string * RootKind) :=
  fam ← resolve_family_root root_ref;
  match fam with
  | Some f => inr (Some f, root_ref, FamilyRoot)
  | None =>
      rooted ← rooted_community_family dir root_ref;
      match rooted with
      | Some family_id =>
          f ← resolve_family_root family_id;
          inr (f, family_id, CommunityRoot)
      | None => inr (None, root_ref, KeyRoot)
      end
  end.

(** The edge-shaped rows of a key's own slice, to any root the test [to] accepts. *)
Definition edge_shaped (now : instant) (dead : gset string) (to : string -> bool) (a : Attestation) : bool :=
  ((Json.attestation_type a =s attestation_type.DELEGATES_TO)
   || (Json.attestation_type a =s attestation_type.SUPERSEDES))
  && to (attested_key_id a)
  && negb (bool_decide (attestation_id a ∈ dead))
  && negb (is_expired a now)
  && counts_in_capability_walk a
  && job_dimension_admits (attestation_envelope a) TRUST_ACCEPTS_DIMENSION.

(** The user's live edges to [root_ref]: shaped, not superseded, direction standing. *)
Definition live_edges (now : instant) (to : string -> bool) (by_user : list Attestation)
    : Error + list Attestation :=
  let dead := tombstoned_ids by_user in
  edges ← live_conferrals (List.filter (edge_shaped now dead to) by_user);
  denied ← direction_denied_ids edges;
  inr (List.filter (fun a => negb (bool_decide (attestation_id a ∈ denied))) edges).

Definition charter_shaped (now : instant) (legs_ref : string) (denied dead : gset string)
    (a : Attestation) : bool :=
  (Json.attestation_type a =s attestation_type.DELEGATES_TO)
  && (attested_key_id a =s legs_ref)
  && negb (bool_decide (attestation_id a ∈ dead))
  && negb (is_expired a now)
  && counts_in_capability_walk a
  && job_dimension_admits (attestation_envelope a) TRUST_CHARTER_DIMENSION
  && negb (bool_decide (attestation_id a ∈ denied))
  && scope_contains (attestation_envelope a) INFRA_SERVE_SCOPE
  && scope_contains (attestation_envelope a) INFRA_ATTEST_SCOPE.

(** The loop over a family's charter candidates: the quorate ones, their holders, and the
    best count seen. *)
Fixpoint charter_loop (now : instant) (f : Family) (cands : list Attestation)
    (acc : list Attestation * gset string * option CharterQuorum)
    : Error + (list Attestation * gset string * option CharterQuorum) :=
  match cands with
  | [] => inr acc
  | c :: cands' =>
      let '(quorate, holders, best) := acc in
      qs ← family_quorum_holders_over now c f;
      let '(q, signers) := qs in
      let '(quorate, holders) :=
        if met q then (quorate ++ [c], holders ∪ signers) else (quorate, holders) in
      let best :=
        if is_none_or best (fun b => (distinct_holders b <? distinct_holders q)%N) then Some q else best in
      charter_loop now f cands' (quorate, holders, best)
  end.

(** The live charters, the accounting reported, and the holders. *)
Definition charters (now : instant) (family : option Family) (legs_ref : string)
    (by_root about_root : list Attestation)
    : Error + (list Attestation * option CharterQuorum * gset string) :=
  let root_dead := tombstoned_ids by_root in
  let about_dead := tombstoned_ids about_root in
  denied ← direction_denied_ids
    (List.filter (fun a => attested_key_id a =s legs_ref) (by_root ++ about_root));
  match family with
  | None =>
      let self := List.filter (fun a => charter_shaped now legs_ref denied root_dead a
                                        && (attesting_key_id a =s legs_ref)) by_root in
      inr (self, None, list_to_set (map attesting_key_id self))
  | Some f =>
      in_force ← charter_in_force (family_key_id f);
      r ← charter_loop now f
            (List.filter (fun a => charter_shaped now legs_ref denied about_dead a
                                   && head_admits (snd in_force) a) about_root) ([], ∅, None);
      let '(quorate, holders, best) := r in
      match best with
      | Some q => inr (quorate, Some q, holders)
      | None =>
          members ← or_unsupported (active_family_members dir now (family_key_id f)) [];
          let n := len members in
          inr (quorate, Some (mk_CharterQuorum 0 (family_charter_threshold f n) n), holders)
      end
  end.

Definition is_drill (now : instant) (dead : gset string) (a : Attestation) : bool :=
  (Json.attestation_type a =s attestation_type.SCORES)
  && bool_decide (envelope_dimension (attestation_envelope a) = Some ACCORD_HEARTBEAT_DIMENSION)
  && negb (bool_decide (attestation_id a ∈ dead))
  && negb (is_expired a now)
  && counts_in_capability_walk a.

Definition latest (l : list instant) : option instant :=
  fold_left (fun best t => Some (match best with Some b => Z.max b t | None => t end)) l None.

(** The legs, over the three slices. *)
Definition judge (now : instant) (root_ref : string) (arm : option Family * string * RootKind)
    (by_user by_root about_root : list Attestation) : Error + TrustRootVerdict :=
  let '(family, legs_ref, kind) := arm in
  edges ← live_edges now (fun k => k =s root_ref) by_user;
  cs ← charters now family legs_ref by_root about_root;
  let '(live_charters, quorum, charter_holders) := cs in
  let recovery := List.filter (fun a => charter_commitment_well_formed (attestation_envelope a)) live_charters in
  hardware ← mapM holder_hardware (sort_strings (elements charter_holders));
  let all_attested := forallb attested hardware in
  let drill := latest (map asserted_at
    (List.filter (is_drill now (tombstoned_ids about_root)) about_root)) in
  halt ← or_unsupported (h ← get_active_halt dir legs_ref; inr (Some h)) None;
  let edge_exists := negb (is_nil edges) in
  let declares := negb (is_nil live_charters) in
  let has_recovery := negb (is_nil recovery) in
  let valid := edge_exists && declares && has_recovery && all_attested in
  inr (mk_TrustRootVerdict edge_exists declares has_recovery drill
         (DrillFreshness_of (t ← drill; Some (now - t)%Z)) halt valid kind quorum hardware all_attested
         (if valid then earlier_bound (latest_bound edges) (latest_bound recovery) else None)).

(** ** The slices the verdict reads *)

Definition edge_types : list string := [attestation_type.DELEGATES_TO; attestation_type.SUPERSEDES].

(** A key's own edge-shaped rows, with the key's composers naming them. *)
Definition edge_slice (user : string) : Error + list Attestation :=
  rows ← read_pages dir (excluding_dimensions (types (by_key user FOLD_PAGE) edge_types)
                           (jobs_other_than TRUST_ACCEPTS_DIMENSION));
  with_slice_composers rows None (Some user).

Definition charter_slice (legs_ref : string) : Error + list Attestation :=
  rows ← read_pages dir (excluding_dimensions (types (by_key legs_ref FOLD_PAGE) [attestation_type.DELEGATES_TO])
                           (jobs_other_than TRUST_CHARTER_DIMENSION));
  with_slice_composers rows None (Some legs_ref).

Definition about_slice (family : option Family) (legs_ref : string) : Error + list Attestation :=
  drills ← read_pages dir (dimension_prefix (to_key legs_ref FOLD_PAGE) ACCORD_HEARTBEAT_DIMENSION);
  selected ←
    match family with
    | None => inr drills
    | Some _ =>
        cs ← read_pages dir (excluding_dimensions (types (to_key legs_ref FOLD_PAGE) [attestation_type.DELEGATES_TO])
                               (jobs_other_than TRUST_CHARTER_DIMENSION));
        inr (newest_first (drills ++ cs))
    end;
  with_slice_composers selected (Some legs_ref) None.

Definition trust_root_valid (now : instant) (user root_ref : string) : Error + TrustRootVerdict :=
  if user =s root_ref then inr self_root_verdict
  else
    arm ← root_arm root_ref;
    let '(family, legs_ref, _) := arm in
    by_user ← edge_slice user;
    by_root ← charter_slice legs_ref;
    about_root ← about_slice family legs_ref;
    judge now root_ref arm by_user by_root about_root.

(** [roots.sort(); roots.dedup()] of the subscription set. *)
Definition roots_of (edges : list Attestation) : list string :=
  dedup_sorted (sort_strings (map attested_key_id edges)).

Definition trusted_roots_of (now : instant) (node : string) : Error + list string :=
  by_node ←
    match read_pages dir (excluding_dimensions (types (by_key node FOLD_PAGE) edge_types)
                            (jobs_other_than TRUST_ACCEPTS_DIMENSION)) with
    | inr rows => with_slice_composers rows None (Some node)
    | inl (Unsupported _) => inr []
    | inl e => inl e
    end;
  edges ← live_edges now (fun k => k <>s node) by_node;
  inr (roots_of edges).

(** ** The capability walk *)

(** [admission.rs], [has_accord_conferred_role_over_roster]. *)
Definition has_accord_conferred_role_over_roster (key_id role : string) (roster : list string) : Error + bool :=
  row ← lookup_public_key dir key_id;
  match row with
  | None => inr false
  | Some r =>
      if negb (claims_role r role) then inr false
      else if negb (verify_accord_family_coscrub dir r roster) then inr false
      else
        w ← lookup_role_withdrawal dir role key_id;
        inr (match w with
             | Some superseded_by => bool_decide (superseded_by = Some key_id)
             | None => true
             end)
  end.

Definition conferral_shaped (now : instant) (dead : gset string) (subject scope : string)
    (a : Attestation) : bool :=
  ((Json.attestation_type a =s attestation_type.DELEGATES_TO)
   || (Json.attestation_type a =s attestation_type.SUPERSEDES))
  && (attested_key_id a =s subject)
  && (attesting_key_id a <>s subject)
  && negb (bool_decide (attestation_id a ∈ dead))
  && negb (is_expired a now)
  && counts_in_capability_walk a
  && job_dimension_admits (attestation_envelope a) TRUST_CONFERS_DIMENSION
  && scope_contains (attestation_envelope a) scope.

(** What the walk asks of the verdict: the root judged for the asking user. *)
Section Grants.
Context (verdict_of : string -> Error + TrustRootVerdict).

(** The delegation plane: the first granter the user trusts. *)
Fixpoint delegation_plane (grants : list Attestation) : Error + option TrustedGrant :=
  match grants with
  | [] => inr None
  | g :: grants' =>
      v ← verdict_of (attesting_key_id g);
      if valid v then
        inr (Some (mk_TrustedGrant (attesting_key_id g) (attestation_id g) v Delegation))
      else delegation_plane grants'
  end.

(** [format!("{}\u{1f}{}", family, grant)]. *)
Definition family_grant_key (f : Family) (g : Attestation) : string :=
  family_key_id f +:+ String (ascii_of_N 31) (attestation_id g).

(** The families of one grant's signer; the keys seen are kept for the next grant. *)
Fixpoint grant_families (now : instant) (g : Attestation) (fams : list Family) (seen : list string)
    : Error + (option TrustedGrant * list string) :=
  match fams with
  | [] => inr (None, seen)
  | f :: fams' =>
      let k := family_grant_key f g in
      if contains seen k then grant_families now g fams' seen
      else
        q ← family_quorum_over now g f;
        if negb (met q) then grant_families now g fams' (k :: seen)
        else
          v ← verdict_of (family_key_id f);
          if valid v then
            inr (Some (mk_TrustedGrant (family_key_id f) (attestation_id g) v FamilyQuorum), k :: seen)
          else grant_families now g fams' (k :: seen)
  end.

(** The family plane: the first family, quorate over a grant, that the user trusts. *)
Fixpoint family_plane (now : instant) (grants : list Attestation) (seen : list string)
    : Error + option TrustedGrant :=
  match grants with
  | [] => inr None
  | g :: grants' =>
      fams ← or_unsupported (list_families_for_member dir (attesting_key_id g)) [];
      r ← grant_families now g fams seen;
      match r with
      | (Some t, _) => inr (Some t)
      | (None, seen) => family_plane now grants' seen
      end
  end.

(** The walk over the rows about the subject. *)
Definition walk_grants (now : instant) (subject scope : string) (roster : list string)
    (about_subject : list Attestation) : Error + option TrustedGrant :=
  let dead := tombstoned_ids about_subject in
  live ← live_conferrals (List.filter (conferral_shaped now dead subject scope) about_subject);
  d ← delegation_plane (distinct_on attesting_key_id [] live);
  match d with
  | Some g => inr (Some g)
  | None =>
      f ← family_plane now live [];
      match f with
      | Some g => inr (Some g)
      | None =>
          conferred ← has_accord_conferred_role_over_roster subject scope roster;
          if (conferred : bool) then
            v ← verdict_of subject;
            inr (if valid v then Some (mk_TrustedGrant subject subject v AccordCoScrub) else None)
          else inr None
      end
  end.
End Grants.

Definition conferral_slice (ts : list string) (subject : string) : Error + list Attestation :=
  rows ← read_pages dir (excluding_dimensions (types (to_key subject FOLD_PAGE) ts)
                           (jobs_other_than TRUST_CONFERS_DIMENSION));
  with_slice_composers rows (Some subject) None.

Definition capability_roots_to_trusted_root_over_roster (now : instant) (user subject scope : string)
    (roster : list string) : Error + option TrustedGrant :=
  about_subject ← conferral_slice edge_types subject;
  walk_grants (trust_root_valid now user) now subject scope roster about_subject.

(** ** Transit *)

Record TransitEligibility := mk_TransitEligibility {
  eligible : bool;
  valid_until : option instant;
  via_root : option string;
}.

Definition denied : TransitEligibility := mk_TransitEligibility false None None.

Definition transit_candidate_roots (now : instant) (user : string) (by_user : list Attestation) : list string :=
  let dead := tombstoned_ids by_user in
  map attested_key_id
    (distinct_on attested_key_id [] (List.filter (edge_shaped now dead (fun k => k <>s user)) by_user)).

(** The loop over the candidates; the count is of the roots evaluated. *)
Fixpoint transit_loop (verdict_of : string -> string -> Error + TrustRootVerdict) (now : instant)
    (user peer_key_id : string) (peer : KeyRecord) (cands : list string) (walked : N)
    : Error + (TransitEligibility * N) :=
  match cands with
  | [] => inr (denied, walked)
  | root :: cands' =>
      let walked := (walked + 1)%N in
      ours ← verdict_of user root;
      if negb (valid ours) then transit_loop verdict_of now user peer_key_id peer cands' walked
      else
        theirs ← verdict_of peer_key_id root;
        if negb (valid theirs) then transit_loop verdict_of now user peer_key_id peer cands' walked
        else
          let until := earlier_bound (earlier_bound (kr_valid_until peer) (bounded_until ours))
                         (bounded_until theirs) in
          if is_some_and until (fun t => (t <=? now)%Z) then inr (denied, walked)
          else inr (mk_TransitEligibility true until (Some root), walked)
  end.

Definition transit_eligibility_walk (now : instant) (user peer_key_id : string)
    : Error + (TransitEligibility * N) :=
  if user =s peer_key_id then inr (denied, 0%N)
  else
    found ← lookup_public_key dir peer_key_id;
    match found with
    | None => inr (denied, 0%N)
    | Some peer =>
        if negb (set_contains (kr_identity_type peer) NODE) then inr (denied, 0%N)
        else if negb (claims_role peer INFRA_TRANSPORT) then inr (denied, 0%N)
        else
          by_user ← edge_slice user;
          transit_loop (trust_root_valid now) now user peer_key_id peer
            (transit_candidate_roots now user by_user) 0
    end.

Definition resolve_transit_eligibility (now : instant) (user peer : string) : TransitEligibility :=
  match transit_eligibility_walk now user peer with
  | inr (verdict, _) => verdict
  | inl _ => denied
  end.

(** ** Serve tiers *)

Inductive ServeTier := ServeNone | MeshServer | Canonical.

(** [admission.rs], [delegation_valid_until_lapsed]. *)
Definition delegation_valid_until_lapsed (env : Value) (now : instant) : bool :=
  match (s ← get_str env "valid_until"; parse_datetime s) with
  | Some vu => (vu <=? now)%Z
  | None => false
  end.

Definition owner_grant (now : instant) (dead : gset string) (subject granter scope : string)
    (a : Attestation) : bool :=
  (Json.attestation_type a =s attestation_type.DELEGATES_TO)
  && (attested_key_id a =s subject)
  && (attesting_key_id a =s granter)
  && (attesting_key_id a <>s subject)
  && negb (bool_decide (attestation_id a ∈ dead))
  && negb (is_expired a now)
  && negb (delegation_valid_until_lapsed (attestation_envelope a) now)
  && counts_in_capability_walk a
  && job_dimension_admits (attestation_envelope a) TRUST_CONFERS_DIMENSION
  && scope_contains (attestation_envelope a) scope.

Definition owner_granted_scope (now : instant) (subject granter scope : string) : Error + bool :=
  about_subject ← conferral_slice [attestation_type.DELEGATES_TO] subject;
  inr (existsb (owner_grant now (tombstoned_ids about_subject) subject granter scope) about_subject).

Definition resolve_serve_tier_over_roster (now : instant) (subject resolver : string) (roster : list string)
    : Error + ServeTier :=
  found ← lookup_public_key dir subject;
  match found with
  | None => inr ServeNone
  | Some row =>
      if negb (set_contains (kr_identity_type row) NODE) then inr ServeNone
      else if is_some_and (kr_valid_until row) (fun u => (u <=? now)%Z) then inr ServeNone
      else
        owner ← owner_of dir subject;
        conferred ← has_accord_conferred_role_over_roster subject INFRA_SERVE_SCOPE roster;
        canonical ←
          (if (conferred : bool) then
             g ← capability_roots_to_trusted_root_over_roster now resolver subject INFRA_SERVE_SCOPE roster;
             inr (is_some g)
           else inr false);
        if (canonical : bool) then inr Canonical
        else if negb (claims_role row INFRA_SERVE_SCOPE) then inr ServeNone
        else match owner with
             | None => inr ServeNone
             | Some o =>
                 granted ← owner_granted_scope now subject o INFRA_SERVE_SCOPE;
                 inr (if (granted : bool) then MeshServer else ServeNone)
             end
  end.

(** ** The relay gate *)

Inductive AccordRootSource := SignedEnvelopeKey | HeartbeatDimensionRule.

Inductive AccordRootClaim :=
| NotAccord
| Named (root_ref : string) (source : AccordRootSource)
| Unnamed (namespace : string)
| Disagrees (envelope_root attested_key : string).

Definition ACCORD_FAMILY_PREFIX := "accord:".

Definition is_accord_family (ty : string) (dimension : option string) : bool :=
  starts_with ACCORD_FAMILY_PREFIX ty || is_some_and dimension (starts_with ACCORD_FAMILY_PREFIX).

(** [.filter(|s| !s.trim().is_empty())]. *)
Definition non_blank (o : option string) : option string :=
  s ← o; if trim s =s "" then None else Some s.

Definition accord_root_claim (row : Attestation) : AccordRootClaim :=
  let dimension := envelope_dimension (attestation_envelope row) in
  let ty := Json.attestation_type row in
  if negb (is_accord_family ty dimension) then NotAccord
  else
    let namespace := if starts_with ACCORD_FAMILY_PREFIX ty then ty else default "" dimension in
    let envelope_root := non_blank (get_str (attestation_envelope row) "accord_root") in
    let heartbeat_root := non_blank
      (if (ty =s attestation_type.SCORES) && bool_decide (dimension = Some ACCORD_HEARTBEAT_DIMENSION)
       then Some (attested_key_id row) else None) in
    match envelope_root, heartbeat_root with
    | Some env, Some row_root =>
        if env <>s row_root then Disagrees env row_root else Named env SignedEnvelopeKey
    | Some env, None => Named env SignedEnvelopeKey
    | None, Some row_root => Named row_root HeartbeatDimensionRule
    | None, None => Unnamed namespace
    end.

Inductive AccordRootRefusal :=
| AccordRootUnnamed (attestation_id namespace : string)
| AccordRootDisagrees (attestation_id envelope_root attested_key : string).

Definition check_accord_root_binding (row : Attestation) : AccordRootRefusal + unit :=
  match accord_root_claim row with
  | NotAccord | Named _ _ => inr tt
  | Unnamed ns => inl (AccordRootUnnamed (attestation_id row) ns)
  | Disagrees e a => inl (AccordRootDisagrees (attestation_id row) e a)
  end.

Record RelayVerdict := mk_RelayVerdict {
  roster_resolvable : bool;
  signer_seated : bool;
  relay_edge_exists : bool;
}.

Definition UNJUDGEABLE : RelayVerdict := mk_RelayVerdict false false false.

Definition may_relay (v : RelayVerdict) : bool :=
  roster_resolvable v && signer_seated v && relay_edge_exists v.

Inductive RelayRefusal := RosterUnresolvable | SignerNotSeated | NoEdgeToRoot.

Definition refusal_reason (v : RelayVerdict) : option RelayRefusal :=
  if negb (roster_resolvable v) then Some RosterUnresolvable
  else if negb (signer_seated v) then Some SignerNotSeated
  else if negb (relay_edge_exists v) then Some NoEdgeToRoot
  else None.

Definition active_roster_of (now : instant) (root_ref : string) : Error + option (list string) :=
  fam ← lookup_family dir root_ref;
  match fam with
  | None => inr None
  | Some _ =>
      members ← active_family_members dir now root_ref;
      inr (Some (map fm_key_id members))
  end.

Definition may_relay_accord_object (now : instant) (self signer root_ref : string) : Error + RelayVerdict :=
  roster ← active_roster_of now root_ref;
  v ← trust_root_valid now self root_ref;
  inr (mk_RelayVerdict (is_some roster) (is_some_and roster (fun r => contains r signer)) (edge_exists v)).

Definition may_relay_accord_attestation (now : instant) (self : string) (a : Attestation) : Error + RelayVerdict :=
  if negb (check_row_column_binding a) then inr UNJUDGEABLE
  else match accord_root_claim a with
       | Named root_ref _ => may_relay_accord_object now self (attesting_key_id a) root_ref
       | _ => inr UNJUDGEABLE
       end.
End Walks.
