(* ===== verification/Pressure.v ===== *)
(** * Disk pressure, cache presets and the replication knobs

    [src/src/federation/replication/]: [disk_pressure.rs] (the tiers of free bytes, the
    snapshot the gates read, the monitor), [cache_mode.rs] (the presets and the byte sizes an
    operator writes), and the configuration of [mod.rs]. The environment is a function from
    names to values, a reading of the disk an argument. *)

From Stdlib Require Import ZArith NArith Lia Ascii String.
From Stdlib Require SpecFloat.
From stdpp Require Import base list strings.
From S2P Require Import Prelude RustStd Json Matcher TrustRoot.

Open Scope string_scope.
Open Scope list_scope.
Open Scope persist_scope.

Definition MIB : N := 1024 * 1024.
Definition GIB : N := 1024 * 1024 * 1024.
Definition u64_max_bytes : N := 2 ^ 64 - 1.

(** ** Pressure tiers *)

Inductive PressureTier := Normal | Warn | Crit | Stop | HostAtRisk.

#[export] Instance PressureTier_eq_dec : EqDecision PressureTier.
Proof. solve_decision. Defined.

(** The derived order follows declaration. *)
Definition severity (t : PressureTier) : N :=
  match t with Normal => 0 | Warn => 1 | Crit => 2 | Stop => 3 | HostAtRisk => 4 end.
Definition at_least (t u : PressureTier) : bool := (severity u <=? severity t)%N.

Definition refuses_proxy_writes (t : PressureTier) : bool := at_least t Stop.
Definition refuses_proxy_serves (t : PressureTier) : bool := at_least t Stop.
Definition force_evicts_proxy (t : PressureTier) : bool := at_least t Crit.

Inductive TrustTier := Local | Family | Federation.
Inductive PressureAction := LogOnly | RejectProxyWrites | RejectProxyAll | ForceEvictProxy | All.

(** [DiskPressureConfig]; the monitored path only names the reading. *)
Record DiskPressureConfig := mk_pressure_config {
  warn_free_bytes : N;
  crit_free_bytes : N;
  stop_free_bytes : N;
  host_at_risk_bytes : N;
  poll_interval : N;
  warn_action : PressureAction;
  crit_action : PressureAction;
  stop_action : PressureAction;
  host_at_risk_action : PressureAction;
  is_family : option (string -> bool);
}.

(** [DiskPressureConfig::default]; durations in seconds. *)
Definition default_pressure_config : DiskPressureConfig :=
  mk_pressure_config (2 * GIB) GIB (500 * MIB) (200 * MIB) 30
    LogOnly ForceEvictProxy RejectProxyAll All None.

Definition MIN_POLL_INTERVAL : N := 5.
Definition effective_poll_interval (cfg : DiskPressureConfig) : N :=
  N.max (poll_interval cfg) MIN_POLL_INTERVAL.

Definition is_local_or_family (cfg : DiskPressureConfig) (key_id local_key_id : string) : bool :=
  if key_id =s local_key_id then true
  else match is_family cfg with Some pred => pred key_id | None => false end.

Definition trust_tier_of (cfg : DiskPressureConfig) (attesting_key_id local_key_id : string)
    : TrustTier :=
  if attesting_key_id =s local_key_id then Local
  else if match is_family cfg with Some p => p attesting_key_id | None => false end then Family
  else Federation.

Definition classify_free_bytes (free_bytes : N) (cfg : DiskPressureConfig) : PressureTier :=
  if (free_bytes <=? host_at_risk_bytes cfg)%N then HostAtRisk
  else if (free_bytes <=? stop_free_bytes cfg)%N then Stop
  else if (free_bytes <=? crit_free_bytes cfg)%N then Crit
  else if (free_bytes <=? warn_free_bytes cfg)%N then Warn
  else Normal.

Record DiskPressureSnapshot := mk_snapshot {
  free_bytes : N;
  snap_tier : PressureTier;
  snap_refuses_writes : bool;
  snap_refuses_serves : bool;
  snap_force_evicts : bool;
}.

Definition from_free_bytes (free : N) (cfg : DiskPressureConfig) : DiskPressureSnapshot :=
  let t := classify_free_bytes free cfg in
  mk_snapshot free t (refuses_proxy_writes t) (refuses_proxy_serves t) (force_evicts_proxy t).

(** [DiskPressureSnapshot::normal]. *)
Definition normal_snapshot : DiskPressureSnapshot :=
  mk_snapshot u64_max_bytes Normal false false false.

(** [DiskPressureMonitor::poll_once]: the state is the last snapshot, a failed reading is
    [None]. Both branches of the source send the new snapshot; they differ in what they log. *)
Definition poll_once (cfg : DiskPressureConfig) (prev : DiskPressureSnapshot) (reading : option N)
    : DiskPressureSnapshot :=
  match reading with
  | None => prev
  | Some free => from_free_bytes free cfg
  end.

(** [DiskPressureMonitor::action_for]. *)
Definition action_for (cfg : DiskPressureConfig) (t : PressureTier) : PressureAction :=
  match t with
  | Normal => LogOnly
  | Warn => warn_action cfg
  | Crit => crit_action cfg
  | Stop => stop_action cfg
  | HostAtRisk => host_at_risk_action cfg
  end.

(** ** Sizes as an operator writes them *)

Definition is_digit (c : ascii) : bool := (48 <=? N_of_ascii c)%N && (N_of_ascii c <=? 57)%N.
Definition is_number_byte (c : ascii) : bool := is_digit c || Ascii.eqb c "."%char.

(** [s.find(|c| !(c.is_ascii_digit() || c == '.'))] and [split_at]. *)
Fixpoint split_number (s : string) : string * string :=
  match s with
  | EmptyString => ("", "")
  | String c s' =>
      if is_number_byte c then let '(n, u) := split_number s' in (String c n, u) else ("", s)
  end.

(** [str::parse::<f64>] on digits and dots: at most one dot and at least one digit; the
    nearest float to the decimal. *)
Definition digits_or_empty (s : string) : option N :=
  if s =s "" then Some 0%N else parse_digits s.
Definition ratio (m d : N) : F64.t :=
  match m, d with
  | Npos m, Npos d => SpecFloat.SFdiv F64.prec F64.emax (SpecFloat.S754_finite false m 0)
                                      (SpecFloat.S754_finite false d 0)
  | _, _ => F64.zero
  end.
Definition parse_f64 (s : string) : option F64.t :=
  match split_on "."%char s with
  | [whole] => n ← parse_digits whole; Some (ratio n 1)
  | [whole; frac] =>
      if (whole =s "") && (frac =s "") then None
      else w ← digits_or_empty whole; f ← digits_or_empty frac;
           let scale := (10 ^ N.of_nat (String.length frac))%N in
           Some (ratio (w * scale + f) scale)
  | _ => None
  end.

Inductive ByteParseError := Empty | NoNumber | NotANumber | NotFinite | UnknownUnit.

Definition unit_multiplier (u : string) : option N :=
  if (u =s "") || (u =s "b") then Some 1%N
  else if u =s "kb" then Some (10 ^ 3)%N
  else if u =s "mb" then Some (10 ^ 6)%N
  else if u =s "gb" then Some (10 ^ 9)%N
  else if u =s "tb" then Some (10 ^ 12)%N
  else if u =s "pb" then Some (10 ^ 15)%N
  else if u =s "kib" then Some (2 ^ 10)%N
  else if u =s "mib" then Some (2 ^ 20)%N
  else if u =s "gib" then Some (2 ^ 30)%N
  else if u =s "tib" then Some (2 ^ 40)%N
  else if u =s "pib" then Some (2 ^ 50)%N
  else None.

Definition parse_human_bytes (input : string) : ByteParseError + N :=
  let s := trim input in
  if s =s "" then inl Empty
  else
  let '(num_part, unit_part) := split_number s in
  let num_part := trim num_part in
  let unit := ascii_lower (trim unit_part) in
  if num_part =s "" then inl NoNumber
  else match parse_f64 num_part with
  | None => inl NotANumber
  | Some value =>
      if F64.ltb value F64.zero || negb (F64.is_finite value) then inl NotFinite
      else match unit_multiplier unit with
      | None => inl UnknownUnit
      | Some multiplier =>
          let bytes := F64.mul value (F64.of_N multiplier) in
          inr (if F64.leb (F64.of_N u64_max_bytes) bytes then u64_max_bytes else F64.to_u64 bytes)
      end
  end.

Definition env := string -> option string.

(** [std::env::var(name).ok().and_then(|v| parse_human_bytes(&v).ok())]. *)
Definition bytes_env (e : env) (name : string) : option N :=
  v ← e name; match parse_human_bytes v with inr n => Some n | inl _ => None end.

(** [DiskPressureConfig::with_env_overrides]. *)
Definition with_env_overrides (e : env) (cfg : DiskPressureConfig) : DiskPressureConfig :=
  mk_pressure_config
    (default (warn_free_bytes cfg) (bytes_env e "CIRIS_PERSIST_DISK_WARN_BYTES"))
    (default (crit_free_bytes cfg) (bytes_env e "CIRIS_PERSIST_DISK_CRIT_BYTES"))
    (default (stop_free_bytes cfg) (bytes_env e "CIRIS_PERSIST_DISK_STOP_BYTES"))
    (default (host_at_risk_bytes cfg) (bytes_env e "CIRIS_PERSIST_DISK_HOST_AT_RISK_BYTES"))
    (default (poll_interval cfg) (v ← e "CIRIS_PERSIST_DISK_POLL_INTERVAL"; parse_u64 (trim v)))
    (warn_action cfg) (crit_action cfg) (stop_action cfg) (host_at_risk_action cfg) (is_family cfg).

(** ** The replication knobs *)

Record ReplicationConfig := mk_replication_config {
  trust_threshold : F64.t;
  storage_budget_bytes : N;
  steady_state_utilization : F64.t;
  eviction_decay_half_life_days : F64.t;
  sweep_interval : N;
}.

Definition f64_92 : F64.t := ratio 92 100.
Definition f64_half : F64.t := ratio 1 2.

(** [ReplicationConfig::default]. *)
Definition default_replication_config : ReplicationConfig :=
  mk_replication_config F64.zero u64_max_bytes f64_92 (F64.of_N 30) 60.

Definition sweeper_active (c : ReplicationConfig) : bool :=
  negb (storage_budget_bytes c =? u64_max_bytes)%N.

Definition watermark_bytes (c : ReplicationConfig) : N :=
  if negb (sweeper_active c) then u64_max_bytes
  else
  let raw := F64.mul (F64.of_N (storage_budget_bytes c)) (steady_state_utilization c) in
  if F64.leb raw F64.zero then 0%N
  else if F64.leb (F64.of_N (storage_budget_bytes c)) raw then storage_budget_bytes c
  else F64.to_u64 raw.

(** ** Cache presets *)

Definition PROXY_DEFAULT_CACHE_BYTES : N := 100 * MIB.
Definition PROXY_DEFAULT_TTL_SECONDS : N := 60.
Definition CACHE_DEFAULT_CACHE_BYTES : N := 10 * GIB.

Inductive CacheMode :=
| Proxy (max_cache_bytes cache_ttl_seconds : N)
| CacheOf (max_cache_bytes : N)
| Server.

Definition budget_bytes (m : CacheMode) : N :=
  match m with Proxy b _ => b | CacheOf b => b | Server => u64_max_bytes end.
Definition mode_label (m : CacheMode) : string :=
  match m with Proxy _ _ => "proxy" | CacheOf _ => "cache" | Server => "server" end.
Definition mode_from_label (label : string) : option CacheMode :=
  let l := ascii_lower (trim label) in
  if l =s "proxy" then Some (Proxy PROXY_DEFAULT_CACHE_BYTES PROXY_DEFAULT_TTL_SECONDS)
  else if l =s "cache" then Some (CacheOf CACHE_DEFAULT_CACHE_BYTES)
  else if l =s "server" then Some Server
  else None.
Definition with_budget_bytes (m : CacheMode) (bytes : N) : CacheMode :=
  match m with Proxy _ ttl => Proxy bytes ttl | CacheOf _ => CacheOf bytes | Server => Server end.

Definition apply_to (m : CacheMode) (base : ReplicationConfig) : ReplicationConfig :=
  match m with
  | Proxy max_cache_bytes ttl =>
      mk_replication_config (trust_threshold base) max_cache_bytes f64_half f64_half
        (N.min (N.max ttl 1) 30)
  | CacheOf max_cache_bytes =>
      mk_replication_config (trust_threshold base) max_cache_bytes f64_92 (F64.of_N 30) 60
  | Server =>
      mk_replication_config (trust_threshold base) u64_max_bytes f64_92 (F64.of_N 90) 300
  end.

(** [CacheMode::from_env]. *)
Definition from_env (e : env) : option CacheMode :=
  let mode_var := e "CIRIS_PERSIST_CACHE_MODE" in
  let bytes_var := e "CIRIS_PERSIST_CACHE_BYTES" in
  let ttl_var := e "CIRIS_PERSIST_CACHE_TTL_SECONDS" in
  if negb (is_some mode_var) && negb (is_some bytes_var) && negb (is_some ttl_var) then None
  else
  let label := match mode_var, bytes_var with
               | Some m, _ => m | None, Some _ => "cache" | None, None => "server" end in
  mode ← mode_from_label label;
  let mode := match (s ← ttl_var; parse_u32 (trim s)) with
              | Some ttl => match mode with Proxy b _ => Proxy b ttl | _ => mode end
              | None => mode
              end in
  Some (match bytes_env (fun _ => bytes_var) "" with
        | Some bytes => with_budget_bytes mode bytes
        | None => mode
        end).

Example ten_gib : parse_human_bytes " 10 GiB" = inr (10 * GIB)%N.
Proof. vm_compute. reflexivity. Qed.
Example one_and_a_half : parse_human_bytes "1.5gb" = inr 1500000000%N.
Proof. vm_compute. reflexivity. Qed.
Example two_dots : parse_human_bytes "1.2.3mb" = inl NotANumber.
Proof. vm_compute. reflexivity. Qed.
Example no_end : parse_human_bytes "99999999pib" = inr u64_max_bytes.
Proof. vm_compute. reflexivity. Qed.
Example percent : parse_human_bytes "92 %" = inl UnknownUnit.
Proof. vm_compute. reflexivity. Qed.
Example default_watermark :
  watermark_bytes (mk_replication_config F64.zero 1000000 f64_92 (F64.of_N 30) 60) = 920000%N.
Proof. vm_compute. reflexivity. Qed.
