(* ===== verification/PressureFacts.v ===== *)
(** * What the pressure tiers, the watermark and the byte sizes promise

    Theorems on [Pressure], on the rounding of [F64Facts]. *)

From Stdlib Require Import ZArith NArith Lia Ascii String DecimalString Reals Lra.
From Stdlib Require SpecFloat.
From stdpp Require Import base list strings.
From S2P Require Import Prelude RustStd Json F64Facts Matcher TrustRoot Pressure.

Open Scope string_scope.
Open Scope list_scope.
Open Scope persist_scope.

(** ** Tiers *)

(** The largest threshold of a tier or of a tighter one. *)
Definition reach (cfg : DiskPressureConfig) (t : PressureTier) : N :=
  match t with
  | Normal => u64_max_bytes
  | Warn => N.max (warn_free_bytes cfg) (N.max (crit_free_bytes cfg)
              (N.max (stop_free_bytes cfg) (host_at_risk_bytes cfg)))
  | Crit => N.max (crit_free_bytes cfg) (N.max (stop_free_bytes cfg) (host_at_risk_bytes cfg))
  | Stop => N.max (stop_free_bytes cfg) (host_at_risk_bytes cfg)
  | HostAtRisk => host_at_risk_bytes cfg
  end.

Lemma at_least_reach cfg free t :
  (free <= u64_max_bytes)%N ->
  at_least (classify_free_bytes free cfg) t = (free <=? reach cfg t)%N.
Proof.
  intros Hf. unfold classify_free_bytes, at_least, reach.
  destruct (N.leb_spec free (host_at_risk_bytes cfg)), (N.leb_spec free (stop_free_bytes cfg)),
    (N.leb_spec free (crit_free_bytes cfg)), (N.leb_spec free (warn_free_bytes cfg)), t; simpl;
    symmetry; first [apply N.leb_le; lia | apply N.leb_gt; lia].
Qed.

(** What a node refuses is a matter of its free bytes alone, even when the thresholds are out
    of order: it refuses proxy writes and serves exactly at or below the stop or host-at-risk
    threshold, evicts proxy content exactly at or below those or the crit threshold, and with
    less space it never refuses less. *)
Theorem pressure_exact (cfg : DiskPressureConfig) (free free' : N)
    (Hfree : (free <= u64_max_bytes)%N) (Hless : (free' <= free)%N) :
  let snap := from_free_bytes free cfg in
  snap_refuses_writes snap
    = (free <=? N.max (stop_free_bytes cfg) (host_at_risk_bytes cfg))%N
  /\ snap_refuses_serves snap = snap_refuses_writes snap
  /\ snap_force_evicts snap
    = (free <=? N.max (crit_free_bytes cfg) (N.max (stop_free_bytes cfg) (host_at_risk_bytes cfg)))%N
  /\ at_least (snap_tier (from_free_bytes free' cfg)) (snap_tier snap) = true.
Proof.
  unfold from_free_bytes. cbv zeta. cbn [snap_tier snap_refuses_writes snap_refuses_serves snap_force_evicts].
  split_and!; [by apply at_least_reach|done|by apply at_least_reach|]. rewrite at_least_reach by lia.
  assert (Ht : (free <= reach cfg (classify_free_bytes free cfg))%N).
  { apply N.leb_le. rewrite <- at_least_reach by done. unfold at_least. apply N.leb_refl. }
  apply N.leb_le. lia.
Qed.

(** The last reading of a run that succeeded. *)
Definition last_reading (readings : list (option N)) : option N :=
  fold_left (fun acc r => match r with Some n => Some n | None => acc end) readings None.

(** After any run of polls the snapshot is that of the last reading that succeeded: a failed
    reading neither raises nor clears the protection. *)
Theorem monitor_follows_readings (cfg : DiskPressureConfig) (readings : list (option N)) :
  fold_left (poll_once cfg) readings normal_snapshot
  = match last_reading readings with
    | Some free => from_free_bytes free cfg
    | None => normal_snapshot
    end.
Proof.
  unfold last_reading.
  assert (H : forall acc snap, snap = match acc with Some f => from_free_bytes f cfg | None => normal_snapshot end ->
    fold_left (poll_once cfg) readings snap =
    match fold_left (fun acc r => match r with Some n => Some n | None => acc end) readings acc with
    | Some f => from_free_bytes f cfg | None => normal_snapshot end); [|by apply H].
  induction readings as [|r rs IH]; intros acc snap Hs; [done|]. simpl. apply IH.
  by destruct r.
Qed.

(** ** The watermark *)

Lemma mul_negative x m e :
  nonneg x = true -> let r := F64.mul x (SpecFloat.S754_finite true m e) in
  F64.leb r F64.zero = true \/ r = SpecFloat.S754_nan.
Proof.
  intros Hx. destruct x as [sx| | |[] mx ex]; try discriminate Hx; unfold F64.mul, SpecFloat.SFmul.
  - left. by destruct sx.
  - simpl xorb. unfold SpecFloat.binary_round_aux.
    destruct (SpecFloat.shr_fexp _ _ _ _ _) as [mrs e1].
    destruct (SpecFloat.shr_fexp _ _ _ e1 _) as [mrs2 e2].
    destruct (SpecFloat.shr_m mrs2); [by left| |by right]. destruct (_ <=? _)%Z; by left.
Qed.

Lemma to_u64_nan_neg x : F64.leb x F64.zero = false -> (x = SpecFloat.S754_nan \/ x = SpecFloat.S754_infinity false
  \/ exists m e, x = SpecFloat.S754_finite false m e).
Proof. destruct x as [[]|[]| |[] m e]; simpl; try done; eauto. Qed.

(** The watermark a sweep drives usage down to never exceeds the budget, whatever the
    utilization says: a fraction above one, a negative one, an infinity or no number. *)
Theorem watermark_bounded (c : ReplicationConfig)
    (Hbudget : (storage_budget_bytes c <= u64_max_bytes)%N)
    (Hutil : valid64 (steady_state_utilization c)) :
  (watermark_bytes c <= storage_budget_bytes c)%N.
Proof.
  unfold watermark_bytes. destruct (sweeper_active c) eqn:Ea; simpl negb; cbv iota.
  2: { unfold sweeper_active in Ea. breflect. lia. }
  set (b := storage_budget_bytes c) in *. set (u := steady_state_utilization c) in *.
  destruct (F64.leb (F64.mul (F64.of_N b) u) F64.zero) eqn:E0; [lia|].
  destruct (F64.leb (F64.of_N b) (F64.mul (F64.of_N b) u)) eqn:E1; [lia|].
  assert (Hb : rounds (IZR (Z.of_N b)) (F64.of_N b)) by apply of_N_rounds.
  assert (Hcap : exists c, amount c /\ (IZR (Z.of_N b) <= val c)%R).
  { exists (F64.of_N (2 ^ 64)). split; [split; reflexivity|].
    replace (val (F64.of_N (2 ^ 64))) with (IZR (2 ^ 64)); [apply IZR_le; unfold u64_max_bytes in Hbudget; lia|].
    change (F64.of_N (2 ^ 64)) with (SpecFloat.S754_finite false 4503599627370496 12).
    unfold val. rewrite bpow_Z, Rmult_1_l, <- mult_IZR by done. f_equal. }
  destruct Hcap as (cap & Hcap & Hle). destruct (rounds_finite _ _ _ Hb Hcap Hle) as [Hamt _].
  assert (Hraw : amount (F64.mul (F64.of_N b) u) \/ F64.to_u64 (F64.mul (F64.of_N b) u) = 0%N).
  { destruct (nonneg u) eqn:Nu.
    - destruct (mul_rounds _ _ Hamt (conj Hutil Nu)) as (Hv & [Hn|Hinf] & _); [by left|].
      exfalso. rewrite Hinf in E1. destruct Hamt as [_ Hn]. by destruct (F64.of_N b) as [| | |[] ? ?].
    - right. destruct u as [|[]| |[] m e]; try discriminate Nu;
        try (destruct Hamt as [_ Hn]; destruct (F64.of_N b) as [| | |[] ? ?];
             try discriminate; reflexivity).
      + destruct (mul_negative (F64.of_N b) m e (proj2 Hamt)) as [H|H]; simpl in H.
        * congruence.
        * by rewrite H. }
  destruct Hraw as [Hraw|Hraw]; [|lia].
  destruct (N.le_gt_cases (F64.to_u64 (F64.mul (F64.of_N b) u)) b) as [|L]; [done|exfalso].
  pose proof (to_u64_floor _ Hraw) as Hf.
  assert (HV : (IZR (Z.of_N b) <= val (F64.mul (F64.of_N b) u))%R).
  { etrans; [|exact Hf]. apply IZR_le. lia. }
  destruct Hb as (_ & _ & Hm). destruct (proj2 (Hm _ Hraw) HV) as [H _]. congruence.
Qed.

(** ** Sizes *)

Fixpoint all_bytes (P : ascii -> bool) (s : string) : bool :=
  match s with EmptyString => true | String c s' => P c && all_bytes P s' end.
(** Printable ASCII without the space. *)
Definition visible (c : ascii) : bool := (33 <=? N_of_ascii c)%N && (N_of_ascii c <=? 126)%N.

Lemma all_bytes_app P a b : all_bytes P (a +:+ b) = all_bytes P a && all_bytes P b.
Proof. induction a as [|c a IH]; [done|]. simpl. by rewrite IH, andb_assoc. Qed.

Lemma all_bytes_weaken (P Q : ascii -> bool) s :
  (forall c, P c = true -> Q c = true) -> all_bytes P s = true -> all_bytes Q s = true.
Proof.
  intros H. induction s as [|c s IH]; [done|]. simpl. rewrite !andb_true_iff. intros [? ?]. auto.
Qed.

Lemma no_strip_prefix P c s : all_bytes P c = false -> all_bytes P s = true -> strip_prefix c s = None.
Proof.
  intros Hc Hs. destruct (strip_prefix c s) as [r|] eqn:E; [|done].
  apply strip_prefix_Some in E. rewrite E, all_bytes_app, Hc in Hs. discriminate.
Qed.

Lemma substring_split s : forall n m, n + m = String.length s ->
  String.substring 0 n s +:+ String.substring n m s = s.
Proof.
  induction s as [|c s IH]; intros n m H; simpl in H.
  - by destruct n, m.
  - destruct n as [|n]; simpl.
    + destruct m as [|m]; [done|]. rewrite app_nil_l'. f_equal. injection H as ->.
      pose proof (IH 0 (String.length s) eq_refl) as E. destruct s; [done|]. by rewrite app_nil_l' in E.
    + rewrite app_cons. f_equal. apply IH. lia.
Qed.

Lemma strip_suffix_Some p s r : strip_suffix p s = Some r -> s = r +:+ p.
Proof.
  unfold strip_suffix. case_if; [|done]. intros [= <-]. breflect.
  destruct Heqb as [Hl Hp]. apply Nat.leb_le in Hl. rewrite <- Hp at 2.
  by rewrite substring_split by lia.
Qed.

Lemma no_strip_suffix P c s : all_bytes P c = false -> all_bytes P s = true -> strip_suffix c s = None.
Proof.
  intros Hc Hs. destruct (strip_suffix c s) as [r|] eqn:E; [|done].
  apply strip_suffix_Some in E. rewrite E, all_bytes_app, Hc, andb_false_r in Hs. discriminate.
Qed.

Lemma strip_all_none strip fuel s : strip s = None -> strip_all strip fuel s = s.
Proof. intros H. destruct fuel; simpl; [done|]. by rewrite H. Qed.

Lemma first_some_none {A B} (f : A -> option B) l : (forall x, In x l -> f x = None) -> first_some f l = None.
Proof.
  induction l as [|x l IH]; intros H; [done|]. simpl. rewrite (H x) by (by left).
  apply IH. intros; apply H; by right.
Qed.

(** Visible text has nothing to trim. *)
Lemma trim_visible s : all_bytes visible s = true -> trim s = s.
Proof.
  intros Hs. assert (Hw : forall c, In c WHITE_SPACE -> all_bytes visible c = false).
  { assert (H : forallb (fun c => negb (all_bytes visible c)) WHITE_SPACE = true) by (vm_compute; reflexivity).
    rewrite forallb_forall in H. intros c Hc. apply negb_true_iff. by apply H. }
  unfold trim, trim_matches.
  rewrite (strip_all_none (fun s => first_some (fun c => strip_prefix c s) WHITE_SPACE)).
  - apply strip_all_none. apply first_some_none. intros c Hc. apply (no_strip_suffix visible); auto.
  - apply first_some_none. intros c Hc. apply (no_strip_prefix visible); auto.
Qed.

Lemma string_of_uint_digits u : all_bytes is_digit (NilEmpty.string_of_uint u) = true.
Proof. by induction u. Qed.

Lemma fmt_digits n : all_bytes is_digit (fmt_N n) = true.
Proof. apply string_of_uint_digits. Qed.

Lemma digit_visible c : is_digit c = true -> visible c = true.
Proof. unfold is_digit, visible. breflect. lia. Qed.

Lemma split_number_digits s u :
  all_bytes is_digit s = true ->
  (forall c u', u = String c u' -> is_number_byte c = false) ->
  split_number (s +:+ u) = (s, u).
Proof.
  intros Hs Hu. induction s as [|c s IH]; simpl in *.
  - destruct u as [|c u']; [done|]. simpl. by rewrite (Hu c u').
  - apply andb_true_iff in Hs as [Hc Hs]. unfold is_number_byte at 1. rewrite Hc. simpl. by rewrite IH.
Qed.

Lemma split_on_none c s : has_byte c s = false -> split_on c s = [s].
Proof.
  induction s as [|a s IH]; [done|]. simpl. intros H. apply orb_false_iff in H as [Ha Hs].
  rewrite Ha, IH by done. done.
Qed.

Lemma ratio_one n : (Z.of_N n <= 2 ^ 53)%Z -> amount (ratio n 1) /\ val (ratio n 1) = IZR (Z.of_N n).
Proof.
  intros Hn. destruct n as [|p]; [done|]. apply rounds_whole; [|lia]. unfold ratio.
  pose proof (div_ratio p 0 1 0) as H.
  replace (val (SpecFloat.S754_finite false p 0) / val (SpecFloat.S754_finite false 1 0))%R
    with (IZR (Z.of_N (Npos p))) in H; [exact H|].
  unfold val. change (bpow 0) with 1%R. simpl Z.of_N. field.
Qed.

(** The units, as an operator writes them. *)
Definition UNITS : list (string * N) :=
  [("", 1); ("B", 1); ("KB", 10 ^ 3); ("MB", 10 ^ 6); ("GB", 10 ^ 9); ("TB", 10 ^ 12); ("PB", 10 ^ 15);
   ("KiB", 2 ^ 10); ("MiB", 2 ^ 20); ("GiB", 2 ^ 30); ("TiB", 2 ^ 40); ("PiB", 2 ^ 50)]%N.

(** A whole number and a unit are read exactly, in SI units as powers of ten and in IEC units
    as powers of two, up to [2^53] bytes. *)
Theorem human_bytes_exact (n : N) (u : string) (k : N)
    (Hunit : In (u, k) UNITS) (Hsize : (n * k <= 2 ^ 53)%N) :
  parse_human_bytes (fmt_N n +:+ u) = inr (n * k)%N.
Proof.
  assert (Hu : all_bytes visible u = true /\ (forall c u', u = String c u' -> is_number_byte c = false)
               /\ unit_multiplier (ascii_lower (trim u)) = Some k /\ (1 <= k <= 2 ^ 50)%N).
  { revert Hunit. unfold UNITS. simpl In. clear Hsize.
    intros Hunit; repeat (destruct Hunit as [[= <- <-]|Hunit]; [|]); try done;
      (split_and!; [reflexivity|intros ? ? [= <- <-]; reflexivity || done|vm_compute; reflexivity|lia|done]). }
  destruct Hu as (Hvis & Hhead & Hmul & Hk).
  pose proof (fmt_digits n) as Hd.
  assert (Hdv : all_bytes visible (fmt_N n) = true) by (eapply all_bytes_weaken; [apply digit_visible|done]).
  unfold parse_human_bytes. rewrite trim_visible by (by rewrite all_bytes_app, Hdv, Hvis).
  pose proof (fmt_N_nonempty n) as Hne.
  destruct (String.eqb_spec (fmt_N n +:+ u) "") as [E|_]; [by destruct (fmt_N n)|].
  rewrite (split_number_digits _ _ Hd Hhead), (trim_visible (fmt_N n)), Hmul by done.
  destruct (String.eqb_spec (fmt_N n) "") as [|_]; [done|].
  assert (Hp : parse_f64 (fmt_N n) = Some (ratio n 1)).
  { unfold parse_f64. rewrite split_on_none by (apply fmt_N_byte; left; vm_compute; reflexivity).
    by rewrite parse_digits_fmt. }
  rewrite Hp. assert (Hn : (Z.of_N n <= 2 ^ 53)%Z) by nia.
  destruct (ratio_one n Hn) as [Ha Hv]. destruct (of_N_whole k ltac:(lia)) as [Hka Hkv].
  rewrite (ltb_leb (ratio n 1) F64.zero Ha (amount_zero false)).
  assert (Hle : F64.leb F64.zero (ratio n 1) = true).
  { apply leb_val; [done..|]. rewrite Hv. apply (IZR_le 0). lia. }
  rewrite Hle. assert (Hfin : F64.is_finite (ratio n 1) = true).
  { destruct Ha as [_ Hnn]. by destruct (ratio n 1) as [| | |[] ? ?]. }
  rewrite Hfin. cbn [negb orb].
  destruct (rounds_whole (Z.of_N (n * k)) (F64.mul (ratio n 1) (F64.of_N k))) as [Hma Hmv]; [|lia|].
  { rewrite N2Z.inj_mul, mult_IZR, <- Hv, <- Hkv. by apply mul_rounds. }
  assert (Hcap : F64.leb (F64.of_N u64_max_bytes) (F64.mul (ratio n 1) (F64.of_N k)) = false).
  { assert (Hc : amount (F64.of_N u64_max_bytes)) by (split; reflexivity).
    destruct (F64.leb (F64.of_N u64_max_bytes) (F64.mul (ratio n 1) (F64.of_N k))) eqn:E; [|done]. apply (leb_val _ _ Hc Hma) in E. rewrite Hmv in E.
    change (F64.of_N u64_max_bytes) with (SpecFloat.S754_finite false 4503599627370496 12) in E.
    unfold val in E. rewrite bpow_Z, Rmult_1_l, <- mult_IZR in E by done. apply le_IZR in E. lia. }
  rewrite Hcap. f_equal. apply to_u64_whole; [done|done|lia].
Qed.

Lemma human_bytes_exact_witness :
  In ("GiB", 2 ^ 30)%N UNITS /\ (10 * 2 ^ 30 <= 2 ^ 53)%N
  /\ parse_human_bytes (fmt_N 10 +:+ "GiB") = inr (10 * 2 ^ 30)%N.
Proof.
  split_and!; [simpl; tauto|by vm_compute|]. apply human_bytes_exact; [simpl; tauto|by vm_compute].
Defined.

Lemma watermark_bounded_witness :
  watermark_bytes (mk_replication_config F64.zero 1000000 f64_92 (F64.of_N 30) 60) = 920000%N /\
  (watermark_bytes (mk_replication_config F64.zero 1000000 f64_92 (F64.of_N 30) 60) <= 1000000)%N.
Proof.
  split; [vm_compute; reflexivity|].
  apply (watermark_bounded (mk_replication_config F64.zero 1000000 f64_92 (F64.of_N 30) 60)); [done|reflexivity].
Defined.

Lemma pressure_exact_witness :
  let snap := from_free_bytes (400 * MIB) default_pressure_config in
  snap_refuses_writes snap = true /\
  at_least (snap_tier (from_free_bytes (100 * MIB) default_pressure_config)) (snap_tier snap) = true.
Proof.
  split; [vm_compute; reflexivity|].
  apply (pressure_exact default_pressure_config (400 * MIB) (100 * MIB)); by vm_compute.
Defined.
