(* ===== verification/Sweep.v ===== *)
(** * The capacity sweep

    One cycle of the blob sweeper: [Engine::sweep_evictions_once_inner] of [engine.rs], the
    decay score and the records of [federation/replication/eviction.rs], the proxy test of
    [hold.rs], the installed storage budgets of [fountain/storage_contention.rs], and the
    statements over the blob tables of [store/sqlite.rs]. Statements are taken to succeed. *)

From Stdlib Require Import ZArith NArith Lia.
From stdpp Require Import base list strings gmap.
From S2P Require Import Prelude RustStd Json F64Facts TrustRoot Pressure.

Open Scope string_scope.
Open Scope list_scope.
Open Scope persist_scope.

(** [u64::saturating_add]; [saturating_sub] is subtraction on [N]. *)
Definition saturating_add (a b : N) : N := N.min (a + b) u64_max_bytes.

(** ** The decay score *)

(** [f64::powf]; what is used of it is that a power of one half with an exponent that is not
    negative is finite and not negative. *)
Definition ordered (x : F64.t) : Prop := amount x \/ x = SpecFloat.S754_infinity false.
Class Powf := {
  powf : F64.t -> F64.t -> F64.t;
  powf_half : forall x, ordered x -> amount (powf f64_half x);
}.

(** [f64::EPSILON], 2^-52. *)
Definition F64_EPSILON : F64.t := ratio 1 (2 ^ 52).

Record EvictionCandidate := mk_candidate {
  sha256 : string;
  size_bytes : N;
  access_count : N;
  last_accessed_at : instant;
  author_key_id : option string;
  media_type : option string;
}.

Section Decay.
Context `{Powf}.

(** [EvictionDecay::new]: the half-life it keeps. *)
Definition new_decay (half_life_days : F64.t) : F64.t :=
  if F64.ltb F64.zero half_life_days then half_life_days else F64_EPSILON.

(** [EvictionDecay::weight]. *)
Definition weight (half_life_days : F64.t) (now last_accessed_at : instant) : F64.t :=
  let delta_secs := F64.of_Z (Z.quot (now - last_accessed_at) NANOS) in
  if F64.leb delta_secs F64.zero then F64.one
  else
  let half_life_secs := F64.mul half_life_days (F64.of_N 86400) in
  powf f64_half (F64.div delta_secs half_life_secs).

(** [EvictionDecay::score]. *)
Definition score (half_life_days : F64.t) (now : instant) (c : EvictionCandidate) : F64.t :=
  F64.mul (F64.of_N (access_count c + 1)) (weight half_life_days now (last_accessed_at c)).
End Decay.

(** ** The tables

    [federation_blobs] by its digest, and [federation_manifest_children] as pairs of a root
    and a child. *)
Record BlobTables := mk_tables {
  blobs : gmap string EvictionCandidate;
  manifest_children : list (string * string);
}.

Definition rows (t : BlobTables) : list EvictionCandidate := (map_to_list (blobs t)).*2.
Definition total_bytes (l : list EvictionCandidate) : N :=
  fold_right (fun c n => size_bytes c + n)%N 0%N l.

(** [Engine::federation_blob_bytes]. *)
Definition federation_blob_bytes (t : BlobTables) : N := total_bytes (rows t).
(** [pinned_blob_bytes]. *)
Definition in_class (classes : list string) (c : EvictionCandidate) : bool :=
  is_some_and (media_type c) (fun m => contains classes m).
Definition pinned_blob_bytes (t : BlobTables) (classes : list string) : N :=
  total_bytes (List.filter (in_class classes) (rows t)).

(** [ORDER BY last_accessed_at ASC, access_count ASC LIMIT ..]. *)
Definition DEFAULT_SWEEP_BATCH : nat := N.to_nat 1000.
Definition colder (a b : EvictionCandidate) : bool :=
  (last_accessed_at a <? last_accessed_at b)%Z
  || (last_accessed_at a =? last_accessed_at b)%Z && (access_count a <? access_count b)%N.
Definition sweep_candidates (limit : nat) (t : BlobTables) : list EvictionCandidate :=
  take limit (sort_by colder (rows t)).

(** [delete_blob]: the children no other held root relates go first, and the answer is
    whether the row itself was still there. *)
Definition orphans (t : BlobTables) (sha : string) : list string :=
  List.filter (fun child =>
      negb (existsb (fun '(root', child') =>
              (child' =s child) && (root' <>s sha) && is_some (blobs t !! root'))
            (manifest_children t)))
    (map snd (List.filter (fun '(root, _) => root =s sha) (manifest_children t))).
Definition delete_all (shas : list string) (m : gmap string EvictionCandidate)
    : gmap string EvictionCandidate := fold_right delete m shas.
Definition delete_blob (t : BlobTables) (sha : string) : BlobTables * bool :=
  let m := delete_all (orphans t sha) (blobs t) in
  (mk_tables (delete sha m) (manifest_children t), is_some (m !! sha)).

(** ** Installed budgets *)

Record ScopeBudgetWire := mk_scope_budget {
  sb_cohort_scope : string;
  sb_budget_bytes : N;
  pin_reserve_bytes : N;
}.
Record InstalledStorageBudget := mk_budget {
  node_id : string;
  revision : N;
  scopes : list ScopeBudgetWire;
  pinned_class : list string;
}.

Definition pin_reserve_total (b : InstalledStorageBudget) : N :=
  fold_left (fun acc s => saturating_add acc (pin_reserve_bytes s)) (scopes b) 0%N.

(** [put_installed_storage_budget]: the row is replaced only by a higher revision. *)
Definition put_installed_storage_budget (b : InstalledStorageBudget)
    (installed : gmap string InstalledStorageBudget)
    : gmap string InstalledStorageBudget * bool :=
  match installed !! node_id b with
  | Some held => if (revision held <? revision b)%N
                 then (<[node_id b := b]> installed, true) else (installed, false)
  | None => (<[node_id b := b]> installed, true)
  end.

Definition pinned_classes (budgets : list InstalledStorageBudget) : list string :=
  flat_map pinned_class budgets.
Definition pin_reserve_floor (budgets : list InstalledStorageBudget) : N :=
  fold_left (fun floor b => saturating_add floor (pin_reserve_total b)) budgets 0%N.

(** ** The order of eviction *)

(** [hold::is_proxy_content] and [local_or_family_predicate]. *)
Definition is_proxy_content (author : option string) (local_or_family : string -> bool) : bool :=
  match author with None => true | Some a => negb (local_or_family a) end.
Definition local_or_family_predicate (our_key : string) (family : option (string -> bool))
    (k : string) : bool :=
  (k =s our_key) || match family with Some f => f k | None => false end.

Section Sweep.
Context `{Powf}.

(** The closure of [candidates.sort_by]: is [a] before [b]. *)
Definition evicts_before (is_pinned is_proxy : EvictionCandidate -> bool) (score : EvictionCandidate -> F64.t)
    (force_evict_proxy_first : bool) (a b : EvictionCandidate) : bool :=
  if negb (Bool.eqb (is_pinned a) (is_pinned b)) then is_pinned b
  else if force_evict_proxy_first && negb (Bool.eqb (is_proxy a) (is_proxy b)) then is_proxy a
  else F64.ltb (score a) (score b).

(** ** The loop *)

(** The holding claims of this node about a digest, and what emitting a withdrawal of each
    answers, as the directory and the signer give them. *)
Record Claims (E : Type) := mk_claims {
  own_here_claims : string -> E + list string;
  get_claim : string -> E + option Attestation;
  emit_withdraws_attestation : Attestation -> E + unit;
}.
Arguments own_here_claims {E}.
Arguments get_claim {E}.
Arguments emit_withdraws_attestation {E}.

Definition withdraws_outcomes {E} (cl : Claims E) (sha : string) : list (E + unit) :=
  match own_here_claims cl sha with
  | inl e => [inl e]
  | inr ids =>
      flat_map (fun id => match get_claim cl id with
                          | inr (Some prior) => [emit_withdraws_attestation cl prior]
                          | inr None => []
                          | inl e => [inl e]
                          end) ids
  end.
Definition is_ok {E A} (r : E + A) : bool := match r with inr _ => true | inl _ => false end.

Record SweepState := mk_sweep {
  tables : BlobTables;
  rows_evicted : N;
  withdraws_emitted : N;
  withdraws_failed : N;
  bytes_freed : N;
  pinned_bytes_held : N;
}.

(** One turn of the loop, past the test of the target. *)
Definition sweep_one {E} (cl : Claims E) (is_pinned : EvictionCandidate -> bool) (floor : N)
    (c : EvictionCandidate) (s : SweepState) : SweepState :=
  let candidate_pinned := is_pinned c in
  if candidate_pinned && (pinned_bytes_held s - size_bytes c <? floor)%N then s
  else
  let outcomes := withdraws_outcomes cl (sha256 c) in
  let '(t', deleted) := delete_blob (tables s) (sha256 c) in
  mk_sweep t'
    (rows_evicted s + if deleted then 1 else 0)%N
    (withdraws_emitted s + len (List.filter is_ok outcomes))%N
    (withdraws_failed s + len (List.filter (fun o => negb (is_ok o)) outcomes))%N
    (if deleted then saturating_add (bytes_freed s) (size_bytes c) else bytes_freed s)
    (if deleted && candidate_pinned then pinned_bytes_held s - size_bytes c else pinned_bytes_held s)%N.

Fixpoint sweep_loop {E} (cl : Claims E) (is_pinned : EvictionCandidate -> bool) (floor target_freed : N)
    (candidates : list EvictionCandidate) (s : SweepState) : SweepState :=
  match candidates with
  | [] => s
  | c :: rest =>
      if (target_freed <=? bytes_freed s)%N then s
      else sweep_loop cl is_pinned floor target_freed rest (sweep_one cl is_pinned floor c s)
  end.

Record SweepReport := mk_sweep_report {
  bytes_before : N;
  bytes_after : N;
  report_rows_evicted : N;
  report_withdraws_emitted : N;
  report_withdraws_failed : N;
}.

(** [Engine::sweep_evictions_once_inner], over the batch the backend gave. *)
Definition sweep_evictions_once_inner {E} (cl : Claims E) (config : option ReplicationConfig)
    (our_key : string) (family : option (string -> bool)) (budgets : list InstalledStorageBudget)
    (now : instant) (force_evict_proxy_first : bool) (candidates : list EvictionCandidate)
    (t : BlobTables) : BlobTables * SweepReport :=
  match config with
  | None => (t, mk_sweep_report 0 0 0 0 0)
  | Some cfg =>
      if negb (sweeper_active cfg) then (t, mk_sweep_report 0 0 0 0 0)
      else
      let before := federation_blob_bytes t in
      let watermark := watermark_bytes cfg in
      if (before <=? watermark)%N then (t, mk_sweep_report before before 0 0 0)
      else
      let target_freed := (before - watermark)%N in
      let decay := new_decay (eviction_decay_half_life_days cfg) in
      let is_proxy c := is_proxy_content (author_key_id c) (local_or_family_predicate our_key family) in
      let classes := pinned_classes budgets in
      let is_pinned := in_class classes in
      let held := match classes with [] => 0%N | _ => pinned_blob_bytes t classes end in
      let ranked := sort_by (evicts_before is_pinned is_proxy (score decay now) force_evict_proxy_first)
                      candidates in
      let s := sweep_loop cl is_pinned (pin_reserve_floor budgets) target_freed ranked
                 (mk_sweep t 0 0 0 0 held) in
      (tables s, mk_sweep_report before (federation_blob_bytes (tables s)) (rows_evicted s)
                   (withdraws_emitted s) (withdraws_failed s))
  end.
End Sweep.
