(* ===== verification/SweepFacts.v ===== *)
(** * The capacity sweep: how much goes, in what order, and what is held

    Proofs about [Sweep]. *)

From Stdlib Require Import ZArith NArith Lia ZifyBool Lra Reals Permutation Sorted Floats.SpecFloat.
From stdpp Require Import base list strings gmap sorting.
From S2P Require Import Prelude RustStd Json F64Facts TrustRoot Pressure Sweep.

Open Scope string_scope.
Open Scope list_scope.
Open Scope persist_scope.

(** ** Bytes *)

Lemma total_bytes_app a b : total_bytes (a ++ b) = (total_bytes a + total_bytes b)%N.
Proof. induction a as [|c a IH]; simpl; [done|]. rewrite IH. lia. Qed.
Lemma total_bytes_perm a b : Permutation a b -> total_bytes a = total_bytes b.
Proof. induction 1; simpl; lia. Qed.

(** The bytes of the rows that satisfy a test. *)
Definition bytes_where (f : EvictionCandidate -> bool) (m : gmap string EvictionCandidate) : N :=
  total_bytes (List.filter f ((map_to_list m).*2)).

Lemma bytes_delete f m sha c :
  m !! sha = Some c -> bytes_where f m = ((if f c then size_bytes c else 0) + bytes_where f (delete sha m))%N.
Proof.
  intros Hc. unfold bytes_where.
  rewrite (total_bytes_perm (List.filter f (map_to_list m).*2) (List.filter f (c :: (map_to_list (delete sha m)).*2))).
  - simpl. destruct (f c); simpl; lia.
  - apply perm_filter. rewrite <- (map_to_list_delete m sha c Hc). done.
Qed.

Lemma filter_all_true {A} (l : list A) : List.filter (fun _ => true) l = l.
Proof. induction l as [|x l IH]; simpl; [done|]. by rewrite IH. Qed.
Lemma all_bytes_where t : federation_blob_bytes t = bytes_where (fun _ => true) (blobs t).
Proof. unfold federation_blob_bytes, bytes_where, rows. by rewrite filter_all_true. Qed.
Lemma pinned_bytes_where t classes : pinned_blob_bytes t classes = bytes_where (in_class classes) (blobs t).
Proof. done. Qed.

(** ** Deleting *)

(** No blob that a manifest relates as a child is held. *)
Definition flat (t : BlobTables) : Prop :=
  forall root child, In (root, child) (manifest_children t) -> blobs t !! child = None.
(** A batch of the table's rows. *)
Definition held_batch (t : BlobTables) (cs : list EvictionCandidate) : Prop :=
  NoDup (map sha256 cs) /\ forall c, In c cs -> blobs t !! sha256 c = Some c.

Lemma delete_all_lookup shas m k : delete_all shas m !! k = if decide (k ∈ shas) then None else m !! k.
Proof.
  induction shas as [|s shas IH]; simpl; [done|]. destruct (decide (s = k)) as [<-|Hk].
  - rewrite lookup_delete_eq, decide_True; [done|]. apply elem_of_cons. by left.
  - rewrite lookup_delete_ne, IH by done.
    assert (E : k ∈ s :: shas <-> k ∈ shas) by (rewrite elem_of_cons; naive_solver).
    destruct (decide (k ∈ shas)), (decide (k ∈ s :: shas)); tauto.
Qed.

Lemma delete_all_cons shas sha m : delete_all shas (delete sha m) = delete_all (sha :: shas) m.
Proof.
  apply map_eq. intros k. rewrite !delete_all_lookup. destruct (decide (k = sha)) as [->|Hk].
  - assert (E : sha ∈ sha :: shas) by (apply elem_of_cons; by left).
    rewrite lookup_delete_eq. destruct (decide (sha ∈ shas)), (decide (sha ∈ sha :: shas)); tauto.
  - rewrite lookup_delete_ne by done. assert (E : k ∈ sha :: shas <-> k ∈ shas) by (rewrite elem_of_cons; naive_solver).
    destruct (decide (k ∈ shas)), (decide (k ∈ sha :: shas)); tauto.
Qed.

Lemma orphans_related t sha child : In child (orphans t sha) -> In (sha, child) (manifest_children t).
Proof.
  unfold orphans. rewrite filter_In, in_map_iff. intros [([r c] & <- & Hin) _].
  apply filter_In in Hin as [Hin Hr]. apply String.eqb_eq in Hr. by subst r.
Qed.

Lemma delete_blob_flat t sha :
  flat t -> delete_blob t sha = (mk_tables (delete sha (blobs t)) (manifest_children t), is_some (blobs t !! sha)).
Proof.
  intros Hf. unfold delete_blob. replace (delete_all (orphans t sha) (blobs t)) with (blobs t); [done|].
  apply map_eq. intros k. rewrite delete_all_lookup. destruct (decide _) as [Hk|]; [|done].
  apply list_elem_of_In, orphans_related in Hk. by eapply Hf.
Qed.

Lemma flat_delete t sha : flat t -> flat (mk_tables (delete sha (blobs t)) (manifest_children t)).
Proof. intros Hf root child Hin. simpl in *. apply lookup_delete_None. right. by eapply Hf. Qed.

Lemma batch_tail t c cs :
  held_batch t (c :: cs) -> held_batch (mk_tables (delete (sha256 c) (blobs t)) (manifest_children t)) cs.
Proof.
  intros [Hn Hh]. inversion Hn as [|? ? Hnot Hn']; subst. split; [done|]. intros d Hd. simpl.
  rewrite lookup_delete_ne; [apply Hh; by right|]. intros E. apply Hnot. rewrite E.
  apply list_elem_of_In, in_map_iff. by exists d.
Qed.
Lemma batch_skip t c cs : held_batch t (c :: cs) -> held_batch t cs.
Proof. intros [Hn Hh]. inversion Hn; subst. split; [done|]. intros d Hd. apply Hh. by right. Qed.

(** ** What a sweep chooses *)

(** The rows chosen, from bytes freed so far and pinned bytes held. *)
Fixpoint chosen (is_pinned : EvictionCandidate -> bool) (floor target : N) (cs : list EvictionCandidate)
    (freed held : N) : list EvictionCandidate :=
  match cs with
  | [] => []
  | c :: rest =>
      if (target <=? freed)%N then []
      else if is_pinned c && (held - size_bytes c <? floor)%N then chosen is_pinned floor target rest freed held
      else c :: chosen is_pinned floor target rest (freed + size_bytes c)
                  (if is_pinned c then held - size_bytes c else held)%N
  end.

Section Chosen.
Context (is_pinned : EvictionCandidate -> bool) (floor target : N).
Notation chosen := (chosen is_pinned floor target).
Notation pinned_total l := (total_bytes (List.filter is_pinned l)).

Lemma chosen_In cs freed held c : In c (chosen cs freed held) -> In c cs.
Proof.
  revert freed held. induction cs as [|d cs IH]; intros freed held; simpl; [done|].
  destruct (target <=? freed)%N; [done|]. destruct (is_pinned d && _); simpl; intros; [right; by eapply IH|].
  destruct H as [->|H]; [by left|right; by eapply IH].
Qed.

Lemma chosen_minimal cs freed held l c :
  chosen cs freed held = l ++ [c] -> (freed + total_bytes l < target)%N.
Proof.
  revert freed held l. induction cs as [|d cs IH]; intros freed held l; simpl; [by destruct l|].
  destruct (N.leb_spec target freed) as [|Hlt]; [by destruct l|].
  destruct (is_pinned d && _); [by apply IH|]. destruct l as [|x l]; simpl; [intros; lia|].
  intros [= <- E]. apply IH in E. lia.
Qed.

(** The bytes of the pinned rows held at the end. *)
Lemma chosen_floor cs freed held :
  (N.min held floor <= held - pinned_total (chosen cs freed held))%N.
Proof.
  revert freed held. induction cs as [|d cs IH]; intros freed held; simpl; [lia|].
  destruct (target <=? freed)%N; simpl; [lia|].
  destruct (is_pinned d) eqn:E; simpl; [|rewrite E; apply IH].
  destruct (N.ltb_spec (held - size_bytes d) floor) as [|L]; [apply IH|]. simpl. rewrite E. simpl.
  pose proof (IH (freed + size_bytes d)%N (held - size_bytes d)%N). lia.
Qed.

(** A candidate that is left was past the target, or pinned and below the floor. *)
Definition unfit (held : N) (gone : list EvictionCandidate) (c : EvictionCandidate) : Prop :=
  is_pinned c = true /\ (held - pinned_total gone - size_bytes c < floor)%N.

Lemma chosen_complete cs freed held :
  (target <= freed + total_bytes (chosen cs freed held))%N \/
  forall c, In c cs -> In c (chosen cs freed held) \/ unfit held (chosen cs freed held) c.
Proof.
  unfold unfit. revert freed held. induction cs as [|d cs IH]; intros freed held; simpl; [by right|].
  destruct (N.leb_spec target freed) as [L|L]; simpl; [left; lia|].
  destruct (is_pinned d) eqn:E; simpl.
  - destruct (N.ltb_spec (held - size_bytes d) floor) as [L'|L']; simpl.
    + destruct (IH freed held) as [H|H]; [by left|right]. intros c [<-|Hc]; [|by apply H].
      right. split; [done|]. lia.
    + rewrite E. simpl. destruct (IH (freed + size_bytes d) (held - size_bytes d))%N as [H|H]; [left; lia|right].
      intros c [<-|Hc]; [by left; left|]. destruct (H c Hc) as [?|[? ?]]; [by left; right|right; split; [done|lia]].
  - rewrite E. destruct (IH (freed + size_bytes d) held)%N as [H|H]; [left; lia|right].
    intros c [<-|Hc]; [by left; left|]. destruct (H c Hc) as [?|[? ?]]; [by left; right|right; done].
Qed.

(** In a sorted batch, what comes before a chosen row is chosen too, or does not fit. *)
Lemma chosen_order (before : EvictionCandidate -> EvictionCandidate -> bool) cs freed held c d :
  StronglySorted (not_after before) cs -> (forall x, before x x = false) ->
  In c (chosen cs freed held) -> In d cs -> before d c = true ->
  In d (chosen cs freed held) \/ unfit held (chosen cs freed held) d.
Proof.
  intros Hs Hirr. unfold unfit. revert freed held. induction Hs as [|x cs Hs IH Hall]; intros freed held; simpl; [done|].
  rewrite Forall_forall in Hall. destruct (N.leb_spec target freed) as [L|L]; simpl; [done|].
  assert (Hx : In d (x :: cs) -> before d x = false).
  { intros [<-|Hd]; [apply Hirr|]. apply (Hall d). by apply list_elem_of_In. }
  destruct (is_pinned x) eqn:E; simpl.
  - destruct (N.ltb_spec (held - size_bytes x) floor) as [L'|L']; simpl.
    + intros Hc [->|Hd] Hb; [right; split; [done|]; lia|by apply IH].
    + rewrite E. simpl. intros [->|Hc] Hd Hb; [by rewrite Hx in Hb|].
      destruct Hd as [->|Hd]; [by left; left|].
      destruct (IH _ _ Hc Hd Hb) as [?|[? ?]]; [by left; right|right; split; [done|lia]].
  - rewrite E. intros [->|Hc] Hd Hb; [by rewrite Hx in Hb|].
    destruct Hd as [->|Hd]; [by left; left|].
    destruct (IH _ _ Hc Hd Hb) as [?|[? ?]]; [by left; right|right; done].
Qed.
End Chosen.

(** ** The loop evicts what is chosen *)

Section Loop.
Context {E : Type} (cl : Claims E) (is_pinned : EvictionCandidate -> bool) (floor target : N).

Lemma sweep_one_evicts c s :
  flat (tables s) -> blobs (tables s) !! sha256 c = Some c ->
  (bytes_freed s + federation_blob_bytes (tables s) <= u64_max_bytes)%N ->
  is_pinned c && (pinned_bytes_held s - size_bytes c <? floor)%N = false ->
  let s' := sweep_one cl is_pinned floor c s in
  tables s' = mk_tables (delete (sha256 c) (blobs (tables s))) (manifest_children (tables s)) /\
  rows_evicted s' = (rows_evicted s + 1)%N /\
  bytes_freed s' = (bytes_freed s + size_bytes c)%N /\
  pinned_bytes_held s' = (if is_pinned c then pinned_bytes_held s - size_bytes c else pinned_bytes_held s)%N /\
  (bytes_freed s' + federation_blob_bytes (tables s') <= u64_max_bytes)%N.
Proof.
  intros Hf Hc Hmax Hfit. unfold sweep_one. rewrite Hfit, delete_blob_flat, Hc by done. cbn.
  rewrite all_bytes_where, (bytes_delete _ _ _ _ Hc) in Hmax. cbn iota in Hmax.
  unfold saturating_add. rewrite (all_bytes_where (mk_tables _ _)). simpl.
  split_and!; try done; lia.
Qed.

Lemma sweep_loop_chosen cs s :
  flat (tables s) -> held_batch (tables s) cs ->
  (bytes_freed s + federation_blob_bytes (tables s) <= u64_max_bytes)%N ->
  let gone := chosen is_pinned floor target cs (bytes_freed s) (pinned_bytes_held s) in
  let s' := sweep_loop cl is_pinned floor target cs s in
  blobs (tables s') = delete_all (map sha256 gone) (blobs (tables s)) /\
  rows_evicted s' = (rows_evicted s + len gone)%N.
Proof.
  revert s. induction cs as [|c cs IH]; intros s Hf Hb Hmax; simpl; [rewrite len_nil; split; [done|lia]|].
  destruct (target <=? bytes_freed s)%N; simpl; [rewrite len_nil; split; [done|lia]|].
  destruct (is_pinned c && (pinned_bytes_held s - size_bytes c <? floor)%N) eqn:Efit.
  - replace (sweep_one cl is_pinned floor c s) with s by (unfold sweep_one; by rewrite Efit).
    apply IH; [done|by eapply batch_skip|done].
  - destruct (sweep_one_evicts c s Hf (proj2 Hb c (in_eq _ _)) Hmax Efit) as (Ht & Hr & Hfr & Hp & Hm).
    rewrite <- Hfr, <- Hp. destruct (IH (sweep_one cl is_pinned floor c s)) as [IH1 IH2]; rewrite ?Ht in *.
    + by apply flat_delete.
    + by apply batch_tail.
    + done.
    + split.
      * rewrite IH1. simpl. by rewrite delete_all_cons.
      * rewrite IH2, Hr, len_cons. lia.
Qed.
End Loop.

(** What a sublist of a batch takes with it. *)
Lemma bytes_delete_all f t gone :
  held_batch t gone ->
  (bytes_where f (delete_all (map sha256 gone) (blobs t)) + total_bytes (List.filter f gone)
   = bytes_where f (blobs t))%N.
Proof.
  revert t. induction gone as [|c gone IH]; intros t Hb; simpl; [lia|].
  specialize (IH _ (batch_tail _ _ _ Hb)). simpl in IH. rewrite delete_all_cons in IH. simpl in IH.
  rewrite (bytes_delete f (blobs t) (sha256 c) c) by (apply Hb; by left).
  destruct (f c); simpl; lia.
Qed.

Lemma chosen_batch is_pinned floor target cs freed held t :
  held_batch t cs -> held_batch t (chosen is_pinned floor target cs freed held).
Proof.
  intros Hb. split; [|intros c Hc; apply Hb; by eapply chosen_In].
  destruct Hb as [Hn _]. revert freed held. induction cs as [|c cs IH]; intros freed held; simpl; [constructor|].
  inversion Hn as [|? ? Hnot Hn']; subst. destruct (target <=? freed)%N; [constructor|].
  destruct (_ && _); [by apply IH|]. simpl. constructor; [|by apply IH].
  intros Hin. apply Hnot. apply list_elem_of_fmap in Hin as (d & Ed & Hd). apply list_elem_of_fmap. exists d.
  split; [done|]. apply list_elem_of_In. eapply chosen_In. by apply list_elem_of_In.
Qed.

(** ** Scores are ordered *)

Lemma ltb_inf_r x : amount x -> F64.ltb x (S754_infinity false) = true.
Proof. intros [_ Hn]. by destruct x as [| | |[] m e]. Qed.
Lemma ltb_inf_l x : ordered x -> F64.ltb (S754_infinity false) x = false.
Proof. intros [[_ Hn]| ->]; [|done]. by destruct x as [| | |[] m e]. Qed.

Lemma ltb_val x y : amount x -> amount y -> F64.ltb x y = true <-> (val x < val y)%R.
Proof.
  intros Hx Hy. rewrite ltb_leb, negb_true_iff by done. pose proof (leb_val y x Hy Hx) as H.
  split; [intros Ef|intros Hlt].
  - destruct (Rlt_dec (val x) (val y)) as [|C]; [done|]. rewrite (proj2 H) in Ef by lra. done.
  - apply not_true_iff_false. intros C. apply H in C. lra.
Qed.

Lemma ltb_asym x y : ordered x -> ordered y -> F64.ltb x y = true -> F64.ltb y x = false.
Proof.
  intros [Hx| ->] Hy; [|by rewrite ltb_inf_l]. destruct Hy as [Hy| ->]; [|intros _; apply ltb_inf_l; by left].
  intros H. apply not_true_iff_false. intros C. apply ltb_val in H, C; [lra|done..].
Qed.

Lemma ltb_cotrans x y z : ordered x -> ordered y -> ordered z ->
  F64.ltb x z = true -> F64.ltb x y = true \/ F64.ltb y z = true.
Proof.
  intros [Hx| ->] Hy Hz; [|by rewrite ltb_inf_l]. destruct Hy as [Hy| ->]; [|intros _; left; by apply ltb_inf_r].
  destruct Hz as [Hz| ->]; [|intros _; right; by apply ltb_inf_r].
  rewrite !ltb_val by done. intros H. destruct (Rlt_dec (val x) (val y)); [by left|right; lra].
Qed.

Lemma rounds_ordered V r : rounds V r -> ordered r.
Proof. intros (Hv & [Hn| ->] & _); [left; by split|by right]. Qed.

Section Scores.
Context `{Powf}.

(** The half-life is positive: the configured one, which may be infinite, or the epsilon. *)
Lemma half_life_positive d :
  valid64 d -> (amount (new_decay d) /\ (0 < val (new_decay d))%R) \/ new_decay d = S754_infinity false.
Proof.
  intros Hv. unfold new_decay. destruct (F64.ltb F64.zero d) eqn:Ed.
  - destruct d as [s|[]| |[] m e]; try discriminate Ed; [by right|].
    left. split; [done|]. apply (ltb_val F64.zero); [done..|]. done.
  - left. assert (Ha : amount F64_EPSILON) by done. split; [done|]. by apply (ltb_val F64.zero).
Qed.

Lemma exponent_ordered x h :
  amount x -> (amount h /\ (0 < val h)%R) \/ h = S754_infinity false ->
  ordered (F64.div x (F64.mul h (F64.of_N 86400))).
Proof.
  intros Hx Hh. destruct (of_N_whole 86400) as [Ha Ev]; [lia|].
  destruct Hh as [[Hh Hp]| ->].
  - pose proof (mul_rounds _ _ Hh Ha) as Hr. rewrite Ev in Hr.
    destruct (rounds_ordered _ _ Hr) as [Hm| ->].
    + apply (rounds_ordered _ _ (div_rounds _ _ Hx Hm ltac:(
        pose proof Hr as (_ & _ & Hc); destruct (Hc h Hh) as [Hle _];
        assert (G : F64.leb h (F64.mul h (F64.of_N 86400)) = true) by (apply Hle; simpl; lra);
        apply leb_val in G; [lra|done..]))).
    + left. by destruct Hx as [_ Nx], x as [| | |[] m e].
  - left. by destruct Hx as [_ Nx], x as [| | |[] m e].
Qed.

(** What the fields of a row hold: an age a duration can have, and a count of 64 bits. *)
Definition in_range (now : instant) (c : EvictionCandidate) : bool :=
  (now - last_accessed_at c <=? (2 ^ 63 - 1) * 1000000)%Z && (access_count c <? 2 ^ 64)%N.

Lemma weight_amount d now at_ :
  valid64 d -> (now - at_ <= (2 ^ 63 - 1) * 1000000)%Z -> amount (weight (new_decay d) now at_).
Proof.
  intros Hd Hrange. unfold weight. set (secs := Z.quot (now - at_) NANOS).
  destruct (F64.leb (F64.of_Z secs) F64.zero) eqn:El; [done|].
  assert (Hs : (0 < secs <= 2 ^ 64)%Z).
  { split.
    - destruct secs as [|p|p]; [discriminate El|done|]. exfalso. revert El. unfold F64.of_Z.
      destruct (rounds_ordered _ _ (of_N_rounds (Npos p))) as [[_ Hn]| ->]; [|done].
      by destruct (F64.of_N (Npos p)) as [| | |[] m e].
    - destruct (Z_le_gt_dec (now - at_) 0) as [L|G].
      + assert (secs <= 0)%Z by (apply Z.quot_le_upper_bound; unfold NANOS; lia). lia.
      + apply Z.quot_le_upper_bound; unfold NANOS; lia. }
  destruct (seconds secs Hs) as [Ha _]. apply powf_half, exponent_ordered; [done|]. by apply half_life_positive.
Qed.

Lemma score_ordered d now c : valid64 d -> in_range now c = true -> ordered (score (new_decay d) now c).
Proof.
  intros Hd Hr. unfold in_range in Hr. apply andb_true_iff in Hr as [Hr Hn].
  apply Z.leb_le in Hr. apply N.ltb_lt in Hn. unfold score.
  destruct (seconds (Z.of_N (access_count c + 1))) as [Ha _]; [lia|].
  replace (F64.of_Z (Z.of_N (access_count c + 1))) with (F64.of_N (access_count c + 1)) in Ha
    by (by destruct (access_count c)).
  eapply rounds_ordered, mul_rounds; [done|]. by apply weight_amount.
Qed.
End Scores.

(** ** The order of eviction is an order *)

Lemma insert_sorted_ext {A} (lt lt' : A -> A -> bool) x l :
  (forall y, In y l -> lt x y = lt' x y) -> insert_sorted lt x l = insert_sorted lt' x l.
Proof.
  induction l as [|y l IH]; intros He; simpl; [done|]. rewrite He by (by left).
  destruct (lt' x y); [done|]. f_equal. apply IH. intros z Hz. apply He. by right.
Qed.

Lemma sort_by_ext {A} (lt lt' : A -> A -> bool) (l : list A) :
  (forall x y, In x l -> In y l -> lt x y = lt' x y) -> sort_by lt l = sort_by lt' l.
Proof.
  intros He. unfold sort_by.
  assert (G : forall k acc, (forall x, In x k -> In x l) -> (forall x, In x acc -> In x l) ->
    fold_left (fun acc x => insert_sorted lt x acc) k acc = fold_left (fun acc x => insert_sorted lt' x acc) k acc).
  { induction k as [|x k IH]; intros acc Hk Hacc; simpl; [done|].
    rewrite (insert_sorted_ext lt lt') by (intros y Hy; apply He; [apply Hk; by left|by apply Hacc]).
    apply IH; [intros y Hy; apply Hk; by right|]. intros y Hy.
    apply (Permutation_in y (insert_sorted_perm lt' x acc)) in Hy as [<-|Hy]; [apply Hk; by left|by apply Hacc]. }
  apply G; [done|]. by intros x [].
Qed.

Lemma sorted_weaken {A} (R R' : A -> A -> Prop) l :
  StronglySorted R l -> (forall x y, In x l -> In y l -> R x y -> R' x y) -> StronglySorted R' l.
Proof.
  induction 1 as [|x l Hs IH Hall]; intros Hw; constructor.
  - apply IH. intros a b Ha Hb. apply Hw; by right.
  - apply Forall_forall. intros y Hy. rewrite Forall_forall in Hall. apply Hw; [by left| |by apply Hall].
    right. by apply list_elem_of_In.
Qed.

Section Order.
Context (is_pinned is_proxy : EvictionCandidate -> bool) (force : bool).

Lemma evicts_before_asym sc a b : (forall c, ordered (sc c)) ->
  evicts_before is_pinned is_proxy sc force a b = true -> evicts_before is_pinned is_proxy sc force b a = false.
Proof.
  intros Ho. unfold evicts_before.
  destruct (is_pinned a), (is_pinned b), force, (is_proxy a), (is_proxy b); simpl; try done; by apply ltb_asym.
Qed.
Lemma evicts_before_cotrans sc a b c : (forall c, ordered (sc c)) ->
  evicts_before is_pinned is_proxy sc force a c = true ->
  evicts_before is_pinned is_proxy sc force a b = true \/ evicts_before is_pinned is_proxy sc force b c = true.
Proof.
  intros Ho. unfold evicts_before.
  destruct (is_pinned a), (is_pinned b), (is_pinned c), force, (is_proxy a), (is_proxy b), (is_proxy c);
    simpl; try (by left); try (by right); try done; by apply ltb_cotrans.
Qed.

(** A batch whose scores are numbers is sorted. *)
Lemma ranked_batch (ok : EvictionCandidate -> bool) sc cs :
  (forall c, ok c = true -> ordered (sc c)) -> (forall c, In c cs -> ok c = true) ->
  StronglySorted (not_after (evicts_before is_pinned is_proxy sc force))
    (sort_by (evicts_before is_pinned is_proxy sc force) cs).
Proof.
  intros Hsc Hok. set (sc' := fun c => if ok c then sc c else F64.zero).
  assert (Ho : forall c, ordered (sc' c)).
  { intros c. unfold sc'. destruct (ok c) eqn:E; [by apply Hsc|by left]. }
  assert (Eq : forall x y, In x cs -> In y cs ->
    evicts_before is_pinned is_proxy sc force x y = evicts_before is_pinned is_proxy sc' force x y).
  { intros x y Hx Hy. unfold evicts_before, sc'. by rewrite (Hok x Hx), (Hok y Hy). }
  rewrite (sort_by_ext _ _ _ Eq).
  assert (Hs : StronglySorted (not_after (evicts_before is_pinned is_proxy sc' force))
    (sort_by (evicts_before is_pinned is_proxy sc' force) cs)).
  { apply sort_by_sorted; [intros; by apply evicts_before_asym|intros; by apply evicts_before_cotrans]. }
  eapply sorted_weaken; [exact Hs|]. intros x y Hx Hy. unfold not_after.
  rewrite sort_by_In in Hx, Hy. by rewrite (Eq y x Hy Hx).
Qed.
End Order.

Lemma ltb_irrefl x : F64.ltb x x = false.
Proof.
  destruct x as [| | |s m e]; try done; [by destruct s|]. unfold F64.ltb, SFltb. cbn [SFcompare].
  rewrite Z.compare_refl. change (Pos.compare_cont Eq m m) with (Pos.compare m m).
  rewrite Pos.compare_refl. by destruct s.
Qed.
Lemma evicts_before_irrefl is_pinned is_proxy sc force c : evicts_before is_pinned is_proxy sc force c c = false.
Proof. unfold evicts_before. rewrite !eqb_reflx, andb_false_r. apply ltb_irrefl. Qed.

(** ** One cycle *)

Section Cycle.
Context `{Powf} {E : Type} (cl : Claims E) (cfg : ReplicationConfig) (our_key : string)
  (family : option (string -> bool)) (budgets : list InstalledStorageBudget) (now : instant) (force : bool)
  (cs : list EvictionCandidate) (t : BlobTables).

Notation classes := (pinned_classes budgets).
Notation is_proxy := (fun c => is_proxy_content (author_key_id c) (local_or_family_predicate our_key family)).
Notation sc := (score (new_decay (eviction_decay_half_life_days cfg)) now).
Notation before := (evicts_before (in_class classes) is_proxy sc force).
Notation cycle := (sweep_evictions_once_inner cl (Some cfg) our_key family budgets now force cs t).

(** What a cycle evicts. *)
Definition gone : list EvictionCandidate :=
  if (federation_blob_bytes t <=? watermark_bytes cfg)%N then []
  else chosen (in_class classes) (pin_reserve_floor budgets) (federation_blob_bytes t - watermark_bytes cfg)
         (sort_by before cs) 0 (pinned_blob_bytes t classes).

Hypothesis Hflat : flat t.
Hypothesis Hbatch : held_batch t cs.
Hypothesis Hmax : (federation_blob_bytes t <= u64_max_bytes)%N.

Lemma ranked_held : held_batch t (sort_by before cs).
Proof.
  destruct Hbatch as [Hn Hh]. split.
  - eapply (NoDup_Permutation_proper (map sha256 cs)); [|done]. symmetry. apply Permutation_map, sort_by_perm.
  - intros c Hc. apply Hh. by apply sort_by_In in Hc.
Qed.

Lemma no_class_bytes : match classes with [] => 0%N | _ => pinned_blob_bytes t classes end = pinned_blob_bytes t classes.
Proof.
  destruct classes as [|x l] eqn:Ec; [|done]. symmetry. unfold pinned_blob_bytes.
  replace (List.filter (in_class []) (rows t)) with (@nil EvictionCandidate); [done|].
  symmetry. induction (rows t) as [|c r IH]; simpl; [done|]. unfold in_class at 1. by destruct (media_type c).
Qed.

Lemma cycle_gone :
  blobs (fst cycle) = delete_all (map sha256 gone) (blobs t) /\ report_rows_evicted (snd cycle) = len gone.
Proof.
  unfold sweep_evictions_once_inner, gone. destruct (sweeper_active cfg) eqn:Ea; simpl negb; cbv iota.
  2: { assert (Ew : watermark_bytes cfg = u64_max_bytes) by (unfold watermark_bytes; by rewrite Ea).
       rewrite (proj2 (N.leb_le _ _)) by (rewrite Ew; exact Hmax). done. }
  destruct (federation_blob_bytes t <=? watermark_bytes cfg)%N; [done|].
  rewrite no_class_bytes.
  destruct (sweep_loop_chosen cl (in_class classes) (pin_reserve_floor budgets)
    (federation_blob_bytes t - watermark_bytes cfg) (sort_by before cs)
    (mk_sweep t 0 0 0 0 (pinned_blob_bytes t classes)) Hflat ranked_held) as [Hb Hr]; [simpl; lia|].
  simpl in Hb, Hr. split; [exact Hb|]. simpl. rewrite Hr. lia.
Qed.

Lemma gone_held : held_batch t gone.
Proof. unfold gone. destruct (_ <=? _)%N; [split; [constructor|done]|]. apply chosen_batch, ranked_held. Qed.

Lemma cycle_bytes f :
  (bytes_where f (blobs (fst cycle)) + total_bytes (List.filter f gone) = bytes_where f (blobs t))%N.
Proof. rewrite (proj1 cycle_gone). apply bytes_delete_all, gone_held. Qed.

Lemma gone_batch c : In c gone -> In c cs.
Proof.
  unfold gone. destruct (_ <=? _)%N; [done|]. intros Hc. apply chosen_In in Hc. by apply sort_by_In in Hc.
Qed.

Lemma gone_iff c : In c cs -> blobs (fst cycle) !! sha256 c = None <-> In c gone.
Proof.
  intros Hc. rewrite (proj1 cycle_gone), delete_all_lookup. destruct (decide _) as [Hd|Hd].
  - split; [intros _|done]. apply list_elem_of_fmap in Hd as (d & Ed & Hd). apply list_elem_of_In in Hd.
    pose proof (proj2 Hbatch d (gone_batch d Hd)) as Hld. rewrite <- Ed, (proj2 Hbatch c Hc) in Hld. by simplify_eq.
  - rewrite (proj2 Hbatch c Hc). split; [done|]. intros Hg. destruct Hd. apply list_elem_of_fmap. exists c.
    by rewrite list_elem_of_In.
Qed.

(** A row that stays although it comes up is pinned, and the reserve does not spare it. *)
Definition below_reserve (c : EvictionCandidate) : Prop :=
  in_class classes c = true /\
  (pinned_blob_bytes (fst cycle) classes - size_bytes c < pin_reserve_floor budgets)%N.

Lemma unfit_below_reserve c :
  unfit (in_class classes) (pin_reserve_floor budgets) (pinned_blob_bytes t classes) gone c -> below_reserve c.
Proof.
  intros [Hp Hlt]. split; [done|]. pose proof (cycle_bytes (in_class classes)) as Hb.
  rewrite <- !pinned_bytes_where in Hb. lia.
Qed.
End Cycle.

(** C10. One cycle of the sweep is exact on tables whose manifests relate no held child (a
    root that has one takes it along uncounted, [children_are_not_counted]), for a batch of
    distinct rows the table holds, and bytes that fit 64 bits. The rows it evicts are rows of
    its batch; the report counts them, and the bytes of the table drop by theirs. It frees no
    more than it must: before the last row went the table was above the watermark. And it frees
    enough: after it the table is at the watermark, or each row of the batch that stays is
    pinned and the reserve does not spare it. *)
Theorem capacity_sweep_exact `{Powf} {E} (cl : Claims E) (cfg : ReplicationConfig) (our_key : string)
    (family : option (string -> bool)) (budgets : list InstalledStorageBudget) (now : instant) (force : bool)
    (cs : list EvictionCandidate) (t : BlobTables)
    (Hflat : flat t) (Hbatch : held_batch t cs) (Hmax : (federation_blob_bytes t <= u64_max_bytes)%N) :
  let '(t', r) := sweep_evictions_once_inner cl (Some cfg) our_key family budgets now force cs t in
  exists l, (forall c, In c l -> In c cs) /\ NoDup (map sha256 l) /\
    blobs t' = delete_all (map sha256 l) (blobs t) /\
    report_rows_evicted r = len l /\
    (federation_blob_bytes t' + total_bytes l = federation_blob_bytes t)%N /\
    (forall l' c, l = l' ++ [c] -> (watermark_bytes cfg < federation_blob_bytes t - total_bytes l')%N) /\
    ((federation_blob_bytes t' <= watermark_bytes cfg)%N \/
     forall c, In c cs -> ~ In c l ->
       in_class (pinned_classes budgets) c = true /\
       (pinned_blob_bytes t' (pinned_classes budgets) - size_bytes c < pin_reserve_floor budgets)%N).
Proof.
  pose proof (cycle_gone cl cfg our_key family budgets now force cs t Hflat Hbatch Hmax) as [Hb Hr].
  pose proof (cycle_bytes cl cfg our_key family budgets now force cs t Hflat Hbatch Hmax (fun _ => true)) as Hsum.
  pose proof (unfit_below_reserve cl cfg our_key family budgets now force cs t Hflat Hbatch Hmax) as Hun.
  unfold below_reserve in Hun. rewrite <- !all_bytes_where, filter_all_true in Hsum.
  destruct (sweep_evictions_once_inner _ _ _ _ _ _ _ _ _) as [t' r]. cbn [fst snd] in *.
  exists (gone cfg our_key family budgets now force cs t). split_and!; try done.
  - apply gone_batch.
  - by apply gone_held.
  - unfold gone. intros l' c. destruct (N.leb_spec (federation_blob_bytes t) (watermark_bytes cfg)); [by destruct l'|].
    intros Hl. apply chosen_minimal in Hl. lia.
  - unfold gone in *. destruct (N.leb_spec (federation_blob_bytes t) (watermark_bytes cfg)) as [L|L].
    + left. simpl in Hsum. lia.
    + match type of Hb with context[chosen ?p ?f ?tg ?l ?a ?h] => destruct (chosen_complete p f tg l a h) as [Hd|Hd] end.
      * left. lia.
      * right. intros c Hc Hn. apply Hun. destruct (Hd c) as [|]; [by apply sort_by_In|done..].
Qed.

(** The reserve holds. A sweep never takes the pinned classes below the reserve the
    installed budgets keep for them, or below what was held when that is less. *)
Theorem reserve_holds `{Powf} {E} (cl : Claims E) (cfg : ReplicationConfig) (our_key : string)
    (family : option (string -> bool)) (budgets : list InstalledStorageBudget) (now : instant) (force : bool)
    (cs : list EvictionCandidate) (t : BlobTables)
    (Hflat : flat t) (Hbatch : held_batch t cs) (Hmax : (federation_blob_bytes t <= u64_max_bytes)%N) :
  let t' := fst (sweep_evictions_once_inner cl (Some cfg) our_key family budgets now force cs t) in
  (N.min (pinned_blob_bytes t (pinned_classes budgets)) (pin_reserve_floor budgets)
   <= pinned_blob_bytes t' (pinned_classes budgets))%N.
Proof.
  cbv zeta. pose proof (cycle_bytes cl cfg our_key family budgets now force cs t Hflat Hbatch Hmax
    (in_class (pinned_classes budgets))) as Hsum. rewrite <- !pinned_bytes_where in Hsum.
  unfold gone in Hsum. destruct (_ <=? _)%N; [cbn [List.filter total_bytes fold_right] in Hsum; lia|].
  match type of Hsum with context[chosen ?p ?f ?tg ?l ?a ?h] => pose proof (chosen_floor p f tg l a h) end. lia.
Qed.

(** What goes first. A row goes only when every row of the batch that precedes it in the
    order of eviction is gone or does not fit above the reserve. So no pinned row goes while
    an unpinned one of the batch stays, and under disk pressure no row of this node or its
    family goes while a relayed row of the same pin class stays that the reserve spares. *)
Theorem shed_order `{Powf} {E} (cl : Claims E) (cfg : ReplicationConfig) (our_key : string)
    (family : option (string -> bool)) (budgets : list InstalledStorageBudget) (now : instant) (force : bool)
    (cs : list EvictionCandidate) (t : BlobTables)
    (Hflat : flat t) (Hbatch : held_batch t cs) (Hmax : (federation_blob_bytes t <= u64_max_bytes)%N)
    (Hlife : valid64 (eviction_decay_half_life_days cfg)) (Hrange : forall c, In c cs -> in_range now c = true)
    (c d : EvictionCandidate) (Hc : In c cs) (Hd : In d cs) :
  let t' := fst (sweep_evictions_once_inner cl (Some cfg) our_key family budgets now force cs t) in
  let pinned := in_class (pinned_classes budgets) in
  let relayed x := is_proxy_content (author_key_id x) (local_or_family_predicate our_key family) in
  let spared := pinned d = true /\
    (pinned_blob_bytes t' (pinned_classes budgets) - size_bytes d < pin_reserve_floor budgets)%N in
  blobs t' !! sha256 c = None ->
  (evicts_before pinned relayed (score (new_decay (eviction_decay_half_life_days cfg)) now) force d c = true ->
     blobs t' !! sha256 d = None \/ spared) /\
  (pinned c = true -> pinned d = false -> blobs t' !! sha256 d = None) /\
  (force = true -> pinned d = pinned c -> relayed d = true -> relayed c = false ->
     blobs t' !! sha256 d = None \/ spared).
Proof.
  cbv zeta. rewrite !(gone_iff cl cfg our_key family budgets now force cs t Hflat Hbatch Hmax) by done. intros Hg.
  set (before := evicts_before _ _ _ force).
  assert (Hmain : before d c = true -> In d (gone cfg our_key family budgets now force cs t) \/
    below_reserve cl cfg our_key family budgets now force cs t d).
  { intros Hb. assert (Hlem : In d (gone cfg our_key family budgets now force cs t) \/
      unfit (in_class (pinned_classes budgets)) (pin_reserve_floor budgets)
        (pinned_blob_bytes t (pinned_classes budgets)) (gone cfg our_key family budgets now force cs t) d).
    { unfold gone in *. destruct (_ <=? _)%N; [done|]. eapply (chosen_order _ _ _ before); [| | |by apply sort_by_In|].
      - apply (ranked_batch _ _ _ (in_range now)); [|done]. intros. by apply score_ordered.
      - intros. apply evicts_before_irrefl.
      - exact Hg.
      - done. }
    destruct Hlem as [|Hu]; [by left|right]. by apply (unfit_below_reserve _ _ _ _ _ _ _ _ _ Hflat Hbatch Hmax). }
  split; [exact Hmain|]. unfold before, evicts_before in Hmain. split.
  - intros Hpc Hpd. destruct Hmain as [|[Hp _]]; [|done|congruence]. by rewrite Hpc, Hpd.
  - intros -> Hp Hrd Hrc. apply Hmain. by rewrite Hp, eqb_reflx, Hrd, Hrc.
Qed.

(** The batch the backend gives is one, when the table is keyed by the digest. *)
Lemma candidates_held limit t :
  (forall k c, blobs t !! k = Some c -> sha256 c = k) -> held_batch t (sweep_candidates limit t).
Proof.
  intros Hk. assert (Hall : held_batch t (sort_by colder (rows t))).
  { split.
    - eapply (NoDup_Permutation_proper (map sha256 (rows t))).
      { apply Permutation_map. symmetry. apply sort_by_perm. }
      replace (map sha256 (rows t)) with (map_to_list (blobs t)).*1; [apply NoDup_fst_map_to_list|].
      unfold rows. rewrite map_map. apply map_ext_in. intros [k c] Hin. simpl. symmetry. apply Hk.
      by apply elem_of_map_to_list, list_elem_of_In.
    - intros c Hc. apply sort_by_In in Hc. unfold rows in Hc. apply in_map_iff in Hc as ([k c'] & <- & Hin).
      simpl. apply list_elem_of_In, elem_of_map_to_list in Hin. by rewrite (Hk _ _ Hin). }
  destruct Hall as [Hn Hh]. unfold sweep_candidates. split.
  - rewrite <- (take_drop limit (sort_by colder (rows t))), map_app in Hn. by apply NoDup_app in Hn as (? & _ & _).
  - intros c Hc. apply Hh. rewrite <- (take_drop limit (sort_by colder (rows t))). apply in_app_iff. by left.
Qed.

(** A budget is never rolled back. After any installs, in any order, what is installed for
    a node is an offer for it of the highest revision offered. *)
Theorem budgets_never_roll_back (offers : list InstalledStorageBudget) (n : string) :
  let installed := fold_left (fun m b => fst (put_installed_storage_budget b m)) offers ∅ in
  match installed !! n with
  | None => forall b, In b offers -> node_id b <> n
  | Some held => In held offers /\ node_id held = n /\
      forall b, In b offers -> node_id b = n -> (revision b <= revision held)%N
  end.
Proof.
  cbv zeta. assert (G : forall m seen,
    (match m !! n with
     | None => forall b, In b seen -> node_id b <> n
     | Some held => In held seen /\ node_id held = n /\ forall b, In b seen -> node_id b = n -> (revision b <= revision held)%N
     end) ->
    match fold_left (fun m b => fst (put_installed_storage_budget b m)) offers m !! n with
    | None => forall b, In b (seen ++ offers) -> node_id b <> n
    | Some held => In held (seen ++ offers) /\ node_id held = n /\
        forall b, In b (seen ++ offers) -> node_id b = n -> (revision b <= revision held)%N
    end).
  { induction offers as [|b bs IH]; intros m seen Hm; simpl; [by rewrite app_nil_r|].
    replace (seen ++ b :: bs) with ((seen ++ [b]) ++ bs) by (by rewrite <- app_assoc). apply IH.
    unfold put_installed_storage_budget. destruct (decide (node_id b = n)) as [<-|Hne].
    - destruct (m !! node_id b) as [held|] eqn:El.
      + destruct Hm as (Hin & Hid & Hmax). destruct (N.ltb_spec (revision held) (revision b)) as [L|L]; simpl.
        * rewrite lookup_insert_eq. setoid_rewrite in_app_iff. split_and!; [right; by left|done|].
          intros x [Hx|[<-|[]]] E; [specialize (Hmax x Hx E)|]; lia.
        * rewrite El. setoid_rewrite in_app_iff. split_and!; [by left|done|].
          intros x [Hx|[<-|[]]] E; [by apply Hmax|done].
      + simpl. rewrite lookup_insert_eq. setoid_rewrite in_app_iff. split_and!; [right; by left|done|].
        intros x [Hx|[<-|[]]] E; [by destruct (Hm x Hx)|done].
    - assert (Em : fst (match m !! node_id b with
        | Some held => if (revision held <? revision b)%N then (<[node_id b := b]> m, true) else (m, false)
        | None => (<[node_id b := b]> m, true) end) !! n = m !! n).
      { destruct (m !! node_id b); [destruct (_ <? _)%N|]; simpl; rewrite ?lookup_insert_ne by done; done. }
      rewrite Em. destruct (m !! n) as [held|]; setoid_rewrite in_app_iff.
      + destruct Hm as (Hin & Hid & Hmax). split_and!; [by left|done|]. intros x [Hx|[<-|[]]] E; [by apply Hmax|done].
      + intros x [Hx|[<-|[]]]; [by apply Hm|done]. }
  specialize (G ∅ []). simpl in G. rewrite lookup_empty in G. apply G. by intros b [].
Qed.

(** ** At concrete inputs *)

Definition flat_powf : Powf.
Proof. refine {| powf := fun _ _ => F64.one |}. done. Defined.
#[local] Existing Instance flat_powf.

Definition no_claims : Claims unit := mk_claims unit (fun _ => inr []) (fun _ => inr None) (fun _ => inr tt).
Definition hundred_bytes : ReplicationConfig := mk_replication_config F64.zero 100 F64.one (F64.of_N 30) 60.
Definition pin_p : InstalledStorageBudget := mk_budget "n1" 1 [mk_scope_budget "community" 200 100] ["p"].
Definition root_row : EvictionCandidate := mk_candidate "root" 10 0 0%Z None None.
Definition child_row : EvictionCandidate := mk_candidate "child" 100 5 0%Z None (Some "p").
Definition other_row : EvictionCandidate := mk_candidate "x" 10 1 0%Z (Some "me") None.
Definition three_rows (related : list (string * string)) : BlobTables :=
  mk_tables {[ "root" := root_row; "child" := child_row; "x" := other_row ]} related.

Lemma three_rows_held : held_batch (three_rows []) [root_row; child_row; other_row].
Proof.
  split; [repeat constructor; rewrite ?elem_of_cons, ?elem_of_nil; naive_solver|].
  intros c [<-|[<-|[<-|[]]]]; vm_compute; reflexivity.
Qed.

Lemma reserve_holds_witness :
  (100 <= pinned_blob_bytes (fst (sweep_evictions_once_inner no_claims (Some hundred_bytes) "me" None [pin_p] 0%Z false
     [root_row; child_row; other_row] (three_rows []))) ["p"])%N.
Proof.
  apply (reserve_holds no_claims hundred_bytes "me" None [pin_p] 0%Z false [root_row; child_row; other_row]
           (three_rows [])); [by intros root child []|exact three_rows_held|vm_compute; discriminate].
Defined.

Lemma capacity_sweep_exact_witness :
  let '(t', r) := sweep_evictions_once_inner no_claims (Some hundred_bytes) "me" None
    [pin_p] 0%Z false [root_row; child_row; other_row] (three_rows []) in
  report_rows_evicted r = 2%N /\
  exists l, (forall c, In c l -> In c [root_row; child_row; other_row]) /\ NoDup (map sha256 l) /\
    blobs t' = delete_all (map sha256 l) (blobs (three_rows [])) /\
    report_rows_evicted r = len l /\
    (federation_blob_bytes t' + total_bytes l = federation_blob_bytes (three_rows []))%N /\
    (forall l' c, l = l' ++ [c] ->
       (watermark_bytes hundred_bytes < federation_blob_bytes (three_rows []) - total_bytes l')%N) /\
    ((federation_blob_bytes t' <= watermark_bytes hundred_bytes)%N \/
     forall c, In c [root_row; child_row; other_row] -> ~ In c l ->
       in_class (pinned_classes [pin_p]) c = true /\
       (pinned_blob_bytes t' (pinned_classes [pin_p]) - size_bytes c < pin_reserve_floor [pin_p])%N).
Proof.
  pose proof (capacity_sweep_exact no_claims hundred_bytes "me" None [pin_p] 0%Z false [root_row; child_row; other_row]
    (three_rows []) ltac:(by intros root child []) three_rows_held ltac:(vm_compute; discriminate)) as Hx.
  destruct (sweep_evictions_once_inner _ _ _ _ _ _ _ _ _) as [t' r] eqn:Er.
  split; [|exact Hx]. vm_compute in Er. injection Er as _ <-. reflexivity.
Defined.

Lemma shed_order_witness :
  blobs (fst (sweep_evictions_once_inner no_claims (Some hundred_bytes) "me" None [] 0%Z true
    [root_row; child_row; other_row] (three_rows []))) !! "root" = None.
Proof.
  destruct (shed_order no_claims hundred_bytes "me" None [] 0%Z true [root_row; child_row; other_row] (three_rows [])
    ltac:(by intros root child []) three_rows_held ltac:(vm_compute; discriminate) ltac:(reflexivity)
    ltac:(intros c [<-|[<-|[<-|[]]]]; reflexivity) child_row root_row ltac:(right; by left) ltac:(by left)
    ltac:(vm_compute; reflexivity)) as [Hfirst _].
  destruct Hfirst as [Hx|[Hx _]]; [vm_compute; reflexivity|exact Hx|discriminate Hx].
Defined.

(** A related child goes with its root, uncounted: the sweep goes on past the watermark, and
    the reserve of the child's class is not held. *)
Theorem children_are_not_counted :
  let '(t', r) := sweep_evictions_once_inner no_claims (Some hundred_bytes) "me" None [pin_p] 0%Z false
    [root_row; child_row; other_row] (three_rows [("root", "child")]) in
  report_rows_evicted r = 2%N /\ bytes_before r = 120%N /\ bytes_after r = 0%N /\
  watermark_bytes hundred_bytes = 100%N /\
  pin_reserve_floor [pin_p] = 100%N /\ pinned_blob_bytes t' ["p"] = 0%N.
Proof. vm_compute. split_and!; reflexivity. Qed.

(** The oldest row is not the one with the lowest score: the statement's order does not bound
    the score's. *)
Theorem coldest_is_not_lowest :
  let old := mk_candidate "old" 1 1000 (- 500000000)%Z None None in
  let new := mk_candidate "new" 1 0 0%Z None None in
  sweep_candidates 1 (mk_tables {[ "old" := old; "new" := new ]} []) = [old] /\
  forall (P : Powf) d, F64.ltb (score (new_decay d) 0%Z new) (score (new_decay d) 0%Z old) = true.
Proof. split; [vm_compute; reflexivity|]. intros P d. vm_compute. reflexivity. Qed.
