(* ===== verification/Fountain.v ===== *)
(** * Fountain-coded content

    [src/src/fountain/]: content is a signed manifest that is always kept and coded symbols
    that are evicted. [types.rs] (the manifest, the read classes), [admit.rs] (the admission
    gate), [eviction.rs] (tiers and keep-counts), [decay.rs] (the consent clock),
    [retention.rs] (the consent verdict); the sqlite tables of [store/sqlite.rs] with the
    read assembler of [store/fountain_read.rs]; and the triggers of [engine.rs]. *)

From Stdlib Require Import ZArith NArith Lia Ascii String.
From stdpp Require Import base list strings gmap.
From S2P Require Import Prelude RustStd Json Canonical Consent Pressure.

Open Scope string_scope.
Open Scope list_scope.
Open Scope persist_scope.

Definition MANIFEST_VERSION_V1 : N := 1.

(** ** Data *)

Record FountainManifestV1 := mk_manifest {
  fm_content_id : string;
  fm_corpus_kind : string;
  fm_version : N;
  n_source : N;
  k_repair : N;
  symbol_size : N;
  original_content_length : N;
  min_viable_symbols : N;
  symbol_hashes : list string;
  fm_envelope : Value;
  fm_signature : string;
  signature_ml_dsa_65 : string;
  pqc_key_id : string;
}.

Definition total_symbols (m : FountainManifestV1) : N := n_source m + k_repair m.

(** [canonical_value]: the signed members. *)
Definition canonical_value (m : FountainManifestV1) : Value :=
  Object [("content_id", Str (fm_content_id m)); ("corpus_kind", Str (fm_corpus_kind m));
          ("manifest_version", JInt (fm_version m)); ("n_source", JInt (n_source m));
          ("k_repair", JInt (k_repair m)); ("symbol_size", JInt (symbol_size m));
          ("original_content_length", JInt (original_content_length m));
          ("min_viable_symbols", JInt (min_viable_symbols m));
          ("symbol_hashes", Array (map Str (symbol_hashes m))); ("envelope", fm_envelope m)].

Record FountainSymbolV1 := mk_symbol {
  sym_content_id : string;
  symbol_id : N;
  retention_priority : N;
  symbol_bytes : string;
}.

Inductive FountainReadClass := ClassFull | ClassPartial | ClassEnvelopeOnly.
Inductive FountainContent :=
| FullContent (manifest : FountainManifestV1) (symbols : list FountainSymbolV1)
| PartialContent (manifest : FountainManifestV1) (symbols : list FountainSymbolV1) (present : N)
| EnvelopeOnly (manifest : FountainManifestV1).

(** [FountainContent::classify]. *)
Definition classify (present n_source min_viable : N) : FountainReadClass :=
  if (n_source <=? present)%N then ClassFull
  else if (min_viable <=? present)%N then ClassPartial
  else ClassEnvelopeOnly.

Definition content_symbols_of (c : FountainContent) : list FountainSymbolV1 :=
  match c with FullContent _ l => l | PartialContent _ l _ => l | EnvelopeOnly _ => [] end.

(** ** Eviction tiers *)

Inductive FountainTier := TierFull | T2 | T3 | T4 | T5.

#[export] Instance FountainTier_eq_dec : EqDecision FountainTier.
Proof. solve_decision. Defined.

Definition tier_severity (t : FountainTier) : N :=
  match t with TierFull => 0 | T2 => 1 | T3 => 2 | T4 => 3 | T5 => 4 end.

Definition from_pressure (t : PressureTier) : FountainTier :=
  match t with
  | Normal => TierFull | Warn => T2 | Crit => T3 | Stop => T4 | HostAtRisk => T5
  end.

(** [FountainTier::keep_count]. *)
Definition keep_count (t : FountainTier) (m : FountainManifestV1) : N :=
  let n := n_source m in
  let min_viable := N.min (min_viable_symbols m) n in
  match t with
  | TierFull => total_symbols m
  | T2 => n
  | T3 =>
      if (min_viable <? n)%N then
        let mid := (min_viable + (n - min_viable + 1) / 2)%N in
        N.max (N.min mid (n - 1)) min_viable
      else min_viable
  | T4 => min_viable
  | T5 => 0
  end.

(** ** The consent clock *)

Definition TEMPORARY_DECAY_DAYS : Z := 14.
Definition PATTERN_DECAY_DAYS : Z := 90.
Definition DECAY_FRACTION_T2 : F64.t := ratio 1 4.
Definition DECAY_FRACTION_T3 : F64.t := ratio 1 2.
Definition DECAY_FRACTION_T4 : F64.t := ratio 3 4.
Definition DECAY_FRACTION_T5 : F64.t := F64.one.

Inductive ConsentDecayClass := Temporary | Pattern.

Definition window_days (c : ConsentDecayClass) : Z :=
  match c with Temporary => TEMPORARY_DECAY_DAYS | Pattern => PATTERN_DECAY_DAYS end.

(** [ConsentDecayClass::target_tier]; [num_seconds] truncates toward zero. *)
Definition target_tier (c : ConsentDecayClass) (elapsed : Z) : FountainTier :=
  let window := window_days c in
  if (window <=? 0)%Z then if (elapsed <=? 0)%Z then TierFull else T5
  else
  let elapsed_secs := Z.quot elapsed NANOS in
  if (elapsed_secs <=? 0)%Z then TierFull
  else
  let window_secs := (window * 24 * 60 * 60)%Z in
  let fraction := F64.div (F64.of_Z elapsed_secs) (F64.of_Z window_secs) in
  if F64.ltb fraction DECAY_FRACTION_T2 then TierFull
  else if F64.ltb fraction DECAY_FRACTION_T3 then T2
  else if F64.ltb fraction DECAY_FRACTION_T4 then T3
  else if F64.ltb fraction DECAY_FRACTION_T5 then T4
  else T5.

Definition consent_decay_class_from_envelope (envelope : Value) : option ConsentDecayClass :=
  match get_str envelope "consent_decay_class" with
  | Some cls =>
      if cls =s "temporary" then Some Temporary
      else if (cls =s "pattern") || (cls =s "standard") then Some Pattern
      else None
  | None => if is_some (get_str envelope "decay_protocol") then Some Pattern else None
  end.

Definition consent_decay_target_tier (envelope : Value) (admitted_at now : instant)
    : option FountainTier :=
  class ← consent_decay_class_from_envelope envelope;
  Some (target_tier class (now - admitted_at)%Z).

(** ** The consent verdict

    The verdict function belongs to the verify core; what is used of it is that a withdrawn
    consent is always eviction-eligible. *)
Inductive VerifyConsentState := Active | Withdrawn | Unknown.
Inductive RetentionDecision := EvictEligible | DecisionRetainRare | DecisionRetainNonRare.
Inductive RetentionAction := HardDelete | RetainRare | RetainNonRare.

Class RetentionCore := {
  retention_decision : VerifyConsentState -> bool -> RetentionDecision;
  withdrawn_evicts : forall rare, retention_decision Withdrawn rare = EvictEligible;
}.

Definition map_consent_state (s : ConsentState) : VerifyConsentState :=
  match s with Granted => Active | Revoked => Withdrawn | Expired | Unspecified => Unknown end.

Definition is_hard_delete (a : RetentionAction) : bool :=
  match a with HardDelete => true | _ => false end.

Section Retention.
Context `{RetentionCore}.

Definition resolve_retention_action (consent : ConsentState) (is_rare : bool) : RetentionAction :=
  match retention_decision (map_consent_state consent) is_rare with
  | EvictEligible => HardDelete
  | DecisionRetainRare => RetainRare
  | DecisionRetainNonRare => RetainNonRare
  end.

Definition retention_action_with_retain_window (consent : ConsentState) (retain : ScopedStance)
    (now : instant) (is_rare : bool) : RetentionAction :=
  if is_some_and (ss_retain_until retain) (fun until => (until <=? now)%Z)
  then resolve_retention_action Revoked is_rare
  else resolve_retention_action consent is_rare.
End Retention.

(** ** Admission *)

Inductive HybridVerdict := HybridOk | HybridPendingRejected | HybridFailed.

(** SHA-256 in hex, and the hybrid signature check at policy [Strict] (message, the two
    signatures, the two public keys). *)
Class FountainCrypto := {
  symbol_sha256_hex : string -> string;
  verify_hybrid : string -> string -> option string -> string -> option string -> HybridVerdict;
}.

Inductive FountainAdmitError :=
| HybridRequired
| HybridVerifyFailed
| UnsupportedManifestVersion (got : N)
| SymbolHashesLenMismatch (got expected : N)
| SymbolIdOutOfRange (id total : N)
| DuplicateSymbolId (id : N)
| SymbolContentIdMismatch (symbol manifest : string)
| SymbolHashMismatch (id : N).

Section Admission.
Context `{FountainCrypto}.

(** The loop over the provided symbols. *)
Fixpoint check_symbols (m : FountainManifestV1) (seen : list N) (symbols : list FountainSymbolV1)
    : FountainAdmitError + unit :=
  match symbols with
  | [] => inr tt
  | sym :: rest =>
      if sym_content_id sym <>s fm_content_id m
      then inl (SymbolContentIdMismatch (sym_content_id sym) (fm_content_id m))
      else if (total_symbols m <=? symbol_id sym)%N
      then inl (SymbolIdOutOfRange (symbol_id sym) (total_symbols m))
      else if bool_decide (symbol_id sym ∈ seen) then inl (DuplicateSymbolId (symbol_id sym))
      else match symbol_hashes m !! N.to_nat (symbol_id sym) with
      | Some expected =>
          if symbol_sha256_hex (symbol_bytes sym) <>s expected
          then inl (SymbolHashMismatch (symbol_id sym))
          else check_symbols m (symbol_id sym :: seen) rest
      | None => inl (SymbolHashMismatch (symbol_id sym))
      end
  end.

(** [check_admission]. The index of a hash is in range here, so its last case is not
    reached. *)
Definition check_admission (m : FountainManifestV1) (symbols : list FountainSymbolV1)
    (ed25519_pubkey : string) (ml_dsa_65_pubkey : option string) : FountainAdmitError + unit :=
  if negb (fm_version m =? MANIFEST_VERSION_V1)%N then inl (UnsupportedManifestVersion (fm_version m))
  else if signature_ml_dsa_65 m =s "" then inl HybridRequired
  else match verify_hybrid (write_value (canonical_value m)) (fm_signature m)
               (Some (signature_ml_dsa_65 m)) ed25519_pubkey ml_dsa_65_pubkey with
  | HybridPendingRejected => inl HybridRequired
  | HybridFailed => inl HybridVerifyFailed
  | HybridOk =>
      if negb (len (symbol_hashes m) =? total_symbols m)%N
      then inl (SymbolHashesLenMismatch (len (symbol_hashes m)) (total_symbols m))
      else check_symbols m [] symbols
  end.

Definition check_admission_via_envelope (m : FountainManifestV1) (symbols : list FountainSymbolV1)
    : FountainAdmitError + unit :=
  match get_str (fm_envelope m) "pubkey_ed25519" with
  | None => inl HybridVerifyFailed
  | Some ed_pubkey =>
      check_admission m symbols ed_pubkey (get_str (fm_envelope m) "pubkey_ml_dsa_65")
  end.
End Admission.

(** ** The tables

    [content_manifest] is keyed by content id and corpus kind, [content_symbols] by content
    id and symbol id. *)
Record FountainStore := mk_store {
  manifests : gmap (string * string) (FountainManifestV1 * instant);
  content_symbols : gmap (string * N) (N * string);
}.

Definition empty_store : FountainStore := mk_store ∅ ∅.

Inductive StoreError :=
| Admission (e : FountainAdmitError)
| LengthExceedsI64
| FountainIntegrity.

Definition upsert_symbol (t : gmap (string * N) (N * string)) (s : FountainSymbolV1)
    : gmap (string * N) (N * string) :=
  <[(sym_content_id s, symbol_id s) := (retention_priority s, symbol_bytes s)]> t.

(** [store_planned_fountain_content]: the manifest on conflict do nothing, the symbols on
    conflict update. *)
Definition store_planned (m : FountainManifestV1) (symbols : list FountainSymbolV1) (now : instant)
    (st : FountainStore) : FountainStore :=
  let key := (fm_content_id m, fm_corpus_kind m) in
  mk_store (match manifests st !! key with
            | Some _ => manifests st
            | None => <[key := (m, now)]> (manifests st)
            end)
           (fold_left upsert_symbol symbols (content_symbols st)).

(** The rows of a content id, in an order. *)
Definition symbol_rows (st : FountainStore) (content_id : string) : list FountainSymbolV1 :=
  omap (fun '((cid, id), (priority, bytes)) =>
          if cid =s content_id then Some (mk_symbol cid id priority bytes) else None)
       (map_to_list (content_symbols st)).
Definition by_id (a b : FountainSymbolV1) : bool := (symbol_id a <? symbol_id b)%N.
(** [ORDER BY retention_priority ASC, symbol_id ASC]. *)
Definition by_priority (a b : FountainSymbolV1) : bool :=
  (retention_priority a <? retention_priority b)%N
  || (retention_priority a =? retention_priority b)%N && (symbol_id a <? symbol_id b)%N.

Definition symbol_key (s : FountainSymbolV1) : string * N := (sym_content_id s, symbol_id s).
Definition drop_symbols (rows : list FountainSymbolV1) (st : FountainStore) : FountainStore :=
  mk_store (manifests st) (foldr (fun s t => delete (symbol_key s) t) (content_symbols st) rows).

(** The rows whose [ROW_NUMBER] is past the keep-count. *)
Definition evicted_rows (st : FountainStore) (content_id : string) (keep : N)
    : list FountainSymbolV1 :=
  drop (N.to_nat keep) (sort_by by_priority (symbol_rows st content_id)).

Definition evict_fountain_content_to_tier (st : FountainStore) (content_id corpus_kind : string)
    (t : FountainTier) : FountainStore * N :=
  match manifests st !! (content_id, corpus_kind) with
  | None => (st, 0%N)
  | Some (m, _) =>
      let rows := evicted_rows st content_id (keep_count t m) in
      (drop_symbols rows st, len rows)
  end.

Definition evict_fountain_content_hard_delete (st : FountainStore) (content_id corpus_kind : string)
    : FountainStore * N :=
  match manifests st !! (content_id, corpus_kind) with
  | None => (st, 0%N)
  | Some _ =>
      let rows := symbol_rows st content_id in
      (drop_symbols rows st, len rows)
  end.

Section Reads.
Context `{FountainCrypto}.

(** [put_fountain_content_planned]. *)
Definition put_fountain_content (m : FountainManifestV1) (symbols : list FountainSymbolV1)
    (now : instant) (st : FountainStore) : StoreError + FountainStore :=
  match check_admission_via_envelope m symbols with
  | inl e => inl (Admission e)
  | inr _ =>
      if (2 ^ 63 <=? original_content_length m)%N then inl LengthExceedsI64
      else inr (store_planned m symbols now st)
  end.

Definition authentic (m : FountainManifestV1) (s : FountainSymbolV1) : bool :=
  match symbol_hashes m !! N.to_nat (symbol_id s) with
  | Some expected => symbol_sha256_hex (symbol_bytes s) =s expected
  | None => false
  end.

(** [assemble_fountain_content]; the count is taken as [u32]. *)
Definition assemble_fountain_content (m : FountainManifestV1) (symbols : list FountainSymbolV1)
    : StoreError + FountainContent :=
  if forallb (authentic m) symbols then
    let present := (len symbols mod 2 ^ 32)%N in
    inr (match classify present (n_source m) (min_viable_symbols m) with
         | ClassFull => FullContent m symbols
         | ClassPartial => PartialContent m symbols present
         | ClassEnvelopeOnly => EnvelopeOnly m
         end)
  else inl FountainIntegrity.

Definition get_fountain_content (st : FountainStore) (content_id corpus_kind : string)
    : StoreError + option FountainContent :=
  match manifests st !! (content_id, corpus_kind) with
  | None => inr None
  | Some (m, _) =>
      match assemble_fountain_content m (sort_by by_id (symbol_rows st content_id)) with
      | inr c => inr (Some c)
      | inl e => inl e
      end
  end.
End Reads.

(** ** The triggers *)

(** [Engine::evict_fountain_content_for_disk_pressure]. *)
Definition evict_for_disk_pressure (snapshot : DiskPressureSnapshot) (st : FountainStore)
    (content_id corpus_kind : string) : FountainStore * N :=
  evict_fountain_content_to_tier st content_id corpus_kind (from_pressure (snap_tier snapshot)).

(** [Engine::evict_fountain_content_by_consent], from the stances it reads. *)
Definition evict_by_consent `{RetentionCore} (consent : ConsentState) (retain : ScopedStance)
    (is_rare : bool) (now : instant) (st : FountainStore) (content_id corpus_kind : string)
    : FountainStore * N :=
  if is_hard_delete (retention_action_with_retain_window consent retain now is_rare)
  then evict_fountain_content_hard_delete st content_id corpus_kind
  else (st, 0%N).

Record FountainDecayCandidate := mk_candidate {
  cand_content_id : string;
  cand_corpus_kind : string;
  cand_envelope : Value;
  cand_admitted_at : instant;
}.

(** [list_fountain_decay_candidates]: every manifest; the statement fixes no order. *)
Definition list_fountain_decay_candidates (st : FountainStore) : list FountainDecayCandidate :=
  map (fun '((cid, kind), (m, at_)) => mk_candidate cid kind (fm_envelope m) at_)
      (map_to_list (manifests st)).

Record ConsentDecaySweepReport := mk_report {
  content_scanned : N;
  content_with_decay_class : N;
  content_decayed : N;
  symbols_evicted : N;
}.

(** One turn of [Engine::sweep_consent_decay_once]. *)
Definition decay_one (now : instant) (acc : FountainStore * ConsentDecaySweepReport)
    (c : FountainDecayCandidate) : FountainStore * ConsentDecaySweepReport :=
  let '(st, r) := acc in
  let scanned := (content_scanned r + 1)%N in
  match consent_decay_target_tier (cand_envelope c) (cand_admitted_at c) now with
  | None => (st, mk_report scanned (content_with_decay_class r) (content_decayed r) (symbols_evicted r))
  | Some tier =>
      let with_class := (content_with_decay_class r + 1)%N in
      if decide (tier = TierFull)
      then (st, mk_report scanned with_class (content_decayed r) (symbols_evicted r))
      else
        let '(st', evicted) :=
          evict_fountain_content_to_tier st (cand_content_id c) (cand_corpus_kind c) tier in
        (st', mk_report scanned with_class
                (content_decayed r + (if (0 <? evicted)%N then 1 else 0))%N
                (symbols_evicted r + evicted)%N)
  end.
Definition sweep_consent_decay (candidates : list FountainDecayCandidate) (now : instant)
    (st : FountainStore) : FountainStore * ConsentDecaySweepReport :=
  fold_left (decay_one now) candidates (st, mk_report 0 0 0 0).

Example keep_table :
  map (fun t => keep_count t (mk_manifest "c" "trace" 1 10 4 8 1 3 [] Null "" "" ""))
      [TierFull; T2; T3; T4; T5] = [14; 10; 7; 3; 0]%N.
Proof. reflexivity. Qed.
Example fourteen_days :
  map (fun d => target_tier Temporary (d * 86400 * NANOS)) [0; 3; 4; 8; 11; 14; 100; -5]%Z
  = [TierFull; TierFull; T2; T3; T4; T5; T5; TierFull].
Proof. vm_compute. reflexivity. Qed.
Example ninety_days :
  map (fun d => target_tier Pattern (d * 86400 * NANOS)) [22; 23; 46; 68; 90]%Z
  = [TierFull; T2; T3; T4; T5].
Proof. vm_compute. reflexivity. Qed.
