(* ===== verification/FountainFacts.v ===== *)
(** * Fountain-coded content: what is kept, when it goes, and what a read answers

    Proofs about [Fountain]. *)

From Stdlib Require Import ZArith NArith Lia ZifyBool Lra Reals Ascii String Permutation Sorted Floats.SpecFloat.
From stdpp Require Import base list strings gmap sorting.
From S2P Require Import Prelude RustStd Json F64Facts Canonical Consent Pressure Fountain.

Open Scope string_scope.
Open Scope list_scope.
Open Scope persist_scope.

(** ** Rows *)

Lemma symbol_eta s : mk_symbol (sym_content_id s) (symbol_id s) (retention_priority s) (symbol_bytes s) = s.
Proof. by destruct s. Qed.

Lemma rows_In st cid s :
  In s (symbol_rows st cid) <->
  sym_content_id s = cid /\ content_symbols st !! symbol_key s = Some (retention_priority s, symbol_bytes s).
Proof.
  unfold symbol_rows. rewrite <- list_elem_of_In, list_elem_of_omap. split.
  - intros ([[c i] [p b]] & Hin & Hs). apply elem_of_map_to_list in Hin.
    destruct (String.eqb_spec c cid); simplify_eq. done.
  - intros [<- Hl]. exists (symbol_key s, (retention_priority s, symbol_bytes s)).
    rewrite elem_of_map_to_list. split; [done|]. unfold symbol_key.
    by rewrite String.eqb_refl, symbol_eta.
Qed.

(** Rows of one content differ in their symbol id. *)
Lemma rows_by_id st cid a b :
  In a (symbol_rows st cid) -> In b (symbol_rows st cid) -> symbol_id a = symbol_id b -> a = b.
Proof.
  rewrite !rows_In. intros [Ha Hla] [Hb Hlb] Hid. destruct a, b; unfold symbol_key in *; simpl in *. simplify_eq. done.
Qed.

Lemma omap_NoDup {A B} (f : A -> option B) (l : list A) :
  (forall a b y, In a l -> In b l -> f a = Some y -> f b = Some y -> a = b) -> NoDup l -> NoDup (omap f l).
Proof.
  intros Hf. induction 1 as [|a l Ha Hl IH]; csimpl; [constructor|].
  assert (IH' : NoDup (omap f l)) by (apply IH; intros; eapply Hf; simpl; eauto).
  destruct (f a) as [y|] eqn:E; [|done]. constructor; [|done].
  rewrite list_elem_of_omap. intros (b & Hb & E'). apply Ha.
  rewrite (Hf a b y); [done|by left| |done|done]. right. by apply list_elem_of_In.
Qed.

Lemma rows_NoDup st cid : NoDup (symbol_rows st cid).
Proof.
  apply omap_NoDup; [|apply NoDup_map_to_list].
  intros [[c i] [p b]] [[c' i'] [p' b']] y _ _.
  destruct (String.eqb_spec c cid), (String.eqb_spec c' cid); intros; by simplify_eq.
Qed.

(** The order of eviction: rows of one content in rank. *)
Definition ranked (st : FountainStore) (cid : string) : list FountainSymbolV1 :=
  sort_by by_priority (symbol_rows st cid).

Lemma by_priority_asym a b : by_priority a b = true -> by_priority b a = false.
Proof. unfold by_priority. lia. Qed.
Lemma by_priority_cotrans a b c : by_priority a c = true -> by_priority a b = true \/ by_priority b c = true.
Proof. unfold by_priority. lia. Qed.

Lemma ranked_sorted st cid : StronglySorted (not_after by_priority) (ranked st cid).
Proof. apply sort_by_sorted; [apply by_priority_asym|apply by_priority_cotrans]. Qed.
Lemma ranked_In st cid s : In s (ranked st cid) <-> In s (symbol_rows st cid).
Proof. apply sort_by_In. Qed.
Lemma ranked_NoDup st cid : NoDup (ranked st cid).
Proof. unfold ranked. rewrite sort_by_perm. apply rows_NoDup. Qed.
Lemma len_ranked st cid : len (ranked st cid) = len (symbol_rows st cid).
Proof. apply len_perm, sort_by_perm. Qed.

(** A list of the rows, in rank, is the rank. *)
Lemma ranked_unique st cid l :
  StronglySorted (not_after by_priority) l -> NoDup l -> (forall s, In s l <-> In s (symbol_rows st cid)) ->
  ranked st cid = l.
Proof.
  intros Hs Hn Hl. unfold ranked. rewrite <- (sort_by_id by_priority l) by done.
  apply sort_by_perm_eq; [apply by_priority_asym|apply by_priority_cotrans| |].
  - intros a b Ha Hb Hab Hba. eapply rows_by_id; [done..|].
    unfold by_priority in *. lia.
  - apply NoDup_Permutation; [apply rows_NoDup|done|]. intros s. rewrite !list_elem_of_In. by rewrite Hl.
Qed.

(** ** Dropping rows *)

Lemma drop_lookup rows st k :
  content_symbols (drop_symbols rows st) !! k =
    if decide (k ∈ map symbol_key rows) then None else content_symbols st !! k.
Proof.
  unfold drop_symbols; simpl. induction rows as [|s rows IH]; simpl; [done|].
  destruct (decide (symbol_key s = k)) as [<-|Hk].
  - rewrite lookup_delete_eq, decide_True; [done|]. apply elem_of_cons. by left.
  - rewrite lookup_delete_ne by done. rewrite IH.
    assert (E : k ∈ symbol_key s :: map symbol_key rows <-> k ∈ map symbol_key rows)
      by (rewrite elem_of_cons; naive_solver).
    destruct (decide (k ∈ map symbol_key rows)), (decide (k ∈ symbol_key s :: map symbol_key rows)); tauto.
Qed.

Lemma store_ext st st' :
  manifests st = manifests st' -> content_symbols st = content_symbols st' -> st = st'.
Proof. destruct st, st'. simpl. by intros -> ->. Qed.

(** Rows of a content dropped from it: the others stay. *)
Lemma rows_after_drop st cid rows s :
  (forall r, In r rows -> In r (symbol_rows st cid)) ->
  In s (symbol_rows (drop_symbols rows st) cid) <-> In s (symbol_rows st cid) /\ ~ In s rows.
Proof.
  intros Hrows. rewrite !rows_In, drop_lookup.
  destruct (decide _) as [Hd|Hd].
  - apply list_elem_of_fmap in Hd as (r & Hk & Hr). rewrite list_elem_of_In in Hr. split; [by intros [_ ?]|].
    intros [Hin Hn]. destruct Hn. replace s with r; [done|].
    eapply (rows_by_id st cid); [by apply Hrows|by apply rows_In|]. unfold symbol_key in Hk. congruence.
  - split; [intros [? ?]; split; [done|]|by intros [? ?]]. intros Hs. apply Hd, list_elem_of_fmap.
    exists s. by rewrite list_elem_of_In.
Qed.

Lemma take_In {A} n (l : list A) x : In x (take n l) -> In x l.
Proof. intros H. rewrite <- (take_drop n l). apply in_app_iff. by left. Qed.
Lemma drop_In {A} n (l : list A) x : In x (drop n l) -> In x l.
Proof. intros H. rewrite <- (take_drop n l). apply in_app_iff. by right. Qed.

(** After an eviction to a count, the rank is the start of the rank before. *)
Lemma ranked_evicted st cid n :
  ranked (drop_symbols (drop n (ranked st cid)) st) cid = take n (ranked st cid).
Proof.
  pose proof (ranked_sorted st cid) as Hs. pose proof (ranked_NoDup st cid) as Hn.
  rewrite <- (take_drop n (ranked st cid)) in Hs, Hn. apply NoDup_app in Hn as (N1 & Hsep & N2).
  apply ranked_unique.
  - by eapply StronglySorted_app_1_l.
  - done.
  - intros s. rewrite rows_after_drop.
    + rewrite <- ranked_In. split.
      * intros H. split; [by eapply take_In|]. intros H'. apply (Hsep s); by apply list_elem_of_In.
      * intros [H H']. rewrite <- (take_drop n (ranked st cid)) in H. apply in_app_iff in H as [H|H]; done.
    + intros r Hr. apply ranked_In. by eapply drop_In.
Qed.

Lemma other_content st cid rows k :
  (forall r, In r rows -> sym_content_id r = cid) -> k.1 <> cid ->
  content_symbols (drop_symbols rows st) !! k = content_symbols st !! k.
Proof.
  intros Hr Hk. rewrite drop_lookup. destruct (decide _) as [Hd|]; [|done].
  apply list_elem_of_fmap in Hd as (r & -> & H). destruct Hk. apply Hr. by apply list_elem_of_In.
Qed.

(** ** Evicting to a tier *)

Lemma keep_count_antitone a b m : (tier_severity a <= tier_severity b)%N -> (keep_count b m <= keep_count a m)%N.
Proof.
  unfold keep_count, total_symbols. set (n := n_source m). set (v := N.min (min_viable_symbols m) n).
  assert (Hv : (v <= n)%N) by lia. generalize dependent v. generalize (k_repair m). clearbody n. intros k v Hv.
  destruct a, b; simpl; intros; try lia; destruct (N.ltb_spec v n); lia.
Qed.

(** What an eviction keeps. Evicting to a tier leaves exactly the tier's count of the
    content's symbols, those of the lowest (priority, id), and reports how many went. No
    manifest changes, and no other content's symbols. An unknown content is left alone. *)
Theorem eviction_exact (st : FountainStore) (content_id corpus_kind : string) (t : FountainTier) :
  let '(st', evicted) := evict_fountain_content_to_tier st content_id corpus_kind t in
  manifests st' = manifests st /\
  (forall k, k.1 <> content_id -> content_symbols st' !! k = content_symbols st !! k) /\
  match manifests st !! (content_id, corpus_kind) with
  | None => st' = st /\ evicted = 0%N
  | Some (m, _) =>
      ranked st' content_id = take (N.to_nat (keep_count t m)) (ranked st content_id) /\
      evicted = (len (symbol_rows st content_id) - keep_count t m)%N
  end.
Proof.
  unfold evict_fountain_content_to_tier, evicted_rows. fold (ranked st content_id).
  destruct (manifests st !! (content_id, corpus_kind)) as [[m at_]|]; [|done].
  split; [done|]. split; [|split].
  - intros k Hk. apply (other_content st content_id); [|done]. intros r Hr.
    apply drop_In, ranked_In, rows_In in Hr. by destruct Hr.
  - apply ranked_evicted.
  - rewrite <- len_ranked. unfold len. rewrite length_drop. lia.
Qed.

(** Stores with the same manifests and the same ranks are the same. *)
Lemma ranked_ext st st' :
  manifests st = manifests st' -> (forall cid, ranked st cid = ranked st' cid) -> st = st'.
Proof.
  intros Hm Hr. apply store_ext; [done|]. apply map_eq. intros [cid id]. apply option_eq. intros [p b].
  assert (E : forall s, In s (symbol_rows st cid) <-> In s (symbol_rows st' cid)).
  { intros s. by rewrite <- !ranked_In, Hr. }
  specialize (E (mk_symbol cid id p b)). rewrite !rows_In in E. unfold symbol_key in E. simpl in E. tauto.
Qed.

Lemma ranked_other st cid n other :
  other <> cid -> ranked (drop_symbols (drop n (ranked st cid)) st) other = ranked st other.
Proof.
  intros Hne. apply ranked_unique; [apply ranked_sorted|apply ranked_NoDup|]. intros s.
  rewrite ranked_In, !rows_In. split; (intros [Hc H]; split; [done|]).
  - rewrite (other_content st cid); [done| |simpl; congruence].
    intros r Hr. apply drop_In, ranked_In, rows_In in Hr. by destruct Hr.
  - rewrite (other_content st cid) in H; [done| |simpl; congruence].
    intros r Hr. apply drop_In, ranked_In, rows_In in Hr. by destruct Hr.
Qed.

(** Keeping [n], then [n'], keeps the lesser. *)
Lemma keep_keep st cid n n' :
  drop_symbols (drop n' (take n (ranked st cid))) (drop_symbols (drop n (ranked st cid)) st) =
  drop_symbols (drop (Nat.min n n') (ranked st cid)) st.
Proof.
  set (st1 := drop_symbols (drop n (ranked st cid)) st).
  assert (E : ranked st1 cid = take n (ranked st cid)) by apply ranked_evicted.
  rewrite <- E. apply ranked_ext; [done|]. intros other. destruct (decide (other = cid)) as [->|Hne].
  - rewrite !ranked_evicted, E, take_take. f_equal. lia.
  - rewrite !ranked_other by done. unfold st1. by rewrite ranked_other.
Qed.

(** The tighter of two tiers. *)
Definition tighter (a b : FountainTier) : FountainTier :=
  if (tier_severity a <=? tier_severity b)%N then b else a.

Lemma keep_count_tighter a b m : keep_count (tighter a b) m = N.min (keep_count a m) (keep_count b m).
Proof.
  unfold tighter. destruct (N.leb_spec (tier_severity a) (tier_severity b)) as [H|H];
    pose proof (keep_count_antitone a b m); pose proof (keep_count_antitone b a m); lia.
Qed.

(** Evictions compose to the tighter. Whichever triggers run, and in whatever order, a
    content's store is that of the tightest tier asked of it: two evictions are the eviction
    to the tighter tier, so they commute, and repeating one, or following it with a looser
    one, changes nothing: no eviction brings a symbol back. *)
Theorem evictions_compose (st : FountainStore) (content_id corpus_kind : string) (a b : FountainTier) :
  let evict t s := fst (evict_fountain_content_to_tier s content_id corpus_kind t) in
  evict b (evict a st) = evict (tighter a b) st.
Proof.
  cbv zeta. unfold evict_fountain_content_to_tier, evicted_rows.
  fold (ranked st content_id).
  destruct (manifests st !! (content_id, corpus_kind)) as [[m at_]|] eqn:E; simpl.
  - rewrite E. simpl. fold (ranked (drop_symbols (drop (N.to_nat (keep_count a m)) (ranked st content_id)) st) content_id).
    rewrite ranked_evicted, keep_keep, keep_count_tighter. repeat f_equal. lia.
  - by rewrite E.
Qed.

(** ** The clock *)

Lemma bpow_opp n : (0 <= n)%Z -> bpow (- n) = (/ IZR (2 ^ n))%R.
Proof.
  intros H. rewrite <- bpow_Z by done. pose proof (bpow_pos n).
  assert (E : (bpow n * bpow (- n) = 1)%R) by (rewrite <- bpow_add, Z.add_opp_diag_r; done).
  apply (Rmult_eq_reg_l (bpow n)); [|lra]. rewrite E. field. lra.
Qed.

Lemma dyadic m e n : valid64 (S754_finite false m (- e)) -> (0 <= e)%Z -> (Zpos m = n * 2 ^ (e - 25))%Z ->
  (25 <= e)%Z -> amount (S754_finite false m (- e)) /\ val (S754_finite false m (- e)) = (IZR n * / IZR (2 ^ 25))%R.
Proof.
  intros Hv He Hm Hle. split; [done|]. simpl val. rewrite Rmult_1_l, Hm, mult_IZR.
  replace (- e)%Z with (- (e - 25) + - (25))%Z by lia. rewrite bpow_add, !bpow_opp by lia.
  assert (IZR (2 ^ (e - 25)) <> 0)%R by (apply not_0_IZR, Z.pow_nonzero; lia). field.
  split; [|done]. apply not_0_IZR. lia.
Qed.

(** A breakpoint: a representable quarter, with a representable value just below it. *)
Definition breakpoint (q : F64.t) (k : Z) : Prop :=
  (amount q /\ val q = (IZR (k * 2 ^ 23) * / IZR (2 ^ 25))%R) /\
  exists below, amount below /\ val below = (IZR (k * 2 ^ 23 - 1) * / IZR (2 ^ 25))%R.

Lemma breakpoints :
  breakpoint DECAY_FRACTION_T2 1 /\ breakpoint DECAY_FRACTION_T3 2 /\
  breakpoint DECAY_FRACTION_T4 3 /\ breakpoint DECAY_FRACTION_T5 4.
Proof.
  assert (H : forall q k m e b eb, q = S754_finite false m (- e) -> valid64 (S754_finite false m (- e)) ->
    valid64 (S754_finite false b (- eb)) -> (25 <= e)%Z -> (25 <= eb)%Z ->
    (Zpos m = k * 2 ^ 23 * 2 ^ (e - 25))%Z -> (Zpos b = (k * 2 ^ 23 - 1) * 2 ^ (eb - 25))%Z -> breakpoint q k).
  { intros q k m e b eb -> Hm Hb He Heb Em Eb. split; [by apply dyadic; [|lia|..]|].
    exists (S754_finite false b (- eb)). by apply dyadic; [|lia|..]. }
  split; [|split; [|split]].
  - by apply (H _ _ (2 ^ 52)%positive 54%Z (Z.to_pos ((2 ^ 23 - 1) * 2 ^ 30)) 55%Z).
  - by apply (H _ _ (2 ^ 52)%positive 53%Z (Z.to_pos ((2 ^ 24 - 1) * 2 ^ 29)) 54%Z).
  - by apply (H _ _ (3 * 2 ^ 51)%positive 53%Z (Z.to_pos ((3 * 2 ^ 23 - 1) * 2 ^ 28)) 53%Z).
  - by apply (H _ _ (2 ^ 52)%positive 52%Z (Z.to_pos ((2 ^ 25 - 1) * 2 ^ 28)) 53%Z).
Qed.

(** The comparison with a breakpoint is the comparison of whole numbers. *)
Lemma fraction_before q k s w :
  breakpoint q k -> (1 <= k <= 4)%Z -> (0 < s <= 2 ^ 64)%Z -> (0 < w <= 2 ^ 23)%Z ->
  F64.ltb (F64.div (F64.of_Z s) (F64.of_Z w)) q = (4 * s <? k * w)%Z.
Proof.
  intros [[Hq Eq] (b & Hb & Eb)] Hk Hs Hw.
  destruct (seconds s Hs) as (As & Es & Gs). destruct (seconds w) as (Aw & Ew & _); [lia|].
  specialize (Ew ltac:(lia)).
  pose proof (div_rounds _ _ As Aw ltac:(rewrite Ew; apply IZR_lt; lia)) as Hr. rewrite Ew in Hr.
  assert (Wp : (1 <= IZR w)%R) by (apply IZR_le; lia).
  assert (Ar : amount (F64.div (F64.of_Z s) (F64.of_Z w))).
  { destruct (rounds_finite _ _ _ Hr As) as [Ar _]; [|done].
    destruct As as [_ N]. apply val_nonneg in N. apply (Rmult_le_reg_r (IZR w)); [lra|].
    unfold Rdiv. rewrite Rmult_assoc, Rinv_l by lra. nra. }
  assert (D : (0 < IZR (2 ^ 25))%R) by (apply IZR_lt; lia).
  assert (Hscale : forall V n, (V / IZR w * (IZR w * IZR (2 ^ 25)) = V * IZR (2 ^ 25) /\
    IZR n * / IZR (2 ^ 25) * (IZR w * IZR (2 ^ 25)) = IZR n * IZR w)%R) by (intros; split; field; lra).
  rewrite ltb_leb by done. destruct (Z.ltb_spec (4 * s) (k * w)) as [L|L].
  - assert (k * w <= 4 * 2 ^ 23)%Z by nia. rewrite Es in Hr by lia. destruct (rounds_finite _ _ b Hr Hb) as [_ Lr].
    { rewrite Eb. apply (Rmult_le_reg_r (IZR w * IZR (2 ^ 25))); [nra|].
      destruct (Hscale (IZR s) (k * 2 ^ 23 - 1)%Z) as [-> ->]. rewrite <- !mult_IZR. apply IZR_le. lia. }
    apply negb_true_iff, not_true_iff_false. intros C.
    apply leb_val in C, Lr; [|done..]. rewrite Eq in C. rewrite Eb, minus_IZR in Lr.
    pose proof (Rinv_0_lt_compat _ D). nra.
  - apply negb_false_iff, Hr; [done|]. rewrite Eq. apply (Rmult_le_reg_r (IZR w * IZR (2 ^ 25))); [nra|].
    destruct (Hscale (val (F64.of_Z s)) (k * 2 ^ 23)%Z) as [-> ->]. rewrite <- mult_IZR.
    destruct (Z_le_gt_dec s (2 ^ 53)) as [L53|G53].
    + rewrite Es, <- mult_IZR by done. apply IZR_le. lia.
    + specialize (Gs ltac:(lia)). apply Rle_trans with (IZR (2 ^ 53) * IZR (2 ^ 25))%R; [|nra].
      rewrite <- mult_IZR. apply IZR_le. nia.
Qed.

(** The decay clock is exact. The fraction of floats orders a content's age, in whole
    seconds, against the quarters of its window as integer arithmetic does: it enters T2, T3,
    T4 and T5 at the first second at or past a quarter, a half, three quarters and the whole
    of the window, at every age a duration can have. *)
Theorem decay_clock_exact (c : ConsentDecayClass) (elapsed : Z)
    (Hrange : (elapsed <= (2 ^ 63 - 1) * 1000000)%Z) :
  let s := Z.quot elapsed NANOS in
  let window := (window_days c * 86400)%Z in
  target_tier c elapsed =
    if (4 * s <? window)%Z then TierFull
    else if (4 * s <? 2 * window)%Z then T2
    else if (4 * s <? 3 * window)%Z then T3
    else if (s <? window)%Z then T4
    else T5.
Proof.
  cbv zeta. set (s := Z.quot elapsed NANOS).
  assert (Hw : (86400 <= window_days c * 86400 <= 2 ^ 23)%Z) by (destruct c; done).
  assert (Hs : (s <= 2 ^ 64)%Z).
  { unfold s. destruct (Z_le_gt_dec elapsed 0) as [L|G].
    - assert (Z.quot elapsed NANOS <= 0)%Z by (apply Z.quot_le_upper_bound; unfold NANOS; lia). lia.
    - apply Z.quot_le_upper_bound; unfold NANOS; lia. }
  unfold target_tier. fold s.
  replace (window_days c * 24 * 60 * 60)%Z with (window_days c * 86400)%Z by lia.
  replace (window_days c <=? 0)%Z with false by (by destruct c).
  destruct (Z.leb_spec s 0) as [L|L]; [by rewrite (proj2 (Z.ltb_lt _ _)) by lia|].
  destruct breakpoints as (B1 & B2 & B3 & B4).
  rewrite (fraction_before _ _ _ _ B1), (fraction_before _ _ _ _ B2), (fraction_before _ _ _ _ B3),
    (fraction_before _ _ _ _ B4) by lia.
  rewrite Z.mul_1_l. by replace (4 * s <? 4 * _)%Z with (s <? window_days c * 86400)%Z by lia.
Qed.

Lemma decay_clock_monotone c e e' :
  (e <= e')%Z -> (e' <= (2 ^ 63 - 1) * 1000000)%Z ->
  (tier_severity (target_tier c e) <= tier_severity (target_tier c e'))%N.
Proof.
  intros He He'. rewrite !decay_clock_exact by lia.
  assert (Hq : (Z.quot e NANOS <= Z.quot e' NANOS)%Z) by (apply Z.quot_le_mono; unfold NANOS; lia).
  assert (0 < window_days c)%Z by (by destruct c).
  revert Hq. generalize (Z.quot e NANOS), (Z.quot e' NANOS). intros s s' Hq.
  repeat match goal with |- context[(?x <? ?y)%Z] => destruct (Z.ltb_spec x y) end; simpl; lia.
Qed.

(** ** Many limits

    A sweep is a sequence of limits on contents; what it leaves is fixed by the least limit
    of each. *)
Definition limit (cid : string) (n : nat) (st : FountainStore) : FountainStore :=
  drop_symbols (drop n (ranked st cid)) st.
Definition limits (ls : list (string * nat)) (st : FountainStore) : FountainStore :=
  fold_left (fun st '(cid, n) => limit cid n st) ls st.

Lemma limits_manifests ls st : manifests (limits ls st) = manifests st.
Proof. revert st. induction ls as [|[c n] ls IH]; intros st; simpl; [done|]. by rewrite IH. Qed.

(** The least limit of a content, starting from a length. *)
Definition least (ls : list (string * nat)) (cid : string) (n : nat) : nat :=
  fold_left (fun n '(c, k) => if c =s cid then Nat.min n k else n) ls n.

Lemma ranked_limits ls st cid n :
  (length (ranked st cid) <= n)%nat -> ranked (limits ls st) cid = take (least ls cid n) (ranked st cid).
Proof.
  revert st n. induction ls as [|[c k] ls IH]; intros st n Hn; simpl; [by rewrite take_ge|].
  destruct (String.eqb_spec c cid) as [->|Hne].
  - assert (E : ranked (limit cid k st) cid = take k (ranked st cid)) by apply ranked_evicted.
    rewrite (IH _ (Nat.min n k)), E, take_take; [|rewrite E, length_take; lia].
    f_equal. assert (G : forall m, (least ls cid m <= m)%nat); [|specialize (G (Nat.min n k)); lia].
    clear. induction ls as [|[c k] ls IH]; intros m; simpl; [done|]. etrans; [apply IH|]. destruct (c =s cid); lia.
  - rewrite (IH _ n); unfold limit; rewrite ranked_other; congruence.
Qed.

Lemma least_spec ls cid n b :
  (b <= least ls cid n)%nat <-> (b <= n)%nat /\ forall k, In (cid, k) ls -> (b <= k)%nat.
Proof.
  revert n. induction ls as [|[c k] ls IH]; intros n; simpl; [naive_solver|].
  rewrite IH. destruct (String.eqb_spec c cid) as [->|Hne].
  - split; [intros [H1 H2]; split; [lia|]; intros k' [E|Hin]; [simplify_eq; lia|by apply H2]|].
    intros [H1 H2]. split; [|eauto]. specialize (H2 k (or_introl eq_refl)). lia.
  - split; intros [H1 H2]; (split; [done|]); intros k' Hk; [destruct Hk as [E|]; [congruence|]|]; eauto.
Qed.

(** Limits after looser ones leave what they leave alone. *)
Lemma limits_absorb ls ls' st :
  (forall cid k, In (cid, k) ls -> exists k', In (cid, k') ls' /\ (k' <= k)%nat) ->
  limits ls' (limits ls st) = limits ls' st.
Proof.
  intros Hsub. apply ranked_ext; [by rewrite !limits_manifests|]. intros cid.
  set (n := length (ranked st cid)). pose proof (ranked_limits ls st cid n ltac:(lia)) as E.
  rewrite !(ranked_limits ls' _ cid n), E, take_take; [|lia|rewrite E, length_take; lia].
  f_equal. assert (least ls' cid n <= least ls cid n)%nat; [|lia].
  pose proof (proj1 (least_spec ls' cid n _) (le_n _)) as [H1 H2]. apply least_spec. split; [done|].
  intros k Hk. destruct (Hsub cid k Hk) as (k' & Hk' & Hle). etrans; [by apply H2|done].
Qed.

(** ** The sweep *)

Definition candidate_limit (ms : gmap (string * string) (FountainManifestV1 * instant)) (now : instant)
    (c : FountainDecayCandidate) : option (string * nat) :=
  tier ← consent_decay_target_tier (cand_envelope c) (cand_admitted_at c) now;
  if decide (tier = TierFull) then None
  else held ← ms !! (cand_content_id c, cand_corpus_kind c);
       Some (cand_content_id c, N.to_nat (keep_count tier (fst held))).

Lemma decay_one_limit now st r c :
  fst (decay_one now (st, r) c) =
    match candidate_limit (manifests st) now c with Some (cid, n) => limit cid n st | None => st end.
Proof.
  unfold decay_one, candidate_limit. destruct (consent_decay_target_tier _ _ _) as [tier|]; simpl; [|done].
  destruct (decide (tier = TierFull)); [done|]. unfold evict_fountain_content_to_tier, evicted_rows.
  destruct (manifests st !! _) as [[m at_]|]; done.
Qed.

Lemma sweep_limits cs now st :
  fst (sweep_consent_decay cs now st) = limits (omap (candidate_limit (manifests st) now) cs) st.
Proof.
  unfold sweep_consent_decay. generalize (mk_report 0 0 0 0). revert st.
  induction cs as [|c cs IH]; intros st r; [done|]. cbn [fold_left omap list_omap].
  pose proof (decay_one_limit now st r c) as E.
  destruct (decay_one now (st, r) c) as [st' r']. simpl in E. subst st'. rewrite IH.
  destruct (candidate_limit (manifests st) now c) as [[cid n]|]; [|done]. done.
Qed.

(** C19. The decay sweep converges. The sweep is a function of the clock alone: sweeping now
    and again later leaves the store that the later sweep alone would have left, so missed,
    repeated and interrupted sweeps end at the same store, and a sweep is idempotent. *)
Theorem decay_sweep_converges (cs : list FountainDecayCandidate) (now later : instant) (st : FountainStore)
    (Hnow : (now <= later)%Z)
    (Hrange : forall c, In c cs -> (later - cand_admitted_at c <= (2 ^ 63 - 1) * 1000000)%Z) :
  fst (sweep_consent_decay cs later (fst (sweep_consent_decay cs now st))) =
  fst (sweep_consent_decay cs later st).
Proof.
  rewrite !sweep_limits, limits_manifests. apply limits_absorb. intros cid k Hk.
  rewrite <- list_elem_of_In, list_elem_of_omap in Hk. destruct Hk as (c & Hc & Hl).
  unfold candidate_limit, consent_decay_target_tier in Hl.
  destruct (consent_decay_class_from_envelope (cand_envelope c)) as [class|] eqn:Ec; simpl in Hl; [|done].
  set (tier := target_tier class (now - cand_admitted_at c)) in *.
  set (tier' := target_tier class (later - cand_admitted_at c)).
  assert (Hsev : (tier_severity tier <= tier_severity tier')%N).
  { apply decay_clock_monotone; [lia|]. apply Hrange. by apply list_elem_of_In. }
  destruct (decide (tier = TierFull)) as [|Hne]; [done|].
  destruct (manifests st !! _) as [[m at_]|] eqn:Em; simpl in Hl; [|done]. simplify_eq.
  exists (N.to_nat (keep_count tier' m)). split.
  - rewrite <- list_elem_of_In, list_elem_of_omap. exists c. split; [done|].
    unfold candidate_limit, consent_decay_target_tier. rewrite Ec. simpl. fold tier'.
    destruct (decide (tier' = TierFull)) as [E|]; [rewrite E in Hsev; by destruct tier|]. by rewrite Em.
  - pose proof (keep_count_antitone tier tier' m Hsev). lia.
Qed.

(** ** Accounting *)

Lemma size_drop rows st cid :
  NoDup rows -> (forall r, In r rows -> In r (symbol_rows st cid)) ->
  (size (content_symbols (drop_symbols rows st)) + length rows = size (content_symbols st))%nat.
Proof.
  unfold drop_symbols; simpl. induction 1 as [|r rows Hr Hn IH]; intros Hin; simpl; [lia|].
  rewrite <- IH by (intros; apply Hin; by right).
  assert (Hl : is_Some (content_symbols (drop_symbols rows st) !! symbol_key r)).
  { assert (H : In r (symbol_rows (drop_symbols rows st) cid)).
    { apply rows_after_drop; [intros; apply Hin; by right|]. split; [apply Hin; by left|].
      by rewrite <- list_elem_of_In. }
    apply rows_In in H as [_ H]. by rewrite H. }
  rewrite map_size_delete. unfold drop_symbols in Hl. simpl in Hl. destruct Hl as [x Hl]. rewrite Hl.
  assert (0 < size (foldr (fun s t => delete (symbol_key s) t) (content_symbols st) rows))%nat; [|lia].
  apply Nat.neq_0_lt_0. rewrite map_size_non_empty_iff. intros E. rewrite E in Hl. by rewrite lookup_empty in Hl.
Qed.

Lemma evict_size st cid kind t :
  let '(st', n) := evict_fountain_content_to_tier st cid kind t in
  (size (content_symbols st') + N.to_nat n = size (content_symbols st))%nat.
Proof.
  unfold evict_fountain_content_to_tier, evicted_rows. fold (ranked st cid).
  destruct (manifests st !! (cid, kind)) as [[m at_]|]; [|lia].
  unfold len. rewrite Nat2N.id. apply (size_drop _ _ cid).
  - pose proof (ranked_NoDup st cid) as H. rewrite <- (take_drop (N.to_nat (keep_count t m)) (ranked st cid)) in H.
    by apply NoDup_app in H as (_ & _ & H).
  - intros r Hr. apply ranked_In. by eapply drop_In.
Qed.

Lemma evict_manifests st cid kind t : manifests (fst (evict_fountain_content_to_tier st cid kind t)) = manifests st.
Proof. unfold evict_fountain_content_to_tier. by destruct (manifests st !! _) as [[m at_]|]. Qed.

(** What a sweep reports. Every candidate is scanned, those that declare a class are
    counted, the symbols reported evicted are exactly those that left the table, and no
    manifest is touched. *)
Theorem sweep_report_exact (cs : list FountainDecayCandidate) (now : instant) (st : FountainStore) :
  let '(st', r) := sweep_consent_decay cs now st in
  content_scanned r = len cs /\
  content_with_decay_class r
    = len (List.filter (fun c => is_some (consent_decay_class_from_envelope (cand_envelope c))) cs) /\
  (size (content_symbols st') + N.to_nat (symbols_evicted r) = size (content_symbols st))%nat /\
  (content_decayed r <= symbols_evicted r)%N /\
  manifests st' = manifests st.
Proof.
  assert (H : forall st r, let '(st', r') := fold_left (decay_one now) cs (st, r) in
    content_scanned r' = (content_scanned r + len cs)%N /\
    content_with_decay_class r' = (content_with_decay_class r
      + len (List.filter (fun c => is_some (consent_decay_class_from_envelope (cand_envelope c))) cs))%N /\
    (size (content_symbols st') + N.to_nat (symbols_evicted r')
      = size (content_symbols st) + N.to_nat (symbols_evicted r))%nat /\
    (content_decayed r' + symbols_evicted r <= symbols_evicted r' + content_decayed r)%N /\
    manifests st' = manifests st).
  { clear st. induction cs as [|c cs' IH]; intros st r; cbn [fold_left]; [unfold len; simpl; repeat split; lia|].
    unfold decay_one at 2. unfold consent_decay_target_tier. cbn [List.filter]. rewrite len_cons.
    destruct (consent_decay_class_from_envelope (cand_envelope c)) as [class|]; simpl.
    - rewrite len_cons. destruct (decide _).
      + match goal with |- context[fold_left _ _ (?s, ?q)] => specialize (IH s q) end.
        destruct (fold_left _ _ _). simpl in IH. destruct IH as (-> & -> & ? & ? & ?). repeat split; lia || done.
      + pose proof (evict_size st (cand_content_id c) (cand_corpus_kind c)
          (target_tier class (now - cand_admitted_at c))) as Hz.
        pose proof (evict_manifests st (cand_content_id c) (cand_corpus_kind c)
          (target_tier class (now - cand_admitted_at c))) as Hm.
        destruct (evict_fountain_content_to_tier _ _ _ _) as [st1 gone]. simpl in Hm.
        match goal with |- context[fold_left _ _ (?s, ?q)] => specialize (IH s q) end.
        destruct (fold_left _ _ _). simpl in IH. destruct IH as (-> & -> & ? & ? & ->).
        repeat split; [lia|lia|lia| |done]. destruct (N.ltb_spec 0 gone); lia.
    - match goal with |- context[fold_left _ _ (?s, ?q)] => specialize (IH s q) end.
      destruct (fold_left _ _ _). simpl in IH. destruct IH as (-> & -> & ? & ? & ?). repeat split; lia || done. }
  specialize (H st (mk_report 0 0 0 0)). unfold sweep_consent_decay.
  destruct (fold_left _ _ _) as [st' r]. simpl in H. destruct H as (? & ? & ? & ? & ?). repeat split; try done; lia.
Qed.

(** ** Reads *)

Definition read_class (c : FountainContent) : FountainReadClass :=
  match c with FullContent _ _ => ClassFull | PartialContent _ _ _ => ClassPartial | EnvelopeOnly _ => ClassEnvelopeOnly end.

Section Reads.
Context `{FountainCrypto}.

Lemma assemble_authentic m l :
  forallb (authentic m) l = true -> (len l < 2 ^ 32)%N ->
  assemble_fountain_content m l = inr
    match classify (len l) (n_source m) (min_viable_symbols m) with
    | ClassFull => FullContent m l
    | ClassPartial => PartialContent m l (len l)
    | ClassEnvelopeOnly => EnvelopeOnly m
    end.
Proof. intros Ha Hl. unfold assemble_fountain_content. by rewrite Ha, N.mod_small. Qed.

Lemma forallb_perm {A} (f : A -> bool) l l' : Permutation l l' -> forallb f l = forallb f l'.
Proof. intros Hp. apply eq_true_iff_eq. rewrite !forallb_forall. by setoid_rewrite Hp. Qed.

Lemma rows_perm_ranked st cid : Permutation (symbol_rows st cid) (ranked st cid).
Proof. symmetry. apply sort_by_perm. Qed.

Lemma take_min_length {A} k (l : list A) :
  take (N.to_nat (N.min k (N.of_nat (length l)))) l = take (N.to_nat k) l.
Proof.
  destruct (N.le_ge_cases k (N.of_nat (length l))) as [L|L]; [by rewrite N.min_l|].
  rewrite N.min_r by done. rewrite !take_ge; [done|lia|lia].
Qed.

(** What a read over authentic rows answers. *)
Lemma get_authentic st cid kind m at_ :
  manifests st !! (cid, kind) = Some (m, at_) ->
  forallb (authentic m) (symbol_rows st cid) = true -> (len (symbol_rows st cid) < 2 ^ 32)%N ->
  exists c, get_fountain_content st cid kind = inr (Some c) /\
    read_class c = classify (len (symbol_rows st cid)) (n_source m) (min_viable_symbols m) /\
    (forall s, In s (content_symbols_of c) -> In s (symbol_rows st cid)) /\
    (read_class c <> ClassEnvelopeOnly -> Permutation (content_symbols_of c) (symbol_rows st cid)).
Proof.
  intros Hm Ha Hl. unfold get_fountain_content. rewrite Hm.
  set (l := sort_by by_id (symbol_rows st cid)).
  assert (Hp : Permutation l (symbol_rows st cid)) by apply sort_by_perm.
  rewrite assemble_authentic.
  - rewrite (len_perm _ _ Hp). eexists. split; [done|].
    destruct (classify _ _ _); simpl; (split; [done|]); split; try done; intros s; by rewrite ?Hp.
  - by rewrite (forallb_perm _ _ _ Hp).
  - by rewrite (len_perm _ _ Hp).
Qed.

(** C20. Degradation follows the tiers. When the symbols a node holds for a content match its
    manifest, a read after an eviction to a tier answers, and its class is that of the lesser
    of the tier's count and what was held: whole content while the source symbols are kept,
    partial content while the viable minimum is, the envelope after. What it serves are
    symbols that were held, each with the hash the manifest signs for its place. *)
Theorem tiers_degrade (st : FountainStore) (content_id corpus_kind : string) (m : FountainManifestV1)
    (at_ : instant) (t : FountainTier)
    (Hm : manifests st !! (content_id, corpus_kind) = Some (m, at_))
    (Hheld : forallb (authentic m) (symbol_rows st content_id) = true)
    (Hcount : (len (symbol_rows st content_id) < 2 ^ 32)%N) :
  let st' := fst (evict_fountain_content_to_tier st content_id corpus_kind t) in
  let kept := N.min (keep_count t m) (len (symbol_rows st content_id)) in
  exists c, get_fountain_content st' content_id corpus_kind = inr (Some c) /\
    read_class c = classify kept (n_source m) (min_viable_symbols m) /\
    (forall s, In s (content_symbols_of c) -> In s (symbol_rows st content_id) /\ authentic m s = true) /\
    (read_class c <> ClassEnvelopeOnly ->
       Permutation (content_symbols_of c) (take (N.to_nat kept) (ranked st content_id))).
Proof.
  cbv zeta. unfold evict_fountain_content_to_tier, evicted_rows. fold (ranked st content_id). rewrite Hm. cbn [fst].
  set (keep := keep_count t m). set (st' := drop_symbols _ st).
  assert (Er : ranked st' content_id = take (N.to_nat keep) (ranked st content_id)) by apply ranked_evicted.
  assert (Hsub : forall s, In s (symbol_rows st' content_id) -> In s (symbol_rows st content_id)).
  { intros s Hs. rewrite <- ranked_In, Er in Hs. apply ranked_In. by eapply take_In. }
  assert (Hn : len (symbol_rows st' content_id) = N.min keep (len (symbol_rows st content_id))).
  { rewrite <- !len_ranked, Er. unfold len. rewrite length_take. lia. }
  rewrite forallb_forall in Hheld.
  destruct (get_authentic st' content_id corpus_kind m at_ Hm) as (c & Hc & Hcl & Hin & Hp).
  - apply forallb_forall. intros s Hs. apply Hheld. by apply Hsub.
  - lia.
  - exists c. rewrite Hn in Hcl. split; [done|]. split; [done|]. split.
    + intros s Hs. apply Hin, Hsub in Hs. split; [done|by apply Hheld].
    + intros Hne. rewrite (Hp Hne), rows_perm_ranked, Er.
      rewrite <- len_ranked. unfold len. by rewrite take_min_length.
Qed.

(** ** Admission *)

Lemma check_symbols_ok m seen l :
  check_symbols m seen l = inr tt ->
  (forall s, In s l -> sym_content_id s = fm_content_id m /\ (symbol_id s < total_symbols m)%N
                       /\ authentic m s = true) /\
  NoDup (map symbol_id l) /\ (forall i, i ∈ seen -> i ∉ map symbol_id l).
Proof.
  revert seen. induction l as [|s l IH]; intros seen; simpl; [intros _; split; [by intros ? []|]; split; [constructor|intros ? _; apply not_elem_of_nil]|].
  destruct (String.eqb_spec (sym_content_id s) (fm_content_id m)) as [Ec|]; simpl; [|done].
  destruct (N.leb_spec (total_symbols m) (symbol_id s)) as [|Lt]; [discriminate|].
  destruct (bool_decide_reflect (symbol_id s ∈ seen)) as [|Hns]; [done|].
  destruct (symbol_hashes m !! N.to_nat (symbol_id s)) as [h|] eqn:Eh; [|done].
  destruct (String.eqb_spec (symbol_sha256_hex (symbol_bytes s)) h) as [Eq|]; simpl; [|done].
  intros Hok. destruct (IH _ Hok) as (Hall & Hnd & Hseen). split; [|split].
  - intros x [<-|Hx]; [|by apply Hall]. split; [done|]. split; [done|]. unfold authentic. rewrite Eh.
    by apply String.eqb_eq.
  - constructor; [|done]. apply Hseen. by apply elem_of_cons; left.
  - intros i Hi. rewrite elem_of_cons. intros [->|Hin]; [done|]. eapply Hseen; [|exact Hin].
    by apply elem_of_cons; right.
Qed.

Lemma put_ok m symbols now st st' :
  put_fountain_content m symbols now st = inr st' ->
  st' = store_planned m symbols now st /\ check_symbols m [] symbols = inr tt.
Proof.
  unfold put_fountain_content, check_admission_via_envelope, check_admission.
  destruct (get_str (fm_envelope m) "pubkey_ed25519"); [|done].
  destruct (negb _); [done|]. destruct (_ =s ""); [done|]. destruct (verify_hybrid _ _ _ _ _); try done.
  destruct (negb _); [done|]. destruct (check_symbols m [] symbols) as [|[]]; [done|].
  destruct (_ <=? _)%N; [done|]. intros. by simplify_eq.
Qed.

(** The upsert of symbols with distinct keys. *)
Lemma upsert_lookup symbols t k v :
  NoDup (map symbol_key symbols) ->
  fold_left upsert_symbol symbols t !! k = Some v <->
  (exists s, In s symbols /\ symbol_key s = k /\ v = (retention_priority s, symbol_bytes s)) \/
  (k ∉ map symbol_key symbols /\ t !! k = Some v).
Proof.
  revert t. induction symbols as [|s l IH]; intros t Hn; simpl.
  - split; [intros Ht; right; split; [apply not_elem_of_nil|done]|]. intros [(s & [] & _)|[_ ?]]; done.
  - inversion Hn as [|? ? Hs Hl]; subst. rewrite (IH _ Hl). unfold upsert_symbol. fold (symbol_key s).
    rewrite elem_of_cons. destruct (decide (symbol_key s = k)) as [<-|Hk].
    + rewrite lookup_insert_eq. split.
      * intros [(x & Hx & E & ->)|[_ E]]; [left; eauto 6|simplify_eq; left; eauto 6].
      * intros [(x & [<-|Hx] & E & ->)|[Hne _]]; [by right|left; eauto|]. destruct Hne. by left.
    + rewrite lookup_insert_ne by done. split.
      * intros [(x & Hx & E & ->)|[Hne E]]; [left; eauto 6|]. right. split; [|done]. intros [->|]; done.
      * intros [(x & [<-|Hx] & E & ->)|[Hne E]]; [done|left; eauto|]. right. split; [|done]. intros Hin. apply Hne. by right.
Qed.

Lemma admitted_keys m symbols :
  check_symbols m [] symbols = inr tt -> NoDup (map symbol_key symbols).
Proof.
  intros Hok. apply check_symbols_ok in Hok as (Hall & Hnd & _). clear -Hnd.
  induction symbols as [|s l IH]; simpl in *; [constructor|]. inversion Hnd; subst. constructor; [|by apply IH].
  intros Hin. apply list_elem_of_fmap in Hin as (x & E & Hx). destruct H1.
  apply list_elem_of_fmap. exists x. unfold symbol_key in E. split; [congruence|done].
Qed.

Lemma planned_rows m symbols now st s :
  check_symbols m [] symbols = inr tt ->
  In s (symbol_rows (store_planned m symbols now st) (fm_content_id m)) <->
  In s symbols \/
  (In s (symbol_rows st (fm_content_id m)) /\ symbol_key s ∉ map symbol_key symbols).
Proof.
  intros Hok. rewrite !rows_In. unfold store_planned; simpl.
  rewrite (upsert_lookup _ _ _ _ (admitted_keys _ _ Hok)).
  apply check_symbols_ok in Hok as (Hall & _ & _). split.
  - intros [Hc [(x & Hx & Hk & Hv)|[Hk Hl]]]; [|by right]. left. replace s with x; [done|].
    destruct x, s; unfold symbol_key in *; simpl in *. simplify_eq. done.
  - intros [Hs|[[Hc Hl] Hk]]; [|tauto]. split; [by apply Hall|]. left. by exists s.
Qed.

(** What is put is what is read. Content admitted where none of its id was held reads
    back as the symbols put, in some order, or as its envelope when they are fewer than the
    viable minimum; what fails admission changes nothing, an [Err] being returned before any
    write. *)
Theorem put_then_get (m : FountainManifestV1) (symbols : list FountainSymbolV1) (now : instant)
    (st st' : FountainStore)
    (Hput : put_fountain_content m symbols now st = inr st')
    (Hnew : manifests st !! (fm_content_id m, fm_corpus_kind m) = None)
    (Hrows : symbol_rows st (fm_content_id m) = [])
    (Hcount : (len symbols < 2 ^ 32)%N) :
  manifests st' !! (fm_content_id m, fm_corpus_kind m) = Some (m, now) /\
  exists c, get_fountain_content st' (fm_content_id m) (fm_corpus_kind m) = inr (Some c) /\
    read_class c = classify (len symbols) (n_source m) (min_viable_symbols m) /\
    (read_class c <> ClassEnvelopeOnly -> Permutation (content_symbols_of c) symbols).
Proof.
  apply put_ok in Hput as [-> Hok].
  assert (Hm : manifests (store_planned m symbols now st) !! (fm_content_id m, fm_corpus_kind m) = Some (m, now)).
  { unfold store_planned; simpl. rewrite Hnew. apply lookup_insert_eq. }
  assert (Hp : Permutation (symbol_rows (store_planned m symbols now st) (fm_content_id m)) symbols).
  { apply NoDup_Permutation; [apply rows_NoDup| |].
    - by apply (NoDup_fmap_1 symbol_key), (admitted_keys m).
    - intros s. rewrite !list_elem_of_In, planned_rows by done. rewrite Hrows. simpl. tauto. }
  split; [done|]. apply check_symbols_ok in Hok as (Hall & _ & _).
  destruct (get_authentic _ _ _ _ _ Hm) as (c & Hc & Hcl & _ & Hcp).
  - rewrite (forallb_perm _ _ _ Hp). apply forallb_forall. intros s Hs. by apply Hall.
  - by rewrite (len_perm _ _ Hp).
  - exists c. rewrite (len_perm _ _ Hp) in Hcl. split; [done|]. split; [done|].
    intros Hne. by rewrite <- Hp, (Hcp Hne).
Qed.

(** A second admission under a held id overwrites symbols and not the manifest. The
    hashes checked at admission are those of the manifest offered, the hashes checked at a
    read are those of the manifest held first: one symbol that does not match the held
    manifest, and every later read of the content is an integrity error. *)
Theorem readmission_breaks_reads (m held : FountainManifestV1) (at_ : instant)
    (symbols : list FountainSymbolV1) (s : FountainSymbolV1) (now : instant) (st st' : FountainStore)
    (Hheld : manifests st !! (fm_content_id m, fm_corpus_kind m) = Some (held, at_))
    (Hput : put_fountain_content m symbols now st = inr st')
    (Hs : In s symbols) (Hother : authentic held s = false) :
  get_fountain_content st' (fm_content_id m) (fm_corpus_kind m) = inl FountainIntegrity.
Proof.
  apply put_ok in Hput as [-> Hok]. unfold get_fountain_content, assemble_fountain_content.
  assert (Hm : manifests (store_planned m symbols now st) !! (fm_content_id m, fm_corpus_kind m) = Some (held, at_)).
  { unfold store_planned; simpl. by rewrite Hheld. }
  rewrite Hm. destruct (forallb _ _) eqn:E; [|done]. exfalso.
  rewrite forallb_forall in E. specialize (E s). rewrite Hother in E. discriminate E.
  apply sort_by_In, planned_rows; [done|]. by left.
Qed.

(** ** Revocation *)

Lemma hard_delete_rows st cid : symbol_rows (drop_symbols (symbol_rows st cid) st) cid = [].
Proof.
  destruct (symbol_rows (drop_symbols (symbol_rows st cid) st) cid) as [|s l] eqn:E; [done|]. exfalso.
  assert (Hin : In s (symbol_rows (drop_symbols (symbol_rows st cid) st) cid)) by (rewrite E; by left).
  apply rows_after_drop in Hin as [? ?]; [done|auto].
Qed.

(** With its symbols gone, content whose manifest asks for at least one reads as its envelope. *)
Lemma emptied_reads_envelope st content_id kind m at_ :
  manifests st !! (content_id, kind) = Some (m, at_) ->
  (0 < min_viable_symbols m)%N -> (0 < n_source m)%N ->
  get_fountain_content (drop_symbols (symbol_rows st content_id) st) content_id kind = inr (Some (EnvelopeOnly m)).
Proof.
  intros Hm Hv Hs. unfold get_fountain_content. simpl. rewrite Hm, hard_delete_rows.
  unfold assemble_fountain_content, sort_by, classify. simpl.
  rewrite (proj2 (N.leb_gt _ _)) by exact Hs. by rewrite (proj2 (N.leb_gt _ _)) by exact Hv.
Qed.

(** Symbols are keyed by content id alone: deleting a content in one corpus kind deletes the
    symbols of the same id in every other. *)
Lemma kinds_share_symbols (st : FountainStore) (content_id kind other : string)
    (m m' : FountainManifestV1) (at_ at' : instant) :
  manifests st !! (content_id, kind) = Some (m, at_) ->
  manifests st !! (content_id, other) = Some (m', at') ->
  (0 < min_viable_symbols m')%N -> (0 < n_source m')%N ->
  get_fountain_content (fst (evict_fountain_content_hard_delete st content_id kind)) content_id other
  = inr (Some (EnvelopeOnly m')).
Proof.
  intros Hm Hm' Hv Hs. unfold evict_fountain_content_hard_delete. rewrite Hm. by eapply emptied_reads_envelope.
Qed.

(** C21. Revocation dominates rarity. When a content has a manifest and its consent is revoked,
    or its retain window has lapsed, the eviction deletes every symbol of the content id
    whatever the rarity, counts them, and leaves every manifest; the symbols of every other
    content id are left. Symbols are keyed by the id alone, so the content of the same id under
    any other corpus kind loses them too: under every kind, a manifest that asks for at least
    one source symbol and one viable symbol now reads as its envelope alone. *)
Theorem revocation_dominates `{RetentionCore} (st : FountainStore) (content_id corpus_kind : string)
    (m : FountainManifestV1) (at_ : instant) (consent : ConsentState) (retain : ScopedStance)
    (is_rare : bool) (now : instant)
    (Hm : manifests st !! (content_id, corpus_kind) = Some (m, at_))
    (Hgone : consent = Revoked \/ exists until, ss_retain_until retain = Some until /\ (until <= now)%Z) :
  let '(st', dropped) := evict_by_consent consent retain is_rare now st content_id corpus_kind in
  dropped = len (symbol_rows st content_id) /\
  symbol_rows st' content_id = [] /\
  manifests st' = manifests st /\
  (forall k, k.1 <> content_id -> content_symbols st' !! k = content_symbols st !! k) /\
  (forall kind m' at', manifests st !! (content_id, kind) = Some (m', at') ->
     (0 < min_viable_symbols m')%N -> (0 < n_source m')%N ->
     get_fountain_content st' content_id kind = inr (Some (EnvelopeOnly m'))).
Proof.
  unfold evict_by_consent.
  replace (retention_action_with_retain_window consent retain now is_rare) with HardDelete.
  2: { unfold retention_action_with_retain_window, resolve_retention_action. simpl map_consent_state.
       destruct Hgone as [->|(u & -> & Hu)]; simpl.
       - rewrite withdrawn_evicts. by destruct (is_some_and _ _).
       - by rewrite (proj2 (Z.leb_le _ _) Hu), withdrawn_evicts. }
  simpl. unfold evict_fountain_content_hard_delete. rewrite Hm. split; [done|].
  split; [apply hard_delete_rows|]. split; [done|]. split.
  - intros k Hk. apply (other_content st content_id); [|done]. intros r Hr. by apply rows_In in Hr as [? _].
  - intros kind m' at'. apply emptied_reads_envelope.
Qed.
End Reads.

(** ** At concrete inputs *)

(** The digest of a symbol is the symbol, and every signature checks. *)
Definition plain_crypto : FountainCrypto := {|
  symbol_sha256_hex := fun bytes => bytes;
  verify_hybrid := fun _ _ _ _ _ => HybridOk;
|}.
#[local] Existing Instance plain_crypto.

Definition sample_retention : RetentionCore.
Proof.
  refine {| retention_decision := fun s rare => match s with
    | Withdrawn => EvictEligible | Active => if rare then DecisionRetainRare else DecisionRetainNonRare
    | Unknown => DecisionRetainNonRare end |}. done.
Defined.
#[local] Existing Instance sample_retention.

Definition sample_manifest (kind : string) (hashes : list string) : FountainManifestV1 :=
  mk_manifest "c" kind 1 2 1 1 4 1 hashes
    (Object [("consent_decay_class", Str "temporary"); ("pubkey_ed25519", Str "k")]) "sig" "pqc" "signer".
Definition sample_symbols : list FountainSymbolV1 :=
  [mk_symbol "c" 2 9 "z"; mk_symbol "c" 0 1 "x"; mk_symbol "c" 1 1 "y"].
Definition sample_store : FountainStore :=
  store_planned (sample_manifest "trace" ["x"; "y"; "z"]) sample_symbols 0%Z empty_store.

Lemma decay_clock_exact_witness : target_tier Temporary (11 * 86400 * NANOS)%Z = T4.
Proof. rewrite (decay_clock_exact Temporary (11 * 86400 * NANOS)%Z); [reflexivity|]. unfold NANOS. lia. Defined.

Definition sample_candidates : list FountainDecayCandidate :=
  [mk_candidate "c" "trace" (Object [("consent_decay_class", Str "temporary")]) 0%Z].
Example candidates_listed :
  map cand_content_id (list_fountain_decay_candidates sample_store) = map cand_content_id sample_candidates.
Proof. vm_compute. reflexivity. Qed.

Lemma decay_sweep_converges_witness :
  fst (sweep_consent_decay sample_candidates (14 * 86400 * NANOS)%Z
         (fst (sweep_consent_decay sample_candidates (8 * 86400 * NANOS)%Z sample_store)))
  = fst (sweep_consent_decay sample_candidates (14 * 86400 * NANOS)%Z sample_store).
Proof.
  apply (decay_sweep_converges sample_candidates (8 * 86400 * NANOS)%Z (14 * 86400 * NANOS)%Z sample_store).
  - unfold NANOS. lia.
  - intros c [<-|[]]. simpl. unfold NANOS. lia.
Defined.

Lemma tiers_degrade_witness :
  exists c, get_fountain_content (fst (evict_fountain_content_to_tier sample_store "c" "trace" T4)) "c" "trace"
            = inr (Some c) /\ read_class c = ClassPartial.
Proof.
  destruct (@tiers_degrade plain_crypto sample_store "c" "trace" (sample_manifest "trace" ["x"; "y"; "z"]) 0%Z T4
              eq_refl ltac:(vm_compute; reflexivity) ltac:(vm_compute; reflexivity)) as (c & Hc & Hcl & _).
  exists c. split; [exact Hc|]. rewrite Hcl. vm_compute. reflexivity.
Defined.

Lemma put_then_get_witness :
  exists c, get_fountain_content sample_store "c" "trace" = inr (Some c) /\ read_class c = ClassFull.
Proof.
  destruct (@put_then_get plain_crypto (sample_manifest "trace" ["x"; "y"; "z"]) sample_symbols 0%Z empty_store sample_store
              ltac:(vm_compute; reflexivity) eq_refl eq_refl ltac:(vm_compute; reflexivity)) as (_ & c & Hc & Hcl & _).
  exists c. split; [exact Hc|]. rewrite Hcl. vm_compute. reflexivity.
Defined.

(** The content re-admitted with other bytes by another signer. *)
Lemma readmission_breaks_reads_witness :
  exists st', put_fountain_content (sample_manifest "trace" ["a"; "b"; "d"]) [mk_symbol "c" 0 0 "a"] 7%Z sample_store
              = inr st' /\ get_fountain_content st' "c" "trace" = inl FountainIntegrity.
Proof.
  eexists. split; [reflexivity|].
  apply (@readmission_breaks_reads plain_crypto (sample_manifest "trace" ["a"; "b"; "d"])
           (sample_manifest "trace" ["x"; "y"; "z"]) 0%Z [mk_symbol "c" 0 0 "a"] (mk_symbol "c" 0 0 "a") 7%Z sample_store);
    [vm_compute; reflexivity|reflexivity|by left|reflexivity].
Defined.

Lemma revocation_dominates_witness :
  let '(st', dropped) := evict_by_consent Granted {| ss_state := Granted; ss_retain_until := Some 5%Z |} true 5%Z
                           sample_store "c" "trace" in
  dropped = len (symbol_rows sample_store "c") /\ (0 < dropped)%N /\
  get_fountain_content st' "c" "trace" = inr (Some (EnvelopeOnly (sample_manifest "trace" ["x"; "y"; "z"]))).
Proof.
  pose proof (@revocation_dominates plain_crypto sample_retention sample_store "c" "trace" (sample_manifest "trace" ["x"; "y"; "z"]) 0%Z Granted
    {| ss_state := Granted; ss_retain_until := Some 5%Z |} true 5%Z ltac:(vm_compute; reflexivity)
    ltac:(right; exists 5%Z; split; [reflexivity|lia])) as H.
  destruct (evict_by_consent _ _ _ _ _ _ _) as [st' dropped]. destruct H as (Hd & _ & _ & _ & Hk).
  split; [exact Hd|]. split; [rewrite Hd; vm_compute; reflexivity|].
  apply (Hk "trace" (sample_manifest "trace" ["x"; "y"; "z"]) 0%Z); vm_compute; reflexivity.
Defined.

(** A manifest with a viable minimum of zero reads as partial content with nothing in it. *)
Example nothing_is_partial :
  let m := mk_manifest "c" "trace" 1 2 1 1 4 0 ["x"; "y"; "z"] Null "sig" "pqc" "signer" in
  get_fountain_content (store_planned m [] 0%Z empty_store) "c" "trace" = inr (Some (PartialContent m [] 0)).
Proof. vm_compute. reflexivity. Qed.
