(* ===== verification/Outbound.v ===== *)
(** * The outbound queue

    [src/src/outbound/] (the statuses, the row, the contract of the queue) with the statements
    of the sqlite backend ([store/sqlite.rs], [impl OutboundQueue]) over
    [edge_outbound_queue]: the durable messages of a node to its peers, the claims of the
    dispatchers, acknowledgements, and the sweeps. The columns hold RFC 3339 text of one
    offset, whose order is that of the instants. [Duration::seconds] and the addition of a
    duration to an instant panic where [Chrono] has no answer; a panic inside a transaction
    rolls it back. Attempts are counted without the width of their column. *)

From Stdlib Require Import ZArith NArith Lia.
From stdpp Require Import base list strings gmap.
From S2P Require Import Prelude RustStd Json.

Open Scope string_scope.
Open Scope list_scope.
Open Scope persist_scope.

(** ** Data *)

Inductive OutboundStatus := Pending | Sending | AwaitingAck | Delivered | Abandoned.
#[export] Instance OutboundStatus_eq_dec : EqDecision OutboundStatus.
Proof. solve_decision. Defined.

Definition status_str (s : OutboundStatus) : string :=
  match s with
  | Pending => "pending" | Sending => "sending" | AwaitingAck => "awaiting_ack"
  | Delivered => "delivered" | Abandoned => "abandoned"
  end.
Definition status_from_wire_str (s : string) : option OutboundStatus :=
  if s =s "pending" then Some Pending
  else if s =s "sending" then Some Sending
  else if s =s "awaiting_ack" then Some AwaitingAck
  else if s =s "delivered" then Some Delivered
  else if s =s "abandoned" then Some Abandoned
  else None.
Definition is_terminal (s : OutboundStatus) : bool :=
  match s with Delivered | Abandoned => true | _ => false end.

Inductive AbandonedReason := MaxAttempts | TtlExpired | OperatorCancel.
Inductive OutboundFailureOutcome := Retrying (attempt : Z) | OutcomeAbandoned.
(** The errors ([NotFound] is never returned by this backend), and the panics of [chrono]. *)
Inductive Error := InvalidArgument | NotFound | InvalidTransition | Backend | Panicked.

(** [OutboundRow]: the columns no statement updates, and the others. *)
Record OutboundMessage := mk_message {
  queue_id : string;
  sender_key_id : string;
  destination_key_id : string;
  message_type : string;
  edge_schema_version : string;
  envelope_bytes : string;
  body_sha256 : string;
  body_size_bytes : Z;
  enqueued_at : instant;
  max_attempts : Z;
  ttl_seconds : Z;
  requires_ack : bool;
  ack_timeout_seconds : option Z;
}.
Record OutboundRow := mk_row {
  message : OutboundMessage;
  status : OutboundStatus;
  next_attempt_after : instant;
  last_attempt_at : option instant;
  transport_delivered_at : option instant;
  delivered_at : option instant;
  abandoned_at : option instant;
  abandoned_reason : option AbandonedReason;
  attempt_count : Z;
  last_error : option (string * string);
  last_transport : option string;
  ack_envelope : option (string * instant);
  claim : option (instant * string);
}.

Notation Queue := (gmap string OutboundRow).

Section Outbound.
Context {CH : Chrono}.

Definition or_panic {A} (x : option A) : Error + A := match x with Some a => inr a | None => inl Panicked end.
(** [Duration::seconds]. *)
Definition duration (n : Z) : Error + Z := or_panic (try_seconds n).

(** ** The statements, on a row

    [None] where the [WHERE] clause leaves the row out. *)

Definition in_status (s : OutboundStatus) (r : OutboundRow) : bool :=
  match s, status r with
  | Pending, Pending | Sending, Sending | AwaitingAck, AwaitingAck | Delivered, Delivered
  | Abandoned, Abandoned => true
  | _, _ => false
  end.
Definition ttl_expired (now : instant) (r : OutboundRow) : Error + bool :=
  match duration (ttl_seconds (message r)) with
  | inr ttl => inr (ttl <? now - enqueued_at (message r))%Z
  | inl e => inl e
  end.
Definition attempts_exhausted (r : OutboundRow) : bool :=
  (max_attempts (message r) <=? attempt_count r)%Z.

(** [claim_pending_outbound], its selection and its update. *)
Definition due (now : instant) (r : OutboundRow) : bool :=
  in_status Pending r && (next_attempt_after r <=? now)%Z.
Definition claim_row (now until : instant) (claimed_by : string) (r : OutboundRow) : OutboundRow :=
  mk_row (message r) Sending (next_attempt_after r) (Some now) (transport_delivered_at r) (delivered_at r)
    (abandoned_at r) (abandoned_reason r) (attempt_count r + 1)%Z (last_error r) (last_transport r)
    (ack_envelope r) (Some (until, claimed_by)).

Definition delivered_row (now : instant) (transport : string) (r : OutboundRow) : option OutboundRow :=
  if in_status Sending r then
    let ack := requires_ack (message r) in
    Some (mk_row (message r) (if ack then AwaitingAck else Delivered) (next_attempt_after r)
            (last_attempt_at r) (Some now) (if ack then None else Some now) (abandoned_at r)
            (abandoned_reason r) (attempt_count r) (last_error r) (Some transport) (ack_envelope r) None)
  else None.

(** The abandoning and the rescheduling of [mark_transport_failed]. *)
Definition abandon_reason (expired : bool) : AbandonedReason := if expired then TtlExpired else MaxAttempts.
Definition failed_row (now : instant) (error_class error_detail transport : string) (next : instant)
    (r : OutboundRow) : Error + (OutboundRow * OutboundFailureOutcome) :=
  if in_status Sending r then
    match ttl_expired now r with
    | inl e => inl e
    | inr expired => inr (
        if expired || attempts_exhausted r
        then (mk_row (message r) Abandoned (next_attempt_after r) (last_attempt_at r) (transport_delivered_at r)
                (delivered_at r) (Some now) (Some (abandon_reason expired)) (attempt_count r)
                (Some (error_class, error_detail)) (Some transport) (ack_envelope r) None, OutcomeAbandoned)
        else (mk_row (message r) Pending next (last_attempt_at r) (transport_delivered_at r) (delivered_at r)
                (abandoned_at r) (abandoned_reason r) (attempt_count r)
                (Some (error_class, error_detail)) (Some transport) (ack_envelope r) None,
              Retrying (attempt_count r)))
    end
  else inl InvalidTransition.

Definition resolved_row (now : instant) (r : OutboundRow) : option OutboundRow :=
  if is_terminal (status r) then None
  else Some (mk_row (message r) Delivered (next_attempt_after r) (last_attempt_at r)
               (transport_delivered_at r) (Some now) (abandoned_at r) (abandoned_reason r)
               (attempt_count r) (last_error r) (last_transport r) (ack_envelope r) None).

Definition acked_row (now : instant) (ack_bytes : string) (r : OutboundRow) : option OutboundRow :=
  if in_status AwaitingAck r then
    Some (mk_row (message r) Delivered (next_attempt_after r) (last_attempt_at r)
            (transport_delivered_at r) (Some now) (abandoned_at r) (abandoned_reason r) (attempt_count r)
            (last_error r) (last_transport r) (Some (ack_bytes, now)) (claim r))
  else None.

Definition ACK_TIMEOUT : option (string * string) :=
  Some ("ack_timeout", "no ACK before ack_timeout_seconds expired").

(** One candidate of [sweep_ack_timeouts]. *)
Definition timed_out_row (now : instant) (expired : bool) (r : OutboundRow) : Error + OutboundRow :=
  if expired || attempts_exhausted r
  then inr (mk_row (message r) Abandoned (next_attempt_after r) (last_attempt_at r) (transport_delivered_at r)
              (delivered_at r) (Some now) (Some (abandon_reason expired)) (attempt_count r) ACK_TIMEOUT
              (last_transport r) (ack_envelope r) (claim r))
  else match or_panic (try_seconds 60 ≫= checked_add_signed now) with
       | inl e => inl e
       | inr next =>
           inr (mk_row (message r) Pending next (last_attempt_at r) (transport_delivered_at r)
                  (delivered_at r) (abandoned_at r) (abandoned_reason r) (attempt_count r) ACK_TIMEOUT
                  (last_transport r) (ack_envelope r) (claim r))
       end.
Definition ack_timeout_row (now : instant) (r : OutboundRow) : Error + option OutboundRow :=
  if in_status AwaitingAck r then
    match transport_delivered_at r, ack_timeout_seconds (message r) with
    | None, _ => inl Backend
    | Some _, None => inr None
    | Some delivered, Some timeout =>
        match duration timeout with
        | inl e => inl e
        | inr d =>
            if (now - delivered <=? d)%Z then inr None
            else match ttl_expired now r with
                 | inl e => inl e
                 | inr expired =>
                     match timed_out_row now expired r with inr r' => inr (Some r') | inl e => inl e end
                 end
        end
    end
  else inr None.

Definition abandoned_for (reason : AbandonedReason) (now : instant) (r : OutboundRow) : OutboundRow :=
  mk_row (message r) Abandoned (next_attempt_after r) (last_attempt_at r) (transport_delivered_at r)
    (delivered_at r) (Some now) (Some reason) (attempt_count r) (last_error r) (last_transport r)
    (ack_envelope r) None.
Definition ttl_row (now : instant) (r : OutboundRow) : Error + option OutboundRow :=
  if is_terminal (status r) then inr None
  else match ttl_expired now r with
       | inl e => inl e
       | inr expired => inr (if expired then Some (abandoned_for TtlExpired now r) else None)
       end.
Definition cancelled_row (now : instant) (r : OutboundRow) : option OutboundRow :=
  if is_terminal (status r) then None else Some (abandoned_for OperatorCancel now r).

Definition released_row (now : instant) (r : OutboundRow) : option OutboundRow :=
  if in_status Sending r && is_some_and (claim r) (fun c => (fst c <? now)%Z) then
    Some (mk_row (message r) Pending (next_attempt_after r) (last_attempt_at r) (transport_delivered_at r)
            (delivered_at r) (abandoned_at r) (abandoned_reason r) (attempt_count r) (last_error r)
            (last_transport r) (ack_envelope r) None)
  else None.

Definition replayed_row (now : instant) (r : OutboundRow) : option OutboundRow :=
  if in_status Abandoned r then
    Some (mk_row (message r) Pending now (last_attempt_at r) (transport_delivered_at r) (delivered_at r)
            None None 0%Z None (last_transport r) (ack_envelope r) (claim r))
  else None.

(** ** The queue *)

Definition update_at (id : string) (f : OutboundRow -> option OutboundRow) (q : Queue) : Error + Queue :=
  match q !! id ≫= f with Some r => inr (<[id := r]> q) | None => inl InvalidTransition end.
(** An [UPDATE] over the table, with its count of rows. *)
Definition update_all (f : OutboundRow -> option OutboundRow) (q : Queue) : Queue * N :=
  ((fun r => default r (f r)) <$> q, N.of_nat (size (omap f q))).

(** A loop over the rows inside one transaction: it ends at the first error, and changes
    nothing then. *)
Definition no_error {A} (x : Error + option A) : option A := match x with inr y => y | inl _ => None end.
Definition loop_all (f : OutboundRow -> Error + option OutboundRow) (q : Queue) : Error + (Queue * N) :=
  match omap (fun kv => match f (snd kv) with inl e => Some e | inr _ => None end) (map_to_list q) with
  | e :: _ => inl e
  | [] => inr (update_all (fun r => no_error (f r)) q)
  end.

(** [enqueue_outbound]. The id is made of the clock and the process; the foreign keys of the
    table ask for keys that are registered, its primary key for a new id. *)
Definition MAX_BODY : Z := 8 * 1024 * 1024.
Definition enqueue_outbound (known : string -> bool) (now : instant) (m : OutboundMessage)
    (initial_next_attempt_after : instant) (q : Queue) : Error + Queue :=
  if (max_attempts m <=? 0)%Z || (ttl_seconds m <=? 0)%Z then inl InvalidArgument
  else if negb ((1 <=? body_size_bytes m)%Z && (body_size_bytes m <=? MAX_BODY)%Z) then inl InvalidArgument
  else if requires_ack m && (default 0 (ack_timeout_seconds m) <=? 0)%Z then inl InvalidArgument
  else if negb (known (sender_key_id m) && known (destination_key_id m)) || is_some (q !! queue_id m)
  then inl Backend
  else
  let m' := mk_message (queue_id m) (sender_key_id m) (destination_key_id m) (message_type m)
              (edge_schema_version m) (envelope_bytes m) (body_sha256 m) (body_size_bytes m) now
              (max_attempts m) (ttl_seconds m) (requires_ack m) (ack_timeout_seconds m) in
  inr (<[queue_id m := mk_row m' Pending initial_next_attempt_after None None None None None 0%Z None None
                         None None]> q).

(** [LIMIT ..]: a negative limit is none. *)
Definition limited {A} (limit : Z) (l : list A) : list A :=
  if (limit <? 0)%Z then l else take (Z.to_nat limit) l.
Definition earlier_due (a b : string * OutboundRow) : bool :=
  (next_attempt_after (snd a) <? next_attempt_after (snd b))%Z.
Definition pending_ids (now : instant) (batch_size : Z) (q : Queue) : list string :=
  map fst (limited batch_size
             (sort_by earlier_due (List.filter (fun kv => due now (snd kv)) (map_to_list q)))).

Definition claim_all (now until : instant) (claimed_by : string) (ids : list string) (q : Queue) : Queue :=
  fold_left (fun q id => match q !! id with
                         | Some r => <[id := claim_row now until claimed_by r]> q
                         | None => q
                         end) ids q.
Definition claim_pending_outbound (now : instant) (batch_size claim_duration_seconds : Z)
    (claimed_by : string) (q : Queue) : Error + (Queue * list OutboundRow) :=
  match or_panic (try_seconds claim_duration_seconds ≫= checked_add_signed now) with
  | inl e => inl e
  | inr until =>
      let ids := pending_ids now batch_size q in
      let q' := claim_all now until claimed_by ids q in
      inr (q', omap (fun id => q' !! id) ids)
  end.

Definition mark_transport_delivered (now : instant) (id transport : string) (q : Queue) : Error + Queue :=
  update_at id (delivered_row now transport) q.
Definition mark_transport_failed (now : instant) (id error_class error_detail transport : string)
    (next : instant) (q : Queue) : Error + (Queue * OutboundFailureOutcome) :=
  match q !! id with
  | None => inl InvalidTransition
  | Some r =>
      match failed_row now error_class error_detail transport next r with
      | inr (r', outcome) => inr (<[id := r']> q, outcome)
      | inl e => inl e
      end
  end.
Definition mark_ack_received (now : instant) (id ack_bytes : string) (q : Queue) : Error + Queue :=
  update_at id (acked_row now ack_bytes) q.
Definition replay_abandoned (now : instant) (id : string) (q : Queue) : Error + Queue :=
  update_at id (replayed_row now) q.
(** The two that touch no row when their clause does not hold. *)
Definition update_quietly (id : string) (f : OutboundRow -> option OutboundRow) (q : Queue) : Queue :=
  match update_at id f q with inr q' => q' | inl _ => q end.
Definition mark_replay_resolved (now : instant) (id : string) (q : Queue) : Queue :=
  update_quietly id (resolved_row now) q.
Definition cancel_outbound (now : instant) (id : string) (q : Queue) : Queue :=
  update_quietly id (cancelled_row now) q.

Definition sweep_ack_timeouts (now : instant) (q : Queue) : Error + (Queue * N) :=
  loop_all (ack_timeout_row now) q.
Definition sweep_ttl_expired (now : instant) (q : Queue) : Error + (Queue * N) := loop_all (ttl_row now) q.
Definition sweep_expired_claims (now : instant) (q : Queue) : Queue * N := update_all (released_row now) q.

(** [match_ack_to_outbound]: one row of those that wait; the statement fixes no order. *)
Definition match_ack_to_outbound (in_reply_to_sha256 : string) (q : Queue) : option OutboundRow :=
  snd <$> head (List.filter (fun kv => in_status AwaitingAck (snd kv)
                                     && (body_sha256 (message (snd kv)) =s in_reply_to_sha256))
                  (map_to_list q)).

(** [list_outbound]. *)
Record OutboundFilter := mk_filter {
  f_status : option OutboundStatus;
  f_destination_key_id : option string;
  f_sender_key_id : option string;
  f_message_type : option string;
  f_enqueued_after : option instant;
}.
Definition passes (f : OutboundFilter) (r : OutboundRow) : bool :=
  let m := message r in
  is_none_or (f_status f) (fun s => in_status s r)
  && is_none_or (f_destination_key_id f) (fun d => destination_key_id m =s d)
  && is_none_or (f_sender_key_id f) (fun d => sender_key_id m =s d)
  && is_none_or (f_message_type f) (fun d => message_type m =s d)
  && is_none_or (f_enqueued_after f) (fun t => (t <=? enqueued_at m)%Z).
Definition earlier_enqueued (a b : OutboundRow) : bool :=
  (enqueued_at (message a) <? enqueued_at (message b))%Z.
Definition list_outbound (f : OutboundFilter) (limit : Z) (q : Queue) : list OutboundRow :=
  limited limit (sort_by earlier_enqueued (List.filter (passes f) (map_to_list q).*2)).

(** [outbound_counts] and [counts_from_rows]: a status with no rows has no entry. *)
Definition outbound_counts (q : Queue) (s : OutboundStatus) : option N :=
  let n := len (List.filter (in_status s) (map_to_list q).*2) in
  if (0 <? n)%N then Some n else None.

(** The [CHECK] clauses of [edge_outbound_queue] that a statement could break; the types give
    the others. *)
Definition schema_checks (r : OutboundRow) : bool :=
  let m := message r in
  (1 <=? body_size_bytes m)%Z && (body_size_bytes m <=? MAX_BODY)%Z
  && (0 <? max_attempts m)%Z && (0 <? ttl_seconds m)%Z
  && (negb (requires_ack m) || is_some_and (ack_timeout_seconds m) (fun t => (0 <? t)%Z))
  && Bool.eqb (in_status Delivered r) (is_some (delivered_at r))
  && Bool.eqb (in_status Abandoned r) (is_some (abandoned_at r) && is_some (abandoned_reason r))
  && (negb (is_some (ack_envelope r)) || requires_ack m).

(** ** Runs *)

Inductive Op :=
| Enqueue (m : OutboundMessage) (next : instant)
| Claim (batch_size claim_duration_seconds : Z) (claimed_by : string)
| TransportDelivered (id transport : string)
| TransportFailed (id error_class error_detail transport : string) (next : instant)
| ReplayResolved (id : string)
| AckReceived (id ack_bytes : string)
| SweepAckTimeouts
| SweepTtlExpired
| SweepExpiredClaims
| Cancel (id : string)
| Replay (id : string).

Definition or_same (q : Queue) (r : Error + Queue) : Queue := match r with inr q' => q' | inl _ => q end.
Definition fst_or_same {A} (q : Queue) (r : Error + (Queue * A)) : Queue :=
  match r with inr (q', _) => q' | inl _ => q end.

(** The table after an operation; an error leaves it. *)
Definition apply (known : string -> bool) (now : instant) (o : Op) (q : Queue) : Queue :=
  match o with
  | Enqueue m next => or_same q (enqueue_outbound known now m next q)
  | Claim n d by_ => fst_or_same q (claim_pending_outbound now n d by_ q)
  | TransportDelivered id tr => or_same q (mark_transport_delivered now id tr q)
  | TransportFailed id c d tr next =>
      fst_or_same q (mark_transport_failed now id c d tr next q)
  | ReplayResolved id => mark_replay_resolved now id q
  | AckReceived id bytes => or_same q (mark_ack_received now id bytes q)
  | SweepAckTimeouts => fst_or_same q (sweep_ack_timeouts now q)
  | SweepTtlExpired => fst_or_same q (sweep_ttl_expired now q)
  | SweepExpiredClaims => fst (sweep_expired_claims now q)
  | Cancel id => cancel_outbound now id q
  | Replay id => or_same q (replay_abandoned now id q)
  end.

(** Operations happen one at a time, each at its own instant; clocks may disagree. *)
Inductive step (known : string -> bool) : Queue -> Queue -> Prop :=
| step_op now o q : step known q (apply known now o q).
Definition reachable (known : string -> bool) : Queue -> Prop := rtc (step known) ∅.
(** The queue after a list of operations with their instants. *)
Definition run (known : string -> bool) (ops : list (instant * Op)) (q : Queue) : Queue :=
  fold_left (fun q x => apply known (fst x) (snd x) q) ops q.

End Outbound.
