(* ===== verification/OutboundFacts.v ===== *)
(** * The outbound queue: its rows, its claims, its sweeps

    Proofs about [Outbound]. Every operation moves a row along [row_move], which is the state
    machine of the queue; the invariants are by induction on the runs. *)

From Stdlib Require Import ZArith NArith Lia ZifyBool Permutation Sorted.
From stdpp Require Import base list strings gmap sorting relations.
From S2P Require Import Prelude RustStd Json Outbound.

Open Scope string_scope.
Open Scope list_scope.
Open Scope persist_scope.

Section Facts.
Context {CH : Chrono}.

(** ** What an operation does to a row *)

(** The rows the operation [o] at [now] may put in the place of [r]. *)
Inductive row_move (now : instant) (r : OutboundRow) : Op -> OutboundRow -> Prop :=
| mv_claim n d by_ until : due now r = true -> row_move now r (Claim n d by_) (claim_row now until by_ r)
| mv_delivered id tr r' : delivered_row now tr r = Some r' -> row_move now r (TransportDelivered id tr) r'
| mv_failed id c d tr next r' out :
    failed_row now c d tr next r = inr (r', out) -> row_move now r (TransportFailed id c d tr next) r'
| mv_resolved id r' : resolved_row now r = Some r' -> row_move now r (ReplayResolved id) r'
| mv_acked id bytes r' : acked_row now bytes r = Some r' -> row_move now r (AckReceived id bytes) r'
| mv_timeout r' : ack_timeout_row now r = inr (Some r') -> row_move now r SweepAckTimeouts r'
| mv_ttl r' : ttl_row now r = inr (Some r') -> row_move now r SweepTtlExpired r'
| mv_release r' : released_row now r = Some r' -> row_move now r SweepExpiredClaims r'
| mv_cancel id r' : cancelled_row now r = Some r' -> row_move now r (Cancel id) r'
| mv_replay id r' : replayed_row now r = Some r' -> row_move now r (Replay id) r'.

(** The row an enqueued message becomes. *)
Inductive fresh_row (now : instant) : Op -> OutboundRow -> Prop :=
| fresh_enqueue known m next q q' r :
    enqueue_outbound known now m next q = inr q' -> q' !! queue_id m = Some r ->
    fresh_row now (Enqueue m next) r.

(** The rows of a key before and after an operation. *)
Definition row_step (now : instant) (o : Op) (before after : option OutboundRow) : Prop :=
  match before, after with
  | Some r, Some r' => r' = r \/ row_move now r o r'
  | Some _, None => False
  | None, Some r' => fresh_row now o r'
  | None, None => True
  end.

Lemma row_step_same now o x : row_step now o x x.
Proof. destruct x; simpl; auto. Qed.
#[local] Hint Resolve row_step_same : core.

Lemma update_at_step now o id f q k :
  (forall r r', f r = Some r' -> row_move now r o r') ->
  row_step now o (q !! k) (or_same q (update_at id f q) !! k).
Proof.
  intros Hf. unfold update_at, or_same. destruct (q !! id) as [r|] eqn:E; simpl; [|done].
  destruct (f r) as [r'|] eqn:Ef; simpl; [|done]. destruct (decide (id = k)) as [<-|Hk].
  - rewrite lookup_insert_eq, E. simpl. right. by apply Hf.
  - by rewrite lookup_insert_ne.
Qed.

Lemma update_all_step now o f q k :
  (forall r r', f r = Some r' -> row_move now r o r') ->
  row_step now o (q !! k) (fst (update_all f q) !! k).
Proof.
  intros Hf. unfold update_all. simpl. rewrite lookup_fmap. destruct (q !! k) as [r|]; simpl; [|done].
  destruct (f r) as [r'|] eqn:Ef; simpl; [right; by apply Hf|by left].
Qed.

(** A loop that ends without an error is an update of every row. *)
Lemma loop_all_spec f q q' n :
  loop_all f q = inr (q', n) <->
  (forall k r, q !! k = Some r -> exists x, f r = inr x) /\ (q', n) = update_all (fun r => no_error (f r)) q.
Proof.
  unfold loop_all. destruct (omap _ _) as [|e l] eqn:E.
  - split; [|intros [_ ->]; done]. intros [= <- <-]. split; [|done]. intros k r Hk.
    destruct (f r) as [e|x] eqn:Ef; [|eauto]. exfalso.
    assert (Hin : e ∈ omap (fun kv => match f (snd kv) with inl e => Some e | inr _ => None end) (map_to_list q)).
    { apply list_elem_of_omap. exists (k, r). split; [by apply elem_of_map_to_list|]. simpl. by rewrite Ef. }
    rewrite E in Hin. by apply elem_of_nil in Hin.
  - split; [done|]. intros [H _]. exfalso.
    assert (Hin : e ∈ e :: l) by (apply elem_of_cons; by left). rewrite <- E in Hin.
    apply list_elem_of_omap in Hin as ([k r] & Hk%elem_of_map_to_list & Hf). simpl in Hf.
    destruct (H k r Hk) as [x Hx]. by rewrite Hx in Hf.
Qed.

Lemma loop_all_step now o f q k :
  (forall r r', f r = inr (Some r') -> row_move now r o r') ->
  row_step now o (q !! k) (fst_or_same q (loop_all f q) !! k).
Proof.
  intros Hf. destruct (loop_all f q) as [e|[q' n]] eqn:E; simpl; [done|].
  apply loop_all_spec in E as [_ Hq].
  assert (q' = fst (update_all (fun r => no_error (f r)) q)) as -> by (by rewrite <- Hq).
  apply update_all_step. intros r r' Hr. apply Hf. destruct (f r) as [?|x]; simpl in Hr; congruence.
Qed.

(** ** Claims *)

Lemma limited_sublist {A} n (l : list A) : limited n l `sublist_of` l.
Proof. unfold limited. destruct (n <? 0)%Z; [done|]. apply sublist_take. Qed.
Lemma filter_sublist {A} (f : A -> bool) l : List.filter f l `sublist_of` l.
Proof. induction l as [|x l IH]; simpl; [constructor|]. destruct (f x); by constructor. Qed.

(** The rows that are due, earliest first. *)
Definition due_rows (now : instant) (q : Queue) : list (string * OutboundRow) :=
  sort_by earlier_due (List.filter (fun kv => due now (snd kv)) (map_to_list q)).

Lemma due_rows_In now q id r : (id, r) ∈ due_rows now q <-> q !! id = Some r /\ due now r = true.
Proof.
  unfold due_rows. rewrite list_elem_of_In, sort_by_In, filter_In, <- list_elem_of_In, elem_of_map_to_list.
  done.
Qed.
Lemma due_rows_NoDup now q : NoDup (due_rows now q).*1.
Proof.
  unfold due_rows. rewrite (sort_by_perm earlier_due).
  eapply sublist_NoDup; [apply (NoDup_fst_map_to_list q)|]. apply fmap_sublist, filter_sublist.
Qed.
Lemma pending_ids_eq now n q : pending_ids now n q = (limited n (due_rows now q)).*1.
Proof. done. Qed.

Lemma pending_ids_NoDup now n q : NoDup (pending_ids now n q).
Proof.
  rewrite pending_ids_eq. eapply sublist_NoDup; [apply (due_rows_NoDup now q)|].
  apply fmap_sublist, limited_sublist.
Qed.
Lemma pending_ids_due now n q id :
  id ∈ pending_ids now n q -> exists r, q !! id = Some r /\ due now r = true.
Proof.
  rewrite pending_ids_eq. intros ([? r] & -> & H)%list_elem_of_fmap. exists r.
  apply due_rows_In. eapply sublist_subseteq, H. apply limited_sublist.
Qed.

Lemma claim_all_lookup now until by_ ids q k : NoDup ids ->
  claim_all now until by_ ids q !! k
  = if decide (k ∈ ids) then claim_row now until by_ <$> q !! k else q !! k.
Proof.
  unfold claim_all. revert q. induction ids as [|id ids IH]; intros q Hn; simpl; [done|].
  apply NoDup_cons in Hn as [Hid Hn]. rewrite IH by done.
  destruct (decide (k = id)) as [->|Hk].
  - rewrite decide_False, decide_True by (done || (apply elem_of_cons; by left)).
    destruct (q !! id) as [r|] eqn:E; [by rewrite lookup_insert_eq|by rewrite E].
  - assert (Hq : match q !! id with Some r => <[id:=claim_row now until by_ r]> q | None => q end !! k = q !! k).
    { destruct (q !! id); [by rewrite lookup_insert_ne|done]. }
    rewrite Hq. assert (D : k ∈ id :: ids <-> k ∈ ids) by (rewrite elem_of_cons; naive_solver).
    destruct (decide (k ∈ ids)), (decide (k ∈ id :: ids)); tauto.
Qed.

Lemma claim_step now n d by_ q k :
  row_step now (Claim n d by_) (q !! k) (fst_or_same q (claim_pending_outbound now n d by_ q) !! k).
Proof.
  unfold claim_pending_outbound. destruct (or_panic _) as [e|until]; simpl; [done|].
  rewrite claim_all_lookup by apply pending_ids_NoDup.
  destruct (decide (k ∈ pending_ids now n q)) as [H|]; [|done].
  destruct (pending_ids_due _ _ _ _ H) as (r & -> & Hd). simpl. right. by constructor.
Qed.

(** Every operation moves rows along the machine, and removes none. *)
Lemma apply_row_step known now o q k : row_step now o (q !! k) (apply known now o q !! k).
Proof.
  destruct o; simpl; try (apply update_at_step; intros; by econstructor);
    try (apply loop_all_step; intros; by econstructor);
    try (apply (update_all_step now SweepExpiredClaims); intros; by econstructor).
  - destruct (enqueue_outbound known now m next q) as [e|q'] eqn:E; simpl; [done|].
    destruct (decide (k = queue_id m)) as [->|Hk].
    + pose proof E as E'. unfold enqueue_outbound in E'. repeat case_match; try done.
      injection E' as <-. assert (q !! queue_id m = None) as ->.
      { destruct (q !! queue_id m); [|done]. by rewrite orb_true_r in *. }
      rewrite lookup_insert_eq. simpl. econstructor; [exact E|]. apply lookup_insert_eq.
    + unfold enqueue_outbound in E. repeat case_match; try done. injection E as <-.
      by rewrite lookup_insert_ne.
  - apply claim_step.
  - unfold mark_transport_failed. destruct (q !! id) as [r|] eqn:E; simpl; [|done].
    destruct (failed_row _ _ _ _ _ r) as [e|[r' out]] eqn:Ef; simpl; [done|].
    destruct (decide (id = k)) as [<-|Hk].
    + rewrite lookup_insert_eq, E. simpl. right. by econstructor.
    + by rewrite lookup_insert_ne.
Qed.

(** ** The invariant of the rows *)

(** A row is claimed exactly while it is sent; an abandoned row has its instant and its reason,
    another has neither; a row that waits for an acknowledgement asked for one and has the
    instant its transport ended; the attempts of a row in flight were counted. *)
Record coherent (r : OutboundRow) : Prop := {
  coherent_checks : schema_checks r = true;
  coherent_claim : is_some (claim r) = in_status Sending r;
  coherent_abandoned : is_some (abandoned_at r) = in_status Abandoned r;
  coherent_reason : is_some (abandoned_reason r) = in_status Abandoned r;
  coherent_waits : in_status AwaitingAck r = true ->
    requires_ack (message r) = true /\ is_some (transport_delivered_at r) = true;
  coherent_count : (0 <= attempt_count r)%Z /\
    (in_status Sending r || in_status AwaitingAck r = true -> (0 < attempt_count r)%Z);
}.

Lemma fresh_coherent now o r : fresh_row now o r -> coherent r.
Proof.
  intros [known m next q q' r' E Hr]. unfold enqueue_outbound in E. repeat case_match; try done.
  injection E as <-. rewrite lookup_insert_eq in Hr. injection Hr as <-.
  split; try done. unfold schema_checks. simpl. destruct (ack_timeout_seconds m); simpl in *; lia.
Qed.

Ltac open_move H :=
  inversion H; subst; clear H;
  unfold due, delivered_row, failed_row, resolved_row, acked_row, ack_timeout_row, timed_out_row, ttl_row,
    released_row, cancelled_row, replayed_row, ttl_expired in *; simpl in *;
  repeat (case_match; try done); simplify_eq/=.

Lemma move_coherent now o r r' : coherent r -> row_move now r o r' -> coherent r'.
Proof.
  intros [H1 H2 H3 H4 H5 H6] M. destruct r as [m s nx la td de ab ar n le lt ae cl].
  unfold schema_checks in H1.
  destruct s, cl, ab, ar, de; simpl in *; try done; try (rewrite ?andb_false_r in H1; done).
  all: open_move M.
  all: split; unfold schema_checks; simpl in *; try done; try lia.
  all: destruct (ack_timeout_seconds m); simplify_eq/=; lia.
Qed.

Lemma step_lookup known q q' k r' :
  step known q q' -> q' !! k = Some r' ->
  exists now o, (exists r, q !! k = Some r /\ (r' = r \/ row_move now r o r')) \/ (q !! k = None /\ fresh_row now o r').
Proof.
  intros [now o q0] Hk. exists now, o. pose proof (apply_row_step known now o q0 k) as H. rewrite Hk in H.
  destruct (q0 !! k) as [r|]; simpl in H; eauto.
Qed.

(** Every row of a queue that starts empty satisfies the invariant, whatever the operations,
    their order and their clocks. *)
Lemma rows_coherent known q : reachable known q -> map_Forall (fun _ r => coherent r) q.
Proof.
  intros H. apply rtc_ind_r with (P := fun q => map_Forall (fun _ r => coherent r) q) in H; [done| |].
  - apply map_Forall_empty.
  - intros q1 q2 _ Hs IH k r' Hr. destruct (step_lookup _ _ _ _ _ Hs Hr) as (now & o & [(r & Hk & Hm)|[_ Hf]]).
    + destruct Hm as [->|Hm]; [by apply (IH k)|]. eapply move_coherent, Hm. by apply (IH k).
    + by eapply fresh_coherent.
Qed.

(** ** The abstract machine *)

(** The moves of a status. *)
Inductive moves : OutboundStatus -> OutboundStatus -> Prop :=
| to_sending : moves Pending Sending
| to_waiting : moves Sending AwaitingAck
| to_delivered s : is_terminal s = false -> moves s Delivered
| to_abandoned s : is_terminal s = false -> moves s Abandoned
| to_retry s : s = Sending \/ s = AwaitingAck -> moves s Pending
| to_replay : moves Abandoned Pending.

Lemma row_moves now o r r' : row_move now r o r' ->
  message r' = message r /\ moves (status r) (status r') /\ (status r = Abandoned -> exists id, o = Replay id).
Proof.
  intros M. destruct r as [m s nx la td de ab ar n le lt ae cl].
  destruct s; open_move M; (split; [done|]); (split; [constructor; auto; fail|]); try done; intros; eauto.
Qed.

(** Messages and statuses. *)
Definition view (q : Queue) : gmap string (OutboundMessage * OutboundStatus) :=
  (fun r => (message r, status r)) <$> q.
(** The abstract queue: a message is added pending, its status moves, it is never changed or
    removed. *)
Definition machine_step (v v' : gmap string (OutboundMessage * OutboundStatus)) : Prop :=
  forall k, match v !! k, v' !! k with
            | Some (m, s), Some (m', s') => m' = m /\ (s' = s \/ moves s s')
            | Some _, None => False
            | None, Some (m, s) => s = Pending /\ queue_id m = k
            | None, None => True
            end.

Lemma fresh_row_pending now o r : fresh_row now o r -> status r = Pending /\ attempt_count r = 0%Z.
Proof.
  intros [known m next q q' r' E Hr]. unfold enqueue_outbound in E. repeat case_match; try done.
  injection E as <-. rewrite lookup_insert_eq in Hr. by injection Hr as <-.
Qed.

Lemma apply_fresh_key known now o q k r :
  q !! k = None -> apply known now o q !! k = Some r -> queue_id (message r) = k.
Proof.
  intros Hq Hr. pose proof (apply_row_step known now o q k) as H. rewrite Hq, Hr in H. simpl in H.
  inversion H; subst. simpl in Hr. unfold or_same in Hr.
  destruct (enqueue_outbound known now m next q) as [e|q2] eqn:E; [congruence|].
  unfold enqueue_outbound in E. repeat case_match; try done. injection E as <-.
  destruct (decide (queue_id m = k)) as [<-|Hk].
  - rewrite lookup_insert_eq in Hr. by injection Hr as <-.
  - rewrite lookup_insert_ne in Hr by done. congruence.
Qed.

Lemma step_refines known q q' : step known q q' -> machine_step (view q) (view q').
Proof.
  intros [now o q0] k. unfold view. rewrite !lookup_fmap. pose proof (apply_row_step known now o q0 k) as H.
  destruct (q0 !! k) as [r|] eqn:E, (apply known now o q0 !! k) as [r'|] eqn:E'; simpl in *; try done.
  - destruct H as [->|M]; [auto|]. destruct (row_moves _ _ _ _ M) as (Hm & Hs & _). auto.
  - split; [by destruct (fresh_row_pending _ _ _ H)|]. by eapply apply_fresh_key.
Qed.

Lemma run_refines known q q' : rtc (step known) q q' -> rtc machine_step (view q) (view q').
Proof. induction 1 as [|q1 q2 q3 H _ IH]; [done|]. eapply rtc_l; [by eapply step_refines|done]. Qed.

Lemma rows_keyed known q : reachable known q -> forall k r, q !! k = Some r -> queue_id (message r) = k.
Proof.
  intros H%run_refines. unfold view at 1 in H. rewrite fmap_empty in H.
  assert (G : forall v, rtc machine_step ∅ v -> forall k m s, v !! k = Some (m, s) -> queue_id m = k).
  { intros v Hv. apply rtc_ind_r with (P := fun v => forall k m s, v !! k = Some (m, s) -> queue_id m = k) in Hv;
      [done|set_solver|].
    intros v1 v2 _ Hs IH k m s Hk. specialize (Hs k). rewrite Hk in Hs.
    destruct (v1 !! k) as [[m1 s1]|] eqn:E; [|tauto]. destruct Hs as [-> _]. by eapply IH. }
  intros k r Hk. apply (G _ H k _ (status r)). unfold view. by rewrite lookup_fmap, Hk.
Qed.

(** A delivered row never changes again, in any column. *)
Lemma delivered_final known q q' k r :
  rtc (step known) q q' -> q !! k = Some r -> status r = Delivered -> q' !! k = Some r.
Proof.
  induction 1 as [|q1 q2 q3 [now o q0] _ IH]; [done|]. intros Hk Hs. apply IH; [|done].
  pose proof (apply_row_step known now o q0 k) as H. rewrite Hk in H.
  destruct (apply known now o q0 !! k) as [r'|]; simpl in H; [|done]. destruct H as [->|M]; [done|].
  destruct (row_moves _ _ _ _ M) as (_ & Hm & _). rewrite Hs in Hm. inversion Hm as [| |? Ht|? Ht|? Ht|]; subst; try done; by destruct Ht.
Qed.

(** ** Attempts *)

(** What the history of a run says of the message [k] since it was enqueued or last replayed:
    how many claims handed its row to a worker, and how many sweeps took it back from one. *)
Record Tally := mk_tally { handed_out : Z; taken_back : Z }.

Definition handed (k : string) (now : instant) (o : Op) (q : Queue) : bool :=
  match o with
  | Claim n d by_ =>
      match claim_pending_outbound now n d by_ q with
      | inr (_, rows) => existsb (fun r => queue_id (message r) =s k) rows
      | inl _ => false
      end
  | _ => false
  end.
Definition taken (k : string) (o : Op) (q q' : Queue) : bool :=
  match o with
  | SweepExpiredClaims => is_some_and (q !! k) (in_status Sending) && is_some_and (q' !! k) (in_status Pending)
  | _ => false
  end.
Definition replayed (k : string) (now : instant) (o : Op) (q : Queue) : bool :=
  match o with
  | Replay id => (id =s k) && match replay_abandoned now id q with inr _ => true | inl _ => false end
  | _ => false
  end.
Definition tally_step (known : string -> bool) (k : string) (s : Queue * Tally) (x : instant * Op) : Queue * Tally :=
  let '(q, c) := s in
  let q' := apply known (fst x) (snd x) q in
  (q', if replayed k (fst x) (snd x) q then mk_tally 0 0
       else mk_tally (handed_out c + Z.b2z (handed k (fst x) (snd x) q)) (taken_back c + Z.b2z (taken k (snd x) q q'))).
Definition claims_since (known : string -> bool) (k : string) (ops : list (instant * Op)) : Tally :=
  snd (fold_left (tally_step known k) ops (∅, mk_tally 0 0)).

Lemma run_reachable known ops : reachable known (run known ops ∅).
Proof.
  unfold reachable, run. generalize (∅ : Queue). induction ops as [|x ops IH]; intros q; simpl; [done|].
  eapply rtc_l; [constructor|]. apply IH.
Qed.

Lemma run_snoc known ops x : run known (ops ++ [x]) ∅ = apply known (fst x) (snd x) (run known ops ∅).
Proof. unfold run. by rewrite fold_left_app. Qed.

Lemma tally_snoc known k ops x :
  claims_since known k (ops ++ [x]) = snd (tally_step known k (run known ops ∅, claims_since known k ops) x).
Proof.
  unfold claims_since. rewrite fold_left_app. simpl. f_equal. f_equal.
  assert (G : forall ops q c, fst (fold_left (tally_step known k) ops (q, c)) = run known ops q).
  { clear. induction ops as [|y ops IH]; intros q c; [done|]. apply IH. }
  rewrite (surjective_pairing (fold_left _ ops _)). by rewrite G.
Qed.

(** The answer of a claim names exactly the rows it marked. *)
Lemma handed_iff known k now n d by_ q : reachable known q ->
  handed k now (Claim n d by_) q = true <->
  exists until r, (try_seconds d ≫= checked_add_signed now) = Some until /\ q !! k = Some r /\
    due now r = true /\ apply known now (Claim n d by_) q !! k = Some (claim_row now until by_ r).
Proof.
  intros Hq. unfold handed. cbn [apply]. unfold claim_pending_outbound.
  destruct (try_seconds d ≫= checked_add_signed now) as [u|]; simpl; [|naive_solver].
  rewrite existsb_exists, claim_all_lookup by apply pending_ids_NoDup. split.
  - intros (r' & (id & Hid & Hr')%list_elem_of_In%list_elem_of_omap & Hk%String.eqb_eq).
    rewrite claim_all_lookup, decide_True in Hr' by (done || apply pending_ids_NoDup).
    destruct (pending_ids_due _ _ _ _ Hid) as (r & Hr & Hd). rewrite Hr in Hr'. injection Hr' as <-.
    simpl in Hk. rewrite (rows_keyed known q Hq id r Hr) in Hk. subst id. exists u, r.
    by rewrite decide_True, Hr by done.
  - intros (u' & r & [= <-] & Hr & Hd & Ha). rewrite Hr in Ha. destruct (decide _) as [Hid|]; simpl in Ha.
    2: { injection Ha as Ha. unfold due in Hd. rewrite Ha in Hd. by apply andb_true_iff in Hd as [? _]. }
    exists (claim_row now u by_ r). split; [|apply String.eqb_eq; simpl; by apply (rows_keyed known q Hq)].
    apply list_elem_of_In, list_elem_of_omap. exists k. split; [done|].
    by rewrite claim_all_lookup, decide_True, Hr by (done || apply pending_ids_NoDup).
Qed.

(** The column agrees with the history, and the history is within the policy. *)
Definition tallied (r : OutboundRow) (c : Tally) : Prop :=
  attempt_count r = handed_out c /\ (0 <= taken_back c)%Z /\
  (handed_out c <= max_attempts (message r) + taken_back c)%Z /\
  (status r = Pending -> (handed_out c < max_attempts (message r) + taken_back c)%Z).

Lemma tallied_claim known k now n d by_ q r r' c :
  reachable known q -> q !! k = Some r -> apply known now (Claim n d by_) q !! k = Some r' -> tallied r c ->
  tallied r' (mk_tally (handed_out c + Z.b2z (handed k now (Claim n d by_) q)) (taken_back c + 0)).
Proof.
  intros Hq Hr Hr' (H1 & H2 & H3 & H4). destruct (handed k now _ q) eqn:E.
  - apply (handed_iff known) in E as (u & r0 & _ & Hr0 & Hd & Ha); [|done].
    assert (r0 = r) as -> by congruence. assert (r' = claim_row now u by_ r) as -> by congruence.
    apply andb_true_iff in Hd as [Hd _]. assert (Hp : status r = Pending) by (unfold in_status in Hd; by destruct (status r)).
    specialize (H4 Hp). unfold tallied. simpl. split_and!; try lia. done.
  - pose proof (apply_row_step known now (Claim n d by_) q k) as S. rewrite Hr, Hr' in S. destruct S as [->|M].
    + unfold tallied. simpl. split_and!; try lia. intros Hp. specialize (H4 Hp). lia.
    + exfalso. inversion M as [? ? ? u Hd Heq| | | | | | | | |]; subst. cbn [apply] in Hr'.
      assert (handed k now (Claim n d by_) q = true); [|congruence]. apply (handed_iff known); [done|].
      exists u, r. split_and!; try done. unfold claim_pending_outbound in Hr'.
      destruct (try_seconds d ≫= _) as [u'|]; simpl in Hr'.
      2: { rewrite Hr in Hr'. injection Hr' as Hr'. rewrite Hr' in Hd. by apply andb_true_iff in Hd as [? _]. }
      rewrite claim_all_lookup, Hr in Hr' by apply pending_ids_NoDup. destruct (decide _); simpl in Hr'; [unfold claim_row in Hr'; congruence|].
      injection Hr' as Hr'. rewrite Hr' in Hd. by apply andb_true_iff in Hd as [? _].
Qed.

Lemma move_tallied now o r r' c k q q' :
  row_move now r o r' -> (forall n d by_, o <> Claim n d by_) -> (forall id, o <> Replay id) ->
  q !! k = Some r -> q' !! k = Some r' -> tallied r c ->
  tallied r' (mk_tally (handed_out c + Z.b2z (handed k now o q)) (taken_back c + Z.b2z (taken k o q q'))).
Proof.
  intros M Hc Hr Hk Hk' (H1 & H2 & H3 & H4). destruct r as [m s nx la td de ab ar n le lt ae cl].
  unfold taken. rewrite Hk, Hk'.
  destruct s; try specialize (H4 eq_refl); open_move M; unfold tallied, attempts_exhausted in *; simpl in *;
    try congruence; try (by exfalso; eapply Hc); try (by exfalso; eapply Hr); split_and!; intros; try done; lia.
Qed.

Lemma replayed_resets known k now id q r : q !! k = Some r ->
  if replayed k now (Replay id) q
  then exists r', apply known now (Replay id) q !! k = Some r' /\ attempt_count r' = 0%Z /\ message r' = message r
  else apply known now (Replay id) q !! k = Some r.
Proof.
  intros Hr. unfold replayed. cbn [apply]. unfold replay_abandoned, update_at.
  destruct (String.eqb_spec id k) as [->|Hne]; simpl.
  - rewrite Hr. simpl. unfold replayed_row. destruct (in_status Abandoned r); simpl; [|done].
    eexists. split; [apply lookup_insert_eq|]. done.
  - destruct (q !! id ≫= _); simpl; [by rewrite lookup_insert_ne|done].
Qed.

Lemma row_max_positive known ops k r : run known ops ∅ !! k = Some r -> (0 < max_attempts (message r))%Z.
Proof.
  intros Hk. pose proof (rows_coherent known _ (run_reachable known ops) k r Hk) as [C _ _ _ _ _].
  unfold schema_checks in C. simpl in C. lia.
Qed.

(** One operation on a row that is there. *)
Lemma apply_tallied known ops k now o r r' c :
  run known ops ∅ !! k = Some r -> apply known now o (run known ops ∅) !! k = Some r' -> tallied r c ->
  tallied r' (snd (tally_step known k (run known ops ∅, c) (now, o))).
Proof.
  intros Hk Hr HT. pose proof (apply_row_step known now o (run known ops ∅) k) as S. rewrite Hk, Hr in S.
  assert (Same : r' = r -> tallied r' (mk_tally (handed_out c + 0) (taken_back c + 0)))
    by (intros ->; rewrite !Z.add_0_r; by destruct c).
  assert (Move : row_move now r o r' -> (forall n d by_, o <> Claim n d by_) -> (forall id, o <> Replay id) ->
    tallied r' (mk_tally (handed_out c + Z.b2z (handed k now o (run known ops ∅)))
                  (taken_back c + Z.b2z (taken k o (run known ops ∅) (apply known now o (run known ops ∅))))))
    by (intros; by eapply move_tallied).
  cbn [tally_step fst snd]. destruct o; cbn [replayed];
    try (destruct S as [->|M]; [by apply Same|by apply Move]).
  - by eapply tallied_claim; try apply run_reachable.
  - destruct S as [->|M]; [|by apply Move]. unfold taken, is_some_and. rewrite Hk, Hr. simpl.
    unfold in_status. destruct (status r); by apply Same.
  - pose proof (replayed_resets known k now id (run known ops ∅) r Hk) as R.
    unfold replayed in R. destruct (_ && _); [|rewrite Hr in R; injection R as ->; by apply Same].
    destruct R as (r2 & R & H0 & Hm). rewrite Hr in R. injection R as <-.
    pose proof (row_max_positive known ops k r Hk). unfold tallied. simpl. rewrite Hm. split_and!; try lia; done.
Qed.

Lemma run_tallied known ops k :
  match run known ops ∅ !! k with
  | Some r => tallied r (claims_since known k ops)
  | None => claims_since known k ops = mk_tally 0 0
  end.
Proof.
  induction ops as [|[now o] ops IH] using rev_ind; [done|]. rewrite tally_snoc.
  pose proof (run_reachable known ops) as Hq. pose proof (row_max_positive known (ops ++ [(now, o)]) k) as Hmax.
  rewrite run_snoc in *. cbn [fst snd] in *.
  destruct (apply known now o (run known ops ∅) !! k) as [r'|] eqn:Ha;
    destruct (run known ops ∅ !! k) as [r|] eqn:Ek.
  - by eapply apply_tallied.
  - pose proof (apply_row_step known now o (run known ops ∅) k) as S. rewrite Ek, Ha in S. simpl in S.
    destruct (fresh_row_pending _ _ _ S) as [_ Hc]. specialize (Hmax r' eq_refl). inversion S; subst.
    rewrite IH. simpl. unfold tallied. simpl. rewrite Hc. split_and!; try lia; done.
  - pose proof (apply_row_step known now o (run known ops ∅) k) as S. by rewrite Ek, Ha in S.
  - rewrite IH. unfold tally_step, snd, fst. destruct o; try done; simpl.
    + assert (E : handed k now (Claim batch_size claim_duration_seconds claimed_by) (run known ops ∅) = false).
      { apply not_true_iff_false. intros (? & ? & _ & ? & _)%(handed_iff known); [congruence|done]. }
      simpl in E. by rewrite E.
    + by rewrite Ek.
    + by destruct (_ && _).
Qed.

(** ** The sweep of the TTL *)

Definition measurable (r : OutboundRow) : Prop := is_terminal (status r) = true \/ is_Some (try_seconds (ttl_seconds (message r))).

Lemma ttl_row_ok now r : measurable r <-> exists x, ttl_row now r = inr x.
Proof.
  unfold measurable, ttl_row, ttl_expired, duration, or_panic. destruct (is_terminal (status r)); [naive_solver|].
  destruct (try_seconds _) as [d|]; [|naive_solver]. split; [eauto|]. intros _. right. eauto.
Qed.

Lemma sweep_ttl_ok now q : (forall k r, q !! k = Some r -> measurable r) <->
  exists q' n, sweep_ttl_expired now q = inr (q', n).
Proof.
  split.
  - intros H. destruct (update_all (fun r => no_error (ttl_row now r)) q) as [q' n] eqn:E. exists q', n.
    apply loop_all_spec. split; [|done]. intros k r Hk. by apply ttl_row_ok, (H k).
  - intros (q' & n & [H _]%loop_all_spec) k r Hk. apply (ttl_row_ok now). eauto.
Qed.

(** ** Counts *)

Lemma limited_none {A} (l : list A) : limited (-1) l = l.
Proof. done. Qed.
Definition by_status (s : OutboundStatus) : OutboundFilter := mk_filter (Some s) None None None None.

Lemma counts_list q s :
  outbound_counts q s
  = let n := len (list_outbound (by_status s) (-1) q) in if (0 <? n)%N then Some n else None.
Proof.
  unfold outbound_counts, list_outbound. rewrite limited_none. simpl. unfold len.
  rewrite (Permutation_length (sort_by_perm earlier_enqueued _)).
  assert (E : List.filter (passes (by_status s)) (map_to_list q).*2 = List.filter (in_status s) (map_to_list q).*2).
  { apply List.filter_ext. intros r. unfold passes. simpl. by rewrite !andb_true_r. }
  by rewrite E.
Qed.

Lemma counts_total q :
  (default 0 (outbound_counts q Pending) + default 0 (outbound_counts q Sending)
   + default 0 (outbound_counts q AwaitingAck) + default 0 (outbound_counts q Delivered)
   + default 0 (outbound_counts q Abandoned))%N = N.of_nat (size q).
Proof.
  assert (D : forall s, default 0%N (outbound_counts q s) = len (List.filter (in_status s) (map_to_list q).*2)).
  { intros s. unfold outbound_counts. destruct (0 <? _)%N eqn:E; simpl; lia. }
  rewrite !D. clear D. rewrite <- length_map_to_list, <- (length_fmap snd). unfold len.
  assert (C : forall f (r : OutboundRow) l,
    length (List.filter f (r :: l)) = (Nat.b2n (f r) + length (List.filter f l))%nat)
    by (intros f r l; simpl; by destruct (f r)).
  induction ((map_to_list q).*2) as [|r l IH]; [done|]. rewrite !C. cbn [length].
  assert (Nat.b2n (in_status Pending r) + Nat.b2n (in_status Sending r) + Nat.b2n (in_status AwaitingAck r)
          + Nat.b2n (in_status Delivered r) + Nat.b2n (in_status Abandoned r) = 1)%nat
    by (unfold in_status; by destruct (status r)).
  lia.
Qed.

(** ** What a claim takes *)

Lemma due_rows_sorted now q i j a b :
  (i < j)%nat -> due_rows now q !! i = Some a -> due_rows now q !! j = Some b ->
  (next_attempt_after (snd a) <= next_attempt_after (snd b))%Z.
Proof.
  intros Hij Ha Hb. assert (S : StronglySorted (not_after earlier_due) (due_rows now q)).
  { apply sort_by_sorted; unfold earlier_due; intros; lia. }
  revert i j Hij Ha Hb. induction S as [|x l _ IH Hl]; intros i j Hij Ha Hb; [done|].
  destruct j as [|j]; [lia|]. simpl in Hb. destruct i as [|i]; simpl in Ha.
  - injection Ha as <-. rewrite Forall_lookup in Hl. specialize (Hl j b Hb).
    unfold not_after, earlier_due in Hl. lia.
  - apply (IH i j); [lia|done|done].
Qed.

Lemma claim_first now n q id r id' r' :
  id ∈ pending_ids now n q -> q !! id = Some r ->
  q !! id' = Some r' -> due now r' = true -> id' ∉ pending_ids now n q ->
  (next_attempt_after r <= next_attempt_after r')%Z.
Proof.
  rewrite !pending_ids_eq. intros Hid Hr Hr' Hd Hn.
  apply list_elem_of_fmap in Hid as ([? r0] & -> & Hin). simpl in *.
  assert (r0 = r) as ->.
  { assert ((s, r0) ∈ due_rows now q) as [H _]%due_rows_In; [|congruence].
    eapply sublist_subseteq, Hin. apply limited_sublist. }
  assert (Hin' : (id', r') ∈ due_rows now q) by (by apply due_rows_In).
  unfold limited in *. destruct (n <? 0)%Z.
  - exfalso. apply Hn. apply list_elem_of_fmap. by exists (id', r').
  - apply list_elem_of_lookup in Hin as [i Hi]. apply lookup_take_Some in Hi as [Hi Hlt].
    apply list_elem_of_lookup in Hin' as [j Hj].
    assert (Z.to_nat n <= j)%nat.
    { destruct (decide (j < Z.to_nat n)%nat); [|lia]. exfalso. apply Hn. apply list_elem_of_fmap.
      exists (id', r'). split; [done|]. apply list_elem_of_lookup. exists j. by apply lookup_take_Some. }
    apply (due_rows_sorted now q i j (s, r) (id', r')); [lia|done|done].
Qed.

Lemma claim_spec now n d by_ q q' rows :
  claim_pending_outbound now n d by_ q = inr (q', rows) ->
  exists until, (try_seconds d ≫= checked_add_signed now) = Some until /\
    q' = claim_all now until by_ (pending_ids now n q) q /\
    rows = omap (fun id => q' !! id) (pending_ids now n q).
Proof.
  unfold claim_pending_outbound. destruct (try_seconds d ≫= _) as [u|]; simpl; [|done].
  intros [= <- <-]. eauto.
Qed.

Lemma length_omap_all {A B} (f : A -> option B) l :
  (forall x, x ∈ l -> is_Some (f x)) -> length (omap f l) = length l.
Proof.
  induction l as [|x l IH]; intros H; [done|].
  destruct (H x) as [y Hy]; [apply elem_of_cons; by left|]. csimpl. rewrite Hy. simpl. f_equal. apply IH.
  intros z Hz. apply H, elem_of_cons. by right.
Qed.
Lemma claim_rows_length now n d by_ q q' rows :
  claim_pending_outbound now n d by_ q = inr (q', rows) -> length rows = length (pending_ids now n q).
Proof.
  intros (u & _ & -> & ->)%claim_spec.
  apply length_omap_all. intros id Hid. rewrite claim_all_lookup by apply pending_ids_NoDup. rewrite decide_True by done.
  destruct (pending_ids_due _ _ _ _ Hid) as (r & -> & _). eauto.
Qed.

(** What was claimed is not due until something changes it. *)
Lemma claimed_not_due now n d by_ q q' rows now' n' id :
  claim_pending_outbound now n d by_ q = inr (q', rows) ->
  id ∈ pending_ids now n q -> id ∉ pending_ids now' n' q'.
Proof.
  intros (u & _ & -> & _)%claim_spec Hid (r & Hr & Hd)%pending_ids_due.
  rewrite claim_all_lookup, decide_True in Hr by (done || apply pending_ids_NoDup).
  destruct (q !! id); simpl in Hr; [|done]. by injection Hr as <-.
Qed.

(** ** The sweep, exactly *)

Definition after_ttl (now : instant) (r : OutboundRow) : OutboundRow :=
  default r (no_error (ttl_row now r)).

Lemma sweep_ttl_eq now q : map_Forall (fun _ r => measurable r) q ->
  sweep_ttl_expired now q = inr (after_ttl now <$> q, N.of_nat (size (omap (fun r => no_error (ttl_row now r)) q))).
Proof.
  intros H. apply loop_all_spec. split; [|done]. intros k r Hk. by apply ttl_row_ok, (H k).
Qed.

Lemma after_ttl_expired now r : is_terminal (status r) = false -> ttl_expired now r = inr true ->
  after_ttl now r = abandoned_for TtlExpired now r.
Proof. intros Ht Hx. unfold after_ttl, ttl_row. by rewrite Ht, Hx. Qed.

(** An open row whose age is more than its TTL, by the columns alone. *)
Definition open_past_ttl (now : instant) (r : OutboundRow) : bool :=
  match status r with
  | Delivered | Abandoned => false
  | _ => match try_seconds (ttl_seconds (message r)) with
         | Some ttl => (ttl <? now - enqueued_at (message r))%Z
         | None => false
         end
  end.

Lemma ttl_row_exact now r : measurable r ->
  ttl_row now r = inr (if open_past_ttl now r then Some (abandoned_for TtlExpired now r) else None).
Proof.
  unfold measurable, ttl_row, ttl_expired, open_past_ttl, duration, or_panic.
  destruct (status r); simpl; try done; intros [|[d ->]]; done.
Qed.

(** Only a replay moves an abandoned row. *)
Lemma abandoned_stays known k r ops : (forall t, (t, Replay k) ∉ ops) -> status r = Abandoned ->
  forall q, q !! k = Some r -> run known ops q !! k = Some r.
Proof.
  intros Hops Hs. induction ops as [|[t o] ops IH]; intros q Hk; [done|]. simpl.
  apply IH; [intros t'; specialize (Hops t'); set_solver|].
  pose proof (apply_row_step known t o q k) as S. rewrite Hk in S.
  destruct (apply known t o q !! k) as [r'|] eqn:Ha; simpl in S; [|done]. destruct S as [->|M]; [done|].
  destruct (row_moves _ _ _ _ M) as (_ & _ & Hr). destruct (Hr Hs) as [id ->].
  destruct (decide (id = k)) as [->|Hne]; [exfalso; apply (Hops t); set_solver|].
  cbn [apply] in Ha. unfold replay_abandoned, update_at in Ha. destruct (q !! id ≫= _); simpl in Ha; [|congruence].
  rewrite lookup_insert_ne in Ha by done. congruence.
Qed.

Lemma omap_ttl_size now (q : Queue) : map_Forall (fun _ r => measurable r) q ->
  size (omap (fun r => no_error (ttl_row now r)) q) = size (filter (fun kv => open_past_ttl now kv.2 = true) q).
Proof.
  intros H. assert (E : omap (fun r => no_error (ttl_row now r)) q
    = abandoned_for TtlExpired now <$> filter (fun kv => open_past_ttl now kv.2 = true) q).
  { apply map_eq. intros k. rewrite lookup_omap, lookup_fmap, map_lookup_filter.
    destruct (q !! k) as [r|] eqn:Ek; simpl; [|done]. rewrite ttl_row_exact by (by apply (H k)). simpl.
    destruct (open_past_ttl now r); [by rewrite option_guard_True|by rewrite option_guard_False]. }
  by rewrite E, map_size_fmap.
Qed.

(** One row whose TTL is no duration stops the sweep for every other row. *)
Lemma unmeasurable_stops_sweep now q k r :
  q !! k = Some r -> ~ measurable r -> sweep_ttl_expired now q = inl Panicked.
Proof.
  intros Hk Hm. unfold sweep_ttl_expired.
  assert (P : forall r e, ttl_row now r = inl e -> e = Panicked).
  { intros r0 e. unfold ttl_row, ttl_expired, duration, or_panic. repeat case_match; congruence. }
  destruct (loop_all (ttl_row now) q) as [e|[q' n]] eqn:E.
  - f_equal. unfold loop_all in E. destruct (omap _ _) as [|e0 l] eqn:Eo; [done|]. injection E as ->.
    assert (Hin : e ∈ e :: l) by (apply elem_of_cons; by left). rewrite <- Eo in Hin.
    apply list_elem_of_omap in Hin as ([k0 r0] & _ & Hf). simpl in Hf.
    destruct (ttl_row now r0) eqn:Er; [|done]. injection Hf as ->. by eapply P.
  - exfalso. apply Hm. eapply (proj2 (sweep_ttl_ok now q)); [|exact Hk]. by exists q', n.
Qed.

(** A replayed message keeps the instant it was enqueued: one whose TTL had passed is abandoned
    by the next sweep, unless a claim of it is reported first. *)
Lemma replay_does_not_renew now now' r r' :
  replayed_row now r = Some r' -> ttl_expired now r = inr true -> (now <= now')%Z ->
  after_ttl now' r' = abandoned_for TtlExpired now' r'.
Proof.
  unfold replayed_row. destruct (in_status Abandoned r); [|done]. intros [= <-] Hx Hle.
  apply after_ttl_expired; [done|]. unfold ttl_expired in *. simpl.
  destruct (duration _) as [|d]; [done|]. injection Hx as Hx. f_equal. lia.
Qed.

(** What [match_ack_to_outbound] answers. *)
Lemma match_ack_spec h q :
  match match_ack_to_outbound h q with
  | Some r => status r = AwaitingAck /\ body_sha256 (message r) = h /\ exists k, q !! k = Some r
  | None => forall k r, q !! k = Some r -> status r = AwaitingAck -> body_sha256 (message r) <> h
  end.
Proof.
  unfold match_ack_to_outbound. set (f := fun kv : string * OutboundRow => _).
  assert (F : forall k r, f (k, r) = true <-> status r = AwaitingAck /\ body_sha256 (message r) = h).
  { intros k r. unfold f, in_status. simpl. rewrite andb_true_iff, String.eqb_eq. destruct (status r); naive_solver. }
  destruct (List.filter f (map_to_list q)) as [|[k r] l] eqn:E; simpl.
  - intros k r Hk Hs Hh. assert (Hin : In (k, r) (List.filter f (map_to_list q))).
    { apply filter_In. split; [by apply list_elem_of_In, elem_of_map_to_list|by apply F]. }
    by rewrite E in Hin.
  - assert (Hin : In (k, r) (List.filter f (map_to_list q))) by (rewrite E; by left).
    apply filter_In in Hin as [Hk%list_elem_of_In%elem_of_map_to_list [Hs Hh]%F]. eauto.
Qed.

(** ** The properties *)

(** C35. No statement breaks a check of the table: in every queue that operations can reach from
    an empty one, in any order and on any clocks, each row passes the [CHECK] clauses, is claimed
    exactly while it is sent, has the instant and the reason of its abandoning exactly while it
    is abandoned, waits for an acknowledgement only if it asked for one and its transport ended,
    and is stored under its own id. *)
Theorem rows_meet_the_schema known q :
  reachable known q -> forall k r, q !! k = Some r -> coherent r /\ queue_id (message r) = k.
Proof. intros H k r Hk. split; [by apply (rows_coherent known q H k)|by apply (rows_keyed known q H)]. Qed.

(** The queue refines the machine of its statuses: every run is a run of the abstract queue,
    in which messages are added pending, never changed and never removed and statuses move only
    along [moves]; and a delivered row keeps every column for good. *)
Theorem queue_refines known q q' : rtc (step known) q q' ->
  rtc machine_step (view q) (view q') /\
  forall k r, q !! k = Some r -> status r = Delivered -> q' !! k = Some r.
Proof. intros H. split; [by eapply run_refines|]. intros k r. by eapply delivered_final. Qed.

(** C36. Attempts are counted and bounded by the policy and the crashes. After any operations,
    on any clocks, the attempts on the row of a message are exactly the claims that answered
    with that row since it was enqueued or last replayed; they are at most [max_attempts], and
    one more for each time since then that a sweep took the row back from a claim that expired;
    and a message still pending has an attempt left by that measure. *)
Theorem attempts_bounded known ops k r :
  run known ops ∅ !! k = Some r ->
  let c := claims_since known k ops in
  attempt_count r = handed_out c /\
  (handed_out c <= max_attempts (message r) + taken_back c)%Z /\
  (status r = Pending -> (handed_out c < max_attempts (message r) + taken_back c)%Z).
Proof. intros Hr c. pose proof (run_tallied known ops k) as H. rewrite Hr in H. by destruct H as (? & _ & ? & ?). Qed.

(** A claim takes what is due, earliest first: it answers at most [batch_size] rows, as many
    as are due if they fit; the rows it takes are pending and due and become the worker's, the
    others are untouched; none of the due rows it leaves is earlier than one it takes; and a
    later claim, by anyone and at any instant, takes none of them again while they are claimed. *)
Theorem claim_exact now n d by_ q q' rows :
  (0 <= n)%Z -> claim_pending_outbound now n d by_ q = inr (q', rows) ->
  exists (ids : list string) until,
    (try_seconds d ≫= checked_add_signed now) = Some until /\
    length rows = Nat.min (Z.to_nat n) (length (due_rows now q)) /\
    (forall k, q' !! k = if decide (k ∈ ids) then claim_row now until by_ <$> q !! k else q !! k) /\
    (forall k, k ∈ ids -> exists r, q !! k = Some r /\ due now r = true) /\
    (forall k k' r r', k ∈ ids -> k' ∉ ids -> q !! k = Some r -> q !! k' = Some r' -> due now r' = true ->
       (next_attempt_after r <= next_attempt_after r')%Z) /\
    (forall k now' n', k ∈ ids -> k ∉ pending_ids now' n' q').
Proof.
  intros Hn H. exists (pending_ids now n q). destruct (claim_spec _ _ _ _ _ _ _ H) as (u & Hu & Hq & _).
  exists u. split; [done|]. split; [|split; [|split; [|split]]].
  - rewrite (claim_rows_length _ _ _ _ _ _ _ H), pending_ids_eq, length_fmap. unfold limited.
    destruct (n <? 0)%Z eqn:E; [lia|]. apply length_take.
  - intros k. rewrite Hq. apply claim_all_lookup, pending_ids_NoDup.
  - apply pending_ids_due.
  - intros k k' r r' Hk Hk' Hr Hr' Hd. by eapply claim_first.
  - intros k now' n' Hk. by eapply claimed_not_due.
Qed.

(** C24. The sweep of the TTL ends rows: when the TTL of every open row is a duration, the sweep
    succeeds; an open row whose age is more than its TTL becomes abandoned at this instant,
    for that reason and without its claim, its other columns kept; every other row keeps every
    column; no row is added, and the answer is the number of rows abandoned. Whatever happens
    next, on any clocks, a row it abandoned stays as it is unless an operator replays it. *)
Theorem ttl_ends_rows known now (q : Queue) :
  map_Forall (fun _ r => measurable r) q ->
  exists q' n, sweep_ttl_expired now q = inr (q', n) /\
    n = N.of_nat (size (filter (fun kv => open_past_ttl now kv.2 = true) q)) /\
    (forall k, q !! k = None -> q' !! k = None) /\
    (forall k r, q !! k = Some r -> open_past_ttl now r = false -> q' !! k = Some r) /\
    (forall k r, q !! k = Some r -> open_past_ttl now r = true ->
       q' !! k = Some (mk_row (message r) Abandoned (next_attempt_after r) (last_attempt_at r)
                         (transport_delivered_at r) (delivered_at r) (Some now) (Some TtlExpired)
                         (attempt_count r) (last_error r) (last_transport r) (ack_envelope r) None)) /\
    (forall k r ops, q !! k = Some r -> open_past_ttl now r = true -> (forall t, (t, Replay k) ∉ ops) ->
       run known ops q' !! k = q' !! k).
Proof.
  intros H. exists (after_ttl now <$> q). eexists. split; [by apply sweep_ttl_eq|].
  rewrite omap_ttl_size by done. split; [done|].
  assert (A : forall k r, q !! k = Some r ->
    (after_ttl now <$> q) !! k = Some (if open_past_ttl now r then abandoned_for TtlExpired now r else r)).
  { intros k r Hk. rewrite lookup_fmap, Hk. simpl. unfold after_ttl. rewrite ttl_row_exact by (by apply (H k)).
    by destruct (open_past_ttl now r). }
  split; [intros k Hk; by rewrite lookup_fmap, Hk|].
  split; [intros k r Hk Ho; by rewrite (A k r Hk), Ho|].
  split; [intros k r Hk Ho; by rewrite (A k r Hk), Ho|].
  intros k r ops Hk Ho Hops. rewrite (A k r Hk), Ho. apply abandoned_stays; [done..|]. by rewrite (A k r Hk), Ho.
Qed.

(** The counts are those of the listing, and add up to the rows. *)
Theorem counts_exact q :
  (forall s, outbound_counts q s
             = let n := len (list_outbound (by_status s) (-1) q) in if (0 <? n)%N then Some n else None) /\
  (default 0 (outbound_counts q Pending) + default 0 (outbound_counts q Sending)
   + default 0 (outbound_counts q AwaitingAck) + default 0 (outbound_counts q Delivered)
   + default 0 (outbound_counts q Abandoned))%N = N.of_nat (size q).
Proof. split; [apply counts_list|apply counts_total]. Qed.

End Facts.

(** ** Concrete runs *)

Definition hello (id dest : string) (attempts ttl : Z) : OutboundMessage :=
  mk_message id "us" dest "gossip" "1" "bytes" "digest" 5 0%Z attempts ttl true (Some 30%Z).
Definition sec (n : Z) : instant := (n * NANOS)%Z.
Definition all_known : string -> bool := fun _ => true.
Definition sent : list (instant * Op) :=
  [(sec 1, Enqueue (hello "a" "peer" 3 100) (sec 1)); (sec 2, Claim 10 60 "w"); (sec 3, TransportDelivered "a" "mock")].

Lemma rows_meet_the_schema_witness :
  exists r, run all_known sent ∅ !! "a" = Some r /\ status r = AwaitingAck /\ coherent r /\ queue_id (message r) = "a".
Proof.
  eexists. split; [vm_compute; reflexivity|]. split; [done|].
  exact (rows_meet_the_schema (CH:=chrono_bounds) all_known (run all_known sent ∅) (run_reachable all_known sent) "a" _
           ltac:(vm_compute; reflexivity)).
Defined.

(** A message of two attempts that crashed once, failed, ran out and was replayed. *)
Definition retried : list (instant * Op) :=
  [(sec 1, Enqueue (hello "a" "peer" 2 1000) (sec 1)); (sec 2, Claim 10 5 "w"); (sec 8, SweepExpiredClaims);
   (sec 9, Claim 10 5 "w"); (sec 10, TransportFailed "a" "timeout" "x" "mock" (sec 11));
   (sec 12, Replay "a"); (sec 13, Claim 10 5 "w"); (sec 14, Claim 10 5 "w")].
Lemma attempts_bounded_witness :
  exists r, run all_known retried ∅ !! "a" = Some r /\ claims_since all_known "a" retried = mk_tally 1 0 /\
    attempt_count r = 1%Z /\ (1 <= 2)%Z.
Proof.
  eexists. split; [vm_compute; reflexivity|].
  assert (Et : claims_since all_known "a" retried = mk_tally 1 0) by (vm_compute; reflexivity).
  destruct (attempts_bounded (CH:=chrono_bounds) all_known retried "a" _ ltac:(vm_compute; reflexivity)) as (H1 & H2 & _).
  rewrite Et in H1, H2. split; [exact Et|]. split; [exact H1|exact H2].
Defined.

(** Two messages, one of them past its TTL at the sweep. *)
Definition aged : list (instant * Op) :=
  [(sec 1, Enqueue (hello "a" "peer" 3 100) (sec 1)); (sec 2, Enqueue (hello "b" "peer" 3 1000) (sec 2));
   (sec 2, Claim 10 60 "w")].
Lemma aged_measurable : map_Forall (fun _ r => measurable r) (run all_known aged ∅).
Proof.
  assert (E : forallb (fun kv => is_some (try_seconds (ttl_seconds (message kv.2)))) (map_to_list (run all_known aged ∅)) = true)
    by (vm_compute; reflexivity).
  intros k r Hk. right. rewrite forallb_forall in E.
  assert (Hin : In (k, r) (map_to_list (run all_known aged ∅))) by (by apply list_elem_of_In, elem_of_map_to_list).
  apply E in Hin. cbn [snd] in Hin. destruct (try_seconds _) as [d|]; [by exists d|done].
Qed.
Lemma ttl_ends_rows_witness :
  exists q' n, sweep_ttl_expired (sec 200) (run all_known aged ∅) = inr (q', n) /\ n = 1%N /\
    status <$> q' !! "a" = Some Abandoned /\ status <$> q' !! "b" = Some Sending /\
    run all_known [(sec 300, Claim 10 60 "w"); (sec 301, Cancel "a"); (sec 302, Replay "b")] q' !! "a" = q' !! "a".
Proof.
  destruct (ttl_ends_rows all_known (sec 200) (run all_known aged ∅) aged_measurable)
    as (q' & n & Hs & Hn & _ & Hkeep & Hend & Hstay).
  exists q', n. split; [exact Hs|].
  destruct (run all_known aged ∅ !! "a") as [a|] eqn:Ea; [|vm_compute in Ea; discriminate Ea].
  destruct (run all_known aged ∅ !! "b") as [b|] eqn:Eb; [|vm_compute in Eb; discriminate Eb].
  assert (Ha : open_past_ttl (sec 200) a = true) by (vm_compute in Ea; injection Ea as <-; vm_compute; reflexivity).
  assert (Hb : open_past_ttl (sec 200) b = false /\ status b = Sending)
    by (vm_compute in Eb; injection Eb as <-; split; vm_compute; reflexivity).
  split; [rewrite Hn; vm_compute; reflexivity|].
  split; [rewrite (Hend "a" a Ea Ha); reflexivity|].
  split; [rewrite (Hkeep "b" b Eb (proj1 Hb)); simpl; f_equal; apply (proj2 Hb)|].
  apply (Hstay "a" a _ Ea Ha). intros t Ht.
  apply elem_of_cons in Ht as [Ht|Ht]; [discriminate Ht|]. apply elem_of_cons in Ht as [Ht|Ht]; [discriminate Ht|].
  apply elem_of_cons in Ht as [Ht|Ht]; [discriminate Ht|]. by apply elem_of_nil in Ht.
Defined.

(** A dispatcher that crashes after each claim sends a message of one attempt five times: the
    sweep of the expired claims does not read [max_attempts]. *)
Definition crashes : list (instant * Op) :=
  (sec 1, Enqueue (hello "a" "peer" 1 1000) (sec 1)) ::
  concat (map (fun t => [(sec t, Claim 10 5 "w"); (sec (t + 6), SweepExpiredClaims)]) [10; 20; 30; 40; 50]%Z).
Example crash_loop_exceeds :
  (fun r => (attempt_count r, max_attempts (message r), status r)) <$> run all_known crashes ∅ !! "a"
  = Some (5, 1, Pending)%Z /\ claims_since all_known "a" crashes = mk_tally 5 5.
Proof. by vm_compute. Qed.

(** A message whose TTL is more seconds than a duration holds is enqueued, and then no sweep of
    the TTL ever abandons another. *)
Definition poisoned : list (instant * Op) :=
  [(sec 1, Enqueue (hello "a" "peer" 3 100) (sec 1)); (sec 2, Enqueue (hello "b" "peer" 3 (2 ^ 63 - 1)) (sec 2))].
Example huge_ttl_stops_sweep :
  size (run all_known poisoned ∅) = 2%nat /\ sweep_ttl_expired (sec 1000000) (run all_known poisoned ∅) = inl Panicked.
Proof. split; by vm_compute. Qed.

(** The report of a worker whose claim expired ends the claim of another. *)
Definition late : list (instant * Op) :=
  [(sec 1, Enqueue (hello "a" "peer" 3 1000) (sec 1)); (sec 2, Claim 10 5 "first"); (sec 10, SweepExpiredClaims);
   (sec 11, Claim 10 60 "second"); (sec 12, TransportFailed "a" "timeout" "late" "mock" (sec 13))].
Example late_report_ends_other_claim :
  (fun r => (status r, claim r)) <$> run all_known late ∅ !! "a" = Some (Pending, None).
Proof. by vm_compute. Qed.

(** One body sent to two peers: the row an acknowledgement is matched with is found by the body
    alone, and is that of one peer whoever acknowledged. *)
Definition two_peers : list (instant * Op) :=
  [(sec 1, Enqueue (hello "a" "peer1" 3 100) (sec 1)); (sec 1, Enqueue (hello "b" "peer2" 3 100) (sec 1));
   (sec 2, Claim 10 60 "w"); (sec 3, TransportDelivered "a" "mock"); (sec 3, TransportDelivered "b" "mock")].
Example ack_matches_by_body :
  exists r, match_ack_to_outbound "digest" (run all_known two_peers ∅) = Some r /\
    (destination_key_id (message r) = "peer1" \/ destination_key_id (message r) = "peer2").
Proof. eexists. split; [vm_compute; reflexivity|]. simpl. auto. Qed.
