(* ===== verification/TrustBounded.v ===== *)
(** * The bounded trust walks read what the whole slices hold

    The walks of [TrustRoot] read a few rows of a key's slice: those a leg can pick, and the
    composers that name one. [src/src/federation/trust_root.rs] keeps, beside them, the walks
    that read every row ([mod v53_1_6_reference]). Over a directory that answers its reads
    from one store of rows the two give the same answers. *)

From Stdlib Require Import ZArith NArith Lia Ascii String.
From stdpp Require Import base list strings gmap sorting.
From S2P Require Import Prelude RustStd Json Precedence ReverseQuorum Consensus Matcher Query TrustRoot.

Open Scope string_scope.
Open Scope list_scope.
Open Scope persist_scope.

(** ** The walks over whole slices *)

Section Reference.
Context (rt : RowTypes) `{StrictMajority} `{TrustBuild} (dir : Directory).

(** [all_attestations_by] and [all_attestations_for]. *)
Definition all_attestations_by (k : string) : Error + list Attestation := read_pages dir (by_key k FOLD_PAGE).
Definition all_attestations_for (k : string) : Error + list Attestation := read_pages dir (to_key k FOLD_PAGE).

Definition trust_root_valid_reference (now : instant) (user root_ref : string) : Error + TrustRootVerdict :=
  if user =s root_ref then inr self_root_verdict
  else
    arm ← root_arm dir root_ref;
    let '(_, legs_ref, _) := arm in
    by_user ← all_attestations_by user;
    by_root ← all_attestations_by legs_ref;
    about_root ← all_attestations_for legs_ref;
    judge rt dir now root_ref arm by_user by_root about_root.

Definition trusted_roots_of_reference (now : instant) (node : string) : Error + list string :=
  by_node ← or_unsupported (all_attestations_by node) [];
  edges ← live_edges rt dir now (fun k => k <>s node) by_node;
  inr (roots_of edges).

Definition capability_roots_reference (now : instant) (user subject scope : string) (roster : list string)
    : Error + option TrustedGrant :=
  about_subject ← all_attestations_for subject;
  walk_grants rt dir (trust_root_valid_reference now user) now subject scope roster about_subject.

Definition transit_eligibility_walk_reference (now : instant) (user peer_key_id : string)
    : Error + (TransitEligibility * N) :=
  if user =s peer_key_id then inr (denied, 0%N)
  else
    found ← lookup_public_key dir peer_key_id;
    match found with
    | None => inr (denied, 0%N)
    | Some peer =>
        if negb (set_contains (kr_identity_type peer) NODE) then inr (denied, 0%N)
        else if negb (claims_role peer INFRA_TRANSPORT) then inr (denied, 0%N)
        else
          by_user ← all_attestations_by user;
          transit_loop (trust_root_valid_reference now) now user peer_key_id peer
            (transit_candidate_roots rt now user by_user) 0
    end.

Definition owner_granted_scope_reference (now : instant) (subject granter scope : string) : Error + bool :=
  about_subject ← all_attestations_for subject;
  inr (existsb (owner_grant now (tombstoned_ids rt about_subject) subject granter scope) about_subject).
End Reference.

(** ** A directory over one store

    What the trait documents of its attestation reads. The other reads are unconstrained,
    and may fail. *)
Definition is_composer (a : Attestation) : bool := is_structural_composer (Json.attestation_type a).

Class Holds (store : list Attestation) (held : list string) (dir : Directory) : Prop := {
  holds_ids : NoDup (map attestation_id store);
  holds_pages : forall q, validate q = None -> read_pages dir q = inr (answer store q);
  holds_composers : forall ids about by_, exists l,
    list_composers_referencing_any dir ids about by_ = inr l /\
    forall a, In a l <->
      In a store /\ tier a = attestation_tier.FEDERATION /\ is_composer a = true /\
      (exists id, In id ids /\ target_of a = Some id) /\
      is_none_or about (fun k => attested_key_id a =s k) = true /\
      is_none_or by_ (fun k => attesting_key_id a =s k) = true;
  holds_referencing : forall id, exists l,
    list_attestations_referencing dir id = inr l /\
    forall a, In a l <->
      In a store /\ tier a = attestation_tier.FEDERATION /\ is_composer a = true /\ target_of a = Some id;
  holds_get : forall id, get_attestation dir id = inr (by_id store id);
  holds_direction : forall ids, exists l,
    trust_direction_held_among dir ids = inr l /\ forall id, In id l <-> In id ids /\ In id held;
}.

(** ** Rows of a store *)

Section Store.
Context (store : list Attestation) (Hnd : NoDup (map attestation_id store)).

Lemma by_id_sub rows r :
  (forall a, In a rows -> In a store) -> In r rows -> by_id rows (attestation_id r) = Some r.
Proof.
  intros Hsub Hr. unfold by_id. destruct (List.find _ (rev rows)) as [r'|] eqn:E.
  - apply (by_id_In rows) in E as [Hin Heq]. f_equal. apply (ids_inj store); auto.
  - eapply List.find_none in E; [|by apply in_rev in Hr]. by rewrite String.eqb_refl in E.
Qed.

(** Retirement, over rows of the store. *)
Lemma retired_sub rt rows t :
  (forall a, In a rows -> In a store) ->
  t ∈ retired_ids rt rows <->
  exists r target, In r rows /\ In target rows /\ attestation_id target = t /\
    is_retraction r = true /\ target_of r = Some t /\ retraction_entitled rt r target = true.
Proof.
  intros Hsub. rewrite retired_spec. unfold Retired. split.
  - intros (r & target & Hr & Hret & Href & Hb & He). apply by_id_In in Hb as [Ht Eq].
    exists r, target. done.
  - intros (r & target & Hr & Ht & Eq & Hret & Href & He). exists r, target. subst t.
    split_and!; try done. by apply by_id_sub.
Qed.

(** ** A selection with the composers that name it *)

Context (rt : RowTypes) (whole sel comps : list Attestation).
Hypothesis whole_store : forall a, In a whole -> In a store.
Hypothesis sel_whole : forall a, In a sel -> In a whole.
Hypothesis comps_spec : forall a, In a comps <->
  In a whole /\ is_composer a = true /\ exists id, In id (map attestation_id sel) /\ target_of a = Some id.

Definition slice : list Attestation :=
  newest_first (sel ++ distinct_on attestation_id (map attestation_id sel) comps).

Lemma slice_In a : In a slice <-> In a sel \/ In a comps.
Proof.
  unfold slice, newest_first. rewrite sort_by_In, in_app_iff. split; intros [Ha|Ha]; auto.
  - right. by eapply distinct_on_In.
  - destruct (distinct_on_key attestation_id (map attestation_id sel) comps a Ha) as [Hs|(y & Hy & Eq)].
    + left. apply in_map_iff in Hs as (b & Eq & Hb).
      assert (a = b) as -> by (apply (ids_inj store); auto; by apply whole_store, comps_spec). done.
    + right. assert (a = y) as ->; [|done].
      apply (ids_inj store); auto; apply whole_store, comps_spec; [done|]. by eapply distinct_on_In.
Qed.

Lemma slice_whole a : In a slice -> In a whole.
Proof. rewrite slice_In. intros [?|?]; [by apply sel_whole|by apply comps_spec]. Qed.

(** The retraction fold decides a selected row as over the whole slice. *)
Lemma slice_retired a :
  In a sel -> attestation_id a ∈ retired_ids rt slice <-> attestation_id a ∈ retired_ids rt whole.
Proof.
  intros Ha. rewrite !retired_sub by (intros; auto using slice_whole).
  split; intros (r & t & Hr & Ht & Eq & Hret & Href & He); exists r, t; split_and!;
    auto using slice_whole.
  - apply slice_In. right. apply comps_spec. split_and!; [done|by apply retraction_is_composer|].
    exists (attestation_id a). split; [by apply in_map|done].
  - apply slice_In. left. by assert (t = a) as -> by (apply (ids_inj store); auto).
Qed.

(** A test only selected rows pass picks the same rows. *)
Lemma slice_filter (P : Attestation -> bool) :
  (forall a, In a whole -> P a = true -> In a sel) ->
  List.filter P slice = newest_first (List.filter P sel).
Proof.
  intros HP. unfold slice, newest_first.
  rewrite filter_sort_by by (intros; lia). rewrite List.filter_app.
  assert (List.filter P (distinct_on attestation_id (map attestation_id sel) comps) = []) as ->; [|by rewrite app_nil_r].
  destruct (distinct_on_NoDup attestation_id (map attestation_id sel) comps) as [_ Hns].
  assert (Hc : forall a, In a (distinct_on attestation_id (map attestation_id sel) comps) -> P a = false).
  { intros a Ha. apply not_true_iff_false. intros Hp. apply (Hns a Ha), in_map, HP; [|done].
    eapply comps_spec, distinct_on_In, Ha. }
  revert Hc. generalize (distinct_on attestation_id (map attestation_id sel) comps). clear.
  induction l as [|x l IH]; intros Hc; simpl; [done|]. rewrite Hc by (by left). apply IH. intros; apply Hc. by right.
Qed.
End Store.

(** ** Narrowed queries *)

Lemma job_admits_excluded env e :
  job_dimension_admits env e =
  negb (is_some_and (envelope_dimension env) (fun d => existsb (fun x => x =s d) (jobs_other_than e))).
Proof.
  unfold job_dimension_admits, jobs_other_than, contains. destruct (envelope_dimension env) as [d|]; [|done].
  cbn [is_some_and]. generalize TRUST_JOB_DIMENSIONS. intros l. symmetry.
  destruct (existsb (fun x => x =s d) l) eqn:E.
  - apply existsb_exists in E as (x & Hx & Eq). apply String.eqb_eq in Eq as ->.
    destruct (String.eqb_spec d e) as [->|Hne].
    + apply negb_true_iff, existsb_false. intros x Hin. apply filter_In in Hin as [_ Hin].
      by apply negb_true_iff in Hin.
    + apply negb_false_iff, existsb_exists. exists d. split; [|apply String.eqb_refl].
      apply filter_In. split; [done|]. by apply negb_true_iff, String.eqb_neq.
  - apply negb_true_iff, existsb_false. intros x Hin. apply filter_In in Hin as [Hin _].
    exact (proj1 (existsb_false _ _) E x Hin).
Qed.

Lemma narrowed_admits by_ to_ ts e a : ts <> [] ->
  admits (excluding_dimensions (types (pinned by_ to_ FOLD_PAGE) ts) (jobs_other_than e)) a =
  admits (pinned by_ to_ FOLD_PAGE) a
  && (contains ts (Json.attestation_type a) && job_dimension_admits (attestation_envelope a) e).
Proof.
  intros Hts. rewrite job_admits_excluded. unfold admits, contains. simpl.
  destruct ts as [|t ts]; [done|]. simpl. destruct (envelope_dimension (attestation_envelope a)); simpl;
    rewrite ?andb_true_r, ?andb_assoc; done.
Qed.

Lemma pinned_admits by_ to_ a :
  admits (pinned by_ to_ FOLD_PAGE) a = true <->
  tier a = attestation_tier.FEDERATION /\
  is_none_or to_ (fun k => attested_key_id a =s k) = true /\
  is_none_or by_ (fun k => attesting_key_id a =s k) = true.
Proof.
  unfold admits. simpl.
  assert (Hn : forall o : option string, is_some_and o (fun _ => false) = false) by (by intros []).
  rewrite Hn, !andb_true_r, !andb_true_iff, String.eqb_eq. tauto.
Qed.

(** Rows in a query's newest-first order stay where a stable sort by instant puts them. *)
Lemma newest_first_id l :
  NoDup (map attestation_id l) -> newest_first (sort_by (before Desc) l) = sort_by (before Desc) l.
Proof.
  intros Hnd. apply sort_by_id.
  pose proof (sort_strict Desc l Hnd) as Hs. revert Hs. generalize (sort_by (before Desc) l).
  clear. induction 1 as [|x l Hs IH Hall]; constructor; [done|].
  eapply Forall_impl; [exact Hall|]. intros y Hy. unfold not_after. simpl in Hy.
  unfold key_ltb, key_of in Hy. simpl in Hy. apply orb_true_iff in Hy. rewrite andb_true_iff in Hy. lia.
Qed.

(** ** Bounds and maxima depend on which rows there are *)

Lemma latest_bound_from_spec best l t :
  latest_bound_from best l = Some t <->
  (best = Some t \/ exists a, In a l /\ expires_at a = Some t) /\
  (forall b, best = Some b -> (b <= t)%Z) /\
  forall a, In a l -> exists e, expires_at a = Some e /\ (e <= t)%Z.
Proof.
  revert best. induction l as [|r l IH]; intros best; cbn [latest_bound_from].
  - split.
    + intros ->. split_and!; [by left|intros b [= ->]; lia|done].
    + intros ([->|(a & [] & _)] & _ & _). done.
  - destruct (expires_at r) as [e|] eqn:Er; cbn [mbind option_bind].
    + rewrite IH. split.
      * intros (Hex & Hb & Hall). specialize (Hb _ eq_refl).
        assert (He : (e <= t)%Z /\ forall b, best = Some b -> (b <= t)%Z).
        { destruct best; split; intros; simplify_eq; lia. }
        split_and!; [|tauto|].
        -- destruct Hex as [[= Hm]|(a & Ha & Et)]; [|right; exists a; by split; [right|]].
           destruct best as [b|]; [|right; exists r; split; [by left|congruence]].
           destruct (Z.max_spec b e) as [[_ Em]|[_ Em]]; [right; exists r; split; [by left|]|left]; congruence.
        -- intros a [->|Ha]; [exists e; tauto|auto].
      * intros (Hex & Hb & Hall). destruct (Hall r (or_introl eq_refl)) as (e' & Ee & Hle). simplify_eq.
        split_and!.
        -- destruct Hex as [->|(a & [->|Ha] & Et)]; [left|left|right; eauto].
           ++ f_equal. specialize (Hb _ eq_refl). lia.
           ++ simplify_eq. destruct best as [b|]; [|done]. f_equal. specialize (Hb _ eq_refl). lia.
        -- intros b Eb. destruct best as [b'|]; simplify_eq; [specialize (Hb _ eq_refl)|]; lia.
        -- intros a Ha. apply Hall. by right.
    + split; [done|]. intros (_ & _ & Hall). destruct (Hall r (or_introl eq_refl)) as (e & Ee & _). congruence.
Qed.

Lemma latest_bound_spec l t :
  latest_bound l = Some t <->
  (exists a, In a l /\ expires_at a = Some t) /\
  forall a, In a l -> exists e, expires_at a = Some e /\ (e <= t)%Z.
Proof. unfold latest_bound. rewrite latest_bound_from_spec. naive_solver. Qed.

Lemma option_ext {A} (o o' : option A) : (forall x, o = Some x <-> o' = Some x) -> o = o'.
Proof.
  intros E. destruct o as [x|]; [symmetry; by apply E|]. destruct o' as [y|]; [|done]. by apply E.
Qed.

Lemma latest_bound_same l l' : (forall a, In a l <-> In a l') -> latest_bound l = latest_bound l'.
Proof. intros Hl. apply option_ext. intros t. rewrite !latest_bound_spec. by setoid_rewrite Hl. Qed.

Lemma latest_spec l t : latest l = Some t <-> In t l /\ forall u, In u l -> (u <= t)%Z.
Proof.
  assert (Hm : forall l b, In (fold_left Z.max l b) (b :: l) /\ forall u, In u (b :: l) -> (u <= fold_left Z.max l b)%Z).
  { clear. induction l as [|x l IH]; intros b; cbn [fold_left].
    - split; [by left|]. intros u [->|[]]. lia.
    - destruct (IH (Z.max b x)) as [Hin Hle]. split.
      + destruct Hin as [E|Hin]; [|by right; right]. rewrite <- E.
        destruct (Z.max_spec b x) as [[_ ->]|[_ ->]]; [by right; left|by left].
      + intros u [->|[->|Hu]]; [..|apply Hle; by right]; pose proof (Hle _ (or_introl eq_refl)); lia. }
  unfold latest. destruct l as [|x l]; [by split; [|intros [[] _]]|]. cbn [fold_left].
  assert (Hs : forall l b, fold_left (fun best t => Some (match best with Some b => Z.max b t | None => t end)) l (Some b)
                 = Some (fold_left Z.max l b)).
  { clear. induction l as [|x l IH]; intros b; [done|]. apply IH. }
  rewrite Hs. destruct (Hm l x) as [Hin Hle]. split; [by intros [= <-]|].
  intros [Ht Hall]. f_equal. apply Z.le_antisymm; auto.
Qed.

Lemma latest_same (f : Attestation -> instant) l l' :
  (forall a, In a l <-> In a l') -> latest (map f l) = latest (map f l').
Proof.
  intros Hl. apply option_ext. intros t. rewrite !latest_spec. setoid_rewrite in_map_iff. by setoid_rewrite Hl.
Qed.

Lemma is_nil_same {A} (l l' : list A) : (forall a, In a l <-> In a l') -> is_nil l = is_nil l'.
Proof.
  intros Hl. destruct l as [|x l], l' as [|y l']; try done; exfalso; [by apply (Hl y); left|by apply (Hl x); left].
Qed.

Lemma existsb_filter_nil {A} (f : A -> bool) l : existsb f l = negb (is_nil (List.filter f l)).
Proof. induction l as [|x l IH]; simpl; [done|]. destruct (f x); [done|]. by rewrite IH. Qed.

Section Bounded.
Context (rt : RowTypes) (store : list Attestation) (held : list string) (dir : Directory) `{!Holds store held dir}.
Notation whole by_ to_ := (answer store (pinned by_ to_ FOLD_PAGE)).

Lemma whole_In by_ to_ a :
  In a (whole by_ to_) <->
  In a store /\ tier a = attestation_tier.FEDERATION /\
  is_none_or to_ (fun k => attested_key_id a =s k) = true /\
  is_none_or by_ (fun k => attesting_key_id a =s k) = true.
Proof. by rewrite answer_In, pinned_admits. Qed.

(** The composers a slice adds. *)
Lemma slice_read by_ to_ sel :
  (forall a, In a sel -> In a (whole by_ to_)) ->
  exists comps, with_slice_composers dir sel to_ by_ = inr (slice sel comps) /\
    forall a, In a comps <-> In a (whole by_ to_) /\ is_composer a = true /\
      exists id, In id (map attestation_id sel) /\ target_of a = Some id.
Proof.
  intros Hsel. destruct sel as [|s sel].
  { exists []. split; [done|]. intros a. split; [done|]. by intros (_ & _ & id & [] & _). }
  destruct (holds_composers (map attestation_id (s :: sel)) to_ by_) as (l & E & Hl).
  exists l. split.
  - unfold with_slice_composers. rewrite E. done.
  - intros a. rewrite Hl, whole_In. tauto.
Qed.

(** Narrowing the read and adding the composers changes no test that only narrowed rows
    pass and that asks of the retired set only whether it holds the row. *)
Lemma narrowed_slice by_ to_ q g :
  validate q = None -> q_order q = ByAssertedAt Desc ->
  (forall a, admits q a = admits (pinned by_ to_ FOLD_PAGE) a && g a) ->
  exists rows, (sel ← read_pages dir q; with_slice_composers dir sel to_ by_) = inr rows /\
    (forall a, In a rows -> In a (whole by_ to_)) /\
    forall P : gset string -> Attestation -> bool,
      (forall d a, P d a = true -> g a = true) ->
      (forall d d' a, (attestation_id a ∈ d <-> attestation_id a ∈ d') -> P d a = P d' a) ->
      List.filter (P (retired_ids rt rows)) rows
      = List.filter (P (retired_ids rt (whole by_ to_))) (whole by_ to_).
Proof.
  intros Hv Ho Hg. rewrite holds_pages, ok_bind by done.
  assert (Hs : answer store q = List.filter g (whole by_ to_)).
  { unfold answer, sort. rewrite Ho. cbn [q_order pinned direction].
    rewrite filter_sort_by by (intros; eauto using before_asym, before_cotrans).
    rewrite filter_filter_andb. f_equal. apply filter_ext. intros a. by rewrite Hg. }
  assert (Hsel : forall a, In a (answer store q) -> In a (whole by_ to_)).
  { intros a. rewrite Hs, filter_In. tauto. }
  assert (Hst : forall a, In a (whole by_ to_) -> In a store) by (intros a Ha; apply whole_In in Ha; tauto).
  destruct (slice_read by_ to_ _ Hsel) as (comps & E & Hc). exists (slice (answer store q) comps).
  split; [done|]. pose proof holds_ids as Hnd. split; [intros a; by eapply slice_whole|].
  intros P HPg HPd.
  assert (Hin : forall d a, In a (whole by_ to_) -> P d a = true -> In a (answer store q)).
  { intros d a Ha Hp. rewrite Hs. apply filter_In. eauto. }
  rewrite (filter_ext_in _ (P (retired_ids rt (whole by_ to_)))).
  - rewrite (slice_filter (whole by_ to_)) by eauto.
    unfold newest_first. rewrite <- filter_sort_by by (intros; lia).
    replace (sort_by _ (answer store q)) with (answer store q).
    + rewrite Hs, filter_filter_andb. apply filter_ext. intros a.
      destruct (P _ a) eqn:Ep; [|apply andb_false_r]. by rewrite (HPg _ _ Ep).
    + symmetry. unfold answer, sort. rewrite Ho. apply newest_first_id. by apply NoDup_filter_ids.
  - intros a Ha. destruct (g a) eqn:Eg.
    + apply HPd. eapply slice_retired; eauto. rewrite Hs. apply filter_In.
      split; [|done]. by eapply slice_whole.
    + assert (Hf : forall d, P d a = false); [|by rewrite !Hf].
      intros d. apply not_true_iff_false. intros Hp. by rewrite (HPg _ _ Hp) in Eg.
Qed.

(** ** Which rows' direction reading is denied *)

Context `{StrictMajority} `{TrustBuild}.

Definition direction_denied (a : Attestation) : bool :=
  (Json.attestation_type a =s attestation_type.DELEGATES_TO)
  && names_no_trust_job (attestation_envelope a) && negb (is_pinned_bundle_row a)
  && negb (contains held (attestation_id a)).

Lemma contains_In l s : contains l s = true <-> In s l.
Proof.
  unfold contains. rewrite existsb_exists. split.
  - intros (x & Hx & E). apply String.eqb_eq in E. congruence.
  - intros Hs. exists s. split; [done|apply String.eqb_refl].
Qed.

Lemma denied_spec rows :
  (forall a, In a rows -> In a store) ->
  exists S, direction_denied_ids dir rows = inr S /\
    forall a, In a rows -> (attestation_id a ∈ S <-> direction_denied a = true).
Proof.
  intros Hsub. pose proof holds_ids as Hnd. unfold direction_denied_ids.
  set (asks := fun row => (Json.attestation_type row =s attestation_type.DELEGATES_TO)
      && names_no_trust_job (attestation_envelope row) && negb (is_pinned_bundle_row row)).
  set (asked := map attestation_id (List.filter asks rows)).
  assert (Hask : forall a, In a rows -> (In (attestation_id a) asked <-> asks a = true)).
  { intros a Ha. unfold asked. rewrite in_map_iff. split.
    - intros (b & E & Hb). apply filter_In in Hb as [Hb Hs].
      by assert (a = b) as -> by (apply (ids_inj store); auto).
    - intros Hs. exists a. by rewrite filter_In. }
  assert (Hd : forall a, direction_denied a = asks a && negb (contains held (attestation_id a))) by done.
  destruct asked as [|i is_] eqn:Easked.
  - exists ∅. split; [done|]. intros a Ha. rewrite Hd. destruct (asks a) eqn:E; [|set_solver].
    by apply Hask in E.
  - rewrite <- Easked in *. set (l := dedup_sorted (sort_strings asked)).
    destruct (holds_direction l) as (h & -> & Hh). eexists. split; [done|]. intros a Ha.
    rewrite elem_of_list_to_set, list_elem_of_In, filter_In, negb_true_iff.
    rewrite Hd, andb_true_iff, negb_true_iff, <- (Hask a Ha), <- !not_true_iff_false, !contains_In, Hh.
    assert (Hl : In (attestation_id a) l <-> In (attestation_id a) asked).
    { subst l. rewrite dedup_sorted_In. unfold sort_strings. by rewrite sort_by_In. }
    tauto.
Qed.

(** ** The edge leg *)

Lemma id_dead_agrees (d d' : gset string) (a : Attestation) :
  (attestation_id a ∈ d <-> attestation_id a ∈ d') ->
  bool_decide (attestation_id a ∈ d) = bool_decide (attestation_id a ∈ d').
Proof. intros E. by apply bool_decide_ext. Qed.

Lemma edge_slice_rows user :
  exists rows, edge_slice dir user = inr rows /\
    (forall a, In a rows -> In a (whole (Some user) None)) /\
    forall now to,
      List.filter (edge_shaped now (tombstoned_ids rt rows) to) rows
      = List.filter (edge_shaped now (tombstoned_ids rt (whole (Some user) None)) to) (whole (Some user) None).
Proof.
  destruct (narrowed_slice (Some user) None
    (excluding_dimensions (types (by_key user FOLD_PAGE) edge_types) (jobs_other_than TRUST_ACCEPTS_DIMENSION))
    (fun a => contains edge_types (Json.attestation_type a)
              && job_dimension_admits (attestation_envelope a) TRUST_ACCEPTS_DIMENSION))
    as (rows & E & Hin & HP); [done..|intros a; by apply narrowed_admits|].
  exists rows. split; [exact E|]. split; [done|]. intros now to.
  apply (HP (fun d => edge_shaped now d to)).
  - intros d a Hs. unfold edge_shaped in Hs. rewrite !andb_true_iff, orb_true_iff in Hs.
    destruct Hs as [[[[[Ht _] _] _] _] Hj]. apply andb_true_iff. split; [|done].
    apply contains_In. rewrite !String.eqb_eq in Ht. unfold edge_types. simpl. intuition.
  - intros d d' a Hd. unfold edge_shaped. by rewrite (id_dead_agrees d d' a Hd).
Qed.

Lemma live_edges_bounded user now to :
  (rows ← edge_slice dir user; live_edges rt dir now to rows)
  = live_edges rt dir now to (whole (Some user) None).
Proof.
  destruct (edge_slice_rows user) as (rows & -> & _ & HP). rewrite ok_bind.
  unfold live_edges. by rewrite HP.
Qed.

(** ** The charter leg of a key *)

Definition charter_g (a : Attestation) : bool :=
  contains [attestation_type.DELEGATES_TO] (Json.attestation_type a)
  && job_dimension_admits (attestation_envelope a) TRUST_CHARTER_DIMENSION.

Lemma charter_shaped_g now legs denied dead a : charter_shaped now legs denied dead a = true -> charter_g a = true.
Proof.
  unfold charter_shaped, charter_g. rewrite !andb_true_iff. intros [[[[[[[[Ht _] _] _] _] Hj] _] _] _].
  split; [|done]. apply contains_In. apply String.eqb_eq in Ht. by left.
Qed.

Lemma charter_slice_rows legs :
  exists rows, charter_slice dir legs = inr rows /\
    (forall a, In a rows -> In a (whole (Some legs) None)) /\
    forall (P : gset string -> Attestation -> bool),
      (forall d a, P d a = true -> charter_g a = true) ->
      (forall d d' a, (attestation_id a ∈ d <-> attestation_id a ∈ d') -> P d a = P d' a) ->
      List.filter (P (tombstoned_ids rt rows)) rows
      = List.filter (P (tombstoned_ids rt (whole (Some legs) None))) (whole (Some legs) None).
Proof.
  destruct (narrowed_slice (Some legs) None
    (excluding_dimensions (types (by_key legs FOLD_PAGE) [attestation_type.DELEGATES_TO])
       (jobs_other_than TRUST_CHARTER_DIMENSION)) charter_g)
    as (rows & E & Hin & HP); [done..|intros a; by apply narrowed_admits|].
  exists rows. split; [exact E|]. split; [done|]. exact HP.
Qed.

(** ** The slice about the root *)

Definition drill_g (a : Attestation) : bool :=
  is_some_and (envelope_dimension (attestation_envelope a)) (starts_with ACCORD_HEARTBEAT_DIMENSION).

Definition about_g (family : option Family) (a : Attestation) : bool :=
  drill_g a || (is_some family && charter_g a).

Lemma about_selected family legs :
  exists sel, (drills ← read_pages dir (dimension_prefix (to_key legs FOLD_PAGE) ACCORD_HEARTBEAT_DIMENSION);
    match family with
    | None => inr drills
    | Some _ =>
        cs ← read_pages dir (excluding_dimensions (types (to_key legs FOLD_PAGE) [attestation_type.DELEGATES_TO])
                               (jobs_other_than TRUST_CHARTER_DIMENSION));
        inr (newest_first (drills ++ cs))
    end) = inr sel /\
    forall a, In a sel <-> In a (whole None (Some legs)) /\ about_g family a = true.
Proof.
  assert (Hd : forall a, admits (dimension_prefix (to_key legs FOLD_PAGE) ACCORD_HEARTBEAT_DIMENSION) a
                         = admits (to_key legs FOLD_PAGE) a && drill_g a).
  { intros a. unfold admits, drill_g. simpl.
    destruct (envelope_dimension (attestation_envelope a)); simpl; by rewrite ?andb_true_r, ?andb_false_r. }
  rewrite !holds_pages by done. rewrite ok_bind. unfold about_g.
  destruct family as [f|].
  - rewrite ok_bind. eexists. split; [done|]. intros a.
    unfold newest_first. rewrite sort_by_In, in_app_iff, !answer_In, Hd.
    unfold to_key at 2. rewrite narrowed_admits by done.
    cbn [is_some andb]. rewrite orb_true_iff, !andb_true_iff. unfold charter_g, to_key. rewrite andb_true_iff. tauto.
  - eexists. split; [done|]. intros a. rewrite !answer_In, Hd, orb_false_r, andb_true_iff. unfold to_key. tauto.
Qed.

Lemma about_slice_rows family legs :
  exists rows, about_slice dir family legs = inr rows /\
    (forall a, In a rows -> In a (whole None (Some legs))) /\
    (forall a, In a (whole None (Some legs)) -> about_g family a = true -> In a rows) /\
    (forall a, In a rows -> about_g family a = true ->
       attestation_id a ∈ tombstoned_ids rt rows <-> attestation_id a ∈ tombstoned_ids rt (whole None (Some legs))).
Proof.
  destruct (about_selected family legs) as (sel & E & Hsel). unfold about_slice. rewrite bind_assoc_ok, E, ok_bind.
  destruct (slice_read None (Some legs) sel) as (comps & -> & Hc); [intros a Ha; by apply Hsel in Ha as [? _]|].
  assert (Hst : forall a, In a (whole None (Some legs)) -> In a store) by (intros a Ha; apply whole_In in Ha; tauto).
  assert (Hsw : forall a, In a sel -> In a (whole None (Some legs))) by (intros a Ha; apply Hsel in Ha; tauto).
  pose proof holds_ids as Hnd.
  exists (slice sel comps). split; [done|]. split; [intros a; by eapply slice_whole|]. split.
  - intros a Ha Hg. eapply slice_In; eauto. left. by apply Hsel.
  - intros a Ha Hg. eapply slice_retired; eauto. apply Hsel. split; [|done]. by eapply slice_whole.
Qed.

(** A test of the legs over the slice and over every row about the root picks the same rows. *)
Lemma about_filter family legs rows (P P' : Attestation -> bool) :
  (forall a, In a rows -> In a (whole None (Some legs))) ->
  (forall a, In a (whole None (Some legs)) -> about_g family a = true -> In a rows) ->
  (forall a, P a = true -> about_g family a = true) -> (forall a, P' a = true -> about_g family a = true) ->
  (forall a, In a rows -> about_g family a = true -> P a = P' a) ->
  forall a, In a (List.filter P rows) <-> In a (List.filter P' (whole None (Some legs))).
Proof.
  intros Hin Hout HP HP' Hext a. rewrite !filter_In. split; intros [Ha Hp].
  - split; [auto|]. rewrite <- Hext; auto.
  - assert (Hr : In a rows) by auto. split; [done|]. rewrite Hext; auto.
Qed.

(** ** The charter leg *)

(** The members read for a quorum; a backend that cannot answer seats nobody. *)
Definition seated (now : instant) (f : Family) : Error + list FamilyMember :=
  or_unsupported (active_family_members dir now (family_key_id f)) [].

Definition quorum_of (f : Family) (ms : list FamilyMember) (c : Attestation) : CharterQuorum * gset string :=
  family_quorum_holders_over_roster dir (attestation_envelope c) (scrubs c) f (map fm_key_id ms).

Definition better_quorum (q b : CharterQuorum) : bool := (distinct_holders b <? distinct_holders q)%N.

Lemma charter_loop_ok now f ms cands : forall Q Hs B,
  seated now f = inr ms ->
  charter_loop dir now f cands (Q, Hs, B) =
  inr (Q ++ List.filter (fun c => met (fst (quorum_of f ms c))) cands,
       Hs ∪ ⋃ map (fun c => if met (fst (quorum_of f ms c)) then snd (quorum_of f ms c) else ∅) cands,
       fold_left (fun B c => if is_none_or B (better_quorum (fst (quorum_of f ms c)))
                             then Some (fst (quorum_of f ms c)) else B) cands B).
Proof.
  induction cands as [|c cands IH]; intros Q Hs B E.
  - simpl. by rewrite app_nil_r, union_empty_r_L.
  - cbn [charter_loop]. unfold family_quorum_holders_over. fold (seated now f). rewrite E, !ok_bind.
    fold (quorum_of f ms c). cbn [List.filter fold_left map union_list].
    destruct (quorum_of f ms c) as [q signers] eqn:Eq. cbn [fst snd].
    destruct (met q) eqn:Em; rewrite IH by done; do 3 f_equal.
    + by rewrite <- app_assoc.
    + set_solver.
    + set_solver.
Qed.

Lemma charter_loop_err now f e cands acc :
  seated now f = inl e -> charter_loop dir now f cands acc = if is_nil cands then inr acc else inl e.
Proof.
  intros E. destruct cands as [|c cands]; [done|]. cbn [charter_loop is_nil]. destruct acc as [[Q Hs] B].
  unfold family_quorum_holders_over. fold (seated now f). by rewrite E.
Qed.

(** The best count over a list of candidates is a function of which they are. *)
Lemma best_quorum_same f ms l l' :
  (forall a, In a l <-> In a l') ->
  let step := fun B c => if is_none_or B (better_quorum (fst (quorum_of f ms c)))
                         then Some (fst (quorum_of f ms c)) else B in
  fold_left step l None = fold_left step l' None.
Proof.
  intros Hl step.
  assert (Hsome : forall l x, fold_left step l (Some x)
            = Some (fold_best better_quorum x (map (fun c => fst (quorum_of f ms c)) l))).
  { clear. induction l as [|c l IH]; intros x; [done|].
    unfold fold_best in *. cbn [fold_left map]. subst step. cbn beta in *. cbn [is_none_or].
    destruct (better_quorum (fst (quorum_of f ms c)) x); apply IH. }
  assert (Hmax : forall c l, exists b, fold_left step (c :: l) None = Some (fst (quorum_of f ms b)) /\
            In b (c :: l) /\ forall d, In d (c :: l) ->
            (distinct_holders (fst (quorum_of f ms d)) <= distinct_holders (fst (quorum_of f ms b)))%N).
  { clear -Hsome. intros c l. cbn [fold_left]. subst step. cbn [is_none_or]. rewrite Hsome.
    set (q := fun c => fst (quorum_of f ms c)). change (fst (quorum_of f ms c)) with (q c).
    destruct (in_map_iff q (c :: l) (fold_best better_quorum (q c) (map q l))) as [Hin _].
    destruct Hin as (b & Eb & Hb); [apply (fold_best_in better_quorum (q c) (map q l))|].
    exists b. split; [by rewrite <- Eb|]. split; [done|]. intros d Hd.
    assert (Hm : forall y, In y (q c :: map q l) -> better_quorum y (fold_best better_quorum (q c) (map q l)) = false).
    { apply fold_best_max; unfold better_quorum; intros; breflect; lia. }
    specialize (Hm (q d)).
    change (q c :: map q l) with (map q (c :: l)) in Hm. specialize (Hm (in_map q _ _ Hd)).
    rewrite <- Eb in Hm. unfold better_quorum in Hm. by apply N.ltb_ge in Hm. }
  destruct l as [|c l], l' as [|c' l'].
  - done.
  - exfalso. by apply (Hl c'); left.
  - exfalso. by apply (Hl c); left.
  - destruct (Hmax c l) as (b & -> & Hb & Hbmax), (Hmax c' l') as (b' & -> & Hb' & Hbmax'). f_equal.
    assert (distinct_holders (fst (quorum_of f ms b)) = distinct_holders (fst (quorum_of f ms b'))) as E.
    { apply N.le_antisymm; [apply Hbmax'|apply Hbmax]; by apply Hl. }
    unfold quorum_of, family_quorum_holders_over_roster in *. simpl in *. congruence.
Qed.

(** Two answers of the charter leg that no reader of it tells apart. *)
Definition same_charters (r r' : Error + (list Attestation * option CharterQuorum * gset string)) : Prop :=
  match r, r' with
  | inl e, inl e' => e = e'
  | inr (l, q, hs), inr (l', q', hs') => (forall a, In a l <-> In a l') /\ q = q' /\ hs = hs'
  | _, _ => False
  end.

(** What the family arm does with its candidates. *)
Definition judge_candidates (now : instant) (f : Family) (cands : list Attestation)
    : Error + (list Attestation * option CharterQuorum * gset string) :=
  r ← charter_loop dir now f cands ([], ∅, None);
  let '(quorate, holders, best) := r in
  match best with
  | Some q => inr (quorate, Some q, holders)
  | None =>
      members ← seated now f;
      let n := len members in
      inr (quorate, Some (mk_CharterQuorum 0 (family_charter_threshold f n) n), holders)
  end.

Lemma judge_candidates_same now f l l' :
  (forall a, In a l <-> In a l') -> same_charters (judge_candidates now f l) (judge_candidates now f l').
Proof.
  intros Hl. unfold judge_candidates. destruct (seated now f) as [e|ms] eqn:Es.
  - rewrite !(charter_loop_err now f e) by done.
    by destruct l, l'.
  - rewrite !(charter_loop_ok now f ms) by done. rewrite !ok_bind. cbv beta iota.
    rewrite (best_quorum_same f ms l l' Hl).
    assert (Hh : ⋃ map (fun c => if met (fst (quorum_of f ms c)) then snd (quorum_of f ms c) else ∅) l
              = (⋃ map (fun c => if met (fst (quorum_of f ms c)) then snd (quorum_of f ms c) else ∅) l' : gset string)).
    { apply set_eq. intros k. rewrite !elem_of_union_list. setoid_rewrite list_elem_of_In.
      setoid_rewrite in_map_iff. split; intros (X & (c & E & Hc) & Hk); exists X; split; try done; exists c;
        (split; [done|by apply Hl]). }
    rewrite Hh. destruct (fold_left _ l' None) as [q|]; rewrite ?ok_bind; simpl; split_and!; try done;
      intros a; rewrite !filter_In, Hl; done.
Qed.

Lemma charters_same now family legs by_root about_root :
  charter_slice dir legs = inr by_root -> about_slice dir family legs = inr about_root ->
  same_charters (charters rt dir now family legs by_root about_root)
    (charters rt dir now family legs (whole (Some legs) None) (whole None (Some legs))).
Proof.
  destruct (charter_slice_rows legs) as (rows & -> & Hin & HP). intros [= <-].
  destruct (about_slice_rows family legs) as (arows & -> & Hain & Haout & Hdead). intros [= <-].
  assert (Hst : forall b t a, In a (whole b t) -> In a store) by (intros b t a Ha; apply whole_In in Ha; tauto).
  unfold charters.
  destruct (denied_spec (List.filter (fun a => attested_key_id a =s legs) (rows ++ arows))) as (S & -> & HS).
  { intros a Ha. apply filter_In in Ha as [Ha _]. apply in_app_iff in Ha as [Ha|Ha]; eauto. }
  destruct (denied_spec (List.filter (fun a => attested_key_id a =s legs)
              (whole (Some legs) None ++ whole None (Some legs)))) as (S' & -> & HS').
  { intros a Ha. apply filter_In in Ha as [Ha _]. apply in_app_iff in Ha as [Ha|Ha]; eauto. }
  rewrite !ok_bind.
  set (test := fun (dead : gset string) (a : Attestation) =>
         charter_shaped now legs ∅ dead a && negb (direction_denied a)).
  assert (Htest : forall D dead a, (attested_key_id a = legs -> attestation_id a ∈ D <-> direction_denied a = true) ->
            charter_shaped now legs D dead a = test dead a).
  { intros D dead a HD. unfold test, charter_shaped.
    destruct (String.eqb_spec (attested_key_id a) legs) as [El|]; [|by rewrite !andb_false_r].
    rewrite (bool_decide_eq_false_2 (attestation_id a ∈ (∅ : gset string))) by set_solver.
    assert (bool_decide (attestation_id a ∈ D) = direction_denied a) as ->.
    { apply eq_true_iff_eq. rewrite bool_decide_eq_true. by apply HD. }
    simpl. rewrite !andb_true_r. destruct (direction_denied a); simpl; rewrite ?andb_true_r, ?andb_false_r; done. }
  assert (Hdir : forall a rs ars (D : gset string), (forall a, In a (List.filter (fun a => attested_key_id a =s legs) (rs ++ ars)) ->
              attestation_id a ∈ D <-> direction_denied a = true) -> In a rs \/ In a ars ->
            attested_key_id a = legs -> attestation_id a ∈ D <-> direction_denied a = true).
  { intros a rs ars D HD Ha El. apply HD. rewrite filter_In, in_app_iff. split; [done|by apply String.eqb_eq]. }
  assert (Hg : forall dead a, test dead a = true -> charter_g a = true).
  { intros dead a Ht. apply andb_true_iff in Ht as [Ht _]. by eapply charter_shaped_g. }
  assert (Hd : forall d d' a, (attestation_id a ∈ d <-> attestation_id a ∈ d') -> test d a = test d' a).
  { intros d d' a E. unfold test, charter_shaped. by rewrite (id_dead_agrees d d' a E). }
  destruct family as [f|].
  - destruct (charter_in_force dir (family_key_id f)) as [e|[r head]]; [done|]. rewrite !ok_bind.
    apply (judge_candidates_same now f). cbn [snd].
    rewrite (filter_ext_in _ (fun a => test (tombstoned_ids rt arows) a && head_admits head a) arows)
      by (intros a Ha; f_equal; apply Htest; eauto).
    rewrite (filter_ext_in _ (fun a => test (tombstoned_ids rt (whole None (Some legs))) a && head_admits head a)
               (whole None (Some legs))) by (intros a Ha; f_equal; apply Htest; eauto).
    assert (Hab : forall dead a, test dead a && head_admits head a = true -> about_g (Some f) a = true).
    { intros dead a Ht. apply andb_true_iff in Ht as [Ht _]. unfold about_g. simpl.
      rewrite (Hg _ _ Ht). apply orb_true_r. }
    apply (about_filter (Some f)); eauto. intros a Ha Hag. f_equal. by apply Hd, Hdead.
  - assert (E : List.filter (fun a => charter_shaped now legs S (tombstoned_ids rt rows) a
                                      && (attesting_key_id a =s legs)) rows
            = List.filter (fun a => charter_shaped now legs S' (tombstoned_ids rt (whole (Some legs) None)) a
                                    && (attesting_key_id a =s legs)) (whole (Some legs) None)).
    { rewrite (filter_ext_in _ (fun a => test (tombstoned_ids rt rows) a && (attesting_key_id a =s legs)) rows)
        by (intros a Ha; f_equal; apply Htest; eauto).
      rewrite (filter_ext_in (fun a => charter_shaped now legs S' _ a && _)
                 (fun a => test (tombstoned_ids rt (whole (Some legs) None)) a && (attesting_key_id a =s legs)))
        by (intros a Ha; f_equal; apply Htest; eauto).
      apply (HP (fun d a => test d a && (attesting_key_id a =s legs))).
      - intros d a Ht. apply andb_true_iff in Ht as [Ht _]. eauto.
      - intros d d' a E. by rewrite (Hd d d' a E). }
    rewrite E. simpl. done.
Qed.

(** ** The verdict *)

Lemma drill_is_g now dead a : is_drill now dead a = true -> drill_g a = true.
Proof.
  unfold is_drill, drill_g. rewrite !andb_true_iff, bool_decide_eq_true. intros [[[[_ ->] _] _] _].
  cbn [is_some_and]. by apply starts_with_iff; exists "".
Qed.

Lemma judge_same now user root_ref family legs kind by_user by_root about_root :
  edge_slice dir user = inr by_user -> charter_slice dir legs = inr by_root ->
  about_slice dir family legs = inr about_root ->
  judge rt dir now root_ref (family, legs, kind) by_user by_root about_root =
  judge rt dir now root_ref (family, legs, kind) (whole (Some user) None) (whole (Some legs) None)
    (whole None (Some legs)).
Proof.
  intros Eu Er Ea. pose proof (live_edges_bounded user now (fun k => k =s root_ref)) as He.
  rewrite Eu, ok_bind in He. unfold judge. rewrite He.
  destruct (live_edges rt dir now _ (whole (Some user) None)) as [e|edges]; [done|]. rewrite !ok_bind.
  pose proof (charters_same now family legs by_root about_root Er Ea) as Hc.
  assert (Hdrill : latest (map asserted_at (List.filter (is_drill now (tombstoned_ids rt about_root)) about_root))
    = latest (map asserted_at (List.filter (is_drill now (tombstoned_ids rt (whole None (Some legs))))
                                 (whole None (Some legs))))).
  { apply latest_same. destruct (about_slice_rows family legs) as (arows & Ea' & Hain & Haout & Hdead).
    rewrite Ea' in Ea. injection Ea as ->.
    assert (Hg : forall dead a, is_drill now dead a = true -> about_g family a = true).
    { intros dead a Hd. unfold about_g. by rewrite (drill_is_g _ _ _ Hd). }
    apply (about_filter family); eauto. intros a Ha Hag. unfold is_drill.
    by rewrite (id_dead_agrees _ _ a (Hdead a Ha Hag)). }
  destruct (charters rt dir now family legs by_root about_root) as [e|[[l q] hs]],
    (charters rt dir now family legs (whole (Some legs) None) (whole None (Some legs))) as [e'|[[l' q'] hs']];
    cbn [same_charters] in Hc; try done; [by subst|].
  destruct Hc as (Hl & -> & ->). rewrite !ok_bind. cbv beta iota. rewrite Hdrill.
  assert (Hr : forall a,
    In a (List.filter (fun a => charter_commitment_well_formed (attestation_envelope a)) l) <->
    In a (List.filter (fun a => charter_commitment_well_formed (attestation_envelope a)) l')).
  { intros a. by rewrite !filter_In, Hl. }
  rewrite (is_nil_same l l' Hl), (is_nil_same _ _ Hr), (latest_bound_same _ _ Hr). done.
Qed.

Lemma trust_root_valid_same now user root_ref :
  trust_root_valid rt dir now user root_ref = trust_root_valid_reference rt dir now user root_ref.
Proof.
  unfold trust_root_valid, trust_root_valid_reference. destruct (user =s root_ref); [done|].
  apply bind_ext. intros [[family legs] kind].
  destruct (edge_slice_rows user) as (by_user & Eu & _). destruct (charter_slice_rows legs) as (by_root & Er & _).
  destruct (about_slice_rows family legs) as (about_root & Ea & _). rewrite Eu, Er, Ea, !ok_bind.
  unfold all_attestations_by, all_attestations_for. rewrite !holds_pages, !ok_bind by done.
  by apply judge_same.
Qed.

(** ** The other walks *)

Section Verdicts.
Context (v v' : string -> Error + TrustRootVerdict) (Hv : forall r, v r = v' r).

Lemma delegation_plane_ext gs : delegation_plane v gs = delegation_plane v' gs.
Proof.
  induction gs as [|g gs IH]; [done|]. cbn [delegation_plane]. rewrite Hv. apply bind_ext. intros x.
  by destruct (valid x).
Qed.

Lemma grant_families_ext now g fams : forall seen,
  grant_families dir v now g fams seen = grant_families dir v' now g fams seen.
Proof.
  induction fams as [|f fams IH]; intros seen; [done|]. cbn [grant_families].
  destruct (contains seen _); [done|]. apply bind_ext. intros q. destruct (negb (met q)); [done|].
  rewrite Hv. apply bind_ext. intros x. by destruct (valid x).
Qed.

Lemma family_plane_ext now gs : forall seen, family_plane dir v now gs seen = family_plane dir v' now gs seen.
Proof.
  induction gs as [|g gs IH]; intros seen; [done|]. cbn [family_plane]. apply bind_ext. intros fams.
  rewrite grant_families_ext. apply bind_ext. intros [[t|] seen']; done.
Qed.

Lemma walk_grants_ext now subject scope roster rows :
  walk_grants rt dir v now subject scope roster rows = walk_grants rt dir v' now subject scope roster rows.
Proof.
  unfold walk_grants. apply bind_ext. intros live. rewrite delegation_plane_ext. apply bind_ext.
  intros [g|]; [done|]. rewrite family_plane_ext. apply bind_ext. intros [g|]; [done|].
  apply bind_ext. intros [|]; [|done]. by rewrite Hv.
Qed.
End Verdicts.

Lemma transit_loop_ext v v' now user peer_id peer cands : (forall u r, v u r = v' u r) -> forall n,
  transit_loop v now user peer_id peer cands n = transit_loop v' now user peer_id peer cands n.
Proof.
  intros Hv. induction cands as [|c cands IH]; intros n; [done|]. cbn [transit_loop].
  rewrite !Hv. apply bind_ext. intros ours. destruct (negb (valid ours)); [done|].
  apply bind_ext. intros theirs. by destruct (negb (valid theirs)).
Qed.

Lemma conferral_slice_rows ts subject :
  ts <> [] ->
  exists rows, conferral_slice dir ts subject = inr rows /\
    (forall a, In a rows -> In a (whole None (Some subject))) /\
    forall P : gset string -> Attestation -> bool,
      (forall d a, P d a = true -> contains ts (Json.attestation_type a)
                     && job_dimension_admits (attestation_envelope a) TRUST_CONFERS_DIMENSION = true) ->
      (forall d d' a, (attestation_id a ∈ d <-> attestation_id a ∈ d') -> P d a = P d' a) ->
      List.filter (P (tombstoned_ids rt rows)) rows
      = List.filter (P (tombstoned_ids rt (whole None (Some subject)))) (whole None (Some subject)).
Proof.
  intros Hts. apply (narrowed_slice None (Some subject)
    (excluding_dimensions (types (to_key subject FOLD_PAGE) ts) (jobs_other_than TRUST_CONFERS_DIMENSION))); try done.
  intros a. by apply narrowed_admits.
Qed.

Lemma conferrals_same now subject scope :
  exists rows, conferral_slice dir edge_types subject = inr rows /\
    List.filter (conferral_shaped now (tombstoned_ids rt rows) subject scope) rows
    = List.filter (conferral_shaped now (tombstoned_ids rt (whole None (Some subject))) subject scope)
        (whole None (Some subject)).
Proof.
  destruct (conferral_slice_rows edge_types subject) as (rows & -> & _ & HP); [done|]. exists rows. split; [done|].
  apply (HP (fun d => conferral_shaped now d subject scope)).
  - intros d a Hs. unfold conferral_shaped in Hs. rewrite !andb_true_iff, orb_true_iff in Hs.
    destruct Hs as [[[[[[[Ht _] _] _] _] _] Hj] _]. apply andb_true_iff. split; [|done].
    apply contains_In. rewrite !String.eqb_eq in Ht. unfold edge_types. simpl. intuition.
  - intros d d' a Hd. unfold conferral_shaped. by rewrite (id_dead_agrees d d' a Hd).
Qed.

Lemma trusted_roots_of_same now node : trusted_roots_of rt dir now node = trusted_roots_of_reference rt dir now node.
Proof.
  unfold trusted_roots_of, trusted_roots_of_reference, all_attestations_by.
  pose proof (live_edges_bounded node now (fun k => k <>s node)) as E.
  unfold edge_slice in E. rewrite !holds_pages in E |- * by done. rewrite ok_bind in E.
  cbv [or_unsupported]. rewrite (holds_pages (by_key node FOLD_PAGE)) by done.
  cbv iota beta. rewrite (ok_bind _ (answer store (by_key node FOLD_PAGE))).
  change (answer store (by_key node FOLD_PAGE)) with (answer store (pinned (Some node) None FOLD_PAGE)).
  by rewrite <- E, <- bind_assoc_ok.
Qed.

Lemma owner_granted_scope_same now subject granter scope :
  owner_granted_scope rt dir now subject granter scope = owner_granted_scope_reference rt dir now subject granter scope.
Proof.
  unfold owner_granted_scope, owner_granted_scope_reference, all_attestations_for.
  destruct (conferral_slice_rows [attestation_type.DELEGATES_TO] subject) as (rows & -> & _ & HP); [done|].
  rewrite holds_pages, !ok_bind by done. f_equal. rewrite !existsb_filter_nil.
  f_equal. f_equal. apply (HP (fun d => owner_grant now d subject granter scope)).
  + intros d a Hs. unfold owner_grant in Hs. rewrite !andb_true_iff in Hs.
    destruct Hs as [[[[[[[[[Ht _] _] _] _] _] _] _] Hj] _]. apply andb_true_iff. split; [|done].
    apply contains_In. apply String.eqb_eq in Ht. by left.
  + intros d d' a Hd. unfold owner_grant. by rewrite (id_dead_agrees d d' a Hd).
Qed.
End Bounded.

(** ** Directories that hold a store *)

(** The attestation reads over rows held in memory, through the pages of a read; every
    other read is [base]'s. *)
Definition directory_over (pages_read : AttestationQuery -> Error + list Attestation)
    (store : list Attestation) (held : list string) (base : Directory) : Directory :=
  let composer a := (tier a =s attestation_tier.FEDERATION) && is_composer a in
  let names ids a := is_some_and (target_of a) (contains ids) in
  mk_Directory pages_read
    (fun ids about by_ => inr (List.filter (fun a => composer a && names ids a
       && is_none_or about (fun k => attested_key_id a =s k)
       && is_none_or by_ (fun k => attesting_key_id a =s k)) store))
    (fun id => inr (List.filter (fun a => composer a && names [id] a) store))
    (fun id => inr (by_id store id))
    (fun ids => inr (List.filter (contains held) ids))
    (lookup_family base) (active_family_members base) (list_families_for_member base)
    (holds_community base) (get_active_halt base) (lookup_public_key base) (lookup_role_withdrawal base)
    (rooted_community_family base) (owner_of base) (verify_envelope_hybrid_signature base)
    (verify_accord_family_coscrub base).

Lemma directory_over_holds pages_read store held base :
  NoDup (map attestation_id store) ->
  (forall q, validate q = None -> pages_read q = inr (answer store q)) ->
  Holds store held (directory_over pages_read store held base).
Proof.
  assert (Hn : forall ids a, is_some_and (target_of a) (contains ids) = true <->
                 exists id, In id ids /\ target_of a = Some id).
  { intros ids a. destruct (target_of a) as [t|]; cbn [is_some_and].
    - rewrite contains_In. naive_solver.
    - naive_solver. }
  intros Hnd Hp. split; try done.
  - intros ids about by_. eexists. split; [reflexivity|]. intros a.
    rewrite filter_In, !andb_true_iff, String.eqb_eq, Hn. tauto.
  - intros id. eexists. split; [reflexivity|]. intros a.
    rewrite filter_In, !andb_true_iff, String.eqb_eq, Hn. naive_solver.
  - intros ids. eexists. split; [reflexivity|]. intros id. by rewrite filter_In, contains_In.
Qed.

(** The loop over the pages, with turns enough for [n] rows. *)
Definition walk_pages (run : Exec) (n : nat) (q : AttestationQuery) : Error + list Attestation :=
  default (inl (OtherError "turns")) (all (repeat run (S (S n))) (pages q) []).

(** An executor that serves a store discharges the contract of the walks. *)
Lemma paged_directory_holds store run held base :
  Serves store run -> Holds store held (directory_over (walk_pages run (length store)) store held base).
Proof.
  intros Hs. apply directory_over_holds; [apply Hs|]. intros q Hv.
  pose proof (read_all_answer store run q Hs Hv) as E. unfold read_all in E. unfold walk_pages.
  destruct (all _ _ _) as [[e|l]|]; try done. simpl. congruence.
Qed.

(** ** Sample rows and directories *)

Module TrustSamples.
Definition deleg (id by_ to_ dim : string) (at_ : Z) (members : list (string * Value)) : Attestation :=
  mk_Attestation id by_ to_ "delegates_to" None at_ None
    (Object (("dimension", Str dim) :: members)) "" "" None by_ at_ None "" [] None "federation" "federation" None [].
Definition composer (id by_ to_ ty target : string) (at_ : Z) : Attestation :=
  mk_Attestation id by_ to_ ty None at_ None
    (Object [("references_attestation_id", Str target)]) "" "" None by_ at_ None "" [] None "federation" "federation" None [].

Definition commitment : string := "0123456789abcdef0123456789abcdef0123456789abcdef0123456789abcdef".
Definition edge := deleg "e" "u" "r" TRUST_ACCEPTS_DIMENSION 10%Z [].
Definition charter := deleg "c" "r" "r" TRUST_CHARTER_DIMENSION 20%Z
  [("scope", Array [Str "infra:serve"; Str "infra:attest"]); ("pre_rotation_commitment", Str commitment)].
Definition grant := deleg "g" "r" "s" TRUST_CONFERS_DIMENSION 30%Z [("scope", Array [Str "infra:serve"])].
Definition stranger := composer "m" "mallory" "s" "withdraws" "g" 40%Z.
Definition foreign := composer "f" "mallory" "s" "supersedes" "g" 50%Z.
Definition store : list Attestation := [edge; charter; grant; stranger; foreign].

Definition key (id : string) : KeyRecord :=
  mk_KeyRecord id "" None "hybrid" "node" "" 0%Z None Null "" "" None id 0%Z None "" ["infra:transport"] None None [].

#[export] Instance build : TrustBuild := {|
  is_pinned_bundle_row := fun _ => false;
  evaluate_holder_hardware := fun r => mk_HolderHardware (kr_key_id r) (Some "ExternalSecureElement") true (Some true) None;
  check_row_column_binding := fun _ => true;
  parse_datetime := fun _ => None;
  accord_family_key_id := "humanity-accord";
|}.

(** No families, no communities, every key held. *)
Definition base : Directory :=
  mk_Directory (fun _ => inr []) (fun _ _ _ => inr []) (fun _ => inr []) (fun _ => inr None) (fun _ => inr [])
    (fun _ => inr None) (fun _ _ => inr []) (fun _ => inr []) (fun _ => inr false) (fun _ => inr false)
    (fun k => inr (Some (key k))) (fun _ _ => inr None) (fun _ => inr None) (fun _ => inr None)
    (fun _ _ _ _ => true) (fun _ _ => false).

Definition over (store : list Attestation) : Directory := directory_over (fun q => inr (answer store q)) store [] base.

Definition ids_of (store : list Attestation) : list string := map attestation_id store.
End TrustSamples.

(** ** Properties *)

(** C3. Reading less changes no answer: over a directory that answers its attestation reads
    from one store (its other reads may answer or fail as they like), the walks that read
    only the rows a leg can pick, with the composers naming them, give what the walks over
    every row of the key give: the trust-root verdict, the trusted grant, the transit
    verdict and the number of roots it walked, the subscription set, and the owner's grant. *)
Theorem bounded_walks_agree (rt : RowTypes) `{StrictMajority} `{TrustBuild}
    (store : list Attestation) (held : list string) (dir : Directory) (Hh : Holds store held dir) (now : instant) :
  (forall user root, trust_root_valid rt dir now user root = trust_root_valid_reference rt dir now user root) /\
  (forall user subject scope roster,
     capability_roots_to_trusted_root_over_roster rt dir now user subject scope roster
     = capability_roots_reference rt dir now user subject scope roster) /\
  (forall user peer, transit_eligibility_walk rt dir now user peer = transit_eligibility_walk_reference rt dir now user peer) /\
  (forall node, trusted_roots_of rt dir now node = trusted_roots_of_reference rt dir now node) /\
  (forall subject granter scope,
     owner_granted_scope rt dir now subject granter scope = owner_granted_scope_reference rt dir now subject granter scope).
Proof.
  pose proof (trust_root_valid_same rt store held dir now) as Hv. split_and!; [done|..].
  - intros user subject scope roster. unfold capability_roots_to_trusted_root_over_roster, capability_roots_reference.
    destruct (conferrals_same rt store held dir now subject scope) as (rows & -> & E).
    unfold all_attestations_for. rewrite holds_pages, !ok_bind by done.
    rewrite (walk_grants_ext rt dir _ (trust_root_valid_reference rt dir now user)) by done.
    unfold walk_grants. by rewrite E.
  - intros user peer. unfold transit_eligibility_walk, transit_eligibility_walk_reference.
    destruct (user =s peer); [done|]. apply bind_ext. intros [p|]; [|done].
    repeat case_if; try done. destruct (edge_slice_rows rt store held dir user) as (rows & -> & _ & E).
    unfold all_attestations_by. rewrite holds_pages, !ok_bind by done.
    unfold transit_candidate_roots. rewrite E. by apply transit_loop_ext.
  - intros node. by apply (trusted_roots_of_same rt store held dir).
  - intros subject granter scope. by apply (owner_granted_scope_same rt store held dir).
Qed.

Import TrustSamples.

Lemma bounded_walks_agree_witness :
  let dir := directory_over (walk_pages (memory_exec store) 5) store [] base in
  trust_root_valid PrecedenceSamples.rt0 dir 100%Z "u" "r" = trust_root_valid_reference PrecedenceSamples.rt0 dir 100%Z "u" "r".
Proof.
  intros dir.
  assert (HS : Serves store (memory_exec store)).
  { apply memory_exec_serves. apply (bool_decide_unpack (NoDup (ids_of store))).
    vm_compute. exact I. }
  exact (proj1 (bounded_walks_agree PrecedenceSamples.rt0 store [] dir
           (paged_directory_holds _ _ [] base HS) 100%Z) "u" "r").
Defined.
