(* ===== verification/TrustGrants.v ===== *)
(** * What the trust walks answer for

    Over a directory that answers its attestation reads from one store, the walks of
    [TrustRoot] are read as statements about the rows of that store: which edges stand,
    which grants confer, what a verdict and a trusted grant rest on, how long a verdict
    holds, and what a transit or a serve tier was given for. *)

From Stdlib Require Import ZArith NArith Lia Ascii String.
From stdpp Require Import base list strings gmap sorting.
From S2P Require Import Prelude RustStd Json Precedence ReverseQuorum Consensus Matcher Query TrustRoot TrustBounded.

Open Scope string_scope.
Open Scope list_scope.
Open Scope persist_scope.

(** ** Rotation, read from the store *)

Definition federated (a : Attestation) : bool := tier a =s attestation_tier.FEDERATION.

(** A lineage of [n] links: [n - 1] successors of one signer down to that signer's grant. *)
Inductive Lineage (store : list Attestation) (signer : string) : nat -> string -> Prop :=
| lineage_grant t g : by_id store t = Some g -> attesting_key_id g = signer ->
    Json.attestation_type g = attestation_type.DELEGATES_TO -> Lineage store signer 1 t
| lineage_link t s t' n : by_id store t = Some s -> attesting_key_id s = signer ->
    Json.attestation_type s = attestation_type.SUPERSEDES -> target_of s = Some t' ->
    Lineage store signer n t' -> Lineage store signer (S n) t.

Fixpoint lineage (store : list Attestation) (signer : string) (turns : nat) (cur : option string) : bool :=
  match turns, cur with
  | S turns', Some t =>
      match by_id store t with
      | None => false
      | Some s =>
          (attesting_key_id s =s signer)
          && ((Json.attestation_type s =s attestation_type.DELEGATES_TO)
              || ((Json.attestation_type s =s attestation_type.SUPERSEDES)
                  && lineage store signer turns' (target_of s)))
      end
  | _, _ => false
  end.

Lemma lineage_iff store signer turns t :
  lineage store signer turns (Some t) = true <-> exists n, n <= turns /\ Lineage store signer n t.
Proof.
  revert t. induction turns as [|turns IH]; intros t; cbn [lineage].
  { split; [done|]. intros (n & Hn & Hl). inv Hl; lia. }
  destruct (by_id store t) as [s|] eqn:Es.
  - rewrite andb_true_iff, orb_true_iff, andb_true_iff, !String.eqb_eq. split.
    + intros [Hs [Hd|[Hsup Hl]]].
      * exists 1. split; [lia|]. by eapply lineage_grant.
      * destruct (target_of s) as [t'|] eqn:Et; [|by destruct turns].
        apply IH in Hl as (n & Hn & Hl). exists (S n). split; [lia|]. by eapply lineage_link.
    + intros (n & Hn & Hl). inversion Hl as [? g Hg Hs Hd|? s' t' m Hg Hs Hsup Ht' Hl']; subst; simplify_eq.
      * by split; [|left].
      * split; [done|]. right. split; [done|]. rewrite Ht'. apply IH. exists m. split; [lia|done].
  - split; [done|]. intros (n & Hn & Hl). inversion Hl; congruence.
Qed.

(** Some row of the signer supersedes the candidate. *)
Definition superseded (store : list Attestation) (a : Attestation) : bool :=
  existsb (fun r => federated r && supersedes_own a r && bool_decide (target_of r = Some (attestation_id a))) store.

(** [confers_now], read from the store. *)
Definition confers (store : list Attestation) (a : Attestation) : bool :=
  ((Json.attestation_type a <>s attestation_type.SUPERSEDES)
   || lineage store (attesting_key_id a) MAX_GRANT_ROTATIONS (target_of a))
  && negb (superseded store a).

Section Read.
Context (rt : RowTypes) (store : list Attestation) (held : list string) (dir : Directory) `{!Holds store held dir}.

Lemma rotation_loop_read signer turns cur :
  rotation_loop dir signer turns cur = inr (lineage store signer turns cur).
Proof.
  revert cur. induction turns as [|turns IH]; intros cur; [by destruct cur|]. cbn [rotation_loop lineage].
  destruct cur as [t|]; [|done]. rewrite holds_get, ok_bind. destruct (by_id store t) as [s|]; [|done].
  destruct (attesting_key_id s =s signer); [|done]. cbn [negb andb].
  destruct (Json.attestation_type s =s attestation_type.DELEGATES_TO); [done|].
  destruct (Json.attestation_type s =s attestation_type.SUPERSEDES); [|done]. cbn [negb orb andb]. by rewrite IH.
Qed.

Lemma confers_now_read a : confers_now dir a = inr (confers store a).
Proof.
  unfold confers_now, confers, rotates_own_grant. destruct (holds_referencing (attestation_id a)) as (l & El & Hl).
  assert (Hs : existsb (supersedes_own a) l = superseded store a).
  { apply eq_true_iff_eq. unfold superseded. rewrite !existsb_exists. split.
    - intros (r & Hr & Hs). apply Hl in Hr as (Hin & Ht & _ & Href). exists r. split; [done|].
      rewrite !andb_true_iff, bool_decide_eq_true. unfold federated. by rewrite String.eqb_eq.
    - intros (r & Hr & Hs). rewrite !andb_true_iff, bool_decide_eq_true in Hs. destruct Hs as [[Hf Hs] Href].
      exists r. split; [|done]. apply Hl. apply String.eqb_eq in Hf. split_and!; try done.
      unfold supersedes_own in Hs. rewrite !andb_true_iff in Hs. destruct Hs as [[Hty _] _].
      unfold is_composer, is_structural_composer. by rewrite Hty. }
  destruct (Json.attestation_type a =s attestation_type.SUPERSEDES); cbn [negb orb].
  - rewrite rotation_loop_read, ok_bind. destruct (lineage _ _ _ _); [|done]. cbn [negb andb].
    by rewrite El, ok_bind, Hs.
  - rewrite ok_bind. cbn [negb andb]. by rewrite El, ok_bind, Hs.
Qed.

Lemma live_conferrals_read l : live_conferrals dir l = inr (List.filter (confers store) l).
Proof.
  induction l as [|a l IH]; [done|]. cbn [live_conferrals List.filter].
  rewrite confers_now_read, ok_bind, IH, ok_bind. done.
Qed.
End Read.

(** ** What stands in a store *)

(** A retraction of the row by its own signer, which is always entitled. *)
Definition own_retraction (a r : Attestation) : Prop :=
  federated r = true /\ attesting_key_id r = attesting_key_id a /\ is_retraction r = true /\
  target_of r = Some (attestation_id a).

(** An entitled retraction of the row, about the key the row is about. *)
Definition about_retraction (rt : RowTypes) (a r : Attestation) : Prop :=
  federated r = true /\ attested_key_id r = attested_key_id a /\ is_retraction r = true /\
  target_of r = Some (attestation_id a) /\ retraction_entitled rt r a = true.

(** A user's edge to a root that stands at [now]. *)
Record StandingEdge `{TrustBuild} (store : list Attestation) (held : list string) (now : instant)
    (user root : string) (a : Attestation) : Prop := {
  se_held : In a store;
  se_federated : federated a = true;
  se_type : Json.attestation_type a = attestation_type.DELEGATES_TO \/
            Json.attestation_type a = attestation_type.SUPERSEDES;
  se_by : attesting_key_id a = user;
  se_to : attested_key_id a = root;
  se_alive : is_expired a now = false;
  se_kept : forall r, In r store -> ~ own_retraction a r;
  se_job : job_dimension_admits (attestation_envelope a) TRUST_ACCEPTS_DIMENSION = true;
  se_confers : confers store a = true;
  se_direction : direction_denied held a = false;
}.

(** A grant of [scope] to [subject] that stands at [now]. *)
Record StandingGrant (rt : RowTypes) (store : list Attestation) (now : instant) (subject scope : string)
    (a : Attestation) : Prop := {
  sg_held : In a store;
  sg_federated : federated a = true;
  sg_type : Json.attestation_type a = attestation_type.DELEGATES_TO \/
            Json.attestation_type a = attestation_type.SUPERSEDES;
  sg_to : attested_key_id a = subject;
  sg_foreign : attesting_key_id a <> subject;
  sg_alive : is_expired a now = false;
  sg_kept : forall r, In r store -> ~ about_retraction rt a r;
  sg_job : job_dimension_admits (attestation_envelope a) TRUST_CONFERS_DIMENSION = true;
  sg_scope : scope_contains (attestation_envelope a) scope = true;
  sg_confers : confers store a = true;
}.

(** A charter of the root whose legs are read under [legs], in force at [now]: the root's own
    row, or a row about the family that its head names and enough seated holders signed. *)
Record StandingCharter (rt : RowTypes) `{StrictMajority} `{TrustBuild} (dir : Directory)
    (store : list Attestation) (held : list string) (now : instant)
    (family : option Family) (legs : string) (a : Attestation) : Prop := {
  sc_held : In a store;
  sc_federated : federated a = true;
  sc_type : Json.attestation_type a = attestation_type.DELEGATES_TO;
  sc_to : attested_key_id a = legs;
  sc_alive : is_expired a now = false;
  sc_job : job_dimension_admits (attestation_envelope a) TRUST_CHARTER_DIMENSION = true;
  sc_direction : direction_denied held a = false;
  sc_serve : scope_contains (attestation_envelope a) INFRA_SERVE_SCOPE = true;
  sc_attest : scope_contains (attestation_envelope a) INFRA_ATTEST_SCOPE = true;
  sc_authority :
    match family with
    | None => attesting_key_id a = legs /\ forall r, In r store -> ~ own_retraction a r
    | Some f =>
        (forall r, In r store -> ~ about_retraction rt a r) /\
        (exists k head, charter_in_force dir (family_key_id f) = inr (k, head) /\ head_admits head a = true) /\
        exists ms, seated dir now f = inr ms /\ met (fst (quorum_of dir f ms a)) = true
    end;
}.

(** Whose hardware a charter's standing rests on: its signer, or the seated holders that
    signed it. *)
Definition CharterHolder `{StrictMajority} `{TrustBuild} (dir : Directory) (now : instant)
    (family : option Family) (a : Attestation) (h : string) : Prop :=
  match family with
  | None => h = attesting_key_id a
  | Some f => exists ms, seated dir now f = inr ms /\ h ∈ snd (quorum_of dir f ms a)
  end.

Section Standing.
Context (rt : RowTypes) (store : list Attestation) (held : list string) (dir : Directory) `{!Holds store held dir}.
Context `{StrictMajority} `{TrustBuild}.
Notation whole by_ to_ := (answer store (pinned by_ to_ FOLD_PAGE)).

Lemma whole_by_In user a : In a (whole (Some user) None) <-> In a store /\ federated a = true /\ attesting_key_id a = user.
Proof.
  rewrite whole_In. unfold federated. cbn [is_none_or]. rewrite !String.eqb_eq. tauto.
Qed.

Lemma whole_to_In k a : In a (whole None (Some k)) <-> In a store /\ federated a = true /\ attested_key_id a = k.
Proof. rewrite whole_In. unfold federated. cbn [is_none_or]. rewrite !String.eqb_eq. tauto. Qed.

Lemma retired_by user a :
  In a (whole (Some user) None) ->
  attestation_id a ∈ retired_ids rt (whole (Some user) None) <-> exists r, In r store /\ own_retraction a r.
Proof.
  intros Ha. pose proof holds_ids as Hnd.
  rewrite (retired_sub store) by (try done; intros b Hb; apply whole_by_In in Hb; tauto).
  apply whole_by_In in Ha as (Hs & Hf & Hby). unfold own_retraction. split.
  - intros (r & t & Hr & Ht & Eq & Hret & Href & _). apply whole_by_In in Hr as (Hr & Hfr & Hrby).
    exists r. split_and!; congruence.
  - intros (r & Hr & Hfr & Hrby & Hret & Href). exists r, a.
    split_and!; try done; [apply whole_by_In; split_and!; congruence|by apply whole_by_In|].
    unfold retraction_entitled. by rewrite Hrby, String.eqb_refl.
Qed.

Lemma retired_to k a :
  In a (whole None (Some k)) ->
  attestation_id a ∈ retired_ids rt (whole None (Some k)) <-> exists r, In r store /\ about_retraction rt a r.
Proof.
  intros Ha. pose proof holds_ids as Hnd.
  rewrite (retired_sub store) by (try done; intros b Hb; apply whole_to_In in Hb; tauto).
  apply whole_to_In in Ha as (Hs & Hf & Hto). unfold about_retraction. split.
  - intros (r & t & Hr & Ht & Eq & Hret & Href & He). apply whole_to_In in Hr as (Hr & Hfr & Hrto).
    apply whole_to_In in Ht as (Ht & _). assert (t = a) as -> by (by apply (ids_inj store)).
    exists r. split_and!; congruence.
  - intros (r & Hr & Hfr & Hrto & Hret & Href & He). exists r, a.
    split_and!; try done; [apply whole_to_In; split_and!; congruence|by apply whole_to_In].
Qed.

Lemma edge_shaped_iff now user to a :
  In a (whole (Some user) None) ->
  edge_shaped now (tombstoned_ids rt (whole (Some user) None)) to a = true <->
  (Json.attestation_type a = attestation_type.DELEGATES_TO \/ Json.attestation_type a = attestation_type.SUPERSEDES) /\
  to (attested_key_id a) = true /\ (forall r, In r store -> ~ own_retraction a r) /\ is_expired a now = false /\
  job_dimension_admits (attestation_envelope a) TRUST_ACCEPTS_DIMENSION = true.
Proof.
  intros Ha. unfold edge_shaped, tombstoned_ids, counts_in_capability_walk.
  rewrite !andb_true_iff, orb_true_iff, !negb_true_iff, bool_decide_eq_false, !String.eqb_eq, (retired_by user a Ha).
  apply whole_by_In in Ha as (_ & Hf & _). apply String.eqb_eq in Hf. naive_solver.
Qed.

(** The live edges of a user's slice are the standing ones. *)
Lemma live_edges_read now user to : exists l,
  live_edges rt dir now to (whole (Some user) None) = inr l /\
  forall a, In a l <-> to (attested_key_id a) = true /\ StandingEdge store held now user (attested_key_id a) a.
Proof.
  unfold live_edges. rewrite (live_conferrals_read store held dir), ok_bind.
  set (edges := List.filter _ _).
  assert (He : forall a, In a edges <-> In a (whole (Some user) None) /\
            edge_shaped now (tombstoned_ids rt (whole (Some user) None)) to a = true /\ confers store a = true).
  { intros a. unfold edges. rewrite !filter_In. tauto. }
  destruct (denied_spec store held dir edges) as (D & -> & HD).
  { intros a Ha. apply He in Ha as [Ha _]. apply whole_by_In in Ha. tauto. }
  rewrite ok_bind. eexists. split; [done|]. intros a. rewrite filter_In, negb_true_iff, bool_decide_eq_false. split.
  - intros [Ha Hn]. rewrite HD in Hn by done. apply not_true_is_false in Hn. apply He in Ha as (Ha & Hs & Hc).
    pose proof Ha as Hw. apply edge_shaped_iff in Hs as (Hty & Hto & Hk & Hx & Hj); [|done].
    apply whole_by_In in Hw as (Hin & Hf & Hby). by split; [|split].
  - intros [Hto [Hin Hf Hty Hby _ Hx Hk Hj Hc Hd]].
    assert (Ha : In a edges).
    { apply He. assert (Hw : In a (whole (Some user) None)) by (by apply whole_by_In).
      split; [done|]. split; [|done]. by apply edge_shaped_iff. }
    split; [done|]. rewrite HD by done. congruence.
Qed.

Lemma conferral_shaped_iff now subject scope a :
  In a (whole None (Some subject)) ->
  conferral_shaped now (tombstoned_ids rt (whole None (Some subject))) subject scope a = true /\ confers store a = true <->
  StandingGrant rt store now subject scope a.
Proof.
  intros Ha. unfold conferral_shaped, tombstoned_ids, counts_in_capability_walk.
  rewrite !andb_true_iff, orb_true_iff, !negb_true_iff, bool_decide_eq_false, !String.eqb_eq, String.eqb_neq,
    (retired_to subject a Ha).
  apply whole_to_In in Ha as (Hin & Hf & Hto). pose proof Hf as Hf'. apply String.eqb_eq in Hf'. split.
  - intros [[[[[[[[Hty _] Hne] Hk] Hx] _] Hj] Hs] Hc]. split; try done. intros r Hr Ho. apply Hk. eauto.
  - intros [_ _ Hty _ Hne Hx Hk Hj Hs Hc]. split_and!; try done. intros (r & Hr & Ho). by apply (Hk r).
Qed.

Lemma charter_shaped_iff now legs D dead a :
  charter_shaped now legs D dead a = true <->
  Json.attestation_type a = attestation_type.DELEGATES_TO /\ attested_key_id a = legs /\
  attestation_id a ∉ dead /\ is_expired a now = false /\ federated a = true /\
  job_dimension_admits (attestation_envelope a) TRUST_CHARTER_DIMENSION = true /\ attestation_id a ∉ D /\
  scope_contains (attestation_envelope a) INFRA_SERVE_SCOPE = true /\
  scope_contains (attestation_envelope a) INFRA_ATTEST_SCOPE = true.
Proof.
  unfold charter_shaped, counts_in_capability_walk, federated.
  rewrite !andb_true_iff, !negb_true_iff, !bool_decide_eq_false, !String.eqb_eq. tauto.
Qed.

(** The charters the leg keeps are the standing ones. *)
Lemma charters_read now family legs lc q hs :
  charters rt dir now family legs (whole (Some legs) None) (whole None (Some legs)) = inr (lc, q, hs) ->
  (forall a, In a lc <-> StandingCharter rt dir store held now family legs a) /\
  (forall h, h ∈ hs <-> exists a, In a lc /\ CharterHolder dir now family a h).
Proof.
  unfold charters. set (rows := List.filter _ (whole (Some legs) None ++ whole None (Some legs))).
  assert (Hrows : forall a, attested_key_id a = legs -> In a (whole None (Some legs)) -> In a rows).
  { intros a El Ha. apply filter_In. split; [apply in_app_iff; by right|by apply String.eqb_eq]. }
  destruct (denied_spec store held dir rows) as (D & -> & HD).
  { intros a Ha. apply filter_In in Ha as [Ha _]. apply in_app_iff in Ha as [Ha|Ha];
      [apply whole_by_In in Ha|apply whole_to_In in Ha]; tauto. }
  assert (HDa : forall a, In a store -> federated a = true -> attested_key_id a = legs ->
            attestation_id a ∉ D <-> direction_denied held a = false).
  { intros a Hin Hf El. rewrite HD by (apply Hrows; [done|by apply whole_to_In]). by rewrite not_true_iff_false. }
  rewrite ok_bind. destruct family as [f|].
  - destruct (charter_in_force dir (family_key_id f)) as [e|[k head]] eqn:Ef; [done|]. rewrite ok_bind. cbn [snd].
    set (cands := List.filter _ (whole None (Some legs))).
    assert (Hc : forall ms a, In a (List.filter (fun c => met (fst (quorum_of dir f ms c))) cands) /\
              seated dir now f = inr ms -> StandingCharter rt dir store held now (Some f) legs a).
    { intros ms a [Ha Es]. unfold cands in Ha. rewrite !filter_In, andb_true_iff, charter_shaped_iff in Ha.
      destruct Ha as [[Hw [(Hty & Hto & Hdead & Hx & Hf & Hj & Hd & Hs1 & Hs2) Hh]] Hm].
      unfold tombstoned_ids in Hdead. rewrite retired_to in Hdead by done. apply whole_to_In in Hw as (Hin & _).
      split; try done; [by apply HDa|]. split_and!; [naive_solver|by exists k, head|by exists ms]. }
    assert (Hc' : forall a, StandingCharter rt dir store held now (Some f) legs a -> In a cands /\
              exists ms, seated dir now f = inr ms /\ met (fst (quorum_of dir f ms a)) = true).
    { intros a [Hin Hf Hty Hto Hx Hj Hd Hs1 Hs2 (Hk & (k' & head' & Ef' & Hh) & Hms)]. split; [|done].
      rewrite Ef in Ef'. injection Ef' as <- <-.
      assert (Hw : In a (whole None (Some legs))) by (by apply whole_to_In).
      unfold cands. rewrite filter_In, andb_true_iff, charter_shaped_iff. split_and!; try done; [|by apply HDa].
      unfold tombstoned_ids. rewrite retired_to by done. naive_solver. }
    destruct (seated dir now f) as [e|ms] eqn:Es.
    + rewrite (charter_loop_err dir now f e) by done. destruct (is_nil cands) eqn:En; [|done].
      rewrite ok_bind. cbv beta iota. fold (seated dir now f). by rewrite Es.
    + rewrite (charter_loop_ok store held dir now f ms) by done. rewrite ok_bind. cbv beta iota. rewrite app_nil_l.
      intros E. set (m := fun c => met (fst (quorum_of dir f ms c))).
      assert (lc = List.filter m cands /\
              hs = ∅ ∪ ⋃ map (fun c => if m c then snd (quorum_of dir f ms c) else ∅) cands) as [-> ->].
      { destruct (fold_left _ cands None); [by injection E|]. fold (seated dir now f) in E.
        rewrite Es, ok_bind in E. by injection E. }
      split.
      * intros a. split; [intros Ha; by apply (Hc ms)|]. intros Ha. apply Hc' in Ha as (Ha & ms' & Es' & Hm).
        injection Es' as ->. by apply filter_In.
      * intros h. rewrite union_empty_l_L, elem_of_union_list. unfold CharterHolder. rewrite Es. split.
        -- intros (X & HX & Hh). apply list_elem_of_In, in_map_iff in HX as (c & <- & Hin).
           destruct (m c) eqn:Em; [|by apply not_elem_of_empty in Hh]. exists c.
           split; [by apply filter_In|by exists ms].
        -- intros (c & Hin & ms' & Es' & Hh). injection Es' as <-. apply filter_In in Hin as [Hin Em].
           eexists. split; [apply list_elem_of_In, in_map_iff; exists c; split; [|done]; by rewrite Em|done].
  - intros E. injection E as <- _ <-. split; [|intros h; rewrite elem_of_list_to_set, list_elem_of_In, in_map_iff;
      split; intros (x & Hx & Hy); exists x; by split].
    intros a. rewrite filter_In, andb_true_iff, charter_shaped_iff, String.eqb_eq. split.
    + intros [Hw [(Hty & Hto & Hdead & Hx & Hf & Hj & Hd & Hs1 & Hs2) Hby]].
      unfold tombstoned_ids in Hdead. rewrite retired_by in Hdead by done. apply whole_by_In in Hw as (Hin & _).
      split; try done; [by apply HDa|]. split; [done|]. naive_solver.
    + intros [Hin Hf Hty Hto Hx Hj Hd Hs1 Hs2 [Hby Hk]].
      assert (Hw : In a (whole (Some legs) None)) by (by apply whole_by_In).
      split; [done|]. split; [|done]. split_and!; try done; [|by apply HDa].
      unfold tombstoned_ids. rewrite retired_by by done. naive_solver.
Qed.

Lemma not_nil {A} (l : list A) : negb (is_nil l) = true <-> exists a, In a l.
Proof. destruct l as [|x l]; simpl; [split; [done|by intros []]|]. split; [by exists x; left|done]. Qed.

(** When the charter leg answers at all. *)
Definition charter_leg_answers (now : instant) (family : option Family) : Prop :=
  match family with
  | None => True
  | Some f => (exists ms, seated dir now f = inr ms) /\ exists head, charter_in_force dir (family_key_id f) = inr head
  end.

Lemma charters_answer now family legs :
  (exists r, charters rt dir now family legs (whole (Some legs) None) (whole None (Some legs)) = inr r) <->
  charter_leg_answers now family.
Proof.
  unfold charters. set (rows := List.filter _ (whole (Some legs) None ++ whole None (Some legs))).
  destruct (denied_spec store held dir rows) as (D & -> & _).
  { intros a Ha. apply filter_In in Ha as [Ha _]. apply in_app_iff in Ha as [Ha|Ha];
      [apply whole_by_In in Ha|apply whole_to_In in Ha]; tauto. }
  rewrite ok_bind. destruct family as [f|]; cbn [charter_leg_answers]; [|split; [done|by eexists]].
  destruct (charter_in_force dir (family_key_id f)) as [e|[k head]] eqn:Ef.
  { split; [intros (r & Er); done|intros (_ & h & Eh); done]. }
  rewrite ok_bind. cbn [snd]. set (cands := List.filter _ (whole None (Some legs))).
  destruct (seated dir now f) as [e|ms] eqn:Es.
  - split; [|intros ((ms & Hms) & _); done]. intros (r & Er). exfalso.
    rewrite (charter_loop_err dir now f e) in Er by done. destruct (is_nil cands); [|done].
    rewrite ok_bind in Er. cbv beta iota in Er. fold (seated dir now f) in Er. by rewrite Es in Er.
  - split; [intros _; split; [by exists ms|by eexists]|]. intros _.
    rewrite (charter_loop_ok store held dir now f ms) by done. rewrite ok_bind. cbv beta iota.
    destruct (fold_left _ cands None); [by eexists|]. fold (seated dir now f). rewrite Es, ok_bind. by eexists.
Qed.

(** A verdict on a root other than the asker: the rows its legs kept, and its fields. *)
Record Judged (now : instant) (user root : string) (v : TrustRootVerdict)
    (family : option Family) (legs : string) (edges charters : list Attestation) : Prop := {
  jd_arm : root_arm dir root = inr (family, legs, root_kind v);
  jd_edges : forall a, In a edges <-> StandingEdge store held now user root a;
  jd_charters : forall a, In a charters <-> StandingCharter rt dir store held now family legs a;
  jd_answers : charter_leg_answers now family;
  jd_holders : forall c h, In c charters -> CharterHolder dir now family c h -> exists hw, holder_hardware dir h = inr hw;
  jd_halt : exists b, or_unsupported (h ← get_active_halt dir legs; inr (Some h)) None = inr b;
  jd_edge : edge_exists v = negb (is_nil edges);
  jd_declares : root_self_declares v = negb (is_nil charters);
  jd_recovery : charter_has_recovery v
    = negb (is_nil (List.filter (fun c => charter_commitment_well_formed (attestation_envelope c)) charters));
  jd_attested : holders_hardware_attested v = true <-> forall c h,
    In c charters -> CharterHolder dir now family c h -> exists hw, holder_hardware dir h = inr hw /\ attested hw = true;
  jd_valid : valid v = edge_exists v && root_self_declares v && charter_has_recovery v && holders_hardware_attested v;
  jd_until : bounded_until v
    = if valid v then earlier_bound (latest_bound edges) (latest_bound
          (List.filter (fun c => charter_commitment_well_formed (attestation_envelope c)) charters)) else None;
}.

Lemma judged now user root v :
  trust_root_valid rt dir now user root = inr v -> user <> root ->
  exists family legs edges charters, Judged now user root v family legs edges charters.
Proof.
  intros E Hne. rewrite (trust_root_valid_same rt store held dir) in E. unfold trust_root_valid_reference in E.
  rewrite (proj2 (String.eqb_neq user root) Hne) in E. apply bind_ok in E as ([[family legs] kind] & Earm & E).
  unfold all_attestations_by, all_attestations_for in E. rewrite !holds_pages, !ok_bind in E by done.
  unfold judge in E. destruct (live_edges_read now user (fun k => k =s root)) as (l & El & Hl).
  change (answer store (by_key user FOLD_PAGE)) with (whole (Some user) None) in E. rewrite El, ok_bind in E.
  apply bind_ok in E as ([[lc q] hs] & Ec & E).
  destruct (charters_read now family legs lc q hs Ec) as [Hc Hhs].
  apply bind_ok in E as (hw & Ehw & E). apply bind_ok in E as (halt & Ehalt & E). injection E as <-.
  destruct (mapM_result _ _ _ Ehw) as [Hf Hf'].
  assert (Hin : forall h, In h (sort_strings (elements hs)) <-> exists c, In c lc /\ CharterHolder dir now family c h).
  { intros h. unfold sort_strings. by rewrite sort_by_In, <- list_elem_of_In, elem_of_elements. }
  exists family, legs, l, lc. constructor; try done; cbn [edge_exists holders_hardware_attested].
  - intros a. rewrite Hl, String.eqb_eq. split; [by intros [<- ?]|]. intros Ha.
    by rewrite (se_to _ _ _ _ _ _ Ha).
  - apply (charters_answer now family legs). by eexists.
  - intros c h Hcin Hh. destruct (Hf h) as (x & _ & Hx); [apply Hin; by exists c|by exists x].
  - by exists halt.
  - split.
    + intros Hall c h Hcin Hh. destruct (Hf h) as (x & Hx & Eh); [apply Hin; by exists c|]. exists x.
      split; [done|]. by apply (proj1 (forallb_forall _ _) Hall).
    + intros Hall. apply forallb_forall. intros x Hx. destruct (Hf' x Hx) as (h & Hh & Eh).
      apply Hin in Hh as (c & Hcin & Hch). destruct (Hall c h Hcin Hch) as (hw' & Eh' & Ha). congruence.
Qed.

(** The verdict is given whenever the reads it makes are. *)
Lemma judged_answers now user root family legs kind :
  user <> root -> root_arm dir root = inr (family, legs, kind) -> charter_leg_answers now family ->
  (forall c h, StandingCharter rt dir store held now family legs c -> CharterHolder dir now family c h ->
     exists hw, holder_hardware dir h = inr hw) ->
  (exists b, or_unsupported (h ← get_active_halt dir legs; inr (Some h)) None = inr b) ->
  exists v, trust_root_valid rt dir now user root = inr v.
Proof.
  intros Hne Harm Hans Hhw [b Hb]. rewrite (trust_root_valid_same rt store held dir). unfold trust_root_valid_reference.
  rewrite (proj2 (String.eqb_neq user root) Hne), Harm, ok_bind.
  unfold all_attestations_by, all_attestations_for. rewrite !holds_pages, !ok_bind by done. unfold judge.
  destruct (live_edges_read now user (fun k => k =s root)) as (l & El & _).
  change (answer store (by_key user FOLD_PAGE)) with (whole (Some user) None). rewrite El, ok_bind.
  destruct (proj2 (charters_answer now family legs) Hans) as [[[lc q] hs] Ec].
  change (answer store (by_key legs FOLD_PAGE)) with (whole (Some legs) None).
  change (answer store (to_key legs FOLD_PAGE)) with (whole None (Some legs)). rewrite Ec, ok_bind. cbv beta iota.
  destruct (charters_read now family legs lc q hs Ec) as [Hc Hhs].
  destruct (proj2 (mapM_answers (holder_hardware dir) (sort_strings (elements hs)))) as [hw Ehw].
  { intros h Hh. unfold sort_strings in Hh. rewrite sort_by_In, <- list_elem_of_In, elem_of_elements in Hh.
    apply Hhs in Hh as (c & Hcin & Hch). by apply (Hhw c h); [apply Hc|]. }
  rewrite Ehw, ok_bind, Hb, ok_bind. by eexists.
Qed.
End Standing.
