(* ===== verification/TrustVerdict.v ===== *)
(** * What a trust-root verdict answers for

    The verdict of [TrustRoot] stated over the rows of one store: what makes it valid, what
    ends it, for how long it holds, and what two quorums over one family have in common.
    The readings of the legs are those of [TrustGrants]. *)

From Stdlib Require Import ZArith NArith Lia Ascii String.
From stdpp Require Import base list strings gmap fin_sets.
From S2P Require Import Prelude RustStd Json Precedence ReverseQuorum Consensus Matcher Query TrustRoot TrustBounded TrustGrants.

Open Scope string_scope.
Open Scope list_scope.
Open Scope persist_scope.

(** ** Expiry *)

Lemma is_expired_mono a now now' : (now <= now')%Z -> is_expired a now = true -> is_expired a now' = true.
Proof. unfold is_expired. destruct (expires_at a) as [e|]; [|done]. rewrite !Z.leb_le. lia. Qed.

Lemma is_expired_false a now : is_expired a now = false <-> forall e, expires_at a = Some e -> (now < e)%Z.
Proof.
  unfold is_expired. destruct (expires_at a) as [e|]; [rewrite Z.leb_gt; naive_solver|naive_solver].
Qed.

Lemma latest_bound_from_none best l :
  latest_bound_from best l = None <-> (best = None /\ l = []) \/ exists a, In a l /\ expires_at a = None.
Proof.
  revert best. induction l as [|a l IH]; intros best; cbn [latest_bound_from].
  { split; [by left|]. intros [[E _]|(a & [] & _)]. done. }
  destruct (expires_at a) as [e|] eqn:Ea.
  - change ((Some e ≫= fun t => latest_bound_from (Some (match best with Some b => Z.max b t | None => t end)) l) = None
            <-> (best = None /\ a :: l = []) \/ exists a0, In a0 (a :: l) /\ expires_at a0 = None).
    cbn [mbind option_bind]. rewrite IH. split.
    + intros [[Hn _]|(b & Hb & Eb)]; [done|]. right. exists b. by split; [right|].
    + intros [[_ Hn]|(b & [<-|Hb] & Eb)]; [done|congruence|]. right. by exists b.
  - split; [|done]. intros _. right. exists a. by split; [left|].
Qed.

(** A list of rows, none expired now, keeps a row at a later instant exactly while that
    instant is before the list's bound. *)
Lemma outlives l now' : l <> [] ->
  (exists a, In a l /\ is_expired a now' = false) <-> (forall b, latest_bound l = Some b -> (now' < b)%Z).
Proof.
  intros Hl. destruct (latest_bound l) as [b|] eqn:Eb.
  - apply latest_bound_spec in Eb as [(m & Hm & Em) Hall]. split.
    + intros (a & Ha & Hx) b' [= <-]. destruct (Hall a Ha) as (e & Ee & Hle).
      rewrite is_expired_false in Hx. specialize (Hx e Ee). lia.
    + intros Hb. exists m. split; [done|]. apply is_expired_false. intros e Ee. rewrite Em in Ee.
      injection Ee as <-. by apply Hb.
  - split; [done|]. intros _. apply latest_bound_from_none in Eb as [[_ Hn]|(a & Ha & Ea)]; [done|].
    exists a. split; [done|]. apply is_expired_false. by rewrite Ea.
Qed.

Lemma earlier_bound_spec o o' t :
  (forall b, earlier_bound o o' = Some b -> (t < b)%Z) <->
  (forall b, o = Some b -> (t < b)%Z) /\ (forall b, o' = Some b -> (t < b)%Z).
Proof.
  destruct o as [x|], o' as [y|]; cbn [earlier_bound]; [|naive_solver..]. split.
  - intros Hb. specialize (Hb _ eq_refl). split; intros b [= <-]; lia.
  - intros [Hx Hy] b [= <-]. specialize (Hx _ eq_refl). specialize (Hy _ eq_refl). lia.
Qed.

(** ** What stands, later *)

Section Later.
Context (rt : RowTypes) (store : list Attestation) (held : list string) (dir : Directory) `{!Holds store held dir}.
Context `{StrictMajority} `{TrustBuild} (now now' : instant) (Hlater : (now <= now')%Z).

Lemma edge_later user root a :
  StandingEdge store held now' user root a <-> StandingEdge store held now user root a /\ is_expired a now' = false.
Proof.
  split.
  - intros Ha. split; [|apply Ha]. destruct Ha as [Hin Hf Hty Hby Hto Hx Hk Hj Hc Hd]. split; try done.
    apply not_true_is_false. intros Ex. apply (is_expired_mono a now now') in Ex; congruence.
  - intros [[Hin Hf Hty Hby Hto _ Hk Hj Hc Hd] Hx]. by split.
Qed.

(** The families' rosters are the same at both instants. *)
Context (Hroster : forall id, active_family_members dir now' id = active_family_members dir now id).

Lemma seated_later f : seated dir now' f = seated dir now f.
Proof. unfold seated. by rewrite Hroster. Qed.

Lemma holder_later family a h : CharterHolder dir now' family a h <-> CharterHolder dir now family a h.
Proof. destruct family as [f|]; [|done]. cbn [CharterHolder]. by rewrite seated_later. Qed.

Lemma charter_later family legs a :
  StandingCharter rt dir store held now' family legs a <->
  StandingCharter rt dir store held now family legs a /\ is_expired a now' = false.
Proof.
  split.
  - intros Ha. split; [|apply Ha]. destruct Ha as [Hin Hf Hty Hto Hx Hj Hd Hs1 Hs2 Hau]. split; try done.
    + apply not_true_is_false. intros Ex. apply (is_expired_mono a now now') in Ex; congruence.
    + destruct family; [|done]. by rewrite seated_later in Hau.
  - intros [[Hin Hf Hty Hto _ Hj Hd Hs1 Hs2 Hau] Hx]. split; try done.
    destruct family; [|done]. by rewrite seated_later.
Qed.

Lemma answers_later family : charter_leg_answers dir now family -> charter_leg_answers dir now' family.
Proof. destruct family as [f|]; [|done]. cbn [charter_leg_answers]. by rewrite seated_later. Qed.

Lemma verdict_later user root v :
  trust_root_valid rt dir now user root = inr v -> user <> root ->
  exists v', trust_root_valid rt dir now' user root = inr v'.
Proof.
  intros E Hne. destruct (judged rt store held dir now user root v E Hne) as (family & legs & edges & cs & HJ).
  destruct HJ as [Harm _ Hc Hans Hh Hhalt _ _ _ _ _ _].
  apply (judged_answers rt store held dir now' user root family legs (root_kind v)); try done.
  - by apply answers_later.
  - intros c h Hs Hch. apply charter_later in Hs as [Hs _]. apply holder_later in Hch.
    apply (Hh c h); [by apply Hc|done].
Qed.
End Later.

(** ** Quorums over one roster *)

Section Quorums.
Context `{StrictMajority} (dir : Directory).

Lemma count_step env ss roster (counted : gset string) :
  fold_left (fun (counted : gset string) s =>
    let k := ss_scrub_key_id s in
    if bool_decide (k ∈ counted) || negb (contains roster k) then counted
    else if verify_envelope_hybrid_signature dir k env (ss_scrub_signature_classical s) (ss_scrub_signature_pqc s)
         then {[k]} ∪ counted else counted) ss counted ⊆ counted ∪ list_to_set roster.
Proof.
  revert counted. induction ss as [|s ss IH]; intros counted; cbn [fold_left]; [set_solver|].
  etrans; [apply IH|]. destruct (bool_decide _ || negb (contains roster _)) eqn:Ec; [done|].
  apply orb_false_iff in Ec as [_ Ec]. apply negb_false_iff, contains_In in Ec.
  destruct (verify_envelope_hybrid_signature _ _ _ _ _); [|done].
  assert (ss_scrub_key_id s ∈ (list_to_set roster : gset string)) by (by apply elem_of_list_to_set, list_elem_of_In).
  set_solver.
Qed.

Lemma counted_seated env ss roster :
  count_distinct_roster_scrubs dir env ss roster ⊆ (list_to_set roster : gset string).
Proof. pose proof (count_step env ss roster ∅). unfold count_distinct_roster_scrubs. set_solver. Qed.

Lemma roster_set_size (roster : list string) : size (list_to_set roster : gset string) <= List.length roster.
Proof.
  induction roster as [|k r IH]; [done|]. cbn [list_to_set List.length].
  pose proof (size_union_alt ({[k]} : gset string) (list_to_set r)).
  assert (size ((list_to_set r : gset string) ∖ {[k]}) <= size (list_to_set r : gset string)) by (apply subseteq_size; set_solver).
  rewrite size_singleton in *. unfold list_to_set in *. simpl in *. lia.
Qed.

Lemma threshold_majority f n : (n < 2 * family_charter_threshold f n)%N.
Proof.
  unfold family_charter_threshold. rewrite strict_majority_eq.
  set (p := if starts_with _ _ then _ else _). clearbody p.
  pose proof (N.div_mod n 2 ltac:(done)). pose proof (N.mod_lt n 2 ltac:(done)).
  pose proof (N.le_max_r p (n / 2 + 1)). lia.
Qed.
End Quorums.

Lemma counted_verified `{StrictMajority} dir env ss roster k :
  k ∈ count_distinct_roster_scrubs dir env ss roster ->
  exists s, In s ss /\ ss_scrub_key_id s = k /\
    verify_envelope_hybrid_signature dir k env (ss_scrub_signature_classical s) (ss_scrub_signature_pqc s) = true.
Proof.
  unfold count_distinct_roster_scrubs. intros Hk.
  enough (forall counted : gset string, k ∈ fold_left (fun (counted : gset string) s =>
    let k := ss_scrub_key_id s in
    if bool_decide (k ∈ counted) || negb (contains roster k) then counted
    else if verify_envelope_hybrid_signature dir k env (ss_scrub_signature_classical s) (ss_scrub_signature_pqc s)
         then {[k]} ∪ counted else counted) ss counted ->
    k ∈ counted \/ exists s, In s ss /\ ss_scrub_key_id s = k /\
    verify_envelope_hybrid_signature dir k env (ss_scrub_signature_classical s) (ss_scrub_signature_pqc s) = true) as Hg.
  { destruct (Hg ∅ Hk) as [Hn|]; [by apply not_elem_of_empty in Hn|done]. }
  clear Hk. induction ss as [|s ss IH]; intros counted Hk; [by left|]. cbn [fold_left] in Hk. cbv zeta in Hk.
  apply IH in Hk as [Hk|(s' & Hs' & Ek)]; [|right; exists s'; by split; [right|]].
  destruct (bool_decide _ || negb _); [by left|]. destruct (verify_envelope_hybrid_signature _ _ _ _ _) eqn:Ev; [|by left].
  apply elem_of_union in Hk as [Hk|Hk]; [|by left]. apply elem_of_singleton in Hk as ->.
  right. exists s. by split; [left|].
Qed.

(** ** For how long *)

Lemma verdict_bound (rt : RowTypes) `{StrictMajority} `{TrustBuild}
    (store : list Attestation) (held : list string) (dir : Directory) (Hh : Holds store held dir)
    (now now' : instant) (user root : string) (v : TrustRootVerdict)
    (E : trust_root_valid rt dir now user root = inr v) (Hv : valid v = true) (Hlater : (now <= now')%Z)
    (Hroster : forall id, active_family_members dir now' id = active_family_members dir now id) :
  exists v', trust_root_valid rt dir now' user root = inr v' /\
    (valid v' = true <-> forall b, bounded_until v = Some b -> (now' < b)%Z).
Proof.
  destruct (String.eqb_spec user root) as [->|Hne].
  { unfold trust_root_valid in E. rewrite String.eqb_refl in E. by injection E as <-. }
  destruct (verdict_later rt store held dir now now' Hlater Hroster user root v E Hne) as [v' E'].
  exists v'. split; [done|].
  destruct (judged rt store held dir now user root v E Hne) as (family & legs & edges & cs & HJ).
  destruct (judged rt store held dir now' user root v' E' Hne) as (family' & legs' & edges' & cs' & HJ').
  destruct HJ as [Ha He Hc _ _ _ Eed Edec Erec Eatt Evd Eun].
  destruct HJ' as [Ha' He' Hc' _ _ _ Eed' Edec' Erec' Eatt' Evd' _].
  assert (family' = family /\ legs' = legs) as [-> ->] by (rewrite Ha in Ha'; by injection Ha').
  rewrite Eun, Hv, earlier_bound_spec. set (rec := List.filter _ cs).
  rewrite Hv in Evd. symmetry in Evd. rewrite !andb_true_iff in Evd. destruct Evd as [[[Hed Hdec] Hrec] Hatt].
  rewrite Eed, not_nil in Hed. rewrite Erec, not_nil in Hrec. destruct Hed as [e0 He0], Hrec as [c0 Hc0].
  rewrite <- (outlives edges) by (intros ->; done). rewrite <- (outlives rec) by (intros En; unfold rec in En; by rewrite En in Hc0).
  rewrite Evd', !andb_true_iff, Eed', Edec', Erec', Eatt', !not_nil.
  setoid_rewrite filter_In. setoid_rewrite He'. setoid_rewrite Hc'.
  setoid_rewrite (edge_later store held now now' Hlater). setoid_rewrite (charter_later rt store held dir now now' Hlater Hroster).
  setoid_rewrite (holder_later dir now now' Hroster). unfold rec. setoid_rewrite filter_In.
  setoid_rewrite He. setoid_rewrite Hc. pose proof (proj1 Eatt Hatt) as Hatt'. setoid_rewrite Hc in Hatt'. clear -Hatt'. naive_solver.
Qed.

Lemma verdict_within (rt : RowTypes) `{StrictMajority} `{TrustBuild}
    (store : list Attestation) (held : list string) (dir : Directory) `{!Holds store held dir}
    (now : instant) (user root : string) (v : TrustRootVerdict) (b : instant) :
  trust_root_valid rt dir now user root = inr v -> valid v = true -> bounded_until v = Some b -> (now < b)%Z.
Proof.
  intros E Hv Hb. destruct (verdict_bound rt store held dir _ now now user root v E Hv ltac:(lia) (fun _ => eq_refl))
    as (v' & E' & Hiff). rewrite E in E'. injection E' as <-. by apply (proj1 Hiff Hv).
Qed.

(** ** Properties *)

(** C1. A verdict is valid exactly on its four legs, read over the rows of the store: an
    edge of the user to the root stands; a charter of the root stands (the root's own row,
    or one its head names that enough seated holders signed); a standing charter carries a
    well-formed pre-rotation commitment; and the hardware of every holder a standing charter
    rests on is attested. Drills and halts have no part in it. A root judged by itself is
    never valid. *)
Theorem verdict_exact (rt : RowTypes) `{StrictMajority} `{TrustBuild}
    (store : list Attestation) (held : list string) (dir : Directory) (Hh : Holds store held dir)
    (now : instant) (user root : string) (v : TrustRootVerdict)
    (E : trust_root_valid rt dir now user root = inr v) :
  if user =s root then valid v = false
  else exists family legs, root_arm dir root = inr (family, legs, root_kind v) /\
    (valid v = true <->
       (exists e, StandingEdge store held now user root e) /\
       (exists c, StandingCharter rt dir store held now family legs c /\
          charter_commitment_well_formed (attestation_envelope c) = true) /\
       forall c h, StandingCharter rt dir store held now family legs c -> CharterHolder dir now family c h ->
          exists hw, holder_hardware dir h = inr hw /\ attested hw = true).
Proof.
  destruct (user =s root) eqn:Eu; [unfold trust_root_valid in E; rewrite Eu in E; by injection E as <-|].
  apply String.eqb_neq in Eu. destruct (judged rt store held dir now user root v E Eu) as (family & legs & edges & cs & HJ).
  exists family, legs. split; [by apply HJ|].
  rewrite (jd_valid _ _ _ _ _ _ _ _ _ _ _ _ HJ), !andb_true_iff, (jd_attested _ _ _ _ _ _ _ _ _ _ _ _ HJ),
    (jd_edge _ _ _ _ _ _ _ _ _ _ _ _ HJ), (jd_declares _ _ _ _ _ _ _ _ _ _ _ _ HJ),
    (jd_recovery _ _ _ _ _ _ _ _ _ _ _ _ HJ), !not_nil.
  setoid_rewrite filter_In. setoid_rewrite (jd_edges _ _ _ _ _ _ _ _ _ _ _ _ HJ).
  setoid_rewrite (jd_charters _ _ _ _ _ _ _ _ _ _ _ _ HJ). naive_solver.
Qed.

(** A valid verdict's bound is the instant it stops holding: read again at any later
    instant over the same rows and the same rosters, the verdict is given, and is valid
    exactly while that instant is before [bounded_until]. *)
Theorem verdict_bound_exact (rt : RowTypes) `{StrictMajority} `{TrustBuild}
    (store : list Attestation) (held : list string) (dir : Directory) (Hh : Holds store held dir)
    (now now' : instant) (user root : string) (v : TrustRootVerdict)
    (E : trust_root_valid rt dir now user root = inr v) (Hv : valid v = true) (Hlater : (now <= now')%Z)
    (Hroster : forall id, active_family_members dir now' id = active_family_members dir now id) :
  exists v', trust_root_valid rt dir now' user root = inr v' /\
    (valid v' = true <-> forall b, bounded_until v = Some b -> (now' < b)%Z).
Proof. by apply (verdict_bound rt store held dir Hh now). Qed.

(** Two quorums over one roster share a holder whose signature verifies on both: for any
    two envelopes, their scrubs and any two families' protocols, a charter threshold met by
    both is met by at least one seated key in common. *)
Theorem charter_quorums_intersect `{StrictMajority} (dir : Directory) (roster : list string)
    (env env' : Value) (ss ss' : list ScrubSig) (f f' : Family)
    (Hm : met (fst (family_quorum_holders_over_roster dir env ss f roster)) = true)
    (Hm' : met (fst (family_quorum_holders_over_roster dir env' ss' f' roster)) = true) :
  exists k s s', In k roster /\ In s ss /\ In s' ss' /\ ss_scrub_key_id s = k /\ ss_scrub_key_id s' = k /\
    verify_envelope_hybrid_signature dir k env (ss_scrub_signature_classical s) (ss_scrub_signature_pqc s) = true /\
    verify_envelope_hybrid_signature dir k env' (ss_scrub_signature_classical s') (ss_scrub_signature_pqc s') = true.
Proof.
  unfold met, family_quorum_holders_over_roster in Hm, Hm'. cbn [fst required distinct_holders] in Hm, Hm'.
  apply N.leb_le in Hm, Hm'. set (A := count_distinct_roster_scrubs dir env ss roster) in *.
  set (B := count_distinct_roster_scrubs dir env' ss' roster) in *.
  pose proof (threshold_majority f (len roster)). pose proof (threshold_majority f' (len roster)).
  assert (HA : A ⊆ list_to_set roster) by apply counted_seated. assert (HB : B ⊆ list_to_set roster) by apply counted_seated.
  pose proof (roster_set_size roster) as Hr.
  destruct (decide (A ∩ B ≡ ∅)) as [Hd|Hd].
  { exfalso. assert (Hs : size (A ∪ B) = size A + size B) by (apply size_union; set_solver).
    assert (size (A ∪ B) <= size (list_to_set roster : gset string)) by (apply subseteq_size; set_solver).
    unfold len in *. lia. }
  apply set_choose in Hd as [k Hk]. apply elem_of_intersection in Hk as [HkA HkB].
  destruct (counted_verified dir env ss roster k HkA) as (s & Hs & Es & Hv).
  destruct (counted_verified dir env' ss' roster k HkB) as (s' & Hs' & Es' & Hv').
  exists k, s, s'. split_and!; try done. apply HA, elem_of_list_to_set, list_elem_of_In in HkA. done.
Qed.

(** ** Concrete inputs *)

Module VerdictSamples.
Import TrustSamples.

(** The edge, expiring at 200, and the charter that does not. *)
Definition bounded_edge : Attestation :=
  mk_Attestation "e" "u" "r" "delegates_to" None 10%Z (Some 200%Z)
    (Object [("dimension", Str TRUST_ACCEPTS_DIMENSION)]) "" "" None "u" 10%Z None "" [] None "federation" "federation" None [].
Definition bounded_store : list Attestation := [bounded_edge; charter].

Lemma holds_over st : NoDup (ids_of st) -> Holds st [] (over st).
Proof. intros Hnd. by apply directory_over_holds. Qed.

(** A family root of three holders, one of whom leaves at 150; two of them signed its charter. *)
Definition sig (k : string) : ScrubSig := mk_ScrubSig k "sig" None None.
Definition member (k : string) : FamilyMember := mk_FamilyMember k 0%Z None.
Definition fam : Family := mk_Family "fam" "fam" (map member ["h1"; "h2"; "h3"]) 0%Z "majority" false None "" "digest" "".
Definition family_edge := deleg "e" "u" "fam" TRUST_ACCEPTS_DIMENSION 10%Z [].
Definition family_charter : Attestation :=
  mk_Attestation "c" "h1" "fam" "delegates_to" None 20%Z None
    (Object [("dimension", Str TRUST_CHARTER_DIMENSION);
             ("scope", Array [Str "infra:serve"; Str "infra:attest"]); ("pre_rotation_commitment", Str commitment)])
    "" "sig" None "h1" 20%Z None "digest" [] None "federation" "federation" None [sig "h2"].
Definition family_base : Directory :=
  mk_Directory (fun _ => inr []) (fun _ _ _ => inr []) (fun _ => inr []) (fun _ => inr None) (fun _ => inr [])
    (fun id => inr (if id =s "fam" then Some fam else None))
    (fun now id => inr (if id =s "fam" then map member (if (now <? 150)%Z then ["h1"; "h2"; "h3"] else ["h2"; "h3"]) else []))
    (fun _ => inr [fam]) (fun _ => inr false) (fun _ => inr false)
    (fun k => inr (Some (key k))) (fun _ _ => inr None) (fun _ => inr None) (fun _ => inr None)
    (fun _ _ c _ => c =s "sig") (fun _ _ => false).
Definition family_dir : Directory :=
  directory_over (fun q => inr (answer [family_edge; family_charter] q)) [family_edge; family_charter] [] family_base.
End VerdictSamples.
Import VerdictSamples TrustSamples.

(** The verdict on a family root counts the charter's signers over the roster of the day:
    a valid verdict with no bound that a departure already scheduled ends. *)
Lemma scheduled_departure_outside_the_bound :
  exists v v', trust_root_valid PrecedenceSamples.rt0 family_dir 100%Z "u" "fam" = inr v /\
    valid v = true /\ bounded_until v = None /\
    trust_root_valid PrecedenceSamples.rt0 family_dir 150%Z "u" "fam" = inr v' /\ valid v' = false.
Proof. do 2 eexists. split; [vm_compute; reflexivity|]. split_and!; vm_compute; reflexivity. Qed.

Lemma verdict_exact_witness :
  (exists e, StandingEdge store [] 100%Z "u" "r" e) /\
  exists v, trust_root_valid PrecedenceSamples.rt0 (over store) 100%Z "u" "r" = inr v /\ valid v = true.
Proof.
  assert (HS : Holds store [] (over store)).
  { apply holds_over, (bool_decide_unpack (NoDup (ids_of store))). vm_compute. exact I. }
  assert (E : exists v, trust_root_valid PrecedenceSamples.rt0 (over store) 100%Z "u" "r" = inr v /\ valid v = true)
    by (eexists; split; vm_compute; reflexivity).
  split; [|exact E]. destruct E as (v & E & Hv).
  pose proof (verdict_exact PrecedenceSamples.rt0 store [] (over store) HS 100%Z "u" "r" v E) as Hx.
  destruct Hx as (family & legs & _ & Hiff). exact (proj1 (proj1 Hiff Hv)).
Defined.

Lemma verdict_bound_exact_witness :
  exists v v', trust_root_valid PrecedenceSamples.rt0 (over bounded_store) 100%Z "u" "r" = inr v /\
    bounded_until v = Some 200%Z /\
    trust_root_valid PrecedenceSamples.rt0 (over bounded_store) 200%Z "u" "r" = inr v' /\ (valid v' = true <-> 200 < 200)%Z.
Proof.
  assert (HS : Holds bounded_store [] (over bounded_store)).
  { apply holds_over, (bool_decide_unpack (NoDup (ids_of bounded_store))). vm_compute. exact I. }
  assert (E : exists v, trust_root_valid PrecedenceSamples.rt0 (over bounded_store) 100%Z "u" "r" = inr v /\
            valid v = true /\ bounded_until v = Some 200%Z)
    by (eexists; split_and!; vm_compute; reflexivity).
  destruct E as (v & E & Hv & Hb).
  destruct (verdict_bound_exact PrecedenceSamples.rt0 bounded_store [] (over bounded_store) HS 100%Z 200%Z "u" "r" v E Hv
              ltac:(lia) (fun _ => eq_refl)) as (v' & E' & Hiff).
  exists v, v'. split_and!; try assumption. rewrite Hiff, Hb. clear. split.
  - intros Hall. exact (Hall 200%Z eq_refl).
  - intros Hlt b [= <-]. exact Hlt.
Defined.

Lemma charter_quorums_intersect_witness :
  let roster := ["h1"; "h2"; "h3"] in
  exists k s s', In k roster /\ In s [sig "h1"; sig "h2"] /\ In s' [sig "h3"; sig "h2"] /\
    ss_scrub_key_id s = k /\ ss_scrub_key_id s' = k.
Proof.
  intros roster.
  destruct (charter_quorums_intersect family_dir roster Null (Str "other") [sig "h1"; sig "h2"] [sig "h3"; sig "h2"] fam fam)
    as (k & s & s' & Hk & Hs & Hs' & Es & Es' & _ & _); [vm_compute; reflexivity|vm_compute; reflexivity|].
  exists k, s, s'. split_and!; assumption.
Defined.
