(* ===== verification/TrustAnswers.v ===== *)
(** * What the grants, the transit and the serve tier answer for

    The walks that ask for trust-root verdicts, stated over the rows of one store: what a
    trusted grant rests on and when there is none, what an untrust withdraws, which rows can
    end a conferral, and what an eligible peer, a serve tier and a relayed row were judged
    on. *)

From Stdlib Require Import ZArith NArith Lia Ascii String.
From stdpp Require Import base list strings gmap.
From S2P Require Import Prelude RustStd Json Precedence ReverseQuorum Consensus Matcher Query TrustRoot TrustBounded TrustGrants TrustVerdict.

Open Scope string_scope.
Open Scope list_scope.
Open Scope persist_scope.

(** ** The planes of the capability walk *)

Section Planes.
Context (rt : RowTypes) `{StrictMajority} `{TrustBuild} (dir : Directory).
Context (verdict_of : string -> Error + TrustRootVerdict).

(** The user's verdict on a root is given and is [b]. *)
Definition trusts (root : string) (b : bool) : Prop := exists v, verdict_of root = inr v /\ valid v = b.

Lemma delegation_plane_some gs t :
  delegation_plane verdict_of gs = inr (Some t) ->
  exists g, In g gs /\ conferral_plane t = Delegation /\ root_key_id t = attesting_key_id g /\
    grant_attestation_id t = attestation_id g /\ verdict_of (root_key_id t) = inr (grant_verdict t) /\
    valid (grant_verdict t) = true.
Proof.
  induction gs as [|g gs IH]; intros E; cbn [delegation_plane] in E; [done|].
  apply bind_ok in E as (v & Ev & E). destruct (valid v) eqn:Hv.
  - injection E as <-. exists g. by split_and!; [left|..].
  - destruct (IH E) as (g' & Hg' & Hr). exists g'. by split; [right|].
Qed.

Lemma delegation_plane_none gs :
  delegation_plane verdict_of gs = inr None -> forall g, In g gs -> trusts (attesting_key_id g) false.
Proof.
  induction gs as [|g gs IH]; intros E; cbn [delegation_plane] in E; [intros ? []|].
  apply bind_ok in E as (v & Ev & E). destruct (valid v) eqn:Hv; [done|].
  intros g' [<-|Hg']; [by exists v|by apply IH].
Qed.

(** A family is quorate over a grant; it is listed for the grant's signer. *)
Definition quorate (now : instant) (f : Family) (g : Attestation) (b : bool) : Prop :=
  exists q, family_quorum_over dir now g f = inr q /\ met q = b.
Definition listed (f : Family) (g : Attestation) : Prop :=
  exists fams, or_unsupported (list_families_for_member dir (attesting_key_id g)) [] = inr fams /\ In f fams.

(** The family does not carry the grant: it is not quorate over it, or not trusted. *)
Definition not_carried (now : instant) (f : Family) (g : Attestation) : Prop :=
  quorate now f g false \/ trusts (family_key_id f) false.

Lemma grant_families_some now g fams : forall seen t seen',
  grant_families dir verdict_of now g fams seen = inr (Some t, seen') ->
  exists f, In f fams /\ quorate now f g true /\ conferral_plane t = FamilyQuorum /\ root_key_id t = family_key_id f /\
    grant_attestation_id t = attestation_id g /\ verdict_of (root_key_id t) = inr (grant_verdict t) /\
    valid (grant_verdict t) = true.
Proof.
  induction fams as [|f fams IH]; intros seen t seen' E; cbn [grant_families] in E; [done|]. cbv zeta in E.
  assert (Hrest : forall s, grant_families dir verdict_of now g fams s = inr (Some t, seen') -> exists f0,
    In f0 (f :: fams) /\ quorate now f0 g true /\ conferral_plane t = FamilyQuorum /\ root_key_id t = family_key_id f0 /\
    grant_attestation_id t = attestation_id g /\ verdict_of (root_key_id t) = inr (grant_verdict t) /\
    valid (grant_verdict t) = true).
  { intros s Es. destruct (IH _ _ _ Es) as (f0 & Hf0 & Hr). exists f0. by split; [right|]. }
  destruct (contains seen _); [by eapply Hrest|]. apply bind_ok in E as (q & Eq & E).
  destruct (met q) eqn:Hm; cbn [negb] in E; [|by eapply Hrest]. apply bind_ok in E as (v & Ev & E).
  destruct (valid v) eqn:Hv; [|by eapply Hrest]. injection E as <- _.
  exists f. split_and!; try done; [by left|by exists q].
Qed.

Lemma grant_families_none now g fams : forall seen seen',
  grant_families dir verdict_of now g fams seen = inr (None, seen') ->
  (forall k, In k seen -> In k seen') /\ (forall f, In f fams -> In (family_grant_key f g) seen') /\
  (forall k, In k seen' -> In k seen \/ exists f, In f fams /\ k = family_grant_key f g /\ not_carried now f g).
Proof.
  induction fams as [|f fams IH]; intros seen seen' E; cbn [grant_families] in E; [injection E as <-; naive_solver|].
  cbv zeta in E. destruct (contains seen _) eqn:Ec.
  { apply contains_In in Ec. destruct (IH _ _ E) as (H1 & H2 & H3). naive_solver. }
  apply bind_ok in E as (q & Eq & E).
  assert (Hstep : not_carried now f g -> grant_families dir verdict_of now g fams (family_grant_key f g :: seen) = inr (None, seen') ->
    (forall k, In k seen -> In k seen') /\ (forall f0, In f0 (f :: fams) -> In (family_grant_key f0 g) seen') /\
    (forall k, In k seen' -> In k seen \/ exists f0, In f0 (f :: fams) /\ k = family_grant_key f0 g /\ not_carried now f0 g)).
  { intros Hnc Es. destruct (IH _ _ Es) as (H1 & H2 & H3). cbn [In] in *. naive_solver. }
  destruct (met q) eqn:Hm; cbn [negb] in E; [|apply Hstep; [left; by exists q|done]].
  apply bind_ok in E as (v & Ev & E). destruct (valid v) eqn:Hv; [done|].
  apply Hstep; [right; by exists v|done].
Qed.

Lemma family_plane_some now gs : forall seen t,
  family_plane dir verdict_of now gs seen = inr (Some t) ->
  exists g f, In g gs /\ listed f g /\ quorate now f g true /\ conferral_plane t = FamilyQuorum /\
    root_key_id t = family_key_id f /\ grant_attestation_id t = attestation_id g /\
    verdict_of (root_key_id t) = inr (grant_verdict t) /\ valid (grant_verdict t) = true.
Proof.
  induction gs as [|g gs IH]; intros seen t E; cbn [family_plane] in E; [done|].
  apply bind_ok in E as (fams & Ef & E). apply bind_ok in E as ([[t'|] seen'] & Eg & E).
  - injection E as ->. destruct (grant_families_some _ _ _ _ _ _ Eg) as (f & Hf & Hr).
    exists g, f. split; [by left|]. split; [by exists fams|done].
  - destruct (IH _ _ E) as (g' & f & Hg' & Hr). exists g', f. by split; [right|].
Qed.

Lemma family_plane_none now gs : forall seen,
  family_plane dir verdict_of now gs seen = inr None ->
  forall f g, In g gs -> listed f g ->
  In (family_grant_key f g) seen \/
  exists f' g', In g' gs /\ listed f' g' /\ family_grant_key f' g' = family_grant_key f g /\ not_carried now f' g'.
Proof.
  induction gs as [|g0 gs IH]; intros seen E f g Hg Hl; cbn [family_plane] in E; [done|].
  apply bind_ok in E as (fams & Ef & E). apply bind_ok in E as ([[t'|] seen'] & Eg & E); [done|].
  destruct (grant_families_none _ _ _ _ _ Eg) as (_ & H2 & H3).
  assert (Hin : In (family_grant_key f g) seen' \/ exists f' g', In g' gs /\ listed f' g' /\
    family_grant_key f' g' = family_grant_key f g /\ not_carried now f' g').
  { destruct Hg as [->|Hg]; [|by apply IH]. left. destruct Hl as (fams' & Ef' & Hf).
    rewrite Ef in Ef'. injection Ef' as <-. by apply H2. }
  destruct Hin as [Hin|(f' & g' & Hg' & Hr)]; [|right; exists f', g'; by split; [right|]].
  destruct (H3 _ Hin) as [|(f' & Hf' & Ek & Hn)]; [by left|]. right. exists f', g0.
  split; [by left|]. split; [by exists fams|]. by rewrite Ek.
Qed.
End Planes.

Section Capability.
Context (rt : RowTypes) (store : list Attestation) (held : list string) (dir : Directory) `{!Holds store held dir}.
Context `{StrictMajority} `{TrustBuild}.

(** The walk over the conferrals the store has standing. *)
Lemma capability_read now user subject scope roster :
  exists live, (forall g, In g live <-> StandingGrant rt store now subject scope g) /\
    capability_roots_to_trusted_root_over_roster rt dir now user subject scope roster =
    (let verdict_of := trust_root_valid rt dir now user in
     d ← delegation_plane verdict_of (distinct_on attesting_key_id [] live);
     match d with
     | Some g => inr (Some g)
     | None =>
         f ← family_plane dir verdict_of now live [];
         match f with
         | Some g => inr (Some g)
         | None =>
             conferred ← has_accord_conferred_role_over_roster dir subject scope roster;
             if (conferred : bool) then
               v ← verdict_of subject;
               inr (if valid v then Some (mk_TrustedGrant subject subject v AccordCoScrub) else None)
             else inr None
         end
     end).
Proof.
  destruct (conferrals_same rt store held dir now subject scope) as (rows & Er & E).
  exists (List.filter (confers store) (List.filter (conferral_shaped now
            (tombstoned_ids rt (answer store (pinned None (Some subject) FOLD_PAGE))) subject scope)
            (answer store (pinned None (Some subject) FOLD_PAGE)))). split.
  - intros g. rewrite !filter_In. split.
    + intros [[Hin Hs] Hc]. by apply (conferral_shaped_iff rt store held dir).
    + intros Hg. assert (Hin : In g (answer store (pinned None (Some subject) FOLD_PAGE))).
      { apply whole_to_In. split_and!; apply Hg. }
      split; [split; [done|]|]; by apply (conferral_shaped_iff rt store held dir now subject scope g Hin).
  - unfold capability_roots_to_trusted_root_over_roster. rewrite Er, ok_bind. unfold walk_grants.
    by rewrite E, (live_conferrals_read store held dir), ok_bind.
Qed.
End Capability.

(** ** Grants *)

(** C2. What a capability walk answers for. A grant rests on a valid verdict of the user on
    its root and on its plane: a standing grant of the root itself; a standing grant over
    which a listed family is quorate, the root being the family; or the role the accord
    conferred on the subject, the root being the subject. Without an answer, no signer of a
    standing grant is a root the user trusts, no family listed for such a signer carries its
    grant, and the subject holds no conferred role or is not trusted. *)
Theorem trusted_grant_exact (rt : RowTypes) `{StrictMajority} `{TrustBuild}
    (store : list Attestation) (held : list string) (dir : Directory) (Hh : Holds store held dir)
    (now : instant) (user subject scope : string) (roster : list string) (answer : option TrustedGrant)
    (E : capability_roots_to_trusted_root_over_roster rt dir now user subject scope roster = inr answer) :
  let verdict_of := trust_root_valid rt dir now user in
  let standing := StandingGrant rt store now subject scope in
  match answer with
  | Some t =>
      verdict_of (root_key_id t) = inr (grant_verdict t) /\ valid (grant_verdict t) = true /\
      match conferral_plane t with
      | Delegation => exists g, standing g /\ grant_attestation_id t = attestation_id g /\ root_key_id t = attesting_key_id g
      | FamilyQuorum => exists g f, standing g /\ grant_attestation_id t = attestation_id g /\ root_key_id t = family_key_id f /\
          listed dir f g /\ quorate dir now f g true
      | AccordCoScrub => root_key_id t = subject /\ grant_attestation_id t = subject /\
          has_accord_conferred_role_over_roster dir subject scope roster = inr true
      end
  | None =>
      (forall g, standing g -> trusts verdict_of (attesting_key_id g) false) /\
      ((forall a, In a store -> has_byte (ascii_of_N 31) (attestation_id a) = false) ->
       forall f g, standing g -> listed dir f g -> exists f', family_key_id f' = family_key_id f /\ listed dir f' g /\
         not_carried dir verdict_of now f' g) /\
      exists role, has_accord_conferred_role_over_roster dir subject scope roster = inr role /\
        (role = true -> trusts verdict_of subject false)
  end.
Proof.
  intros verdict_of standing. destruct (capability_read rt store held dir now user subject scope roster) as (live & Hl & El).
  rewrite El in E. clear El. cbv zeta in E. fold verdict_of in E. apply bind_ok in E as ([t|] & Ed & E).
  { injection E as <-. destruct (delegation_plane_some _ _ _ Ed) as (g & Hg & -> & Hr & Hid & Ev & Hv).
    split_and!; try done. exists g. split; [|done]. apply Hl. by eapply distinct_on_In. }
  apply bind_ok in E as ([t|] & Ef & E).
  { injection E as <-. destruct (family_plane_some _ _ _ _ _ _ Ef) as (g & f & Hg & Hlf & Hq & -> & Hr & Hid & Ev & Hv).
    split_and!; try done. exists g, f. split_and!; try done. by apply Hl. }
  apply bind_ok in E as (role & Er & E). pose proof (delegation_plane_none _ _ Ed) as Hd.
  assert (Hnone : (forall g, standing g -> trusts verdict_of (attesting_key_id g) false) /\
    ((forall a, In a store -> has_byte (ascii_of_N 31) (attestation_id a) = false) ->
       forall f g, standing g -> listed dir f g -> exists f', family_key_id f' = family_key_id f /\ listed dir f' g /\
         not_carried dir verdict_of now f' g)).
  { split.
    - intros g Hg. apply Hl in Hg. destruct (distinct_on_key attesting_key_id [] live g Hg) as [[]|(y & Hy & <-)].
      by apply Hd.
    - intros Hsep f g Hg Hlf. pose proof Hg as Hin. apply Hl in Hin.
      destruct (family_plane_none _ _ _ _ _ Ef f g Hin Hlf) as [[]|(f' & g' & Hg' & Hlf' & Ek & Hn)].
      unfold family_grant_key in Ek. apply Hl in Hg'.
      destruct (last_separator_inj _ _ _ _ _ Ek) as [Efam Eid]; [apply Hsep, Hg'|apply Hsep, Hg|].
      exists f'. assert (g' = g) as -> by (apply (ids_inj store); [apply holds_ids|apply Hg'|apply Hg|done]). done. }
  destruct role; [apply bind_ok in E as (v & Ev & E); destruct (valid v) eqn:Hv|]; injection E as <-.
  - by split_and!.
  - split_and!; try apply Hnone. exists true. split; [done|]. intros _. by exists v.
  - split_and!; try apply Hnone. by exists false.
Qed.

(** ** Subscriptions, transit and serve tiers, read from the store *)

Section Readings.
Context (rt : RowTypes) (store : list Attestation) (held : list string) (dir : Directory) `{!Holds store held dir}.
Context `{StrictMajority} `{TrustBuild}.
Notation whole by_ to_ := (answer store (pinned by_ to_ FOLD_PAGE)).

Lemma roots_of_In edges root : In root (roots_of edges) <-> exists a, In a edges /\ attested_key_id a = root.
Proof.
  unfold roots_of. rewrite dedup_sorted_In. unfold sort_strings. rewrite sort_by_In, in_map_iff. naive_solver.
Qed.

Lemma trusted_roots_read now node roots :
  trusted_roots_of rt dir now node = inr roots ->
  forall root, In root roots <-> root <> node /\ exists e, StandingEdge store held now node root e.
Proof.
  intros E root. rewrite (trusted_roots_of_same rt store held dir) in E.
  unfold trusted_roots_of_reference, all_attestations_by in E. rewrite holds_pages in E by done. cbn [or_unsupported] in E.
  rewrite ok_bind in E. destruct (live_edges_read rt store held dir now node (fun k => k <>s node)) as (l & El & Hl).
  change (answer store (by_key node FOLD_PAGE)) with (whole (Some node) None) in E. rewrite El, ok_bind in E.
  injection E as <-. rewrite roots_of_In. setoid_rewrite Hl. split.
  - intros (a & [Hne Ha] & <-). split; [by apply negb_true_iff, String.eqb_neq in Hne|]. by exists a.
  - intros (Hne & a & Ha). exists a. rewrite (se_to _ _ _ _ _ _ Ha). split; [|done]. split; [|done].
    by apply negb_true_iff, String.eqb_neq.
Qed.

Lemma valid_other now user root v : trust_root_valid rt dir now user root = inr v -> valid v = true -> user <> root.
Proof. intros E Hv ->. unfold trust_root_valid in E. rewrite String.eqb_refl in E. by injection E as <-. Qed.

Lemma valid_edge now user root v :
  trust_root_valid rt dir now user root = inr v -> valid v = true -> exists e, StandingEdge store held now user root e.
Proof.
  intros E Hv. destruct (judged rt store held dir now user root v E (valid_other _ _ _ _ E Hv)) as (fam & legs & es & cs & HJ).
  pose proof (jd_valid _ _ _ _ _ _ _ _ _ _ _ _ HJ) as Ev. rewrite Hv in Ev. symmetry in Ev.
  rewrite !andb_true_iff in Ev. destruct Ev as [[[Hed _] _] _].
  rewrite (jd_edge _ _ _ _ _ _ _ _ _ _ _ _ HJ), not_nil in Hed. destruct Hed as [e He]. exists e.
  by apply (jd_edges _ _ _ _ _ _ _ _ _ _ _ _ HJ).
Qed.

(** The roots a transit walk considers, and that they are few. *)
Lemma candidates_read now user : exists rows, edge_slice dir user = inr rows /\
  (forall root, root <> user -> (exists e, StandingEdge store held now user root e) ->
     In root (transit_candidate_roots rt now user rows)) /\
  (List.length (transit_candidate_roots rt now user rows)
   <= List.length (List.filter (fun a => attesting_key_id a =s user) store)).
Proof.
  destruct (edge_slice_rows rt store held dir user) as (rows & Er & _ & HP). exists rows. split; [done|].
  unfold transit_candidate_roots. rewrite HP. set (live := List.filter _ _). split.
  - intros root Hne (e & He). apply in_map_iff.
    assert (Hin : In e live).
    { assert (Hw : In e (whole (Some user) None)) by (apply whole_by_In; split_and!; apply He).
      apply filter_In. split; [done|]. apply (edge_shaped_iff rt store held dir); [done|].
      rewrite (se_to _ _ _ _ _ _ He). split_and!; try apply He. by apply negb_true_iff, String.eqb_neq. }
    destruct (distinct_on_key attested_key_id [] live e Hin) as [[]|(y & Hy & Ey)]. exists y.
    by rewrite Ey, (se_to _ _ _ _ _ _ He).
  - rewrite <- (length_map attested_key_id (List.filter _ store)). apply NoDup_incl_length.
    + apply NoDup_ListNoDup, distinct_on_NoDup.
    + intros root (a & <- & Ha)%in_map_iff. apply distinct_on_In, filter_In in Ha as [Ha _].
      apply whole_by_In in Ha as (Hin & _ & Hby). apply in_map, filter_In. by rewrite String.eqb_eq.
Qed.

(** One root carries the peer: both sides trust it. *)
Definition carries (now : instant) (user peer_id : string) (root : string) : Prop :=
  exists ours theirs, trust_root_valid rt dir now user root = inr ours /\ valid ours = true /\
    trust_root_valid rt dir now peer_id root = inr theirs /\ valid theirs = true.

Lemma transit_loop_read now user peer_id peer cands : forall walked t n,
  transit_loop (trust_root_valid rt dir now) now user peer_id peer cands walked = inr (t, n) ->
  (n <= walked + len cands)%N /\
  if eligible t then exists root ours theirs, In root cands /\ via_root t = Some root /\
    trust_root_valid rt dir now user root = inr ours /\ valid ours = true /\
    trust_root_valid rt dir now peer_id root = inr theirs /\ valid theirs = true /\
    valid_until t = earlier_bound (earlier_bound (kr_valid_until peer) (bounded_until ours)) (bounded_until theirs) /\
    forall b, valid_until t = Some b -> (now < b)%Z
  else t = denied /\ ((exists root, In root cands /\ carries now user peer_id root) ->
                      exists b, kr_valid_until peer = Some b /\ (b <= now)%Z).
Proof.
  induction cands as [|c cands IH]; intros walked t n E; cbn [transit_loop] in E.
  { injection E as <- <-. split; [unfold len; simpl; lia|]. split; [done|]. by intros (root & [] & _). }
  apply bind_ok in E as (ours & Eo & E).
  assert (Hskip : ~ carries now user peer_id c ->
    transit_loop (trust_root_valid rt dir now) now user peer_id peer cands (walked + 1)%N = inr (t, n) ->
    (n <= walked + len (c :: cands))%N /\
    if eligible t then exists root ours theirs, In root (c :: cands) /\ via_root t = Some root /\
      trust_root_valid rt dir now user root = inr ours /\ valid ours = true /\
      trust_root_valid rt dir now peer_id root = inr theirs /\ valid theirs = true /\
      valid_until t = earlier_bound (earlier_bound (kr_valid_until peer) (bounded_until ours)) (bounded_until theirs) /\
      forall b, valid_until t = Some b -> (now < b)%Z
    else t = denied /\ ((exists root, In root (c :: cands) /\ carries now user peer_id root) ->
                        exists b, kr_valid_until peer = Some b /\ (b <= now)%Z)).
  { intros Hc Es. destruct (IH _ _ _ Es) as [Hn Hr]. split; [unfold len in *; simpl; lia|].
    destruct (eligible t).
    - destruct Hr as (root & o & th & Hin & Hr). exists root, o, th. by split; [right|].
    - destruct Hr as [Ht Hr]. split; [done|]. intros (root & [<-|Hin] & Hcr); [done|]. apply Hr. by exists root. }
  destruct (valid ours) eqn:Hvo; cbn [negb] in E; [|apply Hskip; [|done]; intros (o & th & E1 & V1 & _); congruence].
  apply bind_ok in E as (theirs & Et & E).
  destruct (valid theirs) eqn:Hvt; cbn [negb] in E; [|apply Hskip; [|done]; intros (o & th & _ & _ & E2 & V2); congruence].
  clear Hskip IH. cbv zeta in E. set (until := earlier_bound _ _) in E.
  destruct (is_some_and until (fun t0 => (t0 <=? now)%Z)) eqn:Eu; injection E as <- <-;
    (split; [unfold len; simpl; lia|]); cbn [eligible denied].
  - split; [done|]. intros _. destruct until as [u|] eqn:Eun; [|done]. cbn [is_some_and] in Eu. apply Z.leb_le in Eu.
    assert (Hlt : ~ forall b, earlier_bound (earlier_bound (kr_valid_until peer) (bounded_until ours)) (bounded_until theirs) = Some b -> (now < b)%Z).
    { intros Hall. specialize (Hall u Eun). lia. }
    pose proof (fun b => verdict_within rt store held dir now user c ours b Eo Hvo) as Ho.
    pose proof (fun b => verdict_within rt store held dir now peer_id c theirs b Et Hvt) as Ht.
    rewrite !earlier_bound_spec in Hlt. destruct (kr_valid_until peer) as [b|] eqn:Ek.
    + exists b. split; [done|]. apply Z.nlt_ge. intros Hb. apply Hlt.
      split_and!; [by intros b' [= <-]|done..].
    + exfalso. apply Hlt. by split_and!.
  - exists c, ours, theirs. split_and!; try done; [by left|]. intros b Hb.
    cbn [valid_until] in Hb. rewrite Hb in Eu. cbn [is_some_and] in Eu. by apply Z.leb_gt in Eu.
Qed.
End Readings.

(** C14. An eligible peer: whatever the resolver admits was found by the walk, for a peer that
    is another key, registered, a node, claiming the transport role, through a root both sides
    hold a valid verdict on; its lifetime is the first of the peer's, and of the two verdicts,
    and is not over. The roots judged are never more than the rows the user itself signed. An
    error anywhere in the walk is a denial. *)
Theorem transit_sound (rt : RowTypes) `{StrictMajority} `{TrustBuild}
    (store : list Attestation) (held : list string) (dir : Directory) (Hh : Holds store held dir)
    (now : instant) (user peer_id : string) :
  let t := resolve_transit_eligibility rt dir now user peer_id in
  (eligible t = false -> t = denied) /\
  (forall t' n, transit_eligibility_walk rt dir now user peer_id = inr (t', n) -> t' = t /\
     (n <= len (List.filter (fun a => attesting_key_id a =s user) store))%N) /\
  (eligible t = true -> exists peer root ours theirs n,
     transit_eligibility_walk rt dir now user peer_id = inr (t, n) /\
     user <> peer_id /\ user <> root /\ peer_id <> root /\
     lookup_public_key dir peer_id = inr (Some peer) /\ set_contains (kr_identity_type peer) NODE = true /\
     claims_role peer INFRA_TRANSPORT = true /\ via_root t = Some root /\
     trust_root_valid rt dir now user root = inr ours /\ valid ours = true /\
     trust_root_valid rt dir now peer_id root = inr theirs /\ valid theirs = true /\
     valid_until t = earlier_bound (earlier_bound (kr_valid_until peer) (bounded_until ours)) (bounded_until theirs) /\
     forall b, valid_until t = Some b -> (now < b)%Z).
Proof.
  intros t. unfold resolve_transit_eligibility in t.
  destruct (transit_eligibility_walk rt dir now user peer_id) as [e|[t0 n]] eqn:E; [by subst t|]. subst t.
  unfold transit_eligibility_walk in E.
  assert (Hden : inr (denied, 0%N) = inr (A:=Error) (t0, n) ->
    (eligible t0 = false -> t0 = denied) /\ (forall t' n', inr (A:=Error) (t0, n) = inr (t', n') -> t' = t0 /\
     (n' <= len (List.filter (fun a => attesting_key_id a =s user) store))%N) /\ eligible t0 = false).
  { intros [= <- <-]. split_and!; [done| |done]. intros t' n' [= <- <-]. split; [done|lia]. }
  destruct (String.eqb_spec user peer_id) as [->|Hne]; [destruct (Hden E) as (Hd1 & Hd2 & Ef); by split_and!; [| |rewrite Ef]|].
  apply bind_ok in E as ([peer|] & Ep & E); [|destruct (Hden E) as (Hd1 & Hd2 & Ef); by split_and!; [| |rewrite Ef]].
  destruct (set_contains (kr_identity_type peer) NODE) eqn:En; cbn [negb] in E;
    [|destruct (Hden E) as (Hd1 & Hd2 & Ef); by split_and!; [| |rewrite Ef]].
  destruct (claims_role peer INFRA_TRANSPORT) eqn:Ec; cbn [negb] in E;
    [|destruct (Hden E) as (Hd1 & Hd2 & Ef); by split_and!; [| |rewrite Ef]].
  clear Hden. destruct (candidates_read rt store held dir now user) as (rows & Er & _ & Hlen). rewrite Er, ok_bind in E.
  destruct (transit_loop_read rt store held dir now user peer_id peer _ _ _ _ E) as [Hn Hr].
  split_and!.
  - intros Hf. rewrite Hf in Hr. apply Hr.
  - intros t' n' [= <- <-]. split; [done|]. unfold len in *. lia.
  - intros Hel. rewrite Hel in Hr. destruct Hr as (root & ours & theirs & _ & Hvia & Eo & Vo & Et & Vt & Hu & Hnow).
    exists peer, root, ours, theirs, n. pose proof (valid_other rt dir now user root ours Eo Vo).
    pose proof (valid_other rt dir now peer_id root theirs Et Vt). by split_and!.
Qed.

(** A lifetime that can be cached: over the same rows, rosters and registrations, a peer
    found eligible is found eligible again at every later instant before [valid_until], as
    long as the verdicts asked for are given. *)
Theorem transit_holds_until (rt : RowTypes) `{StrictMajority} `{TrustBuild}
    (store : list Attestation) (held : list string) (dir : Directory) (Hh : Holds store held dir)
    (now now' : instant) (user peer_id : string)
    (Hel : eligible (resolve_transit_eligibility rt dir now user peer_id) = true) (Hlater : (now <= now')%Z)
    (Hwithin : forall b, valid_until (resolve_transit_eligibility rt dir now user peer_id) = Some b -> (now' < b)%Z)
    (Hroster : forall id, active_family_members dir now' id = active_family_members dir now id)
    (Hgiven : forall asker root, exists v, trust_root_valid rt dir now' asker root = inr v) :
  eligible (resolve_transit_eligibility rt dir now' user peer_id) = true.
Proof.
  unfold resolve_transit_eligibility in *.
  destruct (transit_eligibility_walk rt dir now user peer_id) as [e|[t n]] eqn:E; [done|].
  unfold transit_eligibility_walk in *. destruct (user =s peer_id); [by injection E as <- _|].
  destruct (lookup_public_key dir peer_id) as [e|[peer|]]; [done| |by injection E as <- _]. rewrite ok_bind in E |- *.
  destruct (set_contains (kr_identity_type peer) NODE); [|by injection E as <- _].
  destruct (claims_role peer INFRA_TRANSPORT); [|by injection E as <- _]. cbn [negb] in *.
  destruct (candidates_read rt store held dir now' user) as (rows & Er & Hcand & _). rewrite Er, ok_bind in *.
  destruct (transit_loop_read rt store held dir now user peer_id peer _ _ _ _ E) as [_ Hr].
  rewrite Hel in Hr. destruct Hr as (root & ours & theirs & _ & _ & Eo & Vo & Et & Vt & Hu & _).
  rewrite Hu, !earlier_bound_spec in Hwithin. destruct Hwithin as [[Hp Ho] Ht].
  assert (Hkeep : forall asker v, trust_root_valid rt dir now asker root = inr v -> valid v = true ->
            (forall b, bounded_until v = Some b -> (now' < b)%Z) ->
            exists v', trust_root_valid rt dir now' asker root = inr v' /\ valid v' = true).
  { intros asker v Ev Vv Hb. destruct (verdict_bound rt store held dir _ now now' asker root v Ev Vv Hlater Hroster)
      as (v' & Ev' & Hiff). exists v'. split; [done|]. by apply Hiff. }
  destruct (Hkeep user ours Eo Vo Ho) as (ours' & Eo' & Vo'), (Hkeep peer_id theirs Et Vt Ht) as (theirs' & Et' & Vt').
  assert (Hin : In root (transit_candidate_roots rt now' user rows)).
  { apply Hcand; [intros ->; by apply (valid_other rt dir now' user user ours' Eo' Vo')|].
    by apply (valid_edge rt store held dir now' user root ours'). }
  assert (Hans : forall cands walked, exists r, transit_loop (trust_root_valid rt dir now') now' user peer_id peer cands walked = inr r).
  { clear -Hgiven. induction cands as [|c cands IH]; intros walked; cbn [transit_loop]; [by eexists|].
    destruct (Hgiven user c) as [v ->], (Hgiven peer_id c) as [v' ->]. rewrite !ok_bind.
    repeat (case_if; [by eauto|]). by eauto. }
  destruct (Hans (transit_candidate_roots rt now' user rows) 0%N) as [[t' n'] E']. rewrite E'.
  destruct (transit_loop_read rt store held dir now' user peer_id peer _ _ _ _ E') as [_ Hr'].
  destruct (eligible t') eqn:Hel'; [done|]. destruct Hr' as [_ Hr'].
  destruct Hr' as (b & Hb & Hle); [exists root; split; [done|]; by exists ours', theirs'|].
  specialize (Hp b Hb). lia.
Qed.

(** Untrust is total: once every edge-shaped row of a user to a root is retracted by a
    row of that user, the root gives the user nothing: no valid verdict, no grant on any
    plane, no transit, no place in the subscription set. *)
Theorem untrust_is_total (rt : RowTypes) `{StrictMajority} `{TrustBuild}
    (store : list Attestation) (held : list string) (dir : Directory) (Hh : Holds store held dir)
    (now : instant) (user root : string)
    (Huntrust : forall e, In e store -> attesting_key_id e = user -> attested_key_id e = root ->
       (Json.attestation_type e = attestation_type.DELEGATES_TO \/ Json.attestation_type e = attestation_type.SUPERSEDES) ->
       exists r, In r store /\ own_retraction e r) :
  (forall v, trust_root_valid rt dir now user root = inr v -> edge_exists v = false /\ valid v = false) /\
  (forall subject scope roster t,
     capability_roots_to_trusted_root_over_roster rt dir now user subject scope roster = inr (Some t) -> root_key_id t <> root) /\
  (forall peer, via_root (resolve_transit_eligibility rt dir now user peer) <> Some root) /\
  (forall roots, trusted_roots_of rt dir now user = inr roots -> ~ In root roots).
Proof.
  assert (Hno : forall e, ~ StandingEdge store held now user root e).
  { intros e [Hin _ Hty Hby Hto _ Hk _ _ _]. destruct (Huntrust e Hin Hby Hto Hty) as (r & Hr & Ho). by apply (Hk r). }
  assert (Hv : forall v, trust_root_valid rt dir now user root = inr v -> edge_exists v = false /\ valid v = false).
  { intros v E. destruct (String.eqb_spec user root) as [->|Hne].
    { unfold trust_root_valid in E. rewrite String.eqb_refl in E. by injection E as <-. }
    destruct (judged rt store held dir now user root v E Hne) as (fam & legs & es & cs & HJ).
    assert (He : edge_exists v = false).
    { rewrite (jd_edge _ _ _ _ _ _ _ _ _ _ _ _ HJ). destruct es as [|e es]; [done|]. exfalso. apply (Hno e).
      apply (jd_edges _ _ _ _ _ _ _ _ _ _ _ _ HJ). by left. }
    by rewrite (jd_valid _ _ _ _ _ _ _ _ _ _ _ _ HJ), He. }
  split_and!; [done|..].
  - intros subject scope roster t E Er.
    destruct (capability_read rt store held dir now user subject scope roster) as (live & _ & El). rewrite El in E.
    cbv zeta in E. assert (Hvt : trust_root_valid rt dir now user root = inr (grant_verdict t) /\ valid (grant_verdict t) = true).
    { apply bind_ok in E as ([t'|] & Ed & E).
      { injection E as ->. destruct (delegation_plane_some _ _ _ Ed) as (g & _ & _ & _ & _ & Hg). by rewrite Er in Hg. }
      apply bind_ok in E as ([t'|] & Ef & E).
      { injection E as ->. destruct (family_plane_some _ _ _ _ _ _ Ef) as (g & f & _ & _ & _ & _ & _ & _ & Hg). by rewrite Er in Hg. }
      apply bind_ok in E as ([|] & _ & E); [|done]. apply bind_ok in E as (v & Ev & E).
      destruct (valid v) eqn:Hvv; [|done]. injection E as <-. cbn in Er. by subst. }
    destruct Hvt as [E' V]. apply Hv in E'. destruct E'. congruence.
  - intros peer. unfold resolve_transit_eligibility. destruct (transit_eligibility_walk rt dir now user peer) as [|[t n]] eqn:E; [done|].
    unfold transit_eligibility_walk in E. destruct (user =s peer); [by injection E as <- _|].
    apply bind_ok in E as ([p|] & _ & E); [|by injection E as <- _].
    destruct (set_contains _ _); [|by injection E as <- _]. destruct (claims_role _ _); [|by injection E as <- _].
    cbn [negb] in E. apply bind_ok in E as (rows & _ & E).
    destruct (transit_loop_read rt store held dir now user peer p _ _ _ _ E) as [_ Hr].
    destruct (eligible t); [|by destruct Hr as [-> _]].
    destruct Hr as (r & ours & theirs & _ & Hvia & Eo & Vo & _). rewrite Hvia. intros [= ->].
    apply Hv in Eo as []. congruence.
  - intros roots E Hin. apply (trusted_roots_read rt store held dir now user roots E) in Hin as (_ & e & He). by apply (Hno e).
Qed.

(** ** Which rows end a conferral *)

Section Added.
Context (store new : list Attestation) (Hnd : NoDup (map attestation_id (store ++ new))).

Lemma by_id_app t s : by_id store t = Some s -> by_id (store ++ new) t = Some s.
Proof. intros (Hin & <-)%by_id_In. apply by_id_NoDup; [done|]. apply in_app_iff. by left. Qed.

Lemma lineage_app signer turns cur :
  lineage store signer turns cur = true -> lineage (store ++ new) signer turns cur = true.
Proof.
  revert cur. induction turns as [|turns IH]; intros cur; [done|]. cbn [lineage]. destruct cur as [t|]; [|done].
  destruct (by_id store t) as [s|] eqn:Es; [|done]. rewrite (by_id_app _ _ Es), !andb_true_iff, !orb_true_iff, !andb_true_iff.
  intros [Hs [Hd|[Hsup Hl]]]; split; auto.
Qed.
End Added.

(** Only its signer ends a conferral, and once ended it stays so: rows added to the store
    by other keys leave a conferring row conferring; a row superseded by its signer confers
    no more, whatever is added, the withdrawal of its successor included; and a successor
    confers only at the end of an unbroken lineage of at most [MAX_GRANT_ROTATIONS] rows of
    its signer down to a grant. *)
Theorem conferral_is_the_signers (store new : list Attestation) (held held' : list string) (dir dir' : Directory)
    (Hh : Holds store held dir) (Hh' : Holds (store ++ new) held' dir') (a : Attestation) :
  ((forall r, In r new -> attesting_key_id r <> attesting_key_id a) ->
     confers_now dir a = inr true -> confers_now dir' a = inr true) /\
  (forall r, In r store -> federated r = true -> supersedes_own a r = true -> target_of r = Some (attestation_id a) ->
     confers_now dir a = inr false /\ confers_now dir' a = inr false) /\
  (Json.attestation_type a = attestation_type.SUPERSEDES -> confers_now dir a = inr true ->
     exists t n, target_of a = Some t /\ n <= MAX_GRANT_ROTATIONS /\ Lineage store (attesting_key_id a) n t).
Proof.
  rewrite (confers_now_read store held dir), (confers_now_read (store ++ new) held' dir').
  split_and!.
  - intros Hnew Hi. f_equal. assert (Hc : confers store a = true) by congruence. unfold confers in Hc |- *. apply andb_true_iff in Hc. apply andb_true_iff. rewrite orb_true_iff in Hc |- *.
    destruct Hc as [Hl Hs]. apply negb_true_iff in Hs. split; [destruct Hl as [?|Hl]; [by left|right; by apply lineage_app; [apply holds_ids|]]|].
    apply negb_true_iff. unfold superseded in *. rewrite existsb_app, Hs, orb_false_l. apply existsb_false. intros r Hr.
    unfold supersedes_own. rewrite (proj2 (String.eqb_neq _ _) (Hnew r Hr)).
    by rewrite !andb_false_r.
  - intros r Hr Hf Hs Ht. assert (Hsup : superseded store a = true).
    { apply existsb_exists. exists r. by rewrite Hf, Hs, Ht, bool_decide_eq_true_2. }
    unfold confers. unfold superseded in *. by rewrite existsb_app, Hsup, !andb_false_r.
  - intros Hty Hi. assert (Hc : confers store a = true) by congruence. unfold confers in Hc.
    rewrite Hty, String.eqb_refl in Hc. apply andb_true_iff in Hc as [Hc _]. rewrite orb_false_l in Hc.
    destruct (target_of a) as [t|]; [|done]. apply lineage_iff in Hc as (n & Hn & Hl). by exists t, n.
Qed.

(** ** Serve tiers *)

(** An owner's grant of a scope that stands, with the lifetime its envelope states. *)
Record OwnerGrant (rt : RowTypes) `{TrustBuild} (store : list Attestation) (now : instant)
    (subject owner scope : string) (a : Attestation) : Prop := {
  og_held : In a store;
  og_federated : federated a = true;
  og_type : Json.attestation_type a = attestation_type.DELEGATES_TO;
  og_to : attested_key_id a = subject;
  og_by : attesting_key_id a = owner;
  og_foreign : owner <> subject;
  og_alive : is_expired a now = false;
  og_lapse : delegation_valid_until_lapsed (attestation_envelope a) now = false;
  og_kept : forall r, In r store -> ~ about_retraction rt a r;
  og_job : job_dimension_admits (attestation_envelope a) TRUST_CONFERS_DIMENSION = true;
  og_scope : scope_contains (attestation_envelope a) scope = true;
}.

Lemma owner_granted_read (rt : RowTypes) `{TrustBuild} (store : list Attestation) (held : list string)
    (dir : Directory) `{!Holds store held dir} now subject owner scope : exists b,
  owner_granted_scope rt dir now subject owner scope = inr b /\
  (b = true <-> exists a, OwnerGrant rt store now subject owner scope a).
Proof.
  rewrite (owner_granted_scope_same rt store held dir). unfold owner_granted_scope_reference, all_attestations_for.
  rewrite holds_pages, ok_bind by done. eexists. split; [done|]. rewrite existsb_exists.
  change (answer store (to_key subject FOLD_PAGE)) with (answer store (pinned None (Some subject) FOLD_PAGE)).
  apply exist_proper. intros a. unfold owner_grant, tombstoned_ids, counts_in_capability_walk.
  rewrite !andb_true_iff, !negb_true_iff, bool_decide_eq_false, !String.eqb_eq, String.eqb_neq. split.
  - intros [Hw [[[[[[[[[Hty Hto] Hby] Hne] Hk] Hx] Hl] _] Hj] Hs]].
    rewrite (retired_to rt store held dir) in Hk by done. apply whole_to_In in Hw as (Hin & Hf & _).
    split; try done; [by rewrite <- Hby|]. intros r Hr Ho. apply Hk. by exists r.
  - intros [Hin Hf Hty Hto Hby Hne Hx Hl Hk Hj Hs].
    assert (Hw : In a (answer store (pinned None (Some subject) FOLD_PAGE))) by (by apply whole_to_In).
    split; [done|]. rewrite (retired_to rt store held dir) by done. apply String.eqb_eq in Hf as Hf'.
    split_and!; try done; [by rewrite Hby|]. intros (r & Hr & Ho). by apply (Hk r).
Qed.

(** A serve tier is exactly what was found for it. Only a registered node whose record
    has not lapsed serves; it is canonical exactly when the accord conferred the serve role
    on it and the resolver has a trusted grant of it, and otherwise a mesh server exactly
    when it claims the role and its owner's grant stands. *)
Theorem serve_tier_exact (rt : RowTypes) `{StrictMajority} `{TrustBuild}
    (store : list Attestation) (held : list string) (dir : Directory) (Hh : Holds store held dir)
    (now : instant) (subject resolver : string) (roster : list string) (tier : ServeTier)
    (E : resolve_serve_tier_over_roster rt dir now subject resolver roster = inr tier) :
  let serves p := lookup_public_key dir subject = inr (Some p) /\ set_contains (kr_identity_type p) NODE = true /\
                  forall u, kr_valid_until p = Some u -> (now < u)%Z in
  let canonical := has_accord_conferred_role_over_roster dir subject INFRA_SERVE_SCOPE roster = inr true /\
                   exists t, capability_roots_to_trusted_root_over_roster rt dir now resolver subject INFRA_SERVE_SCOPE roster = inr (Some t) in
  let owned p := claims_role p INFRA_SERVE_SCOPE = true /\
                 exists o a, owner_of dir subject = inr (Some o) /\ OwnerGrant rt store now subject o INFRA_SERVE_SCOPE a in
  (tier = Canonical <-> canonical /\ exists p, serves p) /\
  (tier = MeshServer <-> ~ canonical /\ exists p, serves p /\ owned p).
Proof.
  intros serves canonical owned. unfold resolve_serve_tier_over_roster in E.
  apply bind_ok in E as (found & Ef & E).
  assert (Hnot : (forall p, ~ serves p) -> tier = ServeNone ->
    (tier = Canonical <-> canonical /\ exists p, serves p) /\ (tier = MeshServer <-> ~ canonical /\ exists p, serves p /\ owned p)).
  { intros Hs ->. split; (split; [done|]); intros (_ & p & Hp); exfalso; apply (Hs p), Hp. }
  destruct found as [p|]; [|injection E as <-; apply Hnot; [|done]; intros p (Hp & _); congruence].
  destruct (set_contains (kr_identity_type p) NODE) eqn:En; cbn [negb] in E;
    [|injection E as <-; apply Hnot; [|done]; intros p' (Hp & Hn & _); congruence].
  destruct (is_some_and (kr_valid_until p) (fun u => (u <=? now)%Z)) eqn:Eu.
  { injection E as <-. apply Hnot; [|done]. intros p' (Hp & _ & Hlt). rewrite Ef in Hp. injection Hp as <-.
    destruct (kr_valid_until p) as [u|]; [|done]. cbn in Eu. apply Z.leb_le in Eu. specialize (Hlt u eq_refl). lia. }
  clear Hnot. assert (Hp : serves p).
  { split_and!; [done..|]. intros u Hu. rewrite Hu in Eu. by apply Z.leb_gt in Eu. }
  assert (Hp' : forall p', serves p' -> p' = p) by (intros p' (Hp' & _); congruence).
  apply bind_ok in E as (owner & Eo & E). apply bind_ok in E as (conferred & Ec & E). apply bind_ok in E as (can & Ecan & E).
  assert (Hcan : can = true <-> canonical).
  { unfold canonical. rewrite Ec. destruct conferred; [|injection Ecan as <-; naive_solver].
    apply bind_ok in Ecan as (g & Eg & Ecan). injection Ecan as <-. rewrite Eg. destruct g; naive_solver. }
  destruct can; [injection E as <-; split; split; try done; naive_solver|].
  assert (Hn : ~ canonical) by (intros Hc; by apply Hcan in Hc).
  destruct (claims_role p INFRA_SERVE_SCOPE) eqn:Er; cbn [negb] in E;
    [|injection E as <-; split; (split; [done|]); [by intros [Hc _]; destruct (Hn Hc)|intros (_ & p' & Hs & Ho & _); by rewrite (Hp' p' Hs), Er in Ho]].
  destruct owner as [o|];
    [|injection E as <-; split; (split; [done|]); [by intros [Hc _]; destruct (Hn Hc)|intros (_ & p' & _ & _ & o & a & Ho & _); congruence]].
  apply bind_ok in E as (granted & Eg & E). injection E as <-.
  destruct (owner_granted_read rt store held dir now subject o INFRA_SERVE_SCOPE) as (b & Eb & Hb). rewrite Eg in Eb. injection Eb as <-.
  split; [split; [by destruct granted|by intros [Hc _]; destruct (Hn Hc)]|]. destruct granted.
  - split; [|done]. intros _. split; [done|]. exists p. split; [done|]. split; [done|].
    destruct (proj1 Hb eq_refl) as [a Ha]. by exists o, a.
  - split; [done|]. intros (_ & p' & _ & _ & o' & a & Ho & Ha). rewrite Eo in Ho. injection Ho as <-.
    assert (false = true) by (apply Hb; by exists a). done.
Qed.

(** ** The relay gate *)

(** A row names a root in two places; the claim is [Named] when it names one, and the places
    agree. *)
Lemma claim_named a root src :
  accord_root_claim a = Named root src ->
  is_accord_family (Json.attestation_type a) (envelope_dimension (attestation_envelope a)) = true /\
  trim root <> "" /\
  (forall r, non_blank (get_str (attestation_envelope a) "accord_root") = Some r -> r = root) /\
  (Json.attestation_type a = attestation_type.SCORES ->
   envelope_dimension (attestation_envelope a) = Some ACCORD_HEARTBEAT_DIMENSION ->
   trim (attested_key_id a) <> "" -> attested_key_id a = root).
Proof.
  unfold accord_root_claim. destruct (is_accord_family _ _) eqn:Ei; [|done]. cbn [negb]. cbv zeta.
  assert (Hnb : forall o r, non_blank o = Some r -> trim r <> "").
  { intros o r E. unfold non_blank in E. destruct o as [s|]; [|done]. cbn [mbind option_bind] in E.
    destruct (String.eqb_spec (trim s) ""); [done|]. by injection E as <-. }
  set (env := non_blank (get_str _ _)). set (beat := non_blank (if (Json.attestation_type a =s attestation_type.SCORES) && _
    then Some (attested_key_id a) else None)).
  assert (Hbeat : Json.attestation_type a = attestation_type.SCORES ->
    envelope_dimension (attestation_envelope a) = Some ACCORD_HEARTBEAT_DIMENSION ->
    trim (attested_key_id a) <> "" -> beat = Some (attested_key_id a)).
  { intros Hty Hd Ht. unfold beat. rewrite Hty, Hd, String.eqb_refl, bool_decide_eq_true_2 by done. cbn [andb].
    unfold non_blank. cbn [mbind option_bind]. by rewrite (proj2 (String.eqb_neq _ _) Ht). }
  assert (Henv : forall r, env = Some r -> trim r <> "") by (apply Hnb).
  assert (Hbt : forall r, beat = Some r -> trim r <> "") by (apply Hnb).
  destruct env as [e|]; destruct beat as [b|]; try done.
  - destruct (String.eqb_spec e b) as [->|]; [|done]. cbn [negb]. intros [= -> _]. split_and!; [done|by apply Henv|naive_solver|].
    intros Hty Hd Ht. specialize (Hbeat Hty Hd Ht). congruence.
  - intros [= -> _]. split_and!; [done|by apply Henv|naive_solver|]. intros Hty Hd Ht. by specialize (Hbeat Hty Hd Ht).
  - intros [= -> _]. split_and!; [done|by apply Hbt|naive_solver|]. intros Hty Hd Ht. specialize (Hbeat Hty Hd Ht). congruence.
Qed.

(** A relayed accord row was judged for the one root it names: it is relayed exactly when
    its columns are bound to its envelope, every place that names a root names this one, its
    signer is seated on that root's active roster, and an edge of this node to the root
    stands; and a reason is given exactly when it is not relayed. *)
Theorem relay_exact (rt : RowTypes) `{StrictMajority} `{TrustBuild}
    (store : list Attestation) (held : list string) (dir : Directory) (Hh : Holds store held dir)
    (now : instant) (self : string) (a : Attestation) (v : RelayVerdict)
    (E : may_relay_accord_attestation rt dir now self a = inr v) :
  (refusal_reason v = None <-> may_relay v = true) /\
  (may_relay v = true <->
     check_row_column_binding a = true /\
     exists root src, accord_root_claim a = Named root src /\ self <> root /\
       (forall r, non_blank (get_str (attestation_envelope a) "accord_root") = Some r -> r = root) /\
       (exists roster, active_roster_of dir now root = inr (Some roster) /\ In (attesting_key_id a) roster) /\
       exists e, StandingEdge store held now self root e).
Proof.
  split.
  { unfold refusal_reason, may_relay. destruct (roster_resolvable v), (signer_seated v), (relay_edge_exists v); done. }
  unfold may_relay_accord_attestation in E. destruct (check_row_column_binding a); cbn [negb] in E;
    [|injection E as <-; split; [done|by intros []]].
  destruct (accord_root_claim a) as [|root src|ns|e k] eqn:Ec;
    try (injection E as <-; split; [done|intros (_ & r & s & [=] & _)]).
  unfold may_relay_accord_object in E. apply bind_ok in E as (roster & Er & E). apply bind_ok in E as (tv & Ev & E).
  injection E as <-. destruct (claim_named _ _ _ Ec) as (_ & _ & Hagree & _).
  assert (Hedge : edge_exists tv = true <-> self <> root /\ exists e, StandingEdge store held now self root e).
  { destruct (String.eqb_spec self root) as [->|Hne].
    { unfold trust_root_valid in Ev. rewrite String.eqb_refl in Ev. injection Ev as <-. split; [done|by intros []]. }
    destruct (judged rt store held dir now self root tv Ev Hne) as (fam & legs & es & cs & HJ).
    rewrite (jd_edge _ _ _ _ _ _ _ _ _ _ _ _ HJ), not_nil. setoid_rewrite (jd_edges _ _ _ _ _ _ _ _ _ _ _ _ HJ).
    naive_solver. }
  unfold may_relay. cbn [roster_resolvable signer_seated relay_edge_exists]. rewrite !andb_true_iff, Hedge. split.
  - intros [[Hr Hs] [Hne He]]. split; [done|]. exists root, src. split_and!; try done.
    destruct roster as [l|]; [|done]. exists l. split; [done|]. by apply contains_In.
  - intros (_ & root' & src' & [= <- <-] & Hne & _ & (l & El & Hin) & He). rewrite Er in El. injection El as ->.
    split_and!; try done. by apply contains_In.
Qed.

(** ** Concrete inputs *)

Module AnswerSamples.
Import TrustSamples VerdictSamples.
Definition rt0 := PrecedenceSamples.rt0.

(** The user withdraws its edge. *)
Definition untrusted : list Attestation := store ++ [composer "w" "u" "r" "withdraws" "e" 60%Z].

(** A peer with its own edge, which expires at 300. *)
Definition peer_edge : Attestation :=
  mk_Attestation "p" "peer" "r" "delegates_to" None 15%Z (Some 300%Z)
    (Object [("dimension", Str TRUST_ACCEPTS_DIMENSION)]) "" "" None "peer" 15%Z None "" [] None "federation" "federation" None [].
Definition meshed : list Attestation := [edge; peer_edge; charter].

(** The subject claims the serve role and is owned by the root. *)
Definition serving : Directory :=
  mk_Directory (fun _ => inr []) (fun _ _ _ => inr []) (fun _ => inr []) (fun _ => inr None) (fun _ => inr [])
    (fun _ => inr None) (fun _ _ => inr []) (fun _ => inr []) (fun _ => inr false) (fun _ => inr false)
    (fun k => inr (Some (mk_KeyRecord k "" None "hybrid" "node" "" 0%Z None Null "" "" None k 0%Z None "" ["infra:serve"] None None [])))
    (fun _ _ => inr None) (fun _ => inr None) (fun _ => inr (Some "r")) (fun _ _ _ _ => true) (fun _ _ => false).

Definition heartbeat : Attestation :=
  mk_Attestation "hb" "h1" "fam" "scores" None 30%Z None (Object [("dimension", Str ACCORD_HEARTBEAT_DIMENSION)])
    "" "sig" None "h1" 30%Z None "" [] None "federation" "federation" None [].

(** Over the sample directory every verdict is given. *)
Lemma given st : NoDup (ids_of st) -> forall now asker root, exists v, trust_root_valid rt0 (over st) now asker root = inr v.
Proof.
  intros Hnd now asker root. pose proof (holds_over st Hnd) as HS.
  destruct (String.eqb_spec asker root) as [->|Hne].
  { unfold trust_root_valid. rewrite String.eqb_refl. by eexists. }
  apply (judged_answers rt0 st [] (over st) now asker root None root KeyRoot); try done.
  - intros c h _ _. by eexists.
  - by eexists.
Qed.

Lemma ids_ok st : bool_decide (NoDup (ids_of st)) = true -> NoDup (ids_of st).
Proof. apply bool_decide_eq_true. Qed.
End AnswerSamples.
Import TrustSamples VerdictSamples AnswerSamples.

Lemma trusted_grant_exact_witness :
  exists t, capability_roots_to_trusted_root_over_roster rt0 (over store) 100%Z "u" "s" "infra:serve" [] = inr (Some t) /\
    grant_attestation_id t = "g" /\ exists g, StandingGrant rt0 store 100%Z "s" "infra:serve" g /\ root_key_id t = attesting_key_id g.
Proof.
  assert (HS : Holds store [] (over store)) by (apply holds_over, ids_ok; vm_compute; reflexivity).
  assert (E : exists t, capability_roots_to_trusted_root_over_roster rt0 (over store) 100%Z "u" "s" "infra:serve" [] = inr (Some t) /\
            grant_attestation_id t = "g" /\ conferral_plane t = Delegation)
    by (eexists; split_and!; vm_compute; reflexivity).
  destruct E as (t & E & Hid & Hp). exists t. split; [exact E|]. split; [exact Hid|].
  pose proof (trusted_grant_exact rt0 store [] (over store) HS 100%Z "u" "s" "infra:serve" [] (Some t) E) as Hx.
  destruct Hx as (_ & _ & Hplane). rewrite Hp in Hplane. destruct Hplane as (g & Hg & _ & Hr). exists g. split; assumption.
Defined.

Lemma transit_sound_witness :
  exists root, via_root (resolve_transit_eligibility rt0 (over meshed) 100%Z "u" "peer") = Some root /\ "u" <> root.
Proof.
  assert (HS : Holds meshed [] (over meshed)) by (apply holds_over, ids_ok; vm_compute; reflexivity).
  destruct (transit_sound rt0 meshed [] (over meshed) HS 100%Z "u" "peer") as (_ & _ & Hx).
  destruct Hx as (peer & root & ours & theirs & n & _ & _ & Hne & _ & _ & _ & _ & Hvia & _); [vm_compute; reflexivity|].
  exists root. split; assumption.
Defined.

Lemma transit_holds_until_witness :
  eligible (resolve_transit_eligibility rt0 (over meshed) 299%Z "u" "peer") = true.
Proof.
  assert (HS : Holds meshed [] (over meshed)) by (apply holds_over, ids_ok; vm_compute; reflexivity).
  apply (transit_holds_until rt0 meshed [] (over meshed) HS 100%Z 299%Z "u" "peer").
  - vm_compute; reflexivity.
  - lia.
  - intros b Hb. assert (Hu : valid_until (resolve_transit_eligibility rt0 (over meshed) 100%Z "u" "peer") = Some 300%Z)
      by (vm_compute; reflexivity).
    rewrite Hu in Hb. injection Hb as <-. lia.
  - intros id; reflexivity.
  - apply given, ids_ok. vm_compute; reflexivity.
Defined.

Lemma untrust_is_total_witness :
  via_root (resolve_transit_eligibility rt0 (over untrusted) 100%Z "u" "peer") <> Some "r".
Proof.
  assert (HS : Holds untrusted [] (over untrusted)) by (apply holds_over, ids_ok; vm_compute; reflexivity).
  apply (untrust_is_total rt0 untrusted [] (over untrusted) HS 100%Z "u" "r").
  intros e He Hby Hto Hty. exists (composer "w" "u" "r" "withdraws" "e" 60%Z). split; [simpl; tauto|].
  simpl in He. repeat (destruct He as [<-|He]; [first [discriminate Hby|discriminate Hto|destruct Hty; discriminate
    |repeat split; vm_compute; reflexivity]|]). destruct He.
Defined.

Lemma conferral_is_the_signers_witness :
  confers_now (over store) grant = inr true /\
  confers_now (over (store ++ [composer "f2" "mallory" "s" "supersedes" "g" 70%Z])) grant = inr true.
Proof.
  set (new := [composer "f2" "mallory" "s" "supersedes" "g" 70%Z]).
  assert (HS : Holds store [] (over store)) by (apply holds_over, ids_ok; vm_compute; reflexivity).
  assert (HS' : Holds (store ++ new) [] (over (store ++ new))) by (apply holds_over, ids_ok; vm_compute; reflexivity).
  assert (E : confers_now (over store) grant = inr true) by (vm_compute; reflexivity).
  split; [exact E|]. apply (proj1 (conferral_is_the_signers store new [] [] (over store) (over (store ++ new)) HS HS' grant)).
  - intros r [<-|[]]. discriminate.
  - exact E.
Defined.

Lemma serve_tier_exact_witness :
  exists o a, owner_of (directory_over (fun q => inr (answer store q)) store [] serving) "s" = inr (Some o) /\
    OwnerGrant rt0 store 100%Z "s" o INFRA_SERVE_SCOPE a.
Proof.
  set (dir := directory_over (fun q => inr (answer store q)) store [] serving).
  assert (HS : Holds store [] dir) by (apply directory_over_holds; [apply ids_ok; vm_compute; reflexivity|reflexivity]).
  assert (E : resolve_serve_tier_over_roster rt0 dir 100%Z "s" "u" [] = inr MeshServer) by (vm_compute; reflexivity).
  destruct (serve_tier_exact rt0 store [] dir HS 100%Z "s" "u" [] MeshServer E) as [_ Hm].
  destruct (proj1 Hm eq_refl) as (_ & p & _ & _ & o & a & Ho & Ha). exists o, a. split; assumption.
Defined.

Lemma relay_exact_witness :
  exists v, may_relay_accord_attestation rt0 family_dir 100%Z "u" heartbeat = inr v /\ may_relay v = true /\
    exists roster, active_roster_of family_dir 100%Z "fam" = inr (Some roster) /\ In "h1" roster.
Proof.
  assert (HS : Holds [family_edge; family_charter] [] family_dir)
    by (apply directory_over_holds; [apply ids_ok; vm_compute; reflexivity|reflexivity]).
  assert (E : exists v, may_relay_accord_attestation rt0 family_dir 100%Z "u" heartbeat = inr v /\ may_relay v = true)
    by (eexists; split; vm_compute; reflexivity).
  destruct E as (v & E & Hv). exists v. split; [exact E|]. split; [exact Hv|].
  destruct (relay_exact rt0 _ [] family_dir HS 100%Z "u" heartbeat v E) as [_ Hx].
  destruct (proj1 Hx Hv) as (_ & root & src & Hc & _ & _ & Hseat & _).
  assert (Er : accord_root_claim heartbeat = Named "fam" HeartbeatDimensionRule) by (vm_compute; reflexivity).
  rewrite Er in Hc. injection Hc as <- _. exact Hseat.
Defined.
