(* ===== verification/Charter.v ===== *)
(** * The charter doors

    The admission gates of [trust_root.rs] for root charters: [CommittedKey],
    [pre_rotation_commitment], [check_charter_witness_quorum],
    [check_trust_charter_admission], [check_family_charter_admission] and
    [check_accord_recovery_commitments]. A refusal is a constructor of [CharterError] per
    place the source raises one; the texts are not modelled. The JCS writer, SHA-256 and the
    hex printer are third-party crates: class [CommitmentCrypto]. *)

From Stdlib Require Import ZArith NArith Lia Ascii String.
From stdpp Require Import base list strings gmap sorting.
From S2P Require Import Prelude RustStd Utf8 Json Canonical Precedence ReverseQuorum Consensus Matcher Query TrustRoot TrustBounded TrustGrants TrustVerdict AuditBytes.

Open Scope string_scope.
Open Scope list_scope.
Open Scope persist_scope.

(** ** Names and refusals *)

Definition CHARTER_RECOVERS_FIELD := "recovers".
Definition CHARTER_SUCCESSOR_KEYS_FIELD := "successor_keys".
Definition WITNESS_QUORUM := "witness_quorum".
Definition RECOVERY_COMMITMENTS := "recovery_commitments".

Inductive CharterError :=
| Reading (e : Error)
| WitnessQuorumBelowMajority
| NoMlDsaKey (key_id : string)
| NoEd25519Key (key_id : string)
| EmptyCommitment
| RepeatedKey
| Uncanonical (e : Error)
| NotRecoverable
| RecoveryEmpty
| AttesterNotSuccessor
| SuccessorUnknown (key_id : string)
| Unbound (computed : string)
| RecoveryHalf
| NoConstitutionalRootYet
| BelowFamilyQuorum (q : CharterQuorum)
| RecoveryCommitmentMissing (holder : option string)
| SharedRecoveryKey (commitment : string)
| RecoveryKeyNotApart (owner holder : string).

(** The [?] on a directory read. *)
Definition reading {A} (m : Error + A) : CharterError + A :=
  match m with inl e => inl (Reading e) | inr x => inr x end.

Definition refuse_if (b : bool) (e : CharterError) : CharterError + unit := if b then inl e else inr tt.

(** ** Commitments *)

Record CommittedKey := mk_CommittedKey {
  ck_key_id : string;
  ck_pubkey_ed25519_base64 : string;
  ck_pubkey_ml_dsa_65_base64 : string;
}.

(** [CommittedKey::from_record]. *)
Definition from_record (r : KeyRecord) : CharterError + CommittedKey :=
  match pubkey_ml_dsa_65_base64 r with
  | Some mldsa =>
      if mldsa =s "" then inl (NoMlDsaKey (kr_key_id r))
      else if pubkey_ed25519_base64 r =s "" then inl (NoEd25519Key (kr_key_id r))
      else inr (mk_CommittedKey (kr_key_id r) (pubkey_ed25519_base64 r) mldsa)
  | None => inl (NoMlDsaKey (kr_key_id r))
  end.

(** The element a key serializes to. *)
Definition element (k : CommittedKey) : Value :=
  Object [("key_id", Str (ck_key_id k)); ("pubkey_ed25519_base64", Str (ck_pubkey_ed25519_base64 k));
          ("pubkey_ml_dsa_65_base64", Str (ck_pubkey_ml_dsa_65_base64 k))].

(** The members are Rust strings. *)
Definition utf8_key (k : CommittedKey) : Prop :=
  utf8_valid (ck_key_id k) = true /\ utf8_valid (ck_pubkey_ed25519_base64 k) = true /\
  utf8_valid (ck_pubkey_ml_dsa_65_base64 k) = true.

(** The JCS writer (RFC 8785: equal bytes are equal values), SHA-256, and [hex::encode]. *)
Class CommitmentCrypto := {
  jcs : Value -> Error + string;
  sha256 : string -> string;
  hex_encode : string -> string;
  jcs_binds : forall ks ks' c, Forall utf8_key ks -> Forall utf8_key ks' ->
    jcs (Array (map element ks)) = inr c -> jcs (Array (map element ks')) = inr c -> ks = ks';
  hex_encode_inj : forall s t, hex_encode s = hex_encode t -> s = t;
}.

(** [windows(2).any(|w| w[0].key_id == w[1].key_id)]. *)
Fixpoint adjacent_repeat (ks : list CommittedKey) : bool :=
  match ks with
  | k :: (k' :: _) as ks' => (ck_key_id k =s ck_key_id k') || adjacent_repeat ks'
  | _ => false
  end.

Definition by_key_id (a b : CommittedKey) : bool := ck_key_id a <s ck_key_id b.

Section Commitments.
Context `{CommitmentCrypto}.

Definition pre_rotation_commitment (keys : list CommittedKey) : CharterError + string :=
  match keys with
  | [] => inl EmptyCommitment
  | _ =>
      let sorted := sort_by by_key_id keys in
      if adjacent_repeat sorted then inl RepeatedKey
      else match ceg_produce_canonicalize jcs (Array (map element sorted)) with
           | inl e => inl (Uncanonical e)
           | inr canonical => inr (hex_encode (sha256 canonical))
           end
  end.

Definition recovery_commitment (recovery_key : CommittedKey) : CharterError + string :=
  pre_rotation_commitment [recovery_key].
End Commitments.

(** ** The gates *)

Definition check_charter_witness_quorum (envelope : Value) : CharterError + unit :=
  refuse_if (bool_decide ((v ← get envelope WITNESS_QUORUM; as_u64 v) = Some 1%N)) WitnessQuorumBelowMajority.

(** [serde_json::from_value::<Vec<String>>]. *)
Definition strings_of (v : Value) : option (list string) :=
  match v with Array l => mapM as_str l | _ => None end.

(** [serde_json::from_value::<BTreeMap<String, String>>]: the members in key order. *)
Definition string_map_of (v : Value) : option (list (string * string)) :=
  match v with
  | Object m => kvs ← mapM (fun kv : string * Value => s ← as_str kv.2; Some (kv.1, s)) m;
                Some (sort_by (fun a b => fst a <s fst b) kvs)
  | _ => None
  end.

(** The closure [well_formed] of the recovery commitments. *)
Definition well_formed (h : string) : bool := Nat.eqb (String.length h) 64 && all_bytes lower_hex h.

(** The first element already seen: [find(|c| !seen.insert(c))]. *)
Fixpoint first_repeat (seen : list string) (l : list string) : option string :=
  match l with
  | [] => None
  | c :: l' => if contains seen c then Some c else first_repeat (c :: seen) l'
  end.

Section Gates.
Context (rt : RowTypes) `{StrictMajority} `{TrustBuild} `{CommitmentCrypto} (dir : Directory).

(** The loop over the successors: each one's element, from the record held for it. *)
Fixpoint presented (successor_keys : list string) : CharterError + list CommittedKey :=
  match successor_keys with
  | [] => inr []
  | key_id :: rest =>
      found ← reading (lookup_public_key dir key_id);
      match found with
      | None => inl (SuccessorUnknown key_id)
      | Some record =>
          k ← from_record record;
          ks ← presented rest;
          inr (k :: ks)
      end
  end.

(** A live row of the old root that names the commitment. *)
Definition binds (received_at : instant) (dead : gset string) (old_root claimed : string) (a : Attestation) : bool :=
  (Json.attestation_type a =s attestation_type.DELEGATES_TO)
  && (attested_key_id a =s old_root)
  && negb (bool_decide (attestation_id a ∈ dead))
  && negb (is_expired a received_at)
  && counts_in_capability_walk a
  && bool_decide (get_str (attestation_envelope a) CHARTER_PRE_ROTATION_FIELD = Some claimed).

(** The recovery declaration of both members. *)
Definition check_recovery (received_at : instant) (attester old_root : string) (successor_keys : list string)
    : CharterError + unit :=
  if (old_root =s "") || is_nil successor_keys then inl RecoveryEmpty
  else if negb (contains successor_keys attester) then inl AttesterNotSuccessor
  else
    ks ← presented successor_keys;
    claimed ← pre_rotation_commitment ks;
    by_old ← reading (read_pages dir (by_key old_root FOLD_PAGE));
    refuse_if (negb (existsb (binds received_at (tombstoned_ids rt by_old) old_root claimed) by_old)) (Unbound claimed).

Definition has_infra_scope (envelope : Value) : bool :=
  match get envelope "scope" with
  | Some (Str s) => starts_with "infra:" s
  | Some (Array items) => existsb (fun v => is_some_and (as_str v) (starts_with "infra:")) items
  | _ => false
  end.

Definition check_trust_charter_admission (ty attesting attested : string) (envelope : Value)
    (received_at : instant) : CharterError + unit :=
  if (ty <>s attestation_type.DELEGATES_TO) || (attesting <>s attested) then inr tt
  else if negb (has_infra_scope envelope) then inr tt
  else
    _ ← check_charter_witness_quorum envelope;
    if negb (charter_commitment_well_formed envelope) then inl NotRecoverable
    else
      match get_str envelope CHARTER_RECOVERS_FIELD,
            (v ← get envelope CHARTER_SUCCESSOR_KEYS_FIELD; strings_of v) with
      | None, None => inr tt
      | Some old_root, Some successor_keys => check_recovery received_at attesting old_root successor_keys
      | _, _ => inl RecoveryHalf
      end.

(** The holder whose commitment names a signing key of a charter holder. *)
Fixpoint apart (commitments : list (string * string)) (holders : list string) : CharterError + unit :=
  match holders with
  | [] => inr tt
  | holder :: rest =>
      found ← reading (lookup_public_key dir holder);
      match found with
      | None => apart commitments rest
      | Some record =>
          match from_record record with
          | inl _ => apart commitments rest
          | inr signing =>
              c ← recovery_commitment signing;
              match List.find (fun oc => snd oc =s c) commitments with
              | Some (owner, _) => inl (RecoveryKeyNotApart owner holder)
              | None => apart commitments rest
              end
          end
      end
  end.

Definition check_accord_recovery_commitments (envelope : Value) : CharterError + unit :=
  match (v ← get envelope RECOVERY_COMMITMENTS; string_map_of v) with
  | None => inl (RecoveryCommitmentMissing None)
  | Some commitments =>
      match List.find (fun hc => negb (well_formed (snd hc))) commitments with
      | Some (holder, _) => inl (RecoveryCommitmentMissing (Some holder))
      | None =>
          match first_repeat [] (map snd commitments) with
          | Some dup => inl (SharedRecoveryKey dup)
          | None => apart commitments (map fst commitments)
          end
      end
  end.

Definition check_family_charter_admission (now : instant) (row : Attestation) : CharterError + unit :=
  if (Json.attestation_type row <>s attestation_type.DELEGATES_TO)
     || (attesting_key_id row =s attested_key_id row)
     || negb (bool_decide (envelope_dimension (attestation_envelope row) = Some TRUST_CHARTER_DIMENSION))
  then inr tt
  else
    _ ← check_charter_witness_quorum (attestation_envelope row);
    fam ← reading (resolve_family_root dir (attested_key_id row));
    match fam with
    | None =>
        refuse_if (attested_key_id row =s accord_family_key_id) NoConstitutionalRootYet
    | Some family =>
        if negb (charter_commitment_well_formed (attestation_envelope row)) then inl NotRecoverable
        else
          quorum ← reading (family_quorum_over dir now row family);
          if negb (met quorum) then inl (BelowFamilyQuorum quorum)
          else if family_key_id family =s accord_family_key_id
               then check_accord_recovery_commitments (attestation_envelope row)
               else inr tt
    end.
End Gates.

(** ** Commitments bind keys *)

Lemma repeat_free l :
  StronglySorted (fun a b => by_key_id b a = false) l -> adjacent_repeat l = false -> NoDup (map ck_key_id l).
Proof.
  induction 1 as [|x l Hs IH Hx]; intros Hr; cbn [map]; [constructor|].
  destruct l as [|y l]; [constructor; [by apply not_elem_of_nil|constructor]|].
  cbn [adjacent_repeat] in Hr. apply orb_false_iff in Hr as [Hxy Hr]. apply String.eqb_neq in Hxy.
  constructor; [|by apply IH]. intros Hin. apply list_elem_of_In, in_map_iff in Hin as (z & Ez & Hz).
  assert (Hlt : by_key_id x y = true).
  { destruct (by_key_id x y) eqn:E; [done|]. exfalso. apply Hxy, string_ltb_total; [done|].
    inversion Hx; subst. done. }
  destruct Hz as [->|Hz]; [done|].
  assert (Hyz : by_key_id z y = false).
  { inversion Hs as [|? ? ? Hy]; subst. rewrite Forall_forall in Hy. apply Hy. by apply list_elem_of_In. }
  unfold by_key_id in *. rewrite Ez in Hyz. congruence.
Qed.

Section Binding.
Context `{CommitmentCrypto}.

(** A collision of the digest on two given key lists: the bytes their commitments are over
    differ and have the same digest. *)
Definition collision (ks ks' : list CommittedKey) : Prop :=
  exists x y, jcs (Array (map element (sort_by by_key_id ks))) = inr x /\
    jcs (Array (map element (sort_by by_key_id ks'))) = inr y /\ x <> y /\ sha256 x = sha256 y.

Lemma commitment_inv ks c :
  pre_rotation_commitment ks = inr c ->
  exists bytes, jcs (Array (map element (sort_by by_key_id ks))) = inr bytes /\ c = hex_encode (sha256 bytes) /\
    NoDup (map ck_key_id ks) /\ ks <> [].
Proof.
  unfold pre_rotation_commitment. destruct ks as [|k ks]; [done|]. set (l := k :: ks). cbv zeta.
  destruct (adjacent_repeat (sort_by by_key_id l)) eqn:Er; [done|].
  unfold ceg_produce_canonicalize, canonicalizer_for, produce_canon_version.
  destruct (jcs _) as [e|bytes] eqn:Ej; [done|]. intros [= <-]. exists bytes. split_and!; [done..| |done].
  rewrite <- (sort_by_perm by_key_id l). apply repeat_free; [|done].
  apply (sort_by_sorted by_key_id); unfold by_key_id; eauto using string_ltb_trans, string_ltb_asym, string_ltb_cotrans.
Qed.

Lemma committed_sort ks ks' : NoDup (map ck_key_id ks) -> Permutation ks ks' -> sort_by by_key_id ks = sort_by by_key_id ks'.
Proof.
  intros Hnd Hp. apply sort_by_perm_eq; unfold by_key_id; eauto using string_ltb_trans, string_ltb_asym, string_ltb_cotrans.
  intros a b Ha Hb Hab Hba. assert (ck_key_id a = ck_key_id b) as E by (by apply string_ltb_total).
  by apply (map_key_inj ck_key_id ks).
Qed.

Lemma commitment_binds ks ks' c :
  Forall utf8_key ks -> Forall utf8_key ks' ->
  pre_rotation_commitment ks = inr c -> pre_rotation_commitment ks' = inr c ->
  Permutation ks ks' \/ collision ks ks'.
Proof.
  intros Hu Hu' E E'. apply commitment_inv in E as (b & Ej & -> & _), E' as (b' & Ej' & Eh & _).
  apply hex_encode_inj in Eh. destruct (decide (b = b')) as [<-|Hne]; [left|right; by exists b, b'].
  rewrite <- (sort_by_perm by_key_id ks), <- (sort_by_perm by_key_id ks').
  by rewrite (jcs_binds (sort_by by_key_id ks) (sort_by by_key_id ks') b) by (by rewrite ?sort_by_perm).
Qed.
End Binding.

(** ** What the recovery door checks *)

Lemma reading_ok {A} (m : Error + A) x : reading m = inr x <-> m = inr x.
Proof. destruct m; cbn [reading]; split; by intros [= ->]. Qed.

Lemma refuse_if_ok b e : refuse_if b e = inr tt <-> b = false.
Proof. by destruct b. Qed.

Section Doors.
Context (rt : RowTypes) `{StrictMajority} `{TrustBuild} `{CommitmentCrypto} (dir : Directory).

(** The key this node holds under an id, both halves. *)
Definition held_key (id : string) (k : CommittedKey) : Prop :=
  exists r, lookup_public_key dir id = inr (Some r) /\ from_record r = inr k.

Lemma presented_ok ids ks : presented dir ids = inr ks <-> Forall2 held_key ids ks.
Proof.
  revert ks. induction ids as [|id ids IH]; intros ks; cbn [presented].
  { split; [by intros [= <-]|by inversion 1]. }
  split.
  - intros E. apply bind_ok in E as ([r|] & Er & E); [|done]. apply reading_ok in Er.
    apply bind_ok in E as (k & Ek & E). apply bind_ok in E as (ks' & Eks & E). injection E as <-.
    constructor; [by exists r|by apply IH].
  - inversion 1 as [|? k ? ks' (r & Er & Ek) Hks]; subst. rewrite (proj2 (reading_ok _ _) Er), ok_bind, Ek, ok_bind.
    by rewrite (proj2 (IH ks') Hks).
Qed.

Lemma trust_charter_inv ty by_ to_ env t :
  check_trust_charter_admission rt dir ty by_ to_ env t = inr tt ->
  ty = attestation_type.DELEGATES_TO -> by_ = to_ -> has_infra_scope env = true ->
  charter_commitment_well_formed env = true /\ check_charter_witness_quorum env = inr tt /\
  match get_str env CHARTER_RECOVERS_FIELD, (v ← get env CHARTER_SUCCESSOR_KEYS_FIELD; strings_of v) with
  | None, None => True
  | Some old_root, Some ids => check_recovery rt dir t by_ old_root ids = inr tt
  | _, _ => False
  end.
Proof.
  intros E -> <- Hs. unfold check_trust_charter_admission in E. rewrite !String.eqb_refl, Hs in E. cbn [negb orb] in E.
  apply bind_ok in E as ([] & Eq & E). destruct (charter_commitment_well_formed env); cbn [negb] in E; [|done].
  split_and!; [done..|].
  destruct (get_str env CHARTER_RECOVERS_FIELD), (get env CHARTER_SUCCESSOR_KEYS_FIELD ≫= strings_of); done.
Qed.

Lemma scope_infra env s : scope_contains env ("infra:" +:+ s) = true -> has_infra_scope env = true.
Proof.
  assert (Hp : starts_with "infra:" ("infra:" +:+ s) = true) by (by destruct s).
  unfold scope_contains, has_infra_scope. destruct (get env "scope") as [v|]; [|done]. cbn [mbind option_bind].
  destruct v; cbn [ScopeSet_from_value mbind option_bind is_some_and]; try done.
  - unfold ScopeSet_contains. rewrite String.eqb_eq. by intros ->.
  - destruct (mapM as_str l) as [ts|] eqn:Em; cbn [mbind option_bind is_some_and]; [|done]. intros Hc. cbn [ScopeSet_contains] in Hc.
    apply contains_In in Hc. apply existsb_exists. destruct (proj2 (mapM_In _ _ _ Em) _ Hc) as (v & Hv & Ev).
    exists v. by rewrite Ev.
Qed.
End Doors.

(** ** Properties *)

(** A commitment names a set of keys: two key lists have the same commitment exactly when
    one is a rearrangement of the other, ids and both public keys of each key included, or
    the digest collides on the bytes of the two. *)
Theorem commitment_exact `{CommitmentCrypto} (ks ks' : list CommittedKey) (c c' : string)
    (Hu : Forall utf8_key ks) (Hu' : Forall utf8_key ks')
    (E : pre_rotation_commitment ks = inr c) (E' : pre_rotation_commitment ks' = inr c') :
  (Permutation ks ks' -> c = c') /\ (c = c' -> Permutation ks ks' \/ collision ks ks').
Proof.
  split; [|by intros <-; apply (commitment_binds ks ks' c)]. intros Hp.
  apply commitment_inv in E as (b & Ej & -> & Hnd & _), E' as (b' & Ej' & -> & _).
  rewrite (committed_sort ks ks' Hnd Hp) in Ej. congruence.
Qed.

(** C15. Only the committed keys recover a root. A recovery charter the door admits is signed
    by one of its successors, this node holds both public keys of every successor, and a
    live row of the old root about itself names their commitment: so whatever keys that row
    was committed to, they are the keys the successors' records carry, id by id and half by
    half, or the digest collides on the bytes of the two. *)
Theorem recovery_needs_committed_keys (rt : RowTypes) `{StrictMajority} `{TrustBuild} `{CommitmentCrypto}
    (store : list Attestation) (held : list string) (dir : Directory) (Hh : Holds store held dir)
    (root old_root : string) (ids : list string) (env : Value) (received_at : instant)
    (Hscope : has_infra_scope env = true) (Hrec : get_str env CHARTER_RECOVERS_FIELD = Some old_root)
    (Hsucc : (v ← get env CHARTER_SUCCESSOR_KEYS_FIELD; strings_of v) = Some ids)
    (E : check_trust_charter_admission rt dir attestation_type.DELEGATES_TO root root env received_at = inr tt) :
  In root ids /\ exists ks a c, Forall2 (held_key dir) ids ks /\ NoDup (map ck_key_id ks) /\
    pre_rotation_commitment ks = inr c /\
    In a store /\ federated a = true /\ attesting_key_id a = old_root /\ attested_key_id a = old_root /\
    Json.attestation_type a = attestation_type.DELEGATES_TO /\ is_expired a received_at = false /\
    (forall r, In r store -> ~ own_retraction a r) /\
    get_str (attestation_envelope a) CHARTER_PRE_ROTATION_FIELD = Some c /\
    forall committed, pre_rotation_commitment committed = inr c ->
      Forall utf8_key committed -> Forall utf8_key ks -> Permutation committed ks \/ collision committed ks.
Proof.
  apply trust_charter_inv in E as (_ & _ & E); [|done..]. rewrite Hrec, Hsucc in E. unfold check_recovery in E.
  destruct ((old_root =s "") || is_nil ids); [done|]. destruct (contains ids root) eqn:Ei; cbn [negb] in E; [|done].
  split; [by apply contains_In|]. apply bind_ok in E as (ks & Eks & E). apply bind_ok in E as (c & Ec & E).
  rewrite (proj2 (reading_ok _ _) (holds_pages (by_key old_root FOLD_PAGE) eq_refl)), ok_bind in E.
  apply refuse_if_ok, negb_false_iff, existsb_exists in E as (a & Ha & Hb).
  change (answer store (by_key old_root FOLD_PAGE)) with (answer store (pinned (Some old_root) None FOLD_PAGE)) in Ha, Hb.
  unfold binds, tombstoned_ids in Hb. rewrite !andb_true_iff, !negb_true_iff, !bool_decide_eq_true, bool_decide_eq_false, !String.eqb_eq in Hb.
  destruct Hb as [[[[[Hty Hto] Hdead] Hx] _] Hc]. rewrite (retired_by rt store held dir) in Hdead by done.
  apply whole_by_In in Ha as (Hin & Hf & Hby). exists ks, a, c.
  pose proof (commitment_inv ks c Ec) as (_ & _ & _ & Hnd & _).
  split_and!; try done; [by apply presented_ok|by intros r Hr Ho; apply Hdead; exists r|].
  intros K EK HK Hks. by apply (commitment_binds K ks c).
Qed.

Lemma first_repeat_none seen l : first_repeat seen l = None <-> NoDup l /\ forall c, In c l -> ~ In c seen.
Proof.
  revert seen. induction l as [|c l IH]; intros seen; cbn [first_repeat].
  { split; [intros _; split; [constructor|by intros ? []]|done]. }
  destruct (contains seen c) eqn:Ec.
  - apply contains_In in Ec. split; [done|]. intros [_ Hn]. exfalso. by apply (Hn c); [left|].
  - rewrite IH, NoDup_cons, list_elem_of_In. assert (Hc : ~ In c seen) by (rewrite <- contains_In; by rewrite Ec).
    cbn [In]. naive_solver.
Qed.

Lemma find_none_all {A} (f : A -> bool) l : List.find f l = None <-> forall x, In x l -> f x = false.
Proof.
  split; [by apply List.find_none|]. induction l as [|x l IH]; intros Hf; [done|]. cbn.
  rewrite (Hf x) by (by left). apply IH. intros y Hy. apply Hf. by right.
Qed.

Lemma apart_ok `{CommitmentCrypto} dir commitments holders :
  apart dir commitments holders = inr tt ->
  forall h k, In h holders -> held_key dir h k -> exists c, recovery_commitment k = inr c /\ ~ In c (map snd commitments).
Proof.
  induction holders as [|h holders IH]; intros E h' k Hin (r & Er & Ek); [done|]. cbn [apart] in E.
  apply bind_ok in E as (found & Ef & E). apply reading_ok in Ef. destruct Hin as [->|Hin].
  - rewrite Er in Ef. injection Ef as <-. rewrite Ek in E. apply bind_ok in E as (c & Ec & E). exists c. split; [done|].
    destruct (List.find _ commitments) as [[owner c']|] eqn:Efi; [done|]. rewrite find_none_all in Efi.
    intros (oc & Eoc & Hoc)%in_map_iff. specialize (Efi oc Hoc). by rewrite Eoc, String.eqb_refl in Efi.
  - assert (Hrest : apart dir commitments holders = inr tt).
    { destruct found as [record|]; [|done]. destruct (from_record record); [done|].
      apply bind_ok in E as (d & _ & E). by destruct (List.find _ commitments) as [[]|]. }
    apply (IH Hrest h' k Hin). by exists r.
Qed.

(** Recovery keys are held apart. Where the door admits an accord charter's recovery
    commitments, every one of them is 64 lowercase hex digits; the recovery keys of two
    holders differ; and no recovery key is the signing key this node holds for any holder
    the charter names. *)
Theorem recovery_keys_apart `{CommitmentCrypto} (dir : Directory) (env : Value)
    (E : check_accord_recovery_commitments dir env = inr tt) :
  exists commitments, (v ← get env RECOVERY_COMMITMENTS; string_map_of v) = Some commitments /\
    (forall h c, In (h, c) commitments -> well_formed c = true) /\
    NoDup (map snd commitments) /\
    forall owner c recovery, In (owner, c) commitments -> recovery_commitment recovery = inr c ->
      (forall owner' c', In (owner', c') commitments -> owner' <> owner -> recovery_commitment recovery <> inr c') /\
      (forall holder signing, In holder (map fst commitments) -> held_key dir holder signing -> signing <> recovery).
Proof.
  unfold check_accord_recovery_commitments in E. destruct (get env RECOVERY_COMMITMENTS ≫= string_map_of) as [cs|]; [|done].
  exists cs. split; [done|]. destruct (List.find _ cs) as [[h c]|] eqn:Ef; [done|]. rewrite find_none_all in Ef.
  destruct (first_repeat [] (map snd cs)) eqn:Er; [done|]. apply first_repeat_none in Er as [Hnd _]. split_and!; [|done|].
  - intros h c Hin. specialize (Ef _ Hin). by apply negb_false_iff in Ef.
  - intros owner c recovery Hin Hrec. split.
    + intros owner' c' Hin' Hne E'. rewrite Hrec in E'. injection E' as <-.
      pose proof (map_key_inj snd cs (owner, c) (owner', c) Hnd Hin Hin' eq_refl) as Eq. congruence.
    + intros holder signing Hh Hk ->. destruct (apart_ok dir cs _ E holder recovery Hh Hk) as (c' & Ec' & Hn).
      rewrite Hrec in Ec'. injection Ec' as <-. apply Hn, in_map_iff. by exists (owner, c).
Qed.

(** C8. What the door admitted, the walk can use: over a store whose self-signed grants each
    passed the charter door (whatever directory and clock it was judged with), a key root
    that declares itself at all declares itself recoverably. *)
Theorem admitted_roots_recover (rt : RowTypes) `{StrictMajority} `{TrustBuild} `{CommitmentCrypto}
    (store : list Attestation) (held : list string) (dir : Directory) (Hh : Holds store held dir)
    (now : instant) (user root : string) (v : TrustRootVerdict)
    (Hadmitted : forall a, In a store -> exists door received_at,
       check_trust_charter_admission rt door (Json.attestation_type a) (attesting_key_id a) (attested_key_id a)
         (attestation_envelope a) received_at = inr tt)
    (E : trust_root_valid rt dir now user root = inr v) (Hkey : root_arm dir root = inr (None, root, KeyRoot)) :
  charter_has_recovery v = root_self_declares v.
Proof.
  destruct (String.eqb_spec user root) as [->|Hne].
  { unfold trust_root_valid in E. rewrite String.eqb_refl in E. by injection E as <-. }
  destruct (judged rt store held dir now user root v E Hne) as (family & legs & edges & cs & HJ).
  pose proof (jd_arm _ _ _ _ _ _ _ _ _ _ _ _ HJ) as Ha. rewrite Hkey in Ha. injection Ha as <- <- _.
  rewrite (jd_recovery _ _ _ _ _ _ _ _ _ _ _ _ HJ), (jd_declares _ _ _ _ _ _ _ _ _ _ _ _ HJ).
  apply eq_true_iff_eq. rewrite !not_nil. apply exist_proper. intros c. rewrite filter_In. split; [by intros []|]. intros Hc. split; [done|].
  apply (jd_charters _ _ _ _ _ _ _ _ _ _ _ _ HJ) in Hc. destruct Hc as [Hin _ Hty Hto _ _ _ Hs _ [Hby _]].
  destruct (Hadmitted c Hin) as (door & t & Ed).
  by apply (trust_charter_inv rt door _ _ _ _ _ Ed) in Hty as (? & _); [|congruence|apply (scope_infra _ "serve")].
Qed.

(** The door and the walk count one quorum. For a labelled charter about a family this
    node holds, other than the accord's own, signed by another key: the door admits it
    exactly when its witness quorum is not one, it carries a well-formed commitment, and
    enough holders seated now signed it; and every such charter the walk has standing meets
    that quorum, so it is admitted exactly when the first two hold. *)
Theorem family_door_matches_walk (rt : RowTypes) `{StrictMajority} `{TrustBuild} `{CommitmentCrypto}
    (store : list Attestation) (held : list string) (dir : Directory) (now : instant) (f : Family) (a : Attestation)
    (Hty : Json.attestation_type a = attestation_type.DELEGATES_TO) (Hby : attesting_key_id a <> attested_key_id a)
    (Hdim : envelope_dimension (attestation_envelope a) = Some TRUST_CHARTER_DIMENSION)
    (Hfam : resolve_family_root dir (attested_key_id a) = inr (Some f)) (Hacc : family_key_id f <> accord_family_key_id) :
  let formed := check_charter_witness_quorum (attestation_envelope a) = inr tt /\
                charter_commitment_well_formed (attestation_envelope a) = true in
  (check_family_charter_admission dir now a = inr tt <->
     formed /\ exists q, family_quorum_over dir now a f = inr q /\ met q = true) /\
  (StandingCharter rt dir store held now (Some f) (attested_key_id a) a ->
     check_family_charter_admission dir now a = inr tt <-> formed).
Proof.
  intros formed.
  assert (Hiff : check_family_charter_admission dir now a = inr tt <->
            formed /\ exists q, family_quorum_over dir now a f = inr q /\ met q = true).
  { unfold check_family_charter_admission, formed. rewrite Hty, String.eqb_refl, (proj2 (String.eqb_neq _ _) Hby), Hdim.
    rewrite bool_decide_eq_true_2 by done. cbn [negb orb].
    destruct (check_charter_witness_quorum (attestation_envelope a)) as [e|[]]; [split; [done|by intros [[]]]|].
    rewrite ok_bind, Hfam. cbn [reading]. rewrite ok_bind.
    destruct (charter_commitment_well_formed (attestation_envelope a)); cbn [negb]; [|split; [done|by intros [[]]]].
    destruct (family_quorum_over dir now a f) as [e|q]; cbn [reading]; [split; [done|by intros (_ & q & [=] & _)]|].
    rewrite ok_bind, (proj2 (String.eqb_neq _ _) Hacc). destruct (met q) eqn:Hm; cbn [negb].
    - split; [intros _; split; [done|by exists q]|done].
    - split; [done|]. intros (_ & q' & [= <-] & Hm'). congruence. }
  split; [done|]. intros Hs. rewrite Hiff. destruct (sc_authority _ _ _ _ _ _ _ _ Hs) as (_ & _ & ms & Ems & Hm).
  split; [by intros []|]. intros Hf. split; [done|]. exists (fst (quorum_of dir f ms a)). split; [|done].
  unfold family_quorum_over, family_quorum_holders_over. fold (seated dir now f). by rewrite Ems, ok_bind.
Qed.

(** ** Concrete inputs *)

Module CharterSamples.
Import TrustSamples.

(** A writer that keeps the member order, and a digest that keeps 32 bytes of its text. *)
Definition toy_sha256 (s : string) : string := String.substring 12 32 s.

Lemma element_wf k : utf8_key k -> wf (element k).
Proof.
  intros (H1 & H2 & H3). apply wf_object. split.
  - apply (bool_decide_unpack (NoDup ["key_id"; "pubkey_ed25519_base64"; "pubkey_ml_dsa_65_base64"])). vm_compute. exact I.
  - repeat constructor; unfold wf; cbn [snd wfb]; done.
Qed.

Lemma element_canon k k' : canon (element k) = canon (element k') -> k = k'.
Proof. destruct k, k'. unfold element. rewrite !canon_object. intros E. vm_compute in E. by injection E as <- <- <-. Qed.

Lemma written_binds ks ks' c : Forall utf8_key ks -> Forall utf8_key ks' ->
  inr (A:=Error) (write_value (Array (map element ks))) = inr c ->
  inr (A:=Error) (write_value (Array (map element ks'))) = inr c -> ks = ks'.
Proof.
  intros Hu Hu' Ec Ec'.
  assert (Hw : forall l, Forall utf8_key l -> wf (Array (map element l))).
  { intros l Hl. apply wf_array, Forall_map. eapply Forall_impl; [exact Hl|]. apply element_wf. }
  assert (E : canon (Array (map element ks)) = canon (Array (map element ks'))).
  { apply write_value_iff; [by apply Hw..|]. congruence. }
  cbn [canon] in E. injection E as E. rewrite !map_map in E. clear -E. revert ks' E.
  induction ks as [|k ks IH]; intros [|k' ks'] E; try done. cbn [map] in E.
  pose proof (f_equal (hd Null) E) as E1. pose proof (f_equal (@tl _) E) as E2.
  f_equal; [by apply element_canon|by apply IH].
Qed.

#[export] Instance toy_crypto : CommitmentCrypto := {|
  jcs := fun v => inr (write_value v);
  sha256 := toy_sha256;
  hex_encode := HexText.hex;
  jcs_binds := written_binds;
  hex_encode_inj := HexText.hex_inj;
|}.

Definition k1 := mk_CommittedKey "new-root-one" "ed1" "ml1".
Definition k2 := mk_CommittedKey "new-root-two" "ed2" "ml2".
Definition commit (ks : list CommittedKey) : string :=
  match pre_rotation_commitment ks with inr c => c | inl _ => "" end.

(** Every key is held with both halves. *)
Definition hybrid (id : string) : KeyRecord :=
  let '(ed, ml) := if id =s "new-root-one" then ("ed1", "ml1") else if id =s "new-root-two" then ("ed2", "ml2") else ("ed", "ml") in
  mk_KeyRecord id ed (Some ml) "hybrid" "node" "" 0%Z None Null "" "" None id 0%Z None "" [] None None [].
Definition hybrid_base : Directory :=
  mk_Directory (fun _ => inr []) (fun _ _ _ => inr []) (fun _ => inr []) (fun _ => inr None) (fun _ => inr [])
    (fun _ => inr None) (fun _ _ => inr []) (fun _ => inr []) (fun _ => inr false) (fun _ => inr false)
    (fun k => inr (Some (hybrid k))) (fun _ _ => inr None) (fun _ => inr None) (fun _ => inr None)
    (fun _ _ _ _ => true) (fun _ _ => false).

Definition old_charter := deleg "oc" "old" "old" TRUST_CHARTER_DIMENSION 5%Z
  [("scope", Array [Str "infra:serve"]); ("pre_rotation_commitment", Str (commit [k2; k1]))].
Definition recovery_store : list Attestation := [old_charter].
Definition recovery_dir : Directory :=
  directory_over (fun q => inr (answer recovery_store q)) recovery_store [] hybrid_base.
Definition recovery_envelope : Value :=
  Object [("scope", Array [Str "infra:serve"]); ("pre_rotation_commitment", Str commitment);
          ("recovers", Str "old"); ("successor_keys", Array [Str "new-root-one"; Str "new-root-two"])].

Definition accord_envelope : Value :=
  Object [("recovery_commitments", Object [("h1", Str (commit [k1])); ("h2", Str (commit [k2]))])].

Lemma sample_utf8 : Forall utf8_key [k1; k2].
Proof. repeat constructor; vm_compute; reflexivity. Qed.
End CharterSamples.
Import TrustSamples VerdictSamples CharterSamples.

Lemma commitment_exact_witness : commit [k1; k2] = commit [k2; k1].
Proof.
  apply (commitment_exact [k1; k2] [k2; k1] (commit [k1; k2]) (commit [k2; k1])).
  - exact sample_utf8.
  - apply (Permutation_Forall (Permutation_swap k2 k1 [])), sample_utf8.
  - vm_compute; reflexivity.
  - vm_compute; reflexivity.
  - apply Permutation_swap.
Defined.

Lemma recovery_needs_committed_keys_witness : In "new-root-one" ["new-root-one"; "new-root-two"].
Proof.
  assert (HS : Holds recovery_store [] recovery_dir).
  { apply directory_over_holds; [|reflexivity]. apply (bool_decide_unpack (NoDup (ids_of recovery_store))).
    vm_compute. exact I. }
  apply (recovery_needs_committed_keys PrecedenceSamples.rt0 recovery_store [] recovery_dir HS "new-root-one" "old"
           ["new-root-one"; "new-root-two"] recovery_envelope 100%Z); vm_compute; reflexivity.
Defined.

Lemma recovery_keys_apart_witness :
  exists cs, (v ← get accord_envelope RECOVERY_COMMITMENTS; string_map_of v) = Some cs /\ NoDup (map snd cs).
Proof.
  destruct (recovery_keys_apart recovery_dir accord_envelope) as (cs & E & _ & Hnd & _); [vm_compute; reflexivity|].
  exists cs. split; assumption.
Defined.

Lemma admitted_roots_recover_witness :
  exists v, trust_root_valid PrecedenceSamples.rt0 (over [edge; charter]) 100%Z "u" "r" = inr v /\
    charter_has_recovery v = root_self_declares v.
Proof.
  assert (HS : Holds [edge; charter] [] (over [edge; charter])).
  { apply holds_over, (bool_decide_unpack (NoDup (ids_of [edge; charter]))). vm_compute. exact I. }
  assert (E : exists v, trust_root_valid PrecedenceSamples.rt0 (over [edge; charter]) 100%Z "u" "r" = inr v)
    by (eexists; vm_compute; reflexivity).
  destruct E as (v & E). exists v. split; [exact E|].
  apply (admitted_roots_recover PrecedenceSamples.rt0 [edge; charter] [] (over [edge; charter]) HS 100%Z "u" "r" v).
  - intros a Ha. exists recovery_dir, 50%Z. destruct Ha as [<-|[<-|[]]]; vm_compute; reflexivity.
  - exact E.
  - vm_compute; reflexivity.
Defined.

Lemma family_door_matches_walk_witness :
  check_family_charter_admission family_dir 100%Z family_charter = inr tt.
Proof.
  refine (proj2 (proj1 (family_door_matches_walk PrecedenceSamples.rt0 [] [] family_dir 100%Z fam family_charter _ _ _ _ _)) _);
    [reflexivity|discriminate|vm_compute; reflexivity|vm_compute; reflexivity|discriminate|].
  split; [split; vm_compute; reflexivity|]. eexists. split; vm_compute; reflexivity.
Defined.
