(* ===== verification/Roster.v ===== *)
(** * The authorized roster fold

    [src/src/federation/mod.rs]: who is a member of a family or a room at an instant. A
    record names the founding members; dated events add and remove; each event is applied
    only if it has standing against the roster built so far. [BTreeMap] is [gmap], read in
    key order by [entries]. The texts of a refusal are not modelled. *)

From Stdlib Require Import ZArith NArith Lia Ascii String.
From stdpp Require Import base list strings gmap sorting.
From S2P Require Import Prelude RustStd Json ReverseQuorum Consensus TwoPath.

Open Scope string_scope.
Open Scope list_scope.
Open Scope persist_scope.

(** ** Members, seats that bear [node], rules *)

(** [types.rs], [struct CommunityMember]. *)
Record CommunityMember := mk_CommunityMember {
  cm_key_id : string;
  cm_joined_at : instant;
  cm_role : option string;
}.

(** Half-open, [None] without end. *)
Notation InstantInterval := (instant * option instant)%type.

Definition in_interval (t : instant) (iv : InstantInterval) : bool :=
  (fst iv <=? t)%Z && match snd iv with Some e => (t <? e)%Z | None => true end.

Record NodeBearingSeats := mk_NodeBearingSeats {
  nb_own : gset string;
  nb_occurrence : gmap string (list InstantInterval);
}.

Definition NO_NODE_BEARING_SEATS : NodeBearingSeats := mk_NodeBearingSeats ∅ ∅.

(** [NodeBearingSeats::at]. *)
Definition bears_node (n : NodeBearingSeats) (key : string) (t : instant) : bool :=
  bool_decide (key ∈ nb_own n)
  || match nb_occurrence n !! key with Some ivs => existsb (in_interval t) ivs | None => false end.

Record RosterRules := mk_RosterRules {
  rr_protocol : string;
  rr_subkind : option string;
  rr_policy_blob : option Value;
  rr_node_bearing : NodeBearingSeats;
}.

(** [RosterRules::of_family]. *)
Definition of_family (consensus_protocol : string) : RosterRules :=
  mk_RosterRules consensus_protocol None None NO_NODE_BEARING_SEATS.

Record RosterEvent := mk_RosterEvent {
  effective_at : instant;
  re_is_add : bool;
  member : CommunityMember;
  re_signers : gset string;
  moderator_roots : gset string;
  reversed : bool;
}.

(** The member an event is about. *)
Definition event_key (e : RosterEvent) : string := cm_key_id (member e).

(** For every key id met, whether it is active, and the member last applied. *)
Notation RosterState := (gmap string (bool * CommunityMember)).

(** The entries in key order. *)
Definition entries {A} (m : gmap string A) : list (string * A) :=
  sort_by (fun a b => fst a <s fst b) (map_to_list m).

Definition is_founder_member (m : CommunityMember) : bool := opt_is (cm_role m) MEMBER_ROLE_FOUNDER.

Definition active (state : RosterState) (k : string) : bool :=
  match state !! k with Some (true, _) => true | _ => false end.

(** The closure [is_f]. *)
Definition seated_founder (state : RosterState) (k : string) : bool :=
  match state !! k with Some (true, m) => is_founder_member m | _ => false end.

(** When each active member's current membership began; [None] is from the record. *)
Notation RosterSpans := (gmap string (option instant)).

(** ** Standing *)

Inductive RosterRefusal :=
| AuthorityNotEstablished
| ConsensusInsufficient
| ConsensusUnevaluable
| LastFounder.

Section Standing.
Context `{StrictMajority}.

(** The closure [is_active_founder]. *)
Definition is_active_founder (rules : RosterRules) (state : RosterState) (t : instant) (k : string) : bool :=
  seated_founder state k && negb (bears_node (rr_node_bearing rules) k t).

Definition moderator_may_act (rules : RosterRules) (e : RosterEvent) : bool :=
  negb (bool_decide (moderator_roots e = ∅))
  && (re_is_add e || (rr_protocol rules <>s cp.OPEN_SELF_ADMIT)).

Definition standing_without_protocol (rules : RosterRules) (e : RosterEvent) : bool :=
  bool_decide (re_signers e = ∅)
  || (negb (re_is_add e) && bool_decide (event_key e ∈ re_signers e))
  || moderator_may_act rules e.

Definition seats_of (rules : RosterRules) (state : RosterState) (t : instant) : list Seat :=
  map (fun m => mk_Seat (cm_key_id m) (cm_role m) (bears_node (rr_node_bearing rules) (cm_key_id m) t))
    (map snd (List.filter fst (map snd (entries state)))).

Definition ballot_of (rules : RosterRules) (state : RosterState) (e : RosterEvent) : Ballot :=
  mk_Ballot (rr_protocol rules) (rr_subkind rules) (rr_policy_blob rules)
    (seats_of rules state (effective_at e)) (re_signers e) (if re_is_add e then Add else Remove) (Some (event_key e)).

Definition loses_founder (rules : RosterRules) (state : RosterState) (e : RosterEvent) : bool :=
  is_active_founder rules state (effective_at e) (event_key e)
  && (negb (re_is_add e) || negb (is_founder_member (member e))).

(** The counts the last-founder rule takes over the other members. *)
Definition founders_after (rules : RosterRules) (state : RosterState) (e : RosterEvent) : N :=
  len (List.filter (fun k => (k <>s event_key e) && is_active_founder rules state (effective_at e) k)
         (map fst (entries state))).
Definition others_after (state : RosterState) (e : RosterEvent) : N :=
  len (List.filter (fun kv : string * (bool * CommunityMember) => fst (snd kv) && (fst kv <>s event_key e)) (entries state)).

Definition roster_event_standing (rules : RosterRules) (state : RosterState) (e : RosterEvent) : RosterRefusal + unit :=
  _ ← (if standing_without_protocol rules e then inr tt
       else match evaluate (ballot_of rules state e) with
            | Admit => inr tt
            | Unevaluable => inl ConsensusUnevaluable
            | Insufficient =>
                if existsb (fun s => negb (bool_decide (s ∈ dom state))) (elements (re_signers e))
                then inl AuthorityNotEstablished else inl ConsensusInsufficient
            end);
  if loses_founder rules state e && N.eqb (founders_after rules state e) 0 && N.ltb 0 (others_after state e)
  then inl LastFounder else inr tt.

Definition stands (rules : RosterRules) (state : RosterState) (e : RosterEvent) : bool :=
  match roster_event_standing rules state e with inr _ => true | inl _ => false end.

(** ** The replay *)

(** By instant, an add before a removal, then by member. *)
Definition event_before (a b : RosterEvent) : bool :=
  if (effective_at a <? effective_at b)%Z then true
  else if (effective_at b <? effective_at a)%Z then false
  else if re_is_add a && negb (re_is_add b) then true
  else if negb (re_is_add a) && re_is_add b then false
  else event_key a <s event_key b.

Definition sort_roster_events (events : list RosterEvent) : list RosterEvent := sort_by event_before events.

Definition record_state (record_members : list CommunityMember) : RosterState :=
  fold_left (fun st m => <[cm_key_id m := (true, m)]> st) record_members ∅.
Definition record_spans (record_members : list CommunityMember) : RosterSpans :=
  fold_left (fun sp m => <[cm_key_id m := None]> sp) record_members ∅.

(** One turn of the loop. *)
Definition apply_event (rules : RosterRules) (acc : RosterState * RosterSpans) (e : RosterEvent)
    : RosterState * RosterSpans :=
  let '(state, spans) := acc in
  if reversed e then acc
  else if stands rules state e then
    (<[event_key e := (re_is_add e, member e)]> state,
     if negb (re_is_add e) then delete (event_key e) spans
     else if negb (active state (event_key e)) then <[event_key e := Some (effective_at e)]> spans
     else spans)
  else acc.

Definition fold_roster (record_members : list CommunityMember) (rules : RosterRules) (events : list RosterEvent)
    (as_of : instant) : RosterState * RosterSpans :=
  fold_left (apply_event rules)
    (sort_roster_events (List.filter (fun e => (effective_at e <=? as_of)%Z) events))
    (record_state record_members, record_spans record_members).

Definition authorized_roster_state_at (record_members : list CommunityMember) (rules : RosterRules)
    (events : list RosterEvent) (as_of : instant) : RosterState := fst (fold_roster record_members rules events as_of).

Definition authorized_roster_spans_at (record_members : list CommunityMember) (rules : RosterRules)
    (events : list RosterEvent) (as_of : instant) : RosterSpans := snd (fold_roster record_members rules events as_of).

(** Record order first, then the others by key. *)
Definition project_roster (record_members : list CommunityMember) (state : RosterState) : list CommunityMember :=
  omap (fun m => match state !! cm_key_id m with Some (true, x) => Some x | _ => None end) record_members
  ++ omap (fun kv : string * (bool * CommunityMember) =>
       if fst (snd kv) && negb (existsb (fun m => cm_key_id m =s fst kv) record_members)
       then Some (snd (snd kv)) else None) (entries state).

Definition authorized_roster_at (record_members : list CommunityMember) (rules : RosterRules)
    (events : list RosterEvent) (as_of : instant) : list CommunityMember :=
  project_roster record_members (authorized_roster_state_at record_members rules events as_of).
End Standing.

(** ** The unsigned fold *)

(** Its events: the record first, at the earliest instant, then the dated ones. *)
Notation dated_event := (instant * bool * CommunityMember)%type.

Definition dated_before (a b : dated_event) : bool :=
  let '(ta, xa, _) := a in let '(tb, xb, _) := b in
  if (ta <? tb)%Z then true else if (tb <? ta)%Z then false else xa && negb xb.

Definition active_roster_at (MIN_UTC : instant) (record_members : list CommunityMember)
    (widenings : list (instant * CommunityMember)) (revocations : list (instant * string)) (as_of : instant)
    : list CommunityMember :=
  let events := map (fun m => (MIN_UTC, true, m)) record_members
    ++ map (fun w : instant * CommunityMember => (fst w, true, snd w)) widenings
    ++ map (fun r : instant * string => (fst r, false, mk_CommunityMember (snd r) (fst r) None)) revocations in
  let ordered := sort_by dated_before (List.filter (fun e : dated_event => (fst (fst e) <=? as_of)%Z) events) in
  project_roster record_members
    (fold_left (fun (latest : RosterState) (e : dated_event) =>
       <[cm_key_id (snd e) := (snd (fst e), snd e)]> latest) ordered ∅).

(** ** Founder authority as intervals *)

Notation RootAuthorityIntervals := (gmap string (list InstantInterval)).

(** [ivs] minus one cut. *)
Definition subtract_cut (ivs : list InstantInterval) (cut : InstantInterval) : list InstantInterval :=
  let '(cs, ce) := cut in
  List.filter (fun iv => match snd iv with Some e => (fst iv <? e)%Z | None => true end)
    (concat (map (fun iv : InstantInterval =>
       let '(s, e) := iv in
       (if (s <? cs)%Z
        then [(s, match e with Some e => if (e <=? cs)%Z then Some e else Some cs | None => Some cs end)] else [])
       ++ match ce with
          | Some ce => if match e with Some e => (ce <? e)%Z | None => true end then [(Z.max s ce, e)] else []
          | None => []
          end) ivs)).

Definition subtract_intervals (ivs cut : list InstantInterval) : list InstantInterval := fold_left subtract_cut cut ivs.

(** [out.entry(k).or_default().push(iv)]. *)
Definition push_interval (out : RootAuthorityIntervals) (k : string) (iv : InstantInterval) : RootAuthorityIntervals :=
  <[k := default [] (out !! k) ++ [iv]]> out.

Section Authority.
Context `{StrictMajority}.

(** [RosterEvent { moderator_roots: Default::default(), ..e.clone() }]. *)
Definition unmoderated (e : RosterEvent) : RosterEvent :=
  mk_RosterEvent (effective_at e) (re_is_add e) (member e) (re_signers e) ∅ (reversed e).

(** One turn: the state, the intervals closed, and the starts open. *)
Definition authority_step (rules : RosterRules) (roots : gset string)
    (acc : RosterState * RootAuthorityIntervals * gmap string instant) (e : RosterEvent)
    : RosterState * RootAuthorityIntervals * gmap string instant :=
  let '(state, out, open) := acc in
  if reversed e || negb (stands rules state e) then acc
  else
    let state := <[event_key e := (re_is_add e, member e)]> state in
    let k := event_key e in
    if negb (bool_decide (k ∈ roots)) then (state, out, open)
    else match open !! k, seated_founder state k with
         | None, true => (state, out, <[k := effective_at e]> open)
         | Some start, false => (state, push_interval out k (start, Some (effective_at e)), delete k open)
         | _, _ => (state, out, open)
         end.

Definition root_authority_intervals (MIN_UTC : instant) (record_members : list CommunityMember) (rules : RosterRules)
    (events : list RosterEvent) (roots : gset string) : RootAuthorityIntervals :=
  let state := record_state record_members in
  let opened := List.filter (seated_founder state) (elements roots) in
  let '(_, out, open) :=
    fold_left (authority_step rules roots) (sort_roster_events (map unmoderated events))
      (state, ∅, list_to_map (map (fun r => (r, MIN_UTC)) opened)) in
  let out := fold_left (fun out (kv : string * instant) => push_interval out (fst kv) (snd kv, None)) (entries open) out in
  map_imap (fun k ivs =>
    Some (if bool_decide (k ∈ nb_own (rr_node_bearing rules)) then []
          else match nb_occurrence (rr_node_bearing rules) !! k with
               | Some cut => subtract_intervals ivs cut
               | None => ivs
               end)) out.
End Authority.

(** ** Bearing [node] through an occurrence *)

(** [types.rs], [struct OccurrenceAssertion]. *)
Record OccurrenceAssertion := mk_OccurrenceAssertion {
  oa_identity_key_id : string;
  oa_occurrence_key_id : string;
  oa_asserted_at : instant;
  oa_valid_until : option instant;
  oa_attesting_key_id : option string;
}.

(** [iter.min()]. *)
Definition earliest (l : list instant) : option instant :=
  fold_left (fun best t => Some (match best with Some b => Z.min b t | None => t end)) l None.

Definition agreed_from_in (history : list OccurrenceAssertion) (identity occurrence : string) : option instant :=
  earliest (map oa_asserted_at (List.filter (fun a =>
    (oa_identity_key_id a =s identity) && (oa_occurrence_key_id a =s occurrence)
    && opt_is (oa_attesting_key_id a) occurrence) history)).

(** When an assertion ends: its lifetime, or the first revocation in force against it. *)
Definition assertion_end (revocations : list instant) (a : OccurrenceAssertion) : option instant :=
  match earliest (List.filter (fun e => (oa_asserted_at a <=? e)%Z) revocations), oa_valid_until a with
  | Some x, Some y => Some (Z.min x y)
  | Some x, None => Some x
  | None, y => y
  end.

(** The intervals one node identity contributes. *)
Definition identity_intervals (history : list OccurrenceAssertion) (identity key_id : string) (agreed_from : instant)
    (revocations : list instant) : list InstantInterval :=
  omap (fun a =>
    if oa_identity_key_id a =s identity then
      let fin := assertion_end revocations a in
      let start := Z.max (oa_asserted_at a) agreed_from in
      if match fin with Some e => (e <=? start)%Z | None => false end then None else Some (start, fin)
    else None) history.

Section Bearing.
(** The reads: does a key's own record hold [node]; the assertions naming an occurrence; the
    instants at which an identity's revocations of an occurrence take effect. *)
Context {E : Type} (holds_node : string -> E + bool) (history_of : string -> E + list OccurrenceAssertion)
  (revocations_of : string -> string -> E + list instant).

Fixpoint node_identities (history : list OccurrenceAssertion) (key_id : string) (identities : list string)
    : E + list InstantInterval :=
  match identities with
  | [] => inr []
  | identity :: rest =>
      node_identity ← holds_node identity;
      if negb node_identity then node_identities history key_id rest
      else match agreed_from_in history identity key_id with
           | None => node_identities history key_id rest
           | Some agreed_from =>
               revocations ← revocations_of identity key_id;
               ivs ← node_identities history key_id rest;
               inr (identity_intervals history identity key_id agreed_from revocations ++ ivs)
           end
  end.

Definition node_bearing_of (key_id : string) : E + (bool * list InstantInterval) :=
  own ← holds_node key_id;
  if (own : bool) then inr (true, [])
  else
    history ← history_of key_id;
    let identities := dedup_sorted (sort_strings (List.filter (fun i => i <>s key_id) (map oa_identity_key_id history))) in
    ivs ← node_identities history key_id identities;
    inr (false, ivs).

(** The edges of an interval. *)
Definition edges_of (iv : InstantInterval) : list instant :=
  fst iv :: match snd iv with Some e => [e] | None => [] end.

Definition node_bearing_at_with_next (key_id : string) (t : instant) : E + (bool * option instant) :=
  '(own, intervals) ← node_bearing_of key_id;
  inr (own || existsb (in_interval t) intervals,
       earliest (List.filter (fun edge => (t <? edge)%Z) (concat (map edges_of intervals)))).
End Bearing.

(** ** From stored rows to events *)

(** [types.rs], [struct RosterEventSigner] and [struct CommunityRosterSigners]. *)
Record RosterEventSigner := mk_RosterEventSigner {
  rs_member_key_id : string;
  rs_effective_at : instant;
  rs_authority_key_id : option string;
  rs_cosigner_key_ids : list string;
}.

Record CommunityRosterSigners := mk_CommunityRosterSigners {
  record_authority_key_id : option string;
  widening_signers : list RosterEventSigner;
  revocation_signers : list RosterEventSigner;
}.

Record StoredRosterEvent := mk_StoredRosterEvent {
  st_is_add : bool;
  st_member : CommunityMember;
  st_effective_at : instant;
  st_row_hash : string;
}.

Definition signer_set (s : RosterEventSigner) : gset string :=
  match rs_authority_key_id s with Some a => {[a]} | None => ∅ end ∪ list_to_set (rs_cosigner_key_ids s).

(** The signer row of a stored event. *)
Definition row_signer (signers : CommunityRosterSigners) (ev : StoredRosterEvent) : option RosterEventSigner :=
  List.find (fun s => (rs_member_key_id s =s cm_key_id (st_member ev)) && (rs_effective_at s =? st_effective_at ev)%Z)
    (if st_is_add ev then widening_signers signers else revocation_signers signers).

(** An event before moderators and reversals, and the actor its objections would name. *)
Definition first_pass (signers : CommunityRosterSigners) (ev : StoredRosterEvent) : RosterEvent :=
  mk_RosterEvent (st_effective_at ev) (st_is_add ev) (st_member ev)
    (match row_signer signers ev with Some s => signer_set s | None => ∅ end) ∅ false.

Definition reverse_candidate (rules : RosterRules) (signers : CommunityRosterSigners) (ev : StoredRosterEvent)
    : option (string * string) :=
  if starts_with REVERSE_QUORUM_PREFIX (rr_protocol rules) then
    s ← row_signer signers ev; actor ← rs_authority_key_id s; Some (actor, st_row_hash ev)
  else None.

Definition roster_reversal_stands (add : bool) (fold : ReverseQuorumFold) : bool :=
  match standing fold with
  | Reversed => negb add || N.leb (min_count Voters) (distinct_objectors fold)
  | _ => false
  end.

Definition set_moderators (e : RosterEvent) (roots : gset string) : RosterEvent :=
  mk_RosterEvent (effective_at e) (re_is_add e) (member e) (re_signers e) roots (reversed e).
Definition set_reversed (e : RosterEvent) (b : bool) : RosterEvent :=
  mk_RosterEvent (effective_at e) (re_is_add e) (member e) (re_signers e) (moderator_roots e) b.

(** The reads and folds of other modules that [prepare_roster_events] asks, for one group. *)
Record GroupReads (E : Type) := mk_GroupReads {
  is_steward_bound : string -> E + bool;
  moderation_reach_of_at_within : string -> instant -> list InstantInterval -> E + list string;
  moderation_reach_of_at : string -> instant -> E + list string;
  (** The objection fold: roster, policy, duty holders, actor, action, instant. *)
  resolve_reverse_quorum_with :
    list string -> option ReverseQuorumPolicy -> option (list string) -> string -> string -> instant -> E + ReverseQuorumFold;
}.
Arguments is_steward_bound {E}.
Arguments moderation_reach_of_at_within {E}.
Arguments moderation_reach_of_at {E}.
Arguments resolve_reverse_quorum_with {E}.

Section Prepare.
Context `{StrictMajority} {E : Type} (reads : GroupReads E) (MIN_UTC : instant).

Fixpoint moderator_roots_at (intervals : RootAuthorityIntervals) (signers : gset string) (at_ : instant)
    (roots : list string) : E + gset string :=
  match roots with
  | [] => inr ∅
  | root :: rest =>
      if bool_decide (root ∈ signers) then moderator_roots_at intervals signers at_ rest
      else
        bound ← is_steward_bound reads root;
        if negb bound then moderator_roots_at intervals signers at_ rest
        else match intervals !! root with
             | None | Some [] => moderator_roots_at intervals signers at_ rest
             | Some iv =>
                 reach ← moderation_reach_of_at_within reads root at_ iv;
                 out ← moderator_roots_at intervals signers at_ rest;
                 inr (if existsb (fun k => bool_decide (k ∈ signers)) reach then {[root]} ∪ out else out)
             end
  end.

(** The second pass: each signed event's moderators. *)
Fixpoint second_pass (intervals : RootAuthorityIntervals) (roots : gset string) (events : list RosterEvent)
    : E + list RosterEvent :=
  match events with
  | [] => inr []
  | e :: rest =>
      e' ← (if bool_decide (re_signers e = ∅) then inr e
            else ms ← moderator_roots_at intervals (re_signers e) (effective_at e) (sort_strings (elements roots));
                 inr (set_moderators e ms));
      rest' ← second_pass intervals roots rest;
      inr (e' :: rest')
  end.

(** The duty holders of a group with a moderation plane. *)
Fixpoint duty_holders_of (rules : RosterRules) (now : instant) (state : list (string * (bool * CommunityMember)))
    : E + gset string :=
  match state with
  | [] => inr ∅
  | (k, (act, m)) :: rest =>
      if act && is_founder_member m && negb (bears_node (rr_node_bearing rules) k now) then
        bound ← is_steward_bound reads k;
        if negb bound then duty_holders_of rules now rest
        else
          reach ← moderation_reach_of_at reads k now;
          out ← duty_holders_of rules now rest;
          inr ({[k]} ∪ list_to_set reach ∪ out)
      else duty_holders_of rules now rest
  end.

(** The third pass: whether objections reversed a candidate. *)
Fixpoint third_pass (roster0 : list string) (policy : option ReverseQuorumPolicy) (duty_holders : option (list string))
    (events : list (RosterEvent * option (string * string))) : E + list RosterEvent :=
  match events with
  | [] => inr []
  | (e, None) :: rest => rest' ← third_pass roster0 policy duty_holders rest; inr (e :: rest')
  | (e, Some (actor, row_hash)) :: rest =>
      fold ← resolve_reverse_quorum_with reads roster0 policy duty_holders actor row_hash (effective_at e);
      rest' ← third_pass roster0 policy duty_holders rest;
      inr (set_reversed e (roster_reversal_stands (re_is_add e) fold) :: rest')
  end.

Definition prepare_roster_events (now : instant) (record_members : list CommunityMember) (rules : RosterRules)
    (stored : list StoredRosterEvent) (signers : CommunityRosterSigners) (moderation_roots : option (gset string))
    : E + list RosterEvent :=
  let events := map (first_pass signers) stored in
  let candidates := map (reverse_candidate rules signers) stored in
  events ←
    match moderation_roots with
    | Some roots => second_pass (root_authority_intervals MIN_UTC record_members rules events roots) roots events
    | None => inr events
    end;
  if forallb (fun c => negb (is_some c)) candidates then inr events
  else
    let state0 := authorized_roster_state_at record_members rules events now in
    let roster0 := map fst (List.filter (fun kv : string * (bool * CommunityMember) => fst (snd kv)) (entries state0)) in
    let policy := parse (rr_protocol rules) in
    duty_holders ←
      (if is_some moderation_roots && is_some (p ← policy; steward p)
       then out ← duty_holders_of rules now (entries state0); inr (Some (sort_strings (elements out)))
       else inr None);
    third_pass roster0 policy duty_holders (combine events candidates).
End Prepare.
