(* ===== verification/RosterFold.v ===== *)
(** * What the roster fold answers for

    The replay of [Roster] read as statements about its events: the order they arrived in
    has no part, how each member came to be seated, when a founder can be lost, what a
    departure takes, and when each membership began. *)

From Stdlib Require Import ZArith NArith Lia Ascii String.
From stdpp Require Import base list strings gmap sorting.
From S2P Require Import Prelude RustStd Json ReverseQuorum Consensus TwoPath Roster.

Open Scope string_scope.
Open Scope list_scope.
Open Scope persist_scope.

(** ** Maps read in key order *)

Lemma entries_In {A} (m : gmap string A) k x : In (k, x) (entries m) <-> m !! k = Some x.
Proof. unfold entries. rewrite sort_by_In, <- list_elem_of_In, elem_of_map_to_list. done. Qed.

Lemma entries_NoDup {A} (m : gmap string A) : NoDup (map fst (entries m)).
Proof. unfold entries. rewrite sort_by_perm. apply NoDup_fst_map_to_list. Qed.

(** ** The order of the replay *)

(** What tells two stored events apart: the stores key each plane by member and instant. *)
Definition event_id (e : RosterEvent) : instant * bool * string := (effective_at e, re_is_add e, event_key e).

Ltac event_order :=
  unfold event_before; repeat match goal with
  | |- context [(?x <? ?y)%Z] => destruct (Z.ltb_spec x y)
  | H : context [(?x <? ?y)%Z] |- _ => destruct (Z.ltb_spec x y)
  end.

Lemma event_before_asym a b : event_before a b = true -> event_before b a = false.
Proof.
  event_order; try done; try lia. destruct (re_is_add a), (re_is_add b); simpl; try done; apply string_ltb_asym.
Qed.

Lemma event_before_cotrans a b c :
  event_before a c = true -> event_before a b = true \/ event_before b c = true.
Proof.
  event_order; try lia; auto. destruct (re_is_add a), (re_is_add b), (re_is_add c); simpl; auto; try done;
    apply string_ltb_cotrans.
Qed.

Lemma event_before_total a b : event_before a b = false -> event_before b a = false -> event_id a = event_id b.
Proof.
  unfold event_id. event_order; try done; try lia. assert (effective_at a = effective_at b) as -> by lia.
  destruct (re_is_add a), (re_is_add b); simpl; try done; intros; by rewrite (string_ltb_total (event_key a) (event_key b)).
Qed.

Lemma sort_events_perm l l' :
  NoDup (map event_id l) -> Permutation l l' -> sort_roster_events l = sort_roster_events l'.
Proof.
  intros Hnd Hp. apply sort_by_perm_eq; eauto using event_before_asym, event_before_cotrans.
  intros a b Ha Hb Hab Hba. apply (map_key_inj event_id l); eauto using event_before_total.
Qed.

(** The events the replay at an instant reads, in its order. *)
Definition upto (events : list RosterEvent) (as_of : instant) : list RosterEvent :=
  sort_roster_events (List.filter (fun e => (effective_at e <=? as_of)%Z) events).

Lemma upto_In events as_of e : In e (upto events as_of) <-> In e events /\ (effective_at e <= as_of)%Z.
Proof. unfold upto, sort_roster_events. by rewrite sort_by_In, filter_In, Z.leb_le. Qed.

Lemma NoDup_map_filter {A B} (f : A -> B) (p : A -> bool) l : NoDup (map f l) -> NoDup (map f (List.filter p l)).
Proof.
  induction l as [|x l IH]; [done|]. cbn [map List.filter]. intros [Hx Hnd]%NoDup_cons.
  destruct (p x); [|by apply IH]. apply NoDup_cons. split; [|by apply IH]. intros Hin. apply Hx.
  apply list_elem_of_In, in_map_iff in Hin as (y & <- & Hy). apply filter_In in Hy as [Hy _].
  by apply list_elem_of_In, in_map.
Qed.

(** ** The replay, event by event *)

Section Replay.
Context `{StrictMajority} (rules : RosterRules).
Implicit Types (acc : RosterState * RosterSpans) (e : RosterEvent).

(** The event is applied in this state. *)
Definition applies (state : RosterState) (e : RosterEvent) : bool := negb (reversed e) && stands rules state e.

Definition state_after (state : RosterState) (e : RosterEvent) : RosterState := <[event_key e := (re_is_add e, member e)]> state.

Lemma apply_state acc e :
  fst (apply_event rules acc e) = if applies (fst acc) e then state_after (fst acc) e else fst acc.
Proof.
  destruct acc as [state spans]. unfold apply_event, applies. cbn [fst]. destruct (reversed e); [done|]. cbn [negb andb].
  by destruct (stands rules state e).
Qed.

(** An invariant of the replay that speaks of the events read so far. *)
Lemma replay_ind (acc0 : RosterState * RosterSpans) (P : list RosterEvent -> RosterState * RosterSpans -> Prop) :
  P [] acc0 ->
  (forall pre e, P pre (fold_left (apply_event rules) pre acc0) ->
     P (pre ++ [e]) (apply_event rules (fold_left (apply_event rules) pre acc0) e)) ->
  forall l, P l (fold_left (apply_event rules) l acc0).
Proof.
  intros H0 Hs l. induction l as [|e l IH] using rev_ind; [done|]. rewrite fold_left_app. by apply Hs.
Qed.

Lemma record_state_lookup ms k b m : record_state ms !! k = Some (b, m) -> b = true /\ In m ms /\ cm_key_id m = k.
Proof.
  unfold record_state. assert (Hg : forall (st : RosterState),
    fold_left (fun st m => <[cm_key_id m := (true, m)]> st) ms st !! k = Some (b, m) ->
    (b = true /\ In m ms /\ cm_key_id m = k) \/ st !! k = Some (b, m)).
  { induction ms as [|x ms IH]; intros st Hl; [by right|]. cbn [fold_left] in Hl.
    destruct (IH _ Hl) as [(? & ? & ?)|Hst]; [left; by split_and!; [|right|]|].
    destruct (decide (cm_key_id x = k)) as [<-|Hne].
    - rewrite lookup_insert_eq in Hst. injection Hst as <- <-. left. by split_and!; [|left|].
    - rewrite lookup_insert_ne in Hst by done. by right. }
  intros Hl. destruct (Hg ∅ Hl) as [|He]; [done|]. by rewrite lookup_empty in He.
Qed.

Lemma active_after state e k :
  active (state_after state e) k = if event_key e =s k then re_is_add e else active state k.
Proof.
  unfold active, state_after. destruct (String.eqb_spec (event_key e) k) as [<-|Hne].
  - rewrite lookup_insert_eq. by destruct (re_is_add e).
  - by rewrite lookup_insert_ne.
Qed.

(** The state after the record and the events read. *)
Definition replayed (ms : list CommunityMember) (l : list RosterEvent) : RosterState :=
  fst (fold_left (apply_event rules) l (record_state ms, record_spans ms)).

Lemma replayed_snoc ms l e :
  replayed ms (l ++ [e]) = if applies (replayed ms l) e then state_after (replayed ms l) e else replayed ms l.
Proof. unfold replayed. rewrite fold_left_app. apply apply_state. Qed.

Lemma authorized_replayed ms events as_of :
  authorized_roster_state_at ms rules events as_of = replayed ms (upto events as_of).
Proof. done. Qed.

Lemma active_replayed_snoc ms l e k :
  active (replayed ms (l ++ [e])) k =
    if applies (replayed ms l) e && (event_key e =s k) then re_is_add e else active (replayed ms l) k.
Proof. rewrite replayed_snoc. destruct (applies _ e); [|done]. rewrite active_after. done. Qed.

(** A key holds the member of that key. *)
Lemma replayed_keyed ms l k b m : replayed ms l !! k = Some (b, m) -> cm_key_id m = k.
Proof.
  revert k b m. induction l as [|e l IH] using rev_ind; intros k b m.
  - intros Hl. by apply (record_state_lookup ms) in Hl as (_ & _ & ?).
  - rewrite replayed_snoc. destruct (applies _ e); [|by apply IH]. unfold state_after.
    destruct (decide (event_key e = k)) as [<-|Hne]; [rewrite lookup_insert_eq; by intros [= _ <-]|].
    rewrite lookup_insert_ne by done. by apply IH.
Qed.

Lemma active_record ms k : active (record_state ms) k = true -> exists m, In m ms /\ cm_key_id m = k.
Proof.
  unfold active. destruct (record_state ms !! k) as [[[] m]|] eqn:E; try done. intros _.
  apply record_state_lookup in E as (_ & ? & ?). eauto.
Qed.

Lemma applies_true state e : applies state e = true <-> reversed e = false /\ stands rules state e = true.
Proof. unfold applies. by breflect. Qed.

Lemma stands_admitted state e :
  stands rules state e = true ->
  standing_without_protocol rules e = true \/ evaluate (ballot_of rules state e) = Admit.
Proof.
  unfold stands, roster_event_standing. destruct (standing_without_protocol rules e); [by left|].
  destruct (evaluate _); [by right|by destruct (existsb _ _)|done].
Qed.

Lemma stands_keeps_founder state e :
  stands rules state e = true -> loses_founder rules state e = true ->
  founders_after rules state e <> 0%N \/ others_after state e = 0%N.
Proof.
  unfold stands, roster_event_standing. intros Hs Hl. rewrite Hl in Hs. cbn [andb] in Hs.
  destruct (N.eqb_spec (founders_after rules state e) 0); [|by left].
  destruct (N.ltb_spec 0 (others_after state e)); [|right; lia]. cbn [andb] in Hs.
  destruct (if standing_without_protocol rules e then _ else _); done.
Qed.

(** A seat the evaluator counts is a seated key's. *)
Lemma seats_of_In ms l t s :
  In s (seats_of rules (replayed ms l) t) ->
  active (replayed ms l) (key_id s) = true /\ node_bearing s = bears_node (rr_node_bearing rules) (key_id s) t /\
  (is_founder s = true -> seated_founder (replayed ms l) (key_id s) = true).
Proof.
  unfold seats_of. intros (m & <- & Hm)%in_map_iff. cbn [key_id node_bearing].
  apply in_map_iff in Hm as ([b m'] & Em & Hm). cbn in Em. subst m'.
  apply filter_In in Hm as [Hm Hb]. cbn in Hb. subst b.
  apply in_map_iff in Hm as ((k & b & m') & Em & Hm). cbn in Em. injection Em as -> ->.
  apply entries_In in Hm. pose proof (replayed_keyed _ _ _ _ _ Hm) as <-.
  unfold active, seated_founder. rewrite Hm. done.
Qed.

(** ** How a member came to be seated *)

(** The seats the events read so far account for. *)
Inductive seated (ms : list CommunityMember) : list RosterEvent -> string -> Prop :=
| seated_by_record m : In m ms -> seated ms [] (cm_key_id m)
| seat_kept l e k : seated ms l k -> seated ms (l ++ [e]) k
| seated_legacy l e : re_is_add e = true -> reversed e = false -> re_signers e = ∅ -> seated ms (l ++ [e]) (event_key e)
| seated_by_moderator l e :
    re_is_add e = true -> reversed e = false -> moderator_roots e <> ∅ -> seated ms (l ++ [e]) (event_key e)
| seated_openly l e :
    re_is_add e = true -> reversed e = false -> rr_protocol rules = cp.OPEN_SELF_ADMIT ->
    rr_subkind rules = Some COHORT_SUBKIND_PUBLIC -> event_key e ∈ re_signers e -> seated ms (l ++ [e]) (event_key e)
| seated_by_sponsor l e s :
    re_is_add e = true -> reversed e = false -> s ∈ re_signers e -> re_signers e <> {[event_key e]} ->
    active (replayed ms l) s = true -> seated ms l s ->
    (rr_subkind rules = Some "infrastructure" -> is_active_founder rules (replayed ms l) (effective_at e) s = true) ->
    seated ms (l ++ [e]) (event_key e).

(** What a counted seat shows of its key. *)
Lemma counted_seat ms l e s :
  In s (got (ballot_of rules (replayed ms l) e)) ->
  key_id s ∈ re_signers e /\ active (replayed ms l) (key_id s) = true /\
  (rr_subkind rules = Some "infrastructure" ->
   is_active_founder rules (replayed ms l) (effective_at e) (key_id s) = true).
Proof.
  intros (Hin & Hs & Hf)%got_In. apply seats_of_In in Hin as (Ha & Hn & Hsf). split_and!; [done..|]. intros Hk.
  destruct (Hf Hk) as [Hfo Hnb]. unfold is_active_founder. rewrite Hsf by done. by rewrite <- Hn, Hnb.
Qed.

(** An addition the evaluator admits is sponsored by a seat, or is an open admission. *)
Lemma sponsor_of ms l e :
  evaluate (ballot_of rules (replayed ms l) e) = Admit -> re_is_add e = true ->
  (rr_protocol rules = cp.OPEN_SELF_ADMIT /\ rr_subkind rules = Some COHORT_SUBKIND_PUBLIC /\ event_key e ∈ re_signers e) \/
  (re_signers e <> {[event_key e]} /\ exists s, In s (got (ballot_of rules (replayed ms l) e))).
Proof.
  intros Hev Hadd. destruct (decide (rr_protocol rules = cp.OPEN_SELF_ADMIT)) as [Ho|Ho].
  - apply open_admit in Hev as [Hk [[_ (k & [= <-] & Hin & _)]|Hv]]; [by left| |done]. right.
    assert (exists s, In s (voices (ballot_of rules (replayed ms l) e))) as [s [Hs Hne]%filter_In].
    { destruct (voices _) as [|s v]; [done|]. exists s. by left. }
    split; [|by exists s]. intros E. cbn [subject ballot_of opt_is] in Hne.
    pose proof (counted_seat _ _ _ _ Hs) as [Hin _]. rewrite E in Hin. apply elem_of_singleton in Hin.
    by rewrite Hin, String.eqb_refl in Hne.
  - right. apply arms_admit in Hev as [Hself Hgot]; [|done]. split; [|by apply got_nonempty].
    intros Hs. unfold self_signed, ballot_of in Hself. cbn [direction subject signers] in Hself.
    rewrite Hadd, Hs, size_singleton in Hself. unfold signed in Hself.
    by rewrite bool_decide_eq_true_2 in Hself by set_solver.
Qed.

(** ** When a membership began *)

Definition spans_after (ms : list CommunityMember) (l : list RosterEvent) : RosterSpans :=
  snd (fold_left (apply_event rules) l (record_state ms, record_spans ms)).

Lemma spans_after_snoc ms l e :
  spans_after ms (l ++ [e]) =
    if applies (replayed ms l) e then
      if negb (re_is_add e) then delete (event_key e) (spans_after ms l)
      else if negb (active (replayed ms l) (event_key e)) then <[event_key e := Some (effective_at e)]> (spans_after ms l)
      else spans_after ms l
    else spans_after ms l.
Proof.
  unfold spans_after, replayed. rewrite fold_left_app. cbn [fold_left].
  destruct (fold_left _ l _) as [state spans]. unfold apply_event, applies. cbn [fst snd].
  destruct (reversed e); [done|]. cbn [negb andb]. by destruct (stands rules state e).
Qed.

(** Seated from the record on, through every event of [l]. *)
Definition always_active (ms : list CommunityMember) (l : list RosterEvent) (k : string) : Prop :=
  forall pre post, l = pre ++ post -> active (replayed ms pre) k = true.

(** Not seated just before an event at [t], and seated from it on. *)
Definition active_since (ms : list CommunityMember) (l : list RosterEvent) (k : string) (t : instant) : Prop :=
  exists pre e post, l = pre ++ e :: post /\ effective_at e = t /\ active (replayed ms pre) k = false /\
    forall post1 post2, post = post1 ++ post2 -> active (replayed ms (pre ++ e :: post1)) k = true.

Definition span_holds (ms : list CommunityMember) (l : list RosterEvent) (k : string) (span : option (option instant)) : Prop :=
  match span with
  | None => active (replayed ms l) k = false
  | Some None => always_active ms l k
  | Some (Some t) => active_since ms l k t
  end.

Lemma record_span_lookup ms k :
  record_spans ms !! k = if active (record_state ms) k then Some None else None.
Proof.
  unfold record_spans, record_state. induction ms as [|m l IH] using rev_ind; [done|].
  rewrite !fold_left_app. cbn [fold_left]. unfold active in *.
  destruct (decide (cm_key_id m = k)) as [<-|Hne]; [by rewrite !lookup_insert_eq|].
  rewrite !lookup_insert_ne by done. by rewrite IH.
Qed.

(** A span that holds and whose member is seated still holds after an event that leaves them seated. *)
Lemma span_kept ms l e k span :
  span <> None -> active (replayed ms (l ++ [e])) k = true -> span_holds ms l k span -> span_holds ms (l ++ [e]) k span.
Proof.
  intros Hn Ha. destruct span as [[t|]|]; [| |done]; cbn [span_holds].
  - intros (pre & x & post & -> & Ht & Hi & Hp). exists pre, x, (post ++ [e]). split_and!; try done; [by rewrite <- app_assoc|].
    intros post1 post2 E. destruct post2 as [|z y _] using rev_ind.
    + rewrite app_nil_r in E. subst post1. by rewrite app_comm_cons, app_assoc.
    + rewrite app_assoc in E. apply app_inj_tail in E as [-> _]. eauto.
  - intros Hal pre post E. destruct post as [|z y _] using rev_ind.
    + rewrite app_nil_r in E. by subst pre.
    + rewrite app_assoc in E. apply app_inj_tail in E as [-> _]. eauto.
Qed.

Lemma spans_after_hold ms l k : span_holds ms l k (spans_after ms l !! k).
Proof.
  induction l as [|e l IH] using rev_ind.
  - unfold spans_after. cbn [fold_left snd]. rewrite record_span_lookup.
    destruct (active (record_state ms) k) eqn:Ea; [|done]. intros pre post E. symmetry in E. by apply app_eq_nil in E as [-> _].
  - pose proof (active_replayed_snoc ms l e k) as Hact. rewrite spans_after_snoc.
    destruct (spans_after ms l !! k) as [span|] eqn:Es.
    + assert (active (replayed ms l) k = true) as Hk.
      { destruct span as [t|]; cbn [span_holds] in IH; [|by apply (IH l []); rewrite app_nil_r].
        destruct IH as (pre & x & post & -> & _ & _ & Hp). apply (Hp post []). by rewrite app_nil_r. }
      destruct (applies _ e); cbn [andb] in Hact; [|rewrite Es; apply span_kept; [done|congruence|done]].
      destruct (String.eqb_spec (event_key e) k) as [<-|Hne].
      * rewrite Hk. cbn [negb]. destruct (re_is_add e); cbn [negb]; [rewrite Es; by apply span_kept|].
        by rewrite lookup_delete_eq.
      * destruct (re_is_add e), (active (replayed ms l) (event_key e)); cbn [negb];
          rewrite ?lookup_delete_ne, ?lookup_insert_ne, Es by done; apply span_kept; try done; congruence.
    + cbn [span_holds] in IH. destruct (applies _ e); cbn [andb] in Hact; [|rewrite Es; cbn; congruence].
      destruct (String.eqb_spec (event_key e) k) as [<-|Hne].
      * rewrite IH. cbn [negb]. destruct (re_is_add e); cbn [negb]; [|by rewrite lookup_delete_eq].
        rewrite lookup_insert_eq. exists l, e, []. split_and!; try done. intros p1 p2 E. symmetry in E.
        by apply app_eq_nil in E as [-> _].
      * destruct (re_is_add e), (active (replayed ms l) (event_key e)); cbn [negb];
          rewrite ?lookup_delete_ne, ?lookup_insert_ne, Es by done; cbn [span_holds]; congruence.
Qed.
End Replay.

(** ** Properties *)

Module RosterSamples.
Definition founder (k : string) : CommunityMember := mk_CommunityMember k 0%Z (Some "founder").
Definition plain (k : string) : CommunityMember := mk_CommunityMember k 0%Z None.
Definition widen (t : instant) (m : CommunityMember) (ss : list string) : RosterEvent :=
  mk_RosterEvent t true m (list_to_set ss) ∅ false.
Definition remove (t : instant) (k : string) (ss : list string) : RosterEvent :=
  mk_RosterEvent t false (mk_CommunityMember k t None) (list_to_set ss) ∅ false.
Definition rules (p : string) : RosterRules := of_family p.
(** Ann founds; bob is seated by ann, dee by bob, who may not; ann leaves and is back. *)
Definition history : list RosterEvent :=
  [widen 5%Z (plain "bob") ["ann"]; widen 6%Z (plain "dee") ["bob"]; widen 7%Z (founder "cy") ["ann"];
   remove 8%Z "ann" ["ann"]; widen 9%Z (plain "ann") ["cy"]].
End RosterSamples.

(** The order in which rows arrive has no part: two nodes that hold the same events,
    of which no two are of one kind, member and instant (the key each plane is stored
    under), replay them to the same roster and the same spans at every instant. *)
Theorem roster_order_free `{StrictMajority} (ms : list CommunityMember) (rules : RosterRules)
    (events events' : list RosterEvent) (as_of : instant) :
  NoDup (map event_id events) -> Permutation events events' ->
  fold_roster ms rules events as_of = fold_roster ms rules events' as_of.
Proof.
  intros Hnd Hp. unfold fold_roster. rewrite (sort_events_perm _ (List.filter (fun e => (effective_at e <=? as_of)%Z) events')).
  - done.
  - by apply NoDup_map_filter.
  - by apply perm_filter.
Qed.

Lemma roster_order_free_witness :
  fold_roster [RosterSamples.founder "ann"] (RosterSamples.rules "founder_only") RosterSamples.history 9%Z
  = fold_roster [RosterSamples.founder "ann"] (RosterSamples.rules "founder_only") (rev RosterSamples.history) 9%Z.
Proof.
  apply roster_order_free; [|apply Permutation_rev].
  apply NoDup_ListNoDup. repeat constructor; cbn; intuition discriminate.
Defined.

(** C6. Nobody is in a room without an admission behind them: every member the replay seats
    was on the record, or was added by an event of the replay that is not reversed and
    that was stored before signers were, or a named moderator stood behind, or carries its
    own member's signature into a public room of open admission, or carries the signature of
    another key seated when it was replayed and itself so accounted for, a founder with no
    [node] seat where the group is infrastructure. *)
Theorem seat_provenance `{StrictMajority} (ms : list CommunityMember) (rules : RosterRules)
    (events : list RosterEvent) (as_of : instant) (k : string) :
  active (authorized_roster_state_at ms rules events as_of) k = true -> seated rules ms (upto events as_of) k.
Proof.
  rewrite authorized_replayed. generalize (upto events as_of). intros l. revert k.
  induction l as [|e l IH] using rev_ind; intros k.
  - intros (m & Hm & <-)%active_record. by constructor.
  - rewrite active_replayed_snoc. destruct (applies _ _ e) eqn:Ea; cbn [andb]; [|constructor; by apply IH].
    destruct (String.eqb_spec (event_key e) k) as [<-|]; [intros Hadd|constructor; by apply IH].
    apply applies_true in Ea as [Hr Hs]. apply stands_admitted in Hs as [Hs|Hev].
    + unfold standing_without_protocol, moderator_may_act in Hs. rewrite Hadd in Hs. cbn [negb andb orb] in Hs.
      rewrite orb_false_r, andb_true_r in Hs. apply orb_true_iff in Hs as [Hs|Hs].
      * apply seated_legacy; [done..|]. by apply bool_decide_eq_true in Hs.
      * apply seated_by_moderator; [done..|]. apply negb_true_iff in Hs. by apply bool_decide_eq_false in Hs.
    + destruct (sponsor_of _ _ _ _ Hev Hadd) as [(? & ? & ?)|[Hne [s Hs]]]; [by apply seated_openly|].
      apply counted_seat in Hs as (Hs & Ha & Hf). by apply (seated_by_sponsor _ _ _ _ (key_id s)); auto.
Qed.

Lemma seat_provenance_witness :
  seated (RosterSamples.rules "founder_only") [RosterSamples.founder "ann"]
    (upto RosterSamples.history 9%Z) "bob".
Proof. apply seat_provenance. vm_compute. reflexivity. Defined.

(** The spans are the memberships: a member has a span exactly while seated, open to the
    beginning when no event of the replay ever found them out of their seat, and otherwise
    starting at the event that found them out and since which they never were: a change of
    role starts nothing, and a return starts afresh. *)
Theorem spans_exact `{StrictMajority} (ms : list CommunityMember) (rules : RosterRules) (events : list RosterEvent)
    (as_of : instant) (k : string) :
  span_holds rules ms (upto events as_of) k (authorized_roster_spans_at ms rules events as_of !! k) /\
  (is_Some (authorized_roster_spans_at ms rules events as_of !! k) <->
   active (authorized_roster_state_at ms rules events as_of) k = true).
Proof.
  pose proof (spans_after_hold rules ms (upto events as_of) k) as Hs.
  change (spans_after rules ms (upto events as_of)) with (authorized_roster_spans_at ms rules events as_of) in Hs.
  split; [done|]. rewrite authorized_replayed. set (l := upto events as_of) in *.
  destruct (authorized_roster_spans_at ms rules events as_of !! k) as [[t|]|]; cbn [span_holds] in Hs.
  - split; [intros _|by eexists]. destruct Hs as (pre & x & post & -> & _ & _ & Hp). apply (Hp post []). by rewrite app_nil_r.
  - split; [intros _|by eexists]. apply (Hs l []). by rewrite app_nil_r.
  - rewrite Hs. split; [by intros []|done].
Qed.

Lemma spans_exact_witness :
  let events := RosterSamples.history in
  active_since (RosterSamples.rules "founder_only") [RosterSamples.founder "ann"] (upto events 9%Z) "ann" 9%Z.
Proof.
  exact (proj1 (spans_exact [RosterSamples.founder "ann"] (RosterSamples.rules "founder_only") RosterSamples.history 9%Z "ann")).
Defined.

(** ** The last founder *)

Section Founders.
Context `{StrictMajority} (rules : RosterRules) (plain_rules : rr_node_bearing rules = NO_NODE_BEARING_SEATS).
Implicit Types (ms : list CommunityMember) (l : list RosterEvent) (e : RosterEvent) (state : RosterState).

Lemma active_founder_plain state t k : is_active_founder rules state t k = seated_founder state k.
Proof.
  unfold is_active_founder, bears_node. rewrite plain_rules. cbn. rewrite lookup_empty, bool_decide_eq_false_2 by set_solver.
  apply andb_true_r.
Qed.

Lemma seated_founder_after state e k :
  seated_founder (state_after state e) k =
    if event_key e =s k then re_is_add e && is_founder_member (member e) else seated_founder state k.
Proof.
  unfold seated_founder, state_after. destruct (String.eqb_spec (event_key e) k) as [<-|Hne].
  - rewrite lookup_insert_eq. by destruct (re_is_add e).
  - by rewrite lookup_insert_ne.
Qed.

Lemma founders_after_other state e :
  founders_after rules state e <> 0%N -> exists k, k <> event_key e /\ seated_founder state k = true.
Proof.
  unfold founders_after. intros Hn. destruct (List.filter _ _) as [|k l] eqn:E; [done|].
  assert (In k (k :: l)) as Hk by by left. rewrite <- E in Hk. apply filter_In in Hk as [_ Hk].
  apply andb_true_iff in Hk as [Hne Hf]. rewrite active_founder_plain in Hf. exists k. by breflect.
Qed.

Lemma others_after_none state e k : others_after state e = 0%N -> active state k = true -> k = event_key e.
Proof.
  unfold others_after. intros Hn Ha. destruct (decide (k = event_key e)) as [|Hne]; [done|].
  apply len_zero in Hn. unfold active in Ha. destruct (state !! k) as [[[] m]|] eqn:E; try done.
  assert (In (k, (true, m)) (List.filter (fun kv => fst (snd kv) && (fst kv <>s event_key e)) (entries state))) as Hin.
  { apply filter_In. split; [by apply entries_In|]. cbn. by apply negb_true_iff, String.eqb_neq. }
  by rewrite Hn in Hin.
Qed.

(** A step from a roster with a founder keeps one, or finds the founder alone. *)
Lemma founder_step state e k :
  seated_founder state k = true -> stands rules state e = true ->
  (exists k', seated_founder (state_after state e) k' = true) \/
  (seated_founder state (event_key e) = true /\ forall k', active state k' = true -> k' = event_key e).
Proof.
  intros Hk Hs. destruct (seated_founder state (event_key e)) eqn:Ef.
  - destruct (re_is_add e && is_founder_member (member e)) eqn:Ek.
    { left. exists (event_key e). by rewrite seated_founder_after, String.eqb_refl. }
    apply stands_keeps_founder in Hs as [(k' & Hne & Hf)%founders_after_other|Ho].
    + left. exists k'. rewrite seated_founder_after. by destruct (String.eqb_spec (event_key e) k'); [congruence|].
    + right. split; [done|]. intros k' Ha. by apply (others_after_none state).
    + unfold loses_founder. rewrite active_founder_plain, Ef. cbn [andb]. by apply andb_false_iff in Ek as [-> | ->]; rewrite ?orb_true_r.
  - left. exists k. rewrite seated_founder_after. by destruct (String.eqb_spec (event_key e) k); [congruence|].
Qed.
End Founders.

(** A founder is lost only from a roster of one: a family (or a group none of whose seats
    bear [node]) whose record names a founder has a founder at every instant, unless at some
    applied event the founder it named was the only member there was. *)
Theorem founder_remains `{StrictMajority} (ms : list CommunityMember) (rules : RosterRules) (events : list RosterEvent)
    (as_of : instant) (k : string) :
  rr_node_bearing rules = NO_NODE_BEARING_SEATS -> seated_founder (record_state ms) k = true ->
  (exists k', seated_founder (authorized_roster_state_at ms rules events as_of) k' = true) \/
  exists pre e post, upto events as_of = pre ++ e :: post /\ applies rules (replayed rules ms pre) e = true /\
    seated_founder (replayed rules ms pre) (event_key e) = true /\
    forall k', active (replayed rules ms pre) k' = true -> k' = event_key e.
Proof.
  intros Hn Hk. rewrite authorized_replayed. generalize (upto events as_of). intros l.
  induction l as [|e l IH] using rev_ind; [left; by exists k|].
  destruct IH as [[k' Hk']|(pre & x & post & -> & Hx)]; [|right; exists pre, x, (post ++ [e]); by rewrite <- app_assoc].
  rewrite replayed_snoc. destruct (applies rules _ e) eqn:Ea; [|left; by exists k'].
  destruct (founder_step rules Hn _ e k' Hk') as [?|[? ?]]; [by apply applies_true in Ea as [_ ?]|by left|].
  right. by exists l, e, [].
Qed.

Lemma founder_remains_witness :
  exists k, seated_founder
    (authorized_roster_state_at [RosterSamples.founder "ann"] (RosterSamples.rules "founder_only") RosterSamples.history 9%Z) k = true.
Proof.
  destruct (founder_remains [RosterSamples.founder "ann"] (RosterSamples.rules "founder_only") RosterSamples.history 9%Z "ann")
    as [Hf|_]; [vm_compute; reflexivity|vm_compute; reflexivity|exact Hf|].
  exists "cy". vm_compute. reflexivity.
Defined.

(** The rule does not reach a demotion: the sole member of a family, its founder, is demoted
    by an event a stranger co-signs, which leaves a member and no founder. *)
Lemma sole_founder_demoted :
  let demotion := RosterSamples.widen 5%Z (RosterSamples.plain "ann") ["ann"; "zed"] in
  authorized_roster_at [RosterSamples.founder "ann"] (RosterSamples.rules "founder_only") [demotion] 5%Z
  = [RosterSamples.plain "ann"].
Proof. vm_compute. reflexivity. Qed.
