(* ===== verification/RosterAuthority.v ===== *)
(** * What the intervals of a roster answer for

    The three interval readings of [Roster]: when a founder held authority, when a key bears
    [node] through an occurrence, and what one interval list leaves of another. Each is
    stated against what it stands for at an instant. *)

From Stdlib Require Import ZArith NArith Lia Ascii String.
From stdpp Require Import base list strings gmap sorting.
From S2P Require Import Prelude RustStd Json ReverseQuorum Consensus TwoPath Roster RosterFold.

Open Scope string_scope.
Open Scope list_scope.
Open Scope persist_scope.

(** ** Interval lists as sets of instants *)

(** Some interval of the list covers the instant. *)
Definition covers (ivs : list InstantInterval) (t : instant) : bool := existsb (in_interval t) ivs.

Lemma covers_app l1 l2 t : covers (l1 ++ l2) t = covers l1 t || covers l2 t.
Proof. apply existsb_app. Qed.

Lemma covers_one s e t : covers [(s, e)] t = (s <=? t)%Z && match e with Some e => (t <? e)%Z | None => true end.
Proof. apply orb_false_r. Qed.

Ltac instants :=
  repeat match goal with
  | |- context [(?x <? ?y)%Z] => destruct (Z.ltb_spec x y)
  | |- context [(?x <=? ?y)%Z] => destruct (Z.leb_spec x y)
  end; cbn [andb orb negb]; try done; try lia.

(** An empty interval covers nothing. *)
Lemma covers_filter ivs t :
  covers (List.filter (fun iv : InstantInterval => match snd iv with Some e => (fst iv <? e)%Z | None => true end) ivs) t
  = covers ivs t.
Proof.
  unfold covers. induction ivs as [|[s [e|]] l IH]; [done|..]; cbn [List.filter existsb fst snd]; [|by rewrite <- IH].
  destruct (Z.ltb_spec s e); cbn [existsb]; rewrite IH; [done|]. unfold in_interval. cbn [fst snd].
  destruct (covers l t); instants.
Qed.

Lemma subtract_cut_covers ivs cut t : covers (subtract_cut ivs cut) t = covers ivs t && negb (in_interval t cut).
Proof.
  destruct cut as [cs ce]. unfold subtract_cut. rewrite covers_filter.
  induction ivs as [|[s e] l IH]; [done|]. cbn [map concat]. rewrite covers_app, IH.
  replace (covers ((s, e) :: l) t) with (in_interval t (s, e) || covers l t) by done.
  rewrite andb_orb_distrib_l. f_equal. rewrite covers_app. unfold covers, in_interval. cbn [fst snd].
  destruct e as [e|], ce as [ce|]; instants; cbn; instants.
Qed.

Lemma subtract_intervals_covers ivs cut t :
  covers (subtract_intervals ivs cut) t = covers ivs t && negb (covers cut t).
Proof.
  unfold subtract_intervals. revert ivs. induction cut as [|c cut IH]; intros ivs; cbn [fold_left].
  - by rewrite andb_true_r.
  - rewrite IH, subtract_cut_covers. cbn. by rewrite <- andb_assoc, negb_orb.
Qed.

(** ** A root's authority, event by event *)

Section RootAuthority.
Context `{StrictMajority} (MIN_UTC : instant) (rules : RosterRules) (ms : list CommunityMember) (roots : gset string).
Implicit Types (l : list RosterEvent) (e : RosterEvent) (t : instant) (r : string).

Definition opened : gmap string instant :=
  list_to_map (map (fun r => (r, MIN_UTC)) (List.filter (seated_founder (record_state ms)) (elements roots))).

Definition walked l : RosterState * RootAuthorityIntervals * gmap string instant :=
  fold_left (authority_step rules roots) l (record_state ms, ∅, opened).

Definition by_then l t : list RosterEvent := List.filter (fun e => (effective_at e <=? t)%Z) l.

(** Later in the list is not earlier in time. *)
Definition timely : list RosterEvent -> Prop := StronglySorted (fun a b => (effective_at a <= effective_at b)%Z).

Lemma timely_snoc l e : timely (l ++ [e]) -> timely l /\ forall x, In x l -> (effective_at x <= effective_at e)%Z.
Proof.
  induction l as [|y l IH]; intros Hs; [split; [constructor|done]|].
  apply StronglySorted_inv in Hs as [Hs Hy]. destruct (IH Hs) as [Hl He].
  rewrite List.Forall_forall in Hy. split.
  - constructor; [done|]. apply List.Forall_forall. intros x Hx. apply Hy, in_or_app. by left.
  - intros x [<-|Hx]; [|by apply He]. apply Hy, in_or_app. right. by left.
Qed.

Lemma by_then_snoc l e t :
  by_then (l ++ [e]) t = if (effective_at e <=? t)%Z then by_then l t ++ [e] else by_then l t.
Proof. unfold by_then. rewrite List.filter_app. cbn. destruct (effective_at e <=? t)%Z; [done|by rewrite app_nil_r]. Qed.

Lemma by_then_all l t : (forall x, In x l -> (effective_at x <= t)%Z) -> by_then l t = l.
Proof.
  induction l as [|x l IH]; intros Hl; [done|]. unfold by_then. cbn [List.filter].
  rewrite (proj2 (Z.leb_le _ _)) by (apply Hl; by left). f_equal. apply IH. intros y Hy. apply Hl. by right.
Qed.

Lemma opened_lookup r : r ∈ roots -> opened !! r = if seated_founder (record_state ms) r then Some MIN_UTC else None.
Proof.
  intros Hr. unfold opened. set (ks := List.filter _ _).
  assert (forall ks : list string, (list_to_map (map (fun r => (r, MIN_UTC)) ks) : gmap string instant) !! r
            = if existsb (fun k => k =s r) ks then Some MIN_UTC else None) as ->.
  { clear. intros l. induction l as [|k l IH]; [done|]. cbn. destruct (String.eqb_spec k r) as [->|Hne].
    - by rewrite lookup_insert_eq.
    - by rewrite lookup_insert_ne. }
  destruct (seated_founder (record_state ms) r) eqn:Ef.
  - replace (existsb _ ks) with true; [done|]. symmetry. apply existsb_exists. exists r. split; [|apply String.eqb_refl].
    apply filter_In. split; [|done]. apply list_elem_of_In. set_solver.
  - replace (existsb _ ks) with false; [done|]. symmetry. apply existsb_false. intros k [_ Hk]%filter_In.
    apply String.eqb_neq. congruence.
Qed.

(** What is closed and what is open for one root after the events read. *)
Record tracked l (out : RootAuthorityIntervals) (open : gmap string instant) r : Prop := {
  open_starts s : open !! r = Some s -> s = MIN_UTC \/ exists e, In e l /\ effective_at e = s;
  closed_ends iv : In iv (default [] (out !! r)) -> exists e, In e l /\ snd iv = Some (effective_at e);
  tracked_at t : (MIN_UTC <= t)%Z ->
    covers (default [] (out !! r)) t || is_some_and (open !! r) (fun s : instant => (s <=? t)%Z)
    = seated_founder (replayed rules ms (by_then l t)) r;
}.

Lemma covers_past l (out : RootAuthorityIntervals) open r t :
  tracked l out open r -> (forall x, In x l -> (effective_at x <= t)%Z) -> covers (default [] (out !! r)) t = false.
Proof.
  intros Ht Hl. apply existsb_false. intros iv Hiv. destruct (closed_ends _ _ _ _ Ht iv Hiv) as (x & Hx & E).
  unfold in_interval. rewrite E. specialize (Hl x Hx). destruct (Z.ltb_spec t (effective_at x)); [lia|]. apply andb_false_r.
Qed.

(** An event that leaves the root's intervals and its seat as they were. *)
Lemma tracked_same l e (out out' : RootAuthorityIntervals) (open open' : gmap string instant) r :
  tracked l out open r -> out' !! r = out !! r -> open' !! r = open !! r ->
  (forall x, In x l -> (effective_at x <= effective_at e)%Z) ->
  seated_founder (replayed rules ms (l ++ [e])) r = seated_founder (replayed rules ms l) r -> tracked (l ++ [e]) out' open' r.
Proof.
  intros [Ho Hc Ht] Eo Ep Hl Hs. split.
  - rewrite Ep. intros s [|(x & Hx & ?)]%Ho; [by left|]. right. exists x. split; [apply in_or_app; by left|done].
  - rewrite Eo. intros iv (x & Hx & ?)%Hc. exists x. split; [apply in_or_app; by left|done].
  - intros t Hm. rewrite Eo. rewrite Ep. rewrite (Ht t Hm), by_then_snoc. destruct (Z.leb_spec (effective_at e) t); [|done].
    rewrite by_then_all by (intros x Hx; specialize (Hl x Hx); lia). by rewrite Hs.
Qed.

Lemma push_interval_lookup (out : RootAuthorityIntervals) k iv r :
  default [] (push_interval out k iv !! r) = if k =s r then default [] (out !! r) ++ [iv] else default [] (out !! r).
Proof.
  unfold push_interval. destruct (String.eqb_spec k r) as [<-|Hne]; [by rewrite lookup_insert_eq|by rewrite lookup_insert_ne].
Qed.

(** The root's own event, by what it opens and closes. *)
Lemma tracked_turn l e (out out' : RootAuthorityIntervals) (open open' : gmap string instant) r :
  tracked l out open r -> (forall x, In x l -> (effective_at x <= effective_at e)%Z) ->
  match open !! r, seated_founder (replayed rules ms (l ++ [e])) r with
  | None, true => out' !! r = out !! r /\ open' !! r = Some (effective_at e)
  | Some s, false => default [] (out' !! r) = default [] (out !! r) ++ [(s, Some (effective_at e))] /\ open' !! r = None
  | _, _ => out' !! r = out !! r /\ open' !! r = open !! r
  end -> tracked (l ++ [e]) out' open' r.
Proof.
  intros Htr Hl Hcase. pose proof Htr as [Ho Hc Ht].
  assert (He : In e (l ++ [e])) by (apply in_or_app; right; by left).
  assert (Hin : forall x, In x l -> In x (l ++ [e])) by (intros; apply in_or_app; by left).
  assert (Hpast : forall t, (effective_at e <= t)%Z -> covers (default [] (out !! r)) t = false)
    by (intros t Hle; apply (covers_past l out open r); [done|intros x Hx; specialize (Hl x Hx); lia]).
  assert (Hat : forall t, (MIN_UTC <= t)%Z ->
    covers (default [] (out' !! r)) t || is_some_and (open' !! r) (fun s : instant => (s <=? t)%Z) =
    if (effective_at e <=? t)%Z then seated_founder (replayed rules ms (l ++ [e])) r
    else covers (default [] (out !! r)) t || is_some_and (open !! r) (fun s : instant => (s <=? t)%Z)).
  { intros t Hm. destruct (open !! r) as [s|] eqn:Eo, (seated_founder _ r); destruct Hcase as [-> ->];
      rewrite ?covers_app, ?covers_one; cbn [is_some_and];
      destruct (Z.leb_spec (effective_at e) t) as [Hle|Hlt]; rewrite ?Hpast by done; cbn [orb]; try done.
    - destruct (Ho s eq_refl) as [->|(x & Hx & <-)]; [by apply Z.leb_le|]. specialize (Hl x Hx). apply Z.leb_le. lia.
    - by destruct (Z.ltb_spec t (effective_at e)); [lia|]; rewrite andb_false_r.
    - by destruct (Z.ltb_spec t (effective_at e)); [|lia]; rewrite andb_true_r, orb_false_r. }
  split.
  - intros s Es. assert (open !! r = Some s \/ s = effective_at e) as [E| ->]; [|by apply Ho in E as [|(x & ? & ?)]; [left|right; exists x; auto]|right; by exists e].
    destruct (open !! r), (seated_founder _ r); destruct Hcase as [_ E]; rewrite E in Es; try done; try (by left). injection Es as <-. by right.
  - intros iv Hiv. assert (In iv (default [] (out !! r)) \/ snd iv = Some (effective_at e)) as [(x & ? & ?)%Hc|?]; [|by exists x; auto|by exists e].
    destruct (open !! r), (seated_founder _ r); destruct Hcase as [E _]; rewrite E in Hiv; try (by left).
    apply in_app_or in Hiv as [|[<-|[]]]; [by left|by right].
  - intros t Hm. rewrite Hat by done. rewrite by_then_snoc. destruct (Z.leb_spec (effective_at e) t); [|by apply Ht].
    by rewrite by_then_all by (intros x Hx; specialize (Hl x Hx); lia).
Qed.

Lemma walked_tracked l r :
  r ∈ roots -> timely l ->
  fst (fst (walked l)) = replayed rules ms l /\ tracked l (snd (fst (walked l))) (snd (walked l)) r.
Proof.
  intros Hr. induction l as [|e l IH] using rev_ind; intros Hs.
  { split; [done|]. cbn [walked fold_left fst snd]. split.
    - intros s. rewrite opened_lookup by done. case_if; [|done]. intros [= <-]. by left.
    - by intros iv.
    - intros t Ht. cbn. rewrite opened_lookup by done. unfold replayed. cbn.
      destruct (seated_founder (record_state ms) r); [|done]. cbn. by apply Z.leb_le. }
  apply timely_snoc in Hs as [Hs Hl]. destruct (IH Hs) as [Est Htr]. clear IH. unfold walked in *. rewrite fold_left_app.
  cbn [fold_left]. destruct (fold_left (authority_step rules roots) l _) as [[state out] open]. cbn [fst snd] in *. subst state.
  assert (Hrep := replayed_snoc rules ms l e). unfold authority_step.
  replace (reversed e || negb (stands rules (replayed rules ms l) e)) with (negb (applies rules (replayed rules ms l) e))
    by (unfold applies; by rewrite negb_andb, negb_involutive).
  destruct (applies rules (replayed rules ms l) e) eqn:Ea; cbn [negb].
  2: { cbn [fst snd]. split; [done|]. apply (tracked_same l e out out open open r); try done. by rewrite Hrep. }
  fold (state_after (replayed rules ms l) e).
  assert (Hf := seated_founder_after (replayed rules ms l) e r). rewrite <- Hrep in Hf.
  destruct (decide (event_key e = r)) as [Ek|Hne].
  - rewrite bool_decide_eq_true_2 by (by rewrite Ek). cbn [negb]. rewrite <- Hrep, Ek.
    destruct (open !! r) as [start|] eqn:Eo, (seated_founder (replayed rules ms (l ++ [e])) r) eqn:Ef; cbn [fst snd];
      (split; [done|]); apply (tracked_turn l e out _ open _ r); try done; rewrite Eo, Ef; split;
      rewrite ?push_interval_lookup, ?String.eqb_refl, ?lookup_delete_eq, ?lookup_insert_eq; done.
  - rewrite (proj2 (String.eqb_neq _ _) Hne) in Hf.
    assert (tracked_same' : forall out' open', out' !! r = out !! r -> open' !! r = open !! r -> tracked (l ++ [e]) out' open' r)
      by (intros; by apply (tracked_same l e out _ open)).
    destruct (bool_decide (event_key e ∈ roots)); cbn [negb fst snd]; [|split; [done|by apply tracked_same']].
    destruct (open !! event_key e) as [s|], (seated_founder _ (event_key e)); cbn [fst snd]; (split; [done|apply tracked_same']);
      unfold push_interval; by rewrite ?lookup_insert_ne, ?lookup_delete_ne.
Qed.
End RootAuthority.

Lemma sort_events_timely l : timely (sort_roster_events l).
Proof.
  assert (Hs : StronglySorted (not_after event_before) (sort_roster_events l))
    by (apply sort_by_sorted; eauto using event_before_asym, event_before_cotrans).
  unfold timely. induction Hs as [|a r Hs IH Ha]; constructor; [done|].
  apply List.Forall_forall. intros b Hb. rewrite List.Forall_forall in Ha. specialize (Ha b Hb).
  unfold not_after, event_before in Ha. destruct (Z.ltb_spec (effective_at b) (effective_at a)); [done|lia].
Qed.

Lemma by_then_sorted l t : by_then (sort_roster_events l) t = upto l t.
Proof. apply filter_sort_by; eauto using event_before_asym, event_before_cotrans. Qed.

Lemma push_open_lookup (open : list (string * instant)) (out : RootAuthorityIntervals) r :
  default [] (fold_left (fun out (kv : string * instant) => push_interval out (fst kv) (snd kv, None)) open out !! r)
  = default [] (out !! r) ++ map (fun kv : string * instant => (snd kv, None)) (List.filter (fun kv => fst kv =s r) open).
Proof.
  revert out. induction open as [|[k s] l IH]; intros out; cbn [fold_left List.filter fst snd]; [by rewrite app_nil_r|].
  rewrite IH, push_interval_lookup. destruct (k =s r); cbn [map snd]; [by rewrite <- app_assoc|done].
Qed.

Lemma filter_key {A} (l : list (string * A)) r :
  NoDup (map fst l) ->
  List.filter (fun kv => fst kv =s r) l = [] /\ ~ In r (map fst l) \/
  exists x, In (r, x) l /\ List.filter (fun kv => fst kv =s r) l = [(r, x)].
Proof.
  induction l as [|[k x] l IH]; cbn [map fst List.filter]; [by left; split; [|intros []]|].
  intros [Hk Hnd]%NoDup_cons. destruct (IH Hnd) as [[Hf Hn]|(y & Hy & Hf)]; rewrite Hf; destruct (String.eqb_spec k r) as [->|Hne].
  - right. exists x. split; [by left|done].
  - left. split; [done|]. by intros [|].
  - exfalso. apply Hk, list_elem_of_In. by apply (in_map fst) in Hy.
  - right. exists y. split; [by right|done].
Qed.

Lemma entries_of_key {A} (m : gmap string A) r :
  List.filter (fun kv => fst kv =s r) (entries m) = match m !! r with Some x => [(r, x)] | None => [] end.
Proof.
  destruct (filter_key (entries m) r (entries_NoDup m)) as [[-> Hn]|(x & Hx & ->)].
  - destruct (m !! r) as [x|] eqn:E; [|done]. exfalso. apply Hn. apply entries_In in E. by apply (in_map fst) in E.
  - apply entries_In in Hx. by rewrite Hx.
Qed.

(** ** Bearing [node] at an instant *)

Lemma earliest_spec (l : list instant) m : earliest l = Some m -> In m l /\ forall x, In x l -> (m <= x)%Z.
Proof.
  unfold earliest. assert (Hg : forall l best, fold_left (fun best t => Some (match best with Some b => Z.min b t | None => t end)) l best = Some m ->
    (In m l \/ best = Some m) /\ (forall x, In x l -> (m <= x)%Z) /\ (forall b, best = Some b -> (m <= b)%Z)).
  { clear. intros l. induction l as [|x l IH]; intros best Hb; cbn [fold_left] in Hb.
    - subst best. split_and!; [by right|by intros x|]. intros b [= <-]. lia.
    - apply IH in Hb as (Hin & Hl & Hmin). specialize (Hmin _ eq_refl).
      split_and!; [|intros y [<-|Hy]; [destruct best; lia|auto]|intros b ->; lia].
      destruct Hin as [|[= E]]; [left; by right|]. destruct best as [b|]; [|left; by left].
      destruct (Z.min_spec b x) as [[_ Em]|[_ Em]]; rewrite Em in E; subst m; [by right|left; by left]. }
  intros Hl. apply Hg in Hl as ([|] & Hl & _); [by split|done].
Qed.

Lemma earliest_none (l : list instant) : earliest l = None -> l = [].
Proof.
  destruct l as [|x l]; [done|]. unfold earliest. cbn [fold_left]. intros Hn. exfalso. revert x Hn.
  induction l as [|y l IH]; intros x Hn; [done|]. by apply (IH _ Hn).
Qed.

(** Before the earliest is before them all. *)
Lemma before_earliest (l : list instant) t :
  (match earliest l with Some m => (t < m)%Z | None => True end) <-> forall x, In x l -> (t < x)%Z.
Proof.
  destruct (earliest l) as [m|] eqn:E.
  - apply earliest_spec in E as [Hin Hm]. split; [intros ? x Hx; specialize (Hm x Hx); lia|auto].
  - apply earliest_none in E as ->. split; [by intros _ x|done].
Qed.

Lemma agreed_from_in_le (history : list OccurrenceAssertion) i k t :
  (exists agreed, agreed_from_in history i k = Some agreed /\ (agreed <= t)%Z) <->
  exists c, In c history /\ oa_identity_key_id c = i /\ oa_occurrence_key_id c = k /\
    oa_attesting_key_id c = Some k /\ (oa_asserted_at c <= t)%Z.
Proof.
  unfold agreed_from_in. split.
  - intros (m & Hm & Hle). apply earliest_spec in Hm as [(c & <- & Hc)%in_map_iff _].
    apply filter_In in Hc as [Hin Hc]. rewrite !andb_true_iff, !String.eqb_eq, opt_is_true in Hc. naive_solver.
  - intros (c & Hin & Hi & Hk & Ha & Hle). set (l := map oa_asserted_at _).
    assert (In (oa_asserted_at c) l) as Hl.
    { apply in_map, filter_In. split; [done|]. by rewrite !andb_true_iff, !String.eqb_eq, opt_is_true. }
    destruct (earliest l) as [m|] eqn:E; [|by apply earliest_none in E; rewrite E in Hl].
    exists m. split; [done|]. apply earliest_spec in E as [_ E]. specialize (E _ Hl). lia.
Qed.

(** An assertion in force at an instant, against these revocations. *)
Definition in_force (revocations : list instant) (a : OccurrenceAssertion) (t : instant) : Prop :=
  (oa_asserted_at a <= t)%Z /\ (forall v, oa_valid_until a = Some v -> (t < v)%Z) /\
  forall x, In x revocations -> (oa_asserted_at a <= x)%Z -> (t < x)%Z.

Lemma assertion_end_after revocations a t :
  (match assertion_end revocations a with Some e => (t < e)%Z | None => True end) <->
  (forall v, oa_valid_until a = Some v -> (t < v)%Z) /\
  forall x, In x revocations -> (oa_asserted_at a <= x)%Z -> (t < x)%Z.
Proof.
  unfold assertion_end.
  pose proof (before_earliest (List.filter (fun e => (oa_asserted_at a <=? e)%Z) revocations) t) as He.
  assert ((forall x, In x (List.filter (fun e => (oa_asserted_at a <=? e)%Z) revocations) -> (t < x)%Z) <->
    (forall x, In x revocations -> (oa_asserted_at a <= x)%Z -> (t < x)%Z)) as <-.
  { setoid_rewrite filter_In. setoid_rewrite Z.leb_le. naive_solver. }
  rewrite <- He. destruct (earliest _) as [m|], (oa_valid_until a) as [v|].
  - rewrite Z.min_glb_lt_iff. naive_solver.
  - naive_solver.
  - naive_solver.
  - naive_solver.
Qed.

Lemma identity_intervals_covers history i k agreed revocations t :
  covers (identity_intervals history i k agreed revocations) t = true <->
  (agreed <= t)%Z /\ exists a, In a history /\ oa_identity_key_id a = i /\ in_force revocations a t.
Proof.
  unfold covers, identity_intervals. rewrite existsb_exists. split.
  - intros (iv & Hiv & Hin). apply list_elem_of_In, list_elem_of_omap in Hiv as (a & Ha & E). apply list_elem_of_In in Ha.
    destruct (String.eqb_spec (oa_identity_key_id a) i) as [Hi|]; [|done]. cbn zeta in E.
    assert (iv = (Z.max (oa_asserted_at a) agreed, assertion_end revocations a)) as ->
      by (destruct (assertion_end revocations a) as [e|]; [destruct (e <=? _)%Z|]; by inversion E).
    unfold in_interval in Hin. cbn [fst snd] in Hin. apply andb_true_iff in Hin as [Hs%Z.leb_le He].
    split; [lia|]. exists a. split_and!; [done|done|]. split; [lia|]. apply assertion_end_after.
    destruct (assertion_end revocations a); [by apply Z.ltb_lt|done].
  - intros [Hag (a & Ha & Hi & Has & Hend)]. rewrite <- assertion_end_after in Hend.
    exists (Z.max (oa_asserted_at a) agreed, assertion_end revocations a). split.
    + apply list_elem_of_In, list_elem_of_omap. exists a. split; [by apply list_elem_of_In|]. rewrite Hi, String.eqb_refl. cbn zeta.
      destruct (assertion_end revocations a) as [e|]; [|done]. destruct (Z.leb_spec e (Z.max (oa_asserted_at a) agreed)); [lia|done].
    + unfold in_interval. cbn [fst snd]. apply andb_true_iff. split; [apply Z.leb_le; lia|].
      destruct (assertion_end revocations a); [by apply Z.ltb_lt|done].
Qed.

Section Bearing.
Context {E : Type} (holds_node : string -> E + bool) (revocations_of : string -> string -> E + list instant).

(** [a], of a [node] identity whose binding of [k] the key itself signed by [t], in force at [t]. *)
Definition bound_to_node (history : list OccurrenceAssertion) (k : string) (t : instant) : Prop :=
  exists a c revocations,
    In a history /\ oa_identity_key_id a <> k /\ holds_node (oa_identity_key_id a) = inr true /\
    In c history /\ oa_identity_key_id c = oa_identity_key_id a /\ oa_occurrence_key_id c = k /\
    oa_attesting_key_id c = Some k /\ (oa_asserted_at c <= t)%Z /\
    revocations_of (oa_identity_key_id a) k = inr revocations /\ in_force revocations a t.

Lemma node_identities_covers history k ids ivs t :
  node_identities holds_node revocations_of history k ids = inr ivs ->
  covers ivs t = true <->
  exists i agreed revocations, In i ids /\ holds_node i = inr true /\ agreed_from_in history i k = Some agreed /\
    revocations_of i k = inr revocations /\ covers (identity_intervals history i k agreed revocations) t = true.
Proof.
  revert ivs. induction ids as [|i ids IH]; intros ivs Hn; cbn [node_identities] in Hn.
  { injection Hn as <-. split; [done|naive_solver]. }
  ok_inv Hn. destruct x; cbn [negb] in Hn.
  - destruct (agreed_from_in history i k) as [agreed|] eqn:Ea.
    + ok_inv Hn. ok_inv Hn. injection Hn as <-. rewrite covers_app, orb_true_iff, (IH _ E2). split.
      * intros [?|(j & ? & ? & ? & ?)]; [exists i, agreed, x|exists j]; naive_solver.
      * intros (j & ag & rv & [<-|Hj] & Hh & Hag & Hr & Hc); [left; congruence|right; eauto 10].
    + rewrite (IH _ Hn). split; intros (j & ag & rv & Hj & Hh & Hag & Hr); exists j, ag, rv; [split; [by right|done]|].
      destruct Hj as [<-|Hj]; [congruence|done].
  - rewrite (IH _ Hn). split; intros (j & ag & rv & Hj & Hh & Hr); exists j, ag, rv; [split; [by right|done]|].
    destruct Hj as [<-|Hj]; [congruence|done].
Qed.
End Bearing.

(** ** Properties *)

(** C22. A root's intervals are its authority: at every instant the intervals recorded for a
    candidate root cover exactly those at which the replay up to then, with no
    moderator's standing used, seats it as a founder that bears no [node]. *)
Theorem root_authority_exact `{StrictMajority} (MIN_UTC : instant) (ms : list CommunityMember) (rules : RosterRules)
    (events : list RosterEvent) (roots : gset string) (r : string) (t : instant) :
  r ∈ roots -> (MIN_UTC <= t)%Z ->
  covers (default [] (root_authority_intervals MIN_UTC ms rules events roots !! r)) t
  = is_active_founder rules (authorized_roster_state_at ms rules (map unmoderated events) t) t r.
Proof.
  intros Hr Ht. unfold root_authority_intervals.
  pose proof (walked_tracked MIN_UTC rules ms roots (sort_roster_events (map unmoderated events)) r Hr (sort_events_timely _))
    as [_ Htr]. unfold walked, opened in Htr.
  destruct (fold_left (authority_step rules roots) _ _) as [[state out] open]. cbn [fst snd] in Htr.
  pose proof (tracked_at _ _ _ _ _ _ _ Htr t Ht) as Hcov. rewrite by_then_sorted in Hcov.
  rewrite authorized_replayed. unfold is_active_founder, bears_node. rewrite <- Hcov, map_lookup_imap. clear Hcov Htr.
  set (out2 := fold_left _ (entries open) out).
  assert (covers (default [] (out2 !! r)) t = covers (default [] (out !! r)) t
    || is_some_and (open !! r) (fun s : instant => (s <=? t)%Z)) as E.
  { unfold out2. rewrite push_open_lookup, covers_app, entries_of_key. f_equal. destruct (open !! r); [|done].
    cbn [map snd is_some_and]. rewrite covers_one. apply andb_true_r. }
  rewrite <- E. clearbody out2. clear E. destruct (out2 !! r) as [ivs|]; cbn; [|done].
  destruct (bool_decide (r ∈ nb_own (rr_node_bearing rules))); cbn; [by rewrite andb_false_r|].
  destruct (nb_occurrence (rr_node_bearing rules) !! r) as [cut|]; [|by rewrite andb_true_r].
  apply subtract_intervals_covers.
Qed.

Lemma root_authority_exact_witness :
  is_active_founder (RosterSamples.rules "founder_only")
    (authorized_roster_state_at [RosterSamples.founder "ann"] (RosterSamples.rules "founder_only")
      (map unmoderated RosterSamples.history) 7%Z) 7%Z "cy" = true.
Proof.
  rewrite <- (root_authority_exact 0%Z [RosterSamples.founder "ann"] (RosterSamples.rules "founder_only")
    RosterSamples.history {["cy"]} "cy" 7%Z).
  - vm_compute. reflexivity.
  - set_solver.
  - lia.
Defined.

Module BearingSamples.
Definition agreed : OccurrenceAssertion := mk_OccurrenceAssertion "box" "ann" 3%Z None (Some "ann").
Definition renewed : OccurrenceAssertion := mk_OccurrenceAssertion "box" "ann" 1%Z (Some 9%Z) (Some "box").
Definition holds_node (k : string) : unit + bool := inr (k =s "box").
Definition history_of (k : string) : unit + list OccurrenceAssertion := inr (if k =s "ann" then [renewed; agreed] else []).
Definition revocations_of (i k : string) : unit + list instant := inr [5%Z].
End BearingSamples.

(** C23. Bearing [node] is by one's own agreement: a key bears [node] at an instant exactly
    when its own record holds it, or some assertion binds it to another key that holds
    [node], made by then, not expired and not met by a revocation of the binding dated
    between the assertion and the instant, while by then the key itself has signed an
    assertion of that binding. Another's signature alone never strips a seat. *)
Theorem node_bearing_exact {E} (holds_node : string -> E + bool) (history_of : string -> E + list OccurrenceAssertion)
    (revocations_of : string -> string -> E + list instant) (k : string) (t : instant)
    (history : list OccurrenceAssertion) (b : bool) (next : option instant) :
  history_of k = inr history ->
  node_bearing_at_with_next holds_node history_of revocations_of k t = inr (b, next) ->
  b = true <-> holds_node k = inr true \/ bound_to_node holds_node revocations_of history k t.
Proof.
  intros Hh Hn. unfold node_bearing_at_with_next, node_bearing_of in Hn. apply bind_ok in Hn as ([own ivs] & Ho & Hn).
  injection Hn as Hb _. apply bind_ok in Ho as ([] & Hown & Ho).
  { injection Ho as <- <-. subst b. naive_solver. }
  apply bind_ok in Ho as (hs & Ehs & Ho). rewrite Hh in Ehs. injection Ehs as <-.
  apply bind_ok in Ho as (ivs' & Hi & Ho). injection Ho as <- <-. subst b. cbn [orb]. fold (covers ivs' t).
  rewrite (node_identities_covers _ _ _ _ _ _ _ Hi). clear Hi. setoid_rewrite dedup_sorted_In. setoid_rewrite identity_intervals_covers.
  split.
  - intros (i & ag & rv & Hin & Hhi & Hag & Hr & Hle & a & Ha & Hai & Hf). right.
    apply sort_by_In, filter_In in Hin as [_ Hne]. apply negb_true_iff, String.eqb_neq in Hne.
    destruct (proj1 (agreed_from_in_le history i k t)) as (c & ?); [by exists ag|]. exists a, c, rv. naive_solver.
  - intros [?|(a & c & rv & Ha & Hne & Hhi & Hc & Hci & Hck & Hca & Hle & Hr & Hf)]; [congruence|].
    destruct (proj2 (agreed_from_in_le history (oa_identity_key_id a) k t)) as (ag & Hag & Hagle); [by exists c|].
    exists (oa_identity_key_id a), ag, rv. split_and!; try done; [|by exists a].
    apply sort_by_In, filter_In. split; [by apply in_map|by apply negb_true_iff, String.eqb_neq].
Qed.

Lemma node_bearing_exact_witness :
  bound_to_node BearingSamples.holds_node BearingSamples.revocations_of [BearingSamples.renewed; BearingSamples.agreed] "ann" 4%Z.
Proof.
  destruct (proj1 (node_bearing_exact BearingSamples.holds_node BearingSamples.history_of BearingSamples.revocations_of
    "ann" 4%Z [BearingSamples.renewed; BearingSamples.agreed] true (Some 5%Z) eq_refl eq_refl) eq_refl) as [Ho|Hb];
    [discriminate Ho|exact Hb].
Defined.

(** A bearing answer holds to the edge it names: the edge is later than the instant asked,
    and until it, or for good when there is none, every later instant gets the same answer
    and is told the same edge. *)
Theorem node_bearing_until {E} (holds_node : string -> E + bool) (history_of : string -> E + list OccurrenceAssertion)
    (revocations_of : string -> string -> E + list instant) (k : string) (t t' : instant) (b : bool) (next : option instant) :
  node_bearing_at_with_next holds_node history_of revocations_of k t = inr (b, next) ->
  (t <= t')%Z -> (forall n, next = Some n -> (t' < n)%Z) ->
  (forall n, next = Some n -> (t < n)%Z) /\
  node_bearing_at_with_next holds_node history_of revocations_of k t' = inr (b, next).
Proof.
  unfold node_bearing_at_with_next. intros Hn Hle Hlt. split.
  { intros n Hx. apply bind_ok in Hn as ([own ivs] & _ & Hn). injection Hn as _ Hn. subst next. apply earliest_spec in Hx as [Hx _].
    apply filter_In in Hx as [_ Hx]. by apply Z.ltb_lt. }
  apply bind_ok in Hn as ([own ivs] & -> & Hn). injection Hn as Hb Hn. rewrite ok_bind.
  set (edges := concat (map edges_of ivs)) in *.
  assert (Hedge : forall x, In x edges -> (x <=? t)%Z = (x <=? t')%Z).
  { intros x Hx. destruct (Z.leb_spec x t), (Z.leb_spec x t'); try lia.
    assert (In x (List.filter (fun edge => (t <? edge)%Z) edges)) as Hin by (apply filter_In; split; [done|by apply Z.ltb_lt]).
    destruct (earliest (List.filter (fun edge => (t <? edge)%Z) edges)) as [n|] eqn:Ee; [|by apply earliest_none in Ee; rewrite Ee in Hin].
    apply earliest_spec in Ee as [_ Ee]. specialize (Ee x Hin). subst next. specialize (Hlt n eq_refl). lia. }
  assert (covers ivs t' = covers ivs t) as Hc.
  { unfold covers. assert (forall iv, In iv ivs -> in_interval t' iv = in_interval t iv) as Hi.
    { intros [s e] Hin. assert (forall x, In x (edges_of (s, e)) -> In x edges) as He
        by (intros x Hx; apply in_concat; exists (edges_of (s, e)); split; [by apply in_map|done]).
      unfold in_interval. cbn [fst snd]. rewrite (Hedge s) by (apply He; by left). f_equal. destruct e as [e|]; [|done].
      rewrite !Z.ltb_antisym. by rewrite (Hedge e) by (apply He; right; by left). }
    clear -Hi. induction ivs as [|iv l IH]; [done|]. cbn [existsb]. rewrite Hi, IH by auto using in_eq, in_cons. done. }
  assert (List.filter (fun edge => (t' <? edge)%Z) edges = List.filter (fun edge => (t <? edge)%Z) edges) as ->.
  { apply filter_ext_in. intros x Hx. rewrite !Z.ltb_antisym. by rewrite Hedge. }
  unfold covers in Hc. by rewrite Hc, Hb, Hn.
Qed.

Lemma node_bearing_until_witness :
  node_bearing_at_with_next BearingSamples.holds_node BearingSamples.history_of BearingSamples.revocations_of "ann" 4%Z
  = inr (true, Some 5%Z).
Proof.
  apply (node_bearing_until BearingSamples.holds_node BearingSamples.history_of BearingSamples.revocations_of "ann" 3%Z);
    [vm_compute; reflexivity|lia|intros n [= <-]; lia].
Defined.
