(* ===== verification/RosterPrepare.v ===== *)
(** * From stored rows to the roster, whatever order they arrived in

    [prepare_roster_events] of [Roster] reads a group's stored rows, their signers, the
    moderators behind them and the objections against them, and the fold of [RosterFold]
    replays what it prepares. Two nodes that hold the same rows come to the same roster. *)

From Stdlib Require Import ZArith NArith Lia Ascii String.
From stdpp Require Import base list strings gmap sorting.
From S2P Require Import Prelude RustStd Json ReverseQuorum Consensus TwoPath Roster RosterFold.

Open Scope string_scope.
Open Scope list_scope.
Open Scope persist_scope.

(** ** Maps that may fail, over permuted lists *)

Lemma mapM_perm {E A B} (f : A -> E + B) l l' k :
  Permutation l l' -> mapM f l = inr k -> exists k', mapM f l' = inr k' /\ Permutation k k'.
Proof.
  intros Hp. revert k. induction Hp as [|x l l' Hp IH|x y l|l1 l2 l3 H1 IH1 H2 IH2]; intros k Hk.
  - by exists k.
  - cbn [mapM] in *. apply bind_ok in Hk as (y & Hy & Hk). apply bind_ok in Hk as (k0 & Hk0 & Hk). injection Hk as <-.
    destruct (IH _ Hk0) as (k' & Hk' & Hp'). exists (y :: k'). rewrite Hy, ok_bind, Hk', ok_bind. split; [done|by constructor].
  - cbn [mapM] in *. apply bind_ok in Hk as (a & Ha & Hk). apply bind_ok in Hk as (k0 & Hk0 & Hk). injection Hk as <-.
    apply bind_ok in Hk0 as (b & Hb & Hk0). apply bind_ok in Hk0 as (k1 & Hk1 & Hk0). injection Hk0 as <-.
    exists (b :: a :: k1). rewrite Hb, ok_bind, Ha, ok_bind, Hk1, !ok_bind. split; [done|constructor].
  - destruct (IH1 _ Hk) as (k2 & Hk2 & Hp2). destruct (IH2 _ Hk2) as (k3 & Hk3 & Hp3). exists k3. split; [done|by etrans].
Qed.

(** A key that each answer shares with its argument. *)
Lemma mapM_keys {E A B K} (f : A -> E + B) (key : A -> K) (key' : B -> K) l k :
  (forall x y, f x = inr y -> key' y = key x) -> mapM f l = inr k -> map key' k = map key l.
Proof.
  intros Hf. revert k. induction l as [|x l IH]; intros k Hk; [by injection Hk as <-|]. cbn [mapM] in Hk.
  apply bind_ok in Hk as (y & Hy & Hk). apply bind_ok in Hk as (k0 & Hk0 & Hk). injection Hk as <-.
  cbn [map]. by rewrite (Hf _ _ Hy), (IH _ Hk0).
Qed.

Lemma mapM_inr {E A B} (f : A -> B) l : mapM (fun x => inr (f x) : E + B) l = inr (map f l).
Proof. induction l as [|x l IH]; [done|]. cbn [mapM]. by rewrite IH. Qed.

(** Finding by a key that tells the elements apart does not depend on their order. *)
Lemma find_perm {A B} (p : A -> bool) (key : A -> B) l l' :
  NoDup (map key l) -> (forall x y, p x = true -> p y = true -> key x = key y) -> Permutation l l' ->
  List.find p l = List.find p l'.
Proof.
  intros Hnd Hp Hperm. destruct (List.find p l) as [x|] eqn:Ex, (List.find p l') as [y|] eqn:Ey; [f_equal| | |done].
  - apply find_some in Ex as [Hx Px], Ey as [Hy Py]. apply (map_key_inj key l); auto. by apply (Permutation_in _ (Permutation_sym Hperm)).
  - apply find_some in Ex as [Hx Px]. apply (Permutation_in _ Hperm) in Hx. by rewrite (find_none _ _ Ey _ Hx) in Px.
  - apply find_some in Ey as [Hy Py]. apply (Permutation_in _ (Permutation_sym Hperm)) in Hy. by rewrite (find_none _ _ Ex _ Hy) in Py.
Qed.

(** ** What tells rows apart *)

Definition stored_id (ev : StoredRosterEvent) : instant * bool * string := (st_effective_at ev, st_is_add ev, cm_key_id (st_member ev)).

Definition signer_id (s : RosterEventSigner) : string * instant := (rs_member_key_id s, rs_effective_at s).

(** The same signer rows, each keyed by its member and instant. *)
Definition same_signers (a b : CommunityRosterSigners) : Prop :=
  NoDup (map signer_id (widening_signers a)) /\ NoDup (map signer_id (revocation_signers a)) /\
  Permutation (widening_signers a) (widening_signers b) /\ Permutation (revocation_signers a) (revocation_signers b).

Lemma row_signer_same a b ev : same_signers a b -> row_signer a ev = row_signer b ev.
Proof.
  intros (Hw & Hr & Pw & Pr). unfold row_signer.
  assert (forall x y, (rs_member_key_id x =s cm_key_id (st_member ev)) && (rs_effective_at x =? st_effective_at ev)%Z = true ->
    (rs_member_key_id y =s cm_key_id (st_member ev)) && (rs_effective_at y =? st_effective_at ev)%Z = true ->
    signer_id x = signer_id y).
  { intros x y Hx Hy. unfold signer_id. rewrite andb_true_iff, String.eqb_eq, Z.eqb_eq in Hx, Hy. naive_solver congruence. }
  destruct (st_is_add ev); by apply (find_perm _ signer_id).
Qed.

Lemma first_pass_same a b ev : same_signers a b -> first_pass a ev = first_pass b ev.
Proof. intros Hs. unfold first_pass. by rewrite (row_signer_same a b). Qed.

Lemma reverse_candidate_same rules a b ev : same_signers a b -> reverse_candidate rules a ev = reverse_candidate rules b ev.
Proof. intros Hs. unfold reverse_candidate. by rewrite (row_signer_same a b). Qed.

(** ** The passes as maps *)

Section Passes.
Context `{StrictMajority} {E : Type} (reads : GroupReads E) (MIN_UTC now : instant) (ms : list CommunityMember) (rules : RosterRules).

Definition moderated (intervals : RootAuthorityIntervals) (roots : gset string) (e : RosterEvent) : E + RosterEvent :=
  if bool_decide (re_signers e = ∅) then inr e
  else m ← moderator_roots_at reads intervals (re_signers e) (effective_at e) (sort_strings (elements roots));
       inr (set_moderators e m).

Lemma second_pass_mapM intervals roots events :
  second_pass reads intervals roots events = mapM (moderated intervals roots) events.
Proof. induction events as [|e l IH]; [done|]. cbn [second_pass mapM]. by rewrite IH. Qed.

Definition judged_by (roster0 : list string) (policy : option ReverseQuorumPolicy) (holders : option (list string))
    (ec : RosterEvent * option (string * string)) : E + RosterEvent :=
  match ec with
  | (e, None) => inr e
  | (e, Some (actor, row_hash)) =>
      fold ← resolve_reverse_quorum_with reads roster0 policy holders actor row_hash (effective_at e);
      inr (set_reversed e (roster_reversal_stands (re_is_add e) fold))
  end.

Lemma third_pass_mapM roster0 policy holders l :
  third_pass reads roster0 policy holders l = mapM (judged_by roster0 policy holders) l.
Proof.
  induction l as [|[e [[actor h]|]] l IH]; [done|..]; cbn [third_pass mapM judged_by]; [|by rewrite IH].
  destruct (resolve_reverse_quorum_with _ _ _ _ _ _ _); [done|]. by rewrite ok_bind, ok_bind, IH.
Qed.

(** One stored row through the first two passes, with its candidate. *)
Definition entered (signers : CommunityRosterSigners) (moderation_roots : option (RootAuthorityIntervals * gset string))
    (ev : StoredRosterEvent) : E + (RosterEvent * option (string * string)) :=
  e ← match moderation_roots with
      | Some (intervals, roots) => moderated intervals roots (first_pass signers ev)
      | None => inr (first_pass signers ev)
      end;
  inr (e, reverse_candidate rules signers ev).

Lemma mapM_pair {A B C} (f : A -> B) (g : B -> E + B) (c : A -> C) l :
  mapM (fun x => e ← g (f x); inr (e, c x)) l = (es ← mapM g (map f l); inr (combine es (map c l))).
Proof.
  induction l as [|x l IH]; [done|]. cbn [mapM map]. rewrite IH. destruct (g (f x)) as [|e]; [done|]. rewrite !ok_bind.
  by destruct (mapM g (map f l)).
Qed.

Lemma mapM_length {A B} (f : A -> E + B) l k : mapM f l = inr k -> length k = length l.
Proof.
  intros Hk. apply (mapM_keys f (fun _ => tt) (fun _ => tt)) in Hk; [|done].
  by rewrite <- (length_map (fun _ => tt) k), Hk, length_map.
Qed.

Lemma map_fst_combine {A B} (l : list A) (k : list B) : length l = length k -> map fst (combine l k) = l.
Proof. revert k. induction l as [|x l IH]; intros [|y k] Hl; try done. cbn. f_equal. apply IH. by injection Hl. Qed.
Lemma map_snd_combine {A B} (l : list A) (k : list B) : length l = length k -> map snd (combine l k) = k.
Proof. revert k. induction l as [|x l IH]; intros [|y k] Hl; try done. cbn. f_equal. apply IH. by injection Hl. Qed.

(** What the third pass reads of the first two. *)
Definition objected (moderated_group : bool) (rows : list (RosterEvent * option (string * string))) : E + list RosterEvent :=
  let events := map fst rows in
  if forallb (fun c => negb (is_some c)) (map snd rows) then inr events
  else
    let state0 := authorized_roster_state_at ms rules events now in
    let roster0 := map fst (List.filter (fun kv : string * (bool * CommunityMember) => fst (snd kv)) (entries state0)) in
    let policy := parse (rr_protocol rules) in
    holders ←
      (if moderated_group && is_some (p ← policy; steward p)
       then out ← duty_holders_of reads rules now (entries state0); inr (Some (sort_strings (elements out)))
       else inr None);
    mapM (judged_by roster0 policy holders) rows.

Definition intervals_of (signers : CommunityRosterSigners) (stored : list StoredRosterEvent) (moderation_roots : option (gset string)) :=
  match moderation_roots with
  | Some roots => Some (root_authority_intervals MIN_UTC ms rules (map (first_pass signers) stored) roots, roots)
  | None => None
  end.

Lemma prepare_by_rows stored signers moderation_roots :
  prepare_roster_events reads MIN_UTC now ms rules stored signers moderation_roots
  = rows ← mapM (entered signers (intervals_of signers stored moderation_roots)) stored;
    objected (is_some moderation_roots) rows.
Proof.
  unfold prepare_roster_events, entered, intervals_of. 
  destruct moderation_roots as [roots|]; cbv beta iota.
  - rewrite (mapM_pair (first_pass signers) (moderated _ roots)), second_pass_mapM.
    destruct (mapM (moderated _ roots) _) as [|es] eqn:Ees; [done|]. rewrite !ok_bind. apply mapM_length in Ees.
    rewrite length_map in Ees. unfold objected. cbn zeta. rewrite map_fst_combine, map_snd_combine by (by rewrite length_map).
    case_if; [done|]. apply bind_ext. intros holders. apply third_pass_mapM.
  - rewrite (mapM_pair (first_pass signers) (fun e => inr e)), mapM_inr, map_id, !ok_bind.
    unfold objected. cbn zeta. rewrite map_fst_combine, map_snd_combine by (by rewrite !length_map).
    case_if; [done|]. apply bind_ext. intros holders. apply third_pass_mapM.
Qed.

(** ** Other orders of the same rows *)

Lemma root_authority_perm events events' roots :
  NoDup (map event_id events) -> Permutation events events' ->
  root_authority_intervals MIN_UTC ms rules events roots = root_authority_intervals MIN_UTC ms rules events' roots.
Proof.
  intros Hnd Hp. unfold root_authority_intervals.
  rewrite (sort_events_perm (map unmoderated events) (map unmoderated events')); [done|by rewrite map_map|by rewrite Hp].
Qed.

Lemma first_pass_ids signers stored : map event_id (map (first_pass signers) stored) = map stored_id stored.
Proof. by rewrite map_map. Qed.

Lemma intervals_of_same a b stored stored' mr :
  same_signers a b -> NoDup (map stored_id stored) -> Permutation stored stored' ->
  intervals_of a stored mr = intervals_of b stored' mr.
Proof.
  intros Hs Hnd Hp. unfold intervals_of. destruct mr as [roots|]; [|done]. do 2 f_equal.
  apply root_authority_perm; [by rewrite first_pass_ids|].
  rewrite (map_ext (first_pass b) (first_pass a)) by (intros; symmetry; by apply first_pass_same). by rewrite Hp.
Qed.

Lemma entered_same a b iv ev : same_signers a b -> entered a iv ev = entered b iv ev.
Proof. intros Hs. unfold entered. by rewrite (first_pass_same a b), (reverse_candidate_same rules a b). Qed.

Lemma entered_id signers iv ev row : entered signers iv ev = inr row -> event_id (fst row) = stored_id ev.
Proof.
  unfold entered. intros He. apply bind_ok in He as (e & He & Hr). injection Hr as <-. cbn [fst].
  destruct iv as [[iv roots]|]; [|by injection He as <-]. unfold moderated in He. case_bool_decide; [by injection He as <-|].
  apply bind_ok in He as (m & _ & He). by injection He as <-.
Qed.

Lemma judged_id roster0 policy holders row e :
  judged_by roster0 policy holders row = inr e -> event_id e = event_id (fst row).
Proof.
  destruct row as [x [[actor h]|]]; cbn [judged_by fst]; intros He; [|by injection He as <-].
  apply bind_ok in He as (fold & _ & He). by injection He as <-.
Qed.

Lemma objected_ids mg rows events : objected mg rows = inr events -> map event_id events = map event_id (map fst rows).
Proof.
  unfold objected. cbn zeta. case_if; intros Ho; [by injection Ho as <-|]. apply bind_ok in Ho as (holders & _ & Ho).
  rewrite (map_map fst). eapply mapM_keys; [|exact Ho]. apply judged_id.
Qed.

Lemma objected_perm mg rows rows' events :
  NoDup (map event_id (map fst rows)) -> Permutation rows rows' -> objected mg rows = inr events ->
  exists events', objected mg rows' = inr events' /\ Permutation events events'.
Proof.
  intros Hnd Hp. unfold objected. cbn zeta.
  assert (forallb (fun c => negb (is_some c)) (map snd rows') = forallb (fun c => negb (is_some c)) (map snd rows)) as ->.
  { apply eq_true_iff_eq. rewrite !forallb_forall. setoid_rewrite in_map_iff.
    split; intros Hf c (x & Ex & Hx); apply Hf; exists x; (split; [done|]);
      [by apply (Permutation_in _ Hp)|by apply (Permutation_in _ (Permutation_sym Hp))]. }
  assert (authorized_roster_state_at ms rules (map fst rows') now = authorized_roster_state_at ms rules (map fst rows) now) as ->.
  { rewrite !authorized_replayed. unfold upto. erewrite sort_events_perm; [done|apply NoDup_map_filter; by rewrite <- Hp|].
    apply perm_filter. by rewrite Hp. }
  case_if; intros Ho; [injection Ho as <-; exists (map fst rows'); by rewrite Hp|].
  apply bind_ok in Ho as (holders & Hh & Ho). rewrite Hh, ok_bind. by apply (mapM_perm _ rows).
Qed.

Lemma prepare_perm stored stored' a b mr events :
  NoDup (map stored_id stored) -> Permutation stored stored' -> same_signers a b ->
  prepare_roster_events reads MIN_UTC now ms rules stored a mr = inr events ->
  NoDup (map event_id events) /\
  exists events', prepare_roster_events reads MIN_UTC now ms rules stored' b mr = inr events' /\ Permutation events events'.
Proof.
  intros Hnd Hp Hs. rewrite !prepare_by_rows. intros He. apply bind_ok in He as (rows & Hr & Ho).
  assert (map event_id (map fst rows) = map stored_id stored) as Hids
    by (rewrite (map_map fst); eapply mapM_keys; [|exact Hr]; apply entered_id).
  split; [by rewrite (objected_ids _ _ _ Ho), Hids|].
  destruct (mapM_perm _ _ _ _ Hp Hr) as (rows' & Hr' & Hpr).
  destruct (objected_perm _ _ _ _ ltac:(by rewrite Hids) Hpr Ho) as (events' & Ho' & Hpe). exists events'. split; [|done].
  rewrite <- (intervals_of_same a b stored stored' mr) by done.
  assert (mapM (entered b (intervals_of a stored mr)) stored' = mapM (entered a (intervals_of a stored mr)) stored') as ->.
  { clear -Hs. induction stored' as [|ev l IH]; [done|]. cbn [mapM]. by rewrite IH, (entered_same a b). }
  by rewrite Hr', ok_bind.
Qed.
End Passes.

(** The preparations of two orders of the same rows replay alike. *)
Lemma prepared_agree `{StrictMajority} {E} (reads : GroupReads E) (MIN_UTC now : instant) (ms : list CommunityMember)
    (rules : RosterRules) (stored stored' : list StoredRosterEvent) (a b : CommunityRosterSigners)
    (moderation_roots : option (gset string)) (events : list RosterEvent) :
  NoDup (map stored_id stored) -> Permutation stored stored' -> same_signers a b ->
  prepare_roster_events reads MIN_UTC now ms rules stored a moderation_roots = inr events ->
  exists events', prepare_roster_events reads MIN_UTC now ms rules stored' b moderation_roots = inr events' /\
    forall as_of, fold_roster ms rules events as_of = fold_roster ms rules events' as_of.
Proof.
  intros Hnd Hp Hs He. destruct (prepare_perm reads MIN_UTC now ms rules _ _ _ _ _ _ Hnd Hp Hs He) as [Hids (events' & He' & Hpe)].
  exists events'. split; [done|]. intros as_of. unfold fold_roster.
  erewrite sort_events_perm; [done|by apply NoDup_map_filter|by apply perm_filter].
Qed.
