(* ===== verification/RosterDoors.v ===== *)
(** * A group's roster as the directory reads it, and the door its rows come in by

    The directory-level functions of [src/src/federation/mod.rs] over the fold of [Roster]:
    a family's and a room's stored events, the authorized rosters, and the standing check
    each incoming row passes. What they ask of other modules (the moderation walks,
    the objection fold, a room's dissolution, the acceptance of a growth, the trust-root and
    affiliation checks) are operations of the directory record. *)

From Stdlib Require Import ZArith NArith Lia Ascii String.
From stdpp Require Import base list strings gmap sorting.
From S2P Require Import Prelude RustStd Json ReverseQuorum Consensus TwoPath TrustRoot Roster RosterFold RosterPrepare.

Open Scope string_scope.
Open Scope list_scope.
Open Scope persist_scope.

Definition COHORT_SUBKIND_INFRASTRUCTURE := "infrastructure".

(** ** Stored groups *)

(** [types.rs], [struct Community]. *)
Record Community := mk_Community {
  community_key_id : string;
  community_name : string;
  co_members : list CommunityMember;
  co_founded_at : instant;
  co_consensus_protocol : string;
  co_policy_blob : option Value;
  co_prev_head_digest : string;
  co_charter_digest : string;
  co_row_hash : string;
}.

(** [FamilyMembershipWidening] and [CommunityMembershipWidening]: the two carry the same
    fields, the group's id named for its kind. *)
Record MembershipWidening := mk_MembershipWidening {
  mw_group_key_id : string;
  mw_member_key_id : string;
  mw_joined_at : instant;
  mw_effective_at : instant;
  mw_role : option string;
  mw_row_hash : string;
}.

(** [FamilyMembershipRevocation] and [CommunityMembershipRevocation], likewise. *)
Record MembershipRevocation := mk_MembershipRevocation {
  mr_group_key_id : string;
  mr_removed_identity_key_id : string;
  mr_removed_at : instant;
  mr_effective_at : instant;
  mr_reason : option string;
  mr_witness_set : list string;
  mr_row_hash : string;
}.

(** [CommunityMembershipWidening::member]. *)
Definition widened_member (w : MembershipWidening) : CommunityMember :=
  mk_CommunityMember (mw_member_key_id w) (mw_joined_at w) (mw_role w).

Definition family_member_as_roster_member (m : FamilyMember) : CommunityMember :=
  mk_CommunityMember (fm_key_id m) (fm_joined_at m) (fm_role m).
Definition roster_member_as_family_member (m : CommunityMember) : FamilyMember :=
  mk_FamilyMember (cm_key_id m) (cm_joined_at m) (cm_role m).

(** The stored events of a group, its widenings first. *)
Definition stored_events (widenings : list MembershipWidening) (revocations : list MembershipRevocation)
    : list StoredRosterEvent :=
  map (fun w => mk_StoredRosterEvent true (widened_member w) (mw_effective_at w) (mw_row_hash w)) widenings
  ++ map (fun r => mk_StoredRosterEvent false
       (mk_CommunityMember (mr_removed_identity_key_id r) (mr_effective_at r) None) (mr_effective_at r) (mr_row_hash r)) revocations.

Definition community_subkind (c : Community) : option string := b ← co_policy_blob c; get_str b "cohort_subkind".

(** [RosterRules::of_community]. *)
Definition of_community (c : Community) (node_bearing : NodeBearingSeats) : RosterRules :=
  mk_RosterRules (co_consensus_protocol c) (community_subkind c) (co_policy_blob c) node_bearing.

Definition founder_candidates (c : Community) (widenings : list MembershipWidening) : gset string :=
  list_to_set (map cm_key_id (List.filter is_founder_member (co_members c)))
  ∪ list_to_set (map mw_member_key_id (List.filter (fun w => opt_is (mw_role w) MEMBER_ROLE_FOUNDER) widenings)).

(** ** Errors *)

Inductive DoorError (E : Type) :=
| ReadFailed (e : E)
| UnknownGroup (group : string)
| RosterAuthorityUnauthorized (rule : RosterRefusal)
| GroupDissolved (group : string) (dissolved_at : instant).
Arguments ReadFailed {E}.
Arguments UnknownGroup {E}.
Arguments RosterAuthorityUnauthorized {E}.
Arguments GroupDissolved {E}.

(** [?] on a read. *)
Definition read {E A} (m : E + A) : DoorError E + A := match m with inl e => inl (ReadFailed e) | inr x => inr x end.

(** ** The directory *)

Record GroupDirectory (E : Type) := mk_GroupDirectory {
  (** [Error::InvalidArgument(_)]. *)
  invalid_argument : E -> bool;
  gd_lookup_family : string -> E + option Family;
  gd_lookup_community : string -> E + option Community;
  gd_lookup_public_key : string -> E + option KeyRecord;
  family_roster_signers : string -> E + CommunityRosterSigners;
  community_roster_signers : string -> E + CommunityRosterSigners;
  list_family_membership_widenings_for : string -> E + list MembershipWidening;
  list_family_membership_revocations_for : string -> E + list MembershipRevocation;
  list_community_membership_widenings_for : string -> E + list MembershipWidening;
  list_community_membership_revocations_for : string -> E + list MembershipRevocation;
  list_identity_occurrence_history_by_occurrence : string -> E + list OccurrenceAssertion;
  (** The occurrence and the instant of each revocation of an identity. *)
  list_identity_occurrence_revocations_for : string -> E + list (string * instant);
  (** Of other modules: the moderation and objection reads of a group, a room's dissolution,
      the growth gate (scope, group, member, role, instant), and the two checks a removal or
      a trust-root grade room meets first. *)
  group_reads : string -> GroupReads E;
  community_dissolved_at : string -> E + option instant;
  check_growth_accepted : string -> string -> string -> option string -> instant -> E + unit;
  check_one_voice_countersign : Community -> string -> gset string -> instant -> E + unit;
  is_trust_root_grade : Community -> bool;
  check_trust_root_roster_change : Community -> gset string -> CommunityMember -> bool -> instant -> E + unit;
}.
Arguments invalid_argument {E}.
Arguments gd_lookup_family {E}.
Arguments gd_lookup_community {E}.
Arguments gd_lookup_public_key {E}.
Arguments family_roster_signers {E}.
Arguments community_roster_signers {E}.
Arguments list_family_membership_widenings_for {E}.
Arguments list_family_membership_revocations_for {E}.
Arguments list_community_membership_widenings_for {E}.
Arguments list_community_membership_revocations_for {E}.
Arguments list_identity_occurrence_history_by_occurrence {E}.
Arguments list_identity_occurrence_revocations_for {E}.
Arguments group_reads {E}.
Arguments community_dissolved_at {E}.
Arguments check_growth_accepted {E}.
Arguments check_one_voice_countersign {E}.
Arguments is_trust_root_grade {E}.
Arguments check_trust_root_roster_change {E}.

Section Directory.
Context `{StrictMajority} {E : Type} (dir : GroupDirectory E) (MIN_UTC now : instant).

(** ** Who bears [node] *)

(** [lookup_public_key(k)?.is_some_and(has_node)]. *)
Definition holds_node_record (k : string) : E + bool :=
  rec ← gd_lookup_public_key dir k;
  inr (is_some_and rec (fun r => set_contains (kr_identity_type r) NODE)).

Definition occurrence_revocations (identity key_id : string) : E + list instant :=
  rs ← list_identity_occurrence_revocations_for dir identity;
  inr (map snd (List.filter (fun r => fst r =s key_id) rs)).

Definition occurrence_agreed_from (identity occurrence : string) : E + option instant :=
  history ← list_identity_occurrence_history_by_occurrence dir occurrence;
  inr (agreed_from_in history identity occurrence).

Definition occurrence_agreed_to (identity occurrence : string) : E + bool :=
  at_ ← occurrence_agreed_from identity occurrence; inr (is_some at_).

Definition is_node_bearing_key_at (key_id : string) (t : instant) : E + bool :=
  bn ← node_bearing_at_with_next holds_node_record (list_identity_occurrence_history_by_occurrence dir) occurrence_revocations key_id t;
  inr (fst bn).

Definition is_node_bearing_key (key_id : string) : E + bool := is_node_bearing_key_at key_id now.

(** The loop over the keys. *)
Fixpoint seats_among (keys : list string) (out : NodeBearingSeats) : E + NodeBearingSeats :=
  match keys with
  | [] => inr out
  | k :: rest =>
      '(own, intervals) ← node_bearing_of holds_node_record (list_identity_occurrence_history_by_occurrence dir) occurrence_revocations k;
      seats_among rest
        (if (own : bool) then mk_NodeBearingSeats ({[k]} ∪ nb_own out) (nb_occurrence out)
         else if negb (is_nil intervals) then mk_NodeBearingSeats (nb_own out) (<[k := intervals]> (nb_occurrence out))
         else out)
  end.

Definition community_node_bearing_seats (c : Community) : E + NodeBearingSeats :=
  if negb (opt_is (community_subkind c) COHORT_SUBKIND_INFRASTRUCTURE) then inr NO_NODE_BEARING_SEATS
  else
    widenings ← list_community_membership_widenings_for dir (community_key_id c);
    let keys : gset string := list_to_set (map cm_key_id (co_members c)) ∪ list_to_set (map mw_member_key_id widenings) in
    seats_among (sort_strings (elements keys)) NO_NODE_BEARING_SEATS.

(** ** The stored events *)

Definition community_roster_events (c : Community) (node_bearing : NodeBearingSeats) : E + list RosterEvent :=
  let id := community_key_id c in
  signers ← community_roster_signers dir id;
  widenings ← list_community_membership_widenings_for dir id;
  revocations ← list_community_membership_revocations_for dir id;
  prepare_roster_events (group_reads dir id) MIN_UTC now (co_members c) (of_community c node_bearing)
    (stored_events widenings revocations) signers (Some (founder_candidates c widenings)).

Definition family_record (f : Family) : list CommunityMember := map family_member_as_roster_member (family_members f).

Definition family_roster_events (f : Family) : E + list RosterEvent :=
  let id := family_key_id f in
  signers ← family_roster_signers dir id;
  widenings ← list_family_membership_widenings_for dir id;
  revocations ← list_family_membership_revocations_for dir id;
  prepare_roster_events (group_reads dir id) MIN_UTC now (family_record f) (of_family (consensus_protocol f))
    (stored_events widenings revocations) signers None.

(** ** The authorized rosters *)

Definition authorized_family_roster_at (f : Family) (as_of : instant) : E + list FamilyMember :=
  events ← family_roster_events f;
  inr (map roster_member_as_family_member
         (authorized_roster_at (family_record f) (of_family (consensus_protocol f)) events as_of)).

(** [FederationDirectory::active_family_members]. *)
Definition active_family_members (family_key_id : string) : DoorError E + list FamilyMember :=
  found ← read (gd_lookup_family dir family_key_id);
  match found with
  | None => inl (UnknownGroup family_key_id)
  | Some f => if is_some (dissolved_at f) then inr [] else read (authorized_family_roster_at f now)
  end.

Definition authorized_community_roster_spans_at (c : Community) (as_of : instant)
    : E + list (CommunityMember * option instant) :=
  nodes ← community_node_bearing_seats c;
  events ← community_roster_events c nodes;
  let rules := of_community c nodes in
  let spans := authorized_roster_spans_at (co_members c) rules events as_of in
  inr (map (fun m => (m, match spans !! cm_key_id m with Some s => s | None => None end))
         (authorized_roster_at (co_members c) rules events as_of)).

Definition authorized_community_roster_at (c : Community) (as_of : instant) : E + list CommunityMember :=
  dissolved ← community_dissolved_at dir (community_key_id c);
  if is_some_and dissolved (fun at_ : instant => (at_ <=? as_of)%Z) then inr []
  else
    nodes ← community_node_bearing_seats c;
    events ← community_roster_events c nodes;
    inr (authorized_roster_at (co_members c) (of_community c nodes) events as_of).

(** [FederationDirectory::active_community_members]. *)
Definition active_community_members (community_key_id : string) : DoorError E + list CommunityMember :=
  found ← read (gd_lookup_community dir community_key_id);
  match found with
  | None => inl (UnknownGroup community_key_id)
  | Some c => read (authorized_community_roster_at c now)
  end.

Definition effective_roster (c : Community) : DoorError E + list CommunityMember :=
  match active_community_members (community_key_id c) with
  | inr v => inr v
  | inl (UnknownGroup _) => inr (co_members c)
  | inl (ReadFailed e) => if invalid_argument dir e then inr (co_members c) else inl (ReadFailed e)
  | inl e => inl e
  end.

(** ** The door *)

(** The closure [is_this_row]. *)
Definition is_this_row (is_revocation : bool) (effective : instant) (k : string) (e : RosterEvent) : bool :=
  Bool.eqb (re_is_add e) (negb is_revocation) && (effective_at e =? effective)%Z && (event_key e =s k).

(** The moderators an incoming row may stand on. *)
Definition door_moderators (group_key_id : string) (record_members : list CommunityMember) (rules : RosterRules)
    (events : list RosterEvent) (moderation_roots : option (gset string)) (signers : gset string)
    (incoming : CommunityMember) (is_revocation held_retry : bool) (effective : instant) : E + gset string :=
  match moderation_roots with
  | Some roots =>
      if negb is_revocation || held_retry then
        let roots := if negb is_revocation && is_founder_member incoming then roots ∖ {[cm_key_id incoming]} else roots in
        moderator_roots_at (group_reads dir group_key_id) (root_authority_intervals MIN_UTC record_members rules events roots)
          signers effective (sort_strings (elements roots))
      else inr ∅
  | None => inr ∅
  end.

(** A row at the door, as the event the fold would replay. *)
Definition incoming_event (is_revocation : bool) (effective : instant) (incoming : CommunityMember)
    (signers moderators : gset string) : RosterEvent :=
  mk_RosterEvent effective (negb is_revocation) incoming signers moderators false.

Definition check_roster_authority_over (scope group_key_id : string) (record_members : list CommunityMember)
    (rules : RosterRules) (events : list RosterEvent) (moderation_roots : option (gset string)) (signers : gset string)
    (incoming : CommunityMember) (is_revocation : bool) (effective : instant) : DoorError E + unit :=
  let this := is_this_row is_revocation effective (cm_key_id incoming) in
  let held_retry := existsb this events in
  let events := List.filter (fun e => negb (this e)) events in
  let state := authorized_roster_state_at record_members rules events effective in
  moderators ← read (door_moderators group_key_id record_members rules events moderation_roots signers incoming
                       is_revocation held_retry effective);
  let e := incoming_event is_revocation effective incoming signers moderators in
  match roster_event_standing rules state e with
  | inl rule => inl (RosterAuthorityUnauthorized rule)
  | inr _ =>
      if negb is_revocation && negb (active state (event_key e)) then
        read (check_growth_accepted dir scope group_key_id (event_key e) (cm_role incoming) effective)
      else inr tt
  end.

(** [group_plane::refuse_if_community_dissolved] and [family_dissolution::refuse_if_dissolved]. *)
Definition refuse_if_community_dissolved (id : string) : DoorError E + unit :=
  dissolved ← read (community_dissolved_at dir id);
  match dissolved with Some at_ => inl (GroupDissolved id at_) | None => inr tt end.
Definition refuse_if_dissolved (f : Family) : DoorError E + unit :=
  match dissolved_at f with Some at_ => inl (GroupDissolved (family_key_id f) at_) | None => inr tt end.

Definition check_community_roster_authority (community_key_id primary : string) (signers : gset string)
    (incoming : CommunityMember) (is_revocation : bool) (effective : instant) : DoorError E + unit :=
  found ← read (gd_lookup_community dir community_key_id);
  match found with
  | None => inr tt
  | Some c =>
      _ ← refuse_if_community_dissolved community_key_id;
      _ ← (if is_revocation && negb (bool_decide (cm_key_id incoming ∈ signers))
           then read (check_one_voice_countersign dir c primary signers effective) else inr tt);
      _ ← (if is_trust_root_grade dir c
           then read (check_trust_root_roster_change dir c signers incoming is_revocation effective) else inr tt);
      nodes ← read (community_node_bearing_seats c);
      events ← read (community_roster_events c nodes);
      widenings ← read (list_community_membership_widenings_for dir community_key_id);
      check_roster_authority_over "community" community_key_id (co_members c) (of_community c nodes) events
        (Some (founder_candidates c widenings)) signers incoming is_revocation effective
  end.

Definition check_family_roster_authority (family_key_id : string) (signers : gset string) (incoming : FamilyMember)
    (is_revocation : bool) (effective : instant) : DoorError E + unit :=
  found ← read (gd_lookup_family dir family_key_id);
  match found with
  | None => inr tt
  | Some f =>
      _ ← refuse_if_dissolved f;
      events ← read (family_roster_events f);
      check_roster_authority_over "family" family_key_id (family_record f) (of_family (consensus_protocol f)) events None
        signers (family_member_as_roster_member incoming) is_revocation effective
  end.

(** [roster_row_signer_set]: the primary and the co-signers. *)
Definition roster_row_signer_set (primary : string) (cosigners : list string) : gset string := list_to_set (primary :: cosigners).
End Directory.

(** ** Lemmas *)

Section DoorLemmas.
Context `{StrictMajority} (rules : RosterRules).
Implicit Types (e : RosterEvent) (events : list RosterEvent) (state : RosterState).

(** Only whether there are moderators counts, not who they are. *)
Lemma stands_moderators state e m :
  m = ∅ <-> moderator_roots e = ∅ -> stands rules state (set_moderators e m) = stands rules state e.
Proof.
  intros Hm. unfold stands, roster_event_standing, standing_without_protocol, moderator_may_act.
  replace (bool_decide (moderator_roots (set_moderators e m) = ∅)) with (bool_decide (moderator_roots e = ∅)); [done|].
  by apply bool_decide_ext.
Qed.

(** The last-founder rule, which looks at no moderator. *)
Definition leaves_no_founder (state : RosterState) (e : RosterEvent) : bool :=
  loses_founder rules state e && N.eqb (founders_after rules state e) 0 && N.ltb 0 (others_after state e).

(** Standing, with the moderators apart. *)
Definition stands_alone (state : RosterState) (e : RosterEvent) : bool :=
  (bool_decide (re_signers e = ∅) || (negb (re_is_add e) && bool_decide (event_key e ∈ re_signers e))
   || match evaluate (ballot_of rules state e) with Admit => true | _ => false end).

Lemma stands_split state e :
  stands rules state e = (moderator_may_act rules e || stands_alone state e) && negb (leaves_no_founder state e).
Proof.
  unfold stands, roster_event_standing, standing_without_protocol, stands_alone, leaves_no_founder.
  destruct (bool_decide (re_signers e = ∅) || _), (moderator_may_act rules e), (evaluate _); cbn [orb];
    rewrite ?ok_bind; try (by destruct (_ && (0 <? _)%N)); by destruct (existsb _ _).
Qed.

Lemma no_moderators_no_act e : moderator_roots e = ∅ -> moderator_may_act rules e = false.
Proof. intros Hm. unfold moderator_may_act. by rewrite bool_decide_eq_true_2. Qed.

(** A row that stands without moderators stands with them; one that does not stands with them
    exactly when they may act and a founder is left. *)
Lemma stands_with_moderators state e m :
  moderator_roots e = ∅ -> stands rules state e = true -> stands rules state (set_moderators e m) = true.
Proof.
  intros Hm. rewrite !stands_split, (no_moderators_no_act e Hm). cbn [orb]. intros [Ha Hl]%andb_true_iff.
  apply andb_true_iff. split; [|done]. by rewrite (Ha : stands_alone state (set_moderators e m) = true), orb_true_r.
Qed.

Lemma stands_by_moderators state e m :
  moderator_roots e = ∅ -> stands rules state e = false ->
  stands rules state (set_moderators e m) = moderator_may_act rules (set_moderators e m) && negb (leaves_no_founder state e).
Proof.
  intros Hm. rewrite !stands_split, (no_moderators_no_act e Hm). cbn [orb].
  change (stands_alone state (set_moderators e m)) with (stands_alone state e).
  change (leaves_no_founder state (set_moderators e m)) with (leaves_no_founder state e).
  destruct (leaves_no_founder state e); cbn [negb]; [by rewrite !andb_false_r|]. rewrite !andb_true_r. intros ->.
  by rewrite orb_false_r.
Qed.

(** An event later than all the others is replayed last. *)
Lemma state_with_last ms events e t :
  (forall x, In x events -> effective_at x <> effective_at e) -> effective_at e = t ->
  authorized_roster_state_at ms rules (events ++ [e]) t =
    if applies rules (authorized_roster_state_at ms rules events t) e
    then state_after (authorized_roster_state_at ms rules events t) e else authorized_roster_state_at ms rules events t.
Proof.
  intros Hne <-. rewrite !authorized_replayed, <- replayed_snoc. f_equal. unfold upto, sort_roster_events, sort_by.
  rewrite List.filter_app. cbn [List.filter]. rewrite Z.leb_refl, fold_left_app. cbn [fold_left].
  fold (sort_by event_before). apply insert_sorted_last, List.Forall_forall. intros x Hx.
  fold (sort_by event_before (List.filter (fun e0 => (effective_at e0 <=? effective_at e)%Z) events)) in Hx.
  rewrite sort_by_In, filter_In in Hx. destruct Hx as [Hx Hle]. apply Z.leb_le in Hle. specialize (Hne x Hx).
  unfold not_after, event_before. destruct (Z.ltb_spec (effective_at e) (effective_at x)); [lia|].
  by destruct (Z.ltb_spec (effective_at x) (effective_at e)); [|lia].
Qed.
End DoorLemmas.

(** ** The rows of two nodes *)

Section SameRows.
Context `{StrictMajority} {E : Type} (MIN_UTC now : instant).
Implicit Types (d : GroupDirectory E).

Definition widening_id (w : MembershipWidening) : string * instant := (mw_member_key_id w, mw_effective_at w).
Definition revocation_id (r : MembershipRevocation) : string * instant := (mr_removed_identity_key_id r, mr_effective_at r).

(** Both reads answer, with the same rows, each keyed. *)
Definition same_plane {A K} (key : A -> K) (a b : E + list A) : Prop :=
  exists l l', a = inr l /\ b = inr l' /\ NoDup (map key l) /\ Permutation l l'.

Lemma stored_ids_NoDup widenings revocations :
  NoDup (map widening_id widenings) -> NoDup (map revocation_id revocations) ->
  NoDup (map stored_id (stored_events widenings revocations)).
Proof.
  intros Hw Hr. unfold stored_events. rewrite map_app, !map_map. apply NoDup_app. split_and!.
  - unfold stored_id. cbn. rewrite <- (map_map widening_id (fun k : string * instant => (snd k, true, fst k))).
    apply NoDup_fmap_2; [|done]. by intros [] [] [= -> ->].
  - intros x Hx Hy. apply list_elem_of_In, in_map_iff in Hx as (w & <- & _).
    apply list_elem_of_In, in_map_iff in Hy as (r & Er & _). discriminate Er.
  - unfold stored_id. cbn. rewrite <- (map_map revocation_id (fun k : string * instant => (snd k, false, fst k))).
    apply NoDup_fmap_2; [|done]. by intros [] [] [= -> ->].
Qed.

Lemma stored_events_perm w w' r r' : Permutation w w' -> Permutation r r' -> Permutation (stored_events w r) (stored_events w' r').
Proof. intros Hw Hr. unfold stored_events. by rewrite Hw, Hr. Qed.

Lemma founder_candidates_perm c w w' : Permutation w w' -> founder_candidates c w = founder_candidates c w'.
Proof.
  intros Hw. unfold founder_candidates. f_equal. apply set_eq. intros x. rewrite !elem_of_list_to_set, !list_elem_of_In.
  split; apply Permutation_in; apply Permutation_map; (apply perm_filter; [by try symmetry]) || by rewrite Hw.
Qed.
(** Two directories with the same rows of one group, and the same answers to everything else. *)
Record same_room d d' (c : Community) : Prop := {
  room_widenings : same_plane widening_id (list_community_membership_widenings_for d (community_key_id c))
                     (list_community_membership_widenings_for d' (community_key_id c));
  room_revocations : same_plane revocation_id (list_community_membership_revocations_for d (community_key_id c))
                       (list_community_membership_revocations_for d' (community_key_id c));
  room_signers : exists a b, community_roster_signers d (community_key_id c) = inr a /\
                   community_roster_signers d' (community_key_id c) = inr b /\ same_signers a b;
  room_dissolved : community_dissolved_at d (community_key_id c) = community_dissolved_at d' (community_key_id c);
  room_reads : group_reads d (community_key_id c) = group_reads d' (community_key_id c);
  room_keys k : gd_lookup_public_key d k = gd_lookup_public_key d' k;
  room_history k : list_identity_occurrence_history_by_occurrence d k = list_identity_occurrence_history_by_occurrence d' k;
  room_occurrence_revocations k : list_identity_occurrence_revocations_for d k = list_identity_occurrence_revocations_for d' k;
}.

Record same_family d d' (f : Family) : Prop := {
  family_widenings : same_plane widening_id (list_family_membership_widenings_for d (family_key_id f))
                       (list_family_membership_widenings_for d' (family_key_id f));
  family_revocations : same_plane revocation_id (list_family_membership_revocations_for d (family_key_id f))
                         (list_family_membership_revocations_for d' (family_key_id f));
  family_signers : exists a b, family_roster_signers d (family_key_id f) = inr a /\
                     family_roster_signers d' (family_key_id f) = inr b /\ same_signers a b;
  family_reads : group_reads d (family_key_id f) = group_reads d' (family_key_id f);
}.

(** Reads that answer alike make bearing answers alike. *)
Lemma node_bearing_of_ext {F} (h h' : string -> F + bool) (g g' : string -> F + list OccurrenceAssertion)
    (r r' : string -> string -> F + list instant) k :
  (forall x, h x = h' x) -> (forall x, g x = g' x) -> (forall x y, r x y = r' x y) ->
  node_bearing_of h g r k = node_bearing_of h' g' r' k.
Proof.
  intros Hh Hg Hr. unfold node_bearing_of. rewrite Hh. apply bind_ext. intros []; [done|]. rewrite Hg. apply bind_ext.
  intros history. assert (forall ids, node_identities h r history k ids = node_identities h' r' history k ids) as ->; [|done].
  intros ids. induction ids as [|i ids IH]; [done|]. cbn [node_identities]. rewrite Hh. apply bind_ext. intros []; [|done]. cbn [negb].
  destruct (agreed_from_in history i k); [|done]. rewrite Hr. apply bind_ext. intros revs. by rewrite IH.
Qed.

Lemma seats_same d d' c : same_room d d' c -> community_node_bearing_seats d c = community_node_bearing_seats d' c.
Proof.
  intros Hs. unfold community_node_bearing_seats. case_if; [done|].
  destruct (room_widenings _ _ _ Hs) as (w & w' & -> & -> & _ & Hp). rewrite !ok_bind. cbn zeta.
  replace (list_to_set (map mw_member_key_id w') : gset string) with (list_to_set (map mw_member_key_id w) : gset string).
  - generalize NO_NODE_BEARING_SEATS. induction (sort_strings _) as [|k ks IH]; intros out; [done|]. cbn [seats_among].
    rewrite (node_bearing_of_ext (holds_node_record d) (holds_node_record d') _ (list_identity_occurrence_history_by_occurrence d')
      (occurrence_revocations d) (occurrence_revocations d')).
    + apply bind_ext. intros [own ivs]. apply IH.
    + intros x. unfold holds_node_record. by rewrite (room_keys _ _ _ Hs).
    + apply (room_history _ _ _ Hs).
    + intros x y. unfold occurrence_revocations. by rewrite (room_occurrence_revocations _ _ _ Hs).
  - apply set_eq. intros x. rewrite !elem_of_list_to_set, !list_elem_of_In. split; apply Permutation_in; by rewrite Hp.
Qed.

Lemma room_events_same d d' c nodes events :
  same_room d d' c -> community_roster_events d MIN_UTC now c nodes = inr events ->
  exists events', community_roster_events d' MIN_UTC now c nodes = inr events' /\
    forall as_of, fold_roster (co_members c) (of_community c nodes) events as_of
                  = fold_roster (co_members c) (of_community c nodes) events' as_of.
Proof.
  intros Hs. unfold community_roster_events. cbn zeta.
  destruct (room_signers _ _ _ Hs) as (a & b & -> & -> & Hab), (room_widenings _ _ _ Hs) as (w & w' & -> & -> & Hwd & Hw),
    (room_revocations _ _ _ Hs) as (r & r' & -> & -> & Hrd & Hr). rewrite !ok_bind, <- (room_reads _ _ _ Hs).
  rewrite <- (founder_candidates_perm c w w') by done.
  apply prepared_agree; [by apply stored_ids_NoDup|by apply stored_events_perm|done].
Qed.

Lemma family_events_same d d' f events :
  same_family d d' f -> family_roster_events d MIN_UTC now f = inr events ->
  exists events', family_roster_events d' MIN_UTC now f = inr events' /\
    forall as_of, fold_roster (family_record f) (of_family (consensus_protocol f)) events as_of
                  = fold_roster (family_record f) (of_family (consensus_protocol f)) events' as_of.
Proof.
  intros Hs. unfold family_roster_events. cbn zeta.
  destruct (family_signers _ _ _ Hs) as (a & b & -> & -> & Hab), (family_widenings _ _ _ Hs) as (w & w' & -> & -> & Hwd & Hw),
    (family_revocations _ _ _ Hs) as (r & r' & -> & -> & Hrd & Hr). rewrite !ok_bind, <- (family_reads _ _ _ Hs).
  apply prepared_agree; [by apply stored_ids_NoDup|by apply stored_events_perm|done].
Qed.
End SameRows.

(** ** Properties *)

Module GroupSamples.
(** A family of ann's, with bob widened in at 5 by ann, and out at 7 by a stranger. *)
Definition house : Family :=
  mk_Family "house" "House" [mk_FamilyMember "ann" 0%Z (Some "founder")] 0%Z "founder_only" false None "" "" "".
Definition bob_in := mk_MembershipWidening "house" "bob" 5%Z 5%Z None "h1".
Definition cy_in := mk_MembershipWidening "house" "cy" 6%Z 6%Z None "h2".
Definition bob_out := mk_MembershipRevocation "house" "bob" 7%Z 7%Z None [] "h3".
Definition reads : GroupReads unit := {|
  is_steward_bound := fun _ => inr false;
  moderation_reach_of_at_within := fun _ _ _ => inr [];
  moderation_reach_of_at := fun _ _ => inr [];
  resolve_reverse_quorum_with := fun _ _ _ _ _ _ => inl tt;
|}.
Definition by_ann : CommunityRosterSigners :=
  mk_CommunityRosterSigners None
    [mk_RosterEventSigner "bob" 5%Z (Some "ann") []; mk_RosterEventSigner "cy" 6%Z (Some "ann") []]
    [mk_RosterEventSigner "bob" 7%Z (Some "zed") []].
Definition dir (widenings : list MembershipWidening) : GroupDirectory unit := {|
  invalid_argument := fun _ => false;
  gd_lookup_family := fun k => inr (if k =s "house" then Some house else None);
  gd_lookup_community := fun _ => inr None;
  gd_lookup_public_key := fun _ => inr None;
  family_roster_signers := fun _ => inr by_ann;
  community_roster_signers := fun _ => inr by_ann;
  list_family_membership_widenings_for := fun _ => inr widenings;
  list_family_membership_revocations_for := fun _ => inr [bob_out];
  list_community_membership_widenings_for := fun _ => inr widenings;
  list_community_membership_revocations_for := fun _ => inr [bob_out];
  list_identity_occurrence_history_by_occurrence := fun _ => inr [];
  list_identity_occurrence_revocations_for := fun _ => inr [];
  group_reads := fun _ => reads;
  community_dissolved_at := fun _ => inr None;
  check_growth_accepted := fun _ _ _ _ _ => inr tt;
  check_one_voice_countersign := fun _ _ _ _ => inr tt;
  is_trust_root_grade := fun _ => false;
  check_trust_root_roster_change := fun _ _ _ _ _ => inr tt;
|}.
Definition room : Community :=
  mk_Community "house" "House" [RosterSamples.founder "ann"] 0%Z "founder_only" None "" "" "".
End GroupSamples.

(** C4. Nodes that hold the same rows of a group agree on its roster: whatever the order in
    which each lists the widenings, the revocations and their signers, a room's roster and
    its members' spans, and a family's roster, that one node computes at an instant is the
    one the other computes, moderators, objections and the seats that bear [node] included. *)
Theorem rosters_agree `{StrictMajority} {E} (d d' : GroupDirectory E) (MIN_UTC now as_of : instant) (c : Community) (f : Family) :
  (same_room d d' c -> forall roster spans,
     authorized_community_roster_at d MIN_UTC now c as_of = inr roster ->
     authorized_community_roster_spans_at d MIN_UTC now c as_of = inr spans ->
     authorized_community_roster_at d' MIN_UTC now c as_of = inr roster /\
     authorized_community_roster_spans_at d' MIN_UTC now c as_of = inr spans) /\
  (same_family d d' f -> forall roster,
     authorized_family_roster_at d MIN_UTC now f as_of = inr roster ->
     authorized_family_roster_at d' MIN_UTC now f as_of = inr roster).
Proof.
  split.
  - intros Hs roster spans Hr Hp. unfold authorized_community_roster_at, authorized_community_roster_spans_at in *.
    rewrite <- (room_dissolved _ _ _ Hs), <- (seats_same _ _ _ Hs). apply bind_ok in Hr as (dissolved & -> & Hr). rewrite ok_bind.
    apply bind_ok in Hp as (nodes & Hn & Hp). rewrite Hn in *. rewrite !ok_bind in *.
    apply bind_ok in Hp as (events & He & Hp). destruct (room_events_same _ _ _ _ _ _ _ Hs He) as (events' & He' & Hf).
    rewrite He, He', !ok_bind in *. injection Hp as <-.
    unfold authorized_roster_at, authorized_roster_state_at, authorized_roster_spans_at in *. rewrite <- !Hf.
    case_if; [by injection Hr as <-|]. injection Hr as <-. done.
  - intros Hs roster Hr. unfold authorized_family_roster_at in *. apply bind_ok in Hr as (events & He & Hr).
    destruct (family_events_same _ _ _ _ _ _ Hs He) as (events' & He' & Hf). rewrite He', ok_bind.
    injection Hr as <-. unfold authorized_roster_at, authorized_roster_state_at. by rewrite <- Hf.
Qed.

Lemma rosters_agree_witness :
  authorized_family_roster_at (GroupSamples.dir [GroupSamples.cy_in; GroupSamples.bob_in]) 0%Z 9%Z GroupSamples.house 9%Z
  = inr [mk_FamilyMember "ann" 0%Z (Some "founder"); mk_FamilyMember "bob" 5%Z None; mk_FamilyMember "cy" 6%Z None].
Proof.
  apply (rosters_agree (GroupSamples.dir [GroupSamples.bob_in; GroupSamples.cy_in])
    (GroupSamples.dir [GroupSamples.cy_in; GroupSamples.bob_in]) 0%Z 9%Z 9%Z GroupSamples.room GroupSamples.house).
  - split; [| | |reflexivity].
    + exists [GroupSamples.bob_in; GroupSamples.cy_in], [GroupSamples.cy_in; GroupSamples.bob_in].
      split; [reflexivity|split; [reflexivity|split; [|constructor]]].
      apply NoDup_ListNoDup. repeat constructor; cbn; intuition discriminate.
    + exists [GroupSamples.bob_out], [GroupSamples.bob_out].
      split; [reflexivity|split; [reflexivity|split; [apply NoDup_singleton|reflexivity]]].
    + exists GroupSamples.by_ann, GroupSamples.by_ann. split; [reflexivity|split; [reflexivity|]].
      split; [|split; [apply NoDup_singleton|split; reflexivity]].
      apply NoDup_ListNoDup. repeat constructor; cbn; intuition discriminate.
  - vm_compute. reflexivity.
Defined.

(** The door at an instant no held event has. *)
Lemma fresh_door `{StrictMajority} {E} (dir : GroupDirectory E) (MIN_UTC : instant) (scope group : string)
    (ms : list CommunityMember) (rules : RosterRules) (events : list RosterEvent) (roots : option (gset string))
    (signers : gset string) (incoming : CommunityMember) (is_revocation : bool) (t : instant) (m : gset string) :
  (forall x, In x events -> effective_at x <> t) ->
  door_moderators dir MIN_UTC group ms rules events roots signers incoming is_revocation false t = inr m ->
  check_roster_authority_over dir MIN_UTC scope group ms rules events roots signers incoming is_revocation t =
  match roster_event_standing rules (authorized_roster_state_at ms rules events t)
          (incoming_event is_revocation t incoming signers m) with
  | inl rule => inl (RosterAuthorityUnauthorized rule)
  | inr _ => if negb is_revocation && negb (active (authorized_roster_state_at ms rules events t) (cm_key_id incoming))
             then read (check_growth_accepted dir scope group (cm_key_id incoming) (cm_role incoming) t) else inr tt
  end.
Proof.
  intros Hne Hm.
  assert (Hthis : forall x, In x events -> is_this_row is_revocation t (cm_key_id incoming) x = false).
  { intros x Hx. unfold is_this_row. rewrite (proj2 (Z.eqb_neq _ _)) by (by apply Hne). by rewrite andb_false_r. }
  unfold check_roster_authority_over. rewrite (proj2 (existsb_false _ _) Hthis).
  replace (List.filter (fun x => negb (is_this_row is_revocation t (cm_key_id incoming) x)) events) with events; [by rewrite Hm|].
  clear -Hthis. induction events as [|x l IH]; [done|]. cbn [List.filter]. rewrite Hthis by (by left). cbn [negb].
  f_equal. apply IH. intros y Hy. apply Hthis. by right.
Qed.

(** C5. The door and the fold are one judge but for removals by moderators. Take a row at an
    instant no held event has, whose reversal no objections made, and let [m'] be the moderators
    the fold finds for it: for an addition, some exactly when the door finds some; for a
    removal, any. A row the door admits counts, and the fold replayed with it seats or unseats
    exactly its member. A row the door refuses for want of authority changes nothing if it is
    there all the same, with one exception: the door gives a new removal no moderator standing
    and the fold honours one, so a refused removal that moderators signed is applied exactly
    when the protocol is not self-admission and a founder is left. And a row that seats
    someone not seated already is admitted only past the growth gate. *)
Theorem door_and_fold_agree `{StrictMajority} {E} (dir : GroupDirectory E) (MIN_UTC : instant) (scope group : string)
    (ms : list CommunityMember) (rules : RosterRules) (events : list RosterEvent) (roots : option (gset string))
    (signers : gset string) (incoming : CommunityMember) (is_revocation : bool) (t : instant) (m m' : gset string) :
  (forall x, In x events -> effective_at x <> t) ->
  door_moderators dir MIN_UTC group ms rules events roots signers incoming is_revocation false t = inr m ->
  (is_revocation = false -> m' = ∅ <-> m = ∅) ->
  let door := check_roster_authority_over dir MIN_UTC scope group ms rules events roots signers incoming is_revocation t in
  let row := incoming_event is_revocation t incoming signers m' in
  let before := authorized_roster_state_at ms rules events t in
  let after := authorized_roster_state_at ms rules (events ++ [row]) t in
  let applied := <[cm_key_id incoming := (negb is_revocation, incoming)]> before in
  (door = inr tt -> after = applied) /\
  (forall rule, door = inl (RosterAuthorityUnauthorized rule) ->
     after = if is_revocation && negb (bool_decide (m' = ∅)) && (rr_protocol rules <>s cp.OPEN_SELF_ADMIT)
                && negb (leaves_no_founder rules before row)
             then applied else before) /\
  (door = inr tt -> is_revocation = false -> active before (cm_key_id incoming) = false ->
   check_growth_accepted dir scope group (cm_key_id incoming) (cm_role incoming) t = inr tt).
Proof.
  intros Hne Hm Hmm door row before after applied. set (e := incoming_event is_revocation t incoming signers m).
  assert (Hrow : row = set_moderators e m') by done.
  assert (Hafter : after = if stands rules before row then applied else before) by (unfold after; by rewrite state_with_last).
  assert (Hdoor : door = match roster_event_standing rules before e with
    | inl rule => inl (RosterAuthorityUnauthorized rule)
    | inr _ => if negb is_revocation && negb (active before (cm_key_id incoming))
               then read (check_growth_accepted dir scope group (cm_key_id incoming) (cm_role incoming) t) else inr tt
    end) by (by apply fresh_door).
  assert (Hem : is_revocation = true -> moderator_roots e = ∅).
  { intros ->. unfold door_moderators in Hm. cbn [negb orb] in Hm. destruct roots; by injection Hm as <-. }
  assert (He : stands rules before e = match roster_event_standing rules before e with inr _ => true | inl _ => false end) by done.
  rewrite Hafter, Hdoor. destruct (roster_event_standing rules before e) as [rule|[]]; split_and!; try done.
  - intros _ _. destruct is_revocation; cbn [andb].
    + by rewrite Hrow, stands_by_moderators by auto.
    + rewrite Hrow, stands_moderators by auto. by rewrite He.
  - intros _. replace (stands rules before row) with true; [done|]. rewrite Hrow. destruct is_revocation.
    + by rewrite stands_with_moderators by auto.
    + by rewrite stands_moderators by auto.
  - intros rule. case_if; [|done]. by destruct (check_growth_accepted _ _ _ _ _ _).
  - intros Hd -> Ha. rewrite Ha in Hd. cbn [negb andb] in Hd. by destruct (check_growth_accepted _ _ _ _ _ _) as [|[]].
Qed.

(** A room under its founders, with a member a moderator alone would remove: the door refuses the
    removal, the fold that finds it unseats the member; and a founder's addition counts. *)
Lemma door_and_fold_agree_witness :
  let rules := of_family "founder_only" in
  let events := [RosterSamples.widen 5%Z (RosterSamples.plain "bob") ["ann"]] in
  let before := authorized_roster_state_at [RosterSamples.founder "ann"] rules events 6%Z in
  authorized_roster_state_at [RosterSamples.founder "ann"] rules
    (events ++ [incoming_event false 6%Z (RosterSamples.plain "cy") {["ann"]} ∅]) 6%Z
  = <["cy" := (true, RosterSamples.plain "cy")]> before /\
  authorized_roster_state_at [RosterSamples.founder "ann"] rules
    (events ++ [incoming_event true 6%Z (RosterSamples.plain "bob") {["mod"]} {["ann"]}]) 6%Z
  = <["bob" := (false, RosterSamples.plain "bob")]> before.
Proof.
  split.
  - apply (door_and_fold_agree (GroupSamples.dir []) 0%Z "family" "house" [RosterSamples.founder "ann"] (of_family "founder_only")
      [RosterSamples.widen 5%Z (RosterSamples.plain "bob") ["ann"]] None {["ann"]} (RosterSamples.plain "cy") false 6%Z ∅ ∅).
    + intros x [<-|[]]. discriminate.
    + reflexivity.
    + reflexivity.
    + vm_compute. reflexivity.
  - assert (Hd : exists rule, check_roster_authority_over (GroupSamples.dir []) 0%Z "family" "house" [RosterSamples.founder "ann"]
      (of_family "founder_only") [RosterSamples.widen 5%Z (RosterSamples.plain "bob") ["ann"]] None {["mod"]}
      (RosterSamples.plain "bob") true 6%Z = inl (RosterAuthorityUnauthorized rule)) by (eexists; vm_compute; reflexivity).
    destruct Hd as [rule Hd].
    destruct (door_and_fold_agree (GroupSamples.dir []) 0%Z "family" "house" [RosterSamples.founder "ann"] (of_family "founder_only")
      [RosterSamples.widen 5%Z (RosterSamples.plain "bob") ["ann"]] None {["mod"]} (RosterSamples.plain "bob") true 6%Z ∅ {["ann"]})
      as (_ & Hx & _).
    + intros x [<-|[]]. discriminate.
    + reflexivity.
    + discriminate.
    + rewrite (Hx rule Hd). vm_compute. reflexivity.
Defined.
