(* ===== verification/Membership.v ===== *)
(** * Membership by acceptance

    [src/src/federation/membership_acceptance.rs]: an inviter's proposal, the member's own
    reply, the door those rows come in by, and the growth gate a roster row that seats
    someone new must pass. Also the founding and supersede rules of a group's record. *)

From Stdlib Require Import ZArith NArith Lia Ascii String.
From stdpp Require Import base list strings gmap.
From S2P Require Import Prelude RustStd Json Precedence ReverseQuorum Consensus TwoPath Query TrustRoot TrustBounded.
From S2P Require Import Roster RosterFold RosterPrepare RosterDoors.
From S2P Require CallerScope.

Open Scope string_scope.
Open Scope list_scope.
Open Scope persist_scope.

#[local] Existing Instance CallerScope.TargetPlane_eq_dec.

(** ** Vocabulary *)

Definition PROPOSAL_DIMENSION := "membership:proposal:v1".
Definition ACCEPTANCE_DIMENSION := "membership:acceptance:v1".
Definition DECLINE_DIMENSION := "membership:decline:v1".
Definition MEMBERSHIP_FAMILY_STEM := "membership:".
Definition MEMBERSHIP_PROPOSAL_MAX_TTL_SECS : Z := 2592000.

(** The [RULE_*] tokens of a refusal. *)
Inductive Rule :=
| AcceptanceUnresolved
| ProposalUnresolved
| Declined
| ProposalExpired
| AcceptanceMismatch
| ReplyConflict
| FoundingMemberUnsigned
| SupersedeCannotAdd
| OpenProposalNotOpen
| ServeSeatOwnerUnannounced.

#[export] Instance Rule_eq_dec : EqDecision Rule.
Proof. solve_decision. Defined.

Definition is_retryable_rule (rule : Rule) : bool :=
  match rule with AcceptanceUnresolved | ProposalUnresolved | ServeSeatOwnerUnannounced => true | _ => false end.

(** A panic of the calendar's arithmetic is an answer of its own. *)
Inductive MembershipError :=
| ReadError (e : Error)
| GroupError (e : DoorError Error)
| MembershipAcceptanceRefused (group member : string) (rule : Rule)
| InvalidRow
| FounderOnlyAboveFamily (group : string)
| FounderProposes (group : string)
| Panicked.

(** [?] on a read, and on a group's answer. *)
Definition asks {A} (m : Error + A) : MembershipError + A := match m with inl e => inl (ReadError e) | inr x => inr x end.
Definition of_group {A} (m : DoorError Error + A) : MembershipError + A := match m with inl e => inl (GroupError e) | inr x => inr x end.
(** [ok_or_else] of an [InvalidArgument] about the row. *)
Definition or_invalid {A} (o : option A) : MembershipError + A := match o with Some x => inr x | None => inl InvalidRow end.

Definition refuse {A} (group member : string) (rule : Rule) : MembershipError + A :=
  inl (MembershipAcceptanceRefused group member rule).

(** ** Membership rows *)

Inductive MembershipRow := ProposalRow | AcceptanceRow | DeclineRow.

#[export] Instance MembershipRow_eq_dec : EqDecision MembershipRow.
Proof. solve_decision. Defined.

Definition membership_row (row : Attestation) : option MembershipRow :=
  if Json.attestation_type row <>s attestation_type.SCORES then None
  else
    d ← envelope_dimension (attestation_envelope row);
    if d =s PROPOSAL_DIMENSION then Some ProposalRow
    else if d =s ACCEPTANCE_DIMENSION then Some AcceptanceRow
    else if d =s DECLINE_DIMENSION then Some DeclineRow
    else None.

Definition is_row (kind : MembershipRow) (row : Attestation) : bool := bool_decide (membership_row row = Some kind).

Definition is_invitee_subject_list (row : Attestation) : bool :=
  is_row ProposalRow row && Nat.eqb (length (subject_key_ids row)) 1.

Definition is_standing_proposal (row : Attestation) : bool := is_row ProposalRow row && is_nil (subject_key_ids row).

Definition membership_plane (scope : string) : option CallerScope.TargetPlane := CallerScope.target_plane scope.

Definition same_membership_plane (a b : string) : bool :=
  is_some (membership_plane a) && bool_decide (membership_plane a = membership_plane b).

Definition group_kind_for_scope (scope : string) : option string :=
  p ← membership_plane scope;
  Some (match p with CallerScope.FamilyPlane => "family" | CallerScope.RoomPlane => "community" end).

Definition env_str (row : Attestation) (key : string) : option string := get_str (attestation_envelope row) key.

(** [None] is a role that is neither absent, null nor a string. *)
Definition env_role (row : Attestation) : option (option string) :=
  match get (attestation_envelope row) "role" with
  | None | Some Null => Some None
  | Some (Str s) => Some (Some s)
  | Some _ => None
  end.

(** [admission.rs], [envelope_cohort_target]: the aliases agree, or the row is refused. *)
Definition COHORT_TARGET_ENVELOPE_FIELDS : list string :=
  ["community_id"; "community_key_id"; "cohort_key_id"; "family_key_id"].

Definition target_step (env : Value) (found : option (option string)) (field : string) : option (option string) :=
  match found, get_str env field with
  | Some first, Some v =>
      if v =s "" then found
      else match first with
           | None => Some (Some v)
           | Some x => if x <>s v then None else found
           end
  | _, _ => found
  end.

Definition envelope_cohort_target (env : Value) : option (option string) :=
  fold_left (target_step env) COHORT_TARGET_ENVELOPE_FIELDS (Some None).

(** The group a row names; [None] is an error about the row. *)
Definition group_of (row : Attestation) : option string :=
  kind ← group_kind_for_scope (cohort_scope row);
  if negb (bool_decide (env_str row "group_kind" = Some kind)) then None
  else target ← envelope_cohort_target (attestation_envelope row); target.

Definition membership_group_of (row : Attestation) : option (MembershipRow * string) :=
  kind ← membership_row row; group ← group_of row; Some (kind, group).

(** [DateTime + Duration], which panics past the calendar's end. *)
Definition plus_seconds `{Chrono} (t : instant) (s : Z) : MembershipError + instant :=
  match checked_add_signed t (s * NANOS) with Some u => inr u | None => inl Panicked end.

Definition check_membership_row_shape `{Chrono} (row : Attestation) : MembershipError + unit :=
  match membership_row row with
  | None => inr tt
  | Some kind =>
      if tier row <>s attestation_tier.FEDERATION then inl InvalidRow
      else
        _ ← or_invalid (group_of row);
        _ ← or_invalid (env_role row);
        match kind with
        | ProposalRow =>
            if Nat.ltb 1 (length (subject_key_ids row)) then inl InvalidRow
            else
              expires_at ← or_invalid (Json.expires_at row);
              if (expires_at <=? asserted_at row)%Z then inl InvalidRow
              else
                latest ← plus_seconds (asserted_at row) MEMBERSHIP_PROPOSAL_MAX_TTL_SECS;
                if (latest <? expires_at)%Z then inl InvalidRow else inr tt
        | AcceptanceRow | DeclineRow =>
            if existsb (fun key => is_none_or (env_str row key) (fun v => v =s "")) ["references_attestation_id"; "proposal_hash"]
            then inl InvalidRow else inr tt
        end
  end.

(** ** Proposals and replies *)

Record Proposal := mk_Proposal {
  pr_row : Attestation;
  pr_group : string;
  invitee : option string;
  pr_role : option string;
  pr_expires_at : instant;
}.

Definition as_proposal (row : Attestation) : option Proposal :=
  if negb (is_row ProposalRow row) then None
  else
    group ← group_of row;
    if Nat.ltb 1 (length (subject_key_ids row)) then None
    else
      role ← env_role row;
      expires_at ← Json.expires_at row;
      Some (mk_Proposal row group (hd_error (subject_key_ids row)) role expires_at).

Definition reply_matches (reply : Attestation) (p : Proposal) : bool :=
  bool_decide (group_of reply = Some (pr_group p))
  && same_membership_plane (cohort_scope reply) (cohort_scope (pr_row p))
  && bool_decide (env_str reply "proposal_hash" = Some (original_content_hash (pr_row p)))
  && is_none_or (invitee p) (fun i => attested_key_id reply =s i)
  && (negb (is_row AcceptanceRow reply) || bool_decide (default None (env_role reply) = pr_role p)).

Definition replies_to (replies : list Attestation) (proposal_id : string) : list Attestation :=
  List.filter (fun r => bool_decide (env_str r "references_attestation_id" = Some proposal_id)) replies.

(** A proposal the store holds at the federation tier: [.filter(..).and_then(as_proposal)]. *)
Definition held_proposal (row : option Attestation) : option Proposal :=
  p ← row; if tier p =s attestation_tier.FEDERATION then as_proposal p else None.

(** [filter] with a test that may fail. *)
Fixpoint filterE {E A} (f : A -> E + bool) (l : list A) : E + list A :=
  match l with
  | [] => inr []
  | x :: l' => b ← f x; k ← filterE f l'; inr (if (b : bool) then x :: k else k)
  end.

(** ** The directory *)

Record MembershipDirectory := mk_MembershipDirectory {
  (** Reads of attestations and of groups. *)
  md_rows : Directory;
  md_groups : GroupDirectory Error;
  (** Of [admission.rs]: the identity a writer acts for, the accord's scrub on a key record,
      and whether a serve seat's owner is announced. *)
  admission_identity_for_writer : string -> Error + string;
  key_record_carries_accord_scrub : string -> Error + bool;
  serve_seat_owner_announced : string -> Error + bool;
  (** [stored_founder_only_room(..).is_some()]. *)
  stored_founder_only_room : string -> Error + bool;
  (** [FederationDirectory::check_write_cohort_scope_for], of writer, scope and target. *)
  check_write_cohort_scope_for : string -> string -> option string -> Error + unit;
  (** Of scopes, group and dimension prefix. *)
  list_targeted_by_dimension_prefix : list string -> string -> string -> Error + list Attestation;
  (** The occurrence keys. *)
  list_identity_occurrences_active : string -> Error + list string;
}.

(** [public_room.rs]. *)
Definition is_public_community (c : Community) : bool := opt_is (community_subkind c) COHORT_SUBKIND_PUBLIC.
Definition is_open_admission (c : Community) : bool := co_consensus_protocol c =s cp.OPEN_SELF_ADMIT.

Section Gates.
Context `{StrictMajority} `{Chrono} (dir : MembershipDirectory) (MIN_UTC now : instant).

(** The loop over the rows that name a proposal. *)
Fixpoint withdrawn_by (proposer : string) (rows : list Attestation) : Error + bool :=
  match rows with
  | [] => inr false
  | w :: rest =>
      if Json.attestation_type w =s attestation_type.WITHDRAWS then
        k ← admission_identity_for_writer dir (attesting_key_id w);
        if k =s proposer then inr true else withdrawn_by proposer rest
      else withdrawn_by proposer rest
  end.

Definition proposal_withdrawn (p : Proposal) : Error + bool :=
  proposer ← admission_identity_for_writer dir (attesting_key_id (pr_row p));
  rows ← list_attestations_referencing (md_rows dir) (attestation_id (pr_row p));
  withdrawn_by proposer rows.

Definition replies_of (member : string) : Error + list Attestation :=
  rows ← read_pages (md_rows dir) (dimension_prefix (to_key member FOLD_PAGE) MEMBERSHIP_FAMILY_STEM);
  inr (List.filter (fun r => (tier r =s attestation_tier.FEDERATION) && (is_row AcceptanceRow r || is_row DeclineRow r)) rows).

Definition group_is_held (scope group : string) : Error + bool :=
  match membership_plane scope with
  | Some CallerScope.FamilyPlane => f ← gd_lookup_family (md_groups dir) group; inr (is_some f)
  | _ => c ← gd_lookup_community (md_groups dir) group; inr (is_some c)
  end.

Definition room_is_open (scope group : string) : Error + bool :=
  if negb (bool_decide (membership_plane scope = Some CallerScope.RoomPlane)) then inr false
  else c ← gd_lookup_community (md_groups dir) group;
       inr (is_some_and c (fun c => is_public_community c && is_open_admission c)).

Definition refuse_membership_event_under_founder_only (group : string) : MembershipError + unit :=
  stored ← asks (stored_founder_only_room dir group);
  if (stored : bool) then inl (FounderOnlyAboveFamily group) else inr tt.

(** [answered_proposal_of]. *)
Definition answered_proposal_of (row : Attestation) : Error + option Attestation :=
  if is_row AcceptanceRow row || is_row DeclineRow row then
    match env_str row "references_attestation_id" with
    | None => inr None
    | Some pid =>
        found ← get_attestation (md_rows dir) pid;
        inr (p ← held_proposal found; if reply_matches row p then Some (pr_row p) else None)
    end
  else inr None.

(** ** The door of membership rows *)

Definition check_standing_proposal (row : Attestation) (group : string) : MembershipError + unit :=
  open ←
    (if bool_decide (membership_plane (cohort_scope row) = Some CallerScope.RoomPlane) then
       found ← asks (gd_lookup_community (md_groups dir) group);
       match found with
       | Some c =>
           if is_public_community c && is_open_admission c then
             proposer ← asks (admission_identity_for_writer dir (attesting_key_id row));
             members ← of_group (active_community_members (md_groups dir) MIN_UTC now group);
             inr (existsb (fun m => is_founder_member m
                    && ((cm_key_id m =s proposer) || (cm_key_id m =s attesting_key_id row))) members)
           else inr false
       | None => inr false
       end
     else inr false);
  if (open : bool) then inr tt else refuse group (attesting_key_id row) OpenProposalNotOpen.

Definition check_proposer_under_founder_only (row : Attestation) (group : string) : MembershipError + unit :=
  proposer ← asks (admission_identity_for_writer dir (attesting_key_id row));
  let is_founder_of (k : string) (r : option string) := (k =s proposer) && opt_is r MEMBER_ROLE_FOUNDER in
  ok ←
    (if cohort_scope row =s "family" then
       found ← asks (gd_lookup_family (md_groups dir) group);
       match found with
       | None => inr true
       | Some f =>
           if negb (founders_hold_authority (consensus_protocol f)) then inr true
           else members ← of_group (RosterDoors.active_family_members (md_groups dir) MIN_UTC now group);
                inr (existsb (fun m => is_founder_of (fm_key_id m) (fm_role m)) members)
       end
     else
       found ← asks (gd_lookup_community (md_groups dir) group);
       match found with
       | None => inr true
       | Some c =>
           if negb (founders_hold_authority (co_consensus_protocol c)) then inr true
           else members ← of_group (active_community_members (md_groups dir) MIN_UTC now group);
                inr (existsb (fun m => is_founder_of (cm_key_id m) (cm_role m)) members)
       end);
  if (ok : bool) then inr tt else inl (FounderProposes group).

(** [family_dissolution::refuse_if_held_family_dissolved]. *)
Definition refuse_if_held_family_dissolved (group : string) : MembershipError + unit :=
  found ← asks (gd_lookup_family (md_groups dir) group);
  match found with Some f => of_group (refuse_if_dissolved f) | None => inr tt end.

(** The arm of a reply. *)
Definition check_reply (kind : MembershipRow) (row : Attestation) (group : string) : MembershipError + unit :=
  let member := attested_key_id row in
  found ← asks (get_attestation (md_rows dir) (default "" (env_str row "references_attestation_id")));
  match held_proposal found with
  | None => refuse group member ProposalUnresolved
  | Some p =>
      signer ← asks (admission_identity_for_writer dir (attesting_key_id row));
      invited ← asks (admission_identity_for_writer dir (default member (invitee p)));
      if (signer <>s invited) || negb (reply_matches row p) then refuse group member AcceptanceMismatch
      else
        held ← asks (replies_of member);
        let opposite := match kind with AcceptanceRow => DeclineRow | _ => AcceptanceRow end in
        if existsb (fun r => (attestation_id r <>s attestation_id row) && is_row opposite r)
             (replies_to held (attestation_id (pr_row p)))
        then refuse group member ReplyConflict else inr tt
  end.

Definition check_attestation_write_scope (row : Attestation) : MembershipError + unit :=
  match membership_row row with
  | None =>
      target ← or_invalid (envelope_cohort_target (attestation_envelope row));
      asks (check_write_cohort_scope_for dir (attesting_key_id row) (cohort_scope row) target)
  | Some kind =>
      _ ← check_membership_row_shape row;
      group ← or_invalid (group_of row);
      _ ← (if bool_decide (membership_plane (cohort_scope row) = Some CallerScope.RoomPlane) && negb (bool_decide (kind = DeclineRow))
           then refuse_membership_event_under_founder_only group else inr tt);
      _ ← (if cohort_scope row =s "family" then refuse_if_held_family_dissolved group else inr tt);
      match kind with
      | ProposalRow =>
          held ← asks (group_is_held (cohort_scope row) group);
          if negb held then inr tt
          else
            _ ← asks (check_write_cohort_scope_for dir (attesting_key_id row) (cohort_scope row) (Some group));
            if is_standing_proposal row then check_standing_proposal row group
            else check_proposer_under_founder_only row group
      | AcceptanceRow | DeclineRow => check_reply kind row group
      end
  end.

(** ** The growth gate *)

Definition node_seated_without_acceptance (c : Community) (member : string) (at_ : instant) : Error + bool :=
  if negb (opt_is (community_subkind c) COHORT_SUBKIND_INFRASTRUCTURE) then inr false
  else
    bears ← is_node_bearing_key_at (md_groups dir) member at_;
    if negb bears then inr false else key_record_carries_accord_scrub dir member.

(** The rank of a refusal. *)
Definition rank (r : Rule) : N :=
  match r with
  | Declined | ReplyConflict => 4
  | ProposalExpired => 3
  | AcceptanceMismatch => 2
  | _ => 1
  end.

(** The closure [note]. *)
Definition note (worst : option Rule) (rule : Rule) : option Rule :=
  if is_none_or worst (fun w => (rank w <? rank rule)%N) then Some rule else worst.

Definition in_group (scope group : string) (r : Attestation) : bool :=
  same_membership_plane (cohort_scope r) scope && bool_decide (group_of r = Some group).

(** One acceptance of this group: [None] seats its member, [Some] is why not. *)
Definition judge_acceptance (scope group : string) (member_role : option string) (growth_instant : instant)
    (replies : list Attestation) (a : Attestation) : Error + option Rule :=
  found ← get_attestation (md_rows dir) (default "" (env_str a "references_attestation_id"));
  match held_proposal found with
  | None => inr (Some ProposalUnresolved)
  | Some p =>
      if existsb (is_row DeclineRow) (replies_to replies (attestation_id (pr_row p))) then inr (Some Declined)
      else if negb (reply_matches a p) || negb (bool_decide (pr_role p = member_role)) then inr (Some AcceptanceMismatch)
      else
        closed ← (if is_some (invitee p) then inr false else open ← room_is_open scope group; inr (negb open));
        if (closed : bool) then inr (Some OpenProposalNotOpen)
        else if (pr_expires_at p <? asserted_at a)%Z || (pr_expires_at p <? growth_instant)%Z then inr (Some ProposalExpired)
        else withdrawn ← proposal_withdrawn p; inr (if (withdrawn : bool) then Some ProposalExpired else None)
  end.

(** The loop: [inr None] when an acceptance seats the member, else the worst reason noted. *)
Fixpoint growth_loop (scope group : string) (member_role : option string) (growth_instant : instant)
    (replies accs : list Attestation) (worst : option Rule) : Error + option (option Rule) :=
  match accs with
  | [] => inr (Some worst)
  | a :: rest =>
      if negb (in_group scope group a) then growth_loop scope group member_role growth_instant replies rest worst
      else
        why ← judge_acceptance scope group member_role growth_instant replies a;
        match why with
        | None => inr None
        | Some rule => growth_loop scope group member_role growth_instant replies rest (note worst rule)
        end
  end.

Definition seated_by_founders (scope group member : string) (growth_instant : instant) : Error + bool :=
  if negb (bool_decide (membership_plane scope = Some CallerScope.RoomPlane)) then inr false
  else
    found ← gd_lookup_community (md_groups dir) group;
    match found with Some c => node_seated_without_acceptance c member growth_instant | None => inr false end.

Definition check_growth_accepted (scope group member : string) (member_role : option string) (growth_instant : instant)
    : MembershipError + unit :=
  seated ← asks (seated_by_founders scope group member growth_instant);
  if (seated : bool) then
    announced ← asks (serve_seat_owner_announced dir member);
    if (announced : bool) then inr tt else refuse group member ServeSeatOwnerUnannounced
  else
    replies ← asks (replies_of member);
    verdict ← asks (growth_loop scope group member_role growth_instant replies (List.filter (is_row AcceptanceRow) replies) None);
    match verdict with
    | None => inr tt
    | Some worst =>
        let ours := List.filter (in_group scope group) replies in
        let worst := if negb (existsb (is_row AcceptanceRow) ours) && existsb (is_row DeclineRow) ours
                     then note worst Declined else worst in
        refuse group member (default AcceptanceUnresolved worst)
    end.

(** ** The founding and supersede rules *)

Fixpoint identities (signers : list string) (signed : gset string) : Error + gset string :=
  match signers with
  | [] => inr signed
  | s :: rest => k ← admission_identity_for_writer dir s; identities rest ({[k]} ∪ ({[s]} ∪ signed))
  end.

Fixpoint all_signed (group : string) (signed : gset string) (members : list string) : MembershipError + unit :=
  match members with
  | [] => inr tt
  | m :: rest =>
      if bool_decide (m ∈ signed) then all_signed group signed rest
      else
        k ← asks (admission_identity_for_writer dir m);
        if bool_decide (k ∈ signed) then all_signed group signed rest
        else refuse group m FoundingMemberUnsigned
  end.

Definition check_founding_signers (group : string) (members signers : list string) : MembershipError + unit :=
  signed ← asks (identities signers ∅); all_signed group signed members.

Definition check_community_founding_signers (c : Community) (signers : list string) : MembershipError + unit :=
  persons ← asks (filterE (fun m => b ← node_seated_without_acceptance c (cm_key_id m) (co_founded_at c); inr (negb b)) (co_members c));
  check_founding_signers (community_key_id c) (map cm_key_id persons) signers.

Definition check_supersede_adds_no_member (group : string) (offered : list string) (allowed : gset string)
    : MembershipError + unit :=
  match List.find (fun m => negb (bool_decide (m ∈ allowed))) offered with
  | Some m => refuse group m SupersedeCannotAdd
  | None => inr tt
  end.

Definition supersede_allowed_family (group : string) : MembershipError + gset string :=
  found ← asks (gd_lookup_family (md_groups dir) group);
  match found with
  | None => inr ∅
  | Some f => active ← of_group (RosterDoors.active_family_members (md_groups dir) MIN_UTC now group);
              inr (list_to_set (map fm_key_id (family_members f)) ∪ list_to_set (map fm_key_id active))
  end.
Definition supersede_allowed_community (group : string) : MembershipError + gset string :=
  found ← asks (gd_lookup_community (md_groups dir) group);
  match found with
  | None => inr ∅
  | Some c => active ← of_group (active_community_members (md_groups dir) MIN_UTC now group);
              inr (list_to_set (map cm_key_id (co_members c)) ∪ list_to_set (map cm_key_id active))
  end.

(** ** The live invitees of a private group *)

Fixpoint signers_of_members (members : list string) : Error + gset string :=
  match members with
  | [] => inr ∅
  | m :: rest =>
      os ← list_identity_occurrences_active dir m;
      out ← signers_of_members rest;
      inr ({[m]} ∪ list_to_set os ∪ out)
  end.

(** The pages of each signer's proposals. *)
Fixpoint proposals_by (signers : list string) : Error + list Attestation :=
  match signers with
  | [] => inr []
  | s :: rest =>
      rows ← read_pages (md_rows dir) (dimension_prefix (by_key s FOLD_PAGE) PROPOSAL_DIMENSION);
      more ← proposals_by rest;
      inr (rows ++ more)
  end.

(** One candidate, already known to be a member's. *)
Definition live_invitee (scope group : string) (row : Attestation) : Error + option string :=
  match as_proposal row with
  | None => inr None
  | Some p =>
      if negb (same_membership_plane (cohort_scope (pr_row p)) scope) || (pr_group p <>s group) || (pr_expires_at p <=? now)%Z
      then inr None
      else
        withdrawn ← proposal_withdrawn p;
        if (withdrawn : bool) then inr None
        else match invitee p with
             | None => inr None
             | Some i =>
                 replies ← replies_of i;
                 inr (if existsb (is_row DeclineRow) (replies_to replies (attestation_id (pr_row p))) then None else Some i)
             end
  end.

(** The loop; the members' occurrences are read at the first row of another signer. *)
Fixpoint invitees_among (scope group : string) (members : list string) (signers : option (gset string))
    (rows : list Attestation) (out : gset string) : Error + gset string :=
  match rows with
  | [] => inr out
  | row :: rest =>
      if tier row <>s attestation_tier.FEDERATION then invitees_among scope group members signers rest out
      else
        '(signers, counts) ←
          (if contains members (attesting_key_id row) then inr (signers, true)
           else s ← match signers with Some s => inr s | None => signers_of_members members end;
                inr (Some s, bool_decide (attesting_key_id row ∈ s)));
        if negb (counts : bool) then invitees_among scope group members signers rest out
        else
          found ← live_invitee scope group row;
          invitees_among scope group members signers rest (match found with Some i => {[i]} ∪ out | None => out end)
  end.

Definition live_invitees_of (scope group : string) (members : list string) : Error + list string :=
  match membership_plane scope with
  | None => inr []
  | Some plane =>
      let scopes := match plane with
                    | CallerScope.FamilyPlane => ["family"]
                    | CallerScope.RoomPlane => ["community"; "affiliations"]
                    end in
      candidates ←
        match list_targeted_by_dimension_prefix dir scopes group PROPOSAL_DIMENSION with
        | inl (Unsupported _) => signers ← signers_of_members members; proposals_by (sort_strings (elements signers))
        | m => m
        end;
      out ← invitees_among scope group members None candidates ∅;
      inr (sort_strings (elements out))
  end.
End Gates.
