(* ===== verification/MembershipGates.v ===== *)
(** * What a growth rests on

    The gate and the door of [Membership] over a store of attestations: a growth passes
    exactly on its member's own live consent, or as a node's seat in an infrastructure room
    which the founders' quorum gives, and a member never holds both replies to one
    proposal. *)

From Stdlib Require Import ZArith NArith Lia Ascii String.
From stdpp Require Import base list strings gmap.
From S2P Require Import Prelude RustStd Json Precedence ReverseQuorum Consensus TwoPath Query TrustRoot TrustBounded TrustGrants.
From S2P Require Import Roster RosterFold RosterPrepare RosterDoors Membership.
From S2P Require CallerScope.

Open Scope string_scope.
Open Scope list_scope.
Open Scope persist_scope.

#[local] Existing Instance CallerScope.TargetPlane_eq_dec.

Lemma is_row_true kind r : is_row kind r = true <-> membership_row r = Some kind.
Proof. apply bool_decide_eq_true. Qed.

Lemma asks_ok {A} (m : Error + A) x : asks m = inr x <-> m = inr x.
Proof. destruct m; cbn; split; congruence. Qed.

Lemma or_invalid_ok {A} (o : option A) x : or_invalid o = inr x <-> o = Some x.
Proof. destruct o; cbn; split; congruence. Qed.

(** The rows of the membership family carry its stem. *)
Lemma membership_row_stem r kind :
  membership_row r = Some kind ->
  is_some_and (envelope_dimension (attestation_envelope r)) (fun d => starts_with MEMBERSHIP_FAMILY_STEM d) = true.
Proof.
  unfold membership_row. case_if; [done|]. destruct (envelope_dimension (attestation_envelope r)) as [d|]; [|done].
  cbn [mbind option_bind is_some_and].
  destruct (String.eqb_spec d PROPOSAL_DIMENSION) as [->|]; [done|].
  destruct (String.eqb_spec d ACCEPTANCE_DIMENSION) as [->|]; [done|].
  by destruct (String.eqb_spec d DECLINE_DIMENSION) as [->|].
Qed.

Section Store.
Context (store : list Attestation) (held : list string) (dir : MembershipDirectory) (Hh : Holds store held (md_rows dir)).
Implicit Types (a r : Attestation) (p : Proposal).

(** The replies a member has here. *)
Definition reply_of (member : string) (r : Attestation) : Prop :=
  In r store /\ federated r = true /\ attested_key_id r = member /\
  (membership_row r = Some AcceptanceRow \/ membership_row r = Some DeclineRow).

Lemma replies_read member :
  exists l, replies_of dir member = inr l /\ forall r, In r l <-> reply_of member r.
Proof.
  unfold replies_of. rewrite (holds_pages (dimension_prefix (to_key member FOLD_PAGE) MEMBERSHIP_FAMILY_STEM) eq_refl), ok_bind.
  eexists. split; [done|]. intros r. rewrite filter_In, answer_In. unfold reply_of, federated.
  rewrite andb_true_iff, orb_true_iff, !is_row_true. unfold admits. cbn [q_by q_to q_tier q_dimension q_scope q_types q_type_prefix
    q_excluded_dimensions q_as_of q_after dimension_prefix set_dimension to_key pinned is_none_or is_nil orb existsb Query.stored].
  rewrite !andb_true_r, !andb_true_iff. split.
  - intros ((Hin & (((_ & Hto%String.eqb_eq) & _) & _) & _) & Ht & Hr). done.
  - intros (Hin & Ht & Hto & Hr). split_and!; try done; [by apply String.eqb_eq|by destruct Hr as [Hr|Hr]; apply membership_row_stem in Hr|].
    by destruct (envelope_dimension (attestation_envelope r)).
Qed.
(** ** One acceptance *)

(** Everyone acts for somebody, and the rooms are readable. *)
Record Answers : Prop := {
  writers_resolve k : exists i, admission_identity_for_writer dir k = inr i;
  rooms_readable g : exists c, gd_lookup_community (md_groups dir) g = inr c;
}.
Context (Ha : Answers).

(** [w] retracts [q] for whoever [q]'s signer acts for. *)
Definition withdraws_for (q w : Attestation) : Prop :=
  In w store /\ federated w = true /\ Json.attestation_type w = attestation_type.WITHDRAWS /\
  target_of w = Some (attestation_id q) /\
  admission_identity_for_writer dir (attesting_key_id w) = admission_identity_for_writer dir (attesting_key_id q).

Lemma withdrawn_by_spec proposer rows :
  exists b, withdrawn_by dir proposer rows = inr b /\
    (b = true <-> exists w, In w rows /\ Json.attestation_type w = attestation_type.WITHDRAWS /\
                    admission_identity_for_writer dir (attesting_key_id w) = inr proposer).
Proof.
  induction rows as [|w rows (b & E & IH)]; cbn [withdrawn_by].
  { exists false. split; [done|]. split; [done|by intros (? & [] & _)]. }
  destruct (String.eqb_spec (Json.attestation_type w) attestation_type.WITHDRAWS) as [Hw|Hw].
  - destruct (writers_resolve Ha (attesting_key_id w)) as [k Ek]. rewrite Ek, ok_bind.
    destruct (String.eqb_spec k proposer) as [->|Hne].
    + exists true. split; [done|]. split; [|done]. intros _. exists w. split; [by left|done].
    + exists b. split; [done|]. rewrite IH. split; intros (x & Hx & Ht & Hp); exists x; [split; [by right|done]|].
      destruct Hx as [<-|Hx]; [congruence|done].
  - exists b. split; [done|]. rewrite IH. split; intros (x & Hx & Ht & Hp); exists x; [split; [by right|done]|].
    destruct Hx as [<-|Hx]; [congruence|done].
Qed.

Lemma proposal_withdrawn_spec p :
  exists b, proposal_withdrawn dir p = inr b /\ (b = true <-> exists w, withdraws_for (pr_row p) w).
Proof.
  unfold proposal_withdrawn. destruct (writers_resolve Ha (attesting_key_id (pr_row p))) as [k Ek]. rewrite Ek, ok_bind.
  destruct (holds_referencing (Holds := Hh) (attestation_id (pr_row p))) as (l & El & Hl). rewrite El, ok_bind.
  destruct (withdrawn_by_spec k l) as (b & Eb & Hb). exists b. split; [done|]. rewrite Hb. unfold withdraws_for. rewrite Ek.
  split; intros (w & H1).
  - destruct H1 as (Hw & Ht & Hi). apply Hl in Hw as (Hin & Hf & _ & Htg). exists w. unfold federated. rewrite Hf, String.eqb_refl. done.
  - destruct H1 as (Hin & Hf & Ht & Htg & Hi). exists w. split; [|done]. apply Hl. unfold federated in Hf. apply String.eqb_eq in Hf.
    split_and!; try done. unfold is_composer. by rewrite Ht.
Qed.

(** The member's own live consent to this seat: an acceptance and the proposal it answers. *)
Record consents (scope group member : string) (role : option string) (t : instant) (a q : Attestation) : Prop := {
  cn_reply : In a store /\ federated a = true /\ attested_key_id a = member /\ membership_row a = Some AcceptanceRow;
  cn_proposal : In q store /\ federated q = true /\ membership_row q = Some ProposalRow;
  cn_names : default "" (env_str a "references_attestation_id") = attestation_id q;
  cn_hash : env_str a "proposal_hash" = Some (original_content_hash q);
  cn_group : group_of a = Some group /\ group_of q = Some group;
  cn_plane : same_membership_plane (cohort_scope a) scope = true /\ same_membership_plane (cohort_scope a) (cohort_scope q) = true;
  cn_role : default None (env_role a) = role /\ env_role q = Some role;
  cn_invitee : subject_key_ids q = [member] \/ subject_key_ids q = [] /\ room_is_open dir scope group = inr true;
  cn_term : exists e, Json.expires_at q = Some e /\ (asserted_at a <= e)%Z /\ (t <= e)%Z;
  cn_not_declined r : reply_of member r -> membership_row r = Some DeclineRow ->
    env_str r "references_attestation_id" <> Some (attestation_id q);
  cn_not_withdrawn w : ~ withdraws_for q w;
}.

Lemma as_proposal_inv q p :
  as_proposal q = Some p -> pr_row p = q /\ membership_row q = Some ProposalRow /\ group_of q = Some (pr_group p) /\
    env_role q = Some (pr_role p) /\ Json.expires_at q = Some (pr_expires_at p) /\
    (length (subject_key_ids q) <= 1)%nat /\ invitee p = hd_error (subject_key_ids q).
Proof.
  unfold as_proposal. destruct (is_row ProposalRow q) eqn:Er; [|done]. apply is_row_true in Er. cbn [negb]. intros E.
  bind_inv E. destruct (Nat.ltb_spec 1 (length (subject_key_ids q))); [done|]. bind_inv E. bind_inv E. injection E as <-. done.
Qed.

Lemma as_proposal_some q g ro e :
  membership_row q = Some ProposalRow -> group_of q = Some g -> env_role q = Some ro -> Json.expires_at q = Some e ->
  (length (subject_key_ids q) <= 1)%nat -> as_proposal q = Some (mk_Proposal q g (hd_error (subject_key_ids q)) ro e).
Proof.
  intros Hr Hg Hro He Hl. unfold as_proposal. rewrite (proj2 (is_row_true _ _) Hr), Hg, Hro, He. cbn [negb].
  rewrite some_bind. destruct (Nat.ltb_spec 1 (length (subject_key_ids q))); [lia|done].
Qed.

Lemma held_proposal_some x p :
  held_proposal x = Some p -> exists q, x = Some q /\ federated q = true /\ as_proposal q = Some p.
Proof.
  unfold held_proposal, federated. intros E. bind_inv E. exists x0. destruct (tier x0 =s attestation_tier.FEDERATION); done.
Qed.

Lemma room_read scope group : exists b, room_is_open dir scope group = inr b.
Proof.
  unfold room_is_open. case_if; [by eexists|]. destruct (rooms_readable Ha group) as [c ->]. rewrite ok_bind. by eexists.
Qed.

Lemma reply_matches_true a p :
  membership_row a = Some AcceptanceRow ->
  reply_matches a p = true <->
  group_of a = Some (pr_group p) /\ same_membership_plane (cohort_scope a) (cohort_scope (pr_row p)) = true /\
  env_str a "proposal_hash" = Some (original_content_hash (pr_row p)) /\
  is_none_or (invitee p) (fun i => attested_key_id a =s i) = true /\ default None (env_role a) = pr_role p.
Proof.
  intros Hr. unfold reply_matches. rewrite (proj2 (is_row_true _ _) Hr). cbn [negb orb].
  rewrite !andb_true_iff, !bool_decide_eq_true. tauto.
Qed.

Section Judge.
Context (scope group member : string) (role : option string) (t : instant) (replies : list Attestation)
  (Hreplies : forall r, In r replies <-> reply_of member r).

Lemma declined_spec id :
  existsb (is_row DeclineRow) (replies_to replies id) = false <->
  forall r, reply_of member r -> membership_row r = Some DeclineRow -> env_str r "references_attestation_id" <> Some id.
Proof.
  rewrite existsb_false. unfold replies_to. setoid_rewrite filter_In. setoid_rewrite Hreplies. split.
  - intros Hn r Hr Hd E. specialize (Hn r). rewrite bool_decide_eq_true, (proj2 (is_row_true _ _) Hd) in Hn. discriminate Hn. done.
  - intros Hn r [Hr E]. apply bool_decide_eq_true in E. apply not_true_iff_false. intros Hd%is_row_true. by apply (Hn r).
Qed.

Lemma judge_spec a :
  In a replies -> membership_row a = Some AcceptanceRow -> in_group scope group a = true ->
  exists why, judge_acceptance dir scope group role t replies a = inr why /\
    (why = None <-> exists q, consents scope group member role t a q).
Proof.
  intros Hin Hrow Hg. apply Hreplies in Hin as Hr. destruct Hr as (Hst & Hf & Hm & _).
  unfold in_group in Hg. apply andb_true_iff in Hg as [Hpl Hg]. apply bool_decide_eq_true in Hg.
  unfold judge_acceptance. rewrite (holds_get (Holds := Hh)), ok_bind.
  destruct (held_proposal (by_id store _)) as [p|] eqn:Ep.
  2: { eexists. split; [done|]. split; [done|]. intros (q & Hc). exfalso. destruct Hc as [_ (Hq & Hfq & Hpq) Hn _ [_ Hgq] _ [_ Hroq] Hiv (e & He & _) _ _].
    rewrite Hn, (by_id_sub store (holds_ids (Holds := Hh)) store q) in Ep by done. unfold held_proposal in Ep. rewrite some_bind in Ep.
    unfold federated in Hfq. rewrite Hfq in Ep. erewrite as_proposal_some in Ep; [done|done..|]. destruct Hiv as [->|[-> _]]; cbn; lia. }
  apply held_proposal_some in Ep as (q & Eq & Hfq & Ep). apply by_id_In in Eq as [Hq Hid].
  apply as_proposal_inv in Ep as (Hp & Hpq & Hgq & Hroq & He & Hl & Hinv).
  assert (Hone : forall q', consents scope group member role t a q' -> q' = q).
  { intros q' Hc. apply (ids_inj store); [apply (holds_ids (Holds := Hh))|apply (cn_proposal _ _ _ _ _ _ _ Hc)|done|].
    by rewrite <- (cn_names _ _ _ _ _ _ _ Hc), Hid. }
  rewrite Hp. destruct (existsb (is_row DeclineRow) _) eqn:Ed.
  { eexists. split; [done|]. split; [done|]. intros (q' & Hc). exfalso. rewrite (Hone q' Hc) in Hc.
    rewrite (proj2 (declined_spec _) (cn_not_declined _ _ _ _ _ _ _ Hc)) in Ed. done. }
  rewrite declined_spec in Ed.
  destruct (reply_matches a p) eqn:Em.
  2: { eexists. split; [done|]. split; [done|]. intros (q' & Hc). exfalso. rewrite (Hone q' Hc) in Hc.
    destruct Hc as [_ _ _ Hh' [_ Hg'] [_ Hpl'] [Hro Hro'] Hiv _ _ _].
    rewrite (proj2 (reply_matches_true a p Hrow)) in Em; [done|]. rewrite Hp. split_and!; try done; [congruence| |congruence].
    rewrite Hinv. destruct Hiv as [->|[-> _]]; cbn; [|done]. rewrite Hm. apply String.eqb_refl. }
  apply (reply_matches_true a p Hrow) in Em as (Hga & Hpl' & Hhash & Hiv & Hro). rewrite Hp in Hpl', Hhash.
  case_bool_decide as Hrole; cbn [negb orb].
  2: { eexists. split; [done|]. split; [done|]. intros (q' & Hc). rewrite (Hone q' Hc) in Hc.
    destruct (cn_role _ _ _ _ _ _ _ Hc) as [? ?]. congruence. }
  destruct (room_read scope group) as [open Eo].
  assert (exists closed, (if is_some (invitee p) then inr false else open ← room_is_open dir scope group; inr (negb open)) = (inr closed : Error + bool) /\
    (closed = false <-> is_some (invitee p) = true \/ room_is_open dir scope group = inr true)) as (closed & -> & Hclosed).
  { destruct (is_some (invitee p)); [exists false; by split; [|tauto]|]. rewrite Eo, ok_bind. exists (negb open). split; [done|].
    destruct open; cbn; split; intros; try done; [by right|by destruct H as [|[=]]]. }
  rewrite ok_bind.
  assert (Hsub : forall k, invitee p = Some k -> subject_key_ids q = [member] /\ k = member).
  { intros k Ek. rewrite Hinv in Ek. rewrite <- Hinv in Ek. rewrite Ek in Hiv. cbn in Hiv. apply String.eqb_eq in Hiv.
    rewrite Hinv in Ek. destruct (subject_key_ids q) as [|x [|y l]]; [done| |cbn in Hl; lia]. cbn in Ek. injection Ek as ->. by rewrite <- Hm, Hiv. }
  destruct closed.
  { eexists. split; [done|]. split; [done|]. intros (q' & Hc). rewrite (Hone q' Hc) in Hc. exfalso.
    assert (true = false); [|done]. apply Hclosed. destruct (cn_invitee _ _ _ _ _ _ _ Hc) as [E|[_ E]]; [left|by right].
    by rewrite Hinv, E. }
  destruct ((pr_expires_at p <? asserted_at a)%Z || (pr_expires_at p <? t)%Z) eqn:Et.
  { eexists. split; [done|]. split; [done|]. intros (q' & Hc). rewrite (Hone q' Hc) in Hc.
    destruct (cn_term _ _ _ _ _ _ _ Hc) as (e & Ee & ? & ?). rewrite He in Ee. injection Ee as <-.
    apply orb_true_iff in Et as [Et|Et]; apply Z.ltb_lt in Et; lia. }
  apply orb_false_iff in Et as [Et1 Et2]. apply Z.ltb_ge in Et1, Et2.
  destruct (proposal_withdrawn_spec p) as (w & Ew & Hw). rewrite Ew, ok_bind, Hp in *. eexists. split; [done|].
  destruct w; split; try done.
  - intros (q' & Hc). rewrite (Hone q' Hc) in Hc. destruct (proj1 Hw eq_refl) as (x & Hx). by destruct (cn_not_withdrawn _ _ _ _ _ _ _ Hc x).
  - intros _. exists q. split; [done|done|done|done|split; congruence|done|split; congruence| |by exists (pr_expires_at p)|done|].
    + destruct (invitee p) as [k|] eqn:Ek; [left; by apply (Hsub k)|]. right. split.
      * destruct (subject_key_ids q); done.
      * by destruct (proj1 Hclosed eq_refl).
    + intros x Hx. assert (false = true) by (apply Hw; by exists x). done.
Qed.

Lemma growth_loop_spec accs worst :
  (forall a, In a accs -> In a replies /\ membership_row a = Some AcceptanceRow) ->
  exists v, growth_loop dir scope group role t replies accs worst = inr v /\
    (v = None <-> exists a q, In a accs /\ in_group scope group a = true /\ consents scope group member role t a q).
Proof.
  revert worst. induction accs as [|a accs IH]; intros worst Hl; cbn [growth_loop].
  { eexists. split; [done|]. split; [done|by intros (? & ? & [] & _)]. }
  assert (Hl' : forall x, In x accs -> In x replies /\ membership_row x = Some AcceptanceRow) by (intros x Hx; apply Hl; by right).
  assert (Hskip : (forall q, in_group scope group a = true -> ~ consents scope group member role t a q) ->
    (exists x q, In x accs /\ in_group scope group x = true /\ consents scope group member role t x q) <->
    exists x q, In x (a :: accs) /\ in_group scope group x = true /\ consents scope group member role t x q).
  { intros Hn. split; intros (x & q & Hx & Hg & Hc); exists x, q; [split; [by right|done]|].
    destruct Hx as [<-|Hx]; [by apply (Hn q) in Hg|done]. }
  destruct (in_group scope group a) eqn:Eg; cbn [negb].
  2: { destruct (IH worst Hl') as (v & Ev & Hv). exists v. split; [done|]. rewrite Hv. by apply Hskip. }
  destruct (Hl a (or_introl eq_refl)) as [Hin Hrow].
  destruct (judge_spec a Hin Hrow Eg) as (why & -> & Hwhy). rewrite ok_bind. destruct why as [rule|].
  - destruct (IH (note worst rule) Hl') as (v & Ev & Hv). exists v. split; [done|]. rewrite Hv. apply Hskip.
    intros q _ Hc. assert (Some rule = None) by (apply Hwhy; by exists q). done.
  - exists None. split; [done|]. split; [intros _|done]. destruct (proj1 Hwhy eq_refl) as [q Hc]. exists a, q. split; [by left|done].
Qed.
End Judge.

(** The gate, for a seat the founders' quorum alone does not give. *)
Lemma growth_spec scope group member role t :
  seated_by_founders dir scope group member t = inr false ->
  (check_growth_accepted dir scope group member role t = inr tt <-> exists a q, consents scope group member role t a q) /\
  (check_growth_accepted dir scope group member role t = inr tt \/
   exists rule, check_growth_accepted dir scope group member role t = refuse group member rule).
Proof.
  intros Hs. unfold check_growth_accepted. rewrite Hs. cbn [asks]. rewrite ok_bind.
  destruct (replies_read member) as (l & -> & Hl). cbn [asks]. rewrite ok_bind.
  destruct (growth_loop_spec scope group member role t l Hl (List.filter (is_row AcceptanceRow) l) None) as (v & -> & Hv).
  { intros a [Hin Hr]%filter_In. split; [done|]. by apply is_row_true. }
  cbn [asks]. rewrite ok_bind. destruct v as [worst|].
  - split; [|right; by eexists]. split; [done|]. intros (a & q & Hc). assert (Some worst = None); [|done]. apply Hv. exists a, q.
    destruct (cn_reply _ _ _ _ _ _ _ Hc) as (Hin & Hf & Hm & Hr). destruct (cn_group _ _ _ _ _ _ _ Hc) as [Hg _].
    destruct (cn_plane _ _ _ _ _ _ _ Hc) as [Hp _]. split_and!; [|unfold in_group; by rewrite Hp, bool_decide_eq_true_2|done].
    apply filter_In. split; [|by apply is_row_true]. apply Hl. split_and!; try done. by left.
  - split; [|by left]. split; [|done]. intros _. destruct (proj1 Hv eq_refl) as (a & q & _ & _ & Hc). by exists a, q.
Qed.
End Store.

(** The seats that ask no acceptance: a node-bearing key whose own record carries the accord's
    scrub, in an infrastructure room. *)
Definition founders_seat `{StrictMajority} (dir : MembershipDirectory) (scope group member : string) (t : instant) : Prop :=
  exists c, membership_plane scope = Some CallerScope.RoomPlane /\
    gd_lookup_community (md_groups dir) group = inr (Some c) /\
    community_subkind c = Some COHORT_SUBKIND_INFRASTRUCTURE /\
    is_node_bearing_key_at (md_groups dir) member t = inr true /\
    key_record_carries_accord_scrub dir member = inr true.

Lemma founders_seat_iff `{StrictMajority} dir scope group member t :
  seated_by_founders dir scope group member t = inr true <-> founders_seat dir scope group member t.
Proof.
  unfold seated_by_founders, founders_seat, node_seated_without_acceptance.
  case_bool_decide as Hp; cbn [negb]; [|split; [done|intros (c & ? & _); done]].
  destruct (gd_lookup_community (md_groups dir) group) as [e|[c|]]; rewrite ?ok_bind; [by split; [|intros (? & _ & ? & _)]| |].
  2: by split; [|intros (? & _ & ? & _)].
  pose proof (opt_is_true (community_subkind c) COHORT_SUBKIND_INFRASTRUCTURE) as Hsub.
  destruct (opt_is (community_subkind c) COHORT_SUBKIND_INFRASTRUCTURE); cbn [negb].
  2: { split; [done|]. intros (c' & _ & [= <-] & Hc & _). by apply Hsub in Hc. }
  assert (Hi : community_subkind c = Some COHORT_SUBKIND_INFRASTRUCTURE) by (by apply Hsub).
  destruct (is_node_bearing_key_at _ _ _) as [e|[]]; rewrite ?ok_bind; cbn [negb].
  - split; [done|]. by intros (? & _ & _ & _ & ? & _).
  - split; [intros Hk; by exists c|]. by intros (? & _ & _ & _ & _ & ?).
  - split; [done|]. by intros (? & _ & _ & _ & ? & _).
Qed.

(** The gate, for a seat the founders' quorum gives. *)
Lemma founders_seat_growth `{StrictMajority} dir scope group member role t :
  founders_seat dir scope group member t ->
  (check_growth_accepted dir scope group member role t = inr tt <-> serve_seat_owner_announced dir member = inr true) /\
  (serve_seat_owner_announced dir member = inr false ->
   check_growth_accepted dir scope group member role t = refuse group member ServeSeatOwnerUnannounced).
Proof.
  intros Hs%founders_seat_iff. unfold check_growth_accepted. rewrite Hs. cbn [asks]. rewrite ok_bind.
  destruct (serve_seat_owner_announced dir member) as [e|[]]; cbn [asks]; rewrite ?ok_bind; done.
Qed.

(** What the door of a group's roster asks of a growth it admits. *)
Lemma door_asks_growth `{StrictMajority} {E} (dir : GroupDirectory E) (MIN_UTC : instant) (scope group : string)
    (ms : list CommunityMember) (rules : RosterRules) (events : list RosterEvent) (roots : option (gset string))
    (signers : gset string) (incoming : CommunityMember) (t : instant) :
  check_roster_authority_over dir MIN_UTC scope group ms rules events roots signers incoming false t = inr tt ->
  active (authorized_roster_state_at ms rules
    (List.filter (fun e => negb (is_this_row false t (cm_key_id incoming) e)) events) t) (cm_key_id incoming) = false ->
  RosterDoors.check_growth_accepted dir scope group (cm_key_id incoming) (cm_role incoming) t = inr tt.
Proof.
  unfold check_roster_authority_over. cbn zeta. intros Hd Ha. apply bind_ok in Hd as (m & _ & Hd).
  destruct (roster_event_standing _ _ _); [done|]. cbn [negb andb event_key incoming_event member] in Hd. unfold event_key in Hd.
  cbn [member incoming_event] in Hd. rewrite Ha in Hd. cbn [negb] in Hd.
  by destruct (RosterDoors.check_growth_accepted _ _ _ _ _ _) as [|[]].
Qed.

(** ** Stores built through the door *)

Section Built.
Context `{StrictMajority} `{Chrono} (MIN_UTC : instant) (at_ : list Attestation -> MembershipDirectory)
  (Hat : forall store, NoDup (map attestation_id store) -> exists held, Holds store held (md_rows (at_ store))).
Implicit Types (a b r row : Attestation).

(** Each row, with a fresh id, passed the door over the rows before it, at some instant. *)
Inductive built : list Attestation -> Prop :=
| built_empty : built []
| built_row store row now :
    built store -> ~ In (attestation_id row) (map attestation_id store) ->
    check_attestation_write_scope (at_ store) MIN_UTC now row = inr tt -> built (store ++ [row]).

Lemma built_ids store : built store -> NoDup (map attestation_id store).
Proof.
  induction 1 as [|store row now Hb IH Hf _]; [constructor|]. rewrite map_app. apply NoDup_app. split_and!; [done| |apply NoDup_singleton].
  intros x Hx Hx'. apply list_elem_of_In in Hx, Hx'. destruct Hx' as [<-|[]]. done.
Qed.

Lemma shape_ok row kind :
  membership_row row = Some kind -> check_membership_row_shape row = inr tt ->
  federated row = true /\
  (kind <> ProposalRow -> exists pid, env_str row "references_attestation_id" = Some pid /\ pid <> "").
Proof.
  intros Hk. unfold check_membership_row_shape, federated. rewrite Hk.
  destruct (tier row =s attestation_tier.FEDERATION); cbn [negb]; [|done]. intros Hs. split; [done|]. intros Hn.
  apply bind_ok in Hs as (g & _ & Hs). apply bind_ok in Hs as (r & _ & Hs). cbn [existsb] in Hs.
  destruct (env_str row "references_attestation_id") as [pid|]; [|by destruct kind]. exists pid. split; [done|]. intros ->.
  cbn in Hs. by destruct kind.
Qed.

Lemma scope_inv store now row kind :
  membership_row row = Some kind -> check_attestation_write_scope (at_ store) MIN_UTC now row = inr tt ->
  check_membership_row_shape row = inr tt /\
  (kind <> ProposalRow -> exists group, check_reply (at_ store) kind row group = inr tt).
Proof.
  intros Hk. unfold check_attestation_write_scope. rewrite Hk. intros Hc. apply bind_ok in Hc as ([] & Hs & Hc). split; [done|].
  intros Hn. apply bind_ok in Hc as (group & _ & Hc). apply bind_ok in Hc as ([] & _ & Hc). apply bind_ok in Hc as ([] & _ & Hc).
  exists group. by destruct kind.
Qed.

(** A reply past the door meets no opposite reply to its proposal. *)
Lemma reply_meets_none store held row kind group b (Hh : Holds store held (md_rows (at_ store))) :
  check_reply (at_ store) kind row group = inr tt -> In b store -> attestation_id b <> attestation_id row ->
  federated b = true -> attested_key_id b = attested_key_id row ->
  membership_row b = Some (match kind with AcceptanceRow => DeclineRow | _ => AcceptanceRow end) ->
  env_str b "references_attestation_id" <> Some (default "" (env_str row "references_attestation_id")).
Proof.
  intros Hc Hb Hid Hf Hm Hk Href. unfold check_reply in Hc. rewrite (holds_get (Holds := Hh)) in Hc. cbn [asks] in Hc. rewrite ok_bind in Hc.
  destruct (held_proposal (by_id store _)) as [p|] eqn:Ep; [|done].
  apply held_proposal_some in Ep as (q & Eq & _ & Ep). apply by_id_In in Eq as [_ Eid]. apply as_proposal_inv in Ep as (Hp & _).
  apply bind_ok in Hc as (signer & _ & Hc). apply bind_ok in Hc as (invited & _ & Hc). destruct ((signer <>s invited) || _); [done|].
  apply bind_ok in Hc as (l & Hl & Hc). apply asks_ok in Hl. cbn zeta in Hc.
  destruct (replies_read store held (at_ store) Hh (attested_key_id row)) as (l' & El & Hin). rewrite Hl in El. injection El as <-.
  destruct (existsb _ _) eqn:Ex; [done|]. rewrite existsb_false in Ex. specialize (Ex b).
  rewrite (proj2 (is_row_true _ _) Hk), (proj2 (String.eqb_neq _ _) Hid) in Ex. discriminate Ex.
  apply filter_In. split; [apply Hin; split_and!; try done; destruct kind; auto|]. apply bool_decide_eq_true. by rewrite Hp, Eid.
Qed.

Lemma built_federated store r kind : built store -> In r store -> membership_row r = Some kind -> federated r = true.
Proof.
  induction 1 as [|store row now Hb IH Hf Hc]; [done|]. intros [Hr|[<-|[]]]%in_app_or Hk; [by apply IH|].
  apply (scope_inv store now row kind Hk) in Hc as [Hs _]. by apply (shape_ok row kind Hk).
Qed.

Lemma built_consistent store : built store -> forall a b pid, In a store -> In b store ->
  membership_row a = Some AcceptanceRow -> membership_row b = Some DeclineRow -> attested_key_id a = attested_key_id b ->
  env_str a "references_attestation_id" = Some pid -> env_str b "references_attestation_id" <> Some pid.
Proof.
  induction 1 as [|store row now Hb IH Hf Hc]; intros a b pid Ha Hb' Hka Hkb Hm Hra; [done|].
  assert (Hids : forall x, In x store -> attestation_id x <> attestation_id row)
    by (intros x Hx E; apply Hf; rewrite <- E; by apply in_map).
  destruct (Hat store (built_ids store Hb)) as [held Hh].
  apply in_app_or in Ha as [Ha|[<-|[]]], Hb' as [Hb'|[<-|[]]]; [by apply (IH a b pid)| | |congruence].
  - destruct (proj2 (scope_inv store now row _ Hkb Hc) ltac:(done)) as [group Hr]. intros Hrb.
    apply (reply_meets_none store held row DeclineRow group a Hh Hr Ha (Hids a Ha)); try done; [by apply (built_federated store a AcceptanceRow)|].
    by rewrite Hrb.
  - destruct (proj2 (scope_inv store now row _ Hka Hc) ltac:(done)) as [group Hr]. intros Hrb.
    apply (reply_meets_none store held row AcceptanceRow group b Hh Hr Hb' (Hids b Hb')); try done; [by apply (built_federated store b DeclineRow)|].
    by rewrite Hra.
Qed.
End Built.

(** ** Concrete inputs *)

Module MembershipSamples.
Definition member_row (id by_ to_ dim : string) (at_ : instant) (expires : option instant) (hash : string)
    (subjects : list string) (members : list (string * Value)) : Attestation :=
  mk_Attestation id by_ to_ "scores" None at_ expires
    (Object (("dimension", Str dim) :: ("group_kind", Str "family") :: ("family_key_id", Str "house") :: members))
    hash "" None by_ at_ None "" subjects None "family" "federation" None [].
(** Ann invites cy twice; cy accepts the first and declines the second. *)
Definition first := member_row "p1" "ann" "ann" PROPOSAL_DIMENSION 10%Z (Some 50%Z) "ph1" ["cy"] [].
Definition second := member_row "p2" "ann" "ann" PROPOSAL_DIMENSION 11%Z (Some 50%Z) "ph2" ["cy"] [].
Definition reply (id dim pid hash : string) (at_ : instant) : Attestation :=
  member_row id "cy" "cy" dim at_ None "" ["cy"] [("references_attestation_id", Str pid); ("proposal_hash", Str hash)].
Definition yes := reply "a1" ACCEPTANCE_DIMENSION "p1" "ph1" 12%Z.
Definition no := reply "d2" DECLINE_DIMENSION "p2" "ph2" 13%Z.
Definition store : list Attestation := [first; second; yes; no].

(** Over a store, with a gate for growths that may be anything. *)
Definition with_gate (gate : string -> string -> string -> option string -> instant -> Error + unit) (store : list Attestation)
    : MembershipDirectory := {|
  md_rows := TrustSamples.over store;
  md_groups := {|
    invalid_argument := fun _ => false;
    gd_lookup_family := fun k => inr (if k =s "house" then Some GroupSamples.house else None);
    gd_lookup_community := fun _ => inr None;
    gd_lookup_public_key := fun _ => inr None;
    family_roster_signers := fun _ => inr (mk_CommunityRosterSigners None [] []);
    community_roster_signers := fun _ => inr (mk_CommunityRosterSigners None [] []);
    list_family_membership_widenings_for := fun _ => inr [];
    list_family_membership_revocations_for := fun _ => inr [];
    list_community_membership_widenings_for := fun _ => inr [];
    list_community_membership_revocations_for := fun _ => inr [];
    list_identity_occurrence_history_by_occurrence := fun _ => inr [];
    list_identity_occurrence_revocations_for := fun _ => inr [];
    group_reads := fun _ => mk_GroupReads Error (fun _ => inr false) (fun _ _ _ => inr []) (fun _ _ => inr [])
                              (fun _ _ _ _ _ _ => inl (OtherError "objections"));
    community_dissolved_at := fun _ => inr None;
    RosterDoors.check_growth_accepted := gate;
    check_one_voice_countersign := fun _ _ _ _ => inr tt;
    is_trust_root_grade := fun _ => false;
    check_trust_root_roster_change := fun _ _ _ _ _ => inr tt;
  |};
  admission_identity_for_writer := fun k => inr k;
  key_record_carries_accord_scrub := fun _ => inr false;
  serve_seat_owner_announced := fun _ => inr false;
  stored_founder_only_room := fun _ => inr false;
  check_write_cohort_scope_for := fun _ _ _ => inr tt;
  list_targeted_by_dimension_prefix := fun _ _ _ => inr [];
  list_identity_occurrences_active := fun _ => inr [];
|}.
Definition ungated : list Attestation -> MembershipDirectory := with_gate (fun _ _ _ _ _ => inl (OtherError "no gate")).

(** The roster doors ask this module's gate. *)
Definition gate (store : list Attestation) (scope group k : string) (role : option string) (t : instant) : Error + unit :=
  match check_growth_accepted (ungated store) scope group k role t with inr _ => inr tt | inl _ => inl (OtherError "refused") end.
Definition dir (store : list Attestation) : MembershipDirectory := with_gate (gate store) store.

Lemma seats_hold_over store : NoDup (map attestation_id store) -> Holds store [] (md_rows (dir store)).
Proof. intros Hnd. apply directory_over_holds; [done|]. intros q Hv. done. Qed.
End MembershipSamples.

(** ** Properties *)

(** C7. Nobody joins without their own live consent, but for the nodes the founders seat. Where
    the gate's reads answer: a node-bearing key whose record carries the accord's scrub passes
    the gate of an infrastructure room without an acceptance, exactly when its owner is
    announced. For every other seat a growth passes exactly when this node holds the member's
    acceptance and a proposal it answers: both of the group and its plane, bound by the
    proposal's hash, for the role the growth gives, addressed to the member alone or standing
    in a room now open, neither the acceptance nor the growth later than the proposal's end,
    not declined by the member and not withdrawn for its proposer; otherwise it is refused
    with a rule. So a roster row that seats someone not seated is admitted at the roster door
    only on such consent, or as such a node with an announced owner. *)
Theorem growth_is_consented `{StrictMajority} (store : list Attestation) (held : list string) (dir : MembershipDirectory)
    (MIN_UTC : instant) (Hh : Holds store held (md_rows dir)) (Ha : Answers dir)
    (scope group : string) (ms : list CommunityMember) (rules : RosterRules) (events : list RosterEvent)
    (roots : option (gset string)) (signers : gset string) (incoming : CommunityMember) (t : instant)
    (Hgate : forall r, RosterDoors.check_growth_accepted (md_groups dir) scope group (cm_key_id incoming) r t = inr tt ->
               check_growth_accepted dir scope group (cm_key_id incoming) r t = inr tt)
    (Hs : exists b, seated_by_founders dir scope group (cm_key_id incoming) t = inr b) :
  let consented := exists a q, consents store dir scope group (cm_key_id incoming) (cm_role incoming) t a q in
  let node_seat := founders_seat dir scope group (cm_key_id incoming) t in
  let announced := serve_seat_owner_announced dir (cm_key_id incoming) in
  let passes := check_growth_accepted dir scope group (cm_key_id incoming) (cm_role incoming) t = inr tt in
  (~ node_seat -> (passes <-> consented) /\
     (passes \/ exists rule, check_growth_accepted dir scope group (cm_key_id incoming) (cm_role incoming) t
                             = refuse group (cm_key_id incoming) rule)) /\
  (node_seat -> (passes <-> announced = inr true) /\
     (announced = inr false -> check_growth_accepted dir scope group (cm_key_id incoming) (cm_role incoming) t
                               = refuse group (cm_key_id incoming) ServeSeatOwnerUnannounced)) /\
  (check_roster_authority_over (md_groups dir) MIN_UTC scope group ms rules events roots signers incoming false t = inr tt ->
   active (authorized_roster_state_at ms rules
     (List.filter (fun e => negb (is_this_row false t (cm_key_id incoming) e)) events) t) (cm_key_id incoming) = false ->
   consented \/ (node_seat /\ announced = inr true)).
Proof.
  intros consented node_seat announced passes.
  assert (Hfold : ~ node_seat -> (passes <-> consented) /\
     (passes \/ exists rule, check_growth_accepted dir scope group (cm_key_id incoming) (cm_role incoming) t
                             = refuse group (cm_key_id incoming) rule)).
  { intros Hn. destruct Hs as [[] Hs]; [by destruct Hn; apply founders_seat_iff|].
    by apply (growth_spec store held dir Hh Ha). }
  pose proof (founders_seat_growth dir scope group (cm_key_id incoming) (cm_role incoming) t) as Hnode.
  split_and!; [done|done|]. intros Hd Hact.
  assert (Hp : passes) by (by apply Hgate, (door_asks_growth _ _ _ _ _ _ _ _ _ _ _ Hd)).
  destruct Hs as [[] Hs]; [right; apply founders_seat_iff in Hs; by split; [|apply (Hnode Hs)]|].
  left. apply Hfold; [|done]. intros Hx%founders_seat_iff. congruence.
Qed.

Lemma growth_is_consented_witness :
  exists a q, consents MembershipSamples.store (MembershipSamples.dir MembershipSamples.store) "family" "house" "cy" None 20%Z a q.
Proof.
  assert (Hnd : NoDup (map attestation_id MembershipSamples.store))
    by (apply (bool_decide_unpack (NoDup (map attestation_id MembershipSamples.store))); vm_compute; exact I).
  pose proof (growth_is_consented MembershipSamples.store [] (MembershipSamples.dir MembershipSamples.store) 0%Z
    (MembershipSamples.seats_hold_over _ Hnd)
    (Build_Answers (MembershipSamples.dir MembershipSamples.store) (fun k => ex_intro _ k eq_refl) (fun g => ex_intro _ None eq_refl))
    "family" "house" [RosterSamples.founder "ann"] (of_family "founder_only") [] None {["ann"]} (RosterSamples.plain "cy") 20%Z) as Hx.
  destruct Hx as (_ & _ & Hx).
  - intros r Hg. unfold RosterDoors.check_growth_accepted, MembershipSamples.dir, MembershipSamples.with_gate, MembershipSamples.gate in Hg.
    cbn [md_groups] in Hg. change (check_growth_accepted (MembershipSamples.dir MembershipSamples.store) "family" "house"
      (cm_key_id (RosterSamples.plain "cy")) r 20%Z)
      with (check_growth_accepted (MembershipSamples.ungated MembershipSamples.store) "family" "house" (cm_key_id (RosterSamples.plain "cy")) r 20%Z).
    destruct (check_growth_accepted (MembershipSamples.ungated MembershipSamples.store) "family" "house" (cm_key_id (RosterSamples.plain "cy")) r 20%Z)
      as [e|[]]; [discriminate Hg|reflexivity].
  - exists false. reflexivity.
  - destruct Hx as [Hx|[(c & Hp & _) _]]; [vm_compute; reflexivity|vm_compute; reflexivity|exact Hx|discriminate Hp].
Defined.

(** A member's word on a proposal is one word. In a store each of whose rows passed the door
    over the rows before it, whatever the order and the instants, no member has both accepted
    and declined one proposal, and every membership row is of the federation tier; so what
    one reply settled no later reply of the member overturns. *)
Theorem replies_never_conflict `{StrictMajority} `{Chrono} (MIN_UTC : instant) (at_ : list Attestation -> MembershipDirectory)
    (Hat : forall store, NoDup (map attestation_id store) -> exists held, Holds store held (md_rows (at_ store)))
    (store : list Attestation) (a b : Attestation) (pid : string) :
  built MIN_UTC at_ store -> In a store -> In b store ->
  membership_row a = Some AcceptanceRow -> membership_row b = Some DeclineRow -> attested_key_id a = attested_key_id b ->
  federated a = true /\ federated b = true /\
  (env_str a "references_attestation_id" = Some pid -> env_str b "references_attestation_id" <> Some pid).
Proof.
  intros Hb Ha Hb' Hka Hkb Hm. split_and!; [by eapply built_federated| by eapply built_federated|].
  by apply (built_consistent MIN_UTC at_ Hat store Hb).
Qed.

Lemma replies_never_conflict_witness :
  env_str MembershipSamples.no "references_attestation_id" <> Some "p1".
Proof.
  apply (replies_never_conflict (H := strict_majority_pinned) (H0 := chrono_bounds) 0%Z MembershipSamples.dir
    (fun store Hnd => ex_intro _ [] (MembershipSamples.seats_hold_over store Hnd)) MembershipSamples.store
    MembershipSamples.yes MembershipSamples.no "p1").
  - apply (built_row (H0 := chrono_bounds) 0%Z MembershipSamples.dir [MembershipSamples.first; MembershipSamples.second; MembershipSamples.yes] _ 20%Z);
      [|vm_compute; intuition discriminate|vm_compute; reflexivity].
    apply (built_row (H0 := chrono_bounds) 0%Z MembershipSamples.dir [MembershipSamples.first; MembershipSamples.second] _ 20%Z);
      [|vm_compute; intuition discriminate|vm_compute; reflexivity].
    apply (built_row (H0 := chrono_bounds) 0%Z MembershipSamples.dir [MembershipSamples.first] _ 20%Z);
      [|vm_compute; intuition discriminate|vm_compute; reflexivity].
    apply (built_row (H0 := chrono_bounds) 0%Z MembershipSamples.dir [] _ 20%Z); [constructor|intros []|vm_compute; reflexivity].
  - right; right; left. reflexivity.
  - right; right; right; left. reflexivity.
  - reflexivity.
  - reflexivity.
  - reflexivity.
  - reflexivity.
Defined.
