(* ===== verification/Reach.v ===== *)
(** * The scoped walk over delegations

    [admission.rs]: the one breadth-first walk over [delegates_to] edges that moderation,
    takedown, review and proxy revocation rest on ([scoped_delegation_reach_at]), the lens it is
    read through (an instant, a community, the epochs of a root), the signed term of an edge,
    and the questions asked of it. Rows are read through [TrustRoot]'s [Directory]; a page that
    fails fails the read. *)

From Stdlib Require Import ZArith NArith Lia.
From stdpp Require Import base list strings gmap.
From S2P Require Import Prelude RustStd Json Precedence ReverseQuorum Consensus Query CallerScope TrustRoot Roster Membership.

Open Scope string_scope.
Open Scope list_scope.
Open Scope persist_scope.

(** ** Scopes of an edge *)

Definition DELEGATION_SCOPE_CONSENT_REVOCATION := "consent_revocation".
Definition DELEGATION_SCOPE_MODERATE := "moderate".
Definition DELEGATION_SCOPE_TAKEDOWN := "takedown".
Definition DELEGATION_SCOPE_REVIEW := "review".
Definition DELEGATION_SCOPE_SLASH := "slash".
Definition DELEGATION_SCOPE_LICENSE := "license".
Definition DELEGATION_SCOPE_GRANT := "grant".

Definition delegation_scope_grants (envelope : Value) (scope_token : string) : bool :=
  match get envelope "scope" with
  | Some (Str s) => scope_covers s scope_token
  | Some (Array l) => existsb (fun held => scope_covers held scope_token) (omap Json.as_str l)
  | _ => false
  end.
Definition delegation_scope_set (envelope : Value) : gset string :=
  match get envelope "scope" with
  | Some (Str s) => {[s]}
  | Some (Array l) => list_to_set (omap Json.as_str l)
  | _ => ∅
  end.
Definition delegation_sub_delegation_depth (envelope : Value) : option N :=
  get envelope "sub_delegation_depth" ≫= as_u64.
Definition delegation_grants_sub_delegation (envelope : Value) : bool :=
  default false (get envelope "sub_delegation" ≫= as_bool).

Definition is_issuance_scope (scope_token : string) : bool :=
  (scope_token =s DELEGATION_SCOPE_LICENSE) || (scope_token =s DELEGATION_SCOPE_GRANT).

Definition MAX_WITHDRAWS_DELEGATION_DEPTH : nat := 16.
Definition MAX_MODERATION_DELEGATION_DEPTH : nat := 5.

(** ** The term of an edge *)

Definition DELEGATION_VALID_FROM_FIELD := "delegation_valid_from".
Definition DELEGATION_VALID_UNTIL_FIELD := "delegation_valid_until".
Definition VALID_UNTIL := "valid_until".
(** [2026-10-23T00:00:00Z]. *)
Definition delegation_term_adopted_at : instant := (1792713600 * NANOS)%Z.
Definition ROLE_TERM_CEILING_SECONDS : Z := 365 * 86400.

Definition TERM_BEARING_SCOPES : list string :=
  [DELEGATION_SCOPE_LICENSE; DELEGATION_SCOPE_GRANT; DELEGATION_SCOPE_MODERATE; DELEGATION_SCOPE_TAKEDOWN;
   DELEGATION_SCOPE_REVIEW; DELEGATION_SCOPE_SLASH].
Definition is_term_bearing_edge (envelope : Value) : bool :=
  delegation_grants_sub_delegation envelope || existsb (delegation_scope_grants envelope) TERM_BEARING_SCOPES.

Record DelegationTerm := mk_term { term_from : option instant; term_untils : list instant }.
Inductive TermRule := OverCeiling | OverRoleTerm.

(** [DateTime::parse_from_rfc3339], in UTC. *)
Class Rfc3339 := { parse_from_rfc3339 : string -> option instant }.

Section Term.
Context `{Rfc3339}.

(** A member that is present and no instant is an error naming it; null reads as absent. *)
Definition term_instant (envelope : Value) (field : string) : string + option instant :=
  match get envelope field with
  | None | Some Null => inr None
  | Some v => match Json.as_str v ≫= parse_from_rfc3339 with
              | Some t => inr (Some t)
              | None => inl field
              end
  end.
Definition read_term (envelope : Value) : string + DelegationTerm :=
  from ← term_instant envelope DELEGATION_VALID_FROM_FIELD;
  until ← term_instant envelope DELEGATION_VALID_UNTIL_FIELD;
  older ← term_instant envelope VALID_UNTIL;
  inr (mk_term from (option_list until ++ option_list older)).

Definition breach_of (role_term_seconds : option Z) (start until : instant) : option (TermRule * Z) :=
  let span := (until - start)%Z in
  if (ROLE_TERM_CEILING_SECONDS * NANOS <? span)%Z then Some (OverCeiling, span)
  else if is_some_and role_term_seconds (fun r => (r * NANOS <? span)%Z) then Some (OverRoleTerm, span)
  else None.
Definition bound_breach (t : DelegationTerm) (start_if_absent : option instant) (role_term_seconds : option Z)
    : option (TermRule * Z) :=
  start ← (match term_from t with Some f => Some f | None => start_if_absent end);
  head (omap (breach_of role_term_seconds start) (term_untils t)).

Definition delegation_term_live_at (edge : Attestation) (t : instant) (role_term_seconds : option Z) : bool :=
  let envelope := attestation_envelope edge in
  match read_term envelope with
  | inl _ => false
  | inr term =>
      if is_some_and (term_from term) (fun f => (t <? f)%Z) || existsb (fun u => (u <=? t)%Z) (term_untils term)
      then false
      else if (asserted_at edge <? delegation_term_adopted_at)%Z then negb (is_some (bound_breach term None None))
      else negb (is_term_bearing_edge envelope
                 && is_some (bound_breach term (Some (asserted_at edge)) role_term_seconds))
  end.

(** ** The lens *)

Record DelegationWalkLens := mk_lens {
  as_of : option instant;
  lens_community_id : option string;
  root_authority : option (list InstantInterval);
  role_term_seconds : option Z;
}.
Definition default_lens : DelegationWalkLens := mk_lens None None None None.

Definition asserted_by (lens : DelegationWalkLens) (row : Attestation) : bool :=
  is_none_or (as_of lens) (fun t => (asserted_at row <=? t)%Z).
Definition admits_root_edge (lens : DelegationWalkLens) (edge : Attestation) : bool :=
  is_none_or (root_authority lens) (fun iv =>
    existsb (fun '(s, e) => (s <=? asserted_at edge)%Z && is_none_or e (fun e => (asserted_at edge <? e)%Z)) iv).
Definition admits_edge (lens : DelegationWalkLens) (edge : Attestation) : bool :=
  is_none_or (as_of lens) (fun t =>
    (asserted_at edge <=? t)%Z
    && negb (is_some_and (expires_at edge) (fun x => (x <=? t)%Z))
    && delegation_term_live_at edge t (role_term_seconds lens))
  && is_none_or (lens_community_id lens) (fun c =>
       match envelope_cohort_target (attestation_envelope edge) with
       | Some None => true
       | Some (Some named) => named =s c
       | None => false
       end).

(** ** The walk *)

(** [DelegationWalkPolicy]: is attenuation and deputization asked of the chain? *)
Record DelegationWalkPolicy := mk_policy { enforce_attenuation_and_sub_delegation : bool }.
Definition CONSENT_REVOCATION : DelegationWalkPolicy := mk_policy false.
Definition MODERATION_DUTY : DelegationWalkPolicy := mk_policy true.

Record ScopedReach := mk_reach {
  reached : gset string;
  hit_target : bool;
  issuer_emitted_delegation : bool;
  target_edge_retracted : bool;
  target_edge_missing_scope : bool;
  beyond_cap : bool;
  traversed : gset string;
}.
Definition empty_reach : ScopedReach := mk_reach ∅ false false false false false ∅.
Definition with_emitted (o : ScopedReach) : ScopedReach :=
  mk_reach (reached o) (hit_target o) true (target_edge_retracted o) (target_edge_missing_scope o) (beyond_cap o)
    (traversed o).
Definition with_retracted (b : bool) (o : ScopedReach) : ScopedReach :=
  mk_reach (reached o) (hit_target o) (issuer_emitted_delegation o) (target_edge_retracted o || b)
    (target_edge_missing_scope o) (beyond_cap o) (traversed o).
Definition with_missing (b : bool) (o : ScopedReach) : ScopedReach :=
  mk_reach (reached o) (hit_target o) (issuer_emitted_delegation o) (target_edge_retracted o)
    (target_edge_missing_scope o || b) (beyond_cap o) (traversed o).
Definition with_edge (r : Attestation) (hit : bool) (o : ScopedReach) : ScopedReach :=
  mk_reach ({[attested_key_id r]} ∪ reached o) (hit_target o || hit) (issuer_emitted_delegation o)
    (target_edge_retracted o) (target_edge_missing_scope o) (beyond_cap o) ({[attestation_id r]} ∪ traversed o).
Definition with_beyond (b : bool) (o : ScopedReach) : ScopedReach :=
  mk_reach (reached o) (hit_target o) (issuer_emitted_delegation o) (target_edge_retracted o)
    (target_edge_missing_scope o) b (traversed o).

Record Node := mk_node {
  n_key : string;
  n_depth : nat;
  parent_scope : option (gset string);
  parent_sub_delegation : bool;
  budget : option N;
}.
Definition root_node (issuer : string) : Node := mk_node issuer 0 None false None.
(** The smaller of what the edge declares and what remains of the parent's allowance. *)
Definition child_budget (node : Node) (envelope : Value) : option N :=
  match delegation_sub_delegation_depth envelope, (fun b => b - 1)%N <$> budget node with
  | Some d, Some i => Some (N.min d i)
  | Some d, None => Some d
  | None, i => i
  end.
Definition child_node (node : Node) (r : Attestation) : Node :=
  mk_node (attested_key_id r) (S (n_depth node)) (Some (delegation_scope_set (attestation_envelope r)))
    (delegation_grants_sub_delegation (attestation_envelope r)) (child_budget node (attestation_envelope r)).

Record Walk := mk_walk {
  visited : gset string;
  queue : list Node;
  incoming_retracted : gmap string (gset string);
  out : ScopedReach;
}.
Definition set_out (f : ScopedReach -> ScopedReach) (w : Walk) : Walk :=
  mk_walk (visited w) (queue w) (incoming_retracted w) (f (out w)).

Section Walks.
Context (rt : RowTypes) (dir : Directory).
Context (targets : gset string) (scope_token : string) (effective_depth : nat) (policy : DelegationWalkPolicy)
  (lens : DelegationWalkLens).

(** May the node pass its duty on? *)
Definition may_delegate (node : Node) : bool :=
  (n_depth node <? effective_depth)%nat
  && negb (enforce_attenuation_and_sub_delegation policy
           && ((is_some (parent_scope node) && negb (parent_sub_delegation node))
               || bool_decide (budget node = Some 0%N))).

Definition granter_query (key : string) : AttestationQuery :=
  types (by_key key FOLD_PAGE) [attestation_type.DELEGATES_TO; attestation_type.WITHDRAWS; attestation_type.RECANTS].
Definition is_withdrawal (r : Attestation) : bool :=
  (Json.attestation_type r =s attestation_type.WITHDRAWS) || (Json.attestation_type r =s attestation_type.RECANTS).
(** The recipients a granter retracted, by the instant of the lens. *)
Definition retracted_by_granter (rows : list Attestation) : gset string :=
  list_to_set (map attested_key_id (List.filter (fun r => is_withdrawal r && asserted_by lens r) rows)).
(** The edges retracted by name among the rows about a recipient. *)
Definition retracted_by_name (rows : list Attestation) : gset string :=
  retired_ids rt (List.filter (asserted_by lens) rows).

Definition attenuates (node : Node) (r : Attestation) : bool :=
  negb (enforce_attenuation_and_sub_delegation policy)
  || is_none_or (parent_scope node) (fun ps =>
       forallb (fun c => existsb (fun p => scope_covers p c) (elements ps))
         (elements (delegation_scope_set (attestation_envelope r)))).

Definition scoped_delegates_onward (key : string) (is_root : bool) : Query.Error + bool :=
  rows ← read_pages dir (types (by_key key FOLD_PAGE) [attestation_type.DELEGATES_TO]);
  inr (existsb (fun n => admits_edge lens n && (negb is_root || admits_root_edge lens n)
                         && delegation_scope_grants (attestation_envelope n) scope_token) rows).

(** The set of a recipient, read once in the walk. *)
Definition read_incoming (key : string) (w : Walk) : Query.Error + (gset string * Walk) :=
  match incoming_retracted w !! key with
  | Some s => inr (s, w)
  | None =>
      rows ← read_pages dir (to_key key FOLD_PAGE);
      let s := retracted_by_name rows in
      inr (s, mk_walk (visited w) (queue w) (<[key := s]> (incoming_retracted w)) (out w))
  end.

(** The edge is traversable: recorded, and its recipient queued. [true] ends the walk. *)
Definition traverse (node : Node) (r : Attestation) (w : Walk) : Query.Error + (Walk * bool) :=
  let key := attested_key_id r in
  let to_target := bool_decide (key ∈ targets) in
  let w := set_out (with_edge r to_target) w in
  if to_target then inr (w, true)
  else
    beyond ← (if negb (beyond_cap (out w)) && Nat.eqb (S (n_depth node)) effective_depth
                 && negb (bool_decide (key ∈ visited w))
              then scoped_delegates_onward key false else inr (beyond_cap (out w)));
    let w := set_out (with_beyond beyond) w in
    if negb (bool_decide (key ∈ visited w)) && (S (n_depth node) <? effective_depth)%nat
    then inr (mk_walk ({[key]} ∪ visited w) (queue w ++ [child_node node r]) (incoming_retracted w) (out w), false)
    else inr (w, false).

Definition visit_edge (node : Node) (retracted : gset string) (r : Attestation) (w : Walk) : Query.Error + (Walk * bool) :=
  let is_issuer := Nat.eqb (n_depth node) 0 in
  if Json.attestation_type r <>s attestation_type.DELEGATES_TO then inr (w, false)
  else if negb (admits_edge lens r) then inr (w, false)
  else if is_issuer && negb (admits_root_edge lens r) then inr (w, false)
  else
    let w := if is_issuer then set_out with_emitted w else w in
    let to_target := bool_decide (attested_key_id r ∈ targets) in
    if negb (delegation_scope_grants (attestation_envelope r) scope_token) then inr (set_out (with_missing to_target) w, false)
    else if bool_decide (attested_key_id r ∈ retracted) then inr (set_out (with_retracted to_target) w, false)
    else if negb (attenuates node r) then inr (w, false)
    else
      '(named, w) ← read_incoming (attested_key_id r) w;
      if bool_decide (attestation_id r ∈ named) then inr (set_out (with_retracted to_target) w, false)
      else traverse node r w.

Fixpoint visit_edges (node : Node) (retracted : gset string) (rows : list Attestation) (w : Walk)
    : Query.Error + (Walk * bool) :=
  match rows with
  | [] => inr (w, false)
  | r :: rows =>
      '(w, stop) ← visit_edge node retracted r w;
      if stop : bool then inr (w, true) else visit_edges node retracted rows w
  end.

Definition visit_node (node : Node) (w : Walk) : Query.Error + (Walk * bool) :=
  if negb (may_delegate node) then inr (w, false)
  else
    rows ← read_pages dir (granter_query (n_key node));
    visit_edges node (retracted_by_granter rows) rows w.

(** [while let Some(node) = queue.pop_front()]; [None] when the fuel is out. *)
Fixpoint walk_loop (fuel : nat) (w : Walk) : option (Query.Error + ScopedReach) :=
  match fuel with
  | O => None
  | S fuel =>
      match queue w with
      | [] => Some (inr (out w))
      | node :: rest =>
          match visit_node node (mk_walk (visited w) rest (incoming_retracted w) (out w)) with
          | inl e => Some (inl e)
          | inr (w', true) => Some (inr (out w'))
          | inr (w', false) => walk_loop fuel w'
          end
      end
  end.
Definition start (issuer : string) : Walk := mk_walk {[issuer]} [root_node issuer] ∅ empty_reach.

Definition scoped_delegation_reach_at_depth (fuel : nat) (issuer : string) : option (Query.Error + ScopedReach) :=
  if Nat.eqb effective_depth 0
  then Some (b ← scoped_delegates_onward issuer true; inr (with_beyond b empty_reach))
  else walk_loop fuel (start issuer).
End Walks.

(** ** The questions asked of the walk *)

Inductive ReachabilityVerdict :=
  Reachable | RetractedAtRoot | MissingScope | SignerUnreached | SubstrateUnavailable | NoTrustRoots | BeyondDepthCap.

Section Questions.
(** [fuel] bounds the nodes a walk takes off its queue. *)
Context (rt : RowTypes) (dir : Directory) (fuel : nat).

Definition scoped_delegation_reach_at (issuer : string) (targets : gset string) (scope_token : string)
    (max_depth : nat) (policy : DelegationWalkPolicy) (lens : DelegationWalkLens) : option (Query.Error + ScopedReach) :=
  scoped_delegation_reach_at_depth rt dir targets scope_token (Nat.min max_depth MAX_WITHDRAWS_DELEGATION_DEPTH)
    policy lens fuel issuer.

(** The issuance scopes are read at the instant of the question. *)
Definition scoped_delegation_reach (now : instant) (issuer : string) (targets : gset string) (scope_token : string)
    (max_depth : nat) (policy : DelegationWalkPolicy) : option (Query.Error + ScopedReach) :=
  scoped_delegation_reach_at issuer targets scope_token max_depth policy
    (if is_issuance_scope scope_token then mk_lens (Some now) None None None else default_lens).

Definition issuer_reaches_target_via_scoped_delegation (now : instant) (issuer : string) (targets : gset string)
    (scope_token : string) (max_depth : nat) (policy : DelegationWalkPolicy) : option (Query.Error + bool) :=
  r ← scoped_delegation_reach now issuer targets scope_token max_depth policy;
  Some (o ← r; inr (hit_target o)).
Definition enumerate_scoped_delegation_reach (now : instant) (issuer scope_token : string) (max_depth : nat)
    (policy : DelegationWalkPolicy) : option (Query.Error + gset string) :=
  r ← scoped_delegation_reach now issuer ∅ scope_token max_depth policy;
  Some (o ← r; inr (reached o)).
Definition consent_revocation_reach (now : instant) (issuer : string) (targets : gset string) (max_depth : nat)
    : option (Query.Error + ScopedReach) :=
  scoped_delegation_reach now issuer targets DELEGATION_SCOPE_CONSENT_REVOCATION max_depth CONSENT_REVOCATION.

Definition reachable_under_scope (now : instant) (issuer target scope : string) (max_depth : nat)
    : option (Query.Error + bool) :=
  issuer_reaches_target_via_scoped_delegation now issuer {[target]} scope max_depth MODERATION_DUTY.

Definition classify_reach (reach : ScopedReach) : ReachabilityVerdict :=
  if hit_target reach then Reachable
  else if target_edge_retracted reach then RetractedAtRoot
  else if target_edge_missing_scope reach then MissingScope
  else if negb (issuer_emitted_delegation reach) then NoTrustRoots
  else if beyond_cap reach then BeyondDepthCap
  else SignerUnreached.
Definition reachable_under_scope_with_reasons (now : instant) (issuer target scope : string) (max_depth : nat)
    : option ReachabilityVerdict :=
  if Nat.eqb (Nat.min max_depth MAX_WITHDRAWS_DELEGATION_DEPTH) 0 then
    r ← scoped_delegation_reach now issuer {[target]} scope 0 MODERATION_DUTY;
    Some (match r with
          | inr reach => if beyond_cap reach then BeyondDepthCap else SignerUnreached
          | inl _ => SubstrateUnavailable
          end)
  else
    r ← scoped_delegation_reach now issuer {[target]} scope max_depth MODERATION_DUTY;
    Some (match r with inr reach => classify_reach reach | inl _ => SubstrateUnavailable end).

(** ** Named moderators

    The roster of a community held here ([lookup_community], [effective_roster]), the steward
    anchors of a key and the role term of an affiliation are read of other modules. *)
Record ModerationReads := mk_moderation_reads {
  community_roster : string -> Query.Error + option (list CommunityMember);
  mr_is_steward_bound : string -> Query.Error + bool;
  affiliation_role_term_at : string -> instant -> Query.Error + option Z;
}.
Context (reads : ModerationReads).

Fixpoint duty_roots_of (members : list CommunityMember) : Query.Error + gset string :=
  match members with
  | [] => inr ∅
  | m :: rest =>
      root ← (if bool_decide (cm_role m = Some MEMBER_ROLE_FOUNDER) then mr_is_steward_bound reads (cm_key_id m)
              else inr false);
      roots ← duty_roots_of rest;
      inr (if root : bool then {[cm_key_id m]} ∪ roots else roots)
  end.
Definition moderation_duty_roots (community_id : string) : Query.Error + gset string :=
  roster ← community_roster reads community_id;
  match roster with
  | None => inr ∅
  | Some members => duty_roots_of members
  end.

(** The roots are taken in key order. *)
Fixpoint any_root_reaches (now : instant) (k duty : string) (roots : list string) : option (Query.Error + bool) :=
  match roots with
  | [] => Some (inr false)
  | root :: rest =>
      if root =s k then Some (inr true)
      else r ← issuer_reaches_target_via_scoped_delegation now root {[k]} duty MAX_MODERATION_DELEGATION_DEPTH
                 MODERATION_DUTY;
           match r with
           | inl e => Some (inl e)
           | inr true => Some (inr true)
           | inr false => any_root_reaches now k duty rest
           end
  end.
Definition is_named_moderator (now : instant) (k community_id duty : string) : option (Query.Error + bool) :=
  match moderation_duty_roots community_id with
  | inl e => Some (inl e)
  | inr roots => any_root_reaches now k duty (elements roots)
  end.

Fixpoint reach_of_roots (now : instant) (duty : string) (roots : list string) : option (Query.Error + gset string) :=
  match roots with
  | [] => Some (inr ∅)
  | root :: rest =>
      r ← enumerate_scoped_delegation_reach now root duty MAX_MODERATION_DELEGATION_DEPTH MODERATION_DUTY;
      match r with
      | inl e => Some (inl e)
      | inr keys =>
          more ← reach_of_roots now duty rest;
          Some (more ← more; inr ({[root]} ∪ keys ∪ more))
      end
  end.
Definition moderators_of (now : instant) (community_id duty : string) : option (Query.Error + list string) :=
  match moderation_duty_roots community_id with
  | inl e => Some (inl e)
  | inr roots => r ← reach_of_roots now duty (elements roots);
                 Some (s ← r; inr (sort_strings (elements s)))
  end.

(** The reads [Roster] asks of this walk. *)
Definition moderation_reach_of_at_within (community_id root : string) (as_of : instant)
    (root_authority : option (list InstantInterval)) : option (Query.Error + list string) :=
  match affiliation_role_term_at reads community_id as_of with
  | inl e => Some (inl e)
  | inr term =>
      r ← scoped_delegation_reach_at root ∅ DELEGATION_SCOPE_MODERATE MAX_MODERATION_DELEGATION_DEPTH
            MODERATION_DUTY (mk_lens (Some as_of) (Some community_id) root_authority term);
      Some (o ← r; inr (elements (reached o)))
  end.
End Questions.
End Term.
