(* ===== verification/ReachFacts.v ===== *)
(** * The scoped walk: it ends, it is sound, and its questions agree

    Proofs about [Reach], over a directory that answers its reads from one store of rows
    ([TrustBounded.Holds]). The walk is compared with a loop that has no reads, no targets and
    no flags ([core_loop]): which keys it visits, in which order, and which edges it takes. *)

From Stdlib Require Import ZArith NArith Lia.
From stdpp Require Import base list strings gmap fin_sets.
From S2P Require Import Prelude RustStd Json Precedence ReverseQuorum Query TrustRoot TrustBounded Roster Reach.

Open Scope string_scope.
Open Scope list_scope.
Open Scope persist_scope.

Section Reach.
Context `{Rfc3339} (rt : RowTypes) (store : list Attestation) (held : list string) (dir : Directory)
  `{!Holds store held dir}.

(** ** What the store answers *)

Definition out_rows (key : string) : list Attestation := answer store (granter_query key).
Definition in_rows (key : string) : list Attestation := answer store (to_key key FOLD_PAGE).

Lemma granter_read key : read_pages dir (granter_query key) = inr (out_rows key).
Proof. by apply holds_pages. Qed.
Lemma incoming_read key : read_pages dir (to_key key FOLD_PAGE) = inr (in_rows key).
Proof. by apply holds_pages. Qed.
Lemma out_rows_In key r : In r (out_rows key) -> In r store /\ attesting_key_id r = key.
Proof.
  intros [Hs Ha]%answer_In. split; [done|]. unfold admits, granter_query, types, by_key, pinned in Ha. simpl in Ha.
  destruct (attesting_key_id r =s key) eqn:E; [by apply String.eqb_eq|done].
Qed.

Section Walk.
Context (scope_token : string) (effective_depth : nat) (policy : DelegationWalkPolicy) (lens : DelegationWalkLens).

(** The edges retracted by name among the rows about a recipient. *)
Definition named (key : string) : gset string := retracted_by_name rt lens (in_rows key).

(** Every gate of an edge, but for its target. *)
Definition passes_gates (node : Node) (r : Attestation) : bool :=
  (Json.attestation_type r =s attestation_type.DELEGATES_TO)
  && admits_edge lens r
  && (negb (Nat.eqb (n_depth node) 0) || admits_root_edge lens r)
  && delegation_scope_grants (attestation_envelope r) scope_token
  && negb (bool_decide (attested_key_id r ∈ retracted_by_granter lens (out_rows (n_key node))))
  && attenuates policy node r
  && negb (bool_decide (attestation_id r ∈ named (attested_key_id r))).

(** ** The loop without reads *)

Record Core := mk_core { c_visited : gset string; c_queue : list Node; c_reached : gset string; c_edges : gset string }.
Definition core_of (w : Walk) : Core := mk_core (visited w) (queue w) (reached (out w)) (traversed (out w)).

Definition core_edge (node : Node) (c : Core) (r : Attestation) : Core :=
  let key := attested_key_id r in
  if negb (bool_decide (key ∈ c_visited c)) && (S (n_depth node) <? effective_depth)%nat
  then mk_core ({[key]} ∪ c_visited c) (c_queue c ++ [child_node node r]) ({[key]} ∪ c_reached c)
         ({[attestation_id r]} ∪ c_edges c)
  else mk_core (c_visited c) (c_queue c) ({[key]} ∪ c_reached c) ({[attestation_id r]} ∪ c_edges c).
(** The edges a node takes. *)
Definition node_edges (node : Node) : list Attestation :=
  if may_delegate effective_depth policy node then List.filter (passes_gates node) (out_rows (n_key node)) else [].
Definition core_node (node : Node) (c : Core) : Core := fold_left (core_edge node) (node_edges node) c.
Fixpoint core_loop (fuel : nat) (c : Core) : option Core :=
  match fuel with
  | O => None
  | S fuel =>
      match c_queue c with
      | [] => Some c
      | node :: rest =>
          core_loop fuel (core_node node (mk_core (c_visited c) rest (c_reached c) (c_edges c)))
      end
  end.
Definition core_start (issuer : string) : Core := mk_core {[issuer]} [root_node issuer] ∅ ∅.

Definition grows (c c' : Core) : Prop := c_reached c ⊆ c_reached c' /\ c_edges c ⊆ c_edges c'.
#[local] Instance grows_preorder : PreOrder grows.
Proof. split; [done|]. intros a b c [H1 H2] [H3 H4]. split; set_solver. Qed.

Lemma core_edge_grows node c r : grows c (core_edge node c r).
Proof. unfold core_edge, grows. destruct (_ && _); simpl; set_solver. Qed.
Lemma core_edges_grow node rows c : grows c (fold_left (core_edge node) rows c).
Proof.
  revert c. induction rows as [|r rows IH]; intros c; simpl; [done|].
  etransitivity; [apply core_edge_grows|apply IH].
Qed.
Lemma core_loop_grows fuel c cf : core_loop fuel c = Some cf -> grows c cf.
Proof.
  revert c. induction fuel as [|fuel IH]; intros c; simpl; [done|].
  destruct (c_queue c) as [|node rest]; [intros [= <-]; done|]. intros E. apply IH in E.
  etransitivity; [|exact E]. unfold core_node.
  destruct (core_edges_grow node (node_edges node) (mk_core (c_visited c) rest (c_reached c) (c_edges c))). by split.
Qed.
Lemma core_edge_takes node c r :
  attested_key_id r ∈ c_reached (core_edge node c r) /\ attestation_id r ∈ c_edges (core_edge node c r).
Proof. unfold core_edge. destruct (_ && _); simpl; set_solver. Qed.

(** ** The walk does what the loop does *)

Section Targets.
Context (targets : gset string).

Definition memo_ok (w : Walk) : Prop := forall k s, incoming_retracted w !! k = Some s -> s = named k.

(** What one edge, a row or a node leaves: the loop's state, or an end at a target. *)
Definition agrees (w : Walk) (c : Core) (res : Query.Error + (Walk * bool)) : Prop :=
  exists w' stop, res = inr (w', stop) /\ memo_ok w' /\ hit_target (out w') = stop /\
    (if stop then (exists k, k ∈ targets /\ k ∈ c_reached c) /\
                  reached (out w') ⊆ c_reached c /\ traversed (out w') ⊆ c_edges c
     else core_of w' = c).

Lemma read_incoming_spec key w : memo_ok w -> exists w',
  read_incoming rt dir lens key w = inr (named key, w') /\ memo_ok w' /\ core_of w' = core_of w /\ out w' = out w.
Proof.
  intros Hm. unfold read_incoming. destruct (incoming_retracted w !! key) as [s|] eqn:E.
  - exists w. by rewrite (Hm _ _ E).
  - rewrite incoming_read, ok_bind. eexists. split; [done|]. split; [|done].
    intros k s. simpl. destruct (decide (k = key)) as [->|Hk].
    + rewrite lookup_insert_eq. by intros [= <-].
    + rewrite lookup_insert_ne by done. apply Hm.
Qed.

Lemma onward_read key b : exists x, scoped_delegates_onward dir scope_token lens key b = inr x.
Proof. unfold scoped_delegates_onward. rewrite holds_pages by done. rewrite ok_bind. eauto. Qed.

Lemma traverse_spec node r w : memo_ok w -> hit_target (out w) = false ->
  exists w' stop, traverse dir targets scope_token effective_depth lens node r w = inr (w', stop) /\ memo_ok w' /\
    hit_target (out w') = stop /\ stop = bool_decide (attested_key_id r ∈ targets) /\
    (if stop then reached (out w') = {[attested_key_id r]} ∪ reached (out w) /\
                  traversed (out w') = {[attestation_id r]} ∪ traversed (out w)
     else core_of w' = core_edge node (core_of w) r).
Proof.
  intros Hm Hh. unfold traverse. destruct (bool_decide (attested_key_id r ∈ targets)) eqn:Et.
  - eexists _, true. split; [done|]. split; [done|]. simpl. by rewrite Hh.
  - match goal with |- context [if ?b then scoped_delegates_onward _ _ _ _ _ else _] => destruct b end.
    + destruct (onward_read (attested_key_id r) false) as [x ->]. rewrite ok_bind.
      unfold core_edge, core_of. simpl. destruct (_ && _);
        (eexists _, false; split; [done|]); simpl; by rewrite Hh.
    + rewrite ok_bind. unfold core_edge, core_of. simpl. destruct (_ && _);
        (eexists _, false; split; [done|]); simpl; by rewrite Hh.
Qed.

(** An edge that does not pass leaves no trace but a flag. *)
Lemma visit_edge_spec node r w : memo_ok w -> hit_target (out w) = false ->
  exists w' stop,
    visit_edge rt dir targets scope_token effective_depth policy lens node
      (retracted_by_granter lens (out_rows (n_key node))) r w = inr (w', stop) /\
    memo_ok w' /\ hit_target (out w') = stop /\
    (if passes_gates node r
     then stop = bool_decide (attested_key_id r ∈ targets) /\
          (if stop then reached (out w') = {[attested_key_id r]} ∪ reached (out w) /\
                        traversed (out w') = {[attestation_id r]} ∪ traversed (out w)
           else core_of w' = core_edge node (core_of w) r)
     else stop = false /\ core_of w' = core_of w).
Proof.
  intros Hm Hh. unfold visit_edge, passes_gates.
  destruct (Json.attestation_type r =s attestation_type.DELEGATES_TO); cbn [negb andb];
    [|exists w, false; done].
  destruct (admits_edge lens r); cbn [negb andb]; [|exists w, false; done].
  assert (Hi : (n_depth node =? 0)%nat && negb (admits_root_edge lens r)
               = negb (negb (n_depth node =? 0)%nat || admits_root_edge lens r))
    by (destruct (n_depth node =? 0)%nat, (admits_root_edge lens r); done).
  rewrite Hi. clear Hi.
  destruct (negb (n_depth node =? 0)%nat || admits_root_edge lens r); cbn [negb andb]; [|exists w, false; done].
  set (w1 := if (n_depth node =? 0)%nat then set_out with_emitted w else w).
  assert (Hw1 : memo_ok w1 /\ hit_target (out w1) = false /\ core_of w1 = core_of w /\
                reached (out w1) = reached (out w) /\ traversed (out w1) = traversed (out w)).
  { unfold w1. by destruct (n_depth node =? 0)%nat. }
  clearbody w1. destruct Hw1 as (Hm1 & Hh1 & Hc1 & Hr1 & Ht1).
  destruct (delegation_scope_grants _ _); cbn [negb andb]; [|eexists _, false; by repeat split].
  destruct (bool_decide (attested_key_id r ∈ retracted_by_granter _ _)); cbn [negb andb];
    [eexists _, false; by repeat split|].
  destruct (attenuates policy node r); cbn [negb andb]; [|eexists _, false; by repeat split].
  destruct (read_incoming_spec (attested_key_id r) w1 Hm1) as (w2 & -> & Hm2 & Hc2 & Ho2). rewrite ok_bind.
  destruct (bool_decide (attestation_id r ∈ named _)); cbn [negb andb].
  - eexists _, false. split; [done|]. split; [done|]. split; [simpl; by rewrite Ho2|]. split; [done|].
    rewrite <- Hc1, <- Hc2. done.
  - destruct (traverse_spec node r w2 Hm2) as (w' & stop & E & Hm' & Hh' & Hs & H'); [by rewrite Ho2|].
    exists w', stop. rewrite E. split_and!; try done. rewrite Ho2, Hr1, Ht1, Hc2, Hc1 in H'. done.
Qed.

Lemma visit_edges_spec node rows w c : memo_ok w -> hit_target (out w) = false -> core_of w = c ->
  agrees w (fold_left (core_edge node) (List.filter (passes_gates node) rows) c)
    (visit_edges rt dir targets scope_token effective_depth policy lens node
       (retracted_by_granter lens (out_rows (n_key node))) rows w) /\
  ((exists w', visit_edges rt dir targets scope_token effective_depth policy lens node
       (retracted_by_granter lens (out_rows (n_key node))) rows w = inr (w', false)) ->
   forall r, In r rows -> passes_gates node r = true -> attested_key_id r ∉ targets).
Proof.
  revert w c. induction rows as [|r rows IH]; intros w c Hm Hh Hc.
  { split; [|set_solver]. exists w, false. done. }
  cbn [visit_edges List.filter].
  destruct (visit_edge_spec node r w Hm Hh) as (w1 & stop & -> & Hm1 & Hh1 & Hg). rewrite ok_bind.
  destruct (passes_gates node r) eqn:Ep.
  - destruct Hg as [Hs Hg]. destruct stop.
    + split; [|intros [w' ?]; done]. exists w1, true. cbn [fold_left]. destruct Hg as [Hr Ht]. rewrite Hr, Ht.
      destruct (core_edges_grow node (List.filter (passes_gates node) rows) (core_edge node c r)) as [Gr Ge].
      destruct (core_edge_takes node c r) as [Tr Te]. destruct (core_edge_grows node c r) as [Gr1 Ge1].
      assert (reached (out w) = c_reached c /\ traversed (out w) = c_edges c) as [-> ->] by (by rewrite <- Hc).
      symmetry in Hs. apply bool_decide_eq_true in Hs. repeat split; [done|done|set_solver|set_solver|set_solver].
    + destruct (IH w1 (core_edge node c r)) as [IH1 IH2]; [done|done|by rewrite Hg, Hc|].
      split; [exact IH1|]. intros Hf r' [<-|Hr'] Hp; [|by apply IH2].
      symmetry in Hs. by apply bool_decide_eq_false in Hs.
  - destruct Hg as [-> Hg]. destruct (IH w1 c) as [IH1 IH2]; [done|done|by rewrite Hg|].
    split; [exact IH1|]. intros Hf r' [<-|Hr'] Hp; [congruence|by apply IH2].
Qed.

Lemma visit_node_spec node w c : memo_ok w -> hit_target (out w) = false -> core_of w = c ->
  agrees w (core_node node c) (visit_node rt dir targets scope_token effective_depth policy lens node w) /\
  ((exists w', visit_node rt dir targets scope_token effective_depth policy lens node w = inr (w', false)) ->
   forall r, In r (node_edges node) -> attested_key_id r ∉ targets).
Proof.
  intros Hm Hh Hc. unfold visit_node, core_node, node_edges.
  destruct (may_delegate effective_depth policy node); cbn [negb].
  - rewrite granter_read, ok_bind. destruct (visit_edges_spec node (out_rows (n_key node)) w c Hm Hh Hc) as [H1 H2].
    split; [exact H1|]. intros Hf r [Hr Hp]%filter_In. by eapply H2.
  - split; [|set_solver]. exists w, false. done.
Qed.

(** A key the loop newly reaches at a node is that of an edge of the node. *)
Lemma core_edges_reached node rows c k :
  k ∈ c_reached (fold_left (core_edge node) rows c) <->
  k ∈ c_reached c \/ exists r, In r rows /\ attested_key_id r = k.
Proof.
  revert c. induction rows as [|r rows IH]; intros c; simpl; [naive_solver|]. rewrite IH.
  unfold core_edge. destruct (_ && _); simpl; set_solver.
Qed.

Definition disjoint_targets (c : Core) : Prop := forall k, k ∈ targets -> k ∉ c_reached c.

Lemma walk_spec fuel w cf : memo_ok w -> hit_target (out w) = false -> disjoint_targets (core_of w) ->
  core_loop fuel (core_of w) = Some cf ->
  exists o, walk_loop rt dir targets scope_token effective_depth policy lens fuel w = Some (inr o) /\
    (hit_target o = true <-> exists k, k ∈ targets /\ k ∈ c_reached cf) /\
    reached o ⊆ c_reached cf /\ traversed o ⊆ c_edges cf /\
    (hit_target o = false -> reached o = c_reached cf /\ traversed o = c_edges cf).
Proof.
  revert w. induction fuel as [|fuel IH]; intros w Hm Hh Hd; [done|].
  cbn [core_loop walk_loop]. change (c_queue (core_of w)) with (queue w). destruct (queue w) as [|node rest] eqn:Eq.
  { intros [= <-]. exists (out w). split; [done|]. rewrite Hh. simpl. split_and!; try done.
    split; [done|]. intros (k & Hk & Hr). by destruct (Hd k). }
  intros E. set (w0 := mk_walk (visited w) rest (incoming_retracted w) (out w)).
  destruct (visit_node_spec node w0 (core_of w0)) as [(w1 & stop & -> & Hm1 & Hh1 & Hc) Hn]; [done|done|done|].
  destruct stop.
  - exists (out w1). split; [done|]. destruct Hc as ((k & Hk & Hr) & Hs1 & Hs2).
    pose proof (core_loop_grows _ _ _ E) as [G1 G2].
    change (core_node node (mk_core _ rest _ _)) with (core_node node (core_of w0)) in G1, G2.
    rewrite Hh1. split_and!; [|set_solver|set_solver|done]. split; [|done]. intros _. exists k. set_solver.
  - apply IH; [done|done| |].
    + rewrite Hc. intros k Hk Hr. unfold core_node in Hr. apply core_edges_reached in Hr as [Hr|(r & Hr & <-)].
      * by apply (Hd k).
      * apply (Hn (ex_intro _ w1 eq_refl) r Hr). done.
    + rewrite Hc. exact E.
Qed.

End Targets.

(** ** The loop ends *)

Definition recipients : gset string := list_to_set (map attested_key_id store).
Definition measure (c : Core) : nat := size (recipients ∖ c_visited c) + length (c_queue c).

Lemma node_edges_In node r : In r (node_edges node) ->
  In r store /\ attesting_key_id r = n_key node /\ passes_gates node r = true /\
  may_delegate effective_depth policy node = true.
Proof.
  unfold node_edges. destruct (may_delegate effective_depth policy node) eqn:E; [|done].
  intros [[Hs Hk]%out_rows_In Hp]%filter_In. done.
Qed.

Lemma core_edge_measure node c r : In r store -> measure (core_edge node c r) = measure c.
Proof.
  intros Hr. unfold core_edge. destruct (bool_decide (attested_key_id r ∈ c_visited c)) eqn:E; [done|].
  apply bool_decide_eq_false in E. destruct (S (n_depth node) <? effective_depth)%nat; [|done].
  unfold measure. simpl. rewrite length_app. simpl.
  assert (Hin : attested_key_id r ∈ recipients ∖ c_visited c).
  { apply elem_of_difference. split; [|done]. apply elem_of_list_to_set, list_elem_of_In, in_map_iff. eauto. }
  assert (Es : recipients ∖ c_visited c
               = {[attested_key_id r]} ∪ (recipients ∖ ({[attested_key_id r]} ∪ c_visited c))).
  { apply set_eq. intros x. destruct (decide (x = attested_key_id r)); set_solver. }
  rewrite Es. set (rest := recipients ∖ _).
  pose proof (size_union ({[attested_key_id r]} : gset string) rest ltac:(subst rest; set_solver)) as Hz.
  rewrite size_singleton in Hz. lia.
Qed.

Lemma core_node_measure node c : measure (core_node node c) = measure c.
Proof.
  unfold core_node. assert (Hs : forall r, In r (node_edges node) -> In r store) by (intros r [Hr _]%node_edges_In; done).
  revert c. induction (node_edges node) as [|r rows IH]; intros c; simpl; [done|].
  rewrite IH by (intros; apply Hs; by right). apply core_edge_measure, Hs. by left.
Qed.

Lemma core_loop_total fuel c : (measure c < fuel)%nat -> exists cf, core_loop fuel c = Some cf.
Proof.
  revert c. induction fuel as [|fuel IH]; intros c Hf; [lia|]. simpl. destruct (c_queue c) as [|node rest] eqn:E; [eauto|].
  apply IH. rewrite core_node_measure. unfold measure in *. rewrite E in Hf. simpl in *. lia.
Qed.

Lemma size_list_le (l : list string) : (size (list_to_set l : gset string) <= length l)%nat.
Proof.
  induction l as [|x l IH]; [vm_compute; lia|]; cbn [list_to_set length].
  pose proof (size_union_alt ({[x]} : gset string) (list_to_set l)) as Hz. rewrite size_singleton in Hz.
  pose proof (subseteq_size ((list_to_set l : gset string) ∖ {[x]}) (list_to_set l) ltac:(set_solver)). lia.
Qed.
Definition enough : nat := length store + 2.
Lemma start_total issuer fuel : (enough <= fuel)%nat -> exists cf, core_loop fuel (core_start issuer) = Some cf.
Proof.
  intros Hf. apply core_loop_total. unfold measure, core_start, enough in *. simpl.
  assert (size (recipients ∖ {[issuer]}) <= length store)%nat; [|lia].
  transitivity (size recipients); [apply (subseteq_size (C:=gset string)); set_solver|].
  unfold recipients. rewrite <- (length_map attested_key_id store). apply size_list_le.
Qed.

(** ** What is reached has a live chain *)

Section Chains.
Context (issuer : string).

(** The nodes a chain of live edges leads to: each edge was issued by the node before it,
    passes every gate there, and the node may still delegate. *)
Inductive live_node : Node -> Prop :=
| live_root : live_node (root_node issuer)
| live_hop n r : live_node n -> In r (node_edges n) -> live_node (child_node n r).
Definition Reaches (k : string) : Prop :=
  exists n r, live_node n /\ In r (node_edges n) /\ attested_key_id r = k.
Definition OnChain (id : string) : Prop :=
  exists n r, live_node n /\ In r (node_edges n) /\ attestation_id r = id.

Definition sound (c : Core) : Prop :=
  (forall n, In n (c_queue c) -> live_node n) /\
  (forall k, k ∈ c_reached c -> Reaches k) /\ (forall id, id ∈ c_edges c -> OnChain id).

Lemma core_edge_sound node r c : live_node node -> In r (node_edges node) -> sound c -> sound (core_edge node c r).
Proof.
  intros Hl Hr (H1 & H2 & H3). unfold core_edge.
  assert (R : Reaches (attested_key_id r)) by (exists node, r; done).
  assert (O : OnChain (attestation_id r)) by (exists node, r; done).
  destruct (_ && _); simpl; repeat split; simpl; try (intros x [->%elem_of_singleton|Hx]%elem_of_union; auto; fail); try done.
  intros n [Hn|[<-|[]]]%in_app_iff; [by apply H1|]. by constructor.
Qed.
Lemma core_node_sound node c : live_node node -> sound c -> sound (core_node node c).
Proof.
  intros Hl. unfold core_node. assert (Hs : forall r, In r (node_edges node) -> In r (node_edges node)) by done.
  revert Hs c. generalize (node_edges node) at 1 3. intros rows. induction rows as [|r rows IH]; intros Hs c Hc; simpl; [done|].
  apply IH; [intros; apply Hs; by right|]. apply core_edge_sound; [done| |done]. apply Hs. by left.
Qed.
Lemma core_loop_sound fuel c cf : sound c -> core_loop fuel c = Some cf -> sound cf.
Proof.
  revert c. induction fuel as [|fuel IH]; intros c Hc; simpl; [done|].
  destruct (c_queue c) as [|node rest] eqn:E; [by intros [= <-]|]. apply IH.
  destruct Hc as (H1 & H2 & H3). apply core_node_sound; [apply H1; rewrite E; by left|].
  repeat split; simpl; [|done|done]. intros n Hn. apply H1. rewrite E. by right.
Qed.
Lemma start_sound : sound (core_start issuer).
Proof. repeat split; simpl; [|set_solver|set_solver]. intros n [<-|[]]. constructor. Qed.

(** A live chain is no longer than the cap. *)
Lemma live_depth n r : live_node n -> In r (node_edges n) -> (S (n_depth n) <= effective_depth)%nat.
Proof.
  intros _ (_ & _ & _ & Hm)%node_edges_In. unfold may_delegate in Hm. apply andb_true_iff in Hm as [Hd _].
  apply Nat.ltb_lt in Hd. lia.
Qed.

End Chains.

(** ** Breadth first: the first visit of a key is its shortest chain *)

(** [P] are the nodes taken off the queue; [d] the depth the walk has come to. *)
Record breadth (P : list Node) (d : nat) (c : Core) : Prop := {
  bf_taken : forall n, In n P -> (n_depth n <= d)%nat;
  bf_queue : exists q1 q2, c_queue c = q1 ++ q2 /\
    (forall n, In n q1 -> n_depth n = d) /\ (forall n, In n q2 -> n_depth n = S d);
  bf_visited : forall k, k ∈ c_visited c <-> exists n, In n (P ++ c_queue c) /\ n_key n = k;
}.
(** Where an edge of a node at [depth] leads: its recipient is reached, and, below the cap, it
    is queued or was, no deeper than the edge makes it. *)
Definition led (P : list Node) (c : Core) (depth : nat) (r : Attestation) : Prop :=
  attested_key_id r ∈ c_reached c /\
  ((S depth < effective_depth)%nat ->
   exists n, In n (P ++ c_queue c) /\ n_key n = attested_key_id r /\ (n_depth n <= S depth)%nat).

Lemma breadth_depth P d c n : breadth P d c -> In n (P ++ c_queue c) -> (n_depth n <= S d)%nat.
Proof.
  intros [Ht (q1 & q2 & Eq & H1 & H2) _] [Hn|Hn]%in_app_iff; [specialize (Ht n Hn); lia|].
  rewrite Eq in Hn. apply in_app_iff in Hn as [Hn|Hn]; [rewrite (H1 n Hn)|rewrite (H2 n Hn)]; lia.
Qed.

Lemma core_edge_queue node c r n : In n (c_queue c) -> In n (c_queue (core_edge node c r)).
Proof. intros Hn. unfold core_edge. destruct (_ && _); simpl; [apply in_app_iff; by left|done]. Qed.

Lemma core_edges_queue node rows c n : In n (c_queue c) -> In n (c_queue (fold_left (core_edge node) rows c)).
Proof. revert c. induction rows as [|r rows IH]; intros c Hn; simpl; [done|]. by apply IH, core_edge_queue. Qed.

Lemma led_mono P c depth r node r' : led P c depth r -> led P (core_edge node c r') depth r.
Proof.
  intros [H1 H2]. split; [destruct (core_edge_grows node c r'); set_solver|].
  intros Hd. destruct (H2 Hd) as (n & Hn & Hk & Hle). exists n. split; [|done].
  apply in_app_iff in Hn as [Hn|Hn]; apply in_app_iff; [by left|right; by apply core_edge_queue].
Qed.

Lemma core_edge_breadth P d c node r : breadth P d c -> n_depth node = d ->
  breadth P d (core_edge node c r) /\ led P (core_edge node c r) d r.
Proof.
  intros HB Hd. pose proof HB as [Ht (q1 & q2 & Eq & H1 & H2) Hv]. unfold core_edge.
  destruct (bool_decide (attested_key_id r ∈ c_visited c)) eqn:E; cbn [negb andb].
  { apply bool_decide_eq_true in E. split; [split; simpl; eauto|]. split; [simpl; set_solver|]. intros Hlt.
    apply Hv in E as (n & Hn & Hk). exists n. split; [done|]. split; [done|]. by eapply breadth_depth. }
  apply bool_decide_eq_false in E. rewrite Hd. destruct (S d <? effective_depth)%nat eqn:El; simpl.
  - split; [split; simpl|split; simpl; [set_solver|]].
    + exact Ht.
    + exists q1, (q2 ++ [child_node node r]). rewrite Eq, app_assoc. split; [done|]. split; [done|].
      intros n [Hn|[<-|[]]]%in_app_iff; [by apply H2|]. simpl. by rewrite Hd.
    + intros k. rewrite elem_of_union, elem_of_singleton, Hv. split.
      * intros [->|(n & Hn & Hk)].
        -- exists (child_node node r). split; [|done]. rewrite !in_app_iff. right. right. by left.
        -- exists n. split; [|done]. rewrite app_assoc. apply in_app_iff. by left.
      * intros (n & Hn & Hk). rewrite app_assoc in Hn. apply in_app_iff in Hn as [Hn|[<-|[]]]; [right; eauto|by left].
    + intros _. exists (child_node node r). split; [rewrite !in_app_iff; right; right; by left|]. simpl. split; [done|lia].
  - apply Nat.ltb_ge in El. split; [split; simpl; eauto|]. split; [simpl; set_solver|]. intros. lia.
Qed.

Lemma core_edges_breadth P d c node rows : breadth P d c -> n_depth node = d ->
  breadth P d (fold_left (core_edge node) rows c) /\
  (forall r, In r rows -> led P (fold_left (core_edge node) rows c) d r) /\
  (forall depth r, led P c depth r -> led P (fold_left (core_edge node) rows c) depth r).
Proof.
  revert c. induction rows as [|r rows IH]; intros c HB Hd; simpl; [done|].
  destruct (core_edge_breadth P d c node r HB Hd) as [HB' Hl].
  destruct (IH _ HB' Hd) as (H1 & H2 & H3). split; [done|]. split.
  - intros r' [<-|Hr']; [by apply H3|by apply H2].
  - intros depth r' Hl'. by apply H3, led_mono.
Qed.

(** Taking the head of the queue. *)
Lemma pop_breadth P d c node rest : breadth P d c -> c_queue c = node :: rest ->
  breadth (P ++ [node]) (n_depth node) (mk_core (c_visited c) rest (c_reached c) (c_edges c)).
Proof.
  intros [Ht (q1 & q2 & Eq & H1 & H2) Hv] Ec.
  assert (Hvis : forall k, k ∈ c_visited c <-> exists n, In n ((P ++ [node]) ++ rest) /\ n_key n = k).
  { intros k. rewrite Hv, Ec, <- app_assoc. done. }
  rewrite Ec in Eq. destruct q1 as [|n1 q1]; simpl in Eq.
  - assert (Hd : n_depth node = S d) by (apply H2; rewrite <- Eq; by left).
    split; simpl; [|exists rest, []|done].
    + intros n [Hn|[<-|[]]]%in_app_iff; [specialize (Ht n Hn); lia|done].
    + rewrite app_nil_r. split; [done|]. split; [|done]. intros n Hn. rewrite Hd. apply H2. rewrite <- Eq. by right.
  - injection Eq as <- ->. assert (Hd : n_depth node = d) by (apply H1; by left).
    split; simpl; [|exists q1, q2|done].
    + intros n [Hn|[<-|[]]]%in_app_iff; [rewrite Hd; by apply Ht|done].
    + split; [done|]. rewrite Hd. split; [|done]. intros n Hn. apply H1. by right.
Qed.

Definition closed (P : list Node) (c : Core) : Prop :=
  forall n r, In n P -> In r (node_edges n) -> led P c (n_depth n) r.

Lemma core_loop_closed fuel P d c cf : breadth P d c -> closed P c -> core_loop fuel c = Some cf ->
  exists P', (forall n, In n (P ++ c_queue c) -> In n P') /\ closed P' cf /\ c_queue cf = [].
Proof.
  revert P d c. induction fuel as [|fuel IH]; intros P d c HB Hc; simpl; [done|].
  destruct (c_queue c) as [|node rest] eqn:E.
  { intros [= <-]. exists P. split; [|done]. intros n. by rewrite app_nil_r. }
  intros El. pose proof (pop_breadth P d c node rest HB E) as HB1.
  destruct (core_edges_breadth _ _ _ node (node_edges node) HB1 eq_refl) as (HB2 & Hn & Ho).
  destruct (IH _ _ _ HB2) with (2 := El) as (P' & Hsub & Hc' & Hq).
  - intros n r [Hin|[<-|[]]]%in_app_iff Hr; [|by apply Hn]. apply Ho.
    destruct (Hc n r Hin Hr) as [H1 H2]. split; [done|]. intros Hd. destruct (H2 Hd) as (n' & Hn' & ?).
    exists n'. split; [|done]. simpl. rewrite E in Hn'. by rewrite <- app_assoc.
  - exists P'. split; [|done]. intros n Hin. apply Hsub. rewrite <- app_assoc.
    apply in_app_iff in Hin as [Hin|Hin]; apply in_app_iff; [by left|right].
    destruct Hin as [<-|Hin]; [by left|right]. by apply core_edges_queue.
Qed.

Lemma start_breadth issuer : breadth [] 0 (core_start issuer) /\ closed [] (core_start issuer).
Proof.
  split; [split; simpl|by intros n r []].
  - done.
  - exists [root_node issuer], []. split; [done|]. split; [|done]. intros n [<-|[]]. done.
  - intros k. rewrite elem_of_singleton. split; [intros ->; exists (root_node issuer); auto|].
    intros (n & [<-|[]] & Hk). by simpl in Hk.
Qed.

(** ** Where no attenuation is asked, the walk is exact *)

Section Plain.
Hypothesis plain : enforce_attenuation_and_sub_delegation policy = false.
Hypothesis no_epochs : root_authority lens = None.

(** The edges of a key that pass the gates. *)
Definition edges_at (key : string) : list Attestation :=
  List.filter (passes_gates (root_node key)) (out_rows key).

Lemma plain_edges n : (n_depth n < effective_depth)%nat -> node_edges n = edges_at (n_key n).
Proof.
  intros Hd. unfold node_edges, may_delegate. rewrite plain. apply Nat.ltb_lt in Hd. rewrite Hd. simpl.
  unfold edges_at. apply List.filter_ext. intros r. unfold passes_gates, attenuates, admits_root_edge.
  rewrite plain, no_epochs. simpl. by rewrite !orb_true_r.
Qed.

(** A key is [m] live edges away from the issuer. *)
Inductive hops (issuer : string) : nat -> string -> Prop :=
| hops_0 : hops issuer 0 issuer
| hops_S m k r : hops issuer m k -> In r (edges_at k) -> hops issuer (S m) (attested_key_id r).

Lemma live_hops issuer n : live_node issuer n -> hops issuer (n_depth n) (n_key n).
Proof.
  induction 1 as [|n r Hn IH Hr]; [constructor|]. simpl. econstructor; [exact IH|].
  rewrite <- plain_edges; [done|]. pose proof (live_depth issuer n r Hn Hr). lia.
Qed.

Lemma hops_taken issuer P cf : closed P cf -> c_queue cf = [] -> In (root_node issuer) P ->
  forall m k, hops issuer m k -> (m < effective_depth)%nat -> exists n, In n P /\ n_key n = k /\ (n_depth n <= m)%nat.
Proof.
  intros Hc Hq Hr m k Hh. induction Hh as [|m k r Hh IH He]; intros Hm.
  - exists (root_node issuer). done.
  - destruct IH as (n & Hn & Hk & Hle); [lia|].
    destruct (Hc n r Hn) as [_ Hl]; [rewrite plain_edges, Hk by lia; done|].
    destruct Hl as (n' & Hn' & Hk' & Hle'); [lia|]. rewrite Hq, app_nil_r in Hn'. exists n'. split_and!; try done. lia.
Qed.

Lemma core_exact issuer fuel cf k : core_loop fuel (core_start issuer) = Some cf ->
  k ∈ c_reached cf <-> exists m, (1 <= m <= effective_depth)%nat /\ hops issuer m k.
Proof.
  intros E. split.
  - intros Hk. destruct (core_loop_sound issuer fuel _ _ (start_sound issuer) E) as (_ & Hs & _).
    destruct (Hs k Hk) as (n & r & Hn & Hr & <-). pose proof (live_depth issuer n r Hn Hr).
    exists (S (n_depth n)). split; [lia|]. econstructor; [by apply live_hops|]. rewrite <- plain_edges; [done|lia].
  - intros (m & Hm & Hh). destruct (start_breadth issuer) as [HB HC].
    destruct (core_loop_closed fuel [] 0 _ _ HB HC E) as (P & Hsub & Hc & Hq).
    inversion Hh as [|m' k' r Hh' Hr]; subst; [lia|].
    destruct (hops_taken issuer P cf Hc Hq) with (m := m') (k := k') as (n & Hn & Hk & Hle); [|done|lia|].
    + apply Hsub. by left.
    + destruct (Hc n r Hn) as [Hreach _]; [|done]. rewrite plain_edges, Hk by lia. done.
Qed.
End Plain.

End Walk.

(** ** The walk from a key *)

Notation eff max_depth := (Nat.min max_depth MAX_WITHDRAWS_DELEGATION_DEPTH).

(** What [scoped_delegation_reach_at] answers, against the loop. *)
Lemma reach_spec fuel issuer targets scope max_depth policy lens : (enough <= fuel)%nat ->
  exists o, scoped_delegation_reach_at rt dir fuel issuer targets scope max_depth policy lens = Some (inr o) /\
    ((eff max_depth = 0 /\ hit_target o = false /\ reached o = ∅ /\ traversed o = ∅)%nat \/
     exists cf, eff max_depth <> 0%nat /\ core_loop scope (eff max_depth) policy lens fuel (core_start issuer) = Some cf /\
       (hit_target o = true <-> exists k, k ∈ targets /\ k ∈ c_reached cf) /\
       reached o ⊆ c_reached cf /\ traversed o ⊆ c_edges cf /\
       (hit_target o = false -> reached o = c_reached cf /\ traversed o = c_edges cf)).
Proof.
  intros Hf. unfold scoped_delegation_reach_at, scoped_delegation_reach_at_depth.
  destruct (Nat.eqb (eff max_depth) 0) eqn:E.
  - apply Nat.eqb_eq in E. destruct (onward_read scope lens issuer true) as [b ->]. rewrite ok_bind.
    eexists. split; [done|]. by left.
  - apply Nat.eqb_neq in E. destruct (start_total scope (eff max_depth) policy lens issuer fuel Hf) as [cf Hcf].
    destruct (walk_spec scope (eff max_depth) policy lens targets fuel (start issuer) cf) as (o & -> & H'); [|done| |exact Hcf|].
    + intros k x. simpl. by rewrite lookup_empty.
    + intros k _. simpl. set_solver.
    + exists o. split; [done|]. right. exists cf. done.
Qed.

(** With no targets the walk runs to its end. *)
Lemma enumerate_spec fuel issuer scope max_depth policy lens : (enough <= fuel)%nat ->
  exists o, scoped_delegation_reach_at rt dir fuel issuer ∅ scope max_depth policy lens = Some (inr o) /\
    ((eff max_depth = 0%nat /\ reached o = ∅) \/
     exists cf, eff max_depth <> 0%nat /\ core_loop scope (eff max_depth) policy lens fuel (core_start issuer) = Some cf /\
       reached o = c_reached cf).
Proof.
  intros Hf. destruct (reach_spec fuel issuer ∅ scope max_depth policy lens Hf) as (o & E & [(? & ? & ? & ?)|(cf & H0 & Hcf & Hh & _ & _ & Heq)]).
  - exists o. split; [done|]. by left.
  - exists o. split; [done|]. right. exists cf. split; [done|]. split; [done|]. apply Heq.
    apply not_true_iff_false. intros (k & Hk & _)%Hh. set_solver.
Qed.

Lemma predicate_enumerates fuel issuer targets scope max_depth policy lens : (enough <= fuel)%nat ->
  exists o o', scoped_delegation_reach_at rt dir fuel issuer targets scope max_depth policy lens = Some (inr o) /\
    scoped_delegation_reach_at rt dir fuel issuer ∅ scope max_depth policy lens = Some (inr o') /\
    (hit_target o = true <-> exists k, k ∈ targets /\ k ∈ reached o').
Proof.
  intros Hf. destruct (reach_spec fuel issuer targets scope max_depth policy lens Hf) as (o & E & H1).
  destruct (enumerate_spec fuel issuer scope max_depth policy lens Hf) as (o' & E' & H2).
  exists o, o'. split; [done|]. split; [done|].
  destruct H1 as [(Hz & Hh & _)|(cf & Hz & Hcf & Hh & _)], H2 as [(Hz' & Hr)|(cf' & Hz' & Hcf' & Hr)]; try done.
  - rewrite Hh, Hr. split; [done|]. intros (k & _ & Hk). set_solver.
  - rewrite Hh, Hr. rewrite Hcf in Hcf'. by injection Hcf' as <-.
Qed.

(** ** Named moderators *)

Lemma roots_agree fuel now k duty roots : (enough <= fuel)%nat ->
  exists s, reach_of_roots rt dir fuel now duty roots = Some (inr s) /\
    any_root_reaches rt dir fuel now k duty roots = Some (inr (bool_decide (k ∈ s))).
Proof.
  intros Hf. induction roots as [|root roots (s & Es & Ea)]; simpl; [by exists ∅|].
  unfold issuer_reaches_target_via_scoped_delegation, enumerate_scoped_delegation_reach, scoped_delegation_reach.
  set (lens := if is_issuance_scope duty then _ else _).
  destruct (predicate_enumerates fuel root {[k]} duty MAX_MODERATION_DELEGATION_DEPTH MODERATION_DUTY lens Hf)
    as (o & o' & -> & -> & Hh).
  rewrite !some_bind, !ok_bind, Es, some_bind, ok_bind. eexists. split; [done|].
  destruct (root =s k) eqn:Ek.
  - apply String.eqb_eq in Ek as ->. rewrite bool_decide_true; [done|set_solver].
  - apply String.eqb_neq in Ek. destruct (hit_target o).
    + destruct (proj1 Hh eq_refl) as (k' & ->%elem_of_singleton & Hk'). rewrite bool_decide_true; [done|set_solver].
    + rewrite Ea. do 2 f_equal. apply bool_decide_ext.
      assert (k ∉ reached o') by (intros Hk; destruct Hh as [_ Hh]; discriminate Hh; exists k; set_solver).
      set_solver.
Qed.

Lemma sort_strings_In s l : s ∈ sort_strings l <-> s ∈ l.
Proof. rewrite !list_elem_of_In. apply sort_by_In. Qed.

(** The appointments of a root that [Roster] asks for are answered, and each rests on a chain
    of appointments live at the instant, in the community, the first of them issued while the
    root held authority. *)
Lemma moderation_reach_rests fuel reads community_id root t iv term : (enough <= fuel)%nat ->
  affiliation_role_term_at reads community_id t = inr term ->
  exists l, moderation_reach_of_at_within rt dir fuel reads community_id root t iv = Some (inr l) /\
    forall k, k ∈ l -> Reaches DELEGATION_SCOPE_MODERATE MAX_MODERATION_DELEGATION_DEPTH MODERATION_DUTY
                        (mk_lens (Some t) (Some community_id) iv term) root k.
Proof.
  intros Hf Ht. unfold moderation_reach_of_at_within. rewrite Ht.
  destruct (enumerate_spec fuel root DELEGATION_SCOPE_MODERATE MAX_MODERATION_DELEGATION_DEPTH MODERATION_DUTY
              (mk_lens (Some t) (Some community_id) iv term) Hf) as (o & -> & [[Hz _]|(cf & _ & Hcf & Hr)]); [done|].
  rewrite some_bind, ok_bind. eexists. split; [done|]. intros k Hk. apply elem_of_elements in Hk. rewrite Hr in Hk.
  destruct (core_loop_sound _ _ _ _ root fuel _ _ (start_sound _ _ _ _ root) Hcf) as (_ & Hs & _). by apply Hs.
Qed.

(** ** The properties *)

(** C13. The walk ends and what it reports rests on live chains: over a store, with fuel for its
    rows, a walk answers; each key it reached, each edge it traversed and each target it hit
    is at the end of a chain of at most the capped number of edges, each issued by the key
    before it, carrying the scope, admitted by the lens, retracted neither by its granter nor
    by name, and, where the policy asks, narrowing the scope before it through keys that were
    deputized and whose allowance was not spent. *)
Theorem reach_sound fuel issuer targets scope max_depth policy lens : (enough <= fuel)%nat ->
  let chain := Reaches scope (eff max_depth) policy lens issuer in
  exists o, scoped_delegation_reach_at rt dir fuel issuer targets scope max_depth policy lens = Some (inr o) /\
    (hit_target o = true -> exists k, k ∈ targets /\ chain k) /\
    (forall k, k ∈ reached o -> chain k) /\
    (forall id, id ∈ traversed o -> OnChain scope (eff max_depth) policy lens issuer id) /\
    (forall n r, live_node scope (eff max_depth) policy lens issuer n -> In r (node_edges scope (eff max_depth) policy lens n) ->
       (S (n_depth n) <= eff max_depth)%nat).
Proof.
  intros Hf. destruct (reach_spec fuel issuer targets scope max_depth policy lens Hf)
    as (o & E & [(_ & Hh & Hr & Ht)|(cf & _ & Hcf & Hh & Hr & Ht & _)]); exists o; (split; [done|]).
  - rewrite Hh, Hr, Ht. split; [done|]. split; [set_solver|]. split; [set_solver|]. intros n r. apply live_depth.
  - destruct (core_loop_sound _ _ _ _ issuer fuel _ _ (start_sound _ _ _ _ issuer) Hcf) as (_ & Hs & He).
    split; [|split; [|split]].
    + intros (k & Hk & Hc)%Hh. eauto.
    + intros k Hk. apply Hs. set_solver.
    + intros id Hid. apply He. set_solver.
    + intros n r. apply live_depth.
Qed.

(** C12. Where the policy asks no attenuation, as for the proxy that revokes consent, the walk is
    exact: a target is hit exactly when some target is one or more live edges away from the
    issuer, within the cap. *)
Theorem proxy_reach_exact fuel now issuer targets max_depth : (enough <= fuel)%nat ->
  exists o, consent_revocation_reach rt dir fuel now issuer targets max_depth = Some (inr o) /\
    (hit_target o = true <->
     exists k m, k ∈ targets /\ (1 <= m <= eff max_depth)%nat /\
       hops DELEGATION_SCOPE_CONSENT_REVOCATION CONSENT_REVOCATION default_lens issuer m k).
Proof.
  intros Hf. unfold consent_revocation_reach, scoped_delegation_reach. simpl.
  destruct (reach_spec fuel issuer targets DELEGATION_SCOPE_CONSENT_REVOCATION max_depth CONSENT_REVOCATION default_lens Hf)
    as (o & E & [(Hz & Hh & _)|(cf & _ & Hcf & Hh & _)]); exists o; (split; [exact E|]).
  - rewrite Hh. split; [done|]. intros (k & m & _ & Hm & _). lia.
  - rewrite Hh. split.
    + intros (k & Hk & Hc). apply (core_exact _ _ CONSENT_REVOCATION default_lens eq_refl eq_refl issuer fuel cf k Hcf) in Hc as (m & Hm & Hs). eauto.
    + intros (k & m & Hk & Hm & Hs). exists k. split; [done|].
      apply (core_exact _ _ CONSENT_REVOCATION default_lens eq_refl eq_refl issuer fuel cf k Hcf). eauto.
Qed.

(** C11. A key is a named moderator exactly when the list of named moderators holds it: the
    predicate, which stops at its target, and the enumeration, which runs to its end, agree on
    every key, duty and community, and fail together where the roots cannot be read. *)
Theorem named_moderator_iff fuel reads now k community_id duty : (enough <= fuel)%nat ->
  match moderation_duty_roots reads community_id with
  | inl e => is_named_moderator rt dir fuel reads now k community_id duty = Some (inl e) /\
             moderators_of rt dir fuel reads now community_id duty = Some (inl e)
  | inr _ => exists ms, moderators_of rt dir fuel reads now community_id duty = Some (inr ms) /\
               is_named_moderator rt dir fuel reads now k community_id duty = Some (inr (bool_decide (k ∈ ms)))
  end.
Proof.
  intros Hf. unfold is_named_moderator, moderators_of. destruct (moderation_duty_roots reads community_id) as [e|roots]; [done|].
  destruct (roots_agree fuel now k duty (elements roots) Hf) as (s & -> & ->). rewrite some_bind, ok_bind.
  eexists. split; [done|]. do 2 f_equal. apply bool_decide_ext. by rewrite sort_strings_In, elem_of_elements.
Qed.
End Reach.

(** The verdict with reasons is [Reachable] exactly when the plain answer is yes, and
    unavailable exactly when the plain answer is an error. *)
Theorem reasons_agree `{Rfc3339} rt dir fuel now issuer target scope max_depth :
  let plain := reachable_under_scope rt dir fuel now issuer target scope max_depth in
  let verdict := reachable_under_scope_with_reasons rt dir fuel now issuer target scope max_depth in
  (verdict = Some Reachable <-> plain = Some (inr true)) /\
  (verdict = Some SubstrateUnavailable <-> exists e, plain = Some (inl e)).
Proof.
  unfold reachable_under_scope, reachable_under_scope_with_reasons, issuer_reaches_target_via_scoped_delegation,
    scoped_delegation_reach, scoped_delegation_reach_at, scoped_delegation_reach_at_depth. simpl.
  destruct (Nat.eqb (Nat.min max_depth MAX_WITHDRAWS_DELEGATION_DEPTH) 0).
  - simpl. destruct (scoped_delegates_onward _ _ _ _ _) as [e|b]; simpl; [naive_solver|]. destruct b; naive_solver.
  - destruct (walk_loop _ _ _ _ _ _ _ _ _) as [[e|o]|]; simpl; [naive_solver| |naive_solver].
    unfold classify_reach. destruct (hit_target o); [naive_solver|]. repeat case_match; naive_solver.
Qed.

(** ** Concrete walks *)

Module ReachSamples.
Import TrustSamples.
#[export] Instance no_terms : Rfc3339 := {| parse_from_rfc3339 := fun _ => None |}.

Definition appoints (id by_ to_ : string) (at_ : Z) (sub : bool) : Attestation :=
  deleg id by_ to_ "governance:appointment:v1" at_ [("scope", Array [Str "moderate"]); ("sub_delegation", Bool sub)].
(** A founder appoints [ann], with leave to deputize, and [bea], without; [ann] deputizes
    [bea] with leave, and [bea] deputizes [cy]. *)
Definition room : list Attestation :=
  [appoints "1" "root" "ann" 10%Z true; appoints "2" "root" "bea" 20%Z false;
   appoints "3" "ann" "bea" 30%Z true; appoints "4" "bea" "cy" 40%Z true].
(** The same without the founder's own appointment of [bea]. *)
Definition without_direct : list Attestation :=
  [appoints "1" "root" "ann" 10%Z true; appoints "3" "ann" "bea" 30%Z true; appoints "4" "bea" "cy" 40%Z true].
Definition reads : ModerationReads :=
  mk_moderation_reads (fun _ => inr (Some [mk_CommunityMember "root" 0%Z (Some "founder")])) (fun _ => inr true)
    (fun _ _ => inr None).
Definition proxies : list Attestation :=
  [deleg "p" "subject" "guardian" "consent:proxy:v1" 10%Z [("scope", Str "consent_revocation")];
   deleg "q" "guardian" "clinic" "consent:proxy:v1" 20%Z [("scope", Str "consent_revocation")]].
Lemma holds_rows st : NoDup (map attestation_id st) -> Holds st [] (over st).
Proof. intros Hnd. by apply directory_over_holds. Qed.
End ReachSamples.
Import ReachSamples.

(** The chain of [cy] through [ann] is deputized at every key, but [bea] is first visited by the
    edge that deputizes nobody, and her own edges are not followed: an appointment more makes a
    moderator less. *)
Example direct_appointment_hides_chain :
  moderators_of PrecedenceSamples.rt0 (TrustSamples.over without_direct) 10 reads 100%Z "room" "moderate"
  = Some (inr ["ann"; "bea"; "cy"; "root"]) /\
  moderators_of PrecedenceSamples.rt0 (TrustSamples.over room) 10 reads 100%Z "room" "moderate"
  = Some (inr ["ann"; "bea"; "root"]).
Proof. split; vm_compute; reflexivity. Qed.

Lemma reach_sound_witness :
  exists o, scoped_delegation_reach_at PrecedenceSamples.rt0 (TrustSamples.over room) 10 "root" ∅ "moderate" 5
              MODERATION_DUTY default_lens = Some (inr o).
Proof.
  destruct (reach_sound PrecedenceSamples.rt0 room [] (TrustSamples.over room)
              (Holds0 := holds_rows room ltac:(vm_compute; repeat constructor; set_solver))
              10 "root" ∅ "moderate" 5 MODERATION_DUTY default_lens) as (o & E & _); [vm_compute; lia|].
  by exists o.
Defined.

Lemma proxy_reach_exact_witness :
  exists o, consent_revocation_reach PrecedenceSamples.rt0 (TrustSamples.over proxies) 10 0%Z "subject" {["clinic"]} 16
            = Some (inr o) /\ hit_target o = true.
Proof.
  destruct (proxy_reach_exact PrecedenceSamples.rt0 proxies [] (TrustSamples.over proxies)
              (Holds0 := holds_rows proxies ltac:(vm_compute; repeat constructor; set_solver))
              10 0%Z "subject" {["clinic"]} 16) as (o & E & Hh); [vm_compute; lia|].
  exists o. split; [exact E|]. vm_compute in E. injection E as <-. reflexivity.
Defined.

Lemma named_moderator_iff_witness :
  is_named_moderator PrecedenceSamples.rt0 (TrustSamples.over room) 10 reads 100%Z "cy" "room" "moderate"
  = Some (inr false).
Proof.
  pose proof (named_moderator_iff PrecedenceSamples.rt0 room [] (TrustSamples.over room)
              (Holds0 := holds_rows room ltac:(vm_compute; repeat constructor; set_solver))
              10 reads 100%Z "cy" "room" "moderate" ltac:(vm_compute; lia)) as Hn.
  simpl in Hn. destruct Hn as (ms & Hm & ->). vm_compute in Hm. injection Hm as <-. vm_compute. reflexivity.
Defined.
